(* ===== verification/_CoqProject ===== *)
-Q . S2P
Prelude.v
GoStd.v
Types.v
Schema.v
Bytes.v
Wal.v
Table.v
Engine.v
Txn.v
Recovery.v
Accessor.v
Ast.v
Lexer.v
Parser.v
Grammar.v
Printer.v
Eval.v
Exec.v
ExecDemo.v
Select.v
Safety.v
SelectDemo.v
Protocol.v
Server.v
ServerDemo.v
NoPanic.v
Net.v
Overlap.v
NetDemo.v
Durable.v
Tsqld.v
DurableDemo.v
Client.v
ClientDemo.v
