(* ===== verification/Prelude.v ===== *)
(** * TSQL: a small SQL database, modelled and verified

    TSQL is a database server written in Go: a SQL parser, an executor, a storage
    engine with a write-ahead log, snapshots and transactions, a TCP server with a
    JSON protocol and a command-line client.  This library translates the program
    into Rocq functions and proves what makes its parts correct.  File names below
    are under [src/]; names of definitions are those of the source where Rocq
    allows it.

    ** How the program hangs together

    A statement typed into the client (cmd/tsql/main.go) travels as a frame
    (internal/protocol) to the server (internal/server), which parses it
    (internal/parser) and runs it by the executor (internal/executor) on a
    [storage.Accessor]: the engine itself, or the open transaction of the
    connection.  The engine (internal/storage/engine.go) keeps tables with UNIQUE
    indexes in memory, logs every change (wal.go), writes snapshots (snapshot.go)
    and rebuilds its tables from both when it opens; a transaction (txn.go)
    buffers its writes until COMMIT.  Values and table definitions are in
    internal/types and internal/schema.

    ** The files

    - [Prelude]: errors, the result type [res], the state monad [GoM] of Go methods
      (the state is kept when an error returns), machine integers, shared lemmas,
      automation.  [GoStd]: the parts of Go's standard library the program computes
      with: [float64], [strconv], [time].  [Bytes]: integers as bytes, CRC-32.
    - [Types] (types.go): values, their order, conversion to a column type.
      [Schema] (schema.go): columns, table definitions, validation.
    - [Wal] (wal.go, gob.go): the bytes of the log, the scan of [ReadRecords], the
      log file; and the abstract log it refines.
    - [Table] (engine.go): rows and UNIQUE indexes of one table.  [Engine]
      (engine.go, snapshot.go): catalogue, autocommit writes, reads, checkpoints,
      [Open].  [Recovery]: what a crash leaves and what [Open] makes of it.
    - [Txn] (txn.go): explicit transactions.  [Accessor]: the interface between
      executor and storage as a class with its laws (reads, indexes, writes), and
      its two instances.
    - [Ast], [Lexer], [Parser] (parser.go): syntax trees, tokens, the
      recursive-descent parser.  [Grammar]: the SQL grammar as inductive relations.
      [Printer]: a printer that the parser inverts.
    - [Eval], [Exec], [Select] (executor.go): expressions and aggregates; DDL,
      INSERT, UPDATE, DELETE and foreign keys; SELECT.  [ExecDemo] and [SelectDemo]
      hold instances and runs.
    - [Protocol] (protocol.go): frames.  [Server] (server.go, and [Exec] of
      executor.go): one connection.  [Net]: all connections on one engine, message
      by message.  [Overlap]: a message with the storage calls of other connections
      between its own.  [Durable]: the server over checkpoints, kills and restarts.
      [Tsqld] (cmd/tsqld/main.go): the process from its flags to its exit status.
      [Client] (cmd/tsql/main.go): rendering, the REPL, one-shot mode and [main], on
      a connection that can break.  [ServerDemo], [NetDemo], [DurableDemo] and
      [ClientDemo] run whole conversations.
    - [Safety] and [NoPanic]: no statement indexes outside a row.

    State is a record per component ([Table], [Engine], [Txn], [WAL], [connState],
    [clientConn]) that the operations take and return.  I/O outcomes come from a
    list in the engine ([e_io]), so that theorems quantify over all failures.

    ** What is shown

    - Storage: every engine command, on every branch and I/O outcome, steps an
      abstract database of tables ([engine_refines]); the log file refines a list
      of records and survives a torn tail and a corrupt byte ([wal_refines_log],
      [OpenWAL_after_crash], [ReadRecords_corrupt_byte]); a snapshot restores all
      but, when the newest table was dropped, the counter of table ids
      ([snapshot_roundtrip]).  For runs of [sys_step] (from a fresh directory, log
      writes failing anywhere, no fsync error, only checkpoints with [ckpt_safe],
      counters with room): reopening restores the tables in memory
      ([recovery_exact]); after a crash that cuts the log file anywhere it gives
      the transactions whose commit record is left, and if the cut spares the
      bytes that were synced with the last commit, the tables at the crash
      ([crash_recovery]).
    - Transactions: reads see the committed rows under the buffer, writes are
      isolated, COMMIT publishes all or nothing, ROLLBACK nothing
      ([txn_reads_view], [txn_writes_isolated], [commit_publishes],
      [rollback_discards]).
    - Statements: INSERT, UPDATE and DELETE keep referential integrity and column
      types ([insert_keeps_fk] and the like; INSERT into tables whose primary key is
      not a foreign key); the UNIQUE shortcut agrees with the
      scan ([index_agrees_scan]); joins, grouping, ordering, WHERE and aggregates
      compute what SQL says ([inner_join_product], [left_join_rows], [select_reference],
      [group_by_partitions], [group_key_exact], [order_by_correct],
      [where_kleene], [validated_columns], [aggregates_correct],
      [arithmetic_int]).
    - SQL text: lexing and parsing end on every text, accept only what the grammar
      derives with that tree, and invert the printers ([parse_terminates],
      [parse_sound], [parse_print], [lex_roundtrip]).
    - Server: one reply and one ready message per message that does not panic, and
      what of them is on the wire ([dispatch_replies]); isolation of open
      transactions, rollback on disconnection ([txn_message_isolated],
      [disconnect_aborts]).  In runs of [calm_step] (messages of all connections
      interleaved, CREATE and DROP TABLE only while no other connection is in a
      transaction, id counters not wrapped) tables and buffers stay well formed
      ([reachable_ok]) and no statement panics whose derived tables are not named
      like stored ones ([no_panic]), also when messages overlap in time, without
      DDL ([overlap_no_panic]).
    - Durability, for the server as a whole, in runs of [life_step] (the conditions
      of [sys_step] and on DDL above; kills between two messages, and only with no
      unfinished commit in the log): a kill and a restart find the tables the
      connections saw ([restart_finds_all]); a COMMIT that was answered with ok is
      in them ([acknowledged_commit_survives]); a process that ends with status 0
      has saved everything, if the newest table was not dropped and pruning keeps
      the last snapshot ([exit0_saves_all]).
    - Client: frames round trip ([frames_roundtrip]).  With SQL lines only, nothing
      unread at the start, and queries and replies that fit a frame: the client
      stays in step with the server on a connection that holds, if no statement
      panics ([repl_in_order]); when the connection breaks or a statement makes
      the server panic, it says so and ends, and the server drops the open
      transaction ([connection_lost]).

    Examples without such a name show runs where the code does something else than
    it means to; the hypotheses of the theorems mark the border.

    ** Fuel and bounds

    The lexer has the length of the text plus one as fuel, the loops and the
    recursion of the parser the number of tokens; [parse_terminates] shows that
    neither runs out.  The scan of the log has the length of the file as fuel, one
    record taking at least one byte.  A query recurses on its syntax tree.  Machine
    integers wrap around where Go's do ([wrap64], [wrapu64], [wrapu32]); theorems
    that need a counter not to wrap say so ([room], [acc_room], [counters_ok],
    [msg_budget]).

    ** What enters as a parameter

    [encoding/gob], [encoding/json] and [strconv.Quote] are code outside the
    repository: they are the classes [Gob], [Json] and [Quoter], with the contract
    their documentation gives, and instances in the demo files show that the
    contracts can hold.  The sockets and the directory of the server process, and
    the dialling of the client, are arguments of their [main]s.  [time.Now] is the
    argument [now], one value per statement.  [sort.SliceStable] is a stable insertion sort, [sort.Slice]
    a sort of keys that differ.  Error messages keep their format and arguments
    unrendered: nothing in the program looks inside the text.

    ** What is not modelled

    - The mutexes themselves: a storage call is atomic.  What other connections do
      between the calls of one message is the subject of [Overlap], for panics, and
      of examples in [NetDemo] and [DurableDemo] for what does go wrong; the other
      theorems are about messages one at a time.  In [Overlap] a table is read as of
      one moment between two writes.  A background checkpoint is a command of its own.
    - Parsing of command lines, deadlines, logging and the cancellation context of
      the server; that the server closes an idle connection is a case of a broken
      connection in [Client].
    - The bytes of snapshots, manifest and meta.json (the [Disk] record holds their
      contents; that they cannot be read or decoded when the directory is opened is
      an outcome of [Open], and [openLog], which the theorems on recovery use, is
      [Open] without I/O errors), [fsync] of directories, and files that cannot be
      removed.
    - What follows a panic: the process ends ([Server.panics]; the connection
      breaks in [Client]), but [Net] and [Durable] go on with the state the panic
      left, so that their runs include those of the code and more. *)
From stdpp Require Export base gmap strings list sorting pretty.
From Stdlib Require Export ZArith.

(** ** Machine integers

    Go integers are kept as [Z]; an operation that can leave the range of its
    type is followed by the wrap-around of that type. *)
Definition int64_min : Z := - 2 ^ 63.
Definition int64_max : Z := 2 ^ 63 - 1.
Definition wrap64 (z : Z) : Z := (z + 2 ^ 63) mod 2 ^ 64 - 2 ^ 63.
Definition wrapu64 (z : Z) : Z := z mod 2 ^ 64.
Definition wrapu32 (z : Z) : Z := z mod 2 ^ 32.
Definition in_int64 (z : Z) : Prop := (int64_min ≤ z ≤ int64_max)%Z.

#[global] Instance in_int64_dec z : Decision (in_int64 z).
Proof. unfold in_int64; apply _. Defined.

(** ** Errors

    A Go error is one of the sentinel values of the storage package, an error
    of the operating system, or a formatted error.  Formatted errors keep the
    format string and its arguments: nothing in the program looks inside the
    rendered text. *)
Inductive error :=
  | ErrNoTable
  | ErrExists
  | ErrNoRow
  | ErrUnique
  | ErrTxnDone
  | ErrIO
  | Errorf (fmt : string) (args : list arg)
  | SQLError (code : string) (fmt : string) (args : list arg)
with arg :=
  | AStr (s : string)
  | AInt (z : Z)
  | AErr (e : error).

Inductive res (A : Type) : Type :=
  | Ok (a : A)
  | Err (e : error).
Arguments Ok {_} _.
Arguments Err {_} _.

#[global] Instance res_ret : MRet res := λ A a, Ok a.
#[global] Instance res_bind : MBind res := λ A B f m,
  match m with Ok a => f a | Err e => Err e end.
#[global] Instance res_fmap : FMap res := λ A B f m,
  match m with Ok a => Ok (f a) | Err e => Err e end.

Definition is_Ok {A} (m : res A) : Prop := ∃ a, m = Ok a.

Definition res_of_option {A} (e : error) (o : option A) : res A :=
  match o with Some a => Ok a | None => Err e end.

(** The early return of Go: [guard_err b e] is [if b { return e }]. *)
Definition guard_err (b : bool) (e : error) : res unit :=
  if b then Err e else Ok tt.

(** ** State passing with errors

    An operation on a mutable object returns the object it leaves behind even
    when it fails: Go does not undo what was done before an error return. *)
Definition GoM (S A : Type) : Type := S → S * res A.

Definition gret {S A} (a : A) : GoM S A := λ s, (s, Ok a).
Definition gfail {S A} (e : error) : GoM S A := λ s, (s, Err e).
Definition gbind {S A B} (m : GoM S A) (k : A → GoM S B) : GoM S B := λ s,
  match m s with
  | (s', Ok a) => k a s'
  | (s', Err e) => (s', Err e)
  end.
Definition gget {S} : GoM S S := λ s, (s, Ok s).
Definition gmodify {S} (f : S → S) : GoM S unit := λ s, (f s, Ok tt).
Definition glift {S A} (m : res A) : GoM S A := λ s, (s, m).

Declare Scope go_scope.
Delimit Scope go_scope with go.
Notation "x <-- m ;; k" := (gbind m (λ x, k))
  (at level 100, m at next level, right associativity) : go_scope.
Notation "m ;;; k" := (gbind m (λ _, k))
  (at level 100, right associativity) : go_scope.

(** Run an operation on each element in order, stopping at the first error. *)
Fixpoint gforeach {S A} (f : A → GoM S unit) (l : list A) : GoM S unit :=
  match l with
  | [] => gret tt
  | x :: l => gbind (f x) (λ _, gforeach f l)
  end.

Fixpoint res_foreach {A} (f : A → res unit) (l : list A) : res unit :=
  match l with
  | [] => Ok tt
  | x :: l => match f x with Ok _ => res_foreach f l | Err e => Err e end
  end.

(** ** Automation *)
Create HintDb tsql.

(** Destruct the scrutinee of a [match] that blocks a monadic hypothesis. *)
Ltac inv_step :=
  match goal with
  | H : Ok _ = Ok _ |- _ => injection H as H
  | H : Err _ = Err _ |- _ => injection H as H
  | H : Ok _ = Err _ |- _ => discriminate H
  | H : Err _ = Ok _ |- _ => discriminate H
  | H : (_, _) = (_, _) |- _ => injection H as ? ?
  | H : match ?x with _ => _ end = _ |- _ =>
      lazymatch x with
      | context [match _ with _ => _ end] => fail
      | _ => let E := fresh "E" in destruct x eqn:E
      end
  | H : (if ?x then _ else _) = _ |- _ => let E := fresh "E" in destruct x eqn:E
  end.
Ltac inv_res := repeat (inv_step; simplify_eq/=).

(** ** Loops *)
Lemma res_foreach_Ok {A} (f : A → res unit) l :
  res_foreach f l = Ok tt ↔ ∀ x, x ∈ l → f x = Ok tt.
Proof.
  induction l as [|x l IH]; simpl; [set_solver|].
  destruct (f x) as [[]|e] eqn:E.
  - rewrite IH. setoid_rewrite elem_of_cons. naive_solver.
  - split; [done|]. intros H. rewrite (H x) in E by set_solver. done.
Qed.

Lemma res_foreach_Err {A} (f : A → res unit) l e :
  res_foreach f l = Err e → ∃ x, x ∈ l ∧ f x = Err e.
Proof.
  induction l as [|x l IH]; simpl; [done|].
  destruct (f x) as [[]|e'] eqn:E; [|set_solver].
  intros (y & Hy & He)%IH. exists y. set_solver.
Qed.

(** ** Integers *)
Lemma wrap64_id z : in_int64 z → wrap64 z = z.
Proof.
  unfold in_int64, int64_min, int64_max, wrap64. intros ?.
  rewrite Z.mod_small; lia.
Qed.

Lemma wrap64_range z : in_int64 (wrap64 z).
Proof.
  unfold in_int64, int64_min, int64_max, wrap64.
  pose proof (Z.mod_pos_bound (z + 2 ^ 63) (2 ^ 64) ltac:(lia)). lia.
Qed.

Lemma wrapu32_id z : (0 ≤ z < 2 ^ 32)%Z → wrapu32 z = z.
Proof. intros ?. unfold wrapu32. apply Z.mod_small. lia. Qed.

Lemma wrapu64_id z : (0 ≤ z < 2 ^ 64)%Z → wrapu64 z = z.
Proof. intros ?. unfold wrapu64. apply Z.mod_small. lia. Qed.

(** The conversion of an [int64] to [uint64] and back is the identity. *)
Lemma wrap64_wrapu64 z : wrap64 (wrapu64 z) = wrap64 z.
Proof.
  unfold wrap64, wrapu64. rewrite Z.add_mod_idemp_l by lia. done.
Qed.

#[export] Hint Resolve wrap64_range : tsql.

(** ** Strings

    [strings.Compare] and [<] on Go strings compare bytes; [String.compare]
    is that order on the 8-bit characters of a Rocq string. *)
Definition str_le (s1 s2 : string) : Prop := String.leb s1 s2 = true.

#[global] Instance str_le_dec : RelDecision str_le.
Proof. intros s1 s2. unfold str_le. apply _. Defined.

#[global] Instance str_le_total : Total str_le.
Proof. intros s1 s2. apply String.leb_total. Qed.

#[global] Instance str_le_antisymm : AntiSymm (=) str_le.
Proof. intros s1 s2. apply String.leb_antisym. Qed.

Lemma str_compare_refl s : String.compare s s = Eq.
Proof.
  induction s as [|c s IH]; [done|]. simpl.
  unfold Ascii.compare. by rewrite N.compare_refl.
Qed.

Lemma str_compare_eq s1 s2 : String.compare s1 s2 = Eq ↔ s1 = s2.
Proof.
  split; [apply String.compare_eq_iff|intros ->; apply str_compare_refl].
Qed.

Lemma str_compare_lt_trans s1 s2 s3 :
  String.compare s1 s2 = Lt → String.compare s2 s3 = Lt →
  String.compare s1 s3 = Lt.
Proof.
  revert s2 s3. induction s1 as [|c1 s1 IH]; intros [|c2 s2] [|c3 s3]; simpl; try done.
  unfold Ascii.compare.
  destruct (N.compare_spec (Ascii.N_of_ascii c1) (Ascii.N_of_ascii c2)) as [H12|H12|H12];
  destruct (N.compare_spec (Ascii.N_of_ascii c2) (Ascii.N_of_ascii c3)) as [H23|H23|H23];
  intros; try done.
  - rewrite H12, H23, N.compare_refl. by eapply IH.
  - rewrite H12. apply N.compare_lt_iff in H23. by rewrite H23.
  - rewrite <-H23. apply N.compare_lt_iff in H12. by rewrite H12.
  - assert (Ascii.N_of_ascii c1 < Ascii.N_of_ascii c3)%N as H13 by lia.
    apply N.compare_lt_iff in H13. by rewrite H13.
Qed.

#[global] Instance str_le_trans : Transitive str_le.
Proof.
  intros s1 s2 s3. unfold str_le, String.leb.
  destruct (String.compare s1 s2) eqn:E12; [..|done];
  destruct (String.compare s2 s3) eqn:E23; try done; intros _ _.
  - apply str_compare_eq in E12 as ->, E23 as ->. by rewrite str_compare_refl.
  - apply str_compare_eq in E12 as ->. by rewrite E23.
  - apply str_compare_eq in E23 as ->. by rewrite E12.
  - by rewrite (str_compare_lt_trans _ _ _ E12 E23).
Qed.

(** ** Lists and maps *)

(** The keys of a Go [map] collected in a slice and sorted. *)
Definition sorted_keys {A} (m : gmap Z A) : list Z :=
  merge_sort Z.le (map_to_list m).*1.
Definition sorted_names {A} (m : gmap string A) : list string :=
  merge_sort str_le (map_to_list m).*1.

Lemma sorted_keys_perm {A} (m : gmap Z A) : sorted_keys m ≡ₚ (map_to_list m).*1.
Proof. apply merge_sort_Permutation. Qed.

Lemma elem_of_sorted_keys {A} (m : gmap Z A) k : k ∈ sorted_keys m ↔ is_Some (m !! k).
Proof.
  rewrite sorted_keys_perm, list_elem_of_fmap. split.
  - intros ([k' v] & -> & Hin). apply elem_of_map_to_list in Hin. eauto.
  - intros [v Hv]. exists (k, v). split; [done|]. by apply elem_of_map_to_list.
Qed.

Lemma sorted_keys_NoDup {A} (m : gmap Z A) : NoDup (sorted_keys m).
Proof. rewrite sorted_keys_perm. apply NoDup_fst_map_to_list. Qed.

Lemma sorted_keys_sorted {A} (m : gmap Z A) : StronglySorted Z.le (sorted_keys m).
Proof. apply StronglySorted_merge_sort; apply _. Qed.

Lemma sorted_names_perm {A} (m : gmap string A) : sorted_names m ≡ₚ (map_to_list m).*1.
Proof. apply merge_sort_Permutation. Qed.

Lemma elem_of_sorted_names {A} (m : gmap string A) k :
  k ∈ sorted_names m ↔ is_Some (m !! k).
Proof.
  rewrite sorted_names_perm, list_elem_of_fmap. split.
  - intros ([k' v] & -> & Hin). apply elem_of_map_to_list in Hin. eauto.
  - intros [v Hv]. exists (k, v). split; [done|]. by apply elem_of_map_to_list.
Qed.

Lemma sorted_names_NoDup {A} (m : gmap string A) : NoDup (sorted_names m).
Proof. rewrite sorted_names_perm. apply NoDup_fst_map_to_list. Qed.
