(* ===== verification/GoStd.v ===== *)
(** * The parts of Go's standard library that the database computes with

    - [float64]: IEEE 754 binary64 on [spec_float] (no axioms), with the
      conversions from and to [int64] and [math.Mod];
    - [strconv]: [FormatInt], [ParseInt], [FormatFloat(f, 'g', -1, 64)] (the
      shortest decimal that reads back as [f]) and [ParseFloat] on the number
      tokens of the lexer;
    - [time]: instants as nanoseconds since the Unix epoch in UTC, the civil
      calendar, and the layouts the program formats with. *)
From S2P Require Import Prelude.
From Stdlib Require Import Ascii.
From Stdlib Require Export SpecFloat.

(** ** float64 *)
Abbreviation f64 := spec_float.
Definition f64_add : f64 → f64 → f64 := SFadd 53 1024.
Definition f64_sub : f64 → f64 → f64 := SFsub 53 1024.
Definition f64_mul : f64 → f64 → f64 := SFmul 53 1024.
Definition f64_div : f64 → f64 → f64 := SFdiv 53 1024.
Definition f64_ltb : f64 → f64 → bool := SFltb.
Definition f64_eqb : f64 → f64 → bool := SFeqb.
Definition f64_zero : f64 := S754_zero false.

#[global] Instance f64_eq_dec : EqDecision f64.
Proof. solve_decision. Defined.

Definition f64_is_nan (f : f64) : bool :=
  match f with S754_nan => true | _ => false end.

(** [float64(i)]: round to nearest, ties to even. *)
Definition f64_of_int (i : Z) : f64 := binary_normalize 53 1024 i 0 false.

(** The integer part of a finite float, towards zero. *)
Definition f64_trunc (s : bool) (m : positive) (e : Z) : Z :=
  let a := if (0 <=? e)%Z then (Zpos m * 2 ^ e)%Z else (Zpos m / 2 ^ (- e))%Z in
  if s then (- a)%Z else a.

(** [int64(f)].  Out of range the language leaves the result to the
    implementation; this is the value of the amd64 instruction the packaged
    binaries use (the "integer indefinite" value). *)
Definition f64_to_int (f : f64) : Z :=
  match f with
  | S754_zero _ => 0
  | S754_finite s m e =>
      let z := f64_trunc s m e in
      if decide (in_int64 z) then z else int64_min
  | _ => int64_min
  end.

(** [math.Mod]: the sign of the result is that of the first argument; the
    result of the remainder of two multiples of [2^e] is exact. *)
Definition f64_mod (a b : f64) : f64 :=
  match a, b with
  | S754_nan, _ | _, S754_nan => S754_nan
  | S754_infinity _, _ => S754_nan
  | _, S754_zero _ => S754_nan
  | _, S754_infinity _ => a
  | S754_zero _, _ => a
  | S754_finite s m1 e1, S754_finite _ m2 e2 =>
      let e := Z.min e1 e2 in
      let r := (Z.shiftl (Zpos m1) (e1 - e) mod Z.shiftl (Zpos m2) (e2 - e))%Z in
      binary_normalize 53 1024 (if s then - r else r)%Z e s
  end.

(** ** strconv: integers *)
Definition FormatInt (i : Z) : string := pretty i.

Definition digit_val (c : Ascii.ascii) : option Z :=
  let n := Z.of_N (Ascii.N_of_ascii c) in
  if bool_decide (48 ≤ n ≤ 57)%Z then Some (n - 48)%Z else None.

Fixpoint digits_acc (s : string) (acc : Z) : option Z :=
  match s with
  | EmptyString => Some acc
  | String c s =>
      match digit_val c with
      | Some d => digits_acc s (acc * 10 + d)
      | None => None
      end
  end.

(** The value of a non-empty string of decimal digits. *)
Definition digits_val (s : string) : option Z :=
  match s with EmptyString => None | _ => digits_acc s 0 end.

(** [strconv.ParseInt(s, 10, 64)] on an unsigned token. *)
Definition ParseInt (s : string) : option Z :=
  match digits_val s with
  | Some z => if bool_decide (z ≤ int64_max)%Z then Some z else None
  | None => None
  end.

(** ** strconv: floats *)

(** [D * 10^x] correctly rounded, with the given sign; [0 ≤ D]. *)
Definition dec_round (neg : bool) (D x : Z) : f64 :=
  match D with
  | Zpos d =>
      if (0 <=? x)%Z then
        binary_normalize 53 1024 (if neg then - (D * 10 ^ x) else D * 10 ^ x)%Z 0 neg
      else
        let '(q, e, l) := SFdiv_core_binary 53 1024 D 0 (10 ^ (- x)) 0 in
        binary_round_aux 53 1024 neg q e l
  | _ => S754_zero neg
  end.

(** Split a token at its first ['.']. *)
Fixpoint split_dot (s : string) : string * option string :=
  match s with
  | EmptyString => (EmptyString, None)
  | String c s =>
      if bool_decide (c = "."%char) then (EmptyString, Some s)
      else let '(a, b) := split_dot s in (String c a, b)
  end.

(** [strconv.ParseFloat(s, 64)] on a token [digits '.' digits*]; a value that
    rounds to an infinity is a range error. *)
Definition ParseFloat (s : string) : option f64 :=
  match split_dot s with
  | (ip, Some fp) =>
      match digits_acc (ip +:+ fp) 0 with
      | Some d =>
          match dec_round false d (- Z.of_nat (String.length fp)) with
          | S754_infinity _ => None
          | f => Some f
          end
      | None => None
      end
  | (ip, None) => None
  end.

(** The exact decimal value [D * 10^x] of a finite float. *)
Definition exact_dec (m : positive) (e : Z) : Z * Z :=
  if (0 <=? e)%Z then (Zpos m * 2 ^ e, 0)%Z else (Zpos m * 5 ^ (- e), e)%Z.

Definition ndigits (D : Z) : Z := Z.of_nat (String.length (FormatInt D)).

(** The shortest digits: with [n] digits the two neighbours of the value are
    candidates; a candidate is usable when it reads back as the float, and
    when both are the nearer one is taken. *)
Fixpoint shortest (fuel : nat) (n : Z) (f : f64) (D x : Z) : Z * Z :=
  match fuel with
  | O => (D, x)
  | S fuel =>
      let k := (ndigits D - n)%Z in
      if (k <=? 0)%Z then (D, x) else
      let p := (10 ^ k)%Z in
      let down := (D / p)%Z in
      let up := (down + 1)%Z in
      let okdown := bool_decide (dec_round false down (x + k) = f) in
      let okup := bool_decide (dec_round false up (x + k) = f) in
      match okdown, okup with
      | true, true =>
          match (2 * (D mod p) ?= p)%Z with
          | Lt => (down, x + k)
          | Gt => (up, x + k)
          | Eq => if Z.even down then (down, x + k) else (up, x + k)
          end%Z
      | true, false => (down, x + k)%Z
      | false, true => (up, x + k)%Z
      | false, false => shortest fuel (n + 1) f D x
      end
  end.

Fixpoint strip_zeros (s : string) : string :=
  match s with
  | EmptyString => EmptyString
  | String c s' =>
      match strip_zeros s' with
      | EmptyString => if bool_decide (c = "0"%char) then EmptyString
                       else String c EmptyString
      | s'' => String c s''
      end
  end.

Fixpoint str_repeat (s : string) (n : nat) : string :=
  match n with O => EmptyString | S n => s +:+ str_repeat s n end.

(** [appendInt(b, v, width)] of package time: zero padding on the left. *)
Definition pad (width : nat) (v : Z) : string :=
  let s := FormatInt (Z.abs v) in
  (if (v <? 0)%Z then "-" else "") +:+ str_repeat "0" (width - String.length s) +:+ s.

Definition fmtE (ds : string) (dp : Z) : string :=
  let ex := (dp - 1)%Z in
  String.substring 0 1 ds
  +:+ (if bool_decide (String.length ds ≤ 1) then ""
       else "." +:+ String.substring 1 (String.length ds - 1) ds)
  +:+ "e" +:+ (if (ex <? 0)%Z then "-" else "+") +:+ pad 2 (Z.abs ex).

Definition fmtF (ds : string) (dp : Z) : string :=
  let nd := String.length ds in
  let n := Z.to_nat dp in
  if (dp <=? 0)%Z then
    "0" +:+ (if bool_decide (nd = 0) then "" else
               "." +:+ str_repeat "0" (Z.to_nat (- dp)) +:+ ds)
  else if bool_decide (nd ≤ n) then ds +:+ str_repeat "0" (n - nd)
  else String.substring 0 n ds +:+ "." +:+ String.substring n (nd - n) ds.

(** [strconv.FormatFloat(f, 'g', -1, 64)]. *)
Definition FormatFloat (f : f64) : string :=
  match f with
  | S754_nan => "NaN"
  | S754_infinity true => "-Inf"
  | S754_infinity false => "+Inf"
  | S754_zero s => if s then "-0" else "0"
  | S754_finite s m e =>
      let '(D, x) := exact_dec m e in
      let '(D', x') := shortest 17 1 (S754_finite false m e) D x in
      let dp := (ndigits D' + x')%Z in
      let ds := strip_zeros (FormatInt D') in
      let ex := (dp - 1)%Z in
      (if s then "-" else "")
      +:+ (if (ex <? -4)%Z || (6 <=? ex)%Z then fmtE ds dp else fmtF ds dp)
  end.

(** ** time *)

(** Days since 1970-01-01 to year, month and day of the proleptic Gregorian
    calendar (400-year eras of 146097 days starting on 1 March). *)
Definition civil_of_days (days : Z) : Z * Z * Z :=
  let z := (days + 719468)%Z in
  let era := (z / 146097)%Z in
  let doe := (z mod 146097)%Z in
  let yoe := ((doe - doe / 1460 + doe / 36524 - doe / 146096) / 365)%Z in
  let doy := (doe - (365 * yoe + yoe / 4 - yoe / 100))%Z in
  let mp := ((5 * doy + 2) / 153)%Z in
  let d := (doy - (153 * mp + 2) / 5 + 1)%Z in
  let m := (if mp <? 10 then mp + 3 else mp - 9)%Z in
  let y := (yoe + era * 400 + (if m <=? 2 then 1 else 0))%Z in
  (y, m, d).

Definition days_of_civil (y m d : Z) : Z :=
  let y' := (if m <=? 2 then y - 1 else y)%Z in
  let era := (y' / 400)%Z in
  let yoe := (y' mod 400)%Z in
  let mp := (if m <=? 2 then m + 9 else m - 3)%Z in
  let doy := ((153 * mp + 2) / 5 + d - 1)%Z in
  let doe := (yoe * 365 + yoe / 4 - yoe / 100 + doy)%Z in
  (era * 146097 + doe - 719468)%Z.

Definition nanos_per_sec : Z := 1000000000.

Record civil := Civil {
  c_year : Z; c_month : Z; c_day : Z;
  c_hour : Z; c_min : Z; c_sec : Z; c_nano : Z }.

Definition civil_of_time (t : Z) : civil :=
  let secs := (t / nanos_per_sec)%Z in
  let '(y, m, d) := civil_of_days (secs / 86400) in
  let sod := (secs mod 86400)%Z in
  Civil y m d (sod / 3600) (sod / 60 mod 60) (sod mod 60) (t mod nanos_per_sec).

Definition format_date (c : civil) : string :=
  pad 4 (c_year c) +:+ "-" +:+ pad 2 (c_month c) +:+ "-" +:+ pad 2 (c_day c).
Definition format_clock (c : civil) : string :=
  pad 2 (c_hour c) +:+ ":" +:+ pad 2 (c_min c) +:+ ":" +:+ pad 2 (c_sec c).

(** [t.UTC().Format("2006-01-02 15:04:05")] *)
Definition FormatDateTime (t : Z) : string :=
  let c := civil_of_time t in format_date c +:+ " " +:+ format_clock c.

(** [t.UTC().Format(time.RFC3339Nano)]: the fraction is printed without its
    trailing zeros, and not at all when it is zero. *)
Definition FormatRFC3339Nano (t : Z) : string :=
  let c := civil_of_time t in
  let frac := strip_zeros (pad 9 (c_nano c)) in
  format_date c +:+ "T" +:+ format_clock c
  +:+ (if bool_decide (frac = EmptyString) then "" else "." +:+ frac) +:+ "Z".

(** ** Facts *)

#[global] Instance FormatInt_inj : Inj (=) (=) FormatInt.
Proof. intros x y. unfold FormatInt. apply (inj pretty). Qed.

Example format_float_examples :
  map FormatFloat
    [f64_of_int 1000000; f64_of_int 123456; dec_round false 1 (-1);
     dec_round true 25 (-1); dec_round false 5 (-324); dec_round false 1 (-5);
     dec_round false 12345678 (-4); f64_of_int 25; S754_zero true;
     S754_finite false 4503599627370496 (-96)]
  = ["1e+06"; "123456"; "0.1"; "-2.5"; "5e-324"; "1e-05"; "1234.5678"; "25";
     "-0"; "5.684341886080802e-14"].
Proof. vm_compute. reflexivity. Qed.

Example format_time_example :
  FormatDateTime 1000000000000000000 = "2001-09-09 01:46:40"
  ∧ FormatRFC3339Nano (-1) = "1969-12-31T23:59:59.999999999Z".
Proof. split; vm_compute; reflexivity. Qed.

(** ** [time.ParseInLocation] for the layouts the program uses

    A layout is a list of fields.  Year, month, day, minute and second have
    fixed widths, the hour may have one digit; a space matches one or more
    spaces; a fraction of a second may follow the seconds, of which nine digits
    count. *)
Inductive time_field :=
  FYear | FMonth | FDay | FHour | FMinute | FSecond | FChar (c : ascii) | FSpace.

Definition is_digit (c : ascii) : bool :=
  match digit_val c with Some _ => true | None => false end.

(** The value of exactly [n] digits and the rest. *)
Fixpoint take_digits (n : nat) (acc : Z) (s : string) : option (Z * string) :=
  match n, s with
  | 0, _ => Some (acc, s)
  | S n, String c s =>
      match digit_val c with
      | Some d => take_digits n (10 * acc + d)%Z s
      | None => None
      end
  | S _, EmptyString => None
  end.

(** [getnum(s, false)]: one digit, or two if there are two. *)
Definition getnum_loose (s : string) : option (Z * string) :=
  match take_digits 2 0 s with Some q => Some q | None => take_digits 1 0 s end.

Fixpoint cut_spaces (s : string) : string :=
  match s with
  | String " "%char s' => cut_spaces s'
  | _ => s
  end.

(** The digits of a fraction: nanoseconds so far, weight of the next digit. *)
Fixpoint fraction (weight acc : Z) (s : string) : Z * string :=
  match s with
  | String c s' =>
      match digit_val c with
      | Some d => fraction (weight / 10) (acc + d * weight)%Z s'
      | None => (acc, s)
      end
  | EmptyString => (acc, s)
  end.

Definition opt_fraction (s : string) : Z * string :=
  match s with
  | String p (String c s') =>
      if (Ascii.eqb p "."%char || Ascii.eqb p ","%char) && is_digit c
      then fraction 100000000 0 (String c s') else (0%Z, s)
  | _ => (0%Z, s)
  end.

Definition is_leap (y : Z) : bool :=
  ((y mod 4 =? 0) && (negb (y mod 100 =? 0) || (y mod 400 =? 0)))%Z.
Definition days_in (m y : Z) : Z :=
  if (m =? 2)%Z then (if is_leap y then 29 else 28)%Z
  else if bool_decide (m ∈ [4; 6; 9; 11]%Z) then 30%Z else 31%Z.

Record stamp_fields := MkStamp {
  s_y : Z; s_mo : Z; s_d : Z; s_h : Z; s_mi : Z; s_s : Z; s_ns : Z }.

Fixpoint parse_fields (fs : list time_field) (t : stamp_fields) (s : string) : option stamp_fields :=
  match fs with
  | [] => match s with EmptyString => Some t | _ => None end
  | f :: fs =>
      match f with
      | FYear =>
          '(n, s) ← take_digits 4 0 s;
          parse_fields fs (MkStamp n (s_mo t) (s_d t) (s_h t) (s_mi t) (s_s t) (s_ns t)) s
      | FMonth =>
          '(n, s) ← take_digits 2 0 s;
          if bool_decide (1 ≤ n ≤ 12)%Z
          then parse_fields fs (MkStamp (s_y t) n (s_d t) (s_h t) (s_mi t) (s_s t) (s_ns t)) s
          else None
      | FDay =>
          '(n, s) ← take_digits 2 0 s;
          parse_fields fs (MkStamp (s_y t) (s_mo t) n (s_h t) (s_mi t) (s_s t) (s_ns t)) s
      | FHour =>
          '(n, s) ← getnum_loose s;
          if bool_decide (n < 24)%Z
          then parse_fields fs (MkStamp (s_y t) (s_mo t) (s_d t) n (s_mi t) (s_s t) (s_ns t)) s
          else None
      | FMinute =>
          '(n, s) ← take_digits 2 0 s;
          if bool_decide (n < 60)%Z
          then parse_fields fs (MkStamp (s_y t) (s_mo t) (s_d t) (s_h t) n (s_s t) (s_ns t)) s
          else None
      | FSecond =>
          '(n, s) ← take_digits 2 0 s;
          if bool_decide (n < 60)%Z
          then let '(ns, s) := opt_fraction s in
               parse_fields fs (MkStamp (s_y t) (s_mo t) (s_d t) (s_h t) (s_mi t) n ns) s
          else None
      | FChar c =>
          match s with
          | String c' s' => if Ascii.eqb c c' then parse_fields fs t s' else None
          | EmptyString => None
          end
      | FSpace =>
          match s with
          | String c' s' => if Ascii.eqb c' " "%char then parse_fields fs t (cut_spaces s') else None
          | EmptyString => None
          end
      end
  end.

(** Nanoseconds since the epoch, or [None] for a parse error. *)
Definition ParseTime (layout : list time_field) (s : string) : option Z :=
  t ← parse_fields layout (MkStamp 0 1 1 0 0 0 0) s;
  if bool_decide (1 ≤ s_d t ≤ days_in (s_mo t) (s_y t))%Z then
    Some ((days_of_civil (s_y t) (s_mo t) (s_d t) * 86400 + s_h t * 3600 + s_mi t * 60 + s_s t)
            * nanos_per_sec + s_ns t)%Z
  else None.

Definition date_fields : list time_field := [FYear; FChar "-"%char; FMonth; FChar "-"%char; FDay].
Definition clock_fields : list time_field :=
  [FHour; FChar ":"%char; FMinute; FChar ":"%char; FSecond].

Example parse_time_ex1 :
  ParseTime (date_fields ++ [FSpace] ++ clock_fields) "2024-02-29 12:30:05.25" = Some 1709209805250000000%Z ∧
  ParseTime date_fields "2023-02-29" = None ∧ ParseTime date_fields "1970-01-02" = Some 86400000000000%Z.
Proof. vm_compute. repeat split. Qed.
