(* ===== verification/Types.v ===== *)
(** * Values and column types (package [types])

    A [Value] is one SQL cell.  The Go struct has a [Kind] tag and one field
    per kind; only the field of the tag is ever set, so it is the tagged union
    below.  A time is the instant in nanoseconds since the Unix epoch. *)
From S2P Require Import Prelude GoStd.

(** ** Data *)
Inductive Kind := KindNull | KindInt | KindFloat | KindText | KindBool | KindTime.

Inductive Value :=
  | VNull
  | VInt (i : Z)
  | VFloat (f : f64)
  | VText (s : string)
  | VBool (b : bool)
  | VTime (t : Z).

#[global] Instance Kind_eq_dec : EqDecision Kind.
Proof. solve_decision. Defined.
#[global] Instance Value_eq_dec : EqDecision Value.
Proof. solve_decision. Defined.

(** [type ColumnType string] and its constants. *)
Abbreviation ColumnType := string.
Definition TypeInt : ColumnType := "int".
Definition TypeBigint : ColumnType := "bigint".
Definition TypeFloat : ColumnType := "float".
Definition TypeText : ColumnType := "text".
Definition TypeBool : ColumnType := "bool".
Definition TypeTimestamp : ColumnType := "timestamp".

Definition ValidTypes (ct : ColumnType) : bool :=
  bool_decide (ct ∈ [TypeInt; TypeBigint; TypeFloat; TypeText; TypeBool; TypeTimestamp]).

Definition kind (v : Value) : Kind :=
  match v with
  | VNull => KindNull | VInt _ => KindInt | VFloat _ => KindFloat
  | VText _ => KindText | VBool _ => KindBool | VTime _ => KindTime
  end.

(** The numeric value of the [Kind] constants ([iota]). *)
Definition kind_num (k : Kind) : Z :=
  match k with
  | KindNull => 0 | KindInt => 1 | KindFloat => 2
  | KindText => 3 | KindBool => 4 | KindTime => 5
  end.

Definition Kind_String (k : Kind) : string :=
  match k with
  | KindNull => "null" | KindInt => "int" | KindFloat => "float"
  | KindText => "text" | KindBool => "bool" | KindTime => "timestamp"
  end.

Definition IsNull (v : Value) : bool := bool_decide (kind v = KindNull).

(** ** Operations *)
Definition Value_String (v : Value) : string :=
  match v with
  | VNull => "NULL"
  | VInt i => FormatInt i
  | VFloat f => FormatFloat f
  | VText s => s
  | VBool b => if b then "true" else "false"
  | VTime t => FormatDateTime t
  end.

(** The operand of a numeric comparison: [float64(v.I)], or [v.F]. *)
Definition as_f64 (v : Value) : option f64 :=
  match v with
  | VInt i => Some (f64_of_int i)
  | VFloat f => Some f
  | _ => None
  end.

Definition num_compare (a b : f64) : Z :=
  if f64_ltb a b then -1 else if f64_ltb b a then 1 else 0.

Definition cmpZ (c : comparison) : Z :=
  match c with Lt => -1 | Eq => 0 | Gt => 1 end.

Definition Compare (v o : Value) : Z :=
  if IsNull v && IsNull o then 0 else
  if IsNull v then -1 else
  if IsNull o then 1 else
  match as_f64 v, as_f64 o with
  | Some a, Some b => num_compare a b
  | _, _ =>
      if bool_decide (kind v = kind o) then
        match v, o with
        | VInt i, VInt j => cmpZ (i ?= j)
        | VText s, VText s' => cmpZ (String.compare s s')
        | VBool b, VBool b' =>
            if bool_decide (b = b') then 0 else if negb b then -1 else 1
        | VTime t, VTime t' =>
            if (t <? t')%Z then -1 else if (t' <? t)%Z then 1 else 0
        | _, _ => 0
        end
      else if (kind_num (kind v) <? kind_num (kind o))%Z then -1 else 1
  end%Z.

Definition check_error (v : Value) (ct : ColumnType) : error :=
  Errorf "cannot store %s value in %s column" [AStr (Kind_String (kind v)); AStr ct].

Definition Check (ct : ColumnType) (v : Value) : res Value :=
  match v with
  | VNull => Ok VNull
  | _ =>
      if bool_decide (ct = TypeInt ∨ ct = TypeBigint) then
        match v with
        | VInt _ => Ok v
        | VFloat f =>
            if f64_eqb f (f64_of_int (f64_to_int f)) then Ok (VInt (f64_to_int f))
            else Err (check_error v ct)
        | _ => Err (check_error v ct)
        end
      else if bool_decide (ct = TypeFloat) then
        match v with
        | VFloat _ => Ok v
        | VInt i => Ok (VFloat (f64_of_int i))
        | _ => Err (check_error v ct)
        end
      else if bool_decide (ct = TypeText) then
        match v with VText _ => Ok v | _ => Err (check_error v ct) end
      else if bool_decide (ct = TypeBool) then
        match v with
        | VBool _ => Ok v
        | VInt i => Ok (VBool (negb (i =? 0)%Z))
        | _ => Err (check_error v ct)
        end
      else if bool_decide (ct = TypeTimestamp) then
        match v with VTime _ => Ok v | _ => Err (check_error v ct) end
      else Err (check_error v ct)
  end.

(** ** Well-formed values *)

(** A value that a column of type [ct] can hold after [Check]. *)
Definition has_type (ct : ColumnType) (v : Value) : Prop :=
  match v with
  | VNull => True
  | VInt i => (ct = TypeInt ∨ ct = TypeBigint) ∧ in_int64 i
  | VFloat _ => ct = TypeFloat
  | VText _ => ct = TypeText
  | VBool _ => ct = TypeBool
  | VTime _ => ct = TypeTimestamp
  end.

(** Values of the machine: integers fit in [int64]. *)
Definition wf_value (v : Value) : Prop :=
  match v with VInt i => in_int64 i | _ => True end.

Definition no_nan (v : Value) : Prop :=
  match v with VFloat f => f ≠ S754_nan | _ => True end.

#[global] Instance no_nan_dec v : Decision (no_nan v).
Proof. destruct v; simpl; apply _. Defined.

(** ** The order on floats that are not NaN

    [SFcompare] is the lexicographic order on (class and sign, exponent,
    mantissa): every float that is not NaN has a rank in [Z * Z * Z]. *)
Definition f64_rank (f : f64) : Z * Z * Z :=
  match f with
  | S754_infinity true => (-2, 0, 0)
  | S754_finite true m e => (-1, - e, Zneg m)
  | S754_zero _ | S754_nan => (0, 0, 0)
  | S754_finite false m e => (1, e, Zpos m)
  | S754_infinity false => (2, 0, 0)
  end%Z.

Definition lex3 (a b : Z * Z * Z) : comparison :=
  let '(a1, a2, a3) := a in
  let '(b1, b2, b3) := b in
  match (a1 ?= b1)%Z with
  | Eq => match (a2 ?= b2)%Z with Eq => (a3 ?= b3)%Z | c => c end
  | c => c
  end.

Ltac zcmp :=
  repeat match goal with
  | H : context [(?a ?= ?b)%Z] |- _ =>
      let E := fresh "E" in destruct (Z.compare_spec a b) as [E|E|E]
  | |- context [(?a ?= ?b)%Z] =>
      let E := fresh "E" in destruct (Z.compare_spec a b) as [E|E|E]
  end; simplify_eq/=; try done; try lia.

Lemma lex3_refl a : lex3 a a = Eq.
Proof. destruct a as [[??]?]. simpl. by rewrite !Z.compare_refl. Qed.

Lemma lex3_antisym a b : lex3 a b = CompOpp (lex3 b a).
Proof. destruct a as [[??]?], b as [[??]?]. simpl. zcmp. Qed.

Lemma lex3_trans a b c : lex3 a b ≠ Gt → lex3 b c ≠ Gt → lex3 a c ≠ Gt.
Proof. destruct a as [[??]?], b as [[??]?], c as [[??]?]. simpl. intros. zcmp. Qed.

Lemma SFcompare_rank a b :
  a ≠ S754_nan → b ≠ S754_nan → SFcompare a b = Some (lex3 (f64_rank a) (f64_rank b)).
Proof.
  intros Ha Hb. destruct a as [?|[]| |[] m1 e1], b as [?|[]| |[] m2 e2]; simpl; try done.
  - rewrite Z.compare_opp, (Z.compare_antisym e1 e2).
    destruct (e1 ?= e2)%Z; simpl; try done.
Qed.

Lemma num_compare_rank a b :
  a ≠ S754_nan → b ≠ S754_nan → num_compare a b = cmpZ (lex3 (f64_rank a) (f64_rank b)).
Proof.
  intros Ha Hb. unfold num_compare, f64_ltb, SFltb.
  rewrite !SFcompare_rank, (lex3_antisym (f64_rank b)) by done.
  by destruct (lex3 (f64_rank a) (f64_rank b)).
Qed.

(** ** Conversion of integers is never NaN *)
Lemma shr_1_nonneg r : (0 ≤ shr_m r)%Z → (0 ≤ shr_m (shr_1 r))%Z.
Proof. destruct r as [[|[]|[]] ? ?]; simpl; lia. Qed.

Lemma iter_shr_nonneg n r : (0 ≤ shr_m r)%Z → (0 ≤ shr_m (iter_pos shr_1 n r))%Z.
Proof. revert r. induction n; intros r Hr; simpl; auto using shr_1_nonneg. Qed.

Lemma shr_fexp_nonneg m e l : (0 ≤ m)%Z → (0 ≤ shr_m (shr_fexp 53 1024 m e l).1)%Z.
Proof.
  intros Hm. unfold shr_fexp, shr.
  assert (0 ≤ shr_m (shr_record_of_loc m l))%Z by (by destruct l as [|[]]).
  destruct (_ - e)%Z; simpl; auto using iter_shr_nonneg.
Qed.

Lemma round_nearest_even_nonneg m l : (0 ≤ m)%Z → (0 ≤ round_nearest_even m l)%Z.
Proof. intros. destruct l as [|[]]; simpl; repeat case_match; lia. Qed.

Lemma binary_round_aux_not_nan s m e l :
  (0 ≤ m)%Z → binary_round_aux 53 1024 s m e l ≠ S754_nan.
Proof.
  intros Hm. unfold binary_round_aux.
  pose proof (shr_fexp_nonneg m e l Hm) as H1.
  destruct (shr_fexp 53 1024 m e l) as [r1 e1]; simpl in *.
  pose proof (shr_fexp_nonneg (round_nearest_even (shr_m r1) (loc_of_shr_record r1))
    e1 loc_Exact (round_nearest_even_nonneg _ _ H1)) as H2.
  destruct (shr_fexp _ _ _ e1 _) as [r2 e2]; simpl in *.
  destruct (shr_m r2); [done|by case_match|lia].
Qed.

Lemma f64_of_int_not_nan i : f64_of_int i ≠ S754_nan.
Proof.
  unfold f64_of_int, binary_normalize, binary_round.
  destruct i; [done|..]; destruct (shl_align _ _ _); by apply binary_round_aux_not_nan.
Qed.

Lemma as_f64_not_nan v f : no_nan v → as_f64 v = Some f → f ≠ S754_nan.
Proof. destruct v; simpl; intros ??; simplify_eq; auto using f64_of_int_not_nan. Qed.

(** ** [Compare] is a total preorder

    Every value that is not NaN has a rank, and [Compare] compares ranks:
    first the class (NULL, numbers, text, bool, time), then the contents. *)
Inductive rank :=
  | RNull | RNum (r : Z * Z * Z) | RText (s : string) | RBool (b : bool) | RTime (t : Z).

Definition value_rank (v : Value) : rank :=
  match v with
  | VNull => RNull
  | VInt i => RNum (f64_rank (f64_of_int i))
  | VFloat f => RNum (f64_rank f)
  | VText s => RText s
  | VBool b => RBool b
  | VTime t => RTime t
  end.

Definition rank_class (r : rank) : Z :=
  match r with RNull => 0 | RNum _ => 1 | RText _ => 3 | RBool _ => 4 | RTime _ => 5 end.

Definition rank_cmp (a b : rank) : comparison :=
  match a, b with
  | RNum x, RNum y => lex3 x y
  | RText x, RText y => String.compare x y
  | RBool x, RBool y => (Z.b2z x ?= Z.b2z y)%Z
  | RTime x, RTime y => (x ?= y)%Z
  | _, _ => (rank_class a ?= rank_class b)%Z
  end.

Lemma Compare_rank v o :
  no_nan v → no_nan o → Compare v o = cmpZ (rank_cmp (value_rank v) (value_rank o)).
Proof.
  intros Hv Ho.
  destruct v as [|i|f|s|b|t], o as [|i'|f'|s'|b'|t']; try done; unfold Compare; simpl;
    try (by apply num_compare_rank; auto using f64_of_int_not_nan).
  - by destruct b, b'.
  - destruct (Z.compare_spec t t'); simpl; repeat case_match; lia.
Qed.

Lemma rank_cmp_refl a : rank_cmp a a = Eq.
Proof.
  destruct a; simpl; auto using lex3_refl, str_compare_refl, Z.compare_refl.
Qed.

Lemma rank_cmp_antisym a b : rank_cmp a b = CompOpp (rank_cmp b a).
Proof.
  destruct a, b; simpl; auto using lex3_antisym, String.compare_antisym;
    apply Z.compare_antisym.
Qed.

Lemma rank_cmp_trans a b c : rank_cmp a b ≠ Gt → rank_cmp b c ≠ Gt → rank_cmp a c ≠ Gt.
Proof.
  destruct a as [|x|x|x|x], b as [|y|y|y|y], c as [|z|z|z|z]; simpl; try done.
  - apply lex3_trans.
  - intros Hxy Hyz. destruct (String.compare x y) eqn:E1; [..|done].
    + by apply str_compare_eq in E1 as ->.
    + destruct (String.compare y z) eqn:E2; [..|done].
      * apply str_compare_eq in E2 as ->. by rewrite E1.
      * by rewrite (str_compare_lt_trans _ _ _ E1 E2).
  - by destruct x, y, z.
  - intros; zcmp.
Qed.

Lemma cmpZ_le c : (cmpZ c ≤ 0)%Z ↔ c ≠ Gt.
Proof. destruct c; simpl; split; naive_solver lia. Qed.

Lemma Compare_preorder (a b c : Value) :
  no_nan a → no_nan b → no_nan c →
  Compare a a = 0%Z ∧ Compare a b = (- Compare b a)%Z ∧ (-1 ≤ Compare a b ≤ 1)%Z ∧
  ((Compare a b ≤ 0)%Z → (Compare b c ≤ 0)%Z → (Compare a c ≤ 0)%Z).
Proof.
  intros Ha Hb Hc. rewrite !Compare_rank by done. rewrite !cmpZ_le.
  rewrite rank_cmp_refl, (rank_cmp_antisym (value_rank a) (value_rank b)) at 1.
  repeat split; [by destruct (rank_cmp (value_rank b) (value_rank a))|..].
  1,2: by destruct (rank_cmp (value_rank a) (value_rank b)).
  apply rank_cmp_trans.
Qed.

(** [Compare] is a total preorder on the values that are not NaN: it is
    reflexive, antisymmetric up to sign (so any two values are comparable, and
    the result is always -1, 0 or 1) and transitive across all kinds,
    NULL included. *)
Theorem Compare_total_preorder (a b c : Value) :
  no_nan a → no_nan b → no_nan c →
  Compare a a = 0%Z ∧ Compare a b = (- Compare b a)%Z ∧ (-1 ≤ Compare a b ≤ 1)%Z ∧
  ((Compare a b ≤ 0)%Z → (Compare b c ≤ 0)%Z → (Compare a c ≤ 0)%Z).
Proof. apply Compare_preorder. Qed.

Lemma Compare_total_preorder_witness :
  (Compare (VInt 1) (VFloat (f64_of_int 2)) ≤ 0)%Z ∧
  (Compare (VFloat (f64_of_int 2)) (VText "a") ≤ 0)%Z ∧
  (Compare (VInt 1) (VText "a") ≤ 0)%Z.
Proof.
  destruct (Compare_total_preorder (VInt 1) (VFloat (f64_of_int 2)) (VText "a"))
    as (_ & _ & _ & Htr); [done|by apply f64_of_int_not_nan|done|].
  split; [by vm_compute|]. split; [by vm_compute|].
  apply Htr; by vm_compute.
Defined.

(** ** Small integers compare exactly *)
Lemma digits2_pos_bounds m :
  (2 ^ (Zpos (digits2_pos m) - 1) ≤ Zpos m < 2 ^ Zpos (digits2_pos m))%Z.
Proof.
  induction m as [m IH|m IH|]; simpl digits2_pos; [..|done];
    rewrite Pos2Z.inj_succ; set (d := Zpos (digits2_pos m)) in *;
    (assert (2 ^ d = 2 * 2 ^ (d - 1))%Z by
      (rewrite <-Z.pow_succ_r by lia; f_equal; lia));
    (replace (Z.succ d - 1)%Z with d by lia); rewrite Z.pow_succ_r by lia; lia.
Qed.

Lemma Zpos_iter_xO m n : Zpos (Pos.iter xO m n) = (Zpos m * 2 ^ Zpos n)%Z.
Proof.
  induction n as [|n IH] using Pos.peano_ind; [simpl; lia|].
  rewrite Pos.iter_succ, Pos2Z.inj_succ, Z.pow_succ_r by lia. lia.
Qed.

Lemma digits2_iter_xO m n :
  Zpos (digits2_pos (Pos.iter xO m n)) = (Zpos (digits2_pos m) + Zpos n)%Z.
Proof.
  induction n as [|n IH] using Pos.peano_ind; [simpl; lia|].
  rewrite Pos.iter_succ, Pos2Z.inj_succ. simpl. lia.
Qed.

(** A mantissa of exactly 53 bits at an exponent in range is not rounded. *)
Lemma binary_round_aux_exact s m e :
  Zpos (digits2_pos m) = 53%Z → (-1074 ≤ e ≤ 971)%Z →
  binary_round_aux 53 1024 s (Zpos m) e loc_Exact = S754_finite s m e.
Proof.
  intros Hd He. unfold binary_round_aux, shr_fexp, Zdigits2, fexp, emin.
  rewrite Hd. replace (Z.max (53 + e - 53) (3 - 1024 - 53) - e)%Z with 0%Z by lia.
  cbn [shr shr_record_of_loc shr_m fst snd round_nearest_even loc_of_shr_record].
  rewrite Hd. replace (Z.max (53 + e - 53) (3 - 1024 - 53) - e)%Z with 0%Z by lia.
  simpl. rewrite (proj2 (Z.leb_le e (1024 - 53))) by lia. done.
Qed.

Lemma binary_round_small s m :
  (Zpos (digits2_pos m) ≤ 53)%Z →
  ∃ m', binary_round 53 1024 s m 0 = S754_finite s m' (Zpos (digits2_pos m) - 53)
        ∧ Zpos m' = (Zpos m * 2 ^ (53 - Zpos (digits2_pos m)))%Z.
Proof.
  intros Hd. unfold binary_round, shl_align, fexp, emin. rewrite Z.add_0_r, Z.sub_0_r.
  rewrite Z.max_l by lia.
  destruct (Zpos (digits2_pos m) - 53)%Z as [|p|p] eqn:Ep; [..|].
  - exists m. rewrite binary_round_aux_exact by lia. split; [done|].
    replace (53 - _)%Z with 0%Z by lia. lia.
  - lia.
  - exists (Pos.iter xO m p). rewrite binary_round_aux_exact.
    + split; [done|]. rewrite Zpos_iter_xO. f_equal. f_equal. lia.
    + rewrite digits2_iter_xO. lia.
    + lia.
Qed.

(** The rank of a small integer: sign, number of bits, aligned magnitude. *)
Lemma f64_rank_small i :
  (- 2 ^ 53 < i < 2 ^ 53)%Z →
  f64_rank (f64_of_int i) =
    match i with
    | Z0 => (0, 0, 0)
    | Zpos m => (1, Zpos (digits2_pos m) - 53, Zpos m * 2 ^ (53 - Zpos (digits2_pos m)))
    | Zneg m => (-1, - (Zpos (digits2_pos m) - 53),
                 - (Zpos m * 2 ^ (53 - Zpos (digits2_pos m))))
    end%Z.
Proof.
  intros Hi. unfold f64_of_int, binary_normalize. destruct i as [|m|m]; [done|..];
  (assert (Zpos (digits2_pos m) ≤ 53)%Z as Hd; [
    destruct (digits2_pos_bounds m) as [Hb _];
    assert (2 ^ (Zpos (digits2_pos m) - 1) < 2 ^ 53)%Z as Hlt by lia;
    apply Z.pow_lt_mono_r_iff in Hlt; lia|]).
  - destruct (binary_round_small false m Hd) as (m' & -> & Hm'). simpl. by rewrite <-Hm'.
  - destruct (binary_round_small true m Hd) as (m' & -> & Hm'). simpl.
    rewrite <-Hm'. done.
Qed.

Lemma magnitude_compare m n :
  lex3 (1, Zpos (digits2_pos m) - 53, Zpos m * 2 ^ (53 - Zpos (digits2_pos m)))%Z
       (1, Zpos (digits2_pos n) - 53, Zpos n * 2 ^ (53 - Zpos (digits2_pos n)))%Z
  = (Zpos m ?= Zpos n)%Z ∨ ¬ (Zpos (digits2_pos m) ≤ 53)%Z ∨ ¬ (Zpos (digits2_pos n) ≤ 53)%Z.
Proof.
  destruct (decide (Zpos (digits2_pos m) ≤ 53)%Z); [|auto].
  destruct (decide (Zpos (digits2_pos n) ≤ 53)%Z); [|auto]. left. unfold lex3.
  rewrite Z.compare_refl.
  destruct (digits2_pos_bounds m) as [Hm1 Hm2], (digits2_pos_bounds n) as [Hn1 Hn2].
  set (dm := Zpos (digits2_pos m)) in *. set (dn := Zpos (digits2_pos n)) in *.
  destruct (Z.compare_spec (dm - 53) (dn - 53)) as [E|E|E].
  - replace dn with dm by lia. symmetry. apply Zmult_compare_compat_r.
    apply Z.lt_gt, Z.pow_pos_nonneg; lia.
  - symmetry. apply Z.compare_lt_iff.
    assert (2 ^ dm ≤ 2 ^ (dn - 1))%Z by (apply Z.pow_le_mono_r; lia). lia.
  - symmetry. apply Z.compare_gt_iff.
    assert (2 ^ dn ≤ 2 ^ (dm - 1))%Z by (apply Z.pow_le_mono_r; lia). lia.
Qed.

Lemma Compare_small (i j : Z) :
  (- 2 ^ 53 < i < 2 ^ 53)%Z → (- 2 ^ 53 < j < 2 ^ 53)%Z →
  Compare (VInt i) (VInt j) = cmpZ (i ?= j)%Z.
Proof.
  intros Hi Hj. rewrite Compare_rank by done. f_equal. simpl.
  rewrite !f64_rank_small by done.
  assert (∀ m, (Zpos m < 2 ^ 53)%Z → (Zpos (digits2_pos m) ≤ 53)%Z) as Hd.
  { intros m Hm. destruct (digits2_pos_bounds m) as [Hb _].
    assert (2 ^ (Zpos (digits2_pos m) - 1) < 2 ^ 53)%Z as Hlt by lia.
    apply Z.pow_lt_mono_r_iff in Hlt; lia. }
  destruct i as [|m|m], j as [|n|n]; try done.
  - destruct (magnitude_compare m n) as [->|[[]|[]]]; [done|apply Hd; lia..].
  - destruct (magnitude_compare n m) as [H|[[]|[]]]; [|apply Hd; lia..].
    change (Zneg m ?= Zneg n)%Z with (- Zpos m ?= - Zpos n)%Z.
    rewrite Z.compare_opp, <-H. unfold lex3.
    rewrite !Z.compare_refl, !Z.compare_opp. done.
Qed.

(** Integers of magnitude below 2^53 are ordered by [Compare] exactly as
    integers, although the code compares them as [float64]. *)
Theorem Compare_int_exact (i j : Z) :
  (- 2 ^ 53 < i < 2 ^ 53)%Z → (- 2 ^ 53 < j < 2 ^ 53)%Z →
  Compare (VInt i) (VInt j) = cmpZ (i ?= j)%Z.
Proof. apply Compare_small. Qed.

Lemma Compare_int_exact_witness :
  (- 2 ^ 53 < 9007199254740991 < 2 ^ 53)%Z ∧
  Compare (VInt 9007199254740991) (VInt (-3)) = 1%Z.
Proof. split; [lia|]. apply (Compare_int_exact 9007199254740991 (-3)); lia. Defined.

(** Two different [int64] values from 2^53 on can compare equal, so an
    equality test on a bigint column can match the wrong row: the comment's
    total order is one on the float approximations only. *)
Theorem Compare_bigint_collapse :
  Compare (VInt (2 ^ 53)) (VInt (2 ^ 53 + 1)) = 0%Z ∧
  in_int64 (2 ^ 53) ∧ in_int64 (2 ^ 53 + 1).
Proof.
  unfold in_int64, int64_min, int64_max. split; [by vm_compute|lia].
Qed.

(** ** Column type checks *)
Lemma f64_to_int_range f : in_int64 (f64_to_int f).
Proof.
  assert (in_int64 int64_min) by (unfold in_int64, int64_min, int64_max; lia).
  assert (in_int64 0) by (unfold in_int64, int64_min, int64_max; lia).
  destruct f; simpl; try case_decide; done.
Qed.

#[export] Hint Resolve f64_to_int_range f64_of_int_not_nan : tsql.

Lemma Check_inv ct v v' :
  Check ct v = Ok v' →
  v' = v ∧ (has_type ct v ∨ ∃ i, v = VInt i ∧ (ct = TypeInt ∨ ct = TypeBigint))
  ∨ (∃ f, v = VFloat f ∧ v' = VInt (f64_to_int f) ∧ (ct = TypeInt ∨ ct = TypeBigint)
       ∧ f64_eqb f (f64_of_int (f64_to_int f)) = true)
  ∨ (∃ i, v = VInt i ∧ v' = VFloat (f64_of_int i) ∧ ct = TypeFloat)
  ∨ (∃ i, v = VInt i ∧ v' = VBool (negb (i =? 0)%Z) ∧ ct = TypeBool).
Proof.
  unfold Check. intros H.
  destruct v; simplify_eq/=; repeat case_bool_decide; repeat case_match;
    simplify_eq/=; naive_solver.
Qed.

Lemma Check_typed (ct : ColumnType) (v v' : Value) :
  wf_value v → Check ct v = Ok v' → has_type ct v'.
Proof.
  intros Hwf H. apply Check_inv in H as
    [[-> [Ht|(i & -> & Hct)]]|[(f & -> & -> & Hct & He)|[(i & -> & -> & Hct)|(i & -> & -> & Hct)]]];
    [done|done|split; auto with tsql|by subst|by subst].
Qed.

(** [Check] is sound and stable: what it accepts is a value of the column
    type (an [int64] for integer columns), storing the accepted value again
    changes nothing, and a float stored in an integer column is numerically
    the integer that replaces it. *)
Theorem Check_sound (ct : ColumnType) (v v' : Value) :
  wf_value v → Check ct v = Ok v' →
  has_type ct v' ∧ Check ct v' = Ok v' ∧
  (∀ f i, v = VFloat f → v' = VInt i → f64_eqb f (f64_of_int i) = true).
Proof.
  intros Hwf H. split; [by eapply Check_typed|]. pose proof H as H0. apply Check_inv in H as
    [[-> [Ht|(i & -> & Hct)]]|[(f & -> & -> & Hct & He)|[(i & -> & -> & Hct)|(i & -> & -> & Hct)]]].
  - naive_solver.
  - naive_solver.
  - split; [|naive_solver]. unfold Check. by rewrite bool_decide_eq_true_2.
  - subst. naive_solver.
  - subst. naive_solver.
Qed.

Lemma Check_sound_witness :
  Check TypeInt (VFloat (f64_of_int 7)) = Ok (VInt 7) ∧ has_type TypeInt (VInt 7).
Proof.
  assert (Check TypeInt (VFloat (f64_of_int 7)) = Ok (VInt 7)) as H by by vm_compute.
  split; [done|]. exact (proj1 (Check_sound _ (VFloat (f64_of_int 7)) _ I H)).
Defined.

(** C40: [Check] rejects exactly the values that have no stored form in the
    column: a value of the column's own kind or NULL is always accepted, and
    the only conversions are float to integer without loss, integer to float
    and integer to bool. *)
Theorem Check_accepts (ct : ColumnType) (v : Value) :
  ValidTypes ct = true →
  is_Ok (Check ct v) ↔
    v = VNull ∨
    (∃ i, v = VInt i ∧ ct ∈ [TypeInt; TypeBigint; TypeFloat; TypeBool]) ∨
    (∃ f, v = VFloat f ∧ (ct = TypeFloat ∨
       ct ∈ [TypeInt; TypeBigint] ∧ f64_eqb f (f64_of_int (f64_to_int f)) = true)) ∨
    (∃ s, v = VText s ∧ ct = TypeText) ∨
    (∃ b, v = VBool b ∧ ct = TypeBool) ∨
    (∃ t, v = VTime t ∧ ct = TypeTimestamp).
Proof.
  unfold ValidTypes, is_Ok. intros Hv%bool_decide_eq_true_1.
  split.
  - intros [v' [[-> [Ht|(i & -> & Hct)]]|[(f & -> & -> & Hct & He)|[(i & -> & -> & ->)|(i & -> & -> & ->)]]]%Check_inv].
    + destruct v; simpl in Ht; set_solver.
    + set_solver.
    + set_solver.
    + set_solver.
    + set_solver.
  - rewrite !elem_of_cons, elem_of_nil in Hv. intros H.
    destruct_or! Hv; subst; destruct v; try (by eexists);
      try (by (exfalso; set_solver)); unfold Check; simpl;
      destruct H as [?|[(?&?&?)|[(f' & [= <-] & [?|[_ ->]])|[(?&?&?)|[(?&?&?)|(?&?&?)]]]]]; eauto; done.
Qed.

Lemma Check_accepts_witness :
  ValidTypes TypeBool = true ∧ ¬ is_Ok (Check TypeBool (VText "x")).
Proof.
  split; [by vm_compute|]. intros H.
  apply (Check_accepts TypeBool (VText "x")) in H; [|by vm_compute].
  naive_solver.
Defined.
