(* ===== verification/Schema.v ===== *)
(** * Table definitions (package [schema])

    [Column] and [TableDef] as the catalog stores them, and [Validate], which
    checks a definition and normalises the type of its primary key. *)
From S2P Require Import Prelude Types.
From Stdlib Require Import Ascii.

(** ** Data *)
Record Column := MkColumn {
  Name : string;
  Type_ : ColumnType;
  NotNull : bool;
  Primary : bool;
  AutoInc : bool;
  Unique : bool;
  FKTable : string;
  FKCol : string }.

Record TableDef := MkTableDef { td_Name : string; td_Cols : list Column }.

#[global] Instance Column_eq_dec : EqDecision Column.
Proof. solve_decision. Defined.
#[global] Instance TableDef_eq_dec : EqDecision TableDef.
Proof. solve_decision. Defined.

Definition set_Type (ct : ColumnType) (c : Column) : Column :=
  MkColumn (Name c) ct (NotNull c) (Primary c) (AutoInc c) (Unique c) (FKTable c) (FKCol c).

(** ** Operations *)
Definition in_range (lo hi : N) (c : ascii) : bool :=
  bool_decide (lo ≤ N_of_ascii c ∧ N_of_ascii c ≤ hi)%N.

(** [[a-zA-Z_]] and [[a-zA-Z0-9_]] *)
Definition ident_start (c : ascii) : bool :=
  in_range 97 122 c || in_range 65 90 c || bool_decide (c = "_"%char).
Definition ident_char (c : ascii) : bool := ident_start c || in_range 48 57 c.

Fixpoint all_chars (p : ascii → bool) (s : string) : bool :=
  match s with EmptyString => true | String c s => p c && all_chars p s end.

(** [identRe.MatchString]: [^[a-zA-Z_][a-zA-Z0-9_]*$] *)
Definition identRe (s : string) : bool :=
  match s with
  | EmptyString => false
  | String c s => ident_start c && all_chars ident_char s
  end.

Definition normalizePKType (ct : ColumnType) : ColumnType :=
  if bool_decide (ct = TypeInt ∨ ct = TypeBigint) then ct else TypeInt.

(** The loop over the columns: [seen] holds the names met so far and [pk]
    counts primary keys.  The columns are returned with normalised types. *)
Fixpoint validate_cols (tname : string) (seen : list string) (pk : nat)
    (cols : list Column) : res (list Column * nat) :=
  match cols with
  | [] => Ok ([], pk)
  | c :: cols =>
      if negb (identRe (Name c)) then
        Err (Errorf "invalid column name %q in table %s" [AStr (Name c); AStr tname])
      else if bool_decide (Name c ∈ seen) then
        Err (Errorf "duplicate column %q in table %s" [AStr (Name c); AStr tname])
      else if negb (ValidTypes (Type_ c)) then
        Err (Errorf "column %s: unknown type %q" [AStr (Name c); AStr (Type_ c)])
      else
        let c' := if Primary c then set_Type (normalizePKType (Type_ c)) c else c in
        let pk' := if Primary c then S pk else pk in
        match validate_cols tname (Name c :: seen) pk' cols with
        | Ok (cs, n) => Ok (c' :: cs, n)
        | Err e => Err e
        end
  end.

Definition Validate (td : TableDef) : res TableDef :=
  if negb (identRe (td_Name td)) then
    Err (Errorf "invalid table name %q" [AStr (td_Name td)])
  else if bool_decide (td_Cols td = []) then
    Err (Errorf "table %s needs at least one column" [AStr (td_Name td)])
  else
    match validate_cols (td_Name td) [] 0 (td_Cols td) with
    | Err e => Err e
    | Ok (cols, pk) =>
        if bool_decide (1 < pk) then
          Err (Errorf "table %s: v1 supports at most one primary key column"
                 [AStr (td_Name td)])
        else Ok (MkTableDef (td_Name td) cols)
    end.

(** ** What a valid definition is *)
Definition is_int_type (ct : ColumnType) : Prop := ct = TypeInt ∨ ct = TypeBigint.

Definition pk_count (cols : list Column) : nat :=
  length (filter (λ c, Primary c = true) cols).

(** A definition as it is stored in the catalog. *)
Record valid_def (td : TableDef) : Prop := {
  vd_name : identRe (td_Name td) = true;
  vd_nonempty : td_Cols td ≠ [];
  vd_idents : Forall (λ c, identRe (Name c) = true) (td_Cols td);
  vd_distinct : NoDup (Name <$> td_Cols td);
  vd_types : Forall (λ c, ValidTypes (Type_ c) = true) (td_Cols td);
  vd_pk_int : Forall (λ c, Primary c = true → is_int_type (Type_ c)) (td_Cols td);
  vd_pk_one : pk_count (td_Cols td) ≤ 1 }.

(** The same columns with the type of the primary key made an integer type. *)
Definition norm_col (c : Column) : Column :=
  if Primary c then set_Type (normalizePKType (Type_ c)) c else c.
Definition norm_def (td : TableDef) : TableDef :=
  MkTableDef (td_Name td) (norm_col <$> td_Cols td).

(** ** Lemmas *)
Lemma Name_norm_col c : Name (norm_col c) = Name c.
Proof. unfold norm_col. by destruct (Primary c). Qed.

Lemma Primary_norm_col c : Primary (norm_col c) = Primary c.
Proof. unfold norm_col. by destruct (Primary c) eqn:E. Qed.

Lemma normalizePKType_int ct : is_int_type (normalizePKType ct).
Proof. unfold normalizePKType, is_int_type. case_bool_decide; auto. Qed.

Lemma norm_col_valid c :
  ValidTypes (Type_ c) = true →
  ValidTypes (Type_ (norm_col c)) = true ∧
  (Primary (norm_col c) = true → is_int_type (Type_ (norm_col c))).
Proof.
  intros H. unfold norm_col. destruct (Primary c) eqn:E; simpl; [|by rewrite E].
  pose proof (normalizePKType_int (Type_ c)) as Hi. split; [|done].
  by destruct Hi as [->| ->].
Qed.

Lemma norm_col_id c :
  (Primary c = true → is_int_type (Type_ c)) → norm_col c = c.
Proof.
  intros H. unfold norm_col, normalizePKType. destruct (Primary c) eqn:E; [|done].
  rewrite bool_decide_eq_true_2 by (by apply H). by destruct c.
Qed.

Lemma pk_count_norm cols : pk_count (norm_col <$> cols) = pk_count cols.
Proof.
  unfold pk_count. induction cols as [|c cols IH]; [done|].
  rewrite fmap_cons, !filter_cons, Primary_norm_col. case_decide; simpl; auto.
Qed.

Lemma validate_cols_spec tname seen pk cols cs n :
  validate_cols tname seen pk cols = Ok (cs, n) ↔
  Forall (λ c, identRe (Name c) = true ∧ ValidTypes (Type_ c) = true) cols ∧
  NoDup (Name <$> cols) ∧ (∀ x, x ∈ Name <$> cols → x ∉ seen) ∧
  cs = norm_col <$> cols ∧ n = pk + pk_count cols.
Proof.
  revert seen pk cs n. induction cols as [|c cols IH]; intros seen pk cs n; simpl.
  { unfold pk_count. simpl. split; [intros; simplify_eq; repeat split; try constructor; [set_solver|lia]|].
    intros (_ & _ & _ & -> & ->). by rewrite Nat.add_0_r. }
  rewrite Forall_cons, NoDup_cons. unfold pk_count. rewrite filter_cons.
  destruct (identRe (Name c)) eqn:Ei; simpl; [|naive_solver].
  case_bool_decide as Hs; [set_solver|].
  destruct (ValidTypes (Type_ c)) eqn:Et; simpl; [|naive_solver].
  specialize (IH (Name c :: seen) (if Primary c then S pk else pk)).
  fold (norm_col c). destruct (validate_cols _ _ _ _) as [[cs' n']|e].
  - split.
    + intros [= <- <-]. destruct (proj1 (IH cs' n') eq_refl) as (Hf & Hnd & Hns & -> & ->).
      repeat split; try done; [set_solver..|].
      unfold pk_count. case_decide as HP; simpl; destruct (Primary c); simpl; (lia || done).
    + intros (Hf & [Hni Hnd] & Hns & -> & ->).
      assert (Ok (cs', n') = Ok (norm_col <$> cols,
        (if Primary c then S pk else pk) + pk_count cols)) as [= -> ->].
      { apply IH. repeat split; try done; [naive_solver|set_solver]. }
      do 2 f_equal. unfold pk_count.
      case_decide as HP; simpl; destruct (Primary c); simpl; (lia || done).
  - split; [done|]. intros (Hf & [Hni Hnd] & Hns & -> & ->).
    discriminate (proj2 (IH (norm_col <$> cols) ((if Primary c then S pk else pk) + pk_count cols))
      ltac:(repeat split; try done; [naive_solver|set_solver])).
Qed.

Lemma Validate_inv td td' :
  Validate td = Ok td' ↔
  identRe (td_Name td) = true ∧ td_Cols td ≠ [] ∧
  Forall (λ c, identRe (Name c) = true ∧ ValidTypes (Type_ c) = true) (td_Cols td) ∧
  NoDup (Name <$> td_Cols td) ∧ pk_count (td_Cols td) ≤ 1 ∧ td' = norm_def td.
Proof.
  unfold Validate, norm_def. destruct (identRe (td_Name td)); simpl; [|naive_solver].
  case_bool_decide as Hne; [naive_solver|].
  destruct (validate_cols _ _ _ _) as [[cs n]|e] eqn:E.
  - apply validate_cols_spec in E as (Hf & Hnd & _ & -> & ->).
    case_bool_decide; simpl in *; split; intros; destruct_and?; simplify_eq; repeat split;
      auto; lia.
  - split; [done|]. intros (_ & _ & Hf & Hnd & _ & _).
    enough (validate_cols (td_Name td) [] 0 (td_Cols td)
      = Ok (norm_col <$> td_Cols td, 0 + pk_count (td_Cols td))) by congruence.
    apply validate_cols_spec. repeat split; try done. set_solver.
Qed.

Lemma valid_def_norm td :
  identRe (td_Name td) = true → td_Cols td ≠ [] →
  Forall (λ c, identRe (Name c) = true ∧ ValidTypes (Type_ c) = true) (td_Cols td) →
  NoDup (Name <$> td_Cols td) → pk_count (td_Cols td) ≤ 1 → valid_def (norm_def td).
Proof.
  intros H1 H2 H3 H4 H5. split; simpl; [done|by destruct (td_Cols td)|..].
  - apply Forall_fmap. eapply Forall_impl; [exact H3|]. intros c [? _]. simpl.
    by rewrite Name_norm_col.
  - rewrite <-list_fmap_compose. erewrite list_fmap_ext; [exact H4|].
    intros; apply Name_norm_col.
  - apply Forall_fmap. eapply Forall_impl; [exact H3|]. intros c [_ ?].
    by apply norm_col_valid.
  - apply Forall_fmap. eapply Forall_impl; [exact H3|]. intros c [_ ?].
    exact (proj2 (norm_col_valid c ltac:(done))).
  - by rewrite pk_count_norm.
Qed.

Lemma Validate_valid td td' :
  Validate td = Ok td' → valid_def td' ∧ td_Name td' = td_Name td.
Proof.
  intros (H1 & H2 & H3 & H4 & H5 & ->)%Validate_inv. split; [by apply valid_def_norm|done].
Qed.

(** The errors of the validation are its own. *)
Lemma validate_cols_err tname seen pk cols e :
  validate_cols tname seen pk cols = Err e → e ≠ ErrIO.
Proof.
  revert seen pk. induction cols as [|c cols IH]; intros seen pk H; simpl in H; [done|].
  repeat (case_match; simplify_eq; try done; eauto).
Qed.

Lemma Validate_err td e : Validate td = Err e → e ≠ ErrIO.
Proof.
  unfold Validate. intros H.
  repeat (case_match; simplify_eq; try done); eauto using validate_cols_err.
Qed.

(** [Validate] accepts a definition exactly when its names are
    identifiers, its columns are non-empty, distinct and of known types, and
    at most one is a primary key; the definition it returns is a valid one
    whose only change is that a primary key gets an integer type, and
    validating it again changes nothing. *)
Theorem Validate_correct (td td' : TableDef) :
  Validate td = Ok td' →
  valid_def td' ∧ td' = norm_def td ∧ Validate td' = Ok td' ∧
  (valid_def td → td' = td).
Proof.
  intros (H1 & H2 & H3 & H4 & H5 & ->)%Validate_inv.
  pose proof (valid_def_norm _ H1 H2 H3 H4 H5) as Hv.
  assert (∀ d, valid_def d → norm_def d = d) as Hid.
  { intros [n cs] [????? Hpk ?]. unfold norm_def. simpl in *. f_equal.
    rewrite <-(list_fmap_id cs) at 2. apply list_fmap_ext. intros i c Hc.
    apply norm_col_id. rewrite Forall_forall in Hpk. apply Hpk.
    by eapply list_elem_of_lookup_2. }
  split; [done|]. split; [done|]. split; [|by apply Hid].
  destruct (valid_def_norm _ H1 H2 H3 H4 H5) as [? ? Hi ? Ht ? ?].
  apply Validate_inv. repeat split; try done; [by apply Forall_and|].
  symmetry. by apply Hid.
Qed.

Definition demo_def : TableDef :=
  MkTableDef "t2" [MkColumn "id" TypeText false true false false "" ""].

Lemma Validate_correct_witness :
  Validate demo_def = Ok (norm_def demo_def) ∧ valid_def (norm_def demo_def).
Proof.
  assert (Validate demo_def = Ok (norm_def demo_def)) as H by by vm_compute.
  split; [done|]. exact (proj1 (Validate_correct _ _ H)).
Defined.
