(* ===== verification/Bytes.v ===== *)
(** * Byte strings: [encoding/binary] and [hash/crc32]

    Little- and big-endian integers on byte lists, with their round trips, and
    the IEEE CRC-32 with the fact the log relies on: changing one byte of a
    message always changes its checksum. *)
From S2P Require Import Prelude.
From Stdlib Require Export Strings.Byte.

(** ** Bytes as integers *)
Definition Z_of_byte (b : byte) : Z := Z.of_N (Byte.to_N b).
Definition byte_of_Z (z : Z) : byte :=
  match Byte.of_N (Z.to_N (z mod 256)) with Some b => b | None => x00 end.

#[global] Instance byte_eq_dec : EqDecision byte := Byte.byte_eq_dec.

Lemma Z_of_byte_range b : (0 ≤ Z_of_byte b < 256)%Z.
Proof. unfold Z_of_byte. pose proof (Byte.to_N_bounded b). lia. Qed.

Lemma Z_of_byte_of_Z z : Z_of_byte (byte_of_Z z) = (z mod 256)%Z.
Proof.
  unfold Z_of_byte, byte_of_Z.
  pose proof (Z.mod_pos_bound z 256 ltac:(lia)).
  destruct (Byte.of_N (Z.to_N (z mod 256))) as [b|] eqn:E.
  - apply Byte.to_of_N in E. lia.
  - apply Byte.of_N_None_iff in E. lia.
Qed.

#[global] Instance Z_of_byte_inj : Inj (=) (=) Z_of_byte.
Proof.
  unfold Z_of_byte. intros b c H. apply N2Z.inj in H.
  pose proof (Byte.of_to_N b). pose proof (Byte.of_to_N c). congruence.
Qed.

Lemma byte_of_Z_of_byte b : byte_of_Z (Z_of_byte b) = b.
Proof.
  apply (inj Z_of_byte). rewrite Z_of_byte_of_Z.
  apply Z.mod_small, Z_of_byte_range.
Qed.

(** ** Little endian: [PutUint32], [PutUint64] and their readers *)
Fixpoint PutUintLE (n : nat) (z : Z) : list byte :=
  match n with O => [] | S n => byte_of_Z z :: PutUintLE n (z / 256) end.
Fixpoint UintLE (bs : list byte) : Z :=
  match bs with [] => 0 | b :: bs => Z_of_byte b + 256 * UintLE bs end%Z.

(** Big endian, for the frame header of the protocol. *)
Definition PutUintBE (n : nat) (z : Z) : list byte := reverse (PutUintLE n z).
Definition UintBE (bs : list byte) : Z := UintLE (reverse bs).

Lemma length_PutUintLE n z : length (PutUintLE n z) = n.
Proof. revert z; induction n; intros; simpl; auto. Qed.

Lemma length_PutUintBE n z : length (PutUintBE n z) = n.
Proof. unfold PutUintBE. rewrite length_reverse. apply length_PutUintLE. Qed.

Lemma UintLE_PutUintLE n z : UintLE (PutUintLE n z) = (z mod 256 ^ Z.of_nat n)%Z.
Proof.
  revert z. induction n as [|n IH]; intros z; [simpl; by rewrite Z.mod_1_r|].
  cbn [PutUintLE UintLE]. rewrite IH, Z_of_byte_of_Z, Nat2Z.inj_succ, Z.pow_succ_r by lia.
  rewrite Z.rem_mul_r by lia. lia.
Qed.

Lemma UintLE_PutUintLE_id n z :
  (0 ≤ z < 256 ^ Z.of_nat n)%Z → UintLE (PutUintLE n z) = z.
Proof. intros. rewrite UintLE_PutUintLE. by apply Z.mod_small. Qed.

Lemma UintBE_PutUintBE_id n z :
  (0 ≤ z < 256 ^ Z.of_nat n)%Z → UintBE (PutUintBE n z) = z.
Proof.
  intros. unfold UintBE, PutUintBE. rewrite reverse_involutive. by apply UintLE_PutUintLE_id.
Qed.

Lemma UintLE_range bs : (0 ≤ UintLE bs < 256 ^ Z.of_nat (length bs))%Z.
Proof.
  induction bs as [|b bs IH]; [simpl; lia|]. cbn [UintLE length].
  rewrite Nat2Z.inj_succ, Z.pow_succ_r by lia. pose proof (Z_of_byte_range b). lia.
Qed.

Lemma PutUintLE_UintLE bs : PutUintLE (length bs) (UintLE bs) = bs.
Proof.
  induction bs as [|b bs IH]; [done|]. cbn [UintLE length PutUintLE]. f_equal.
  - apply (inj Z_of_byte). rewrite Z_of_byte_of_Z.
    rewrite (Z.mul_comm 256), Z_mod_plus_full. apply Z.mod_small, Z_of_byte_range.
  - rewrite (Z.mul_comm 256), Z.div_add by lia.
    rewrite (Z.div_small _ _ (Z_of_byte_range b)). by rewrite Z.add_0_l.
Qed.

(** ** [crc32.ChecksumIEEE] *)
Definition crc_poly : Z := 0xEDB88320.
Definition crc_init : Z := 0xFFFFFFFF.

(** One bit: shift right, and add the polynomial when a one falls out. *)
Definition crc_bit (c : Z) : Z :=
  if Z.testbit c 0 then Z.lxor (Z.shiftr c 1) crc_poly else Z.shiftr c 1.

Definition crc_byte (c : Z) (b : byte) : Z :=
  Nat.iter 8 crc_bit (Z.lxor c (Z_of_byte b)).

Definition ChecksumIEEE (bs : list byte) : Z :=
  Z.lxor (fold_left crc_byte bs crc_init) crc_init.

Example crc_check :
  ChecksumIEEE (map (λ n, byte_of_Z (Z.of_nat n)) [49; 50; 51; 52; 53; 54; 55; 56; 57])
  = 0xCBF43926%Z.
Proof. vm_compute. reflexivity. Qed.

(** ** Single-byte errors are detected

    Each bit step is injective on 32-bit states: the polynomial has its top
    bit set, so the top bit of the result tells which branch was taken. *)
Definition is_u32 (c : Z) : Prop := (0 ≤ c < 2 ^ 32)%Z.

Lemma testbit_u32 c i : is_u32 c → (32 ≤ i)%Z → Z.testbit c i = false.
Proof.
  intros [Hc0 Hc] Hi. destruct (decide (c = 0)%Z) as [->|]; [apply Z.testbit_0_l|].
  apply Z.bits_above_log2; [lia|]. eapply Z.lt_le_trans; [|exact Hi].
  apply Z.log2_lt_pow2; lia.
Qed.

Lemma u32_of_testbit c :
  (0 ≤ c)%Z → (∀ i, (32 ≤ i)%Z → Z.testbit c i = false) → is_u32 c.
Proof.
  intros Hc H. split; [done|]. destruct (decide (c = 0)%Z) as [->|]; [lia|].
  apply Z.log2_lt_pow2; [lia|]. destruct (decide (Z.log2 c < 32)%Z) as [|Hn]; [done|].
  specialize (H (Z.log2 c) ltac:(lia)). rewrite Z.bit_log2 in H by lia. done.
Qed.

Lemma lxor_u32 a b : is_u32 a → is_u32 b → is_u32 (Z.lxor a b).
Proof.
  intros Ha Hb. apply u32_of_testbit.
  - apply Z.lxor_nonneg. unfold is_u32 in *. lia.
  - intros i Hi. rewrite Z.lxor_spec, !testbit_u32 by done. done.
Qed.

Lemma shiftr_u32 a : is_u32 a → is_u32 (Z.shiftr a 1).
Proof.
  intros [??]. rewrite Z.shiftr_div_pow2 by lia. unfold is_u32. 
  change (2 ^ 1)%Z with 2%Z. split; [apply Z.div_pos; lia|].
  apply Z.div_lt_upper_bound; lia.
Qed.

Lemma crc_poly_u32 : is_u32 crc_poly.
Proof. unfold is_u32, crc_poly. lia. Qed.

Lemma byte_u32 b : is_u32 (Z_of_byte b).
Proof. unfold is_u32. pose proof (Z_of_byte_range b). lia. Qed.

Lemma crc_bit_u32 c : is_u32 c → is_u32 (crc_bit c).
Proof.
  intros Hc. unfold crc_bit.
  destruct (Z.testbit c 0); auto using lxor_u32, shiftr_u32, crc_poly_u32.
Qed.

(** The bit that fell out is the top bit of the result. *)
Lemma crc_bit_top c : is_u32 c → Z.testbit (crc_bit c) 31 = Z.testbit c 0.
Proof.
  intros Hc. unfold crc_bit. destruct (Z.testbit c 0) eqn:E.
  - rewrite Z.lxor_spec, Z.shiftr_spec by lia. by rewrite (testbit_u32 c (31 + 1)) by done.
  - rewrite Z.shiftr_spec by lia. by rewrite (testbit_u32 c (31 + 1)) by done.
Qed.

Lemma crc_bit_inj c d : is_u32 c → is_u32 d → crc_bit c = crc_bit d → c = d.
Proof.
  intros Hc Hd H.
  assert (Z.testbit c 0 = Z.testbit d 0) as H0 by (rewrite <-!crc_bit_top by done; by rewrite H).
  assert (Z.shiftr c 1 = Z.shiftr d 1) as Hs.
  { unfold crc_bit in H. rewrite <-H0 in H. destruct (Z.testbit c 0); [|done].
    apply (f_equal (λ x, Z.lxor x crc_poly)) in H.
    by rewrite !Z.lxor_assoc, !Z.lxor_nilpotent, !Z.lxor_0_r in H. }
  apply Z.bits_inj'. intros i Hi. destruct (decide (i = 0)%Z) as [->|]; [done|].
  apply (f_equal (λ x, Z.testbit x (i - 1))) in Hs.
  rewrite !Z.shiftr_spec in Hs by lia. by replace (i - 1 + 1)%Z with i in Hs by lia.
Qed.

Lemma crc_iter_u32 n c : is_u32 c → is_u32 (Nat.iter n crc_bit c).
Proof. intros. induction n; simpl; auto using crc_bit_u32. Qed.

Lemma crc_iter_inj n c d :
  is_u32 c → is_u32 d → Nat.iter n crc_bit c = Nat.iter n crc_bit d → c = d.
Proof.
  intros Hc Hd. induction n as [|n IH]; simpl; [done|].
  intros H%crc_bit_inj; auto using crc_iter_u32.
Qed.

Lemma crc_byte_u32 c b : is_u32 c → is_u32 (crc_byte c b).
Proof. intros. unfold crc_byte. auto using crc_iter_u32, lxor_u32, byte_u32. Qed.

Lemma lxor_cancel_r a b c : Z.lxor a c = Z.lxor b c → a = b.
Proof.
  intros H. apply (f_equal (λ x, Z.lxor x c)) in H.
  by rewrite !Z.lxor_assoc, !Z.lxor_nilpotent, !Z.lxor_0_r in H.
Qed.

Lemma crc_byte_inj_state c d b :
  is_u32 c → is_u32 d → crc_byte c b = crc_byte d b → c = d.
Proof.
  intros Hc Hd H. apply crc_iter_inj in H; auto using lxor_u32, byte_u32.
  by apply lxor_cancel_r in H.
Qed.

Lemma crc_byte_inj_byte c b b' : is_u32 c → crc_byte c b = crc_byte c b' → b = b'.
Proof.
  intros Hc H. apply crc_iter_inj in H; auto using lxor_u32, byte_u32.
  rewrite !(Z.lxor_comm c) in H. apply lxor_cancel_r in H. by apply (inj Z_of_byte).
Qed.

Lemma crc_fold_u32 bs c : is_u32 c → is_u32 (fold_left crc_byte bs c).
Proof. revert c. induction bs; intros; simpl; auto using crc_byte_u32. Qed.

Lemma crc_fold_inj bs c d :
  is_u32 c → is_u32 d → fold_left crc_byte bs c = fold_left crc_byte bs d → c = d.
Proof.
  revert c d. induction bs as [|b bs IH]; intros c d Hc Hd H; simpl in *; [done|].
  apply IH in H; auto using crc_byte_u32. by eapply crc_byte_inj_state.
Qed.

Lemma ChecksumIEEE_u32 bs : is_u32 (ChecksumIEEE bs).
Proof.
  unfold ChecksumIEEE.
  assert (is_u32 crc_init) by (unfold is_u32, crc_init; lia).
  auto using lxor_u32, crc_fold_u32.
Qed.

(** Changing one byte of a message changes its checksum. *)
Lemma ChecksumIEEE_single_byte pre b b' post :
  b ≠ b' → ChecksumIEEE (pre ++ b :: post) ≠ ChecksumIEEE (pre ++ b' :: post).
Proof.
  intros Hb H. apply Hb. unfold ChecksumIEEE in H. apply lxor_cancel_r in H.
  assert (is_u32 crc_init) as Hi by (unfold is_u32, crc_init; lia).
  rewrite !fold_left_app in H. simpl in H.
  apply crc_fold_inj in H; auto using crc_byte_u32, crc_fold_u32.
  by eapply crc_byte_inj_byte, H; apply crc_fold_u32.
Qed.

#[global] Arguments PutUintLE : simpl never.
#[global] Arguments UintLE : simpl never.
#[global] Arguments ChecksumIEEE : simpl never.
