(* ===== verification/Wal.v ===== *)
(** * The write-ahead log (storage/wal.go, storage/gob.go)

    Records, their byte encoding
    [[type 1B][txn 8B LE][payload len 4B LE][payload][crc32 4B LE]], the scan
    that reads them back and stops at the first torn or corrupt one, and the
    log file with [OpenWAL], [Append] and [Truncate].

    The payload of rows and schema changes is written by [encoding/gob], which
    enters as a codec with its documented contract: decoding an encoded value
    gives the value back. *)
From S2P Require Import Prelude Bytes GoStd Types Schema.

(** ** The gob codec: [gobEncode] and [gobDecode] *)
Class Gob (A : Type) := {
  gobEncode : A → list byte;
  gobDecode : list byte → option A;
  gob_roundtrip a : gobDecode (gobEncode a) = Some a }.

(** ** Data *)
Record SchemaChange := MkSchemaChange {
  sc_Create : bool; sc_Name : string; sc_Cols : list Column }.

Abbreviation row := (list Value).

Definition RecBegin : Z := 1.
Definition RecPut : Z := 2.
Definition RecDelete : Z := 3.
Definition RecCommit : Z := 4.
Definition RecCreate : Z := 5.
Definition RecDrop : Z := 6.

Definition maxPayload : Z := 64 * 2 ^ 20.

Record WalRecord := MkRecord {
  r_Type : Z; r_Txn : Z; r_TableID : Z; r_RowID : Z; r_Row : row;
  r_DDL : option SchemaChange }.

#[global] Instance SchemaChange_eq_dec : EqDecision SchemaChange.
Proof. solve_decision. Defined.
#[global] Instance WalRecord_eq_dec : EqDecision WalRecord.
Proof. solve_decision. Defined.

(** The record literals of the engine; a field that is not given is zero. *)
Definition mk_begin (tx : Z) : WalRecord := MkRecord RecBegin tx 0 0 [] None.
Definition mk_commit (tx : Z) : WalRecord := MkRecord RecCommit tx 0 0 [] None.
Definition mk_put (tx tid rid : Z) (r : row) : WalRecord := MkRecord RecPut tx tid rid r None.
Definition mk_delete (tx tid rid : Z) : WalRecord := MkRecord RecDelete tx tid rid [] None.
Definition mk_create (tx : Z) (sc : SchemaChange) : WalRecord :=
  MkRecord RecCreate tx 0 0 [] (Some sc).
Definition mk_drop (tx : Z) (sc : SchemaChange) : WalRecord :=
  MkRecord RecDrop tx 0 0 [] (Some sc).

Definition errMalformed : error := Errorf "tsql: malformed wal record" [].

(** The log as an object: the bytes of the file, the record counter, and
    whether the buffered writer has failed ([bufio.Writer] keeps its first
    error and returns it from every later write and flush). *)
Record WAL := MkWAL { w_file : list byte; w_Seq : Z; w_stuck : bool }.

(** What the operating system makes of one call: success, a write that fails
    after [n] of its bytes (a write that reports an error is short by at least
    one byte), or a failed [fsync]/[ftruncate]. *)
Inductive io := IoOk | IoWriteErr (n : nat) | IoSyncErr.

(** ** The log as the engine sees it

    The engine never looks at bytes: for it the log is a list of records that
    can be extended, read back and emptied. *)
Record Log := MkLog { l_recs : list WalRecord; l_Seq : Z; l_stuck : bool }.

(** The error [encodeRecord] reports for a record it cannot encode. *)
Definition encode_error (r : WalRecord) : option error :=
  if bool_decide (r_Type r ∈ [RecBegin; RecCommit; RecPut; RecDelete]) then None
  else if bool_decide (r_Type r = RecCreate ∨ r_Type r = RecDrop) then
    match r_DDL r with
    | None => Some (Errorf "tsql: ddl record missing payload" [])
    | Some _ => None
    end
  else Some (Errorf "tsql: unknown record type %d" [AInt (r_Type r)]).

Definition log_append (o : io) (r : WalRecord) (durable : bool) : GoM Log Z := λ l,
  match encode_error r with
  | Some e => (l, Err e)
  | None =>
      if l_stuck l then (l, Err ErrIO) else
      let q := wrapu64 (l_Seq l + 1) in
      match o, durable with
      | IoWriteErr _, _ => (MkLog (l_recs l) (l_Seq l) true, Err ErrIO)
      | IoSyncErr, true => (MkLog (l_recs l ++ [r]) (l_Seq l) false, Err ErrIO)
      | _, _ => (MkLog (l_recs l ++ [r]) q false, Ok q)
      end
  end.

Definition log_truncate (o : io) : GoM Log unit := λ l,
  if l_stuck l then (l, Err ErrIO) else
  match o with
  | IoOk => (MkLog [] 0 false, Ok tt)
  | _ => (l, Err ErrIO)
  end.

(** The outcomes are those of [Sync] and of closing the file.  A closed file
    answers every later call with an error and takes nothing any more, like a
    writer that is stuck. *)
Definition log_close (o1 o2 : io) : GoM Log unit := λ l,
  if l_stuck l then (l, Err ErrIO) else
  match o1, o2 with
  | IoOk, IoOk => (MkLog (l_recs l) (l_Seq l) true, Ok tt)
  | IoOk, _ => (MkLog (l_recs l) (l_Seq l) true, Err ErrIO)
  | _, _ => (l, Err ErrIO)
  end.

Section wal.
  Context `{!Gob row, !Gob SchemaChange}.

(** ** Operations *)

(** The switch of [encodeRecord] over the record type. *)
Definition encodePayload (r : WalRecord) : res (list byte) :=
  if bool_decide (r_Type r = RecBegin ∨ r_Type r = RecCommit) then Ok []
  else if bool_decide (r_Type r = RecPut) then
    Ok (PutUintLE 4 (r_TableID r) ++ PutUintLE 8 (wrapu64 (r_RowID r)) ++ gobEncode (r_Row r))
  else if bool_decide (r_Type r = RecDelete) then
    Ok (PutUintLE 4 (r_TableID r) ++ PutUintLE 8 (wrapu64 (r_RowID r)))
  else if bool_decide (r_Type r = RecCreate ∨ r_Type r = RecDrop) then
    match r_DDL r with
    | None => Err (Errorf "tsql: ddl record missing payload" [])
    | Some sc => Ok (gobEncode sc)
    end
  else Err (Errorf "tsql: unknown record type %d" [AInt (r_Type r)]).

Definition encodeHeader (r : WalRecord) (payload : list byte) : list byte :=
  byte_of_Z (r_Type r) :: PutUintLE 8 (r_Txn r)
    ++ PutUintLE 4 (wrapu32 (Z.of_nat (length payload))).

Definition encodeRecord (r : WalRecord) : res (list byte) :=
  match encodePayload r with
  | Err e => Err e
  | Ok payload =>
      let body := encodeHeader r payload ++ payload in
      Ok (body ++ PutUintLE 4 (ChecksumIEEE body))
  end.

Definition decodeRecord (hdr payload : list byte) : res WalRecord :=
  let ty := Z_of_byte (default x00 (hdr !! 0)) in
  let tx := UintLE (take 8 (drop 1 hdr)) in
  if bool_decide (ty = RecBegin ∨ ty = RecCommit) then Ok (MkRecord ty tx 0 0 [] None)
  else if bool_decide (ty = RecPut ∨ ty = RecDelete) then
    if bool_decide (length payload < 12) then Err errMalformed else
    let tid := UintLE (take 4 payload) in
    let rid := wrap64 (UintLE (take 8 (drop 4 payload))) in
    if bool_decide (ty = RecPut) then
      match gobDecode (drop 12 payload) with
      | Some r => Ok (MkRecord ty tx tid rid r None)
      | None => Err errMalformed
      end
    else Ok (MkRecord ty tx tid rid [] None)
  else if bool_decide (ty = RecCreate ∨ ty = RecDrop) then
    match gobDecode payload with
    | Some sc => Ok (MkRecord ty tx 0 0 [] (Some sc))
    | None => Err errMalformed
    end
  else Err errMalformed.

(** [io.ReadFull]: exactly [n] bytes, or nothing. *)
Definition ReadFull (n : nat) (f : list byte) : option (list byte * list byte) :=
  if bool_decide (n ≤ length f) then Some (take n f, drop n f) else None.

(** One turn of the loop of [ReadRecords]: a record and the rest of the file,
    or [None] where the loop ends. *)
Definition readOne (f : list byte) : option (WalRecord * nat * list byte) :=
  match ReadFull 13 f with
  | None => None
  | Some (hdr, f1) =>
      let plen := UintLE (take 4 (drop 9 hdr)) in
      if (maxPayload <? plen)%Z then None else
      match ReadFull (Z.to_nat plen) f1 with
      | None => None
      | Some (payload, f2) =>
          match ReadFull 4 f2 with
          | None => None
          | Some (crcb, f3) =>
              if bool_decide (ChecksumIEEE (hdr ++ payload) = UintLE crcb) then
                match decodeRecord hdr payload with
                | Ok rec => Some (rec, 13 + Z.to_nat plen + 4, f3)
                | Err _ => None
                end
              else None
          end
      end
  end.

Fixpoint readLoop (fuel : nat) (f : list byte) (off : nat) : list WalRecord * nat :=
  match fuel with
  | O => ([], off)
  | S fuel =>
      match readOne f with
      | None => ([], off)
      | Some (rec, n, f') =>
          let '(recs, off') := readLoop fuel f' (off + n) in (rec :: recs, off')
      end
  end.

(** The records of the file and the offset of the first record that is torn,
    corrupt or missing.  Every record takes at least 17 bytes, so the length
    of the file is enough fuel. *)
Definition ReadRecords (f : list byte) : list WalRecord * nat :=
  readLoop (length f) f 0.

Definition OpenWAL (f : list byte) : WAL * list WalRecord :=
  let '(recs, validLen) := ReadRecords f in
  (MkWAL (if bool_decide (validLen < length f) then take validLen f else f)
     (Z.of_nat (length recs)) false, recs).

(** What can fail in [OpenWAL]: opening the file, reading it at some offset
    (with an error that is not the end of the file), truncating it. *)
Record wal_open_io := MkWalOpenIo {
  wo_open : option error; wo_read : option (nat * error); wo_trunc : option error }.
Definition wal_open_fine : wal_open_io := MkWalOpenIo None None None.

(** [ReadRecords] where the bytes from offset [p] on cannot be read: the error
    is returned if it strikes in a header, and taken for a torn tail if it
    strikes in a payload or a checksum. *)
Definition ReadRecords_io (rd : option (nat * error)) (f : list byte) : res (list WalRecord * nat) :=
  match rd with
  | None => Ok (ReadRecords f)
  | Some (p, err) =>
      let '(recs, off) := ReadRecords (take p f) in
      if bool_decide (p ≤ length f ∧ p < off + 13) then Err err else Ok (recs, off)
  end.

(** [OpenWAL] with these outcomes; [OpenWAL] above is the case without errors. *)
Definition OpenWAL_io (o : wal_open_io) (f : list byte) : res (WAL * list WalRecord) :=
  match wo_open o with
  | Some err => Err err
  | None =>
      match ReadRecords_io (wo_read o) f with
      | Err err => Err err
      | Ok (recs, validLen) =>
          if bool_decide (validLen < length f) then
            match wo_trunc o with
            | Some err => Err err
            | None => Ok (MkWAL (take validLen f) (Z.of_nat (length recs)) false, recs)
            end
          else Ok (MkWAL f (Z.of_nat (length recs)) false, recs)
      end
  end.

(** Write and flush the record, then fsync when it is [durable]; the counter
    moves only when all of it succeeded. *)
Definition Append (o : io) (r : WalRecord) (durable : bool) : GoM WAL Z := λ w,
  match encodeRecord r with
  | Err e => (w, Err e)
  | Ok buf =>
      if w_stuck w then (w, Err ErrIO) else
      match o with
      | IoWriteErr n =>
          (MkWAL (w_file w ++ take (n `min` pred (length buf)) buf) (w_Seq w) true, Err ErrIO)
      | IoSyncErr =>
          if durable then (MkWAL (w_file w ++ buf) (w_Seq w) false, Err ErrIO)
          else let q := wrapu64 (w_Seq w + 1) in (MkWAL (w_file w ++ buf) q false, Ok q)
      | IoOk => let q := wrapu64 (w_Seq w + 1) in (MkWAL (w_file w ++ buf) q false, Ok q)
      end
  end.

Definition Truncate (o : io) : GoM WAL unit := λ w,
  if w_stuck w then (w, Err ErrIO) else
  match o with
  | IoOk => (MkWAL [] 0 false, Ok tt)
  | _ => (w, Err ErrIO)
  end.

Definition WAL_Close (o1 o2 : io) : GoM WAL unit := λ w,
  if w_stuck w then (w, Err ErrIO) else
  match o1, o2 with
  | IoOk, IoOk => (MkWAL (w_file w) (w_Seq w) true, Ok tt)
  | IoOk, _ => (MkWAL (w_file w) (w_Seq w) true, Err ErrIO)
  | _, _ => (w, Err ErrIO)
  end.

(** ** Records the engine writes *)
Definition wf_record (r : WalRecord) : Prop :=
  (0 ≤ r_Txn r < 2 ^ 64)%Z ∧
  match r_DDL r with
  | None =>
      (r_TableID r = 0 ∧ r_RowID r = 0 ∧ r_Row r = [] ∧
         (r_Type r = RecBegin ∨ r_Type r = RecCommit))%Z
      ∨ ((0 ≤ r_TableID r < 2 ^ 32)%Z ∧ in_int64 (r_RowID r) ∧
         (r_Type r = RecPut ∨ (r_Type r = RecDelete ∧ r_Row r = [])))
  | Some _ =>
      (r_TableID r = 0 ∧ r_RowID r = 0 ∧ r_Row r = [] ∧
         (r_Type r = RecCreate ∨ r_Type r = RecDrop))%Z
  end.

(** The bytes of a record; [] for a record that cannot be encoded. *)
Definition enc (r : WalRecord) : list byte :=
  match encodeRecord r with Ok b => b | Err _ => [] end.
Definition enc_all (rs : list WalRecord) : list byte := concat (map enc rs).

Definition payload_of (r : WalRecord) : list byte :=
  match encodePayload r with Ok b => b | Err _ => [] end.

(** A record that fits under the bound the reader checks. *)
Definition fits (r : WalRecord) : Prop :=
  wf_record r ∧ (Z.of_nat (length (payload_of r)) ≤ maxPayload)%Z.

(** ** Encoding and decoding one record *)
Lemma length_encodeHeader r p : length (encodeHeader r p) = 13.
Proof. unfold encodeHeader. by rewrite length_cons, length_app, !length_PutUintLE. Qed.

Lemma encodePayload_wf r : wf_record r → encodePayload r = Ok (payload_of r).
Proof.
  unfold wf_record, payload_of, encodePayload.
  intros [_ H]. repeat case_bool_decide; try done; destruct (r_DDL r); try done.
  all: exfalso; destruct_or?; destruct_and?; destruct_or?; destruct_and?;
    unfold RecBegin, RecPut, RecDelete, RecCommit, RecCreate, RecDrop in *; lia.
Qed.

Lemma enc_wf r :
  wf_record r →
  enc r = encodeHeader r (payload_of r) ++ payload_of r
          ++ PutUintLE 4 (ChecksumIEEE (encodeHeader r (payload_of r) ++ payload_of r)).
Proof. intros H. unfold enc, encodeRecord. rewrite encodePayload_wf by done. by rewrite app_assoc. Qed.

Lemma encodeRecord_wf r : wf_record r → encodeRecord r = Ok (enc r).
Proof. intros H. unfold enc, encodeRecord. by rewrite encodePayload_wf. Qed.

Lemma length_enc r : wf_record r → length (enc r) = 13 + length (payload_of r) + 4.
Proof.
  intros H. rewrite enc_wf by done.
  rewrite !length_app, length_encodeHeader, length_PutUintLE. lia.
Qed.

Lemma header_fields r p :
  (0 ≤ r_Txn r < 2 ^ 64)%Z → (Z.of_nat (length p) < 2 ^ 32)%Z →
  encodeHeader r p !! 0 = Some (byte_of_Z (r_Type r)) ∧
  UintLE (take 8 (drop 1 (encodeHeader r p))) = r_Txn r ∧
  UintLE (take 4 (drop 9 (encodeHeader r p))) = Z.of_nat (length p).
Proof.
  intros Htx Hp. unfold encodeHeader. split; [done|]. split.
  - rewrite skipn_cons, drop_0, take_app_length' by (by rewrite length_PutUintLE).
    by apply UintLE_PutUintLE_id.
  - rewrite skipn_cons, drop_app_length' by (by rewrite length_PutUintLE).
    rewrite take_ge by (by rewrite length_PutUintLE).
    rewrite wrapu32_id by lia. apply UintLE_PutUintLE_id. lia.
Qed.

Lemma payload_fields tid rid rest :
  (0 ≤ tid < 2 ^ 32)%Z → in_int64 rid →
  let p := PutUintLE 4 tid ++ PutUintLE 8 (wrapu64 rid) ++ rest in
  ¬ length p < 12 ∧ UintLE (take 4 p) = tid ∧
  wrap64 (UintLE (take 8 (drop 4 p))) = rid ∧ drop 12 p = rest.
Proof.
  intros Ht Hr p. unfold p.
  rewrite !length_app, !length_PutUintLE. split; [lia|].
  rewrite take_app_length', drop_app_length' by (by rewrite length_PutUintLE).
  rewrite take_app_length' by (by rewrite length_PutUintLE). split; [by apply UintLE_PutUintLE_id|].
  split.
  - rewrite UintLE_PutUintLE. change (256 ^ Z.of_nat 8)%Z with (2 ^ 64)%Z.
    fold (wrapu64 (wrapu64 rid)). rewrite !wrap64_wrapu64. by apply wrap64_id.
  - rewrite app_assoc. apply drop_app_length'.
    by rewrite length_app, !length_PutUintLE.
Qed.

Lemma decodeRecord_encode r :
  fits r → decodeRecord (encodeHeader r (payload_of r)) (payload_of r) = Ok r.
Proof.
  intros [Hwf Hfit]. pose proof Hwf as [Htx Hr].
  destruct (header_fields r (payload_of r) Htx) as (Hh & Ht & _).
  { unfold maxPayload in Hfit. lia. }
  unfold decodeRecord. rewrite Hh, Ht. simpl default.
  clear Hh Ht Hfit Hwf.
  destruct r as [ty tx tid rid rw ddl]; simpl in *.
  destruct ddl as [sc|].
  - destruct Hr as (-> & -> & -> & Hty).
    destruct Hty as [-> | ->]; change (payload_of _) with (gobEncode sc); simpl;
      by rewrite gob_roundtrip.
  - destruct Hr as [(-> & -> & -> & Hty)|(Htid & Hrid & Hty)].
    { by destruct Hty as [-> | ->]. }
    destruct (payload_fields tid rid (gobEncode rw) Htid Hrid) as (HA & HB & HC & HD).
    destruct (payload_fields tid rid [] Htid Hrid) as (HA' & HB' & HC' & HD').
    rewrite app_nil_r in HA', HB', HC', HD'.
    destruct Hty as [->|[-> ->]].
    + change (payload_of _) with (PutUintLE 4 tid ++ PutUintLE 8 (wrapu64 rid) ++ gobEncode rw).
      generalize dependent (PutUintLE 4 tid ++ PutUintLE 8 (wrapu64 rid) ++ gobEncode rw).
      intros p HA HB HC HD. simpl.
      rewrite bool_decide_eq_false_2, HB, HC, HD, gob_roundtrip by done. done.
    + change (payload_of _) with (PutUintLE 4 tid ++ PutUintLE 8 (wrapu64 rid)).
      generalize dependent (PutUintLE 4 tid ++ PutUintLE 8 (wrapu64 rid)).
      intros p HA' HB' HC' HD'. simpl.
      rewrite bool_decide_eq_false_2, HB', HC' by done. done.
Qed.

Lemma payload_mk_put tx tid rid r :
  payload_of (mk_put tx tid rid r) =
  PutUintLE 4 tid ++ PutUintLE 8 (wrapu64 rid) ++ gobEncode r.
Proof. done. Qed.

Lemma ReadFull_app n a b : length a = n → ReadFull n (a ++ b) = Some (a, b).
Proof.
  intros <-. unfold ReadFull. rewrite length_app, bool_decide_eq_true_2 by lia.
  by rewrite take_app_length, drop_app_length.
Qed.

Lemma ReadFull_short n f : length f < n → ReadFull n f = None.
Proof. intros. unfold ReadFull. by rewrite bool_decide_eq_false_2 by lia. Qed.

Lemma readOne_enc r rest : fits r → readOne (enc r ++ rest) = Some (r, length (enc r), rest).
Proof.
  intros Hf. pose proof Hf as [Hwf Hfit]. pose proof Hwf as [Htx _].
  rewrite length_enc, enc_wf, <-!app_assoc by done. unfold readOne.
  rewrite ReadFull_app by apply length_encodeHeader.
  destruct (header_fields r (payload_of r) Htx) as (_ & _ & ->).
  { unfold maxPayload in Hfit. lia. }
  rewrite (proj2 (Z.ltb_ge _ _) Hfit), Nat2Z.id, ReadFull_app by done.
  rewrite ReadFull_app by apply length_PutUintLE.
  rewrite UintLE_PutUintLE_id by apply ChecksumIEEE_u32.
  by rewrite bool_decide_eq_true_2, decodeRecord_encode by done.
Qed.

(** A record that is cut anywhere is not read. *)
Lemma readOne_torn r n : fits r → n < length (enc r) → readOne (take n (enc r)) = None.
Proof.
  intros [Hwf Hfit] Hn. pose proof Hwf as [Htx _]. rewrite length_enc in Hn by done.
  set (h := encodeHeader r (payload_of r)). set (p := payload_of r) in *.
  set (c := PutUintLE 4 (ChecksumIEEE (h ++ p))).
  assert (enc r = h ++ p ++ c) as -> by by apply enc_wf.
  assert (length h = 13) as Hh by apply length_encodeHeader.
  assert (length c = 4) as Hc by apply length_PutUintLE.
  unfold readOne. destruct (decide (n < 13)).
  { rewrite ReadFull_short; [done|]. rewrite length_take. lia. }
  rewrite take_app_ge, ReadFull_app by lia.
  destruct (header_fields r p Htx) as (_ & _ & Hl).
  { unfold maxPayload in Hfit. lia. }
  unfold h. rewrite Hl, (proj2 (Z.ltb_ge _ _) Hfit), Nat2Z.id. fold h. rewrite Hh.
  destruct (decide (n - 13 < length p)).
  { rewrite ReadFull_short; [done|]. rewrite length_take. lia. }
  rewrite take_app_ge, ReadFull_app by lia.
  rewrite ReadFull_short; [done|]. rewrite length_take. lia.
Qed.

(** Bytes that follow a record do not change how it is read, so that a cut of
    what holds no record holds none. *)
Lemma ReadFull_more n f a b g : ReadFull n f = Some (a, b) → ReadFull n (f ++ g) = Some (a, b ++ g).
Proof.
  unfold ReadFull. intros H. case_bool_decide; [|done]. simplify_eq.
  rewrite bool_decide_eq_true_2 by (rewrite length_app; lia).
  by rewrite take_app_le, drop_app_le by lia.
Qed.

Lemma readOne_more f g r n rest : readOne f = Some (r, n, rest) → readOne (f ++ g) = Some (r, n, rest ++ g).
Proof.
  unfold readOne. destruct (ReadFull 13 f) as [[hdr f1]|] eqn:E1; [|done].
  rewrite (ReadFull_more _ _ _ _ _ E1). destruct (maxPayload <? _)%Z; [done|].
  destruct (ReadFull (Z.to_nat _) f1) as [[pl f2]|] eqn:E2; [|done]. rewrite (ReadFull_more _ _ _ _ _ E2).
  destruct (ReadFull 4 f2) as [[crcb f3]|] eqn:E3; [|done]. rewrite (ReadFull_more _ _ _ _ _ E3).
  case_bool_decide; [|done]. destruct (decodeRecord hdr pl); [|done]. intros. by simplify_eq.
Qed.

Lemma readOne_take n f : readOne f = None → readOne (take n f) = None.
Proof.
  intros Hf. destruct (readOne (take n f)) as [[[r m] rest]|] eqn:E; [|done].
  apply (readOne_more _ (drop n f)) in E. rewrite take_drop in E. congruence.
Qed.

Lemma readOne_nil : readOne [] = None.
Proof. done. Qed.

(** ** Scanning a log *)
Lemma enc_all_cons r rs : enc_all (r :: rs) = enc r ++ enc_all rs.
Proof. done. Qed.

Lemma enc_all_app rs rs' : enc_all (rs ++ rs') = enc_all rs ++ enc_all rs'.
Proof. unfold enc_all. by rewrite map_app, concat_app. Qed.

Lemma length_enc_all rs : Forall fits rs → 17 * length rs ≤ length (enc_all rs).
Proof.
  induction 1 as [|r rs [Hwf _] _ IH]; [done|].
  rewrite enc_all_cons, length_app, length_enc by done. simpl. lia.
Qed.

Lemma readLoop_enc_all fuel rs tail off :
  Forall fits rs → readOne tail = None → length rs < fuel →
  readLoop fuel (enc_all rs ++ tail) off = (rs, off + length (enc_all rs)).
Proof.
  intros Hrs Htail. revert fuel off.
  induction Hrs as [|r rs Hr Hrs IH]; intros fuel off Hf; destruct fuel; simpl in Hf; try lia.
  - simpl. rewrite Htail. f_equal. unfold enc_all; simpl; lia.
  - cbn [readLoop]. rewrite enc_all_cons, <-app_assoc, readOne_enc by done.
    rewrite IH by lia. f_equal. rewrite length_app. lia.
Qed.

Lemma ReadRecords_enc_all rs tail :
  Forall fits rs → readOne tail = None →
  ReadRecords (enc_all rs ++ tail) = (rs, length (enc_all rs)).
Proof.
  intros Hrs Ht. unfold ReadRecords. pose proof (length_enc_all rs Hrs) as Hl.
  destruct (length (enc_all rs ++ tail)) as [|n] eqn:E; rewrite length_app in E.
  - destruct rs; simpl in Hl; [done|lia].
  - rewrite readLoop_enc_all; [done..|]. destruct rs; simpl in *; lia.
Qed.

(** ** Cut logs *)
Lemma enc_all_cut rs n :
  Forall fits rs → n ≤ length (enc_all rs) →
  ∃ k tail, take n (enc_all rs) = enc_all (take k rs) ++ tail ∧ readOne tail = None ∧
    k ≤ length rs ∧ length (enc_all (take k rs)) ≤ n ∧
    (∀ j, j ≤ length rs → length (enc_all (take j rs)) ≤ n → j ≤ k).
Proof.
  intros Hrs. revert n. induction Hrs as [|r rs Hr Hrs IH]; intros n Hn.
  { exists 0, []. split; [by destruct n|]. repeat split; simpl; auto with lia. }
  rewrite enc_all_cons, length_app in Hn.
  destruct (decide (n < length (enc r))) as [Hlt|Hge].
  - exists 0, (take n (enc r)). rewrite enc_all_cons, take_app_le by lia.
    repeat split; [by apply readOne_torn|lia|simpl; lia|].
    intros [|j] Hj Hl; [done|]. rewrite firstn_cons, enc_all_cons, length_app in Hl. lia.
  - destruct (IH (n - length (enc r))) as (k & tail & Htk & Ht & Hk & Hle & Hmax); [lia|].
    exists (S k), tail. rewrite enc_all_cons, take_app_ge, Htk by lia.
    rewrite firstn_cons, enc_all_cons, length_app, <-app_assoc. simpl.
    repeat split; [done|lia|lia|].
    intros [|j] Hj Hl; [lia|]. rewrite firstn_cons, enc_all_cons, length_app in Hl.
    apply le_n_S, Hmax; simpl in *; lia.
Qed.

Lemma enc_all_take_le j k rs : j ≤ k → length (enc_all (take j rs)) ≤ length (enc_all (take k rs)).
Proof.
  intros Hjk. replace (take k rs) with (take j rs ++ drop j (take k rs)).
  - rewrite enc_all_app, length_app. lia.
  - rewrite <-(take_drop j (take k rs)) at 2. by rewrite take_take, Nat.min_l.
Qed.

(** The same for the file of a log with a torn record at its end, and a cut
    anywhere in it. *)
Lemma log_file_cut rs tail n :
  Forall fits rs → readOne tail = None →
  ∃ k tl, take n (enc_all rs ++ tail) = enc_all (take k rs) ++ tl ∧ readOne tl = None ∧
    k ≤ length rs ∧ ∀ j, j ≤ length rs → length (enc_all (take j rs)) ≤ n ↔ j ≤ k.
Proof.
  intros Hfits Htl. destruct (decide (n ≤ length (enc_all rs))) as [Hn|Hn].
  - destruct (enc_all_cut rs n Hfits Hn) as (k & tl & Htk & Htl' & Hk & Hle & Hmax).
    exists k, tl. rewrite take_app_le by done. split_and!; [done..|]. intros j Hj. split; [by apply Hmax|].
    intros Hjk. etransitivity; [|exact Hle]. apply enc_all_take_le; lia.
  - exists (length rs), (take (n - length (enc_all rs)) tail).
    rewrite take_app_ge, (take_ge rs) by lia. split_and!; [done|by apply readOne_take|done|].
    intros j Hj. split; [done|]. intros _. transitivity (length (enc_all rs)); [|lia].
    rewrite <-(take_ge rs (length rs)) at 2 by done. by apply enc_all_take_le.
Qed.

Lemma Forall_fits_take k rs : Forall fits rs → Forall fits (take k rs).
Proof. apply Forall_take. Qed.

Lemma OpenWAL_io_fine f : OpenWAL_io wal_open_fine f = Ok (OpenWAL f).
Proof.
  unfold OpenWAL_io, OpenWAL. simpl. destruct (ReadRecords f) as [recs off]. by case_bool_decide.
Qed.

Lemma OpenWAL_io_Ok o f q : wo_read o = None → OpenWAL_io o f = Ok q → OpenWAL f = q.
Proof.
  intros Hr. unfold OpenWAL_io, OpenWAL, ReadRecords_io. rewrite Hr. destruct (wo_open o); [done|].
  destruct (ReadRecords f) as [recs off]. case_bool_decide; [|naive_solver].
  destruct (wo_trunc o); naive_solver.
Qed.

Lemma OpenWAL_rep rs tail :
  Forall fits rs → readOne tail = None →
  OpenWAL (enc_all rs ++ tail) = (MkWAL (enc_all rs) (Z.of_nat (length rs)) false, rs).
Proof.
  intros Hrs Ht. unfold OpenWAL. rewrite ReadRecords_enc_all by done.
  do 2 f_equal. case_bool_decide as Hl; [by rewrite take_app_length|].
  rewrite length_app in Hl. rewrite (nil_length_inv tail) by lia. apply app_nil_r.
Qed.


(** One altered byte outside the length field: the bytes still split in
    header, payload and checksum, but the checksum no longer matches. *)
Lemma corrupt_fields (h p c : list byte) (i : nat) (b : byte) :
  length h = 13 → length c = 4 → UintLE c = ChecksumIEEE (h ++ p) →
  i < 13 + length p + 4 → ¬ (9 ≤ i < 13) → ((h ++ p) ++ c) !! i ≠ Some b →
  ∃ h' p' c', <[i := b]> ((h ++ p) ++ c) = h' ++ p' ++ c' ∧ length h' = 13 ∧
    length p' = length p ∧ length c' = 4 ∧ take 4 (drop 9 h') = take 4 (drop 9 h) ∧
    ChecksumIEEE (h' ++ p') ≠ UintLE c'.
Proof.
  intros Hh Hc Hcu Hi Hlen Hb.
  assert (length (h ++ p) = 13 + length p) as Hhp by (rewrite length_app; lia).
  destruct (decide (i < 13 + length p)) as [Hlt|Hge].
  - rewrite insert_app_l by lia. rewrite lookup_app_l in Hb by lia.
    destruct (lookup_lt_is_Some_2 (h ++ p) i) as [b0 Hb0]; [lia|].
    exists (take 13 (<[i:=b]> (h ++ p))), (drop 13 (<[i:=b]> (h ++ p))), c.
    rewrite app_assoc, take_drop, length_take, length_drop, length_insert.
    repeat split; [lia..| |].
    + rewrite skipn_firstn_comm, take_take. destruct (decide (i < 9)).
      * rewrite drop_insert_lt by lia. rewrite drop_app_le, take_app_le by (rewrite ?length_drop; lia).
        done.
      * rewrite insert_app_r_alt, drop_app_le, take_app_le by (rewrite ?length_drop; lia).
        done.
    + rewrite Hcu, insert_take_drop by lia. intros Heq. symmetry in Heq. revert Heq.
      rewrite <-(take_drop_middle (h ++ p) i b0) at 1 by done.
      apply ChecksumIEEE_single_byte. congruence.
  - rewrite insert_app_r_alt by lia. rewrite lookup_app_r in Hb by lia.
    exists h, p, (<[i - length (h ++ p) := b]> c). rewrite length_insert, <-app_assoc.
    repeat split; [done..|]. rewrite <-Hcu. intros Heq.
    apply (f_equal (PutUintLE (length c))) in Heq. rewrite PutUintLE_UintLE in Heq.
    rewrite <-(length_insert c (i - length (h ++ p)) b), PutUintLE_UintLE in Heq.
    apply Hb. rewrite Heq. apply list_lookup_insert_eq. lia.
Qed.

(** C23: A record whose stored bytes differ in one byte outside the length
    field is rejected by its checksum: the scan returns exactly the records
    before it. *)
Theorem ReadRecords_corrupt_byte (rs : list WalRecord) (r : WalRecord)
    (i : nat) (b : byte) (rest : list byte) :
  Forall fits rs → fits r → i < length (enc r) → ¬ (9 ≤ i < 13) →
  enc r !! i ≠ Some b →
  ReadRecords (enc_all rs ++ <[i := b]> (enc r) ++ rest) = (rs, length (enc_all rs)).
Proof.
  intros Hrs Hr Hi Hlen Hb. apply ReadRecords_enc_all; [done|].
  pose proof Hr as [Hwf Hfit]. pose proof Hwf as [Htx _]. rewrite length_enc in Hi by done.
  rewrite enc_wf, app_assoc in Hb |- * by done.
  apply corrupt_fields in Hb as (h' & p' & c' & -> & Hh' & Hp' & Hc' & Hlf & Hne);
    [|apply length_encodeHeader|apply length_PutUintLE
     |apply UintLE_PutUintLE_id, ChecksumIEEE_u32|done..].
  unfold readOne. rewrite <-!app_assoc, ReadFull_app by done. rewrite Hlf.
  destruct (header_fields r (payload_of r) Htx) as (_ & _ & ->).
  { unfold maxPayload in Hfit. lia. }
  rewrite (proj2 (Z.ltb_ge _ _) Hfit), Nat2Z.id, ReadFull_app by done.
  by rewrite ReadFull_app, bool_decide_eq_false_2 by done.
Qed.

(** The writer does not check the bound that the reader enforces: a record
    whose payload is above 64 MiB is encoded without error, but the scan stops
    in front of it, so it and every record after it are lost on reopen. *)
Theorem oversized_record_lost (rs : list WalRecord) (r : WalRecord) (rest : list byte) :
  Forall fits rs → wf_record r →
  (maxPayload < Z.of_nat (length (payload_of r)) < 2 ^ 32)%Z →
  encodeRecord r = Ok (enc r) ∧
  ReadRecords (enc_all rs ++ enc r ++ rest) = (rs, length (enc_all rs)).
Proof.
  intros Hrs Hwf Hbig. split; [by apply encodeRecord_wf|].
  apply ReadRecords_enc_all; [done|]. pose proof Hwf as [Htx _].
  rewrite enc_wf, <-!app_assoc by done. unfold readOne.
  rewrite ReadFull_app by apply length_encodeHeader.
  destruct (header_fields r (payload_of r) Htx) as (_ & _ & ->); [lia|].
  by rewrite (proj2 (Z.ltb_lt _ _)) by lia.
Qed.

(** ** The byte log implements the record log *)
Record log_rep (w : WAL) (l : Log) : Prop := {
  lr_fits : Forall fits (l_recs l);
  lr_file : ∃ tail, w_file w = enc_all (l_recs l) ++ tail ∧ readOne tail = None ∧
              (l_stuck l = false → tail = []);
  lr_seq : w_Seq w = l_Seq l;
  lr_stuck : w_stuck w = l_stuck l }.

Lemma log_rep_whole rs q :
  Forall fits rs → log_rep (MkWAL (enc_all rs) q false) (MkLog rs q false).
Proof. intros. split; simpl; [done| |done..]. exists []. by rewrite app_nil_r. Qed.

Lemma encode_error_wf r : wf_record r → encode_error r = None.
Proof.
  intros [_ H]. destruct r as [ty tx tid rid rw [sc|]]; simpl in H.
  - by destruct H as (_ & _ & _ & [-> | ->]).
  - by destruct H as [(_ & _ & _ & [-> | ->])|(_ & _ & [->|[-> _]])].
Qed.

End wal.

(** ** A concrete codec

    The hypotheses on gob can be met: any countable type has a codec, and rows
    and schema changes are countable. *)
Module DemoGob.

Definition bytes_of_pos (p : positive) : list byte :=
  PutUintLE (Pos.to_nat (Pos.size p)) (Zpos p).
Definition pos_of_bytes (bs : list byte) : option positive :=
  match UintLE bs with Zpos p => Some p | _ => None end.

Lemma pos_of_bytes_of_pos p : pos_of_bytes (bytes_of_pos p) = Some p.
Proof.
  unfold pos_of_bytes, bytes_of_pos. rewrite UintLE_PutUintLE_id; [done|].
  split; [lia|]. rewrite positive_nat_Z.
  pose proof (Pos.size_gt p) as Hs. apply Pos2Z.pos_lt_pos in Hs.
  rewrite Pos2Z.inj_pow in Hs. eapply Z.lt_le_trans; [exact Hs|].
  apply Z.pow_le_mono_l. lia.
Qed.

Program Definition gob_countable {A} `{Countable A} : Gob A := {|
  gobEncode a := bytes_of_pos (encode a);
  gobDecode bs := pos_of_bytes bs ≫= decode |}.
Next Obligation. intros A ?? a. simpl. rewrite pos_of_bytes_of_pos. simpl. apply decode_encode. Qed.

Definition f64_code (f : f64) : bool + (bool + (unit + (bool * positive * Z))) :=
  match f with
  | S754_zero s => inl s
  | S754_infinity s => inr (inl s)
  | S754_nan => inr (inr (inl tt))
  | S754_finite s m e => inr (inr (inr (s, m, e)))
  end.
Definition f64_uncode (c : bool + (bool + (unit + (bool * positive * Z)))) : f64 :=
  match c with
  | inl s => S754_zero s
  | inr (inl s) => S754_infinity s
  | inr (inr (inl tt)) => S754_nan
  | inr (inr (inr (s, m, e))) => S754_finite s m e
  end.

#[local] Instance f64_countable : Countable f64.
Proof. apply (inj_countable' f64_code f64_uncode). by intros []. Defined.

Definition value_code (v : Value) : unit + (Z + (f64 + (string + (bool + Z)))) :=
  match v with
  | VNull => inl tt
  | VInt i => inr (inl i)
  | VFloat f => inr (inr (inl f))
  | VText s => inr (inr (inr (inl s)))
  | VBool b => inr (inr (inr (inr (inl b))))
  | VTime t => inr (inr (inr (inr (inr t))))
  end.
Definition value_uncode (c : unit + (Z + (f64 + (string + (bool + Z))))) : Value :=
  match c with
  | inl tt => VNull
  | inr (inl i) => VInt i
  | inr (inr (inl f)) => VFloat f
  | inr (inr (inr (inl s))) => VText s
  | inr (inr (inr (inr (inl b)))) => VBool b
  | inr (inr (inr (inr (inr t)))) => VTime t
  end.

#[local] Instance Value_countable : Countable Value.
Proof. apply (inj_countable' value_code value_uncode). by intros []. Defined.

#[local] Instance Column_countable : Countable Column.
Proof.
  apply (inj_countable'
    (λ c, (Name c, Type_ c, NotNull c, Primary c, AutoInc c, Unique c, FKTable c, FKCol c))
    (λ '(n, t, nn, pk, ai, u, ft, fc), MkColumn n t nn pk ai u ft fc)). by intros [].
Defined.

#[local] Instance SchemaChange_countable : Countable SchemaChange.
Proof.
  apply (inj_countable' (λ s, (sc_Create s, sc_Name s, sc_Cols s))
    (λ '(c, n, cs), MkSchemaChange c n cs)). by intros [].
Defined.

#[export] Instance row_gob : Gob row := gob_countable.
#[export] Instance sc_gob : Gob SchemaChange := gob_countable.

Definition demo_log : list WalRecord :=
  [mk_begin 1; mk_put 1 0 7 [VInt 7; VText "x"]; mk_commit 1].

Lemma demo_fits : Forall fits demo_log.
Proof.
  assert (∀ r, wf_record r → (Z.of_nat (length (payload_of r)) <=? maxPayload)%Z = true →
    fits r) as Hfit by (intros r Hw Hl; split; [done|by apply Z.leb_le]).
  unfold demo_log. rewrite !Forall_cons, Forall_nil.
  split_and!; [..|done]; (apply Hfit; [|by vm_compute]); split; simpl; try lia; auto 10.
  right. unfold in_int64, int64_min, int64_max. auto with lia.
Qed.


(** A read error in the middle of the first record, here in its checksum, is
    taken for a torn tail: opening reports no error, finds no record, and
    truncates the file, which held a whole log.  In a header the error is
    reported and the file is left alone. *)
Example read_error_truncates :
  let io p := MkWalOpenIo None (Some (p, ErrIO)) None in
  OpenWAL_io wal_open_fine (enc_all demo_log) =
    Ok (MkWAL (enc_all demo_log) (Z.of_nat (length demo_log)) false, demo_log) ∧
  OpenWAL_io (io 15) (enc_all demo_log) = Ok (MkWAL [] 0 false, []) ∧
  OpenWAL_io (io 10) (enc_all demo_log) = Err ErrIO.
Proof. vm_compute. repeat split. Qed.

Lemma ReadRecords_corrupt_byte_witness :
  ReadRecords (enc_all demo_log ++ <[0 := x09]> (enc (mk_commit 2)) ++ []) =
    (demo_log, length (enc_all demo_log)).
Proof.
  apply (ReadRecords_corrupt_byte demo_log (mk_commit 2) 0 x09 []).
  - apply demo_fits.
  - split; [|by vm_compute]. split; [simpl; lia|]. left. simpl. auto.
  - apply Nat.ltb_lt. by vm_compute.
  - lia.
  - by vm_compute.
Defined.


(** A codec whose encodings are long, for the bound on the payload. *)
Program Definition padded_gob : Gob row := {|
  gobEncode r := replicate (Z.to_nat maxPayload) x00 ++ gobEncode r;
  gobDecode bs := gobDecode (drop (Z.to_nat maxPayload) bs) |}.
Next Obligation.
  intros r. cbn beta. rewrite drop_app_length' by (by rewrite length_replicate).
  apply gob_roundtrip.
Qed.

Lemma length_padded r :
  Z.of_nat (length (@gobEncode _ padded_gob r)) =
    (maxPayload + Z.of_nat (length (@gobEncode _ row_gob r)))%Z.
Proof.
  unfold gobEncode at 1, padded_gob. rewrite length_app, length_replicate. unfold maxPayload. lia.
Qed.

#[local] Opaque padded_gob.

Lemma oversized_record_lost_witness :
  @encodeRecord padded_gob sc_gob (mk_put 1 0 7 []) =
    Ok (@enc padded_gob sc_gob (mk_put 1 0 7 [])) ∧
  @ReadRecords padded_gob sc_gob (@enc_all padded_gob sc_gob [] ++
    @enc padded_gob sc_gob (mk_put 1 0 7 []) ++ []) =
    ([], length (@enc_all padded_gob sc_gob [])).
Proof.
  apply (@oversized_record_lost padded_gob sc_gob [] (mk_put 1 0 7 []) []).
  - constructor.
  - split; [simpl; lia|]. right. unfold in_int64, int64_min, int64_max. simpl. auto with lia.
  - rewrite payload_mk_put, !length_app, !length_PutUintLE, !Nat2Z.inj_add, length_padded.
    assert (length (@gobEncode _ row_gob []) = 1) as -> by by vm_compute.
    unfold maxPayload. lia.
Defined.
End DemoGob.
