(* ===== verification/Table.v ===== *)
(** * In-memory tables and their UNIQUE indexes (storage/engine.go)

    A table holds rows by id and, for every UNIQUE column, a secondary index
    from the key of a value to the id of the row that holds it.  The file
    models the index maintenance ([setRowKeysLocked], [removeRowKeysLocked],
    [buildUniqLocked]) and proves that storing and erasing rows keep the index
    exact, and that rebuilding it from the rows, in any order, gives the same
    index. *)
From S2P Require Import Prelude GoStd Types Schema Wal.

(** ** Data *)
Record Table := MkTable {
  t_id : Z;
  t_name : string;
  t_cols : list Column;
  t_rows : gmap Z row;
  t_nextID : Z;
  t_uniq : gmap nat (gmap string Z) }.

Definition set_rows (rs : gmap Z row) (t : Table) : Table :=
  MkTable (t_id t) (t_name t) (t_cols t) rs (t_nextID t) (t_uniq t).
Definition set_nextID (n : Z) (t : Table) : Table :=
  MkTable (t_id t) (t_name t) (t_cols t) (t_rows t) n (t_uniq t).
Definition set_uniq (u : gmap nat (gmap string Z)) (t : Table) : Table :=
  MkTable (t_id t) (t_name t) (t_cols t) (t_rows t) (t_nextID t) u.

(** ** Operations *)

(** The indices of the UNIQUE columns. *)
Fixpoint uniqColsFrom (i : nat) (cols : list Column) : list nat :=
  match cols with
  | [] => []
  | c :: cols =>
      if Unique c then i :: uniqColsFrom (S i) cols else uniqColsFrom (S i) cols
  end.
Definition uniqCols (cols : list Column) : list nat := uniqColsFrom 0 cols.

Definition uniqKey (v : Value) : string :=
  match v with
  | VInt i => "i" +:+ FormatInt i
  | VFloat f => "f" +:+ FormatFloat f
  | VText s => "s" +:+ s
  | VBool b => if b then "b1" else "b0"
  | VTime t => "t" +:+ FormatRFC3339Nano t
  | VNull => "n"
  end.

(** The key a row contributes to the index of column [ci]; NULL contributes
    none.  Go would panic on a row shorter than the table, which the length
    checks of every writer rule out. *)
Definition key_at (r : row) (ci : nat) : option string :=
  match r !! ci with
  | Some v => if IsNull v then None else Some (uniqKey v)
  | None => None
  end.

Definition initUniq (t : Table) : Table :=
  set_uniq (list_to_map ((λ ci, (ci, ∅)) <$> uniqCols (t_cols t))) t.

(** [t.uniq[ci][uniqKey(v)] = rowID] *)
Definition index_set (ci : nat) (k : string) (id : Z) (u : gmap nat (gmap string Z)) :
    gmap nat (gmap string Z) := alter (λ m, <[k := id]> m) ci u.

(** [if cur, ok := t.uniq[ci][k]; ok && cur == rowID { delete(t.uniq[ci], k) }] *)
Definition index_remove (ci : nat) (k : string) (id : Z) (u : gmap nat (gmap string Z)) :
    gmap nat (gmap string Z) :=
  alter (λ m, if bool_decide (m !! k = Some id) then delete k m else m) ci u.

Definition setRowKeysLocked (id : Z) (r : row) (t : Table) : Table :=
  set_uniq (foldl (λ u ci, match key_at r ci with
                           | Some k => index_set ci k id u
                           | None => u
                           end) (t_uniq t) (uniqCols (t_cols t))) t.

Definition removeRowKeysLocked (id : Z) (r : row) (t : Table) : Table :=
  set_uniq (foldl (λ u ci, match key_at r ci with
                           | Some k => index_remove ci k id u
                           | None => u
                           end) (t_uniq t) (uniqCols (t_cols t))) t.

#[global] Arguments setRowKeysLocked : simpl never.
#[global] Arguments removeRowKeysLocked : simpl never.

(** The loop of [buildUniqLocked] with the row ids in the given order; Go
    ranges over the map in an unspecified one. *)
Definition indexRows (ids : list Z) (t : Table) : Table :=
  foldl (λ t id, match t_rows t !! id with
                 | Some r => setRowKeysLocked id r t
                 | None => t
                 end) t ids.

Definition buildUniqLocked (t : Table) : Table :=
  indexRows (sorted_keys (t_rows t)) (initUniq t).

(** Replace or add a row: un-index the old one, store, index the new one.
    The common tail of [put], [applyPut] and the replay of a put record. *)
Definition storeRow (id : Z) (r : row) (t : Table) : Table :=
  let t1 := match t_rows t !! id with
            | Some old => removeRowKeysLocked id old t
            | None => t
            end in
  setRowKeysLocked id r (set_rows (<[id := r]> (t_rows t1)) t1).

Definition eraseRow (id : Z) (t : Table) : Table :=
  match t_rows t !! id with
  | Some old =>
      let t1 := removeRowKeysLocked id old t in set_rows (delete id (t_rows t1)) t1
  | None => t
  end.

#[global] Arguments storeRow : simpl never.
#[global] Arguments eraseRow : simpl never.

(** ** Invariants *)

(** The index of every UNIQUE column points from exactly the keys present to
    the row that holds them. *)
Record index_ok (cols : list Column) (rows : gmap Z row)
    (u : gmap nat (gmap string Z)) : Prop := {
  ix_dom : ∀ ci, is_Some (u !! ci) ↔ ci ∈ uniqCols cols;
  ix_exact : ∀ ci m k id, u !! ci = Some m →
    m !! k = Some id ↔ ∃ r, rows !! id = Some r ∧ key_at r ci = Some k }.

(** No two rows share a key in a UNIQUE column. *)
Definition rows_unique (cols : list Column) (rows : gmap Z row) : Prop :=
  ∀ ci id1 id2 r1 r2 k, ci ∈ uniqCols cols →
    rows !! id1 = Some r1 → rows !! id2 = Some r2 →
    key_at r1 ci = Some k → key_at r2 ci = Some k → id1 = id2.

Definition rows_shaped (cols : list Column) (rows : gmap Z row) : Prop :=
  ∀ id r, rows !! id = Some r → length r = length cols.

Record table_ok (t : Table) : Prop := {
  tb_shape : rows_shaped (t_cols t) (t_rows t);
  tb_index : index_ok (t_cols t) (t_rows t) (t_uniq t) }.

(** No other row holds a key of [r]. *)
Definition no_conflict (cols : list Column) (rows : gmap Z row) (id : Z) (r : row) : Prop :=
  ∀ ci id' r' k, ci ∈ uniqCols cols → rows !! id' = Some r' →
    key_at r ci = Some k → key_at r' ci = Some k → id' = id.

(** ** UNIQUE columns *)
Lemma elem_of_uniqColsFrom i cols ci :
  ci ∈ uniqColsFrom i cols ↔
  i ≤ ci ∧ ∃ c, cols !! (ci - i) = Some c ∧ Unique c = true.
Proof.
  revert i. induction cols as [|c cols IH]; intros i; simpl.
  { split; [set_solver|]. intros (_ & c & Hc & _). by rewrite lookup_nil in Hc. }
  destruct (decide (ci = i)) as [->|Hne].
  - rewrite Nat.sub_diag. simpl. destruct (Unique c) eqn:E; rewrite ?elem_of_cons, IH.
    + naive_solver.
    + split; [lia|]. intros (_ & c' & [= <-] & ?). congruence.
  - assert (ci ∈ (if Unique c then i :: uniqColsFrom (S i) cols else uniqColsFrom (S i) cols)
      ↔ ci ∈ uniqColsFrom (S i) cols) as -> by (destruct (Unique c); set_solver).
    rewrite IH. split; intros [Hle (c' & Hc & Hu)]; (split; [lia|exists c'; split; [|done]]).
    + replace (ci - i) with (S (ci - S i)) by lia. done.
    + replace (ci - i) with (S (ci - S i)) in Hc by lia. done.
Qed.

Lemma elem_of_uniqCols cols ci :
  ci ∈ uniqCols cols ↔ ∃ c, cols !! ci = Some c ∧ Unique c = true.
Proof. unfold uniqCols. rewrite elem_of_uniqColsFrom, Nat.sub_0_r. naive_solver lia. Qed.

Lemma NoDup_uniqCols cols : NoDup (uniqCols cols).
Proof.
  unfold uniqCols. generalize 0. induction cols as [|c cols IH]; intros i; simpl; [constructor|].
  destruct (Unique c); [|done]. constructor; [|done]. rewrite elem_of_uniqColsFrom. lia.
Qed.

(** ** The index, one column at a time *)
Definition col_set (id : Z) (ok : option string) (m : gmap string Z) : gmap string Z :=
  match ok with Some k => <[k := id]> m | None => m end.
Definition col_remove (id : Z) (ok : option string) (m : gmap string Z) : gmap string Z :=
  match ok with
  | Some k => if bool_decide (m !! k = Some id) then delete k m else m
  | None => m
  end.

(** A fold that alters each listed column once is a pointwise update. *)
Lemma lookup_fold_alter (f : nat → gmap string Z → gmap string Z) l u ci :
  NoDup l →
  foldl (λ u ci, alter (f ci) ci u) u l !! ci =
    if decide (ci ∈ l) then f ci <$> (u !! ci) else (u : gmap nat (gmap string Z)) !! ci.
Proof.
  revert u. induction l as [|j l IH]; intros u Hnd; [done|].
  apply NoDup_cons in Hnd as [Hj Hnd]. simpl. rewrite IH by done.
  destruct (decide (ci = j)) as [->|Hne].
  - rewrite decide_False, decide_True, lookup_alter_eq by set_solver. done.
  - rewrite lookup_alter_ne by done. repeat case_decide; set_solver.
Qed.

Lemma foldl_ext {A B} (f g : A → B → A) a l :
  (∀ a b, b ∈ l → f a b = g a b) → foldl f a l = foldl g a l.
Proof.
  revert a. induction l as [|b l IH]; intros a H; [done|]. simpl.
  rewrite H by set_solver. apply IH. set_solver.
Qed.

Lemma alter_id_eq (u : gmap nat (gmap string Z)) ci : alter (λ m, m) ci u = u.
Proof. by apply alter_id. Qed.

Lemma lookup_setRowKeys id r t ci :
  ci ∈ uniqCols (t_cols t) →
  t_uniq (setRowKeysLocked id r t) !! ci = col_set id (key_at r ci) <$> t_uniq t !! ci.
Proof.
  intros Hci. unfold setRowKeysLocked. simpl.
  rewrite (foldl_ext _ (λ u ci, alter (col_set id (key_at r ci)) ci u)).
  - rewrite lookup_fold_alter by apply NoDup_uniqCols. by rewrite decide_True.
  - intros u j _. unfold col_set. destruct (key_at r j); [done|]. by rewrite alter_id_eq.
Qed.

Lemma lookup_removeRowKeys id r t ci :
  ci ∈ uniqCols (t_cols t) →
  t_uniq (removeRowKeysLocked id r t) !! ci = col_remove id (key_at r ci) <$> t_uniq t !! ci.
Proof.
  intros Hci. unfold removeRowKeysLocked. simpl.
  rewrite (foldl_ext _ (λ u ci, alter (col_remove id (key_at r ci)) ci u)).
  - rewrite lookup_fold_alter by apply NoDup_uniqCols. by rewrite decide_True.
  - intros u j _. unfold col_remove. destruct (key_at r j); [done|]. by rewrite alter_id_eq.
Qed.

Lemma lookup_setRowKeys_other id r t ci :
  ci ∉ uniqCols (t_cols t) → t_uniq (setRowKeysLocked id r t) !! ci = t_uniq t !! ci.
Proof.
  intros Hci. unfold setRowKeysLocked. simpl.
  rewrite (foldl_ext _ (λ u ci, alter (col_set id (key_at r ci)) ci u)).
  - rewrite lookup_fold_alter by apply NoDup_uniqCols. by rewrite decide_False.
  - intros u j _. unfold col_set. destruct (key_at r j); [done|]. by rewrite alter_id_eq.
Qed.

Lemma lookup_removeRowKeys_other id r t ci :
  ci ∉ uniqCols (t_cols t) → t_uniq (removeRowKeysLocked id r t) !! ci = t_uniq t !! ci.
Proof.
  intros Hci. unfold removeRowKeysLocked. simpl.
  rewrite (foldl_ext _ (λ u ci, alter (col_remove id (key_at r ci)) ci u)).
  - rewrite lookup_fold_alter by apply NoDup_uniqCols. by rewrite decide_False.
  - intros u j _. unfold col_remove. destruct (key_at r j); [done|]. by rewrite alter_id_eq.
Qed.

(** Every entry of a column's index points to a row with that key. *)
Definition col_sound (rows : gmap Z row) (ci : nat) (m : gmap string Z) : Prop :=
  ∀ k id, m !! k = Some id → ∃ r, rows !! id = Some r ∧ key_at r ci = Some k.

Definition index_sound (cols : list Column) (rows : gmap Z row)
    (u : gmap nat (gmap string Z)) : Prop :=
  (∀ ci, is_Some (u !! ci) ↔ ci ∈ uniqCols cols) ∧
  ∀ ci m, u !! ci = Some m → col_sound rows ci m.

Definition col_store (id : Z) (r : row) (rows : gmap Z row) (ci : nat) (m : gmap string Z) :=
  col_set id (key_at r ci)
    match rows !! id with Some old => col_remove id (key_at old ci) m | None => m end.
Definition col_erase (id : Z) (rows : gmap Z row) (ci : nat) (m : gmap string Z) :=
  match rows !! id with Some old => col_remove id (key_at old ci) m | None => m end.

Lemma lookup_col_erase id rows ci m k :
  col_sound rows ci m →
  col_erase id rows ci m !! k = if decide (m !! k = Some id) then None else m !! k.
Proof.
  intros Hs. unfold col_erase, col_remove.
  destruct (decide (m !! k = Some id)) as [Hk|Hk].
  - destruct (Hs _ _ Hk) as (r & Hr & Hkey). rewrite Hr, Hkey.
    rewrite bool_decide_eq_true_2 by done. apply lookup_delete_eq.
  - destruct (rows !! id) as [old|]; [|done]. destruct (key_at old ci) as [k'|]; [|done].
    case_bool_decide; [|done]. rewrite lookup_delete_ne by congruence. done.
Qed.

Lemma lookup_col_store id r rows ci m k :
  col_sound rows ci m →
  col_store id r rows ci m !! k =
    if decide (key_at r ci = Some k) then Some id
    else if decide (m !! k = Some id) then None else m !! k.
Proof.
  intros Hs. change (col_store id r rows ci m) with
    (col_set id (key_at r ci) (col_erase id rows ci m)). unfold col_set.
  case_decide as Hk.
  - rewrite Hk. apply lookup_insert_eq.
  - destruct (key_at r ci); [|by apply lookup_col_erase].
    rewrite lookup_insert_ne by congruence. by apply lookup_col_erase.
Qed.

Lemma uniq_set_rows rs t : t_uniq (set_rows rs t) = t_uniq t.
Proof. done. Qed.

Lemma storeRow_uniq id r t ci :
  ci ∈ uniqCols (t_cols t) →
  t_uniq (storeRow id r t) !! ci = col_store id r (t_rows t) ci <$> t_uniq t !! ci.
Proof.
  intros Hci. unfold storeRow, col_store. cbn zeta.
  rewrite lookup_setRowKeys by (by destruct (t_rows t !! id)).
  rewrite uniq_set_rows. destruct (t_rows t !! id); [|done].
  rewrite lookup_removeRowKeys by done. by rewrite <-option_fmap_compose.
Qed.

Lemma eraseRow_uniq id t ci :
  ci ∈ uniqCols (t_cols t) →
  t_uniq (eraseRow id t) !! ci = col_erase id (t_rows t) ci <$> t_uniq t !! ci.
Proof.
  intros Hci. unfold eraseRow, col_erase. cbn zeta. destruct (t_rows t !! id).
  - by rewrite uniq_set_rows, lookup_removeRowKeys.
  - by rewrite option_fmap_id.
Qed.

Lemma storeRow_uniq_other id r t ci :
  ci ∉ uniqCols (t_cols t) → t_uniq (storeRow id r t) !! ci = t_uniq t !! ci.
Proof.
  intros Hci. unfold storeRow. cbn zeta.
  rewrite lookup_setRowKeys_other by (by destruct (t_rows t !! id)).
  rewrite uniq_set_rows. destruct (t_rows t !! id); [|done]. by rewrite lookup_removeRowKeys_other.
Qed.

Lemma eraseRow_uniq_other id t ci :
  ci ∉ uniqCols (t_cols t) → t_uniq (eraseRow id t) !! ci = t_uniq t !! ci.
Proof.
  intros Hci. unfold eraseRow. cbn zeta. destruct (t_rows t !! id); [|done].
  by rewrite uniq_set_rows, lookup_removeRowKeys_other.
Qed.

(** What [storeRow] and [eraseRow] leave alone. *)
Lemma storeRow_rows id r t : t_rows (storeRow id r t) = <[id := r]> (t_rows t).
Proof. unfold storeRow. by destruct (t_rows t !! id). Qed.
Lemma storeRow_frame id r t :
  t_id (storeRow id r t) = t_id t ∧ t_name (storeRow id r t) = t_name t ∧
  t_cols (storeRow id r t) = t_cols t ∧ t_nextID (storeRow id r t) = t_nextID t.
Proof. unfold storeRow. by destruct (t_rows t !! id). Qed.
Lemma eraseRow_rows id t : t_rows (eraseRow id t) = delete id (t_rows t).
Proof.
  unfold eraseRow. destruct (t_rows t !! id) eqn:E; [done|]. by rewrite delete_id.
Qed.
Lemma eraseRow_frame id t :
  t_id (eraseRow id t) = t_id t ∧ t_name (eraseRow id t) = t_name t ∧
  t_cols (eraseRow id t) = t_cols t ∧ t_nextID (eraseRow id t) = t_nextID t.
Proof. unfold eraseRow. by destruct (t_rows t !! id). Qed.

Lemma storeRow_cols id r t : t_cols (storeRow id r t) = t_cols t.
Proof. apply storeRow_frame. Qed.
Lemma eraseRow_cols id t : t_cols (eraseRow id t) = t_cols t.
Proof. apply eraseRow_frame. Qed.

#[export] Hint Rewrite storeRow_rows storeRow_cols eraseRow_rows eraseRow_cols : tsql.

(** ** Soundness of the index is kept whatever is stored *)
Lemma storeRow_dom id r t ci :
  is_Some (t_uniq (storeRow id r t) !! ci) ↔ is_Some (t_uniq t !! ci).
Proof.
  destruct (decide (ci ∈ uniqCols (t_cols t))).
  - rewrite storeRow_uniq by done. apply fmap_is_Some.
  - by rewrite storeRow_uniq_other.
Qed.
Lemma eraseRow_dom id t ci :
  is_Some (t_uniq (eraseRow id t) !! ci) ↔ is_Some (t_uniq t !! ci).
Proof.
  destruct (decide (ci ∈ uniqCols (t_cols t))).
  - rewrite eraseRow_uniq by done. apply fmap_is_Some.
  - by rewrite eraseRow_uniq_other.
Qed.

Lemma storeRow_sound id r t :
  index_sound (t_cols t) (t_rows t) (t_uniq t) →
  index_sound (t_cols t) (<[id := r]> (t_rows t)) (t_uniq (storeRow id r t)).
Proof.
  intros [Hdom Hs]. split; [intros ci; by rewrite storeRow_dom|].
  intros ci m' Hm'. assert (ci ∈ uniqCols (t_cols t)) as Hci.
  { apply Hdom, (storeRow_dom id r). eauto. }
  rewrite storeRow_uniq in Hm' by done. apply fmap_Some in Hm' as (m & Hm & ->).
  intros k id'. rewrite lookup_col_store by eauto. case_decide as Hk.
  - intros [= <-]. exists r. by rewrite lookup_insert_eq.
  - case_decide as Hid; [done|]. intros Hk'. destruct (Hs _ _ Hm _ _ Hk') as (r' & Hr' & Hkey).
    exists r'. rewrite lookup_insert_ne by congruence. done.
Qed.

Lemma eraseRow_sound id t :
  index_sound (t_cols t) (t_rows t) (t_uniq t) →
  index_sound (t_cols t) (delete id (t_rows t)) (t_uniq (eraseRow id t)).
Proof.
  intros [Hdom Hs]. split; [intros ci; by rewrite eraseRow_dom|].
  intros ci m' Hm'. assert (ci ∈ uniqCols (t_cols t)) as Hci.
  { apply Hdom, (eraseRow_dom id). eauto. }
  rewrite eraseRow_uniq in Hm' by done. apply fmap_Some in Hm' as (m & Hm & ->).
  intros k id'. rewrite lookup_col_erase by eauto. case_decide as Hid; [done|].
  intros Hk'. destruct (Hs _ _ Hm _ _ Hk') as (r' & Hr' & Hkey).
  exists r'. rewrite lookup_delete_ne by congruence. done.
Qed.

Lemma index_ok_sound cols rows u : index_ok cols rows u → index_sound cols rows u.
Proof. intros [Hd He]. split; [done|]. intros ci m Hm k id. by apply He. Qed.

Lemma index_ok_unique_rows cols rows u : index_ok cols rows u → rows_unique cols rows.
Proof.
  intros [Hd He] ci id1 id2 r1 r2 k Hci H1 H2 Hk1 Hk2.
  apply Hd in Hci as [m Hm].
  assert (m !! k = Some id1) by (eapply He; eauto).
  assert (m !! k = Some id2) by (eapply He; eauto). congruence.
Qed.

(** An exact index is determined by the rows. *)
Lemma index_ok_functional cols rows u u' :
  index_ok cols rows u → index_ok cols rows u' → u = u'.
Proof.
  intros [Hd He] [Hd' He']. apply map_eq. intros ci.
  destruct (u !! ci) as [m|] eqn:Em, (u' !! ci) as [m'|] eqn:Em'.
  - f_equal. apply map_eq. intros k. apply option_eq. intros id.
    rewrite (He _ _ _ _ Em), (He' _ _ _ _ Em'). done.
  - assert (is_Some (u' !! ci)) as [? ?] by (apply Hd', Hd; eauto). congruence.
  - assert (is_Some (u !! ci)) as [? ?] by (apply Hd, Hd'; eauto). congruence.
  - done.
Qed.

(** ** Exactness is kept when no key is taken twice *)
Lemma storeRow_index_ok id r t :
  index_ok (t_cols t) (t_rows t) (t_uniq t) →
  no_conflict (t_cols t) (t_rows t) id r →
  index_ok (t_cols t) (<[id := r]> (t_rows t)) (t_uniq (storeRow id r t)).
Proof.
  intros Hok Hnc. destruct (storeRow_sound id r t (index_ok_sound _ _ _ Hok)) as [Hd Hs].
  split; [done|]. intros ci m' k id' Hm'. split; [by apply Hs|].
  intros (r' & Hr' & Hk'). assert (ci ∈ uniqCols (t_cols t)) as Hci by (apply Hd; eauto).
  rewrite storeRow_uniq in Hm' by done. apply fmap_Some in Hm' as (m & Hm & ->).
  destruct Hok as [Hd0 He].
  rewrite lookup_col_store by (intros ??; by apply He).
  destruct (decide (id' = id)) as [->|Hne].
  - rewrite lookup_insert_eq in Hr'. simplify_eq. by rewrite decide_True.
  - rewrite lookup_insert_ne in Hr' by done.
    rewrite decide_False by (intros Hk; apply Hne; eauto).
    assert (m !! k = Some id') as -> by (eapply He; eauto).
    by rewrite decide_False by congruence.
Qed.

Lemma eraseRow_index_ok id t :
  index_ok (t_cols t) (t_rows t) (t_uniq t) →
  index_ok (t_cols t) (delete id (t_rows t)) (t_uniq (eraseRow id t)).
Proof.
  intros Hok. destruct (eraseRow_sound id t (index_ok_sound _ _ _ Hok)) as [Hd Hs].
  split; [done|]. intros ci m' k id' Hm'. split; [by apply Hs|].
  intros (r' & [Hne Hr']%lookup_delete_Some & Hk').
  assert (ci ∈ uniqCols (t_cols t)) as Hci by (apply Hd; eauto).
  rewrite eraseRow_uniq in Hm' by done. apply fmap_Some in Hm' as (m & Hm & ->).
  destruct Hok as [Hd0 He].
  rewrite lookup_col_erase by (intros ??; by apply He).
  assert (m !! k = Some id') as -> by (eapply He; eauto).
  by rewrite decide_False by congruence.
Qed.

Lemma storeRow_ok id r t :
  table_ok t → length r = length (t_cols t) → no_conflict (t_cols t) (t_rows t) id r →
  table_ok (storeRow id r t).
Proof.
  intros [Hsh Hix] Hl Hnc. split; autorewrite with tsql; [|by apply storeRow_index_ok].
  intros id' r'. rewrite lookup_insert_Some. naive_solver.
Qed.

Lemma eraseRow_ok id t : table_ok t → table_ok (eraseRow id t).
Proof.
  intros [Hsh Hix]. split; autorewrite with tsql; [|by apply eraseRow_index_ok].
  intros id' r' [_ ?]%lookup_delete_Some. eauto.
Qed.

(** The fresh index is exact for a table without rows. *)
Lemma initUniq_lookup t ci :
  t_uniq (initUniq t) !! ci =
    if decide (ci ∈ uniqCols (t_cols t)) then Some ∅ else None.
Proof.
  unfold initUniq. simpl. case_decide as Hci.
  - apply elem_of_list_to_map_1.
    + rewrite <-list_fmap_compose. simpl. rewrite list_fmap_id. apply NoDup_uniqCols.
    + apply list_elem_of_fmap. eauto.
  - apply not_elem_of_list_to_map_1. rewrite <-list_fmap_compose. simpl.
    by rewrite list_fmap_id.
Qed.

(** The index covers exactly the rows with an id in [S]. *)
Definition index_covers (S : gset Z) (t : Table) : Prop :=
  (∀ ci, is_Some (t_uniq t !! ci) ↔ ci ∈ uniqCols (t_cols t)) ∧
  ∀ ci m k id, t_uniq t !! ci = Some m →
    m !! k = Some id ↔ ∃ r, t_rows t !! id = Some r ∧ id ∈ S ∧ key_at r ci = Some k.

Lemma setRowKeys_covers S id r t :
  rows_unique (t_cols t) (t_rows t) → t_rows t !! id = Some r → index_covers S t →
  index_covers ({[id]} ∪ S) (setRowKeysLocked id r t).
Proof.
  intros Hu Hr [Hd He].
  assert (∀ ci, is_Some (t_uniq (setRowKeysLocked id r t) !! ci) ↔ is_Some (t_uniq t !! ci)) as Hd'.
  { intros ci. destruct (decide (ci ∈ uniqCols (t_cols t))).
    - rewrite lookup_setRowKeys by done. apply fmap_is_Some.
    - by rewrite lookup_setRowKeys_other. }
  split; [intros ci; by rewrite Hd'|]. intros ci m' k id' Hm'.
  assert (ci ∈ uniqCols (t_cols t)) as Hci by (apply Hd, Hd'; eauto).
  rewrite lookup_setRowKeys in Hm' by done. apply fmap_Some in Hm' as (m & Hm & ->).
  change (t_rows (setRowKeysLocked id r t)) with (t_rows t). unfold col_set.
  destruct (key_at r ci) as [k0|] eqn:Ek0.
  - destruct (decide (k0 = k)) as [->|Hk].
    + rewrite lookup_insert_eq. split; [intros [= <-]; exists r; set_solver|].
      intros (r' & Hr' & _ & Hk'). f_equal. by eapply Hu.
    + rewrite lookup_insert_ne, (He _ _ _ _ Hm) by done. split; [set_solver|].
      intros (r' & Hr' & Hin & Hk'). exists r'. split; [done|]. split; [|done].
      assert (id' ≠ id) by congruence. set_solver.
  - rewrite (He _ _ _ _ Hm). split; [set_solver|].
    intros (r' & Hr' & Hin & Hk'). exists r'. split; [done|]. split; [|done].
    assert (id' ≠ id) by congruence. set_solver.
Qed.

Lemma indexRows_frame ids t :
  t_rows (indexRows ids t) = t_rows t ∧ t_cols (indexRows ids t) = t_cols t ∧
  t_id (indexRows ids t) = t_id t ∧ t_name (indexRows ids t) = t_name t ∧
  t_nextID (indexRows ids t) = t_nextID t.
Proof.
  unfold indexRows. revert t. induction ids as [|id ids IH]; intros t; [done|]. simpl.
  destruct (IH match t_rows t !! id with
               | Some r => setRowKeysLocked id r t
               | None => t
               end) as (-> & -> & -> & -> & ->).
  by destruct (t_rows t !! id).
Qed.

Lemma indexRows_covers ids S t :
  rows_unique (t_cols t) (t_rows t) → index_covers S t →
  index_covers (list_to_set ids ∪ S) (indexRows ids t).
Proof.
  revert S t. induction ids as [|id ids IH]; intros S t Hu Hc; simpl.
  { by rewrite union_empty_l_L. }
  destruct (t_rows t !! id) as [r|] eqn:Er.
  - replace ({[id]} ∪ list_to_set ids ∪ S) with (list_to_set ids ∪ ({[id]} ∪ S)) by set_solver.
    apply IH; [done|]. by apply setRowKeys_covers.
  - replace ({[id]} ∪ list_to_set ids ∪ S) with (list_to_set ids ∪ ({[id]} ∪ S)) by set_solver.
    apply IH; [done|]. destruct Hc as [Hd He]. split; [done|].
    intros ci m k id' Hm. rewrite (He _ _ _ _ Hm). split; [set_solver|].
    intros (r & Hr & Hin & Hk). exists r. split; [done|]. split; [|done].
    assert (id' ≠ id) by congruence. set_solver.
Qed.

Lemma buildUniq_any_order ids t :
  rows_unique (t_cols t) (t_rows t) → (∀ id, is_Some (t_rows t !! id) → id ∈ ids) →
  index_ok (t_cols t) (t_rows t) (t_uniq (indexRows ids (initUniq t))).
Proof.
  intros Hu Hids.
  destruct (indexRows_covers ids ∅ (initUniq t) Hu) as [Hd He].
  { split.
    - intros ci. rewrite initUniq_lookup. change (t_cols (initUniq t)) with (t_cols t).
      case_decide; [naive_solver|]. split; [by intros [? ?]|done].
    - intros ci m k id. rewrite initUniq_lookup. case_decide; [|done]. intros [= <-].
      rewrite lookup_empty. split; [done|]. set_solver. }
  destruct (indexRows_frame ids (initUniq t)) as (Hr & Hc & _).
  rewrite Hr, Hc in *. split; [done|]. intros ci m k id Hm. rewrite (He _ _ _ _ Hm).
  split; [naive_solver|]. intros (r & Hr' & Hk). exists r. split; [done|]. split; [|done].
  rewrite elem_of_union, elem_of_list_to_set. left. eauto.
Qed.

Lemma buildUniq_index_ok t :
  rows_unique (t_cols t) (t_rows t) →
  index_ok (t_cols t) (t_rows t) (t_uniq (buildUniqLocked t)).
Proof.
  intros Hu. apply buildUniq_any_order; [done|]. intros id. by rewrite elem_of_sorted_keys.
Qed.

Lemma buildUniq_id t : table_ok t → buildUniqLocked t = t.
Proof.
  intros [Hsh Hix]. pose proof (index_ok_unique_rows _ _ _ Hix) as Hu.
  assert (t_uniq (buildUniqLocked t) = t_uniq t) as Heq
    by (eapply index_ok_functional, Hix; by apply buildUniq_index_ok).
  revert Heq. unfold buildUniqLocked.
  destruct (indexRows_frame (sorted_keys (t_rows t)) (initUniq t)) as (H1 & H2 & H3 & H4 & H5).
  destruct (indexRows _ _), t; simpl in *. congruence.
Qed.

(** The index that is maintained row by row is the one a rebuild from the
    rows gives, in whatever order the rows are visited: loading a table from a
    snapshot restores its UNIQUE indexes exactly. *)
Theorem index_rebuild (t : Table) (ids : list Z) :
  table_ok t → (∀ id, is_Some (t_rows t !! id) → id ∈ ids) →
  t_uniq (indexRows ids (initUniq t)) = t_uniq t ∧ buildUniqLocked t = t.
Proof.
  intros Hok Hids. split; [|by apply buildUniq_id]. destruct Hok as [Hsh Hix].
  eapply index_ok_functional, Hix. apply buildUniq_any_order; [|done].
  by eapply index_ok_unique_rows.
Qed.

Definition demo_cols : list Column :=
  [MkColumn "id" TypeInt false true true false "" "";
   MkColumn "email" TypeText false false false true "" ""].

Definition demo_table : Table :=
  storeRow 2 [VInt 2; VText "b"] (storeRow 1 [VInt 1; VText "a"]
    (initUniq (MkTable 0 "users" demo_cols ∅ 3 ∅))).

Lemma empty_table_ok i n cols k : table_ok (initUniq (MkTable i n cols ∅ k ∅)).
Proof.
  split; [intros id r; simpl; intros H; by rewrite lookup_empty in H|]. split; simpl.
  - intros ci. pose proof (initUniq_lookup (MkTable i n cols ∅ k ∅) ci) as H.
    simpl in H. rewrite H. case_decide; [naive_solver|]. split; [by intros [? ?]|done].
  - intros ci m k' id. pose proof (initUniq_lookup (MkTable i n cols ∅ k ∅) ci) as H.
    simpl in H. rewrite H. case_decide; [|done]. intros [= <-].
    rewrite lookup_empty. split; [done|]. intros (r & Hr & _). by rewrite lookup_empty in Hr.
Qed.

(** A decidable form of [no_conflict]. *)
Lemma no_conflict_index cols rows u id r :
  index_ok cols rows u →
  Forall (λ ci, match key_at r ci, u !! ci with
                | Some k, Some m => m !! k = None ∨ m !! k = Some id
                | _, _ => True
                end) (uniqCols cols) →
  no_conflict cols rows id r.
Proof.
  intros [Hd He] Hf ci id' r' k Hci Hr' Hk Hk'. rewrite Forall_forall in Hf.
  specialize (Hf _ Hci). apply Hd in Hci as [m Hm]. rewrite Hk, Hm in Hf.
  assert (m !! k = Some id') by (eapply He; eauto). destruct Hf; congruence.
Qed.

Lemma demo_table_ok : table_ok demo_table.
Proof.
  unfold demo_table.
  assert (table_ok (storeRow 1 [VInt 1; VText "a"]
    (initUniq (MkTable 0 "users" demo_cols ∅ 3 ∅)))) as H1.
  { apply storeRow_ok; [apply empty_table_ok|done|]. intros ??????. set_solver. }
  apply storeRow_ok; [done|done|].
  eapply no_conflict_index; [apply H1|].
  apply Forall_forall. intros ci Hci. vm_compute in Hci.
  apply elem_of_cons in Hci as [->|Hci]; [vm_compute; auto|by apply not_elem_of_nil in Hci].
Qed.

Lemma index_rebuild_witness :
  t_uniq (indexRows [2; 1; 5]%Z (initUniq demo_table)) = t_uniq demo_table.
Proof.
  apply (index_rebuild demo_table [2; 1; 5]%Z); [apply demo_table_ok|].
  intros id [r Hr]. unfold demo_table in Hr. rewrite !storeRow_rows in Hr.
  apply lookup_insert_Some in Hr as [[<- _]|[_ Hr]]; [set_solver|].
  apply lookup_insert_Some in Hr as [[<- _]|[_ Hr]]; [set_solver|].
  simpl in Hr. by rewrite lookup_empty in Hr.
Defined.

(** ** Keys tell values apart *)
Definition exact_key_kind (v : Value) : Prop :=
  kind v = KindInt ∨ kind v = KindText ∨ kind v = KindBool.

Lemma uniqKey_kind v w : uniqKey v = uniqKey w → kind v = kind w.
Proof.
  destruct v as [| | | |[]|], w as [| | | |[]|]; unfold uniqKey; intros H; try done;
    inversion H.
Qed.

Lemma uniqKey_inj v w : exact_key_kind v → uniqKey v = uniqKey w → v = w.
Proof.
  intros Hv H. pose proof (uniqKey_kind _ _ H) as Hk. unfold exact_key_kind in Hv.
  destruct v as [|i|f|s|[]|t], w as [|i'|f'|s'|[]|t']; try done;
    try (by destruct_or! Hv); unfold uniqKey in H; inversion H as [H']; try done.
  - f_equal. by apply (inj FormatInt).
  - by f_equal.
Qed.

(** In a table whose invariant holds, a UNIQUE column never holds the same
    value in two rows; NULL is exempt. *)
Theorem unique_column_values (t : Table) (ci : nat) (id1 id2 : Z) (r1 r2 : row) (v : Value) :
  table_ok t → ci ∈ uniqCols (t_cols t) → v ≠ VNull →
  t_rows t !! id1 = Some r1 → t_rows t !! id2 = Some r2 →
  r1 !! ci = Some v → r2 !! ci = Some v → id1 = id2.
Proof.
  intros [_ Hix] Hci Hv H1 H2 Hv1 Hv2.
  assert (∀ r, r !! ci = Some v → key_at r ci = Some (uniqKey v)) as Hkey.
  { intros r Hr. unfold key_at. rewrite Hr. by destruct v. }
  eapply (index_ok_unique_rows _ _ _ Hix); eauto.
Qed.

Lemma unique_column_values_witness :
  table_ok demo_table ∧ (2 = 2)%Z.
Proof.
  split; [apply demo_table_ok|].
  apply (unique_column_values demo_table 1 2 2 [VInt 2; VText "b"] [VInt 2; VText "b"]
           (VText "b")); [apply demo_table_ok| |done|done|done|done|done].
  apply elem_of_uniqCols. eexists; split; done.
Defined.
