(* ===== verification/Engine.v ===== *)
(** * The storage engine (storage/engine.go, storage/snapshot.go)

    The catalogue of tables, the autocommit write path through the log, the
    reads, checkpoints (snapshot, manifest, log truncation, pruning) and
    recovery ([Open]).  The log is the abstract [Log] that the bytes of the WAL
    file refine (Wal.v).

    Every call that reaches the operating system takes its outcome from the
    list [e_io] (an exhausted list means success), so theorems quantify over
    all patterns of failures; [Open] has the outcomes of its calls in a record
    of its own ([open_io]). *)
From S2P Require Import Prelude GoStd Types Schema Wal Table.

(** ** Data *)

(** The fields guarded by [catalogMu].  [tables] and [byID] share the table
    objects: [c_byID] holds the key under which [c_tables] keeps the table, so
    an update through either is seen through both. *)
Record Cat := MkCat {
  c_tables : gmap string Table;
  c_byID : gmap Z string;
  c_nextTableID : Z }.

Record snapshotTable := MkSnapTable {
  st_ID : Z; st_Name : string; st_Cols : list Column; st_Rows : gmap Z row;
  st_NextID : Z }.

Record snapshotData := MkSnapshot {
  sd_Seq : Z; sd_Tables : gmap string snapshotTable }.

(** The files beside the log: [snapshot-<seq>.bin] by sequence number, the
    snapshot the manifest names, and the convenience copy of the catalogue. *)
Record Disk := MkDisk {
  d_snaps : gmap Z snapshotData; d_manifest : option Z; d_meta : list TableDef }.

Record Engine := MkEngine {
  e_cat : Cat;
  e_wal : Log;
  e_disk : Disk;
  e_txSeq : Z;
  e_sinceCheckpoint : Z;
  e_checkpointing : bool;
  e_io : list io }.

Definition e_tables (e : Engine) : gmap string Table := c_tables (e_cat e).

Definition set_cat (c : Cat) (e : Engine) : Engine :=
  MkEngine c (e_wal e) (e_disk e) (e_txSeq e) (e_sinceCheckpoint e) (e_checkpointing e) (e_io e).
Definition set_wal (l : Log) (e : Engine) : Engine :=
  MkEngine (e_cat e) l (e_disk e) (e_txSeq e) (e_sinceCheckpoint e) (e_checkpointing e) (e_io e).
Definition set_disk (d : Disk) (e : Engine) : Engine :=
  MkEngine (e_cat e) (e_wal e) d (e_txSeq e) (e_sinceCheckpoint e) (e_checkpointing e) (e_io e).
Definition set_txSeq (n : Z) (e : Engine) : Engine :=
  MkEngine (e_cat e) (e_wal e) (e_disk e) n (e_sinceCheckpoint e) (e_checkpointing e) (e_io e).
Definition set_since (n : Z) (e : Engine) : Engine :=
  MkEngine (e_cat e) (e_wal e) (e_disk e) (e_txSeq e) n (e_checkpointing e) (e_io e).
Definition set_checkpointing (b : bool) (e : Engine) : Engine :=
  MkEngine (e_cat e) (e_wal e) (e_disk e) (e_txSeq e) (e_sinceCheckpoint e) b (e_io e).
Definition set_io (l : list io) (e : Engine) : Engine :=
  MkEngine (e_cat e) (e_wal e) (e_disk e) (e_txSeq e) (e_sinceCheckpoint e) (e_checkpointing e) l.

Definition autoCheckpointEvery : Z := 10000.

(** Update of the table object stored under a name. *)
Definition cat_upd (name : string) (f : Table → Table) (c : Cat) : Cat :=
  MkCat (alter f name (c_tables c)) (c_byID c) (c_nextTableID c).
Definition upd_table (name : string) (f : Table → Table) (e : Engine) : Engine :=
  set_cat (cat_upd name f (e_cat e)) e.

(** ** The log *)
Definition next_io (e : Engine) : io := match e_io e with o :: _ => o | [] => IoOk end.
Definition pop_io (e : Engine) : Engine := set_io (tail (e_io e)) e.

(** [e.wal.Append] *)
Definition walAppend (r : WalRecord) (durable : bool) : GoM Engine unit := λ e,
  let '(l, q) := log_append (next_io e) r durable (e_wal e) in
  (set_wal l (pop_io e), (λ _, tt) <$> q).

Open Scope go_scope.

Definition txn (fn : Z → GoM Engine unit) : GoM Engine unit := λ e,
  let tx := wrapu64 (e_txSeq e + 1) in
  (walAppend (mk_begin tx) false ;;;
   fn tx ;;;
   walAppend (mk_commit tx) true) (set_txSeq tx e).

(** ** The catalogue *)
Definition addTableLocked (name : string) (cols : list Column) (c : Cat) : Cat :=
  let t := initUniq (MkTable (c_nextTableID c) name cols ∅ 1 ∅) in
  MkCat (<[name := t]> (c_tables c)) (<[t_id t := name]> (c_byID c))
        (wrapu32 (c_nextTableID c + 1)).

(** [delete(e.tables, t.name); delete(e.byID, t.id)] *)
Definition removeTableLocked (t : Table) (c : Cat) : Cat :=
  MkCat (delete (t_name t) (c_tables c)) (delete (t_id t) (c_byID c)) (c_nextTableID c).

Definition table_def (t : Table) : TableDef := MkTableDef (t_name t) (t_cols t).
Definition def_le (d1 d2 : TableDef) : Prop := str_le (td_Name d1) (td_Name d2).
#[global] Instance def_le_dec : RelDecision def_le := λ d1 d2, str_le_dec _ _.

Definition catalogLocked (c : Cat) : list TableDef :=
  merge_sort def_le (table_def <$> (map_to_list (c_tables c)).*2).

Definition writeMetaLocked (e : Engine) : Engine :=
  set_disk (MkDisk (d_snaps (e_disk e)) (d_manifest (e_disk e)) (catalogLocked (e_cat e))) e.

Definition CreateTable (name : string) (cols : list Column) : GoM Engine unit := λ e,
  match Validate (MkTableDef name cols) with
  | Err err => (e, Err err)
  | Ok td =>
      match e_tables e !! name with
      | Some _ => (e, Err ErrExists)
      | None =>
          (txn (λ tx, walAppend (mk_create tx (MkSchemaChange true name (td_Cols td))) false) ;;;
           gmodify (λ e, set_cat (addTableLocked name (td_Cols td) (e_cat e)) e) ;;;
           gmodify writeMetaLocked) e
      end
  end.

Definition DropTable (name : string) : GoM Engine unit := λ e,
  match e_tables e !! name with
  | None => (e, Err ErrNoTable)
  | Some t =>
      (txn (λ tx, walAppend (mk_drop tx (MkSchemaChange false name [])) false) ;;;
       gmodify (λ e, set_cat (removeTableLocked t (e_cat e)) e) ;;;
       gmodify writeMetaLocked) e
  end.

(** ** Writes *)

(** A background checkpoint that has been started and has not run yet is the
    flag [checkpointing]. *)
Definition noteWrite : GoM Engine unit := gmodify (λ e,
  let n := wrap64 (e_sinceCheckpoint e + 1) in
  if bool_decide (autoCheckpointEvery ≤ n)%Z then
    let e1 := set_since 0 e in
    if e_checkpointing e then e1 else set_checkpointing true e1
  else set_since n e).

(** [if id >= t.nextID { t.nextID = id + 1 }] *)
Definition bumpNextID (id : Z) (t : Table) : Table :=
  if bool_decide (t_nextID t ≤ id)%Z then set_nextID (wrap64 (id + 1)) t else t.

(** The id a write goes to, and the table after the id was reserved. *)
Definition reserveID (rowID : Z) (mustExist : bool) (t : Table) : res (Z * Table) :=
  let ex := bool_decide (rowID ≠ 0)%Z && bool_decide (is_Some (t_rows t !! rowID)) in
  let bump (ex : bool) (id : Z) (t : Table) := if ex then t else bumpNextID id t in
  if bool_decide (rowID = 0)%Z then
    Ok (t_nextID t, bump false (t_nextID t) (set_nextID (wrap64 (t_nextID t + 1)) t))
  else if ex && negb mustExist then Err ErrExists
  else if negb ex && mustExist then Err ErrNoRow
  else Ok (rowID, bump ex rowID t).

(** [if pkIdx >= 0 && pkIdx < len(row) { row[pkIdx] = types.Int(rowID) }] *)
Definition stamp (pkIdx rowID : Z) (r : row) : row :=
  if bool_decide (0 ≤ pkIdx < Z.of_nat (length r))%Z
  then <[Z.to_nat pkIdx := VInt rowID]> r else r.

(** The UNIQUE check of [put], through the index. *)
Definition uniqueConflict (rowID : Z) (r : row) (t : Table) (ci : nat) : bool :=
  match key_at r ci with
  | None => false
  | Some k =>
      match t_uniq t !! ci ≫= (λ m : gmap string Z, m !! k) with
      | Some old => bool_decide (old ≠ rowID)
      | None => false
      end
  end.

Definition put (name : string) (pkIdx rowID : Z) (r : row) (mustExist : bool) :
    GoM Engine Z := λ e,
  if bool_decide (rowID < 0)%Z then
    (e, Err (Errorf "tsql: row id must be >= 0 (0 = auto)" []))
  else if mustExist && bool_decide (rowID = 0)%Z then
    (e, Err (Errorf "tsql: update requires an explicit row id" []))
  else
    match e_tables e !! name with
    | None => (e, Err ErrNoTable)
    | Some t =>
        if bool_decide (length r ≠ length (t_cols t)) then
          (e, Err (Errorf "tsql: row has %d values, table %s has %d columns"
                     [AInt (Z.of_nat (length r)); AStr name; AInt (Z.of_nat (length (t_cols t)))]))
        else
          match reserveID rowID mustExist t with
          | Err err => (e, Err err)
          | Ok (id, t1) =>
              let r1 := stamp pkIdx id r in
              let e1 := upd_table name (λ _, t1) e in
              if existsb (uniqueConflict id r1 t1) (uniqCols (t_cols t1)) then (e1, Err ErrUnique)
              else
                (txn (λ tx, walAppend (mk_put tx (t_id t1) id r1) false) ;;;
                 gmodify (upd_table name (storeRow id r1)) ;;;
                 noteWrite ;;;
                 gret id) e1
          end
    end.

Definition Put (name : string) (rowID : Z) (r : row) : GoM Engine Z :=
  put name (-1) rowID r false.
Definition PutAuto (name : string) (pkIdx : Z) (r : row) : GoM Engine Z :=
  put name pkIdx 0 r false.
Definition Update (name : string) (rowID : Z) (r : row) : GoM Engine unit :=
  put name (-1) rowID r true ;;; gret tt.

Definition Delete (name : string) (rowID : Z) : GoM Engine unit := λ e,
  match e_tables e !! name with
  | None => (e, Err ErrNoTable)
  | Some t =>
      match t_rows t !! rowID with
      | None => (e, Err ErrNoRow)
      | Some _ =>
          (txn (λ tx, walAppend (mk_delete tx (t_id t) rowID) false) ;;;
           gmodify (upd_table name (eraseRow rowID)) ;;;
           noteWrite) e
      end
  end.

Definition ReserveID (name : string) : GoM Engine Z := λ e,
  match e_tables e !! name with
  | None => (e, Err ErrNoTable)
  | Some t =>
      (upd_table name (set_nextID (wrap64 (t_nextID t + 1))) e, Ok (t_nextID t))
  end.

Definition applyPut (name : string) (rowID : Z) (r : row) : GoM Engine unit := λ e,
  match e_tables e !! name with
  | None => (e, Err ErrNoTable)
  | Some _ => (upd_table name (λ t, bumpNextID rowID (storeRow rowID r t)) e, Ok tt)
  end.

Definition applyDelete (name : string) (rowID : Z) : GoM Engine unit := λ e,
  match e_tables e !! name with
  | None => (e, Err ErrNoTable)
  | Some _ => (upd_table name (eraseRow rowID) e, Ok tt)
  end.

(** ** Reads *)
Definition Get (name : string) (rowID : Z) (e : Engine) : option row :=
  e_tables e !! name ≫= λ t, t_rows t !! rowID.

(** The rows of a map by ascending id. *)
Definition sorted_rows (m : gmap Z row) : list Z * list row :=
  (sorted_keys m, (λ id, default [] (m !! id)) <$> sorted_keys m).

Definition AllRows (name : string) (e : Engine) : res (list Z * list row) :=
  match e_tables e !! name with
  | None => Err ErrNoTable
  | Some t => Ok (sorted_rows (t_rows t))
  end.

Definition Catalog (e : Engine) : list TableDef := catalogLocked (e_cat e).

Definition TableID (name : string) (e : Engine) : option Z := t_id <$> e_tables e !! name.

Definition UniqueGet (name : string) (colIdx : nat) (v : Value) (e : Engine) : option Z :=
  match e_tables e !! name with
  | None => None
  | Some t =>
      if IsNull v then None
      else t_uniq t !! colIdx ≫= λ m : gmap string Z, m !! uniqKey v
  end.

(** ** Snapshots *)
Definition snap_table (name : string) (t : Table) : snapshotTable :=
  MkSnapTable (t_id t) name (t_cols t) (t_rows t) (t_nextID t).

Definition takeSnapshot (e : Engine) : snapshotData :=
  MkSnapshot (l_Seq (e_wal e)) (map_imap (λ n t, Some (snap_table n t)) (e_tables e)).

(** Temporary file, fsync, rename: the new file is there whole or not at all. *)
Definition WriteSnapshot (d : snapshotData) : GoM Engine Z := λ e,
  match next_io e with
  | IoOk =>
      (set_disk (MkDisk (<[sd_Seq d := d]> (d_snaps (e_disk e))) (d_manifest (e_disk e))
                        (d_meta (e_disk e))) (pop_io e), Ok (sd_Seq d))
  | _ => (pop_io e, Err ErrIO)
  end.

Definition writeManifest (name : Z) : GoM Engine unit := λ e,
  match next_io e with
  | IoOk =>
      (set_disk (MkDisk (d_snaps (e_disk e)) (Some name) (d_meta (e_disk e))) (pop_io e), Ok tt)
  | _ => (pop_io e, Err ErrIO)
  end.

(** A missing manifest and a missing snapshot file both give [None]. *)
Definition LoadLatestSnapshot (d : Disk) : option snapshotData :=
  d_manifest d ≫= λ n, d_snaps d !! n.

(** [e.wal.Truncate] *)
Definition walTruncate : GoM Engine unit := λ e,
  let '(l, q) := log_truncate (next_io e) (e_wal e) in (set_wal l (pop_io e), q).

(** Keep the two snapshots with the largest sequence numbers.  The directory
    listing can fail; a file that cannot be removed is not modelled. *)
Definition prune (s : gmap Z snapshotData) : gmap Z snapshotData :=
  foldr delete s (drop 2 (reverse (sorted_keys s))).

Definition pruneSnapshots : GoM Engine unit := gmodify (λ e,
  match next_io e with
  | IoOk => set_disk (MkDisk (prune (d_snaps (e_disk e))) (d_manifest (e_disk e))
                             (d_meta (e_disk e))) (pop_io e)
  | _ => pop_io e
  end).

Definition Checkpoint : GoM Engine unit :=
  e <-- gget ;;
  name <-- WriteSnapshot (takeSnapshot e) ;;
  writeManifest name ;;;
  walTruncate ;;;
  gmodify (set_since 0) ;;;
  pruneSnapshots.

(** The goroutine [noteWrite] starts. *)
Definition backgroundCheckpoint : GoM Engine unit := λ e,
  if e_checkpointing e then (set_checkpointing false (Checkpoint e).1, Ok tt) else (e, Ok tt).

(** ** Recovery *)
Definition applyRecord (r : WalRecord) (c : Cat) : res Cat :=
  if bool_decide (r_Type r = RecCreate) then
    match r_DDL r with
    | None => Err (Errorf "tsql: corrupt create record" [])
    | Some sc =>
        match c_tables c !! sc_Name sc with
        | Some _ => Ok c
        | None => Ok (addTableLocked (sc_Name sc) (sc_Cols sc) c)
        end
    end
  else if bool_decide (r_Type r = RecDrop) then
    match r_DDL r with
    | None => Err (Errorf "tsql: corrupt drop record" [])
    | Some sc =>
        match c_tables c !! sc_Name sc with
        | Some t => Ok (removeTableLocked t c)
        | None => Ok c
        end
    end
  else if bool_decide (r_Type r = RecPut) then
    match c_byID c !! r_TableID r with
    | None => Err (Errorf "tsql: wal put references unknown table id %d" [AInt (r_TableID r)])
    | Some n => Ok (cat_upd n (λ t, bumpNextID (r_RowID r) (storeRow (r_RowID r) (r_Row r) t)) c)
    end
  else if bool_decide (r_Type r = RecDelete) then
    match c_byID c !! r_TableID r with
    | None => Err (Errorf "tsql: wal delete references unknown table id %d" [AInt (r_TableID r)])
    | Some n => Ok (cat_upd n (eraseRow (r_RowID r)) c)
    end
  else Ok c.

Fixpoint applyRecords (rs : list WalRecord) (c : Cat) : res Cat :=
  match rs with
  | [] => Ok c
  | r :: rs =>
      match applyRecord r c with
      | Err err => Err err
      | Ok c' => applyRecords rs c'
      end
  end.

Abbreviation Pending := (gmap Z (list WalRecord)).

Definition applyPendingLocked (p : Pending) (tx : Z) (c : Cat) : res (Cat * Pending) :=
  match applyRecords (default [] (p !! tx)) c with
  | Err err => Err err
  | Ok c' => Ok (c', delete tx p)
  end.

(** One turn of the replay loop. *)
Definition replayRecord (r : WalRecord) (s : Cat * Pending) : res (Cat * Pending) :=
  if bool_decide (r_Type r = RecBegin) then Ok s
  else if bool_decide (r_Type r = RecCommit) then applyPendingLocked s.2 (r_Txn r) s.1
  else Ok (s.1, <[r_Txn r := default [] (s.2 !! r_Txn r) ++ [r]]> s.2).

Fixpoint replay (rs : list WalRecord) (s : Cat * Pending) : res (Cat * Pending) :=
  match rs with
  | [] => Ok s
  | r :: rs =>
      match replayRecord r s with
      | Err err => Err err
      | Ok s' => replay rs s'
      end
  end.

(** The body of the loop over the tables of the snapshot. *)
Definition loadTable (name : string) (st : snapshotTable) (c : Cat) : Cat :=
  let t := buildUniqLocked
             (initUniq (MkTable (st_ID st) (st_Name st) (st_Cols st) (st_Rows st) (st_NextID st) ∅)) in
  MkCat (<[name := t]> (c_tables c)) (<[t_id t := name]> (c_byID c))
        (if bool_decide (c_nextTableID c ≤ st_ID st)%Z then wrapu32 (st_ID st + 1)
         else c_nextTableID c).

Definition empty_cat : Cat := MkCat ∅ ∅ 0.

Definition loadTables (names : list string) (ts : gmap string snapshotTable) (c : Cat) : Cat :=
  foldl (λ c n, match ts !! n with Some st => loadTable n st c | None => c end) c names.

(** Go ranges over the map of tables in an unspecified order; this is the
    ascending one, and [snapshot_roundtrip] shows that the order is
    immaterial. *)
Definition loadSnapshot (s : option snapshotData) : Cat :=
  match s with
  | None => empty_cat
  | Some d => loadTables (sorted_names (sd_Tables d)) (sd_Tables d) empty_cat
  end.

(** The part of [Open] after the log and the snapshot have been read: the
    tables of the snapshot, then the committed records. *)
Definition rebuild (d : Disk) (snap : option snapshotData) (recs : list WalRecord) (faults : list io) :
    res Engine :=
  match replay recs (loadSnapshot snap, ∅) with
  | Err err => Err (Errorf "tsql: wal replay: %w" [AErr err])
  | Ok (c, _) =>
      Ok (MkEngine c (MkLog recs (Z.of_nat (length recs)) false) d 0 0 false faults)
  end.

(** What can fail while a directory is opened: creating it, opening, reading
    and truncating the log, reading and decoding the manifest, opening and
    decoding the snapshot.  An error is the text of the operating system or of
    the decoder; "does not exist" is not among them, the code tests for it. *)
Record open_io := MkOpenIo {
  oi_mkdir : option error; oi_wal : wal_open_io;
  oi_manifest : option error; oi_json : option error;
  oi_open : option error; oi_gob : option error }.
Definition open_fine : open_io := MkOpenIo None wal_open_fine None None None None.

(** [LoadLatestSnapshot] with these outcomes. *)
Definition LoadLatestSnapshot_io (o : open_io) (d : Disk) : res (option snapshotData) :=
  match oi_manifest o with
  | Some err => Err err
  | None =>
      match d_manifest d with
      | None => Ok None
      | Some n =>
          match oi_json o with
          | Some err => Err err
          | None =>
              match oi_open o with
              | Some err => Err err
              | None =>
                  match d_snaps d !! n with
                  | None => Ok None
                  | Some snap => match oi_gob o with Some err => Err err | None => Ok (Some snap) end
                  end
              end
          end
      end
  end.

(** [Open] on a directory with the snapshots [d] and the log file [file]. *)
Definition Open `{!Gob row, !Gob SchemaChange} (o : open_io) (d : Disk) (file : list Byte.byte) (faults : list io) :
    res Engine :=
  match oi_mkdir o with
  | Some err => Err err
  | None =>
      match OpenWAL_io (oi_wal o) file with
      | Err err => Err (Errorf "tsql: open wal: %w" [AErr err])
      | Ok (_, recs) =>
          match LoadLatestSnapshot_io o d with
          | Err err => Err (Errorf "tsql: load snapshot: %w" [AErr err])
          | Ok snap => rebuild d snap recs faults
          end
      end
  end.

(** [Open] where nothing fails and the log file holds the records [recs]. *)
Definition openLog (d : Disk) (recs : list WalRecord) (faults : list io) : res Engine :=
  rebuild d (LoadLatestSnapshot d) recs faults.

(** [e.wal.Close] *)
Definition walClose : GoM Engine unit := λ e,
  let e1 := pop_io e in
  let '(l, q) := log_close (next_io e) (next_io e1) (e_wal e1) in (set_wal l (pop_io e1), q).

(** After [Abort], as after a crash, only [e_disk] and the log are left. *)
Definition Abort : GoM Engine unit := walClose.
Definition Close : GoM Engine unit := Checkpoint ;;; walClose.

(** ** Opening a directory *)
Lemma LoadLatestSnapshot_io_Ok o d snap :
  LoadLatestSnapshot_io o d = Ok snap → snap = LoadLatestSnapshot d.
Proof.
  unfold LoadLatestSnapshot_io, LoadLatestSnapshot. intros H.
  repeat case_match; simplify_eq/=; congruence.
Qed.

(** Without failures [Open] is [openLog] on the records of the file; with
    failures it reports one, or gives the same engine, unless a read of the log
    failed. *)
Lemma Open_fine `{!Gob row, !Gob SchemaChange} d file faults :
  Open open_fine d file faults = openLog d (OpenWAL file).2 faults.
Proof.
  unfold Open, openLog. simpl. rewrite OpenWAL_io_fine. destruct (OpenWAL file) as [w recs]. simpl.
  unfold LoadLatestSnapshot_io, LoadLatestSnapshot. simpl.
  destruct (d_manifest d) as [n|]; simpl; [|done]. by destruct (d_snaps d !! n).
Qed.

Lemma Open_fails_or_same `{!Gob row, !Gob SchemaChange} o d file faults e :
  wo_read (oi_wal o) = None → Open o d file faults = Ok e → openLog d (OpenWAL file).2 faults = Ok e.
Proof.
  intros Hr Ho. unfold Open in Ho. destruct (oi_mkdir o); [done|].
  destruct (OpenWAL_io (oi_wal o) file) as [[w recs]|] eqn:Ew; [|done].
  apply OpenWAL_io_Ok in Ew; [|done]. rewrite Ew.
  destruct (LoadLatestSnapshot_io o d) as [snap|] eqn:Es; [|done].
  apply LoadLatestSnapshot_io_Ok in Es as ->. done.
Qed.

(** ** The log calls leave the tables alone *)

(** [e'] differs from [e] in the log, the transaction counter and the
    outcomes still to come only. *)
Record same_data (e e' : Engine) : Prop := {
  sm_cat : e_cat e' = e_cat e;
  sm_disk : e_disk e' = e_disk e;
  sm_since : e_sinceCheckpoint e' = e_sinceCheckpoint e;
  sm_ckpt : e_checkpointing e' = e_checkpointing e }.

Definition no_sync_err (e : Engine) : Prop := IoSyncErr ∉ e_io e.

(** An attempt to log the records [rs]: on success all are there, on failure
    some proper prefix, and the writer is stuck if an outcome was a failure. *)
Record log_tried (e e' : Engine) (rs : list WalRecord) (ok : bool) : Prop := {
  lt_same : same_data e e';
  lt_ok : ok = true → l_recs (e_wal e') = l_recs (e_wal e) ++ rs;
  lt_fail : ok = false → no_sync_err e →
    ∃ k, k < length rs ∧ l_recs (e_wal e') = l_recs (e_wal e) ++ take k rs;
  lt_io : no_sync_err e → no_sync_err e';
  lt_fine : l_stuck (e_wal e) = false → e_io e = [] →
    ok = true ∧ l_stuck (e_wal e') = false ∧ e_io e' = [] }.

Definition is_ok {A} (q : res A) : bool := match q with Ok _ => true | Err _ => false end.

Lemma same_data_trans e1 e2 e3 : same_data e1 e2 → same_data e2 e3 → same_data e1 e3.
Proof. intros [????] [????]. split; congruence. Qed.

Lemma walAppend_spec r durable e :
  encode_error r = None →
  log_tried e (walAppend r durable e).1 [r] (is_ok (walAppend r durable e).2) ∧
  e_txSeq (walAppend r durable e).1 = e_txSeq e ∧
  (∀ err, (walAppend r durable e).2 = Err err → err = ErrIO).
Proof.
  intros Henc. unfold walAppend, log_append. rewrite Henc.
  assert (IoSyncErr ∉ e_io e → IoSyncErr ∉ tail (e_io e)) as Htl
    by (destruct (e_io e); set_solver).
  assert (IoSyncErr ∉ e_io e → next_io e ≠ IoSyncErr) as Hnx
    by (unfold next_io; destruct (e_io e); set_solver).
  destruct (l_stuck (e_wal e)) eqn:Est; simpl.
  - split; [|naive_solver]. split; simpl; try done.
    + intros _ _. exists 0. simpl. rewrite app_nil_r. auto with lia.
    + congruence.
  - assert (e_io e = [] → next_io e = IoOk) as Hok by (unfold next_io; by intros ->).
    destruct (next_io e) as [|n|] eqn:Eo; [..|destruct durable]; simpl;
      (split; [|naive_solver]); split; simpl; try done;
      try (intros _ Hs; by destruct (Hnx Hs)).
    + intros _ Hio. by rewrite Hio.
    + intros _ _. exists 0. simpl. rewrite app_nil_r. auto with lia.
    + intros _ Hio. by specialize (Hok Hio).
    + intros _ Hio. by specialize (Hok Hio).
    + intros _ Hio. by specialize (Hok Hio).
Qed.

Lemma log_tried_app e1 e2 e3 rs1 rs2 ok :
  log_tried e1 e2 rs1 true → log_tried e2 e3 rs2 ok → log_tried e1 e3 (rs1 ++ rs2) ok.
Proof.
  intros [Hs1 Ho1 _ Hio1 Hf1] [Hs2 Ho2 Hk2 Hio2 Hf2]. split.
  - by eapply same_data_trans.
  - intros H. by rewrite (Ho2 H), (Ho1 eq_refl), <-app_assoc.
  - intros H Hns. destruct (Hk2 H (Hio1 Hns)) as (k & Hk & Hl).
    exists (length rs1 + k). rewrite length_app, Hl, (Ho1 eq_refl), <-app_assoc. split; [lia|].
    by rewrite take_app_add'.
  - auto.
  - intros H1 H2. destruct (Hf1 H1 H2) as (_ & H3 & H4). auto.
Qed.

Lemma log_tried_fail e1 e2 rs1 rs2 :
  log_tried e1 e2 rs1 false → log_tried e1 e2 (rs1 ++ rs2) false.
Proof.
  intros [Hs1 _ Hk1 Hio1 Hf1]. split; try done.
  - intros _ Hns. destruct (Hk1 eq_refl Hns) as (k & Hk & Hl).
    exists k. rewrite length_app, take_app_le by lia. auto with lia.
Qed.

(** Logging several records one after the other. *)
Definition logAll (rs : list (WalRecord * bool)) : GoM Engine unit :=
  gforeach (λ rd, walAppend rd.1 rd.2) rs.

Lemma logAll_spec rs e :
  Forall (λ rd, encode_error rd.1 = None) rs →
  log_tried e (logAll rs e).1 rs.*1 (is_ok (logAll rs e).2) ∧
  e_txSeq (logAll rs e).1 = e_txSeq e ∧
  (∀ err, (logAll rs e).2 = Err err → err = ErrIO).
Proof.
  revert e. induction rs as [|[r d] rs IH]; intros e Hf.
  { split; [|done]. split; simpl; try done. intros _. by rewrite app_nil_r. }
  apply Forall_cons in Hf as [Hr Hf].
  change (logAll ((r, d) :: rs) e) with (gbind (walAppend r d) (λ _, logAll rs) e). unfold gbind.
  destruct (walAppend_spec r d e Hr) as (H1 & Htx1 & Herr1).
  destruct (walAppend r d e) as [e1 [[]|err]] eqn:E1; simpl in *.
  - destruct (IH e1 Hf) as (H2 & Htx2 & Herr2). split; [|split; [congruence|done]].
    exact (log_tried_app _ _ _ [r] rs.*1 _ H1 H2).
  - split; [|done]. exact (log_tried_fail _ _ [r] rs.*1 H1).
Qed.

Lemma txn_logAll (f : Z → WalRecord) e :
  txn (λ tx, walAppend (f tx) false) e =
    let tx := wrapu64 (e_txSeq e + 1) in
    logAll [(mk_begin tx, false); (f tx, false); (mk_commit tx, true)] (set_txSeq tx e).
Proof.
  unfold txn, logAll. simpl. unfold gbind, gret.
  destruct (walAppend _ _ _) as [e1 [|]]; [|done].
  destruct (walAppend _ _ _) as [e2 [|]]; [|done].
  destruct (walAppend _ _ _) as [e3 [[]|]]; done.
Qed.

(** The records of one autocommit transaction. *)
Definition txn_recs (tx : Z) (r : WalRecord) : list WalRecord := [mk_begin tx; r; mk_commit tx].

Lemma txn_spec (f : Z → WalRecord) e :
  (∀ tx, encode_error (f tx) = None) →
  let tx := wrapu64 (e_txSeq e + 1) in
  let '(e', q) := txn (λ tx, walAppend (f tx) false) e in
  log_tried e e' (txn_recs tx (f tx)) (is_ok q) ∧ e_txSeq e' = tx ∧
  (∀ err, q = Err err → err = ErrIO).
Proof.
  intros Henc tx. rewrite txn_logAll. cbn zeta. fold tx.
  set (rs := [(mk_begin tx, false); (f tx, false); (mk_commit tx, true)]).
  assert (Forall (λ rd, encode_error rd.1 = None) rs) as Hrs by (repeat constructor; apply Henc).
  destruct (logAll_spec rs (set_txSeq tx e) Hrs) as (H1 & H2 & H3).
  destruct (logAll rs (set_txSeq tx e)) as [e' q]. simpl in *. split; [|done].
  destruct H1 as [[????] Ho Hk Hio Hf]. split; auto. by split.
Qed.

(** ** The invariant of the catalogue *)

(** Row ids are positive and below the next id to hand out. *)
Definition ids_ok (t : Table) : Prop :=
  (1 ≤ t_nextID t ≤ int64_max)%Z ∧
  ∀ id, is_Some (t_rows t !! id) → (0 < id < t_nextID t)%Z.

Record cat_ok (c : Cat) : Prop := {
  co_table : ∀ n t, c_tables c !! n = Some t →
    table_ok t ∧ ids_ok t ∧ valid_def (table_def t);
  co_name : ∀ n t, c_tables c !! n = Some t → t_name t = n;
  co_id : ∀ n t, c_tables c !! n = Some t →
    c_byID c !! t_id t = Some n ∧ (0 ≤ t_id t < c_nextTableID c)%Z;
  co_byID : ∀ i n, c_byID c !! i = Some n → ∃ t, c_tables c !! n = Some t ∧ t_id t = i;
  co_next : (0 ≤ c_nextTableID c < 2 ^ 32)%Z }.

Lemma empty_cat_ok : cat_ok empty_cat.
Proof.
  split; simpl; try (intros n t H; by rewrite lookup_empty in H). done.
Qed.

Lemma cat_upd_lookup n f c n' :
  c_tables (cat_upd n f c) !! n' = if decide (n' = n) then f <$> c_tables c !! n' else c_tables c !! n'.
Proof.
  unfold cat_upd. simpl. case_decide as H; [subst; apply lookup_alter_eq|].
  by rewrite lookup_alter_ne.
Qed.

(** An update that keeps the identity of the table and its own invariant. *)
Lemma cat_upd_ok n f c :
  cat_ok c →
  (∀ t, c_tables c !! n = Some t →
    table_ok (f t) ∧ ids_ok (f t) ∧ t_id (f t) = t_id t ∧ t_name (f t) = t_name t ∧
    t_cols (f t) = t_cols t) →
  cat_ok (cat_upd n f c).
Proof.
  intros [Ht Hn Hi Hb Hx] Hf. split; [..|done].
  - intros n' t'. rewrite cat_upd_lookup. case_decide as E; [subst n'|by apply Ht].
    intros (t & Hl & ->)%fmap_Some. destruct (Hf _ Hl) as (? & ? & ? & Hnm & Hc).
    unfold table_def. rewrite Hnm, Hc. by destruct (Ht _ _ Hl) as (? & ? & ?).
  - intros n' t'. rewrite cat_upd_lookup. case_decide as E; [subst n'|by apply Hn].
    intros (t & Hl & ->)%fmap_Some. destruct (Hf _ Hl) as (? & ? & ? & -> & ?). by apply Hn.
  - intros n' t'. rewrite cat_upd_lookup. simpl. case_decide as E; [subst n'|by apply Hi].
    intros (t & Hl & ->)%fmap_Some. destruct (Hf _ Hl) as (? & ? & -> & ? & ?). by apply Hi.
  - intros i n'. simpl. intros (t & Hl & Hid)%Hb.
    destruct (decide (n' = n)) as [->|E].
    + exists (f t). rewrite lookup_alter_eq, Hl. destruct (Hf _ Hl) as (? & ? & ? & ? & ?).
      simpl. split; [done|congruence].
    + exists t. by rewrite lookup_alter_ne.
Qed.

Lemma addTable_ok name cols c :
  cat_ok c → c_tables c !! name = None → valid_def (MkTableDef name cols) →
  (c_nextTableID c + 1 < 2 ^ 32)%Z → cat_ok (addTableLocked name cols c).
Proof.
  intros [Ht Hn Hi Hb Hx] Hfree Hv Hlt.
  assert (wrapu32 (c_nextTableID c + 1) = c_nextTableID c + 1)%Z as Hw
    by (apply wrapu32_id; lia).
  split; simpl.
  - intros n t. rewrite lookup_insert_Some. intros [[<- <-]|[_ Hl]]; [|by eapply Ht].
    split; [apply empty_table_ok|]. split; [|done].
    split; [unfold int64_max; simpl; lia|]. simpl. intros id [r Hr]. by rewrite lookup_empty in Hr.
  - intros n t. rewrite lookup_insert_Some. intros [[<- <-]|[_ Hl]]; [done|by apply Hn].
  - intros n t. rewrite lookup_insert_Some. intros [[<- <-]|[Hne Hl]].
    + simpl. rewrite lookup_insert_eq, Hw. split; [done|lia].
    + destruct (Hi _ _ Hl) as [Hid Hlt']. rewrite lookup_insert_ne by lia. split; [done|lia].
  - intros i n. rewrite lookup_insert_Some. intros [[<- <-]|[Hne (t & Hl & Hid)%Hb]].
    + eexists. rewrite lookup_insert_eq. by split.
    + exists t. rewrite lookup_insert_ne by congruence. done.
  - lia.
Qed.

Lemma removeTable_ok t c :
  cat_ok c → c_tables c !! t_name t = Some t → cat_ok (removeTableLocked t c).
Proof.
  intros [Ht Hn Hi Hb Hx] Hl. split; simpl; [..|done].
  - intros n t' [_ Hl']%lookup_delete_Some. by eapply Ht.
  - intros n t' [_ Hl']%lookup_delete_Some. by eapply Hn.
  - intros n t' [Hne Hl']%lookup_delete_Some. destruct (Hi _ _ Hl') as [Hid Hlt].
    rewrite lookup_delete_ne; [done|]. intros Heq. destruct (Hi _ _ Hl) as [Hid' _]. congruence.
  - intros i n [Hne (t' & Hl' & Hid)%Hb]%lookup_delete_Some.
    exists t'. rewrite lookup_delete_ne; [done|]. congruence.
Qed.

(** ** Reserving an id *)

(** The row a write with id [id] goes to: a fresh one for the id 0, else the
    one named, which has to exist for an update and must not for an insert. *)
Definition target (rows : gmap Z row) (id : Z) (mustExist : bool) (id' : Z) : Prop :=
  (0 < id')%Z ∧
  ((id = 0 ∧ mustExist = false ∧ rows !! id' = None) ∨
   (id ≠ 0 ∧ id' = id ∧ (is_Some (rows !! id) ↔ mustExist = true)))%Z.

Lemma table_ok_set_nextID n t : table_ok t → table_ok (set_nextID n t).
Proof. by intros [? ?]. Qed.

Lemma reserveID_ok id must t id' t1 :
  reserveID id must t = Ok (id', t1) →
  ids_ok t → (0 ≤ id < int64_max)%Z → (t_nextID t < int64_max)%Z →
  (must && bool_decide (id = 0)%Z) = false →
  target (t_rows t) id must id' ∧
  ∃ n, t1 = set_nextID n t ∧ (t_nextID t ≤ n ≤ int64_max ∧ id' < n)%Z.
Proof.
  intros Hr [Hn Hids] Hid Hlt Hm. unfold reserveID in Hr.
  assert (int64_min < 0)%Z by done.
  assert (∀ z, (0 ≤ z ≤ int64_max)%Z → wrap64 z = z) as Hw
    by (intros; apply wrap64_id; unfold in_int64; lia).
  destruct (decide (id = 0)%Z) as [->|Hne].
  - rewrite bool_decide_eq_true_2 in Hr by done. simpl in Hr. unfold bumpNextID in Hr. simpl in Hr.
    rewrite Hw in Hr by lia. rewrite bool_decide_eq_false_2 in Hr by lia. injection Hr as <- <-.
    split; [|exists (t_nextID t + 1)%Z; split; [done|lia]]. split; [lia|]. left.
    rewrite andb_true_r in Hm.
    split; [done|split; [done|]]. apply eq_None_not_Some. intros ?%Hids. lia.
  - clear Hm. rewrite bool_decide_eq_false_2 in Hr by done.
    rewrite bool_decide_eq_true_2 in Hr by done. simpl in Hr. case_bool_decide as Hex; destruct must; simpl in Hr; try discriminate;
      injection Hr as <- <-.
    + split; [split; [lia|]; right; naive_solver|].
      exists (t_nextID t). split; [by destruct t|]. apply Hids in Hex. lia.
    + split; [split; [lia|]; right; naive_solver|]. unfold bumpNextID. case_bool_decide.
      * exists (id + 1)%Z. rewrite Hw by lia. split; [done|lia].
      * exists (t_nextID t). split; [by destruct t|]. lia.
Qed.

Lemma reserveID_err id must t err :
  reserveID id must t = Err err →
  (id ≠ 0)%Z ∧
  ((err = ErrExists ∧ must = false ∧ is_Some (t_rows t !! id)) ∨
   (err = ErrNoRow ∧ must = true ∧ t_rows t !! id = None)).
Proof.
  unfold reserveID. case_bool_decide as H0; [done|].
  rewrite bool_decide_eq_true_2 by done. simpl.
  case_bool_decide as Hex; destruct must; simpl; intros [=]; subst; (split; [done|]).
  - left. auto.
  - right. split; [done|]. split; [done|]. by apply eq_None_not_Some.
Qed.

(** The check through the index is the check against all rows. *)
Lemma uniqueConflict_iff id r t :
  index_ok (t_cols t) (t_rows t) (t_uniq t) →
  existsb (uniqueConflict id r t) (uniqCols (t_cols t)) = false ↔
  no_conflict (t_cols t) (t_rows t) id r.
Proof.
  intros Hix. rewrite <-not_true_iff_false, existsb_exists. split.
  - intros Hno ci id' r' k Hci Hr' Hk Hk'. apply dec_stable. intros Hne. apply Hno.
    exists ci. split; [by apply list_elem_of_In|]. unfold uniqueConflict. rewrite Hk.
    destruct Hix as [Hd He]. pose proof Hci as [m Hm]%Hd. rewrite Hm. simpl.
    assert (m !! k = Some id') as -> by (eapply He; eauto). by apply bool_decide_eq_true_2.
  - intros Hnc (ci & Hci%list_elem_of_In & Hc). unfold uniqueConflict in Hc.
    destruct (key_at r ci) as [k|] eqn:Hk; [|done].
    destruct Hix as [Hd He]. pose proof Hci as [m Hm]%Hd. rewrite Hm in Hc. simpl in Hc.
    destruct (m !! k) as [old|] eqn:Ho; [|done]. apply bool_decide_eq_true in Hc.
    apply (He _ _ _ _ Hm) in Ho as (r' & Hr' & Hk'). by apply Hc, (Hnc ci old r' k).
Qed.

Lemma length_stamp pk id r : length (stamp pk id r) = length r.
Proof. unfold stamp. case_bool_decide; [apply length_insert|done]. Qed.

(** ** What the engine promises

    The abstract database: for every table its columns and its rows. *)
Abbreviation Db := (gmap string (list Column * gmap Z row)).
Definition abs_table (t : Table) : list Column * gmap Z row := (t_cols t, t_rows t).
Definition abs_cat (c : Cat) : Db := abs_table <$> c_tables c.
Definition abs (e : Engine) : Db := abs_cat (e_cat e).

Inductive cmd :=
  | CCreate (name : string) (cols : list Column)
  | CDrop (name : string)
  | CPut (name : string) (pkIdx rowID : Z) (r : row) (mustExist : bool)
  | CDelete (name : string) (rowID : Z)
  | CReserve (name : string)
  | CCheckpoint
  | CBackground.

Definition run (c : cmd) : GoM Engine Z :=
  match c with
  | CCreate name cols => CreateTable name cols ;;; gret 0%Z
  | CDrop name => DropTable name ;;; gret 0%Z
  | CPut name pk id r must => put name pk id r must
  | CDelete name id => Delete name id ;;; gret 0%Z
  | CReserve name => ReserveID name
  | CCheckpoint => Checkpoint ;;; gret 0%Z
  | CBackground => backgroundCheckpoint ;;; gret 0%Z
  end.

(** The steps of the abstract database, one rule per outcome.  Any command
    may fail with an I/O error and then changes nothing. *)
Inductive db_step : cmd → Db → res Z → Db → Prop :=
  | S_io c d : db_step c d (Err ErrIO) d
  | S_create_invalid n cols err d :
      Validate (MkTableDef n cols) = Err err → db_step (CCreate n cols) d (Err err) d
  | S_create_exists n cols td d :
      Validate (MkTableDef n cols) = Ok td → is_Some (d !! n) →
      db_step (CCreate n cols) d (Err ErrExists) d
  | S_create n cols td d :
      Validate (MkTableDef n cols) = Ok td → d !! n = None →
      db_step (CCreate n cols) d (Ok 0%Z) (<[n := (td_Cols td, ∅)]> d)
  | S_drop_none n d : d !! n = None → db_step (CDrop n) d (Err ErrNoTable) d
  | S_drop n d : is_Some (d !! n) → db_step (CDrop n) d (Ok 0%Z) (delete n d)
  | S_put_bad n pk id r must fmt d :
      (id < 0 ∨ (must = true ∧ id = 0))%Z →
      db_step (CPut n pk id r must) d (Err (Errorf fmt [])) d
  | S_put_none n pk id r must d :
      d !! n = None → db_step (CPut n pk id r must) d (Err ErrNoTable) d
  | S_put_len n pk id r must cols rows fmt args d :
      d !! n = Some (cols, rows) → length r ≠ length cols →
      db_step (CPut n pk id r must) d (Err (Errorf fmt args)) d
  | S_put_exists n pk id r cols rows d :
      d !! n = Some (cols, rows) → (0 < id)%Z → is_Some (rows !! id) →
      db_step (CPut n pk id r false) d (Err ErrExists) d
  | S_put_norow n pk id r cols rows d :
      d !! n = Some (cols, rows) → (0 < id)%Z → rows !! id = None →
      db_step (CPut n pk id r true) d (Err ErrNoRow) d
  | S_put_unique n pk id r must cols rows id' d :
      d !! n = Some (cols, rows) → target rows id must id' →
      ¬ no_conflict cols rows id' (stamp pk id' r) →
      db_step (CPut n pk id r must) d (Err ErrUnique) d
  | S_put n pk id r must cols rows id' d :
      d !! n = Some (cols, rows) → length r = length cols → target rows id must id' →
      no_conflict cols rows id' (stamp pk id' r) →
      db_step (CPut n pk id r must) d (Ok id') (<[n := (cols, <[id' := stamp pk id' r]> rows)]> d)
  | S_delete_none n id d : d !! n = None → db_step (CDelete n id) d (Err ErrNoTable) d
  | S_delete_norow n id cols rows d :
      d !! n = Some (cols, rows) → rows !! id = None →
      db_step (CDelete n id) d (Err ErrNoRow) d
  | S_delete n id cols rows d :
      d !! n = Some (cols, rows) → is_Some (rows !! id) →
      db_step (CDelete n id) d (Ok 0%Z) (<[n := (cols, delete id rows)]> d)
  | S_reserve_none n d : d !! n = None → db_step (CReserve n) d (Err ErrNoTable) d
  | S_reserve n cols rows id d :
      d !! n = Some (cols, rows) → (0 < id)%Z → rows !! id = None →
      db_step (CReserve n) d (Ok id) d
  | S_checkpoint d : db_step CCheckpoint d (Ok 0%Z) d
  | S_background d : db_step CBackground d (Ok 0%Z) d.

(** The counters still have room: no id wraps around. *)
Definition room (c : cmd) (e : Engine) : Prop :=
  (c_nextTableID (e_cat e) + 1 < 2 ^ 32)%Z ∧
  (∀ n t, e_tables e !! n = Some t → (t_nextID t < int64_max)%Z) ∧
  match c with CPut _ _ id _ _ => (id < int64_max)%Z | _ => True end.

(** No failed write so far and none to come. *)
Definition fine (e : Engine) : Prop := l_stuck (e_wal e) = false ∧ e_io e = [].

(** ** Refinement, operation by operation *)
Definition refines_at (c : cmd) (e : Engine) : Prop :=
  let '(e', q) := run c e in
  cat_ok (e_cat e') ∧ db_step c (abs e) q (abs e') ∧ (fine e → q ≠ Err ErrIO).

Lemma abs_lookup e n t : e_tables e !! n = Some t → abs e !! n = Some (t_cols t, t_rows t).
Proof. unfold e_tables, abs, abs_cat. intros H. by rewrite lookup_fmap, H. Qed.
Lemma abs_lookup_None e n : e_tables e !! n = None → abs e !! n = None.
Proof. unfold e_tables, abs, abs_cat. intros H. by rewrite lookup_fmap, H. Qed.

Lemma abs_upd n f c t :
  c_tables c !! n = Some t → abs_cat (cat_upd n f c) = <[n := abs_table (f t)]> (abs_cat c).
Proof.
  intros Hl. apply map_eq. intros n'. unfold abs_cat.
  rewrite lookup_fmap, cat_upd_lookup. case_decide as E.
  - subst. by rewrite Hl, lookup_insert_eq.
  - rewrite lookup_insert_ne by done. symmetry. apply lookup_fmap.
Qed.

Lemma noteWrite_cat e : e_cat (noteWrite e).1 = e_cat e.
Proof. unfold noteWrite, gmodify. simpl. repeat case_match; done. Qed.

Lemma upd_table_idem n f t e :
  e_tables e !! n = Some t → f t = t → e_cat (upd_table n f e) = e_cat e.
Proof.
  intros Hl Hf. unfold upd_table, cat_upd. destruct e as [[ts b k] ? ? ? ? ? ?]. unfold e_tables in Hl.
  simpl in *. f_equal. apply map_eq. intros n'. destruct (decide (n' = n)) as [->|].
  - rewrite lookup_alter_eq, Hl. simpl. by rewrite Hf.
  - by rewrite lookup_alter_ne.
Qed.

(** A command that logs one record and goes on with [k]. *)
Lemma txn_then {A} (f : Z → WalRecord) (k : GoM Engine A) e e' q :
  (∀ tx, encode_error (f tx) = None) →
  gbind (txn (λ tx, walAppend (f tx) false)) (λ _, k) e = (e', q) →
  let tx := wrapu64 (e_txSeq e + 1) in
  (∃ e1, log_tried e e1 (txn_recs tx (f tx)) true ∧ e_txSeq e1 = tx ∧ k e1 = (e', q)) ∨
  (q = Err ErrIO ∧ log_tried e e' (txn_recs tx (f tx)) false ∧ e_txSeq e' = tx).
Proof.
  intros Henc. pose proof (txn_spec f e Henc) as Ht. unfold gbind.
  destruct (txn _ e) as [e1 [[]|err]]; destruct Ht as (H1 & H2 & H3); intros Hk.
  - left. eauto.
  - right. injection Hk as <- <-. by rewrite (H3 err).
Qed.

Lemma log_failed_fine e e' rs : log_tried e e' rs false → fine e → False.
Proof. intros [_ _ _ _ Hf] [H1 H2]. by destruct (Hf H1 H2). Qed.

Lemma cat_ok_reserve n t k e :
  cat_ok (e_cat e) → e_tables e !! n = Some t → (t_nextID t ≤ k ≤ int64_max)%Z →
  let e1 := upd_table n (λ _, set_nextID k t) e in
  e_tables e1 !! n = Some (set_nextID k t) ∧ cat_ok (e_cat e1) ∧ abs e1 = abs e.
Proof.
  intros Hok Et Hk e1. destruct (co_table _ Hok _ _ Et) as (Htok & Hids & Hv).
  unfold e1, e_tables, abs, upd_table in *. simpl. split; [by rewrite lookup_alter_eq, Et|].
  split; [|rewrite (abs_upd _ _ _ t) by done; apply insert_id, (abs_lookup e n t Et)].
  apply cat_upd_ok; [done|]. intros t' Ht'. assert (t' = t) as -> by congruence.
  split; [by apply table_ok_set_nextID|]. split; [|done].
  destruct Hids as [? Hids]. split; simpl; [lia|]. intros i Hi%Hids. lia.
Qed.

Lemma cat_ok_store n id r c t :
  cat_ok c → c_tables c !! n = Some t → length r = length (t_cols t) →
  no_conflict (t_cols t) (t_rows t) id r → (0 < id < t_nextID t)%Z →
  cat_ok (cat_upd n (storeRow id r) c) ∧
  abs_cat (cat_upd n (storeRow id r) c) = <[n := (t_cols t, <[id := r]> (t_rows t))]> (abs_cat c).
Proof.
  intros Hok Et Hl Hnc Hid. destruct (co_table _ Hok _ _ Et) as (Htok & [Hn Hids] & Hv).
  rewrite (abs_upd _ _ _ _ Et). unfold abs_table. rewrite storeRow_rows, storeRow_cols.
  split; [|done]. apply cat_upd_ok; [done|]. intros t' Ht'. assert (t' = t) as -> by congruence.
  destruct (storeRow_frame id r t) as (-> & -> & -> & Hn').
  split; [by apply storeRow_ok|]. split; [|done]. unfold ids_ok. rewrite storeRow_rows, Hn'.
  split; [lia|]. intros i [ri [[<- _]|[_ Hi]]%lookup_insert_Some]; eauto.
Qed.

Lemma cat_ok_erase n id c t :
  cat_ok c → c_tables c !! n = Some t →
  cat_ok (cat_upd n (eraseRow id) c) ∧
  abs_cat (cat_upd n (eraseRow id) c) = <[n := (t_cols t, delete id (t_rows t))]> (abs_cat c).
Proof.
  intros Hok Et. destruct (co_table _ Hok _ _ Et) as (Htok & [Hn Hids] & Hv).
  rewrite (abs_upd _ _ _ _ Et). unfold abs_table. rewrite eraseRow_rows, eraseRow_cols.
  split; [|done]. apply cat_upd_ok; [done|]. intros t' Ht'. assert (t' = t) as -> by congruence.
  destruct (eraseRow_frame id t) as (-> & -> & -> & Hn').
  split; [by apply eraseRow_ok|]. split; [|done]. unfold ids_ok. rewrite eraseRow_rows, Hn'.
  split; [lia|]. intros i [ri [_ Hi]%lookup_delete_Some]; eauto.
Qed.

Lemma put_refines n pk id r must e :
  cat_ok (e_cat e) → room (CPut n pk id r must) e → refines_at (CPut n pk id r must) e.
Proof.
  intros Hok (_ & Hroom & Hid). unfold refines_at. simpl. unfold put.
  destruct (bool_decide_reflect (id < 0)%Z) as [H0|H0].
  { split; [done|]. split; [by apply S_put_bad; left|done]. }
  destruct (must && bool_decide (id = 0)%Z) eqn:Em.
  { apply andb_true_iff in Em as [-> Em%bool_decide_eq_true].
    split; [done|]. split; [by apply S_put_bad; right|done]. }
  destruct (e_tables e !! n) as [t|] eqn:Et; [|split; [done|]; split; [|done];
    by apply S_put_none, abs_lookup_None].
  pose proof (abs_lookup _ _ _ Et) as Habs.
  destruct (bool_decide_reflect (length r ≠ length (t_cols t))) as [Hl|Hl].
  { split; [done|]. split; [by eapply S_put_len|done]. }
  apply dec_stable in Hl. destruct (co_table _ Hok _ _ Et) as (Htok & Hids & Hv).
  destruct (reserveID id must t) as [[id' t1]|err] eqn:Er.
  2:{ apply reserveID_err in Er as (Hne & [(-> & -> & Hex)|(-> & -> & Hex)]);
      (split; [done|]); (split; [|done]).
      - eapply S_put_exists; eauto. lia.
      - eapply S_put_norow; eauto. lia. }
  apply reserveID_ok in Er as (Htg & k & -> & Hk); [|done|lia|by eapply Hroom|done].
  destruct (cat_ok_reserve n t k e) as (Et1 & Hok1 & Habs1); [done|done|lia|].
  set (e1 := upd_table n (λ _, set_nextID k t) e) in *. set (r1 := stamp pk id' r).
  change (t_cols (set_nextID k t)) with (t_cols t).
  pose proof (uniqueConflict_iff id' r1 (set_nextID k t) (tb_index _ Htok)) as Hu.
  destruct (existsb _ _) eqn:Ex.
  { split; [done|]. split; [|done]. rewrite Habs1. eapply S_put_unique; [done|done|].
    by intros Hc%Hu. }
  apply proj1 in Hu. specialize (Hu eq_refl). destruct (gbind _ _ e1) as [e' q] eqn:Eq.
  apply txn_then in Eq as [(e2 & [[Hc _ _ _] _ _ _ _] & _ & Hk2)|(-> & Hlog & _)]; [..|done].
  - destruct (cat_ok_store n id' r1 (e_cat e2) (set_nextID k t)) as [Hs1 Hs2];
      [by rewrite Hc|by rewrite Hc|by unfold r1; rewrite length_stamp|done
      |destruct Htg; simpl; lia|].
    unfold gbind, gret in Hk2. cbn [gmodify] in Hk2.
    pose proof (noteWrite_cat (upd_table n (storeRow id' r1) e2)) as Hnw.
    destruct (noteWrite (upd_table n (storeRow id' r1) e2)) as [e4 [[]|]] eqn:E4; [|by inversion E4].
    injection Hk2 as <- <-. simpl in Hnw. unfold abs at 2. rewrite Hnw.
    split; [done|]. split; [|done]. rewrite Hs2, Hc. fold (abs e1). rewrite Habs1. by apply S_put.
  - pose proof (lt_same _ _ _ _ Hlog) as [Hc _ _ _]. unfold abs at 2. rewrite Hc.
    split; [done|]. fold (abs e1). rewrite Habs1. split; [by apply S_io|].
    intros [Hf1 Hf2]. by destruct (log_failed_fine _ _ _ Hlog).
Qed.

Lemma create_refines n cols e :
  cat_ok (e_cat e) → room (CCreate n cols) e → refines_at (CCreate n cols) e.
Proof.
  intros Hok (Hroom & _ & _). unfold refines_at. simpl. unfold CreateTable. unfold gbind at 1.
  destruct (Validate (MkTableDef n cols)) as [td|err] eqn:Ev.
  2:{ split; [done|]. split; [by apply S_create_invalid|]. intros _ [= ->]. by apply Validate_err in Ev. }
  destruct (e_tables e !! n) as [t|] eqn:Et.
  { split; [done|]. split; [|done]. eapply S_create_exists; [done|]. eexists. by apply abs_lookup. }
  pose proof (Validate_valid _ _ Ev) as [Hv Hn]. simpl in Hn.
  destruct (gbind _ _ e) as [e' q] eqn:Eq.
  apply txn_then in Eq as [(e2 & [[Hc _ _ _] _ _ _ _] & _ & Hk2)|(-> & Hlog & _)]; [..|done].
  - unfold gbind, gmodify in Hk2. injection Hk2 as <- <-. simpl. unfold abs. simpl. rewrite Hc.
    split; [apply addTable_ok; [done|done| |done]; destruct td; simpl in *; by subst|].
    split; [|done]. unfold abs_cat. simpl. rewrite fmap_insert.
    eapply S_create; [done|]. by apply abs_lookup_None.
  - pose proof (lt_same _ _ _ _ Hlog) as [Hc _ _ _]. unfold abs. rewrite Hc.
    split; [done|]. split; [by apply S_io|]. intros Hf. by destruct (log_failed_fine _ _ _ Hlog).
Qed.

Lemma drop_refines n e :
  cat_ok (e_cat e) → refines_at (CDrop n) e.
Proof.
  intros Hok. unfold refines_at. simpl. unfold DropTable. unfold gbind at 1.
  destruct (e_tables e !! n) as [t|] eqn:Et.
  2:{ split; [done|]. split; [by apply S_drop_none, abs_lookup_None|done]. }
  pose proof (co_name _ Hok _ _ Et) as Hn.
  destruct (gbind _ _ e) as [e' q] eqn:Eq.
  apply txn_then in Eq as [(e2 & [[Hc _ _ _] _ _ _ _] & _ & Hk2)|(-> & Hlog & _)]; [..|done].
  - unfold gbind, gmodify in Hk2. injection Hk2 as <- <-. simpl. unfold abs. simpl. rewrite Hc.
    split; [apply removeTable_ok; [done|by rewrite Hn]|].
    split; [|done]. unfold abs_cat. simpl. rewrite fmap_delete, Hn.
    apply S_drop. eexists. by apply abs_lookup.
  - pose proof (lt_same _ _ _ _ Hlog) as [Hc _ _ _]. unfold abs. rewrite Hc.
    split; [done|]. split; [by apply S_io|]. intros Hf. by destruct (log_failed_fine _ _ _ Hlog).
Qed.

Lemma delete_refines n id e :
  cat_ok (e_cat e) → refines_at (CDelete n id) e.
Proof.
  intros Hok. unfold refines_at. simpl. unfold Delete. unfold gbind at 1.
  destruct (e_tables e !! n) as [t|] eqn:Et.
  2:{ split; [done|]. split; [by apply S_delete_none, abs_lookup_None|done]. }
  pose proof (abs_lookup _ _ _ Et) as Habs.
  destruct (t_rows t !! id) as [old|] eqn:Eid.
  2:{ split; [done|]. split; [by eapply S_delete_norow|done]. }
  destruct (gbind _ _ e) as [e' q] eqn:Eq.
  apply txn_then in Eq as [(e2 & [[Hc _ _ _] _ _ _ _] & _ & Hk2)|(-> & Hlog & _)]; [..|done].
  - unfold gbind in Hk2. cbn [gmodify] in Hk2.
    pose proof (noteWrite_cat (upd_table n (eraseRow id) e2)) as Hnw.
    rewrite Hk2 in Hnw. assert (q = Ok tt) as -> by (unfold noteWrite, gmodify in Hk2; congruence).
    simpl in *. unfold abs. rewrite Hnw, Hc.
    destruct (cat_ok_erase n id (e_cat e) t Hok Et) as [Hs1 Hs2]. split; [done|]. split; [|done].
    rewrite Hs2. by eapply S_delete.
  - pose proof (lt_same _ _ _ _ Hlog) as [Hc _ _ _]. unfold abs. rewrite Hc.
    split; [done|]. split; [by apply S_io|]. intros Hf. by destruct (log_failed_fine _ _ _ Hlog).
Qed.

Lemma reserve_refines n e :
  cat_ok (e_cat e) → room (CReserve n) e → refines_at (CReserve n) e.
Proof.
  intros Hok (_ & Hroom & _). unfold refines_at. simpl. unfold ReserveID.
  destruct (e_tables e !! n) as [t|] eqn:Et.
  2:{ split; [done|]. split; [by apply S_reserve_none, abs_lookup_None|done]. }
  destruct (co_table _ Hok _ _ Et) as (_ & [Hn Hids] & _). specialize (Hroom _ _ Et).
  rewrite wrap64_id by (unfold in_int64, int64_min, int64_max in *; lia).
  destruct (cat_ok_reserve n t (t_nextID t + 1) e) as (_ & Hok1 & Habs1); [done|done|lia|].
  assert (upd_table n (set_nextID (t_nextID t + 1)) e =
          upd_table n (λ _, set_nextID (t_nextID t + 1) t) e) as ->.
  { unfold upd_table, cat_upd. do 2 f_equal. apply map_eq. intros n'.
    destruct (decide (n' = n)) as [->|]; [|by rewrite !lookup_alter_ne].
    unfold e_tables in Et. by rewrite !lookup_alter_eq, Et. }
  split; [done|]. split; [|done]. rewrite Habs1.
  eapply S_reserve; [by apply abs_lookup|lia|]. apply eq_None_not_Some. intros ?%Hids. lia.
Qed.

(** A checkpoint does not touch the tables, whatever fails. *)
Lemma Checkpoint_cat e : e_cat (Checkpoint e).1 = e_cat e.
Proof.
  unfold Checkpoint, gbind, gget, WriteSnapshot, writeManifest, walTruncate, pruneSnapshots, gmodify.
  destruct (next_io e); simpl; try done.
  destruct (next_io _); simpl; try done.
  destruct (log_truncate _ _) as [l [[]|]]; simpl; try done.
  destruct (next_io _); done.
Qed.

Lemma Checkpoint_result e :
  (Checkpoint e).2 = Ok tt ∨ (Checkpoint e).2 = Err ErrIO ∧ ¬ fine e.
Proof.
  unfold Checkpoint, gbind, gget, WriteSnapshot, writeManifest, walTruncate, pruneSnapshots,
    gmodify, log_truncate, fine, next_io, pop_io.
  destruct (e_io e) as [|[] l]; simpl; auto; try (right; split; [done|]; by intros []).
  - destruct (l_stuck (e_wal e)); simpl; auto. right. split; [done|]. by intros [].
  - destruct l as [|[] l]; simpl; auto; try (right; split; [done|]; by intros []).
    + destruct (l_stuck (e_wal e)); simpl; auto. right. split; [done|]. by intros [].
    + destruct (l_stuck (e_wal e)); simpl; [right; split; [done|]; by intros []|].
      destruct l as [|[] l]; simpl; auto; right; (split; [done|]; by intros []).
Qed.

Lemma checkpoint_refines e : cat_ok (e_cat e) → refines_at CCheckpoint e.
Proof.
  intros Hok. unfold refines_at. simpl. unfold gbind.
  pose proof (Checkpoint_cat e) as Hc. pose proof (Checkpoint_result e) as Hr.
  destruct (Checkpoint e) as [e' q]. simpl in *. unfold abs.
  destruct Hr as [->|[-> Hnf]]; simpl; rewrite Hc.
  - split; [done|]. split; [by apply S_checkpoint|done].
  - split; [done|]. split; [by apply S_io|done].
Qed.

Lemma background_refines e : cat_ok (e_cat e) → refines_at CBackground e.
Proof.
  intros Hok. unfold refines_at. simpl. unfold gbind, backgroundCheckpoint.
  pose proof (Checkpoint_cat e) as Hc. destruct (e_checkpointing e); simpl; unfold abs; simpl.
  - rewrite Hc. split; [done|]. split; [by apply S_background|done].
  - split; [done|]. split; [by apply S_background|done].
Qed.


(** A new data directory. *)
Definition no_disk : Disk := MkDisk ∅ None [].
Definition fresh_engine (faults : list io) : Engine :=
  MkEngine empty_cat (MkLog [] 0 false) no_disk 0 0 false faults.

Lemma openLog_fresh faults : openLog no_disk [] faults = Ok (fresh_engine faults).
Proof. done. Qed.

(** The state after a run of commands. *)
Definition run_all (cs : list cmd) (e : Engine) : Engine :=
  foldl (λ e c, (run c e).1) e cs.


(** ** Reads *)
Lemma sorted_rows_spec (m : gmap Z row) :
  StronglySorted Z.lt (sorted_rows m).1 ∧
  (∀ id r, m !! id = Some r ↔ ∃ i, (sorted_rows m).1 !! i = Some id ∧ (sorted_rows m).2 !! i = Some r).
Proof.
  split.
  - simpl. pose proof (sorted_keys_NoDup m) as Hnd.
    induction (sorted_keys_sorted m) as [|k l Hs IH Hf]; [constructor|].
    apply NoDup_cons in Hnd as [Hk Hnd]. constructor; [auto|].
    rewrite Forall_forall in Hf |- *. intros k' Hk'. specialize (Hf _ Hk').
    assert (k ≠ k') by congruence. lia.
  - intros id r. simpl. split.
    + intros Hr. assert (id ∈ sorted_keys m) as [i Hi]%list_elem_of_lookup_1
        by (apply elem_of_sorted_keys; eauto).
      exists i. rewrite list_lookup_fmap, Hi. simpl. by rewrite Hr.
    + intros (i & Hi & Hr). rewrite list_lookup_fmap, Hi in Hr. simpl in Hr. simplify_eq.
      apply list_elem_of_lookup_2, elem_of_sorted_keys in Hi as [r Hr]. by rewrite Hr.
Qed.

(** The three ways to read a table agree with its rows: [AllRows] lists
    every row once by ascending id, [Get] returns exactly those, and on a
    UNIQUE column [UniqueGet] finds the row a scan for the value's key would
    find. *)
Theorem reads_agree (e : Engine) (n : string) (t : Table) :
  cat_ok (e_cat e) → e_tables e !! n = Some t →
  (∃ ids rows, AllRows n e = Ok (ids, rows) ∧ StronglySorted Z.lt ids ∧ length ids = length rows ∧
    ∀ id r, Get n id e = Some r ↔ ∃ i, ids !! i = Some id ∧ rows !! i = Some r) ∧
  (∀ ci v id, ci ∈ uniqCols (t_cols t) → v ≠ VNull →
    UniqueGet n ci v e = Some id ↔
    ∃ r, Get n id e = Some r ∧ key_at r ci = Some (uniqKey v)).
Proof.
  intros Hok Et. split.
  - eexists _, _. unfold AllRows. rewrite Et. split; [done|].
    destruct (sorted_rows_spec (t_rows t)) as [H1 H2]. split; [done|].
    split; [by rewrite length_fmap|]. intros id r. unfold Get. rewrite Et. apply H2.
  - intros ci v id Hci Hv. unfold UniqueGet, Get. rewrite Et. simpl.
    destruct (co_table _ Hok _ _ Et) as ([_ [Hd He]] & _ & _).
    assert (IsNull v = false) as -> by (by destruct v).
    pose proof Hci as [m Hm]%Hd. rewrite Hm. simpl.
    apply (He _ _ _ _ Hm).
Qed.

Definition demo_engine : Engine :=
  run_all [CCreate "users" demo_cols; CPut "users" 0 0 [VNull; VText "a"] false;
           CPut "users" 0 0 [VNull; VText "b"] false] (fresh_engine []).

Lemma fresh_ok faults : cat_ok (e_cat (fresh_engine faults)).
Proof. apply empty_cat_ok. Qed.

(** The steps of a run whose counters have room keep the invariant. *)
Lemma run_cat_ok c e : cat_ok (e_cat e) → room c e → cat_ok (e_cat (run c e).1).
Proof.
  intros Hok Hr. assert (refines_at c e) as H.
  { destruct c; eauto using create_refines, drop_refines, put_refines, delete_refines,
      reserve_refines, checkpoint_refines, background_refines. }
  unfold refines_at in H. destruct (run c e). apply H.
Qed.

(** [room], evaluated. *)
Definition roomb (c : cmd) (e : Engine) : bool :=
  bool_decide (c_nextTableID (e_cat e) + 1 < 2 ^ 32)%Z &&
  forallb (λ nt : string * Table, bool_decide (t_nextID nt.2 < int64_max)%Z)
    (map_to_list (e_tables e)) &&
  match c with CPut _ _ id _ _ => bool_decide (id < int64_max)%Z | _ => true end.

Lemma roomb_room c e : roomb c e = true → room c e.
Proof.
  unfold roomb, room. intros [[H1%bool_decide_eq_true H2]%andb_true_iff H3]%andb_true_iff.
  split; [done|]. split; [|destruct c; try done; by apply bool_decide_eq_true in H3].
  intros n t Hl. rewrite forallb_forall in H2.
  specialize (H2 (n, t)). apply bool_decide_eq_true in H2; [done|].
  by apply list_elem_of_In, elem_of_map_to_list.
Qed.

Fixpoint roomb_all (cs : list cmd) (e : Engine) : bool :=
  match cs with
  | [] => true
  | c :: cs => roomb c e && roomb_all cs (run c e).1
  end.

Lemma run_all_ok cs e : cat_ok (e_cat e) → roomb_all cs e = true → cat_ok (e_cat (run_all cs e)).
Proof.
  revert e. induction cs as [|c cs IH]; intros e Hok Hr; [done|].
  simpl in Hr. apply andb_true_iff in Hr as [H1 H2]. simpl. apply IH; [|done].
  apply run_cat_ok; [done|]. by apply roomb_room.
Qed.

Lemma demo_engine_ok : cat_ok (e_cat demo_engine).
Proof. apply run_all_ok; [apply fresh_ok|by vm_compute]. Qed.

Lemma reads_agree_witness :
  ∃ t, e_tables demo_engine !! "users" = Some t ∧
  (UniqueGet "users" 1 (VText "b") demo_engine = Some 2%Z ↔
   ∃ r, Get "users" 2 demo_engine = Some r ∧ key_at r 1 = Some (uniqKey (VText "b"))).
Proof.
  destruct (e_tables demo_engine !! "users") as [t|] eqn:Et; [|by vm_compute in Et].
  exists t. split; [done|].
  apply (reads_agree demo_engine "users" t demo_engine_ok Et); [|done].
  replace (t_cols t) with demo_cols.
  - apply elem_of_uniqCols. eexists; split; done.
  - assert (Some demo_cols = t_cols <$> e_tables demo_engine !! "users") as H by (by vm_compute).
    rewrite Et in H. by injection H.
Defined.

Global Opaque demo_engine.
