(* ===== verification/Txn.v ===== *)
(** * Explicit transactions (storage/txn.go)

    A transaction buffers its writes and overlays them on the committed state
    when it reads; [Commit] validates the buffer against the current committed
    state, logs it under one commit record and applies it.

    The state is the pair of the transaction and the engine it runs on: a
    buffered write touches the engine only through [ReserveID]. *)
From S2P Require Import Prelude GoStd Types Schema Wal Table Engine.

Open Scope go_scope.

(** ** Data *)
Inductive opKind := opPut | opDelete.
#[global] Instance opKind_eq_dec : EqDecision opKind.
Proof. solve_decision. Defined.

Record op := MkOp { o_kind : opKind; o_name : string; o_rowID : Z; o_row : row }.

Record Txn := MkTxn {
  x_id : Z;
  x_done : bool;
  x_ops : list op;
  x_inserts : gmap string (gset Z) }.

Abbreviation Sess := (Txn * Engine)%type.

(** An index out of range: Go panics. *)
Definition panicIndex : error := Errorf "runtime error: index out of range" [].

(** [e.Begin()] *)
Definition Begin : GoM Engine Txn := λ e,
  let tx := wrapu64 (e_txSeq e + 1) in
  (set_txSeq tx e, Ok (MkTxn tx false [] ∅)).

Definition add_op (o : op) (x : Txn) : Txn :=
  MkTxn (x_id x) (x_done x) (x_ops x ++ [o]) (x_inserts x).

(** Lift an operation of the engine to a session. *)
Definition on_engine {A} (m : GoM Engine A) : GoM Sess A := λ s,
  let '(e', q) := m s.2 in ((s.1, e'), q).
Definition on_txn (f : Txn → Txn) : GoM Sess unit := λ s, ((f s.1, s.2), Ok tt).

Module Tx.

(** ** Reads *)
Definition Catalog (x : Txn) (e : Engine) : list TableDef := Engine.Catalog e.

(** The scan of the buffer from its end. *)
Fixpoint get_rev (name : string) (rowID : Z) (rev_ops : list op) : option (option row) :=
  match rev_ops with
  | [] => None
  | o :: os =>
      if bool_decide (o_name o = name ∧ o_rowID o = rowID) then
        Some match o_kind o with opPut => Some (o_row o) | opDelete => None end
      else get_rev name rowID os
  end.

Definition Get (name : string) (rowID : Z) (x : Txn) (e : Engine) : option row :=
  if x_done x then Engine.Get name rowID e
  else match get_rev name rowID (reverse (x_ops x)) with
       | Some r => r
       | None => Engine.Get name rowID e
       end.

(** The buffer of a table laid over rows, in order. *)
Definition overlay (name : string) (ops : list op) (m : gmap Z row) : gmap Z row :=
  foldl (λ m o,
    if bool_decide (o_name o = name) then
      match o_kind o with
      | opPut => <[o_rowID o := o_row o]> m
      | opDelete => delete (o_rowID o) m
      end
    else m) m ops.

Definition effMapLocked (name : string) (x : Txn) (e : Engine) : res (gmap Z row) :=
  match Engine.AllRows name e with
  | Err err => Err err
  | Ok (cids, grows) => Ok (overlay name (x_ops x) (list_to_map (zip cids grows)))
  end.

Definition effRowsLocked (name : string) (x : Txn) (e : Engine) : res (list Z * list row) :=
  sorted_rows <$> effMapLocked name x e.

Definition AllRows (name : string) (x : Txn) (e : Engine) : res (list Z * list row) :=
  if x_done x then Engine.AllRows name e else effRowsLocked name x e.

Definition UniqueGet (name : string) (colIdx : nat) (v : Value) (x : Txn) (e : Engine) :
    option Z :=
  if IsNull v then None
  else if negb (x_done x) then
    match effRowsLocked name x e with
    | Err _ => None
    | Ok (ids, rows) =>
        fst <$> find (λ ir : Z * row, match ir.2 !! colIdx with
                                 | Some w => bool_decide (uniqKey w = uniqKey v)
                                 | None => false
                                 end) (zip ids rows)
    end
  else Engine.UniqueGet name colIdx v e.

(** ** Writes *)
Definition tableDef (name : string) (e : Engine) : res TableDef :=
  res_of_option ErrNoTable
    (find (λ d, bool_decide (td_Name d = name)) (Engine.Catalog e)).

(** The inner loop of [checkUnique]: another row with the key [k]. *)
Definition key_taken (ci : nat) (selfID : Z) (k : string) (eff : gmap Z row) : bool :=
  existsb (λ ir : Z * row,
    if bool_decide (ir.1 = selfID) then false
    else match ir.2 !! ci with
         | Some w => bool_decide (uniqKey w = k)
         | None => false
         end) (map_to_list eff).

Fixpoint checkUniqueFrom (ci : nat) (cols : list Column) (selfID : Z) (r : row)
    (eff : gmap Z row) : res unit :=
  match cols with
  | [] => Ok tt
  | c :: cols =>
      if negb (Unique c) then checkUniqueFrom (S ci) cols selfID r eff
      else match r !! ci with
           | None => Err panicIndex
           | Some v =>
               if IsNull v then checkUniqueFrom (S ci) cols selfID r eff
               else if key_taken ci selfID (uniqKey v) eff then Err ErrUnique
               else checkUniqueFrom (S ci) cols selfID r eff
           end
  end.
Definition checkUnique (def : TableDef) (selfID : Z) (r : row) (eff : gmap Z row) : res unit :=
  checkUniqueFrom 0 (td_Cols def) selfID r eff.

Definition noteInsert (name : string) (rowID : Z) (x : Txn) : Txn :=
  MkTxn (x_id x) (x_done x) (x_ops x)
    (<[name := {[rowID]} ∪ default ∅ (x_inserts x !! name)]> (x_inserts x)).

Definition lengthError (r : row) (name : string) (def : TableDef) : error :=
  Errorf "tsql: row has %d values, table %s has %d columns"
    [AInt (Z.of_nat (length r)); AStr name; AInt (Z.of_nat (length (td_Cols def)))].

(** The common start of the writes: the definition and the effective rows. *)
Definition prepare (name : string) (r : row) : GoM Sess (TableDef * gmap Z row) :=
  s <-- gget ;;
  glift (guard_err (x_done s.1) ErrTxnDone) ;;;
  def <-- glift (tableDef name s.2) ;;
  glift (guard_err (bool_decide (length r ≠ length (td_Cols def))) (lengthError r name def)) ;;;
  eff <-- glift (effMapLocked name s.1 s.2) ;;
  gret (def, eff).

(** The common end of [Put] and [PutAuto]. *)
Definition insertRow (name : string) (def : TableDef) (eff : gmap Z row) (rowID : Z) (r : row) :
    GoM Sess Z :=
  glift (checkUnique def rowID r eff) ;;;
  on_txn (noteInsert name rowID) ;;;
  on_txn (add_op (MkOp opPut name rowID r)) ;;;
  gret rowID.

Definition Put (name : string) (rowID : Z) (r : row) : GoM Sess Z :=
  de <-- prepare name r ;;
  rowID <-- (if bool_decide (rowID = 0)%Z then on_engine (ReserveID name) else gret rowID) ;;
  glift (guard_err (bool_decide (is_Some (de.2 !! rowID))) ErrExists) ;;;
  insertRow name de.1 de.2 rowID r.

Definition PutAuto (name : string) (pkIdx : Z) (r : row) : GoM Sess Z :=
  de <-- prepare name r ;;
  rowID <-- on_engine (ReserveID name) ;;
  glift (guard_err (bool_decide (is_Some (de.2 !! rowID))) ErrExists) ;;;
  glift (guard_err (negb (bool_decide (0 ≤ pkIdx < Z.of_nat (length r))%Z)) panicIndex) ;;;
  insertRow name de.1 de.2 rowID (stamp pkIdx rowID r).

Definition Update (name : string) (rowID : Z) (r : row) : GoM Sess unit :=
  de <-- prepare name r ;;
  glift (guard_err (negb (bool_decide (is_Some (de.2 !! rowID)))) ErrNoRow) ;;;
  glift (checkUnique de.1 rowID r de.2) ;;;
  on_txn (add_op (MkOp opPut name rowID r)).

Definition Delete (name : string) (rowID : Z) : GoM Sess unit :=
  s <-- gget ;;
  glift (guard_err (x_done s.1) ErrTxnDone) ;;;
  glift (tableDef name s.2) ;;;
  eff <-- glift (effMapLocked name s.1 s.2) ;;
  glift (guard_err (negb (bool_decide (is_Some (eff !! rowID)))) ErrNoRow) ;;;
  on_txn (add_op (MkOp opDelete name rowID [])).

(** ** Lifecycle *)

(** The definitions of the tables the buffer names, in the order of their
    first operation; the first missing one is the error. *)
Definition touched (x : Txn) : list string := remove_dups (o_name <$> x_ops x).

Fixpoint lookupDefs (names : list string) (e : Engine) : res (list TableDef) :=
  match names with
  | [] => Ok []
  | n :: ns => def ← tableDef n e; defs ← lookupDefs ns e; Ok (def :: defs)
  end.

(** All buffered puts of one table against the effective rows. *)
Definition validateTable (def : TableDef) (name : string) (x : Txn) (e : Engine) : res unit :=
  eff ← effMapLocked name x e;
  res_foreach (λ o, checkUnique def (o_rowID o) (o_row o) eff)
    (filter (λ o, o_name o = name ∧ o_kind o = opPut) (x_ops x)).

(** Go ranges over the tables of the buffer and over the noted inserts in an
    unspecified order; every failure but a panic is [ErrUnique]. *)
Definition validateCommit (x : Txn) (e : Engine) : res unit :=
  defs ← lookupDefs (touched x) e;
  _ ← res_foreach (λ dn : TableDef * string, validateTable dn.1 dn.2 x e) (zip defs (touched x));
  guard_err (existsb (λ nm : string * gset Z,
               existsb (λ id, bool_decide (is_Some (Engine.Get nm.1 id e))) (elements nm.2))
               (map_to_list (x_inserts x))) ErrUnique.

Definition opRecord (id : Z) (e : Engine) (o : op) : res WalRecord :=
  match TableID (o_name o) e with
  | None => Err (Errorf "tsql: table %q vanished before commit" [AStr (o_name o)])
  | Some tid =>
      Ok match o_kind o with
         | opPut => mk_put id tid (o_rowID o) (o_row o)
         | opDelete => mk_delete id tid (o_rowID o)
         end
  end.

Fixpoint opRecords (id : Z) (e : Engine) (ops : list op) : res (list WalRecord) :=
  match ops with
  | [] => Ok []
  | o :: os => r ← opRecord id e o; rs ← opRecords id e os; Ok (r :: rs)
  end.

Definition applyOp (o : op) : GoM Engine unit :=
  match o_kind o with
  | opPut => applyPut (o_name o) (o_rowID o) (o_row o)
  | opDelete => applyDelete (o_name o) (o_rowID o)
  end.

Definition commitTxn (id : Z) (ops : list op) : GoM Engine unit :=
  e <-- gget ;;
  recs <-- glift (opRecords id e ops) ;;
  logAll (((λ r, (r, false)) <$> recs) ++ [(mk_commit id, true)]) ;;;
  gforeach applyOp ops ;;;
  noteWrite.

Definition finish (x : Txn) : Txn := MkTxn (x_id x) true [] (x_inserts x).

Definition Commit : GoM Sess unit :=
  s <-- gget ;;
  if x_done s.1 then gret tt else
  glift (validateCommit s.1 s.2) ;;;
  on_txn finish ;;;
  if bool_decide (x_ops s.1 = []) then gret tt
  else on_engine (commitTxn (x_id s.1) (x_ops s.1)).

Definition Rollback : GoM Sess unit :=
  s <-- gget ;;
  if x_done s.1 then gret tt else on_txn finish.

End Tx.

(** ** The reads of a transaction *)
Lemma sorted_rows_map (m : gmap Z row) :
  list_to_map (zip (sorted_rows m).1 (sorted_rows m).2) = m.
Proof.
  unfold sorted_rows. cbn [fst snd]. set (ks := sorted_keys m).
  assert (zip ks ((λ id, default [] (m !! id)) <$> ks) =
          (λ id, (id, default [] (m !! id))) <$> ks) as ->.
  { induction ks as [|k ks IH]; [done|]. simpl. f_equal. apply IH. }
  apply map_eq. intros id. destruct (m !! id) as [r|] eqn:Er.
  - apply elem_of_list_to_map_1.
    + rewrite <-list_fmap_compose. simpl. rewrite list_fmap_id. apply sorted_keys_NoDup.
    + apply list_elem_of_fmap. exists id. rewrite Er. split; [done|].
      apply elem_of_sorted_keys. eauto.
  - apply not_elem_of_list_to_map_1. rewrite <-list_fmap_compose. simpl. rewrite list_fmap_id.
    unfold ks. rewrite elem_of_sorted_keys, Er. by intros [? ?].
Qed.

Lemma effMap_spec n x e :
  Tx.effMapLocked n x e =
    match e_tables e !! n with
    | Some t => Ok (Tx.overlay n (x_ops x) (t_rows t))
    | None => Err ErrNoTable
    end.
Proof.
  unfold Tx.effMapLocked, AllRows. destruct (e_tables e !! n) as [t|]; [|done].
  pose proof (sorted_rows_map (t_rows t)) as H. destruct (sorted_rows (t_rows t)) as [ids rows].
  simpl in H. by rewrite H.
Qed.

Lemma overlay_app n ops1 ops2 m :
  Tx.overlay n (ops1 ++ ops2) m = Tx.overlay n ops2 (Tx.overlay n ops1 m).
Proof. unfold Tx.overlay. apply foldl_app. Qed.

(** One more buffered operation. *)
Definition overlay_op (n : string) (o : op) (m : gmap Z row) : gmap Z row :=
  if bool_decide (o_name o = n) then
    match o_kind o with
    | opPut => <[o_rowID o := o_row o]> m
    | opDelete => delete (o_rowID o) m
    end
  else m.

Lemma overlay_snoc n ops o m : Tx.overlay n (ops ++ [o]) m = overlay_op n o (Tx.overlay n ops m).
Proof. apply overlay_app. Qed.

(** Reading the buffer backwards finds what laying it over the rows gives. *)
Lemma overlay_get n id ops m :
  Tx.overlay n ops m !! id =
    match Tx.get_rev n id (reverse ops) with Some r => r | None => m !! id end.
Proof.
  induction ops as [|o ops IH] using rev_ind; [done|].
  rewrite overlay_snoc, reverse_snoc. unfold overlay_op. simpl.
  destruct (decide (o_name o = n)) as [Hn|Hn].
  - rewrite bool_decide_eq_true_2 by done.
    destruct (decide (o_rowID o = id)) as [Hid|Hid].
    + rewrite bool_decide_eq_true_2 by done. destruct (o_kind o); subst.
      * by rewrite lookup_insert_eq.
      * by rewrite lookup_delete_eq.
    + rewrite bool_decide_eq_false_2 by tauto. destruct (o_kind o).
      * by rewrite lookup_insert_ne.
      * by rewrite lookup_delete_ne.
  - rewrite bool_decide_eq_false_2 by done. by rewrite bool_decide_eq_false_2 by tauto.
Qed.

Lemma tableDef_spec n e :
  cat_ok (e_cat e) →
  Tx.tableDef n e =
    match e_tables e !! n with Some t => Ok (table_def t) | None => Err ErrNoTable end.
Proof.
  intros Hok. unfold Tx.tableDef, Catalog, catalogLocked.
  assert (∀ d, d ∈ merge_sort def_le (table_def <$> (map_to_list (c_tables (e_cat e))).*2) ↔
      ∃ t, e_tables e !! td_Name d = Some t ∧ d = table_def t) as Hin.
  { intros d. rewrite merge_sort_Permutation, list_elem_of_fmap. split.
    - intros (t & -> & ([n' t'] & -> & Hl)%list_elem_of_fmap).
      apply elem_of_map_to_list in Hl. exists t'. simpl.
      rewrite (co_name _ Hok _ _ Hl). done.
    - intros (t & Hl & ->). exists t. split; [done|]. apply list_elem_of_fmap.
      exists (t_name t, t). split; [done|]. by apply elem_of_map_to_list. }
  destruct (find _ _) as [d|] eqn:Ef; simpl.
  - apply find_some in Ef as [Hd%list_elem_of_In Hn%bool_decide_eq_true].
    apply Hin in Hd as (t & Hl & ->). subst n. by rewrite Hl.
  - destruct (e_tables e !! n) as [t|] eqn:Et; [|done].
    pose proof (find_none _ _ Ef (table_def t)) as Hf.
    apply bool_decide_eq_false in Hf; [by destruct Hf; apply (co_name _ Hok)|].
    apply list_elem_of_In, Hin. exists t. simpl. by rewrite (co_name _ Hok _ _ Et).
Qed.

(** ** The scan of [checkUnique] *)
Lemma key_taken_iff ci id k (eff : gmap Z row) v :
  v ≠ VNull → k = uniqKey v →
  Tx.key_taken ci id k eff = true ↔
  ∃ id' r', id' ≠ id ∧ eff !! id' = Some r' ∧ key_at r' ci = Some k.
Proof.
  intros Hv ->. unfold Tx.key_taken. rewrite existsb_exists. split.
  - intros ([id' r'] & Hin%list_elem_of_In%elem_of_map_to_list & Hb). simpl in Hb.
    case_bool_decide as Hne; [done|]. destruct (r' !! ci) as [w|] eqn:Hw; [|done].
    apply bool_decide_eq_true in Hb. exists id', r'. split; [done|]. split; [done|].
    assert (IsNull w = false) as Hn
      by (apply uniqKey_kind in Hb; by destruct v, w).
    unfold key_at. by rewrite Hw, Hn, Hb.
  - intros (id' & r' & Hne & Hl & Hk). exists (id', r').
    split; [by apply list_elem_of_In, elem_of_map_to_list|]. simpl.
    rewrite bool_decide_eq_false_2 by done. unfold key_at in Hk.
    destruct (r' !! ci) as [w|]; [|done]. destruct (IsNull w); [done|].
    injection Hk as Hk. by apply bool_decide_eq_true.
Qed.

Lemma checkUniqueFrom_spec i pre cols id r eff :
  length pre = i → length r = length (pre ++ cols) →
  (Tx.checkUniqueFrom i cols id r eff = Ok tt ∨ Tx.checkUniqueFrom i cols id r eff = Err ErrUnique) ∧
  (Tx.checkUniqueFrom i cols id r eff = Ok tt ↔
   ∀ ci id' r' k, i ≤ ci → ci ∈ uniqCols (pre ++ cols) → eff !! id' = Some r' →
     key_at r ci = Some k → key_at r' ci = Some k → id' = id).
Proof.
  revert i pre. induction cols as [|c cols IH]; intros i pre Hi Hlen; simpl.
  { split; [auto|]. split; [|done]. intros _ ci id' r' k Hle Hci.
    apply elem_of_uniqCols in Hci as (c & Hc & _). apply lookup_lt_Some in Hc.
    rewrite app_nil_r in Hc. lia. }
  assert (pre ++ c :: cols = (pre ++ [c]) ++ cols) as Happ by (by rewrite <-app_assoc).
  assert ((pre ++ c :: cols) !! i = Some c) as Hc
    by (rewrite lookup_app_r by lia; by replace (i - length pre) with 0 by lia).
  destruct (IH (S i) (pre ++ [c])) as [Hres Hiff];
    [rewrite length_app; simpl; lia|by rewrite <-Happ|]. rewrite <-Happ in Hiff.
  assert (i ∈ uniqCols (pre ++ c :: cols) ↔ Unique c = true) as Hu
    by (rewrite elem_of_uniqCols; naive_solver).
  set (Q := λ ci, ∀ id' r' k, eff !! id' = Some r' →
     key_at r ci = Some k → key_at r' ci = Some k → id' = id).
  assert ((∀ ci id' r' k, i ≤ ci → ci ∈ uniqCols (pre ++ c :: cols) → eff !! id' = Some r' →
     key_at r ci = Some k → key_at r' ci = Some k → id' = id) ↔
     (Unique c = true → Q i) ∧ Tx.checkUniqueFrom (S i) cols id r eff = Ok tt) as ->.
  { rewrite Hiff, <-Hu. split.
    - intros H. split; [intros Hci id' r' k; by apply H|].
      intros ci id' r' k Hle. apply H. lia.
    - intros [H1 H2] ci id' r' k Hle Hci.
      destruct (decide (ci = i)) as [->|]; [by apply H1|]. apply H2; [lia|done]. }
  destruct (Unique c); simpl; [|naive_solver].
  destruct (lookup_lt_is_Some_2 r i) as [v Hv]; [rewrite Hlen, length_app; simpl; lia|]. rewrite Hv.
  assert (key_at r i = if IsNull v then None else Some (uniqKey v)) as Hk
    by (unfold key_at; by rewrite Hv).
  destruct (IsNull v) eqn:En.
  { split; [done|]. split; [|naive_solver]. intros H. split; [|done].
    intros _ id' r' k _. by rewrite Hk. }
  assert (v ≠ VNull) by (by destruct v).
  pose proof (key_taken_iff i id (uniqKey v) eff v) as Htk.
  destruct (Tx.key_taken i id (uniqKey v) eff) eqn:Et.
  - split; [auto|]. split; [done|]. intros [HQ _]. destruct Htk as [Htk _]; [done|done|].
    destruct Htk as (id' & r' & Hne & Hl & Hk'); [done|]. by destruct Hne; eapply (HQ eq_refl).
  - split; [done|]. split; [|naive_solver]. intros H'. split; [|done]. intros _ id' r' k Hl Hk1 Hk2.
    apply dec_stable. intros Hne. enough (false = true) by done. apply Htk; [done|done|].
    exists id', r'. rewrite Hk in Hk1. by simplify_eq.
Qed.

Lemma checkUnique_spec def id r eff :
  length r = length (td_Cols def) →
  (Tx.checkUnique def id r eff = Ok tt ∧ no_conflict (td_Cols def) eff id r) ∨
  (Tx.checkUnique def id r eff = Err ErrUnique ∧ ¬ no_conflict (td_Cols def) eff id r).
Proof.
  intros Hl. destruct (checkUniqueFrom_spec 0 [] (td_Cols def) id r eff) as [Hr Hi]; [done|done|].
  unfold Tx.checkUnique. simpl in Hi.
  destruct Hr as [Hr|Hr]; rewrite Hr in *; [left|right]; (split; [done|]).
  - intros ci id' r' k. apply Hi; [done|lia].
  - intros Hnc. enough (Err ErrUnique = Ok tt) by done. apply Hi. intros ci id' r' k _. apply Hnc.
Qed.

(** ** What a transaction sees

    Its view of the database: the committed rows with its buffer on top. *)
Definition view_cat (ops : list op) (c : Cat) : Db :=
  map_imap (λ n t, Some (t_cols t, Tx.overlay n ops (t_rows t))) (c_tables c).
Definition view (s : Sess) : Db := view_cat (x_ops s.1) (e_cat s.2).

(** The buffered rows have the shape of their table and an id in range. *)
Definition op_ok (e : Engine) (o : op) : Prop :=
  o_kind o = opPut →
  (0 < o_rowID o < int64_max)%Z ∧
  ∀ t, e_tables e !! o_name o = Some t → length (o_row o) = length (t_cols t).

Record txn_ok (s : Sess) : Prop := {
  to_cat : cat_ok (e_cat s.2);
  to_ops : Forall (op_ok s.2) (x_ops s.1) }.

Lemma view_lookup s n :
  view s !! n = (λ t, (t_cols t, Tx.overlay n (x_ops s.1) (t_rows t))) <$> e_tables s.2 !! n.
Proof. unfold view, view_cat, e_tables. rewrite map_lookup_imap. by destruct (_ !! n). Qed.

Lemma view_nil x e : x_ops x = [] → view (x, e) = abs e.
Proof.
  intros Hx. apply map_eq. intros n. rewrite view_lookup. unfold abs, abs_cat. simpl. rewrite Hx.
  by rewrite lookup_fmap.
Qed.

(** A buffered operation acts on the view as on a database. *)
Definition db_op (o : op) (d : Db) : Db :=
  alter (λ cr : list Column * gmap Z row, (cr.1, overlay_op (o_name o) o cr.2)) (o_name o) d.

Lemma view_add_op o x e : view (add_op o x, e) = db_op o (view (x, e)).
Proof.
  apply map_eq. intros n. unfold db_op. rewrite view_lookup. simpl.
  destruct (decide (n = o_name o)) as [->|Hn].
  - rewrite lookup_alter_eq, view_lookup. simpl.
    destruct (e_tables e !! o_name o); simpl; [|done]. by rewrite overlay_snoc.
  - rewrite lookup_alter_ne, view_lookup by done. simpl.
    destruct (e_tables e !! n); simpl; [|done]. rewrite overlay_snoc. unfold overlay_op.
    by rewrite bool_decide_eq_false_2 by done.
Qed.

Lemma db_op_put n id r d cols rows :
  d !! n = Some (cols, rows) →
  db_op (MkOp opPut n id r) d = <[n := (cols, <[id := r]> rows)]> d.
Proof.
  intros Hd. unfold db_op. simpl. apply map_eq. intros n'.
  destruct (decide (n' = n)) as [->|].
  - rewrite lookup_alter_eq, lookup_insert_eq, Hd. simpl. unfold overlay_op. simpl.
    by rewrite bool_decide_eq_true_2.
  - by rewrite lookup_alter_ne, lookup_insert_ne.
Qed.

Lemma db_op_delete n id d cols rows :
  d !! n = Some (cols, rows) →
  db_op (MkOp opDelete n id []) d = <[n := (cols, delete id rows)]> d.
Proof.
  intros Hd. unfold db_op. simpl. apply map_eq. intros n'.
  destruct (decide (n' = n)) as [->|].
  - rewrite lookup_alter_eq, lookup_insert_eq, Hd. simpl. unfold overlay_op. simpl.
    by rewrite bool_decide_eq_true_2.
  - by rewrite lookup_alter_ne, lookup_insert_ne.
Qed.

Lemma prepare_spec n r x e :
  cat_ok (e_cat e) → x_done x = false →
  Tx.prepare n r (x, e) = ((x, e),
    match e_tables e !! n with
    | None => Err ErrNoTable
    | Some t =>
        if bool_decide (length r ≠ length (t_cols t)) then Err (Tx.lengthError r n (table_def t))
        else Ok (table_def t, Tx.overlay n (x_ops x) (t_rows t))
    end).
Proof.
  intros Hok Hx. unfold Tx.prepare, gbind, gget, glift, gret. simpl. rewrite Hx. simpl.
  rewrite tableDef_spec, effMap_spec by done. destruct (e_tables e !! n) as [t|]; [|done].
  simpl. by destruct (bool_decide (length r ≠ length (t_cols t))).
Qed.

(** Reserving an id does not change what the session sees. *)
Lemma reserve_session n t x e :
  txn_ok (x, e) → e_tables e !! n = Some t → (t_nextID t < int64_max)%Z →
  ∃ e', on_engine (ReserveID n) (x, e) = ((x, e'), Ok (t_nextID t)) ∧
    (∃ t', e_tables e' !! n = Some t' ∧ t_cols t' = t_cols t) ∧
    txn_ok (x, e') ∧ view (x, e') = view (x, e) ∧ abs e' = abs e ∧
    (0 < t_nextID t < int64_max)%Z ∧ e_wal e' = e_wal e ∧ e_txSeq e' = e_txSeq e.
Proof.
  intros [Hok Hops] Et Hlt. unfold on_engine, ReserveID. simpl in *. rewrite Et.
  destruct (co_table _ Hok _ _ Et) as (Htok & [Hn Hids] & Hv).
  rewrite wrap64_id by (unfold in_int64, int64_min, int64_max in *; lia).
  set (e' := upd_table n (set_nextID (t_nextID t + 1)) e).
  assert (∀ n', e_tables e' !! n' = (λ t, if decide (n' = n) then set_nextID (t_nextID t + 1) t else t)
      <$> e_tables e !! n') as Hlk.
  { intros n'. unfold e', e_tables, upd_table. simpl. unfold e_tables in Et.
    destruct (decide (n' = n)) as [->|].
    - by rewrite lookup_alter_eq, Et.
    - rewrite lookup_alter_ne by done. by destruct (c_tables (e_cat e) !! n'). }
  assert (∀ n', (λ t, (t_cols t, t_rows t)) <$> e_tables e' !! n' =
                (λ t, (t_cols t, t_rows t)) <$> e_tables e !! n') as Hsame.
  { intros n'. rewrite Hlk. destruct (e_tables e !! n'); [|done]. simpl. by case_decide. }
  exists e'. split; [done|]. split.
  { rewrite Hlk, Et. simpl. rewrite decide_True by done. eauto. }
  split; [split; simpl|split; [|split; [|split; [lia|done]]]].
  - apply cat_upd_ok; [done|]. intros t' Ht'. assert (t' = t) as -> by (unfold e_tables in Et; congruence).
    split; [by apply table_ok_set_nextID|]. split; [|done].
    split; simpl; [lia|]. intros i Hi%Hids. lia.
  - eapply Forall_impl; [done|]. intros o Ho Hp. destruct (Ho Hp) as [? Hl]. split; [done|].
    intros t' Ht'. rewrite Hlk in Ht'. apply fmap_Some in Ht' as (t0 & Ht0 & ->).
    case_decide; simpl; eauto.
  - apply map_eq. intros n'. rewrite !view_lookup. simpl. specialize (Hsame n').
    destruct (e_tables e' !! n'), (e_tables e !! n'); simpl in *; congruence.
  - apply map_eq. intros n'. unfold abs, abs_cat. rewrite !lookup_fmap. apply (Hsame n').
Qed.

(** ** The writes of a transaction

    What both kinds of access to the tables promise: the steps of the abstract
    database, except that an automatic id may turn out to be taken. *)
Definition acc_step (c : cmd) (d : Db) (q : res Z) (d' : Db) : Prop :=
  db_step c d q d' ∨ ∃ n pk r, c = CPut n pk 0 r false ∧ q = Err ErrExists ∧ d' = d.

(** The shared state after a buffered write: nothing of it shows. *)
Record hidden (s s' : Sess) : Prop := {
  hd_abs : abs s'.2 = abs s.2;
  hd_wal : e_wal s'.2 = e_wal s.2;
  hd_done : x_done s'.1 = x_done s.1;
  hd_id : x_id s'.1 = x_id s.1 }.

(** One write [c] of an active transaction, run by [m]. *)
Definition writes_as {A} (c : cmd) (m : GoM Sess A) (f : A → Z) (s : Sess) : Prop :=
  txn_ok (m s).1 ∧ hidden s (m s).1 ∧ acc_step c (view s) (f <$> (m s).2) (view (m s).1).

Definition session_room (s : Sess) : Prop :=
  ∀ n t, e_tables s.2 !! n = Some t → (t_nextID t < int64_max)%Z.

Lemma op_ok_snoc x e o : txn_ok (x, e) → op_ok e o → txn_ok (add_op o x, e).
Proof. intros [Hok Hops] Ho. split; [done|]. simpl. apply Forall_app. auto. Qed.

Lemma insertRow_spec n t t0 id r x e pk id0 :
  txn_ok (x, e) → e_tables e !! n = Some t → t_cols t = t_cols t0 →
  length r = length (t_cols t0) → (0 < id < int64_max)%Z →
  let eff := Tx.overlay n (x_ops x) (t_rows t0) in
  view (x, e) !! n = Some (t_cols t0, eff) → target eff id0 false id →
  writes_as (CPut n pk id0 r false) (Tx.insertRow n (table_def t0) eff id (stamp pk id r))
    (λ z, z) (x, e).
Proof.
  intros Hok Et Hc Hl Hid eff Hv Htg.
  assert (length (stamp pk id r) = length (t_cols t0)) as Hl' by (by rewrite length_stamp).
  unfold writes_as, Tx.insertRow, gbind, glift, on_txn, gret.
  destruct (checkUnique_spec (table_def t0) id (stamp pk id r) eff Hl') as [[Hu Hnc]|[Hu Hnc]];
    rewrite Hu; simpl.
  - split; [|split; [done|]].
    + apply (op_ok_snoc (Tx.noteInsert n id x)); [by destruct Hok|]. intros _. simpl.
      split; [done|]. intros t' Ht'. rewrite Et in Ht'. injection Ht' as <-. congruence.
    + left. change (view (add_op (MkOp opPut n id (stamp pk id r)) (Tx.noteInsert n id x), e))
        with (view (add_op (MkOp opPut n id (stamp pk id r)) x, e)).
      rewrite view_add_op, (db_op_put _ _ _ _ _ _ Hv). by apply S_put.
  - split; [done|]. split; [done|]. left. by eapply S_put_unique.
Qed.

Lemma writes_as_id (c : cmd) (m : GoM Sess Z) s s' q :
  m s = (s', q) → txn_ok s' → hidden s s' → acc_step c (view s) q (view s') →
  writes_as c m (λ z, z) s.
Proof. intros Hm ???. unfold writes_as. rewrite Hm. simpl. by destruct q. Qed.

(** A write that fails before it touches anything. *)
Lemma prepare_fails {A} n pk id0 r must x e (k : TableDef * gmap Z row → GoM Sess A) (f : A → Z) :
  txn_ok (x, e) → x_done x = false →
  (∀ t, e_tables e !! n = Some t → length r = length (t_cols t) →
     writes_as (CPut n pk id0 r must)
       (k (table_def t, Tx.overlay n (x_ops x) (t_rows t))) f (x, e)) →
  writes_as (CPut n pk id0 r must) (gbind (Tx.prepare n r) k) f (x, e).
Proof.
  intros Hok Hx Hk. pose proof (to_cat _ Hok) as Hcat. unfold writes_as, gbind.
  rewrite prepare_spec by done.
  pose proof (view_lookup (x, e) n) as Hv. simpl in Hv.
  destruct (e_tables e !! n) as [t|] eqn:Et; simpl.
  - case_bool_decide as Hl; simpl.
    + split; [done|]. split; [done|]. left. unfold Tx.lengthError. eapply S_put_len; [apply Hv|done].
    + by apply Hk.
  - split; [done|]. split; [done|]. left. by apply S_put_none.
Qed.

Lemma Tx_PutAuto_writes n pk r x e :
  txn_ok (x, e) → x_done x = false → session_room (x, e) →
  (0 ≤ pk < Z.of_nat (length r))%Z →
  writes_as (CPut n pk 0 r false) (Tx.PutAuto n pk r) (λ z, z) (x, e).
Proof.
  intros Hok Hx Hroom Hpk. apply prepare_fails; [done|done|]. intros t Et Hl. simpl.
  destruct (reserve_session n t x e) as (e' & Hres & (t' & Et' & Hc') & Hok' & Hv' & Ha' & Hid & Hw & _);
    [done|done|by eapply Hroom|].
  unfold writes_as, gbind. rewrite Hres. unfold glift. simpl.
  case_bool_decide as Hex; simpl.
  { split; [done|]. split; [by split|]. rewrite Hv'. right. eauto 10. }
  rewrite bool_decide_eq_true_2 by done. simpl.
  apply eq_None_not_Some in Hex.
  destruct (insertRow_spec n t' t (t_nextID t) r x e' pk 0) as (H1 & H2 & H3); try done.
  - rewrite Hv', view_lookup. simpl. by rewrite Et.
  - split; [lia|]. left. done.
  - split; [done|]. rewrite Hv' in H3. split; [|done].
    destruct H2. split; simpl in *; congruence.
Qed.

Lemma Tx_Put_writes n id r x e :
  txn_ok (x, e) → x_done x = false → session_room (x, e) → (0 ≤ id < int64_max)%Z →
  writes_as (CPut n (-1) id r false) (Tx.Put n id r) (λ z, z) (x, e).
Proof.
  intros Hok Hx Hroom Hid0. apply prepare_fails; [done|done|]. intros t Et Hl. simpl.
  set (eff := Tx.overlay n (x_ops x) (t_rows t)).
  assert (∀ id, stamp (-1) id r = r) as Hst by done.
  case_bool_decide as H0.
  - subst id.
    destruct (reserve_session n t x e) as (e' & Hres & (t' & Et' & Hc') & Hok' & Hv' & Ha' & Hid & Hw & _);
      [done|done|by eapply Hroom|].
    unfold writes_as, gbind. rewrite Hres. unfold glift. simpl.
    case_bool_decide as Hex; simpl.
    { split; [done|]. split; [by split|]. rewrite Hv'. right. eauto 10. }
    apply eq_None_not_Some in Hex.
    destruct (insertRow_spec n t' t (t_nextID t) r x e' (-1) 0) as (H1 & H2 & H3); try done.
    + rewrite Hv', view_lookup. simpl. by rewrite Et.
    + split; [lia|]. left. done.
    + rewrite Hst in H1, H2, H3. fold eff in H1, H2, H3. split; [done|].
      rewrite Hv' in H3. split; [|done]. destruct H2. split; simpl in *; congruence.
  - assert (view (x, e) !! n = Some (t_cols t, eff)) as Hv by (rewrite view_lookup; simpl; by rewrite Et).
    unfold writes_as, gbind, gret, glift. simpl.
    case_bool_decide as Hex; simpl.
    { split; [done|]. split; [done|]. left. eapply S_put_exists; [done|lia|done]. }
    rewrite <-(Hst id) at 1 2 3. apply (insertRow_spec n t t id r x e (-1) id); try done; [lia|].
    split; [lia|]. right. naive_solver.
Qed.

Lemma Tx_Update_writes n id r x e :
  txn_ok (x, e) → x_done x = false → (0 < id < int64_max)%Z →
  writes_as (CPut n (-1) id r true) (Tx.Update n id r) (λ _, id) (x, e).
Proof.
  intros Hok Hx Hid. apply prepare_fails; [done|done|]. intros t Et Hl. simpl.
  set (eff := Tx.overlay n (x_ops x) (t_rows t)).
  assert (view (x, e) !! n = Some (t_cols t, eff)) as Hv by (rewrite view_lookup; simpl; by rewrite Et).
  assert (stamp (-1) id r = r) as Hst by done.
  unfold writes_as, gbind, glift, on_txn. simpl.
  case_bool_decide as Hex; simpl.
  2:{ split; [done|]. split; [done|]. left. eapply S_put_norow; [done|lia|].
      by apply eq_None_not_Some. }
  destruct (checkUnique_spec (table_def t) id r eff Hl) as [[Hu Hnc]|[Hu Hnc]]; rewrite Hu; simpl.
  - split; [apply op_ok_snoc; [done|]|split; [done|]].
    + intros _. split; [done|]. simpl. intros t' Ht'. congruence.
    + left. rewrite view_add_op, (db_op_put _ _ _ _ _ _ Hv).
      rewrite <-Hst at 2. apply S_put; try done. split; [lia|]. right. naive_solver lia.
  - split; [done|]. split; [done|]. left. eapply S_put_unique; [done| |by rewrite Hst].
    split; [lia|]. right. naive_solver lia.
Qed.

Lemma Tx_Delete_writes n id x e :
  txn_ok (x, e) → x_done x = false →
  writes_as (CDelete n id) (Tx.Delete n id) (λ _, 0%Z) (x, e).
Proof.
  intros Hok Hx. pose proof (to_cat _ Hok) as Hcat.
  unfold writes_as, Tx.Delete, gbind, gget, glift, on_txn. simpl. rewrite Hx. simpl.
  rewrite tableDef_spec, effMap_spec by done.
  pose proof (view_lookup (x, e) n) as Hv. simpl in Hv.
  destruct (e_tables e !! n) as [t|] eqn:Et; simpl.
  2:{ split; [done|]. split; [done|]. left. by apply S_delete_none. }
  case_bool_decide as Hex; simpl.
  - split; [apply op_ok_snoc; [done|]; by intros [=]|]. split; [done|]. left.
    rewrite view_add_op, (db_op_delete _ _ _ _ _ Hv). by apply S_delete.
  - split; [done|]. split; [done|]. left. eapply S_delete_norow; [apply Hv|].
    by apply eq_None_not_Some.
Qed.

(** ** What a transaction reads *)
Lemma find_zip_sorted (m : gmap Z row) (P : row → bool) id :
  fst <$> find (λ ir : Z * row, P ir.2) (zip (sorted_rows m).1 (sorted_rows m).2) = Some id →
  ∃ r, m !! id = Some r ∧ P r = true.
Proof.
  intros ([id' r] & Hf & ->)%fmap_Some. apply find_some in Hf as [Hin%list_elem_of_In HP].
  exists r. split; [|done]. apply sorted_rows_spec. apply list_elem_of_lookup in Hin as [i Hi].
  apply lookup_zip_with_Some in Hi as (id & r' & [= <- <-] & H1 & H2). eauto.
Qed.

Lemma find_zip_sorted_None (m : gmap Z row) (P : row → bool) :
  fst <$> find (λ ir : Z * row, P ir.2) (zip (sorted_rows m).1 (sorted_rows m).2) = None →
  ∀ id r, m !! id = Some r → P r = false.
Proof.
  intros Hf%fmap_None id r Hr. apply sorted_rows_spec in Hr as (i & H1 & H2).
  apply (find_none _ _ Hf (id, r)), list_elem_of_In, (list_elem_of_lookup_2 _ i).
  apply lookup_zip_with_Some. eauto 10.
Qed.

Lemma Tx_UniqueGet_view x e n t ci v :
  x_done x = false → e_tables e !! n = Some t → v ≠ VNull →
  let rows := Tx.overlay n (x_ops x) (t_rows t) in
  match Tx.UniqueGet n ci v x e with
  | Some id => ∃ r, rows !! id = Some r ∧ key_at r ci = Some (uniqKey v)
  | None => ∀ id r, rows !! id = Some r → key_at r ci ≠ Some (uniqKey v)
  end.
Proof.
  intros Hx Et Hv m. unfold Tx.UniqueGet, Tx.effRowsLocked. rewrite Hx, effMap_spec, Et.
  assert (IsNull v = false) as -> by (by destruct v). cbn [negb fmap res_fmap]. fold m.
  set (P := λ r : row, match r !! ci with
     | Some w => bool_decide (uniqKey w = uniqKey v) | None => false end).
  assert (∀ r, P r = true ↔ key_at r ci = Some (uniqKey v)) as HP.
  { intros r. unfold P, key_at. destruct (r !! ci) as [w|]; [|done].
    rewrite bool_decide_eq_true. split.
    - intros Hk. assert (IsNull w = false) as ->; [|congruence].
      apply uniqKey_kind in Hk. by destruct v, w.
    - destruct (IsNull w); congruence. }
  pose proof (find_zip_sorted m P) as H1. pose proof (find_zip_sorted_None m P) as H2.
  destruct (sorted_rows m) as [ids rows]. cbn [fst snd] in H1, H2. cbn beta iota.
  change (find _ (zip ids rows)) with (find (λ ir : Z * row, P ir.2) (zip ids rows)).
  destruct (fst <$> _) as [id|] eqn:Ef.
  - destruct (H1 id eq_refl) as (r & Hr & Hp). exists r. by rewrite <-HP.
  - intros id r Hr. rewrite <-HP. by rewrite (H2 eq_refl id r Hr).
Qed.

(** C9: Read your own writes: an active transaction reads, through [Get],
    [AllRows] and [UniqueGet], exactly the committed rows with its own buffered
    writes on top.  [UniqueGet] returns a row of that view that holds the key
    of the value, and fails only if none does. *)
Theorem txn_reads_view (x : Txn) (e : Engine) (n : string) (t : Table) :
  x_done x = false → e_tables e !! n = Some t →
  ∃ rows, view (x, e) !! n = Some (t_cols t, rows) ∧
    rows = Tx.overlay n (x_ops x) (t_rows t) ∧
    (∀ id, Tx.Get n id x e = rows !! id) ∧
    Tx.AllRows n x e = Ok (sorted_rows rows) ∧
    (∀ ci v, v ≠ VNull →
      match Tx.UniqueGet n ci v x e with
      | Some id => ∃ r, rows !! id = Some r ∧ key_at r ci = Some (uniqKey v)
      | None => ∀ id r, rows !! id = Some r → key_at r ci ≠ Some (uniqKey v)
      end).
Proof.
  intros Hx Et. eexists. rewrite view_lookup. simpl. rewrite Et. split; [done|]. split; [done|].
  split; [|split].
  - intros id. unfold Tx.Get, Get. rewrite Hx, Et. by rewrite overlay_get.
  - unfold Tx.AllRows, Tx.effRowsLocked. by rewrite Hx, effMap_spec, Et.
  - intros ci v Hv. by apply Tx_UniqueGet_view.
Qed.

(** ** Applying a validated buffer *)
Definition tab_op (o : op) (t : Table) : Table :=
  match o_kind o with
  | opPut => bumpNextID (o_rowID o) (storeRow (o_rowID o) (o_row o) t)
  | opDelete => eraseRow (o_rowID o) t
  end.
Definition tab_ops (n : string) (ops : list op) (t : Table) : Table :=
  foldl (λ t o, if bool_decide (o_name o = n) then tab_op o t else t) t ops.
Definition cat_ops (ops : list op) (c : Cat) : Cat :=
  foldl (λ c o, cat_upd (o_name o) (tab_op o) c) c ops.

Lemma bumpNextID_frame id t :
  t_id (bumpNextID id t) = t_id t ∧ t_name (bumpNextID id t) = t_name t ∧
  t_cols (bumpNextID id t) = t_cols t ∧ t_rows (bumpNextID id t) = t_rows t ∧
  t_uniq (bumpNextID id t) = t_uniq t.
Proof. unfold bumpNextID. by case_bool_decide. Qed.

Lemma tab_op_frame o t :
  t_id (tab_op o t) = t_id t ∧ t_name (tab_op o t) = t_name t ∧ t_cols (tab_op o t) = t_cols t.
Proof.
  unfold tab_op. destruct (o_kind o).
  - destruct (bumpNextID_frame (o_rowID o) (storeRow (o_rowID o) (o_row o) t)) as (-> & -> & -> & _).
    by destruct (storeRow_frame (o_rowID o) (o_row o) t) as (-> & -> & -> & _).
  - by destruct (eraseRow_frame (o_rowID o) t) as (-> & -> & -> & _).
Qed.

Lemma tab_op_rows o t : t_rows (tab_op o t) = overlay_op (o_name o) o (t_rows t).
Proof.
  unfold tab_op, overlay_op. rewrite bool_decide_eq_true_2 by done. destruct (o_kind o).
  - destruct (bumpNextID_frame (o_rowID o) (storeRow (o_rowID o) (o_row o) t)) as (_ & _ & _ & -> & _).
    apply storeRow_rows.
  - apply eraseRow_rows.
Qed.

Lemma tab_ops_frame n ops t :
  t_id (tab_ops n ops t) = t_id t ∧ t_name (tab_ops n ops t) = t_name t ∧
  t_cols (tab_ops n ops t) = t_cols t ∧ t_rows (tab_ops n ops t) = Tx.overlay n ops (t_rows t).
Proof.
  revert t. induction ops as [|o ops IH]; intros t; [done|].
  change (tab_ops n (o :: ops) t) with
    (tab_ops n ops (if bool_decide (o_name o = n) then tab_op o t else t)).
  destruct (IH (if bool_decide (o_name o = n) then tab_op o t else t)) as (-> & -> & -> & ->).
  change (Tx.overlay n (o :: ops) (t_rows t)) with (Tx.overlay n ops (overlay_op n o (t_rows t))).
  case_bool_decide as Hn.
  - destruct (tab_op_frame o t) as (-> & -> & ->). by rewrite tab_op_rows, Hn.
  - unfold overlay_op. by rewrite bool_decide_eq_false_2.
Qed.

(** The part of the index that matters in the end: wherever a row already
    holds the key it holds in the final rows [R], the index points to it. *)
Definition index_owned (R : gmap Z row) (t : Table) : Prop :=
  ∀ ci k id r ri, ci ∈ uniqCols (t_cols t) → R !! id = Some r → key_at r ci = Some k →
    t_rows t !! id = Some ri → key_at ri ci = Some k →
    ∃ m, t_uniq t !! ci = Some m ∧ m !! k = Some id.

Lemma storeRow_owned R id r t :
  index_sound (t_cols t) (t_rows t) (t_uniq t) → no_conflict (t_cols t) R id r →
  index_owned R t → index_owned R (storeRow id r t).
Proof.
  intros [Hd Hs] Hnc Ho ci k j rj ri Hci HR Hk. autorewrite with tsql in *. intros Hri Hki.
  rewrite storeRow_uniq by done. pose proof Hci as [m Hm]%Hd.
  exists (col_store id r (t_rows t) ci m). rewrite Hm. split; [done|].
  rewrite lookup_col_store by eauto.
  destruct (decide (j = id)) as [->|Hne].
  - rewrite lookup_insert_eq in Hri. simplify_eq. by rewrite decide_True.
  - rewrite lookup_insert_ne in Hri by done.
    rewrite decide_False by (intros Hkr; by eapply Hne, Hnc).
    destruct (Ho _ _ _ _ _ Hci HR Hk Hri Hki) as (m' & Hm' & Hmk). simplify_eq.
    by rewrite Hmk, decide_False by congruence.
Qed.

Lemma eraseRow_owned R id t :
  index_sound (t_cols t) (t_rows t) (t_uniq t) → index_owned R t → index_owned R (eraseRow id t).
Proof.
  intros [Hd Hs] Ho ci k j rj ri Hci HR Hk. autorewrite with tsql in *.
  intros [Hne Hri]%lookup_delete_Some Hki.
  rewrite eraseRow_uniq by done. pose proof Hci as [m Hm]%Hd.
  exists (col_erase id (t_rows t) ci m). rewrite Hm. split; [done|].
  rewrite lookup_col_erase by eauto.
  destruct (Ho _ _ _ _ _ Hci HR Hk Hri Hki) as (m' & Hm' & Hmk). simplify_eq.
  by rewrite Hmk, decide_False by congruence.
Qed.

(** The invariant of the loop over the buffer. *)
Record mid_ok (R : gmap Z row) (t : Table) : Prop := {
  mo_shape : rows_shaped (t_cols t) (t_rows t);
  mo_sound : index_sound (t_cols t) (t_rows t) (t_uniq t);
  mo_owned : index_owned R t;
  mo_ids : ids_ok t }.

(** A buffered operation that fits the final rows [R]. *)
Definition fits_final (R : gmap Z row) (cols : list Column) (o : op) : Prop :=
  o_kind o = opPut →
  (0 < o_rowID o < int64_max)%Z ∧ length (o_row o) = length cols ∧
  no_conflict cols R (o_rowID o) (o_row o).

Lemma bumpNextID_nextID id t :
  t_nextID (bumpNextID id t) =
    if bool_decide (t_nextID t ≤ id)%Z then wrap64 (id + 1) else t_nextID t.
Proof. unfold bumpNextID. by case_bool_decide. Qed.

Lemma ids_ok_bump id r t :
  ids_ok t → (0 < id < int64_max)%Z → ids_ok (bumpNextID id (storeRow id r t)).
Proof.
  intros [Hn Hids] Hid. destruct (storeRow_frame id r t) as (_ & _ & _ & Hx).
  destruct (bumpNextID_frame id (storeRow id r t)) as (_ & _ & _ & Hr & _).
  unfold ids_ok. rewrite Hr, bumpNextID_nextID, Hx, storeRow_rows.
  assert (int64_min < 0)%Z by done.
  rewrite wrap64_id by (unfold in_int64; lia). case_bool_decide as Hle; (split; [lia|]);
    intros i [ri [[<- _]|[_ Hi]]%lookup_insert_Some]; try lia;
    specialize (Hids i (ex_intro _ _ Hi)); lia.
Qed.

Lemma tab_op_mid R o t : mid_ok R t → fits_final R (t_cols t) o → mid_ok R (tab_op o t).
Proof.
  intros [Hsh Hs Ho Hi] Hf. unfold tab_op. destruct (o_kind o) eqn:Ek.
  - destruct (Hf Ek) as (Hid & Hl & Hnc).
    destruct (bumpNextID_frame (o_rowID o) (storeRow (o_rowID o) (o_row o) t)) as (_ & _ & Hc & Hr & Hu).
    split; [rewrite Hc, Hr|rewrite Hc, Hr, Hu|unfold index_owned; rewrite Hc, Hr, Hu|by apply ids_ok_bump].
    + autorewrite with tsql. intros i ri [[_ <-]|[_ ?]]%lookup_insert_Some; eauto.
    + autorewrite with tsql. by apply storeRow_sound.
    + by apply storeRow_owned.
  - split; autorewrite with tsql.
    + intros i ri [_ ?]%lookup_delete_Some. eauto.
    + by apply eraseRow_sound.
    + by apply eraseRow_owned.
    + destruct Hi as [Hn Hids], (eraseRow_frame (o_rowID o) t) as (_ & _ & _ & Hx).
      unfold ids_ok. rewrite Hx, eraseRow_rows. split; [done|].
      intros i [ri [_ Hi]%lookup_delete_Some]. eauto.
Qed.

Lemma tab_ops_mid R n ops t :
  mid_ok R t → (∀ o, o ∈ ops → o_name o = n → fits_final R (t_cols t) o) →
  mid_ok R (tab_ops n ops t).
Proof.
  revert t. induction ops as [|o ops IH]; intros t Hm Hf; [done|]. simpl.
  apply IH; case_bool_decide as Hn.
  - apply tab_op_mid; [done|]. apply Hf; set_solver.
  - done.
  - intros o' Ho' Hn'. destruct (tab_op_frame o t) as (_ & _ & ->). apply Hf; set_solver.
  - intros o' Ho' Hn'. apply Hf; set_solver.
Qed.

(** Applying a buffer whose puts do not conflict with the final rows leaves
    an exact index, even if keys clash on the way. *)
Lemma tab_ops_ok n ops t :
  table_ok t → ids_ok t →
  (∀ o, o ∈ ops → o_name o = n → fits_final (Tx.overlay n ops (t_rows t)) (t_cols t) o) →
  table_ok (tab_ops n ops t) ∧ ids_ok (tab_ops n ops t).
Proof.
  intros [Hsh Hix] Hids Hf. set (R := Tx.overlay n ops (t_rows t)).
  destruct (tab_ops_frame n ops t) as (_ & _ & Hc & Hr).
  destruct (tab_ops_mid R n ops t) as [H1 [H2 H3] H4 H5]; [|done|].
  { split; [done|by apply index_ok_sound| |done].
    intros ci k id r ri Hci _ _ Hri Hk. destruct Hix as [Hd He]. pose proof Hci as [m Hm]%Hd.
    exists m. split; [done|]. eapply He; eauto. }
  split; [|done]. split; [done|]. split; [done|]. intros ci m k id Hm. split; [by apply H3|].
  intros (r & Hl & Hk).
  assert (R !! id = Some r) as HR by (unfold R; by rewrite <-Hr).
  destruct (H4 ci k id r r) as (m' & Hm' & Hmk); try done; [by apply H2|]. congruence.
Qed.

(** ** Validation at commit *)
Definition valid_commit (s : Sess) : Prop :=
  (∀ o, o ∈ x_ops s.1 → ∃ t, e_tables s.2 !! o_name o = Some t ∧
     (o_kind o = opPut →
      no_conflict (t_cols t) (Tx.overlay (o_name o) (x_ops s.1) (t_rows t)) (o_rowID o) (o_row o))) ∧
  (∀ n ids id, x_inserts s.1 !! n = Some ids → id ∈ ids → Get n id s.2 = None).

Lemma lookupDefs_spec ns e :
  cat_ok (e_cat e) →
  (Tx.lookupDefs ns e = Err ErrNoTable ∧ ∃ n, n ∈ ns ∧ e_tables e !! n = None) ∨
  (∃ ts, Forall2 (λ n t, e_tables e !! n = Some t) ns ts ∧
         Tx.lookupDefs ns e = Ok (table_def <$> ts)).
Proof.
  intros Hok. induction ns as [|n ns IH]; simpl; [right; exists []; auto|].
  rewrite tableDef_spec by done. destruct (e_tables e !! n) as [t|] eqn:Et; simpl.
  - destruct IH as [[-> (n' & Hn' & Hl)]|(ts & Hts & ->)]; simpl.
    + left. split; [done|]. exists n'. set_solver.
    + right. exists (t :: ts). auto.
  - left. split; [done|]. exists n. set_solver.
Qed.

Lemma validateTable_spec x e n t :
  txn_ok (x, e) → e_tables e !! n = Some t →
  let P := ∀ o, o ∈ x_ops x → o_name o = n → o_kind o = opPut →
    no_conflict (t_cols t) (Tx.overlay n (x_ops x) (t_rows t)) (o_rowID o) (o_row o) in
  (Tx.validateTable (table_def t) n x e = Ok tt ∧ P) ∨
  (Tx.validateTable (table_def t) n x e = Err ErrUnique ∧ ¬ P).
Proof.
  intros [Hok Hops] Et P. unfold Tx.validateTable. rewrite effMap_spec, Et. simpl.
  set (R := Tx.overlay n (x_ops x) (t_rows t)).
  set (f := λ o, Tx.checkUnique (table_def t) (o_rowID o) (o_row o) R).
  set (l := filter _ (x_ops x)).
  assert (∀ o, o ∈ l ↔ o ∈ x_ops x ∧ o_name o = n ∧ o_kind o = opPut) as Hl
    by (intros o; unfold l; rewrite list_elem_of_filter; tauto).
  assert (∀ o, o ∈ l → (f o = Ok tt ∧ no_conflict (t_cols t) R (o_rowID o) (o_row o)) ∨
     (f o = Err ErrUnique ∧ ¬ no_conflict (t_cols t) R (o_rowID o) (o_row o))) as Hf.
  { intros o (Ho & Hn & Hk)%Hl. apply checkUnique_spec.
    rewrite Forall_forall in Hops. destruct (Hops _ Ho Hk) as [_ Hlen]. apply Hlen. by rewrite Hn. }
  destruct (res_foreach f l) as [[]|err] eqn:Er.
  - left. split; [done|]. intros o Ho Hn Hk. rewrite res_foreach_Ok in Er.
    assert (o ∈ l) as Hin by (by apply Hl). destruct (Hf _ Hin) as [[_ ?]|[He _]]; [done|].
    rewrite Er in He by done. done.
  - right. apply res_foreach_Err in Er as (o & Hin & He).
    destruct (Hf _ Hin) as [[He' _]|[He' Hnc]]; [congruence|].
    split; [congruence|]. intros HP. apply Hnc. apply Hl in Hin as (? & ? & ?). by apply HP.
Qed.

Lemma zip_defs e ns ts :
  Forall2 (λ n t, e_tables e !! n = Some t) ns ts →
  ∀ d n, (d, n) ∈ zip (table_def <$> ts) ns ↔ n ∈ ns ∧ ∃ t, e_tables e !! n = Some t ∧ d = table_def t.
Proof.
  induction 1 as [|m t ns ts Hm _ IH]; intros d n; simpl; [split; [by intros ?%not_elem_of_nil|by intros [?%not_elem_of_nil _]]|].
  rewrite !elem_of_cons, IH. split; [naive_solver|].
  intros [[->|Hn] (t' & Ht & ->)]; [left; congruence|right; eauto].
Qed.

(** The ids the transaction inserted are free. *)
Lemma inserts_free x e :
  existsb (λ nm : string * gset Z, existsb (λ id, bool_decide (is_Some (Get nm.1 id e))) (elements nm.2))
    (map_to_list (x_inserts x)) = false ↔
  ∀ n ids id, x_inserts x !! n = Some ids → id ∈ ids → Get n id e = None.
Proof.
  rewrite <-not_true_iff_false, existsb_exists. split.
  - intros H n ids id Hn Hid. apply eq_None_not_Some. intros Hs. apply H. exists (n, ids).
    split; [by apply list_elem_of_In, elem_of_map_to_list|]. apply existsb_exists. exists id.
    split; [by apply list_elem_of_In, elem_of_elements|by apply bool_decide_eq_true].
  - intros H ([n ids] & Hin%list_elem_of_In%elem_of_map_to_list & Hids). simpl in Hids.
    apply existsb_exists in Hids as (id & Hid%list_elem_of_In%elem_of_elements & [r Hr]%bool_decide_eq_true).
    by rewrite (H n ids id) in Hr.
Qed.

Lemma validate_spec x e :
  txn_ok (x, e) →
  (Tx.validateCommit x e = Ok tt ∧ valid_commit (x, e)) ∨
  ((Tx.validateCommit x e = Err ErrNoTable ∨ Tx.validateCommit x e = Err ErrUnique) ∧
   ¬ valid_commit (x, e)).
Proof.
  intros Hok. unfold Tx.validateCommit, valid_commit. simpl.
  assert (∀ n, n ∈ Tx.touched x ↔ ∃ o, o ∈ x_ops x ∧ o_name o = n) as Htch.
  { intros n. unfold Tx.touched. rewrite elem_of_remove_dups, list_elem_of_fmap. naive_solver. }
  destruct (lookupDefs_spec (Tx.touched x) e (to_cat _ Hok)) as [[-> (n & Hn & Hl)]|(ts & Hts & ->)].
  { right. split; [by left|]. intros [H1 _]. apply Htch in Hn as (o & Ho & <-).
    destruct (H1 o Ho) as (t & Ht & _). congruence. }
  simpl. set (f := λ dn : TableDef * string, Tx.validateTable dn.1 dn.2 x e).
  pose proof (zip_defs e _ _ Hts) as Hzip. destruct (res_foreach f _) as [[]|err] eqn:Er.
  2:{ right. apply res_foreach_Err in Er as ([d n] & (_ & t & Et & ->)%Hzip & He). unfold f in He. simpl in He.
      destruct (validateTable_spec x e n t Hok Et) as [[He' _]|[He' Hnp]]; [congruence|].
      simpl. split; [right; congruence|]. intros [H1 _]. apply Hnp. intros o Ho <- Hk.
      destruct (H1 o Ho) as (t' & Ht' & Hnc). rewrite Et in Ht'. injection Ht' as <-. auto. }
  rewrite res_foreach_Ok in Er. simpl.
  assert (∀ o, o ∈ x_ops x → ∃ t, e_tables e !! o_name o = Some t ∧
     (o_kind o = opPut →
      no_conflict (t_cols t) (Tx.overlay (o_name o) (x_ops x) (t_rows t)) (o_rowID o) (o_row o))) as H1.
  { intros o Ho. assert (o_name o ∈ Tx.touched x) as Hn by (apply Htch; eauto).
    pose proof Hn as [i Hi]%list_elem_of_lookup.
    destruct (Forall2_lookup_l _ _ _ _ _ Hts Hi) as (t & _ & Ht). exists t. split; [done|].
    assert (f (table_def t, o_name o) = Ok tt) as Hf by (apply Er, Hzip; eauto). unfold f in Hf. simpl in Hf.
    destruct (validateTable_spec x e (o_name o) t Hok Ht) as [[_ HP]|[He _]]; [|congruence].
    intros Hk. by apply HP. }
  unfold guard_err. destruct (existsb _ _) eqn:Ex.
  - right. split; [by right|]. intros [_ H2]. apply inserts_free in H2. congruence.
  - left. split; [done|]. split; [done|]. by apply inserts_free.
Qed.

(** ** Commit *)
Lemma cat_ops_tables ops c n :
  c_tables (cat_ops ops c) !! n = tab_ops n ops <$> c_tables c !! n.
Proof.
  revert c. induction ops as [|o ops IH]; intros c; simpl; [by rewrite option_fmap_id|].
  rewrite IH, cat_upd_lookup. unfold tab_ops. simpl. case_decide as Hn.
  - subst n. rewrite bool_decide_eq_true_2 by done. by rewrite <-option_fmap_compose.
  - by rewrite bool_decide_eq_false_2 by done.
Qed.

Lemma cat_ops_rest ops c :
  c_byID (cat_ops ops c) = c_byID c ∧ c_nextTableID (cat_ops ops c) = c_nextTableID c.
Proof. revert c. induction ops as [|o ops IH]; intros c; [done|]. apply (IH (cat_upd (o_name o) (tab_op o) c)). Qed.

Lemma applyOps_spec ops e :
  (∀ o, o ∈ ops → is_Some (e_tables e !! o_name o)) →
  gforeach Tx.applyOp ops e = (set_cat (cat_ops ops (e_cat e)) e, Ok tt).
Proof.
  revert e. induction ops as [|o ops IH]; intros e Hops; simpl; [by destruct e|].
  destruct (Hops o) as [t Ht]; [set_solver|].
  assert (Tx.applyOp o e = (upd_table (o_name o) (tab_op o) e, Ok tt)) as Ho.
  { unfold Tx.applyOp, applyPut, applyDelete, tab_op.
    destruct (o_kind o); by rewrite Ht. }
  unfold gbind. rewrite Ho, IH; [done|].
  intros o' Ho'. unfold e_tables, upd_table. simpl. destruct (decide (o_name o' = o_name o)) as [->|Hn].
  - rewrite lookup_alter_eq. unfold e_tables in Ht. rewrite Ht. by eexists.
  - rewrite lookup_alter_ne by done. apply Hops. set_solver.
Qed.

Lemma opRecords_spec id e ops :
  (∀ o, o ∈ ops → is_Some (e_tables e !! o_name o)) →
  ∃ rs, Tx.opRecords id e ops = Ok rs ∧
    Forall2 (λ o r, ∃ t, e_tables e !! o_name o = Some t ∧
      r = match o_kind o with
          | opPut => mk_put id (t_id t) (o_rowID o) (o_row o)
          | opDelete => mk_delete id (t_id t) (o_rowID o)
          end) ops rs.
Proof.
  induction ops as [|o ops IH]; intros Hops; simpl; [by exists []|].
  destruct (Hops o) as [t Ht]; [set_solver|]. destruct IH as (rs & -> & Hrs); [set_solver|].
  unfold Tx.opRecord, TableID. rewrite Ht. simpl. eexists. split; [done|].
  constructor; [|done]. exists t. split; [done|]. by destruct (o_kind o).
Qed.

Lemma cat_ops_ok ops c :
  cat_ok c →
  (∀ o t, o ∈ ops → c_tables c !! o_name o = Some t →
     fits_final (Tx.overlay (o_name o) ops (t_rows t)) (t_cols t) o) →
  cat_ok (cat_ops ops c) ∧ abs_cat (cat_ops ops c) = view_cat ops c.
Proof.
  intros Hok Hf. destruct (cat_ops_rest ops c) as [Hb Hx]. pose proof Hok as [Ht Hn Hi Hbi Hnx].
  split; [split; rewrite ?Hb, ?Hx|].
  - intros n t'. rewrite cat_ops_tables. intros (t & Hl & ->)%fmap_Some.
    destruct (Ht _ _ Hl) as (H1 & H2 & H3). destruct (tab_ops_frame n ops t) as (_ & Hnm & Hc & _).
    unfold table_def. rewrite Hnm, Hc.
    destruct (tab_ops_ok n ops t H1 H2) as [? ?]; [intros o Ho <-; by apply Hf|done].
  - intros n t'. rewrite cat_ops_tables. intros (t & Hl & ->)%fmap_Some.
    destruct (tab_ops_frame n ops t) as (_ & -> & _). by apply Hn.
  - intros n t'. rewrite cat_ops_tables. intros (t & Hl & ->)%fmap_Some.
    destruct (tab_ops_frame n ops t) as (-> & _). by apply Hi.
  - intros i n (t & Hl & Hid)%Hbi. exists (tab_ops n ops t). rewrite cat_ops_tables, Hl.
    split; [done|]. destruct (tab_ops_frame n ops t) as (-> & _). done.
  - done.
  - apply map_eq. intros n. unfold abs_cat, view_cat. rewrite lookup_fmap, cat_ops_tables, map_lookup_imap.
    destruct (c_tables c !! n) as [t|]; [|done]. simpl. unfold abs_table.
    by destruct (tab_ops_frame n ops t) as (_ & _ & -> & ->).
Qed.

Lemma valid_commit_ok x e :
  txn_ok (x, e) → valid_commit (x, e) →
  cat_ok (cat_ops (x_ops x) (e_cat e)) ∧ abs_cat (cat_ops (x_ops x) (e_cat e)) = view (x, e) ∧
  (∀ o, o ∈ x_ops x → is_Some (e_tables e !! o_name o)).
Proof.
  intros [Hok Hops] [Hv _]. simpl in *. rewrite Forall_forall in Hops.
  destruct (cat_ops_ok (x_ops x) (e_cat e) Hok) as [H1 H2].
  { intros o t Ho Ht Hk. destruct (Hops _ Ho Hk) as [Hid Hl].
    destruct (Hv _ Ho) as (t' & Ht' & Hnc). unfold e_tables in *. simplify_eq. auto. }
  split; [done|]. split; [done|]. intros o Ho. destruct (Hv _ Ho) as (t & Ht & _). eauto.
Qed.

(** The outcome of logging and applying a buffer all of whose tables exist. *)
Lemma commitTxn_spec id ops e :
  (∀ o, o ∈ ops → is_Some (e_tables e !! o_name o)) →
  ∃ rs, Tx.opRecords id e ops = Ok rs ∧
  let '(e', q) := Tx.commitTxn id ops e in
  ∃ e1, log_tried e e1 (rs ++ [mk_commit id]) (is_ok q) ∧ e_txSeq e1 = e_txSeq e ∧
  ((q = Ok tt ∧ e' = (noteWrite (set_cat (cat_ops ops (e_cat e1)) e1)).1) ∨
   (q = Err ErrIO ∧ e' = e1)).
Proof.
  intros Hops. destruct (opRecords_spec id e ops Hops) as (rs & Hrs & Hf2). exists rs.
  split; [done|]. unfold Tx.commitTxn, gbind, gget, glift. rewrite Hrs.
  set (lg := ((λ r, (r, false)) <$> rs) ++ [(mk_commit id, true)]).
  assert (Forall (λ rd, encode_error rd.1 = None) lg) as Henc.
  { unfold lg. apply Forall_app. split; [|by repeat constructor]. apply Forall_fmap.
    clear -Hf2. induction Hf2 as [|o r os rs (t & _ & ->) _ IH]; constructor; [|done].
    by destruct (o_kind o). }
  destruct (logAll_spec lg e Henc) as (H1 & H2 & H3).
  assert (lg.*1 = rs ++ [mk_commit id]) as Hlg.
  { unfold lg. rewrite fmap_app, <-list_fmap_compose. simpl. f_equal. apply list_fmap_id. }
  rewrite Hlg in H1. destruct (logAll lg e) as [e1 [[]|err]]; simpl in *.
  - rewrite applyOps_spec.
    + eexists. split; [exact H1|]. split; [done|]. left. by unfold noteWrite, gmodify.
    + intros o Ho. unfold e_tables. rewrite (sm_cat _ _ (lt_same _ _ _ _ H1)). by apply Hops.
  - exists e1. split; [done|]. split; [done|]. right. by rewrite (H3 err).
Qed.

(** A successful COMMIT makes the shared tables what the transaction saw. *)
Lemma Commit_Ok_view x x' e e' :
  txn_ok (x, e) → x_done x = false → Tx.Commit (x, e) = ((x', e'), Ok tt) → abs e' = view (x, e).
Proof.
  intros Hok Hx Hc. unfold Tx.Commit, gbind, gget, glift, gret, on_txn, on_engine in Hc.
  simpl in Hc. rewrite Hx in Hc.
  destruct (validate_spec x e Hok) as [[Hv Hvc]|[[Hv|Hv] _]]; rewrite Hv in Hc; [|discriminate Hc..].
  destruct (valid_commit_ok x e Hok Hvc) as (_ & Habs & Hdom).
  case_bool_decide as Hnil; [simplify_eq; by rewrite view_nil|].
  destruct (commitTxn_spec (x_id x) (x_ops x) e Hdom) as (rs & _ & Hct). simpl in Hc.
  destruct (Tx.commitTxn (x_id x) (x_ops x) e) as [e2 q2]. simplify_eq.
  destruct Hct as (e1 & Hlog & _ & Hend). pose proof (sm_cat _ _ (lt_same _ _ _ _ Hlog)) as Hcat.
  destruct Hend as [[_ ->]|[[=] _]].
  unfold abs. rewrite noteWrite_cat. simpl. by rewrite Hcat.
Qed.

(** C7: Commit is all or nothing: it succeeds exactly if the buffer is valid
    against the current committed state (and the log takes it), and then the
    shared tables become what the transaction saw, with the invariant of the
    catalogue, exact UNIQUE indexes included; otherwise they are unchanged, and
    a transaction that fails validation stays open as it was. *)
Theorem commit_publishes (x x' : Txn) (e e' : Engine) (q : res unit) :
  txn_ok (x, e) → x_done x = false → Tx.Commit (x, e) = ((x', e'), q) →
  cat_ok (e_cat e') ∧
  (q = Ok tt → valid_commit (x, e) ∧ abs e' = view (x, e) ∧ x_done x' = true ∧ x_ops x' = []) ∧
  (q ≠ Ok tt → abs e' = abs e ∧ (valid_commit (x, e) ↔ q = Err ErrIO)) ∧
  (¬ valid_commit (x, e) → x' = x ∧ e' = e) ∧
  (valid_commit (x, e) → fine e → q = Ok tt).
Proof.
  intros Hok Hx Hc. unfold Tx.Commit, gbind, gget, glift, gret, on_txn, on_engine in Hc.
  simpl in Hc. rewrite Hx in Hc. pose proof (to_cat _ Hok) as Hcat. simpl in Hcat.
  destruct (validate_spec x e Hok) as [[Hv Hvc]|[Hv Hnv]].
  2:{ destruct Hv as [Hv|Hv]; rewrite Hv in Hc; simplify_eq;
        (split; [done|]); (split; [done|]); (split; [|by split]);
        intros _; (split; [done|]); (split; [done|]); by intros [=]. }
  rewrite Hv in Hc. destruct (valid_commit_ok x e Hok Hvc) as (Hok' & Habs & Hdom).
  case_bool_decide as Hnil.
  { simplify_eq. split; [done|]. split; [|by split; [|split]].
    intros _. split; [done|]. by rewrite view_nil. }
  destruct (commitTxn_spec (x_id x) (x_ops x) e Hdom) as (rs & _ & Hct). simpl in Hc.
  destruct (Tx.commitTxn (x_id x) (x_ops x) e) as [e2 q2]. simplify_eq.
  destruct Hct as (e1 & Hlog & _ & [[-> ->]|[-> ->]]);
    pose proof (sm_cat _ _ (lt_same _ _ _ _ Hlog)) as Hcat1.
  - unfold abs. rewrite noteWrite_cat. simpl. rewrite Hcat1.
    split; [done|]. split; [done|]. split; [done|]. by split.
  - unfold abs. rewrite Hcat1. split; [done|]. split; [done|]. split; [by intros _|].
    split; [done|]. intros _ Hfine. by destruct (log_failed_fine _ _ _ Hlog Hfine).
Qed.

(** Rollback discards the buffer: the shared tables and the log are as
    they were, and the session sees the committed state again. *)
Theorem rollback_discards (x : Txn) (e : Engine) :
  x_done x = false →
  ∃ x', Tx.Rollback (x, e) = ((x', e), Ok tt) ∧ x_done x' = true ∧ view (x', e) = abs e ∧
    ∀ n id r, (Tx.Put n id r (x', e)).2 = Err ErrTxnDone.
Proof.
  intros Hx. exists (Tx.finish x). unfold Tx.Rollback, gbind, gget, on_txn. simpl. rewrite Hx.
  split; [done|]. split; [done|]. split; [by apply view_nil|]. done.
Qed.


(** ** Concrete sessions *)
Definition demo_txn : Txn := MkTxn 7 false [] ∅.

Lemma demo_txn_ok : txn_ok (demo_txn, demo_engine).
Proof. split; [apply demo_engine_ok|constructor]. Qed.

Definition session_roomb (e : Engine) : bool := roomb CCheckpoint e.
Lemma session_room_dec x e : session_roomb e = true → session_room (x, e).
Proof. by intros (_ & H & _)%roomb_room. Qed.

(** A transaction that renames user 1 and adds user "c". *)
Definition demo_session : Sess :=
  (gbind (Tx.Update "users" 1 [VInt 1; VText "z"])
     (λ _, Tx.PutAuto "users" 0 [VNull; VText "c"]) (demo_txn, demo_engine)).1.

Lemma demo_session_ok : txn_ok demo_session.
Proof.
  unfold demo_session, gbind.
  destruct (Tx_Update_writes "users" 1 [VInt 1; VText "z"] demo_txn demo_engine demo_txn_ok eq_refl)
    as (H1 & [_ _ H2 _] & _); [done|].
  destruct (Tx.Update "users" 1 [VInt 1; VText "z"] (demo_txn, demo_engine)) as [[x1 e1] q1] eqn:E1.
  assert (q1 = Ok tt ∧ session_roomb e1 = true) as [-> Hroom].
  { assert (q1 = (Tx.Update "users" 1 [VInt 1; VText "z"] (demo_txn, demo_engine)).2) as ->
      by (by rewrite E1).
    assert (e1 = (Tx.Update "users" 1 [VInt 1; VText "z"] (demo_txn, demo_engine)).1.2) as ->
      by (by rewrite E1). clear. split; vm_compute; reflexivity. }
  destruct (Tx_PutAuto_writes "users" 0 [VNull; VText "c"] x1 e1) as [H _]; [exact H1|exact H2| | |exact H].
  - apply session_room_dec. exact Hroom.
  - simpl. lia.
Qed.

Global Opaque demo_session.


Lemma txn_reads_view_witness :
  Tx.Get "users" 1 demo_session.1 demo_session.2 = Some [VInt 1; VText "z"] ∧
  ∃ t, e_tables demo_session.2 !! "users" = Some t ∧
  Tx.AllRows "users" demo_session.1 demo_session.2 =
    Ok (sorted_rows (Tx.overlay "users" (x_ops demo_session.1) (t_rows t))).
Proof.
  split; [by vm_compute|].
  destruct (e_tables demo_session.2 !! "users") as [t|] eqn:Et; [|by vm_compute in Et].
  exists t. split; [done|].
  assert (x_done demo_session.1 = false) as Hx by (by vm_compute).
  destruct (txn_reads_view demo_session.1 demo_session.2 "users" t Hx Et)
    as (rows & _ & -> & _ & H & _). exact H.
Defined.

Lemma commit_publishes_witness :
  abs (Tx.Commit demo_session).1.2 = view demo_session ∧
  Get "users" 3 (Tx.Commit demo_session).1.2 = Some [VInt 3; VText "c"].
Proof.
  split; [|vm_compute; reflexivity].
  assert ((Tx.Commit demo_session).2 = Ok tt) as Hq by (vm_compute; reflexivity).
  assert (x_done demo_session.1 = false) as Hx by (vm_compute; reflexivity).
  pose proof demo_session_ok as Hok.
  generalize dependent demo_session. intros [x e] Hq Hx Hok. cbn [fst] in Hx.
  destruct (Tx.Commit (x, e)) as [[x' e'] q] eqn:Ec. cbn [snd fst] in *.
  destruct (commit_publishes x x' e e' q Hok Hx Ec) as (_ & H & _).
  apply H. exact Hq.
Defined.

Lemma rollback_discards_witness :
  ∃ x', Tx.Rollback demo_session = ((x', demo_session.2), Ok tt) ∧
    view (x', demo_session.2) = abs demo_session.2.
Proof.
  assert (x_done demo_session.1 = false) as Hx by (vm_compute; reflexivity).
  generalize dependent demo_session. intros [x e] Hx. cbn [fst snd] in *.
  destruct (rollback_discards x e Hx) as (x' & H1 & _ & H2 & _).
  exists x'. split; [exact H1|exact H2].
Defined.

(** ** Where transactions differ from autocommit *)

(** Run writes in order, dropping their results. *)
Definition session_run (ms : list (GoM Sess unit)) (s : Sess) : Sess * res unit :=
  gforeach (λ m, m) ms s.

Definition tx_insert (n : string) (id : Z) (r : row) : GoM Sess unit :=
  gbind (Tx.Put n id r) (λ _, gret tt).

(** Commit checks every buffered put against the final rows, those the
    transaction itself has replaced too: taking a key, giving it up and using
    it for another row is accepted write by write and refused at commit. *)
Example commit_refuses_reused_key :
  let ms := [tx_insert "users" 10 [VInt 10; VText "k"];
             Tx.Update "users" 10 [VInt 10; VText "other"];
             tx_insert "users" 11 [VInt 11; VText "k"]] in
  let '(s, q) := session_run ms (demo_txn, demo_engine) in
  q = Ok tt ∧ (Tx.Commit s).2 = Err ErrUnique.
Proof. by vm_compute. Qed.

(** Deleting a committed row and inserting its id again in one transaction is
    taken for a concurrent insert of that id. *)
Example commit_refuses_delete_insert :
  let ms := [Tx.Delete "users" 1; tx_insert "users" 1 [VInt 1; VText "new"]] in
  let '(s, q) := session_run ms (demo_txn, demo_engine) in
  q = Ok tt ∧ (Tx.Commit s).2 = Err ErrUnique.
Proof. by vm_compute. Qed.

(** An automatic id does not step over an explicit id buffered by the same
    transaction; the same two inserts succeed in autocommit. *)
Example txn_auto_id_taken :
  let r := [VInt 3; VText "x"] in
  (session_run [tx_insert "users" 3 r; gbind (Tx.PutAuto "users" 0 [VNull; VText "y"]) (λ _, gret tt)]
     (demo_txn, demo_engine)).2 = Err ErrExists ∧
  (gbind (Put "users" 3 r) (λ _, PutAuto "users" 0 [VNull; VText "y"]) demo_engine).2 = Ok 4%Z.
Proof. by vm_compute. Qed.

(** A negative id is refused in autocommit and accepted in a transaction. *)
Example txn_negative_id :
  let r := [VInt (-5); VText "x"] in
  (Put "users" (-5) r demo_engine).2 = Err (Errorf "tsql: row id must be >= 0 (0 = auto)" []) ∧
  (Tx.Put "users" (-5) r (demo_txn, demo_engine)).2 = Ok (-5)%Z.
Proof. by vm_compute. Qed.
