(* ===== verification/Recovery.v ===== *)
(** * Crash recovery (storage/engine.go: Open; storage/txn.go: commitTxn)

    What is on disk, the snapshot the manifest names and the log, determines
    the tables: at every point of every run of [sys_step], opening the directory
    again gives the tables of the running engine.  The runs interleave autocommit
    commands, the commits of explicit transactions and checkpoints, with log
    writes failing at any point.  [openLog] is [Open] without I/O errors on a log
    file that holds the records; the theorem on crashes is about [Open] on the
    bytes the crash leaves.

    The limits of the result are explicit in the steps allowed: a checkpoint is
    a step only under [ckpt_safe], no fsync fails, the counters have room, and a
    run starts with an empty log.  The examples at the end show that the code
    loses data outside these limits. *)
From S2P Require Import Prelude GoStd Types Schema Wal Table Engine Txn.

Open Scope go_scope.

(** ** Recovered and running tables

    A recovered table may have a smaller next id: ids reserved by writes that
    failed or were rolled back are not logged. *)
Definition table_sim (t' t : Table) : Prop :=
  t' = set_nextID (t_nextID t') t ∧ (t_nextID t' ≤ t_nextID t)%Z ∧ ids_ok t'.

Record cat_sim (c' c : Cat) : Prop := {
  cs_tables : ∀ n, option_Forall2 table_sim (c_tables c' !! n) (c_tables c !! n);
  cs_byID : c_byID c' = c_byID c;
  cs_next : c_nextTableID c' = c_nextTableID c }.

(** What [openLog] replays the log over, and the result. *)
Definition base (e : Engine) : Cat := loadSnapshot (LoadLatestSnapshot (e_disk e)).
Definition recovered (e : Engine) : res (Cat * Pending) := replay (l_recs (e_wal e)) (base e, ∅).

(** The invariant: recovery gives the running tables, and no transaction id
    still to be used for a commit, [opn] or above the counter, has records
    pending in the log. *)
Definition stale (p : Pending) (seq : Z) (opn : gset Z) : Prop :=
  ∀ tx, is_Some (p !! tx) → (tx ≤ seq)%Z ∧ tx ∉ opn.

Record durable (e : Engine) (opn : gset Z) : Prop := {
  du_rec : ∃ c p, recovered e = Ok (c, p) ∧ cat_sim c (e_cat e) ∧ stale p (e_txSeq e) opn;
  du_opn : ∀ tx, tx ∈ opn → (tx ≤ e_txSeq e)%Z;
  du_seq : (0 ≤ e_txSeq e)%Z }.

(** ** Simulation is kept by the operations on tables *)
Lemma storeRow_set_nextID k id r t :
  storeRow id r (set_nextID k t) = set_nextID k (storeRow id r t).
Proof. unfold storeRow. by destruct t as [? ? ? rows ? ?]; simpl; destruct (rows !! id). Qed.
Lemma eraseRow_set_nextID k id t : eraseRow id (set_nextID k t) = set_nextID k (eraseRow id t).
Proof. unfold eraseRow. by destruct t as [? ? ? rows ? ?]; simpl; destruct (rows !! id). Qed.

Lemma set_nextID_twice k k' t : set_nextID k (set_nextID k' t) = set_nextID k t.
Proof. done. Qed.

Lemma bumpNextID_set id t :
  bumpNextID id t = set_nextID (t_nextID (bumpNextID id t)) t.
Proof. unfold bumpNextID. case_bool_decide; [done|by destruct t]. Qed.

Lemma table_sim_refl t : ids_ok t → table_sim t t.
Proof. split; [by destruct t|]. split; [lia|done]. Qed.

Lemma empty_ids_ok i n cols : ids_ok (initUniq (MkTable i n cols ∅ 1 ∅)).
Proof.
  split; [unfold int64_max; simpl; lia|]. simpl. intros id [r Hr]. by rewrite lookup_empty in Hr.
Qed.

Lemma table_sim_inv t' t :
  table_sim t' t ↔ ∃ k, t' = set_nextID k t ∧ (k ≤ t_nextID t)%Z ∧ ids_ok t'.
Proof.
  split.
  - intros (H1 & H2 & H3). eauto.
  - intros (k & -> & Hk). by split.
Qed.

(** Replaying a put over a simulated table. *)
Lemma put_sim id r t' t k :
  table_sim t' t → (0 < id < int64_max)%Z → (t_nextID t ≤ k ∧ id < k)%Z →
  table_sim (bumpNextID id (storeRow id r t')) (set_nextID k (storeRow id r t)).
Proof.
  rewrite !table_sim_inv. intros (k' & -> & Hle & Hids) Hid Hk.
  pose proof (ids_ok_bump id r _ Hids Hid) as Hids'. revert Hids'.
  rewrite storeRow_set_nextID, bumpNextID_set, set_nextID_twice. intros Hids'.
  eexists. split; [done|]. split; [|done]. rewrite bumpNextID_nextID.
  change (t_nextID (set_nextID k (storeRow id r t))) with k.
  change (t_nextID (set_nextID k' (storeRow id r t))) with k'.
  assert (int64_min < 0)%Z by done.
  rewrite wrap64_id by (unfold in_int64; lia). case_bool_decide; lia.
Qed.

Lemma erase_sim id t' t : table_sim t' t → table_sim (eraseRow id t') (eraseRow id t).
Proof.
  rewrite !table_sim_inv. intros (k' & -> & Hle & Hn & Hids). exists k'.
  destruct (eraseRow_frame id t) as (_ & _ & _ & ->). rewrite eraseRow_set_nextID.
  split; [done|]. split; [done|]. split; [done|]. intros i [ri Hi].
  change (t_rows (set_nextID k' (eraseRow id t))) with (t_rows (eraseRow id t)) in Hi.
  rewrite eraseRow_rows in Hi. apply lookup_delete_Some in Hi as [_ Hi]. apply Hids. by eexists.
Qed.

Lemma tab_op_sim o t' t :
  table_sim t' t → (o_kind o = opPut → (0 < o_rowID o < int64_max)%Z) →
  table_sim (tab_op o t') (tab_op o t).
Proof.
  intros Hs Hid. unfold tab_op. destruct (o_kind o); [|by apply erase_sim].
  specialize (Hid eq_refl). assert (int64_min < 0)%Z by done.
  rewrite (bumpNextID_set _ (storeRow (o_rowID o) (o_row o) t)). apply put_sim; [done|done|].
  rewrite bumpNextID_nextID. destruct (storeRow_frame (o_rowID o) (o_row o) t) as (_ & _ & _ & ->).
  rewrite wrap64_id by (unfold in_int64; lia). case_bool_decide; lia.
Qed.

Lemma table_sim_id t' t : table_sim t' t → t_id t' = t_id t ∧ t_name t' = t_name t.
Proof. rewrite table_sim_inv. by intros (k & -> & _). Qed.

Lemma cat_sim_upd n f' f c' c :
  cat_sim c' c →
  (∀ t' t, c_tables c !! n = Some t → table_sim t' t → table_sim (f' t') (f t)) →
  cat_sim (cat_upd n f' c') (cat_upd n f c).
Proof.
  intros [Ht Hb Hx] Hf. split; [|done|done]. intros n'. rewrite !cat_upd_lookup.
  pose proof (Ht n') as Hn. case_decide as E; [subst n'|done].
  destruct (c_tables c !! n) as [t|] eqn:Et; inversion Hn; subst; simpl; constructor; auto.
Qed.

Lemma cat_sim_lookup c' c n t :
  cat_sim c' c → c_tables c !! n = Some t → ∃ t', c_tables c' !! n = Some t' ∧ table_sim t' t.
Proof.
  intros [Ht _ _] Hl. specialize (Ht n). rewrite Hl in Ht. inversion Ht; subst. eauto.
Qed.

Lemma cat_sim_refl c : cat_ok c → cat_sim c c.
Proof.
  intros Hok. split; [|done|done]. intros n. destruct (c_tables c !! n) eqn:Hl; constructor.
  apply table_sim_refl. by apply (co_table _ Hok n).
Qed.

Lemma cat_sim_abs c' c : cat_sim c' c → abs_cat c' = abs_cat c.
Proof.
  intros [Ht _ _]. apply map_eq. intros n. unfold abs_cat. rewrite !lookup_fmap. specialize (Ht n).
  destruct Ht as [t' t Hs|]; simpl; [|done].
  apply table_sim_inv in Hs as (k & -> & _). done.
Qed.

(** The recovered catalogue satisfies the invariant of the running one. *)
Lemma cat_sim_ok c' c : cat_sim c' c → cat_ok c → cat_ok c'.
Proof.
  intros [Ht Hb Hx] [H1 H2 H3 H4 H5].
  assert (∀ n t', c_tables c' !! n = Some t' → ∃ t, c_tables c !! n = Some t ∧ table_sim t' t) as Hl.
  { intros n t' Hl. specialize (Ht n). rewrite Hl in Ht. inversion Ht; subst. eauto. }
  split; rewrite ?Hb, ?Hx; [..|done].
  - intros n t' (t & Hl' & Hs)%Hl. apply table_sim_inv in Hs as (k & -> & _ & Hids).
    destruct (H1 _ _ Hl') as ([? ?] & _ & ?). done.
  - intros n t' (t & Hl' & [_ ->]%table_sim_id)%Hl. by apply H2.
  - intros n t' (t & Hl' & [-> _]%table_sim_id)%Hl. by apply H3.
  - intros i n (t & Hl' & Hi)%H4. specialize (Ht n). rewrite Hl' in Ht.
    inversion Ht as [t' ? Hs|]; subst. exists t'. by apply table_sim_id in Hs as [-> _].
Qed.

Lemma cat_sim_add name cols c' c :
  cat_sim c' c → cat_sim (addTableLocked name cols c') (addTableLocked name cols c).
Proof.
  intros [Ht Hb Hx]. unfold addTableLocked. rewrite Hb, Hx. split; simpl; [|done|done].
  intros n. destruct (decide (n = name)) as [->|].
  - rewrite !lookup_insert_eq. constructor. apply table_sim_refl. apply empty_ids_ok.
  - by rewrite !lookup_insert_ne.
Qed.

Lemma cat_sim_remove t' t c' c :
  cat_sim c' c → table_sim t' t → cat_sim (removeTableLocked t' c') (removeTableLocked t c).
Proof.
  intros [Ht Hb Hx] [Hid Hn]%table_sim_id. unfold removeTableLocked. rewrite Hb, Hx, Hid, Hn.
  split; simpl; [|done|done]. intros n. destruct (decide (n = t_name t)) as [->|].
  - rewrite !lookup_delete_eq. constructor.
  - by rewrite !lookup_delete_ne.
Qed.

(** ** Replaying one transaction *)
Lemma replay_app rs1 rs2 s :
  replay (rs1 ++ rs2) s = match replay rs1 s with Ok s' => replay rs2 s' | Err err => Err err end.
Proof.
  revert s. induction rs1 as [|r rs1 IH]; intros s; simpl; [done|].
  destruct (replayRecord r s); [apply IH|done].
Qed.

(** A record of the body of transaction [tx]. *)
Definition body_rec (tx : Z) (r : WalRecord) : Prop :=
  r_Txn r = tx ∧ r_Type r ≠ RecBegin ∧ r_Type r ≠ RecCommit.

(** Records without a commit only wait. *)
Lemma replay_body tx rs c p :
  Forall (body_rec tx) rs →
  ∃ p', replay rs (c, p) = Ok (c, p') ∧ delete tx p' = delete tx p ∧
    default [] (p' !! tx) = default [] (p !! tx) ++ rs.
Proof.
  revert p. induction rs as [|r rs IH]; intros p Hf; simpl.
  { exists p. by rewrite app_nil_r. }
  apply Forall_cons in Hf as [(Htx & Hb & Hc) Hf].
  unfold replayRecord. rewrite !bool_decide_eq_false_2 by done. simpl. rewrite Htx.
  destruct (IH (<[tx:=default [] (p !! tx) ++ [r]]> p) Hf) as (p' & Hr & Hd & Hl).
  exists p'. split; [done|]. split.
  - rewrite Hd. by rewrite delete_insert_eq.
  - rewrite Hl, lookup_insert_eq. simpl. by rewrite <-app_assoc.
Qed.

Lemma replay_commit tx c p c' :
  applyRecords (default [] (p !! tx)) c = Ok c' →
  replay [mk_commit tx] (c, p) = Ok (c', delete tx p).
Proof. intros Ha. simpl. unfold replayRecord, applyPendingLocked. simpl. by rewrite Ha. Qed.

(** A whole transaction whose id has nothing pending takes effect at its
    commit record and leaves nothing behind. *)
Lemma replay_txn tx rs c p c' :
  Forall (body_rec tx) rs → p !! tx = None → applyRecords rs c = Ok c' →
  replay (rs ++ [mk_commit tx]) (c, p) = Ok (c', p).
Proof.
  intros Hf Hp Ha. destruct (replay_body tx rs c p Hf) as (p' & Hr & Hd & Hl).
  rewrite replay_app, Hr. rewrite Hp in Hl. simpl in Hl.
  rewrite (replay_commit _ _ _ c') by (by rewrite Hl). by rewrite Hd, delete_id.
Qed.

(** A transaction cut anywhere before its commit record changes nothing. *)
Lemma replay_cut tx rs k c p :
  Forall (body_rec tx) rs → k ≤ length rs →
  ∃ p', replay (take k (rs ++ [mk_commit tx])) (c, p) = Ok (c, p') ∧ delete tx p' = delete tx p.
Proof.
  intros Hf Hk. rewrite take_app_le by done.
  destruct (replay_body tx (take k rs) c p) as (p' & Hr & Hd & _); [by apply Forall_take|].
  eauto.
Qed.

Lemma replay_begin tx rs s : replay (mk_begin tx :: rs) s = replay rs s.
Proof. done. Qed.

(** ** The effect of a logging command on what recovery gives *)
Lemma logged_durable e e1 e' opn tx pre body :
  durable e opn → (pre = [] ∨ pre = [mk_begin tx]) → Forall (body_rec tx) body →
  log_tried e e1 (pre ++ body ++ [mk_commit tx]) true →
  (∀ p, stale p (e_txSeq e) opn → p !! tx = None) →
  l_recs (e_wal e') = l_recs (e_wal e1) → base e' = base e1 →
  (∀ c, cat_sim c (e_cat e) → ∃ c', applyRecords body c = Ok c' ∧ cat_sim c' (e_cat e')) →
  ∃ c p, recovered e' = Ok (c, p) ∧ cat_sim c (e_cat e') ∧ stale p (e_txSeq e) opn.
Proof.
  intros [(c & p & Hrec & Hsim & Hp) _ _] Hpre Hbody Hlog Hfresh Hl Hd Happ.
  destruct (Happ c Hsim) as (c' & Hc' & Hsim'). exists c', p. split; [|done].
  unfold recovered. rewrite Hl, Hd. unfold base. rewrite (sm_disk _ _ (lt_same _ _ _ _ Hlog)).
  rewrite (lt_ok _ _ _ _ Hlog eq_refl), replay_app. fold (base e). fold (recovered e). rewrite Hrec.
  assert (replay (body ++ [mk_commit tx]) (c, p) = Ok (c', p)) as Hr
    by (apply replay_txn; auto).
  destruct Hpre as [->| ->]; [done|]. simpl app. by rewrite replay_begin.
Qed.

Lemma failed_durable e e' opn tx pre body :
  durable e opn → no_sync_err e → (pre = [] ∨ pre = [mk_begin tx]) → Forall (body_rec tx) body →
  log_tried e e' (pre ++ body ++ [mk_commit tx]) false →
  ∃ c p, recovered e' = Ok (c, p) ∧ cat_sim c (e_cat e') ∧
    stale (delete tx p) (e_txSeq e) opn.
Proof.
  intros [(c & p & Hrec & Hsim & Hp) _ _] Hns Hpre Hbody Hlog.
  destruct (lt_fail _ _ _ _ Hlog eq_refl Hns) as (k & Hk & Hl).
  pose proof (lt_same _ _ _ _ Hlog) as [Hcat Hdisk _ _].
  assert (∃ p', replay (take k (pre ++ body ++ [mk_commit tx])) (c, p) = Ok (c, p') ∧
    delete tx p' = delete tx p) as (p' & Hr & Hd).
  { rewrite !length_app in Hk. simpl in Hk. destruct Hpre as [->| ->]; simpl in *.
    - apply replay_cut; [done|lia].
    - destruct k as [|k]; simpl; [eauto|].
      change (replay _ (c, p)) with (replay (take k (body ++ [mk_commit tx])) (c, p)).
      apply replay_cut; [done|lia]. }
  exists c, p'. unfold recovered, base. rewrite Hdisk, Hl, replay_app.
  fold (base e). fold (recovered e). rewrite Hrec, Hcat. split; [done|]. split; [done|].
  intros tx' Hs. rewrite Hd in Hs. destruct Hs as [l [_ Hs]%lookup_delete_Some]. apply Hp. eauto.
Qed.

(** Room for one more transaction id. *)
Definition tx_room (e : Engine) : Prop := (e_txSeq e + 1 < 2 ^ 64)%Z.

Lemma stale_mono p seq seq' opn : stale p seq opn → (seq ≤ seq')%Z → stale p seq' opn.
Proof. intros H Hle tx Htx. destruct (H tx Htx). split; [lia|done]. Qed.

(** An autocommit command that logs [f tx] and then changes the tables from
    [c0] to those of [e']. *)
Lemma auto_durable {A} (f : Z → WalRecord) (k : GoM Engine A) e e' q opn :
  durable e opn → no_sync_err e → tx_room e →
  (∀ tx, encode_error (f tx) = None) → (∀ tx, body_rec tx (f tx)) →
  gbind (txn (λ tx, walAppend (f tx) false)) (λ _, k) e = (e', q) →
  (∀ e1, same_data e e1 → k e1 = (e', q) →
     l_recs (e_wal e') = l_recs (e_wal e1) ∧ base e' = base e1 ∧ e_io e' = e_io e1 ∧
     e_txSeq e' = e_txSeq e1 ∧
     (∀ c tx, cat_sim c (e_cat e) → ∃ c', applyRecord (f tx) c = Ok c' ∧ cat_sim c' (e_cat e'))) →
  durable e' opn ∧ no_sync_err e'.
Proof.
  intros Hdu Hns Htx Henc Hbody Hrun Hk. pose proof Hdu as [_ Hopn Hseq]. unfold tx_room in Htx.
  apply txn_then in Hrun; [|done]. rewrite wrapu64_id in Hrun by lia.
  set (tx := (e_txSeq e + 1)%Z) in *.
  assert (Forall (body_rec tx) [f tx]) as Hb1 by (repeat constructor; apply Hbody).
  destruct Hrun as [(e1 & Hlog & Htx1 & Hk1)|(-> & Hlog & Htx1)].
  - destruct (Hk e1 (lt_same _ _ _ _ Hlog) Hk1) as (Hl & Hb & Hio & Htx' & Happ).
    split; [|unfold no_sync_err; rewrite Hio; by apply (lt_io _ _ _ _ Hlog)].
    destruct (logged_durable e e1 e' opn tx [mk_begin tx] [f tx]) as (c & p & Hr & Hs & Hst); auto.
    + intros p Hst. apply eq_None_not_Some. intros [Hle _]%Hst. lia.
    + intros c Hs. destruct (Happ c tx Hs) as (c' & Ha & Hs'). exists c'. simpl. by rewrite Ha.
    + split; rewrite ?Htx', ?Htx1.
      * exists c, p. split; [done|]. split; [done|]. eapply stale_mono; [done|lia].
      * intros tx' Hin. specialize (Hopn _ Hin). lia.
      * lia.
  - split; [|by apply (lt_io _ _ _ _ Hlog)].
    destruct (failed_durable e e' opn tx [mk_begin tx] [f tx]) as (c & p & Hr & Hs & Hst); auto.
    split; rewrite ?Htx1.
    + exists c, p. split; [done|]. split; [done|]. intros tx' Hs'.
      destruct (decide (tx' = tx)) as [->|Hne].
      * split; [lia|]. intros Hin. specialize (Hopn _ Hin). lia.
      * destruct (Hst tx') as [? ?]; [by rewrite lookup_delete_ne|]. split; [lia|done].
    + intros tx' Hin. specialize (Hopn _ Hin). lia.
    + lia.
Qed.

Lemma noteWrite_frame e :
  e_wal (noteWrite e).1 = e_wal e ∧ e_disk (noteWrite e).1 = e_disk e ∧
  e_io (noteWrite e).1 = e_io e ∧ e_txSeq (noteWrite e).1 = e_txSeq e ∧
  (noteWrite e).2 = Ok tt.
Proof. unfold noteWrite, gmodify. simpl. repeat case_match; done. Qed.

Lemma durable_frame e e' opn :
  durable e opn → e_wal e' = e_wal e → base e' = base e → e_txSeq e' = e_txSeq e →
  (∀ c, cat_sim c (e_cat e) → cat_sim c (e_cat e')) → durable e' opn.
Proof.
  intros [(c & p & Hr & Hs & Hst) H2 H3] Hw Hb Htx Hc. split; rewrite ?Htx; [|done|done].
  exists c, p. unfold recovered. rewrite Hw, Hb. auto.
Qed.

(** Reserving an id is invisible to recovery. *)
Lemma cat_sim_reserve n t k c c' :
  cat_sim c' c → c_tables c !! n = Some t → (t_nextID t ≤ k)%Z →
  cat_sim c' (cat_upd n (λ _, set_nextID k t) c).
Proof.
  intros [Ht Hb Hx] Hl Hk. split; [|done|done]. intros n'. rewrite cat_upd_lookup.
  pose proof (Ht n') as Hn. case_decide as E; [subst n'|done].
  rewrite Hl in *. inversion Hn as [t' ? Hs|]; subst. simpl. constructor.
  apply table_sim_inv in Hs as (k' & -> & Hk' & Hids). apply table_sim_inv.
  exists k'. split; [done|]. split; [simpl; lia|done].
Qed.

(** ** Replaying the records of each command *)
Lemma apply_put_sim tx n t id r c' c k :
  cat_sim c' c → cat_ok c → c_tables c !! n = Some t → (0 < id < int64_max)%Z →
  (t_nextID t ≤ k ∧ id < k)%Z →
  ∃ c1, applyRecord (mk_put tx (t_id t) id r) c' = Ok c1 ∧
    cat_sim c1 (cat_upd n (λ t, set_nextID k (storeRow id r t)) c).
Proof.
  intros Hs Hok Hl Hid Hk. destruct (co_id _ Hok _ _ Hl) as [Hb _].
  unfold applyRecord. simpl. rewrite (cs_byID _ _ Hs), Hb. eexists. split; [done|].
  apply cat_sim_upd; [done|]. intros t' t0 Ht0 Hst. assert (t0 = t) as -> by congruence.
  by apply put_sim.
Qed.

Lemma apply_delete_sim tx n t id c' c :
  cat_sim c' c → cat_ok c → c_tables c !! n = Some t →
  ∃ c1, applyRecord (mk_delete tx (t_id t) id) c' = Ok c1 ∧ cat_sim c1 (cat_upd n (eraseRow id) c).
Proof.
  intros Hs Hok Hl. destruct (co_id _ Hok _ _ Hl) as [Hb _].
  unfold applyRecord. simpl. rewrite (cs_byID _ _ Hs), Hb. eexists. split; [done|].
  apply cat_sim_upd; [done|]. intros t' t0 _ Hst. by apply erase_sim.
Qed.

Lemma create_durable n cols e opn :
  durable e opn → no_sync_err e → tx_room e → room (CCreate n cols) e → cat_ok (e_cat e) →
  durable (CreateTable n cols e).1 opn ∧ no_sync_err (CreateTable n cols e).1.
Proof.
  intros Hdu Hns Htx _ Hok. unfold CreateTable.
  destruct (Validate _) as [td|err]; [|done]. destruct (e_tables e !! n) eqn:Et; [done|].
  destruct (gbind _ _ e) as [e' q] eqn:Eq.
  apply (auto_durable _ _ _ _ _ opn Hdu Hns Htx) in Eq; [done|done|by split|].
  intros e1 Hsm Hk. unfold gbind, gmodify in Hk. injection Hk as <- <-. simpl.
  do 4 (split; [done|]). rewrite (sm_cat _ _ Hsm). intros c tx Hs.
  exists (addTableLocked n (td_Cols td) c). split; [|by apply cat_sim_add].
  unfold applyRecord. simpl. pose proof (cs_tables _ _ Hs n) as Hn. unfold e_tables in Et.
  rewrite Et in Hn. assert (c_tables c !! n = None) as -> by (by inversion Hn). done.
Qed.

Lemma drop_durable n e opn :
  durable e opn → no_sync_err e → tx_room e → cat_ok (e_cat e) →
  durable (DropTable n e).1 opn ∧ no_sync_err (DropTable n e).1.
Proof.
  intros Hdu Hns Htx Hok. unfold DropTable.
  destruct (e_tables e !! n) as [t|] eqn:Et; [|done].
  destruct (gbind _ _ e) as [e' q] eqn:Eq.
  apply (auto_durable _ _ _ _ _ opn Hdu Hns Htx) in Eq; [done|done|by split|].
  intros e1 Hsm Hk. unfold gbind, gmodify in Hk. injection Hk as <- <-. simpl.
  do 4 (split; [done|]). rewrite (sm_cat _ _ Hsm). intros c tx Hs.
  destruct (cat_sim_lookup _ _ _ _ Hs Et) as (t' & Ht' & Hst).
  exists (removeTableLocked t' c). split; [|by apply cat_sim_remove].
  unfold applyRecord. simpl. by rewrite Ht'.
Qed.

Lemma delete_durable n id e opn :
  durable e opn → no_sync_err e → tx_room e → cat_ok (e_cat e) →
  durable (Delete n id e).1 opn ∧ no_sync_err (Delete n id e).1.
Proof.
  intros Hdu Hns Htx Hok. unfold Delete.
  destruct (e_tables e !! n) as [t|] eqn:Et; [|done]. destruct (t_rows t !! id); [|done].
  destruct (gbind _ _ e) as [e' q] eqn:Eq.
  apply (auto_durable _ _ _ _ _ opn Hdu Hns Htx) in Eq; [done|done|by split|].
  intros e1 Hsm Hk. unfold gbind in Hk. cbn [gmodify] in Hk.
  pose proof (noteWrite_cat (upd_table n (eraseRow id) e1)) as Hnc.
  destruct (noteWrite_frame (upd_table n (eraseRow id) e1)) as (Hw & Hd & Hio & Htx' & _).
  rewrite Hk in *. simpl in *. unfold base. rewrite Hw, Hd. do 4 (split; [done|]).
  rewrite Hnc, (sm_cat _ _ Hsm). intros c tx Hs. by apply apply_delete_sim.
Qed.

Lemma reserve_durable n t k e opn :
  durable e opn → e_tables e !! n = Some t → (t_nextID t ≤ k)%Z →
  durable (upd_table n (λ _, set_nextID k t) e) opn.
Proof.
  intros Hdu Et Hk. eapply durable_frame; [done|done|done|done|].
  intros c Hs. by apply cat_sim_reserve.
Qed.

Lemma ReserveID_durable n e opn :
  cat_ok (e_cat e) → (∀ t, e_tables e !! n = Some t → (t_nextID t < int64_max)%Z) →
  durable e opn → no_sync_err e → durable (ReserveID n e).1 opn ∧ no_sync_err (ReserveID n e).1.
Proof.
  intros Hok Hroom Hdu Hns. unfold ReserveID. destruct (e_tables e !! n) as [t|] eqn:Et; [|done]. simpl.
  split; [|done]. specialize (Hroom _ eq_refl).
  destruct (co_table _ Hok _ _ Et) as (_ & [Hn _] & _).
  rewrite wrap64_id by (unfold in_int64, int64_min, int64_max in *; lia).
  pose proof (reserve_durable n t (t_nextID t + 1) e opn Hdu Et) as H.
  eapply durable_frame; [apply H; lia|done|done|done|]. intros c Hs.
  replace (e_cat (upd_table n (set_nextID (t_nextID t + 1)) e)) with
    (e_cat (upd_table n (λ _, set_nextID (t_nextID t + 1) t) e)); [done|].
  unfold upd_table, cat_upd. simpl. f_equal. apply map_eq. intros n'.
  destruct (decide (n' = n)) as [->|]; [|by rewrite !lookup_alter_ne].
  unfold e_tables in Et. by rewrite !lookup_alter_eq, Et.
Qed.

(** Storing a row does not move the next id. *)
Lemma upd_store_same n t id r c :
  c_tables c !! n = Some t →
  cat_upd n (λ t', set_nextID (t_nextID t) (storeRow id r t')) c = cat_upd n (storeRow id r) c.
Proof.
  intros Hl. unfold cat_upd. f_equal. apply map_eq. intros n'.
  destruct (decide (n' = n)) as [->|Hn]; [|by rewrite !lookup_alter_ne].
  rewrite !lookup_alter_eq, Hl. simpl. f_equal. destruct (storeRow_frame id r t) as (_ & _ & _ & <-).
  by destruct (storeRow id r t).
Qed.

Lemma put_durable n pk id r must e opn :
  durable e opn → no_sync_err e → tx_room e → room (CPut n pk id r must) e → cat_ok (e_cat e) →
  durable (put n pk id r must e).1 opn ∧ no_sync_err (put n pk id r must e).1.
Proof.
  intros Hdu Hns Htx (_ & Hroom & Hid) Hok. unfold put.
  destruct (bool_decide_reflect (id < 0)%Z) as [H0|H0]; [done|].
  destruct (must && bool_decide (id = 0)%Z) eqn:Em; [done|].
  destruct (e_tables e !! n) as [t|] eqn:Et; [|done].
  destruct (bool_decide (length r ≠ length (t_cols t))); [done|].
  destruct (co_table _ Hok _ _ Et) as (_ & Hids & _).
  destruct (reserveID id must t) as [[id' t1]|err] eqn:Er; [|done].
  apply reserveID_ok in Er as ([Hpos Htg] & k & -> & Hk); [|done|lia|by eapply Hroom|done].
  set (e1 := upd_table n (λ _, set_nextID k t) e). set (r1 := stamp pk id' r).
  assert (id' < int64_max)%Z as Hlt by lia.
  destruct (cat_ok_reserve n t k e) as (Et1 & Hok1 & _); [done|done|lia|]. fold e1 in Et1, Hok1.
  assert (durable e1 opn) as Hdu1 by (apply reserve_durable; [done|done|lia]).
  destruct (existsb _ _); [done|]. destruct (gbind _ _ e1) as [e' q] eqn:Eq.
  apply (auto_durable _ _ _ _ _ opn Hdu1) in Eq; [done|done|done|done|by split|].
  intros e2 Hsm Hk2. unfold gbind, gret in Hk2. cbn [gmodify] in Hk2.
  pose proof (noteWrite_cat (upd_table n (storeRow id' r1) e2)) as Hnc.
  destruct (noteWrite_frame (upd_table n (storeRow id' r1) e2)) as (Hw & Hd & Hio & Htx' & Hq).
  destruct (noteWrite (upd_table n (storeRow id' r1) e2)) as [e4 q4]. simpl in *. subst q4.
  injection Hk2 as <- <-. unfold base. rewrite Hw, Hd. do 4 (split; [done|]).
  rewrite Hnc, (sm_cat _ _ Hsm). intros c tx Hs. rewrite <-(upd_store_same _ _ _ _ _ Et1).
  apply (apply_put_sim tx n (set_nextID k t)); [done|done|done|lia|simpl; lia].
Qed.

(** ** Commits of explicit transactions *)
Definition op_rec (tx tid : Z) (o : op) : WalRecord :=
  match o_kind o with
  | opPut => mk_put tx tid (o_rowID o) (o_row o)
  | opDelete => mk_delete tx tid (o_rowID o)
  end.

Lemma apply_ops_sim tx ops rs c' c :
  cat_sim c' c →
  Forall2 (λ o r, ∃ tid, c_byID c !! tid = Some (o_name o) ∧ r = op_rec tx tid o) ops rs →
  (∀ o, o ∈ ops → o_kind o = opPut → (0 < o_rowID o < int64_max)%Z) →
  ∃ c1, applyRecords rs c' = Ok c1 ∧ cat_sim c1 (cat_ops ops c).
Proof.
  revert rs c' c. induction ops as [|o ops IH]; intros rs c' c Hs Hf Hids.
  { inversion Hf; subst. simpl. eauto. }
  inversion Hf as [|? r ? rs' (tid & Hb & ->) Hf']; subst. simpl.
  assert (applyRecord (op_rec tx tid o) c' = Ok (cat_upd (o_name o) (tab_op o) c')) as ->.
  { unfold applyRecord, op_rec, tab_op. rewrite <-(cs_byID _ _ Hs) in Hb.
    destruct (o_kind o); simpl; by rewrite Hb. }
  apply IH; [|done|set_solver].
  apply cat_sim_upd; [done|]. intros t' t _ Hst. apply tab_op_sim; [done|]. apply Hids. set_solver.
Qed.

Lemma commitTxn_durable id ops e opn :
  durable e opn → no_sync_err e → cat_ok (e_cat e) → id ∈ opn →
  (∀ o, o ∈ ops → is_Some (e_tables e !! o_name o)) →
  (∀ o, o ∈ ops → o_kind o = opPut → (0 < o_rowID o < int64_max)%Z) →
  durable (Tx.commitTxn id ops e).1 (opn ∖ {[id]}) ∧ no_sync_err (Tx.commitTxn id ops e).1.
Proof.
  intros Hdu Hns Hok Hid Hdom Hids. pose proof Hdu as [_ Hopn Hseq].
  destruct (opRecords_spec id e ops Hdom) as (rs & Hrs & Hf).
  destruct (commitTxn_spec id ops e Hdom) as (rs' & Hrs' & Hc).
  assert (rs' = rs) as -> by congruence.
  assert (Forall (body_rec id) rs) as Hbody.
  { clear -Hf. induction Hf as [|o r os rs (t & _ & ->) _ IH]; constructor; [|done].
    by destruct (o_kind o). }
  assert (Forall2 (λ o r, ∃ tid, c_byID (e_cat e) !! tid = Some (o_name o) ∧ r = op_rec id tid o) ops rs)
    as Hf'.
  { eapply Forall2_impl; [done|]. intros o r (t & Ht & ->). exists (t_id t).
    by destruct (co_id _ Hok _ _ Ht). }
  destruct (Tx.commitTxn id ops e) as [e' q]. simpl.
  destruct Hc as (e1 & Hlog & Htx & [[-> ->]|[-> ->]]).
  - set (e2 := set_cat (cat_ops ops (e_cat e1)) e1).
    destruct (noteWrite_frame e2) as (Hw & Hd & Hio & Htx2 & _).
    split; [|unfold no_sync_err; rewrite Hio; by apply (lt_io _ _ _ _ Hlog)].
    destruct (logged_durable e e1 (noteWrite e2).1 opn id [] rs) as (c & p & Hr & Hs & Hst);
      [done|by left|done|exact Hlog|..].
    + intros p Hst. apply eq_None_not_Some. by intros [_ ?]%Hst.
    + by rewrite Hw.
    + unfold base. by rewrite Hd.
    + intros c Hs. rewrite noteWrite_cat. unfold e2. simpl.
      rewrite (sm_cat _ _ (lt_same _ _ _ _ Hlog)). by apply (apply_ops_sim id).
    + split; rewrite ?Htx2; simpl; rewrite ?Htx; [|set_solver|done].
      exists c, p. split; [done|]. split; [done|]. intros tx' [? ?]%Hst. split; [done|set_solver].
  - split; [|by apply (lt_io _ _ _ _ Hlog)].
    destruct (failed_durable e e1 opn id [] rs) as (c & p & Hr & Hs & Hst); auto.
    split; rewrite ?Htx; [|set_solver|done].
    exists c, p. split; [done|]. split; [done|]. intros tx' Hs'.
    destruct (decide (tx' = id)) as [->|Hne]; [split; [by apply Hopn|set_solver]|].
    destruct (Hst tx') as [? ?]; [by rewrite lookup_delete_ne|]. split; [done|set_solver].
Qed.

Lemma Commit_durable x e opn :
  durable e opn → no_sync_err e → txn_ok (x, e) → x_done x = false → x_id x ∈ opn →
  let '((x', e'), q) := Tx.Commit (x, e) in
  durable e' (if x_done x' then opn ∖ {[x_id x]} else opn) ∧ no_sync_err e'.
Proof.
  intros Hdu Hns Hok Hx Hid.
  unfold Tx.Commit, gbind, gget, glift, gret, on_txn, on_engine. simpl. rewrite Hx.
  destruct (validate_spec x e Hok) as [[-> Hv]|[[-> | ->] _]]; simpl; rewrite ?Hx; [|done|done].
  destruct (valid_commit_ok x e Hok Hv) as (_ & _ & Hdom).
  case_bool_decide as Hnil; simpl.
  { split; [|done]. destruct Hdu as [(c & p & Hr & Hs & Hst) H2 H3]. split; [|set_solver|done].
    exists c, p. split; [done|]. split; [done|]. intros tx [? ?]%Hst. split; [done|set_solver]. }
  destruct (commitTxn_durable (x_id x) (x_ops x) e opn) as [H1 H2]; try done.
  - apply (to_cat _ Hok).
  - intros o Ho Hk. pose proof (to_ops _ Hok) as Hf. simpl in Hf. rewrite Forall_forall in Hf.
    by destruct (Hf _ Ho Hk).
  - by destruct (Tx.commitTxn (x_id x) (x_ops x) e).
Qed.

(** ** Loading a snapshot *)

(** The newest table id is in use; otherwise a loaded snapshot hands it out
    again. *)
Definition sharp_ids (c : Cat) : Prop :=
  c_nextTableID c = 0%Z ∨ ∃ n t, c_tables c !! n = Some t ∧ (t_id t + 1 = c_nextTableID c)%Z.

Lemma loadTable_snap n t c :
  t_name t = n → table_ok t → (0 ≤ t_id t)%Z → (t_id t + 1 < 2 ^ 32)%Z →
  loadTable n (snap_table n t) c =
    MkCat (<[n := t]> (c_tables c)) (<[t_id t := n]> (c_byID c))
          (c_nextTableID c `max` (t_id t + 1)).
Proof.
  intros Hn Hok Hpos Hlt. unfold loadTable. simpl.
  assert (buildUniqLocked (initUniq (MkTable (t_id t) n (t_cols t) (t_rows t) (t_nextID t) ∅)) = t) as ->.
  { change (buildUniqLocked _) with (buildUniqLocked (MkTable (t_id t) n (t_cols t) (t_rows t) (t_nextID t) (t_uniq t))).
    transitivity (buildUniqLocked t); [|by apply buildUniq_id]. f_equal. by destruct t; simpl in *; subst. }
  f_equal. rewrite wrapu32_id by lia. case_bool_decide; lia.
Qed.

(** The tables and ids gathered so far. *)
Record loaded (names : list string) (live c : Cat) : Prop := {
  ld_tables : ∀ n t, c_tables c !! n = Some t ↔ n ∈ names ∧ c_tables live !! n = Some t;
  ld_byID : ∀ i n, c_byID c !! i = Some n ↔ n ∈ names ∧ c_byID live !! i = Some n;
  ld_low : ∀ n t, n ∈ names → c_tables live !! n = Some t → (t_id t + 1 ≤ c_nextTableID c)%Z;
  ld_high : (0 ≤ c_nextTableID c ≤ c_nextTableID live)%Z;
  ld_least : c_nextTableID c = 0%Z ∨
    ∃ n t, n ∈ names ∧ c_tables live !! n = Some t ∧ (t_id t + 1 = c_nextTableID c)%Z }.

Lemma loaded_snoc names n t live c :
  cat_ok live → c_tables live !! n = Some t → loaded names live c →
  loaded (names ++ [n]) live (loadTable n (snap_table n t) c).
Proof.
  intros Hok Hl [H1 H2 H3 H4 H5]. destruct (co_id _ Hok _ _ Hl) as [Hb Hid].
  pose proof (co_next _ Hok) as Hx. pose proof (co_name _ Hok _ _ Hl) as Hn.
  rewrite loadTable_snap; [|done|by apply (co_table _ Hok n)|lia|lia]. split; simpl.
  - intros n' t'. rewrite lookup_insert_Some, H1, elem_of_app, list_elem_of_singleton.
    destruct (decide (n = n')) as [->|]; naive_solver congruence.
  - intros i n'. rewrite lookup_insert_Some, H2, elem_of_app, list_elem_of_singleton. split.
    + intros [[<- <-]|[Hne [? ?]]]; auto.
    + intros [[Hin| ->] Hi]; [|left; split; [|done]].
      * destruct (decide (t_id t = i)) as [<-|]; [left; split; [done|congruence]|right; auto].
      * destruct (co_byID _ Hok _ _ Hi) as (t' & Ht' & <-). congruence.
  - intros n' t'. rewrite elem_of_app, list_elem_of_singleton. intros [Hin| ->] Hl'.
    + specialize (H3 _ _ Hin Hl'). lia.
    + assert (t' = t) as -> by congruence. lia.
  - lia.
  - right. destruct (decide (c_nextTableID c ≤ t_id t + 1)%Z).
    + exists n, t. split_and!; [set_solver|done|lia].
    + destruct H5 as [|(n' & t' & Hin & Ht' & Heq)]; [lia|]. exists n', t'. split_and!; [set_solver|done|lia].
Qed.

Lemma loadTables_loaded names live :
  cat_ok live →
  loaded names live
    (loadTables names (map_imap (λ n t, Some (snap_table n t)) (c_tables live)) empty_cat).
Proof.
  intros Hok. induction names as [|n names IH] using rev_ind.
  { pose proof (co_next _ Hok). split; simpl; [..|lia|by left].
    - intros n t. rewrite lookup_empty. set_solver.
    - intros i n. rewrite lookup_empty. set_solver.
    - set_solver. }
  unfold loadTables. rewrite foldl_app. simpl.
  fold (loadTables names (map_imap (λ n t, Some (snap_table n t)) (c_tables live)) empty_cat).
  rewrite map_lookup_imap. destruct (c_tables live !! n) as [t|] eqn:Hl; simpl.
  - by apply loaded_snoc.
  - destruct IH as [H1 H2 H3 H4 H5].
    assert (∀ i, c_byID live !! i ≠ Some n) as Hni
      by (intros i (t & Ht & _)%(co_byID _ Hok); congruence).
    split; [..|done|].
    + intros n' t'. rewrite H1, elem_of_app, list_elem_of_singleton. naive_solver congruence.
    + intros i n'. rewrite H2, elem_of_app, list_elem_of_singleton. naive_solver congruence.
    + intros n' t'. rewrite elem_of_app, list_elem_of_singleton. intros [Hin| ->] Hl'; [eauto|congruence].
    + destruct H5 as [|(n' & t' & Hin & Ht')]; [by left|]. right. exists n', t'. split; [set_solver|done].
Qed.

(** [nx] is the number after the largest id of the tables. *)
Definition after_ids (ts : gmap string Table) (nx : Z) : Prop :=
  (∀ n t, ts !! n = Some t → t_id t < nx)%Z ∧
  (nx = 0%Z ∨ ∃ n t, ts !! n = Some t ∧ (t_id t + 1 = nx)%Z).

Lemma after_ids_unique ts nx nx' :
  (∀ n t, ts !! n = Some t → 0 ≤ t_id t)%Z → after_ids ts nx → after_ids ts nx' → nx = nx'.
Proof.
  intros H0 [H1 H2] [H3 H4].
  destruct H2 as [->|(n & t & Ht & Hn)], H4 as [->|(n' & t' & Ht' & Hn')].
  - done.
  - specialize (H1 _ _ Ht'). specialize (H0 _ _ Ht'). lia.
  - specialize (H3 _ _ Ht). specialize (H0 _ _ Ht). lia.
  - specialize (H1 _ _ Ht'). specialize (H3 _ _ Ht). lia.
Qed.

(** All but the next table id comes back, in whatever order the tables are
    visited; the next table id is the number after the largest id. *)
Lemma load_catalogue live names :
  cat_ok live → (∀ n, is_Some (c_tables live !! n) → n ∈ names) →
  ∃ nx, loadTables names (map_imap (λ n t, Some (snap_table n t)) (c_tables live)) empty_cat =
      MkCat (c_tables live) (c_byID live) nx ∧
    after_ids (c_tables live) nx ∧ (nx ≤ c_nextTableID live)%Z.
Proof.
  intros Hok Hnames. destruct (loadTables_loaded names live Hok) as [H1 H2 H3 H4 H5].
  destruct (loadTables _ _ _) as [ts b nx]; simpl in *. exists nx. split; [f_equal|split; [split|lia]].
  - apply map_eq. intros n. apply option_eq. intros t. rewrite H1. split; [naive_solver|].
    intros Ht. split; [|done]. eauto.
  - apply map_eq. intros i. apply option_eq. intros n. rewrite H2. split; [naive_solver|].
    intros Hi. split; [|done]. destruct (co_byID _ Hok _ _ Hi) as (t & Ht & _). eauto.
  - intros n t Ht. assert (n ∈ names) as Hin by eauto. specialize (H3 _ _ Hin Ht). lia.
  - destruct H5 as [|(n & t & _ & Ht)]; [by left|]. right. by exists n, t.
Qed.

Lemma sharp_after_ids c : cat_ok c → sharp_ids c ↔ after_ids (c_tables c) (c_nextTableID c).
Proof.
  intros Hok. split; [|by intros [_ H]]. intros H. split; [|done].
  intros n t Ht. destruct (co_id _ Hok _ _ Ht). lia.
Qed.

Lemma tables_ids_pos c : cat_ok c → ∀ n t, c_tables c !! n = Some t → (0 ≤ t_id t)%Z.
Proof. intros Hok n t Ht. destruct (co_id _ Hok _ _ Ht). lia. Qed.

Lemma load_restores live names :
  cat_ok live → sharp_ids live → (∀ n, is_Some (c_tables live !! n) → n ∈ names) →
  loadTables names (map_imap (λ n t, Some (snap_table n t)) (c_tables live)) empty_cat = live.
Proof.
  intros Hok Hsharp Hnames. destruct (load_catalogue live names Hok Hnames) as (nx & -> & Hnx & _).
  assert (nx = c_nextTableID live) as ->; [|by destruct live].
  by eapply after_ids_unique; [apply tables_ids_pos|done|apply sharp_after_ids].
Qed.

Lemma snapshot_names e n : is_Some (e_tables e !! n) → n ∈ sorted_names (sd_Tables (takeSnapshot e)).
Proof.
  intros [t Ht]. apply elem_of_sorted_names. simpl. rewrite map_lookup_imap. unfold e_tables in *. by rewrite Ht.
Qed.

Lemma load_take e :
  cat_ok (e_cat e) → sharp_ids (e_cat e) → loadSnapshot (Some (takeSnapshot e)) = e_cat e.
Proof. intros Hok Hsh. apply load_restores; [done|done|apply snapshot_names]. Qed.

(** C24: Taking a snapshot and loading it restores the tables with their
    columns, rows, next row ids and UNIQUE indexes, and the ids of the tables,
    in whatever order the tables of the snapshot are visited.  The counter of
    table ids is not in the snapshot: it becomes the number after the largest
    table id, which is never above the counter before, and equal to it exactly
    if no table was created yet or the newest table has not been dropped. *)
Theorem snapshot_roundtrip (e : Engine) (names : list string) :
  cat_ok (e_cat e) → (∀ n, is_Some (e_tables e !! n) → n ∈ names) →
  ∃ nx, loadTables names (sd_Tables (takeSnapshot e)) empty_cat =
      MkCat (e_tables e) (c_byID (e_cat e)) nx ∧
    loadSnapshot (Some (takeSnapshot e)) = MkCat (e_tables e) (c_byID (e_cat e)) nx ∧
    after_ids (e_tables e) nx ∧ (nx ≤ c_nextTableID (e_cat e))%Z ∧
    (nx = c_nextTableID (e_cat e) ↔ sharp_ids (e_cat e)).
Proof.
  intros Hok Hn. destruct (load_catalogue _ _ Hok Hn) as (nx & Hl & Hnx & Hle).
  destruct (load_catalogue _ _ Hok (snapshot_names e)) as (nx' & Hl' & Hnx' & _).
  pose proof (after_ids_unique _ _ _ (tables_ids_pos _ Hok) Hnx Hnx') as <-.
  exists nx. split_and!; [exact Hl|exact Hl'|done|done|]. rewrite (sharp_after_ids _ Hok). split; [by intros <-|].
  intros Hsh. by apply (after_ids_unique _ _ _ (tables_ids_pos _ Hok)); [|apply Hsh].
Qed.

(** ** Checkpoints *)

(** When a checkpoint is safe: its I/O succeeds (the listing of old snapshots
    may fail), the newest table id is in use, and the new snapshot is among the
    two with the largest sequence numbers, so that pruning keeps it. *)
Record ckpt_safe (e : Engine) : Prop := {
  ck_stuck : l_stuck (e_wal e) = false;
  ck_io : Forall (eq IoOk) (take 3 (e_io e));
  ck_ids : sharp_ids (e_cat e);
  ck_kept : ∀ k1 k2, is_Some (d_snaps (e_disk e) !! k1) → is_Some (d_snaps (e_disk e) !! k2) →
    (l_Seq (e_wal e) < k1)%Z → (l_Seq (e_wal e) < k2)%Z → k1 = k2 }.

Lemma lookup_foldr_delete (s : gmap Z snapshotData) l k :
  k ∉ l → foldr delete s l !! k = s !! k.
Proof.
  induction l as [|a l IH]; intros Hk; [done|]. simpl.
  rewrite lookup_delete_ne by set_solver. apply IH. set_solver.
Qed.

(** A snapshot with at most one larger sequence number survives pruning. *)
Lemma prune_keeps (s : gmap Z snapshotData) k :
  is_Some (s !! k) →
  (∀ k1 k2, is_Some (s !! k1) → is_Some (s !! k2) → (k < k1)%Z → (k < k2)%Z → k1 = k2) →
  prune s !! k = s !! k.
Proof.
  intros Hk Htop. unfold prune. apply lookup_foldr_delete. intros Hin.
  pose proof (sorted_keys_sorted s) as Hs. pose proof (sorted_keys_NoDup s) as Hnd.
  assert (∀ x, x ∈ reverse (sorted_keys s) → is_Some (s !! x)) as Hel
    by (intros x; by rewrite elem_of_reverse, elem_of_sorted_keys).
  rewrite <-(reverse_involutive (sorted_keys s)) in Hs, Hnd.
  destruct (reverse (sorted_keys s)) as [|a [|b l]]; simpl in Hin; [by apply not_elem_of_nil in Hin..|].
  rewrite drop_0 in Hin. rewrite !reverse_cons in Hs, Hnd.
  apply NoDup_app in Hnd as (Hnd & Hna & _). apply NoDup_app in Hnd as (_ & Hnb & _).
  apply StronglySorted_app in Hs as (Ha & Hs & _). apply StronglySorted_app in Hs as (Hb & _ & _).
  assert (k ∈ reverse l) as Hkl by (by apply elem_of_reverse).
  assert (k < a)%Z.
  { assert (k ≤ a)%Z by (apply Ha; set_solver). assert (k ≠ a) by set_solver. lia. }
  assert (k < b)%Z.
  { assert (k ≤ b)%Z by (apply Hb; set_solver). assert (k ≠ b) by set_solver. lia. }
  assert (a = b) as -> by (apply Htop; auto; apply Hel; set_solver).
  apply (Hna b); set_solver.
Qed.

Lemma Checkpoint_effect e :
  ckpt_safe e →
  let e' := (Checkpoint e).1 in
  (Checkpoint e).2 = Ok tt ∧ e_wal e' = MkLog [] 0 false ∧ e_cat e' = e_cat e ∧
  e_txSeq e' = e_txSeq e ∧ e_io e' = drop 4 (e_io e) ∧
  LoadLatestSnapshot (e_disk e') = Some (takeSnapshot e).
Proof.
  intros [Hst Hio _ Hkept].
  set (S1 := <[l_Seq (e_wal e) := takeSnapshot e]> (d_snaps (e_disk e))).
  assert (prune S1 !! l_Seq (e_wal e) = Some (takeSnapshot e)) as Hp.
  { rewrite prune_keeps; unfold S1; [apply lookup_insert_eq|rewrite lookup_insert_eq; by eexists|].
    intros k1 k2 Hk1 Hk2 Hlt1 Hlt2. rewrite lookup_insert_ne in Hk1, Hk2 by lia. by apply Hkept. }
  unfold Checkpoint, gbind, gget, WriteSnapshot, writeManifest, walTruncate, pruneSnapshots, gmodify,
    next_io, pop_io, log_truncate.
  destruct (e_io e) as [|o1 io1]; simpl.
  { rewrite Hst. simpl. repeat split; done || apply Hp. }
  simpl in Hio. apply Forall_cons in Hio as [<- Hio].
  destruct io1 as [|o2 io2]; simpl.
  { rewrite Hst. simpl. repeat split; done || apply Hp. }
  simpl in Hio. apply Forall_cons in Hio as [<- Hio].
  destruct io2 as [|o3 io3]; simpl.
  { rewrite Hst. simpl. repeat split; done || apply Hp. }
  simpl in Hio. apply Forall_cons in Hio as [<- Hio]. rewrite Hst. simpl.
  destruct io3 as [|[] io4]; simpl; rewrite ?drop_0; repeat split; try done;
    first [apply Hp|apply lookup_insert_eq].
Qed.

Lemma checkpoint_durable e opn :
  durable e opn → no_sync_err e → cat_ok (e_cat e) → ckpt_safe e →
  durable (Checkpoint e).1 opn ∧ no_sync_err (Checkpoint e).1.
Proof.
  intros [_ H2 H3] Hns Hok Hsafe.
  destruct (Checkpoint_effect e Hsafe) as (_ & Hw & Hc & Htx & Hio & Hld).
  split.
  - split; rewrite ?Htx; [|done|done]. exists (e_cat e), ∅. unfold recovered, base.
    rewrite Hw, Hld, load_take by (done || apply Hsafe). split; [done|]. rewrite Hc.
    split; [by apply cat_sim_refl|]. intros tx [? Hx]. by rewrite lookup_empty in Hx.
  - unfold no_sync_err in *. rewrite Hio. intros Hin. apply Hns.
    by eapply elem_of_drop_1 in Hin || (apply list_elem_of_lookup in Hin as [i Hi];
      rewrite lookup_drop in Hi; by eapply list_elem_of_lookup_2).
Qed.

(** ** Runs of the system

    The engine and the ids of the transactions begun and not finished.  The
    transaction of [SS_commit] is any whose buffer is well formed: its writes
    touch the engine only by reserving ids, which are commands of their own. *)
Abbreviation Sys := (Engine * gset Z)%type.

Definition is_checkpoint (c : cmd) : bool :=
  match c with CCheckpoint | CBackground => true | _ => false end.

Inductive sys_step : Sys → Sys → Prop :=
  | SS_cmd c e opn :
      is_checkpoint c = false → room c e → tx_room e → sys_step (e, opn) ((run c e).1, opn)
  | SS_checkpoint e opn : ckpt_safe e → sys_step (e, opn) ((Checkpoint e).1, opn)
  | SS_background e opn : ckpt_safe e → sys_step (e, opn) ((backgroundCheckpoint e).1, opn)
  | SS_begin e opn x e' :
      tx_room e → Begin e = (e', Ok x) → sys_step (e, opn) (e', {[x_id x]} ∪ opn)
  | SS_commit x e opn x' e' q :
      txn_ok (x, e) → x_done x = false → x_id x ∈ opn → Tx.Commit (x, e) = ((x', e'), q) →
      sys_step (e, opn) (e', if x_done x' then opn ∖ {[x_id x]} else opn).

Definition sys_inv (s : Sys) : Prop :=
  cat_ok (e_cat s.1) ∧ durable s.1 s.2 ∧ no_sync_err s.1.

Lemma Commit_cat_ok x e x' e' q :
  txn_ok (x, e) → x_done x = false → Tx.Commit (x, e) = ((x', e'), q) → cat_ok (e_cat e').
Proof.
  intros Hok Hx Hc. unfold Tx.Commit, gbind, gget, glift, gret, on_txn, on_engine in Hc.
  simpl in Hc. rewrite Hx in Hc. pose proof (to_cat _ Hok) as Hcat. simpl in Hcat.
  destruct (validate_spec x e Hok) as [[Hv Hvc]|[[Hv|Hv] _]]; rewrite Hv in Hc; [|by simplify_eq..].
  destruct (valid_commit_ok x e Hok Hvc) as (Hok' & _ & Hdom).
  case_bool_decide; [by simplify_eq|].
  destruct (commitTxn_spec (x_id x) (x_ops x) e Hdom) as (rs & _ & Hct). simpl in Hc.
  destruct (Tx.commitTxn (x_id x) (x_ops x) e) as [e2 q2]. simplify_eq.
  destruct Hct as (e1 & Hlog & _ & [[-> ->]|[-> ->]]);
    pose proof (sm_cat _ _ (lt_same _ _ _ _ Hlog)) as Hcat1.
  - rewrite noteWrite_cat. simpl. by rewrite Hcat1.
  - by rewrite Hcat1.
Qed.

(** The state a command leaves is the one the operation leaves. *)
Lemma gbind_ret_state {S A B} (m : GoM S A) (f : A → B) s :
  (gbind m (λ a, gret (f a)) s).1 = (m s).1.
Proof. unfold gbind, gret. by destruct (m s) as [s' []]. Qed.

Lemma run_durable c e opn :
  is_checkpoint c = false → room c e → tx_room e → cat_ok (e_cat e) → durable e opn → no_sync_err e →
  durable (run c e).1 opn ∧ no_sync_err (run c e).1.
Proof.
  intros Hc Hroom Htx Hok Hdu Hns.
  destruct c as [n cols|n|n pk id r must|n id|n| |]; try done; cbn [run];
    rewrite ?(gbind_ret_state _ (λ _, 0%Z)).
  - by apply create_durable.
  - by apply drop_durable.
  - by apply put_durable.
  - by apply delete_durable.
  - apply ReserveID_durable; [done| |done|done]. intros t Et. by apply (proj1 (proj2 Hroom) n).
Qed.

Lemma sys_step_inv s s' : sys_step s s' → sys_inv s → sys_inv s'.
Proof.
  intros Hst (Hok & Hdu & Hns). destruct Hst as [c e opn Hc Hr Htx|e opn Hs|e opn Hs|e opn x e' Htx Hb
    |x e opn x' e' q Htok Hx Hid Hc]; simpl in *.
  - split; [by apply run_cat_ok|]. by apply run_durable.
  - split; [simpl; by rewrite Checkpoint_cat|]. by apply checkpoint_durable.
  - unfold backgroundCheckpoint. destruct (e_checkpointing e); [|done]. simpl.
    destruct (checkpoint_durable e opn) as [H1 H2]; [done|done|done|done|].
    split; [simpl; by rewrite Checkpoint_cat|]. split; [|done].
    eapply durable_frame; [exact H1|done|done|done|done].
  - unfold Begin in Hb. injection Hb as <- <-. simpl. split; [done|]. split; [|done].
    unfold tx_room in Htx. destruct Hdu as [(c & p & Hr & Hs & Hst) H2 H3].
    rewrite wrapu64_id by lia. split; simpl; [|intros tx; rewrite elem_of_union; intros [?%elem_of_singleton|?%H2]; lia|lia].
    exists c, p. split; [done|]. split; [done|]. intros tx Htx'. destruct (Hst tx Htx') as [Hle Hn].
    split; [lia|]. rewrite elem_of_union, elem_of_singleton. intros [?|?]; [lia|done].
  - split; [simpl; by eapply Commit_cat_ok|].
    pose proof (Commit_durable x e opn Hdu Hns Htok Hx Hid) as H. by rewrite Hc in H.
Qed.

Lemma fresh_inv faults : IoSyncErr ∉ faults → sys_inv (fresh_engine faults, ∅).
Proof.
  intros Hf. split; [apply fresh_ok|]. split; [|done]. split; simpl; [|set_solver|done].
  exists empty_cat, ∅. split; [done|]. split; [apply cat_sim_refl, empty_cat_ok|].
  intros tx [? Hx]. by rewrite lookup_empty in Hx.
Qed.

Lemma sys_inv_open s faults :
  sys_inv s → ∃ e', openLog (e_disk s.1) (l_recs (e_wal s.1)) faults = Ok e' ∧
    abs e' = abs s.1 ∧ cat_ok (e_cat e') ∧ c_byID (e_cat e') = c_byID (e_cat s.1) ∧
    c_nextTableID (e_cat e') = c_nextTableID (e_cat s.1).
Proof.
  intros (Hok & [(c & p & Hr & Hs & _) _ _] & _). unfold openLog, rebuild.
  unfold recovered, base in Hr. rewrite Hr. eexists. split; [done|]. simpl.
  split; [by apply cat_sim_abs|]. split; [by eapply cat_sim_ok|]. by destruct Hs.
Qed.

Lemma sys_run_inv s s' : rtc sys_step s s' → sys_inv s → sys_inv s'.
Proof. induction 1 as [|s s1 s' Hst _ IH]; [done|]. intros Hi. by eapply IH, sys_step_inv. Qed.


(** ** A crash in the middle of a write *)

(** The log up to its last commit record. *)
Fixpoint upto_commit (rs : list WalRecord) : list WalRecord :=
  match rs with
  | [] => []
  | r :: rs =>
      match upto_commit rs with
      | [] => if bool_decide (r_Type r = RecCommit) then [r] else []
      | rs' => r :: rs'
      end
  end.

Lemma upto_commit_prefix rs : ∃ rest, rs = upto_commit rs ++ rest ∧
  Forall (λ r, r_Type r ≠ RecCommit) rest.
Proof.
  induction rs as [|r rs (rest & Hrs & Hf)]; [by exists []|]. simpl.
  destruct (upto_commit rs) as [|r' rs'] eqn:E.
  - case_bool_decide; [by exists rest; simpl; rewrite Hrs at 1|].
    exists (r :: rs). simpl. split; [done|]. constructor; [done|]. by rewrite Hrs.
  - exists rest. simpl. by rewrite Hrs at 1.
Qed.

Lemma replay_no_commit rs c p :
  Forall (λ r, r_Type r ≠ RecCommit) rs → ∃ p', replay rs (c, p) = Ok (c, p').
Proof.
  revert p. induction rs as [|r rs IH]; intros p Hf; simpl; [eauto|].
  apply Forall_cons in Hf as [Hr Hf]. unfold replayRecord.
  case_bool_decide; [by apply IH|]. rewrite bool_decide_eq_false_2 by done. by apply IH.
Qed.

(** Only commit records change the tables. *)
Lemma replay_upto_commit rs c p c' p' :
  replay rs (c, p) = Ok (c', p') → ∃ p1, replay (upto_commit rs) (c, p) = Ok (c', p1).
Proof.
  intros Hr. destruct (upto_commit_prefix rs) as (rest & Hrs & Hf).
  rewrite Hrs, replay_app in Hr. destruct (replay (upto_commit rs) (c, p)) as [[c1 p1]|]; [|done].
  destruct (replay_no_commit rest c1 p1 Hf) as (p2 & Hp2). rewrite Hp2 in Hr.
  injection Hr as <- <-. eauto.
Qed.

Lemma replay_take k rs s s' : replay rs s = Ok s' → is_Ok (replay (take k rs) s).
Proof.
  intros Hr. rewrite <-(take_drop k rs), replay_app in Hr.
  destruct (replay (take k rs) s) as [s1|]; [by eexists|done].
Qed.

Lemma upto_commit_app rs rest :
  Forall (λ r, r_Type r ≠ RecCommit) rest → upto_commit (rs ++ rest) = upto_commit rs.
Proof.
  intros Hf. induction rs as [|r rs IH]; simpl; [|by rewrite IH].
  induction Hf as [|r rest Hr _ IH]; simpl; [done|]. by rewrite IH, bool_decide_eq_false_2.
Qed.

(** A cut of the log after its last commit record keeps all the commits. *)
Lemma upto_commit_take k rs :
  length (upto_commit rs) ≤ k → upto_commit (take k rs) = upto_commit rs.
Proof.
  intros Hk. destruct (upto_commit_prefix rs) as (rest & Hrs & Hf).
  rewrite Hrs at 1. rewrite take_app_ge, upto_commit_app by (done || by apply Forall_take).
  rewrite Hrs at 2. by rewrite upto_commit_app.
Qed.

Lemma upto_commit_synced `{!Gob row, !Gob SchemaChange} rs n :
  length (enc_all (upto_commit rs)) ≤ n → length (enc_all (take (length (upto_commit rs)) rs)) ≤ n ∧
  length (upto_commit rs) ≤ length rs.
Proof.
  destruct (upto_commit_prefix rs) as (rest & Hrs & _). intros Hn.
  rewrite Hrs at 2 4. rewrite take_app_length, length_app. split; [done|lia].
Qed.


(** ** Concrete runs *)
Definition step_ok (c : cmd) (e : Engine) : bool :=
  negb (is_checkpoint c) && roomb c e && bool_decide (e_txSeq e + 1 < 2 ^ 64)%Z.

Fixpoint steps_ok (cs : list cmd) (e : Engine) : bool :=
  match cs with
  | [] => true
  | c :: cs => step_ok c e && steps_ok cs (run c e).1
  end.

Lemma run_all_rtc cs e opn : steps_ok cs e = true → rtc sys_step (e, opn) (run_all cs e, opn).
Proof.
  revert e. induction cs as [|c cs IH]; intros e H; [constructor|]. simpl in H.
  apply andb_true_iff in H as [[[Hc Hr]%andb_true_iff Htx]%andb_true_iff Hcs].
  econstructor; [|apply IH, Hcs]. apply bool_decide_eq_true in Htx.
  apply SS_cmd; [by destruct (is_checkpoint c)|by apply roomb_room|done].
Qed.

(** A table, a checkpoint, a row, and a second row whose commit record is not
    written. *)
Definition demo_faults : list io := replicate 12 IoOk ++ [IoWriteErr 5].
Definition demo_created : Engine := run_all [CCreate "users" demo_cols] (fresh_engine demo_faults).
Definition demo_cmds : list cmd :=
  [CPut "users" 0 0 [VNull; VText "a"] false; CPut "users" 0 0 [VNull; VText "b"] false].
Definition demo_run : Engine := run_all demo_cmds (Checkpoint demo_created).1.

Lemma demo_ckpt_safe : ckpt_safe demo_created.
Proof.
  split.
  - vm_compute. reflexivity.
  - assert (take 3 (e_io demo_created) = replicate 3 IoOk) as -> by (vm_compute; reflexivity).
    repeat constructor.
  - right. destruct (c_tables (e_cat demo_created) !! "users") as [t|] eqn:Et; [|by vm_compute in Et].
    exists "users", t. split; [exact Et|].
    assert (t_id <$> c_tables (e_cat demo_created) !! "users" = Some 0%Z) as H by (vm_compute; reflexivity).
    rewrite Et in H. injection H as ->. vm_compute. reflexivity.
  - assert (d_snaps (e_disk demo_created) = ∅) as -> by (vm_compute; reflexivity).
    intros k1 k2 [? Hk]. by rewrite lookup_empty in Hk.
Qed.

Lemma demo_run_reachable : rtc sys_step (fresh_engine demo_faults, ∅) (demo_run, ∅).
Proof.
  transitivity (demo_created, ∅ : gset Z); [apply run_all_rtc; vm_compute; reflexivity|].
  eapply rtc_l; [apply SS_checkpoint, demo_ckpt_safe|].
  apply run_all_rtc. vm_compute. reflexivity.
Qed.

Lemma demo_faults_ok : IoSyncErr ∉ demo_faults.
Proof. unfold demo_faults. simpl. set_solver. Qed.


Lemma snapshot_roundtrip_witness :
  loadSnapshot (Some (takeSnapshot demo_engine)) = e_cat demo_engine.
Proof.
  destruct (snapshot_roundtrip demo_engine (sorted_names (e_tables demo_engine))) as (nx & _ & H & _ & _ & Hnx).
  - apply demo_engine_ok.
  - intros n Hn. by apply elem_of_sorted_names.
  - rewrite H, (proj2 Hnx); [unfold e_tables; by destruct (e_cat demo_engine)|].
    right. destruct (c_tables (e_cat demo_engine) !! "users") as [t|] eqn:Et; [|by vm_compute in Et].
    exists "users", t. split; [exact Et|].
    assert (t_id <$> c_tables (e_cat demo_engine) !! "users" = Some 0%Z) as Hid by (vm_compute; reflexivity).
    rewrite Et in Hid. injection Hid as ->. vm_compute. reflexivity.
Defined.

Module DemoCrash.
Import DemoGob.

Definition fitsb (r : WalRecord) : bool :=
  bool_decide (0 ≤ r_Txn r < 2 ^ 64)%Z && bool_decide (0 ≤ r_TableID r < 2 ^ 32)%Z &&
  bool_decide (in_int64 (r_RowID r)) &&
  match r_DDL r with
  | None =>
      (bool_decide (r_TableID r = 0 ∧ r_RowID r = 0)%Z && bool_decide (r_Row r = []) &&
        bool_decide (r_Type r = RecBegin ∨ r_Type r = RecCommit)) ||
      bool_decide (r_Type r = RecPut)
  | Some _ =>
      bool_decide (r_TableID r = 0 ∧ r_RowID r = 0)%Z && bool_decide (r_Row r = []) &&
      bool_decide (r_Type r = RecCreate ∨ r_Type r = RecDrop)
  end && (Z.of_nat (length (payload_of r)) <=? maxPayload)%Z.

Lemma fitsb_fits r : fitsb r = true → fits r.
Proof.
  unfold fitsb, fits, wf_record.
  intros [[[[H1 H2]%andb_true_iff H3]%andb_true_iff H4]%andb_true_iff H5%Z.leb_le]%andb_true_iff.
  apply bool_decide_eq_true in H1, H2, H3. split; [|done]. split; [done|].
  destruct (r_DDL r).
  - apply andb_true_iff in H4 as [[H6 H7]%andb_true_iff H8].
    apply bool_decide_eq_true in H6, H7, H8. tauto.
  - apply orb_true_iff in H4 as [[[H6 H7]%andb_true_iff H8]%andb_true_iff|H4].
    + apply bool_decide_eq_true in H6, H7, H8. tauto.
    + apply bool_decide_eq_true in H4. tauto.
Qed.

Lemma forallb_fits rs : forallb fitsb rs = true → Forall fits rs.
Proof.
  intros H. apply Forall_forall. intros r Hr. apply fitsb_fits.
  rewrite forallb_forall in H. by apply H, list_elem_of_In.
Qed.

(** The log file of [demo_run]: five records and five bytes of the sixth. *)
Definition demo_wal : WAL :=
  MkWAL (enc_all (l_recs (e_wal demo_run)) ++ take 5 (enc (mk_commit 3))) 5 true.

Lemma demo_wal_rep : log_rep demo_wal (e_wal demo_run).
Proof.
  split.
  - apply forallb_fits. vm_compute. reflexivity.
  - exists (take 5 (enc (mk_commit 3))). split; [done|]. split; [vm_compute; reflexivity|].
    intros H. vm_compute in H. discriminate H.
  - vm_compute. reflexivity.
  - vm_compute. reflexivity.
Qed.

End DemoCrash.

(** ** Beyond the limits

    Each example is a run of the engine without I/O failures other than the
    crash it names. *)
Definition reopen (e : Engine) (faults : list io) : res Engine :=
  openLog (e_disk e) (l_recs (e_wal e)) faults.

Definition rows_of (n : string) (q : res Engine) : option (list Z) :=
  match q with
  | Ok e => (λ t : Table, sorted_keys (t_rows t)) <$> e_tables e !! n
  | Err _ => None
  end.

Definition ins (n v : string) : cmd := CPut n 0 0 [VNull; VText v] false.

(** Go on with a reopened engine. *)
Definition after (cs : list cmd) (q : res Engine) : res Engine := run_all cs <$> q.
Definition reopened (q : res Engine) : res Engine := q ≫= λ e, reopen e [].

(** Transaction ids start again at 1 after a restart while the log still holds
    the records of a transaction that was never committed: the next
    transaction with that id commits them too.  The insert of "lost" failed and
    is not there after the first restart; creating an unrelated table brings it
    back at the second. *)
Example txid_reuse_resurrects :
  let e1 := run_all [CCreate "t" demo_cols]  (fresh_engine []) in
  let e2 := after [CCheckpoint] (Ok e1) in
  let e3 := after [ins "t" "lost"] (set_io [IoOk; IoOk; IoWriteErr 0] <$> reopened e2) in
  let e4 := reopened e3 in
  let e5 := after [CCreate "u" demo_cols] e4 in
  rows_of "t" e3 = Some [] ∧ rows_of "t" e4 = Some [] ∧ rows_of "t" e5 = Some [] ∧
  rows_of "t" (reopened e5) = Some [1%Z].
Proof. vm_compute. repeat split. Qed.

(** The id of a dropped newest table is given out again after a restart, so
    that the log names a table id that does not exist: the database does not
    open any more. *)
Definition open_error (q : res Engine) : option error :=
  match q with Ok _ => None | Err err => Some err end.

Example table_id_reuse_fails_open :
  let e := run_all [CCreate "a" demo_cols; CCreate "b" demo_cols; CDrop "b"; CCheckpoint;
                    CCreate "c" demo_cols; ins "c" "x"] (fresh_engine []) in
  rows_of "c" (Ok e) = Some [1%Z] ∧
  open_error (reopen e []) = Some (Errorf "tsql: wal replay: %w"
    [AErr (Errorf "tsql: wal put references unknown table id %d" [AInt 2])]).
Proof. vm_compute. repeat split. Qed.

(** A crash between the manifest and the truncation of the log leaves the new
    snapshot with the whole old log; replaying a create, put, drop, create
    sequence over it does not open. *)
Example crash_in_checkpoint_fails_open :
  let e := run_all [CCreate "a" demo_cols; ins "a" "x"; CDrop "a"; CCreate "a" demo_cols; CCheckpoint]
             (fresh_engine (replicate 14 IoOk ++ [IoSyncErr])) in
  rows_of "a" (Ok e) = Some [] ∧
  open_error (reopen e []) = Some (Errorf "tsql: wal replay: %w"
    [AErr (Errorf "tsql: wal put references unknown table id %d" [AInt 0])]).
Proof. vm_compute. repeat split. Qed.

(** Snapshots are named after the number of records in the log, which starts
    at 0 after every checkpoint: a third checkpoint after shorter and shorter
    logs is pruned at once, with the log already empty.  The database reopens
    without its table. *)
Example prune_deletes_newest :
  let e := run_all [CCreate "a" demo_cols; ins "a" "1"; ins "a" "2"; CCheckpoint;
                    ins "a" "3"; ins "a" "4"; CCheckpoint; ins "a" "5"; CCheckpoint]
             (fresh_engine []) in
  rows_of "a" (Ok e) = Some [1; 2; 3; 4; 5]%Z ∧
  open_error (reopen e []) = None ∧ rows_of "a" (reopen e []) = None.
Proof. vm_compute. repeat split. Qed.

(** The largest id an INT primary key can hold makes the next automatic id
    wrap around to a negative one. *)
Example max_id_wraps :
  let e := run_all [CCreate "a" demo_cols; CPut "a" (-1) int64_max [VInt int64_max; VText "m"] false]
             (fresh_engine []) in
  (run (ins "a" "x") e).2 = Ok int64_min.
Proof. vm_compute. reflexivity. Qed.
