(* ===== verification/Accessor.v ===== *)
(** * The interface between the executor and the storage (storage.Accessor)

    The executor reads and writes tables through [storage.Accessor], which the
    engine implements for autocommit and a transaction for an explicit
    transaction.  [Accessor] is the interface; [ReadSpec], [IndexSpec] and
    [AccessorSpec] are what its implementations promise of their reads, their
    UNIQUE indexes and their writes, in terms of the abstract database they show,
    and the two instances discharge them; [metered_spec] adds to a specification what
    else the writes keep while there is room for them. *)
From S2P Require Import Prelude GoStd Types Schema Wal Table Engine Txn.

Open Scope go_scope.

Class Accessor (S : Type) := {
  acc_Catalog : S → list TableDef;
  acc_AllRows : string → S → res (list Z * list row);
  acc_Get : string → Z → S → option row;
  acc_UniqueGet : string → nat → Value → S → option Z;
  acc_Put : string → Z → row → GoM S Z;
  acc_PutAuto : string → Z → row → GoM S Z;
  acc_Update : string → Z → row → GoM S unit;
  acc_Delete : string → Z → GoM S unit }.

(** What the reads show: the state [acc_view] of an abstract database.  The engine
    and a transaction implement it, and so does a state in which other connections
    write between the reads ([Overlap]). *)
Class ReadSpec (S : Type) `{!Accessor S} := {
  acc_view : S → Db;
  acc_inv : S → Prop;
  acc_Catalog_spec s d :
    acc_inv s →
    d ∈ acc_Catalog s ↔ ∃ rows, acc_view s !! td_Name d = Some (td_Cols d, rows);
  acc_AllRows_spec n s :
    acc_inv s →
    acc_AllRows n s =
      match acc_view s !! n with
      | Some (_, rows) => Ok (sorted_rows rows)
      | None => Err ErrNoTable
      end;
  acc_Get_spec n id cols rows s :
    acc_inv s → acc_view s !! n = Some (cols, rows) → acc_Get n id s = rows !! id }.

(** What the UNIQUE indexes find. *)
Class IndexSpec (S : Type) `{!Accessor S, !ReadSpec S} := {
  acc_UniqueGet_spec n ci v cols rows s :
    acc_inv s → acc_view s !! n = Some (cols, rows) → ci ∈ uniqCols cols → v ≠ VNull →
    match acc_UniqueGet n ci v s with
    | Some id => ∃ r, rows !! id = Some r ∧ key_at r ci = Some (uniqKey v)
    | None => ∀ id r, rows !! id = Some r → key_at r ci ≠ Some (uniqKey v)
    end }.

(** A write takes a step of the abstract database from the view before to the
    view after.  Writes are specified for the ids the storage accepts;
    [acc_room k] says that [k] more writes do not make a counter wrap around. *)
Class AccessorSpec (S : Type) `{!Accessor S, !ReadSpec S} := {
  acc_room : Z → S → Prop;
  acc_ids n cols rows id s :
    acc_inv s → acc_view s !! n = Some (cols, rows) → is_Some (rows !! id) →
    (0 < id < int64_max)%Z;
  acc_Put_spec n id r k s s' q :
    acc_inv s → acc_room k s → (0 < k)%Z → (0 ≤ id)%Z → (id + k < int64_max)%Z →
    acc_Put n id r s = (s', q) →
    acc_inv s' ∧ acc_room (k - 1) s' ∧
    acc_step (CPut n (-1) id r false) (acc_view s) q (acc_view s');
  acc_PutAuto_spec n pk r k s s' q :
    acc_inv s → acc_room k s → (0 < k < int64_max)%Z → (0 ≤ pk < Z.of_nat (length r))%Z →
    acc_PutAuto n pk r s = (s', q) →
    acc_inv s' ∧ acc_room (k - 1) s' ∧
    acc_step (CPut n pk 0 r false) (acc_view s) q (acc_view s');
  acc_Update_spec n id r k s s' q :
    acc_inv s → acc_room k s → (0 < k)%Z → (0 < id)%Z → (id + k < int64_max)%Z →
    acc_Update n id r s = (s', q) →
    acc_inv s' ∧ acc_room (k - 1) s' ∧
    acc_step (CPut n (-1) id r true) (acc_view s) ((λ _, id) <$> q) (acc_view s');
  acc_Delete_spec n id s s' q :
    acc_inv s → acc_Delete n id s = (s', q) →
    acc_inv s' ∧ (∀ k, acc_room k s → (0 < k)%Z → acc_room (k - 1) s') ∧
    acc_step (CDelete n id) (acc_view s) ((λ _, 0%Z) <$> q) (acc_view s');
  acc_room_mono k k' s : acc_room k s → (k' ≤ k)%Z → acc_room k' s }.

(** ** The engine: autocommit *)
#[export] Instance engine_accessor : Accessor Engine := {|
  acc_Catalog := Engine.Catalog;
  acc_AllRows := Engine.AllRows;
  acc_Get := Engine.Get;
  acc_UniqueGet := Engine.UniqueGet;
  acc_Put := Engine.Put;
  acc_PutAuto := Engine.PutAuto;
  acc_Update := Engine.Update;
  acc_Delete := Engine.Delete |}.

(** ** A session: an explicit transaction on an engine *)
#[export] Instance txn_accessor : Accessor Sess := {|
  acc_Catalog s := Tx.Catalog s.1 s.2;
  acc_AllRows n s := Tx.AllRows n s.1 s.2;
  acc_Get n id s := Tx.Get n id s.1 s.2;
  acc_UniqueGet n ci v s := Tx.UniqueGet n ci v s.1 s.2;
  acc_Put := Tx.Put;
  acc_PutAuto := Tx.PutAuto;
  acc_Update := Tx.Update;
  acc_Delete := Tx.Delete |}.

(** ** The engine keeps the promise *)
Definition tables_named (e : Engine) : Prop := ∀ n t, e_tables e !! n = Some t → t_name t = n.

Lemma Catalog_elem e d :
  tables_named e →
  d ∈ Engine.Catalog e ↔ ∃ t, e_tables e !! td_Name d = Some t ∧ d = table_def t.
Proof.
  intros Hok. unfold Catalog, catalogLocked. rewrite merge_sort_Permutation, list_elem_of_fmap. split.
  - intros (t & -> & ([n' t'] & -> & Hl)%list_elem_of_fmap).
    apply elem_of_map_to_list in Hl. exists t'. simpl. by rewrite (Hok _ _ Hl).
  - intros (t & Hl & ->). exists t. split; [done|]. apply list_elem_of_fmap.
    exists (t_name t, t). split; [done|]. by apply elem_of_map_to_list.
Qed.

Lemma abs_lookup_inv e n cols rows :
  abs e !! n = Some (cols, rows) →
  ∃ t, e_tables e !! n = Some t ∧ t_cols t = cols ∧ t_rows t = rows.
Proof.
  unfold abs, abs_cat, e_tables. rewrite lookup_fmap. intros (t & Ht & [= -> ->])%fmap_Some. eauto.
Qed.

(** The reads, on any engine whose tables carry their names. *)
Lemma Catalog_abs e d :
  tables_named e → d ∈ Engine.Catalog e ↔ ∃ rows, abs e !! td_Name d = Some (td_Cols d, rows).
Proof.
  intros Hn. rewrite Catalog_elem by done. split.
  - intros (t & Ht & ->). exists (t_rows t). by apply abs_lookup.
  - intros (rows & (t & Ht & Hc & _)%abs_lookup_inv). exists t. split; [done|].
    unfold table_def. rewrite (Hn _ _ Ht), Hc. by destruct d.
Qed.
Lemma AllRows_abs n e :
  Engine.AllRows n e = match abs e !! n with Some (_, rows) => Ok (sorted_rows rows) | None => Err ErrNoTable end.
Proof. unfold AllRows, abs, abs_cat. rewrite lookup_fmap. unfold e_tables. by destruct (c_tables (e_cat e) !! n). Qed.
Lemma Get_abs n id cols rows e : abs e !! n = Some (cols, rows) → Engine.Get n id e = rows !! id.
Proof. intros (t & Ht & _ & <-)%abs_lookup_inv. unfold Get. by rewrite Ht. Qed.

Definition engine_room (k : Z) (e : Engine) : Prop :=
  (c_nextTableID (e_cat e) + 1 < 2 ^ 32)%Z ∧
  ∀ n t, e_tables e !! n = Some t → (t_nextID t + k ≤ int64_max)%Z.

Lemma engine_room_mono k k' e : engine_room k e → (k' ≤ k)%Z → engine_room k' e.
Proof. intros [H1 H2] Hk. split; [done|]. intros n t Ht. specialize (H2 _ _ Ht). lia. Qed.

Lemma engine_room_cat k e e' : engine_room k e → e_cat e' = e_cat e → engine_room k e'.
Proof. intros [H1 H2] Hc. unfold engine_room, e_tables in *. by rewrite Hc. Qed.

(** The counters after a table was given another next id. *)
Lemma engine_room_upd n f k k' e :
  engine_room k e → (k' ≤ k)%Z →
  (∀ t, e_tables e !! n = Some t → (t_nextID (f t) + k' ≤ int64_max)%Z) →
  engine_room k' (upd_table n f e).
Proof.
  intros [H1 H2] Hk Hf. split; [done|]. intros n' t'. unfold e_tables, upd_table. simpl.
  destruct (decide (n' = n)) as [->|Hne].
  - rewrite lookup_alter_eq. intros (t & Ht & ->)%fmap_Some. by apply Hf.
  - rewrite lookup_alter_ne by done. intros Ht. specialize (H2 _ _ Ht). lia.
Qed.

Lemma reserveID_next id must t id' t1 k :
  reserveID id must t = Ok (id', t1) → ids_ok t → (0 < k)%Z → (0 ≤ id)%Z → (id + k < int64_max)%Z →
  (t_nextID t + k ≤ int64_max)%Z → (t_nextID t1 + (k - 1) ≤ int64_max)%Z.
Proof.
  intros Hr [Hn _] Hk H0 Hid Hnx. unfold reserveID in Hr. assert (int64_min < 0)%Z by done.
  assert (∀ z, (0 ≤ z ≤ int64_max)%Z → wrap64 z = z) as Hw
    by (intros; apply wrap64_id; unfold in_int64; lia).
  case_bool_decide as Hz.
  - simpl in Hr. unfold bumpNextID in Hr. simpl in Hr. rewrite Hw in Hr by lia.
    rewrite bool_decide_eq_false_2 in Hr by lia. injection Hr as <- <-. simpl. lia.
  - destruct (_ && negb must); [done|]. destruct (_ && must); [done|]. injection Hr as <- <-.
    destruct (_ && _); [lia|]. rewrite bumpNextID_nextID, Hw by lia. case_bool_decide; lia.
Qed.

Lemma put_room n pk id r must k e :
  cat_ok (e_cat e) → engine_room k e → (0 < k)%Z → (id + k < int64_max)%Z →
  engine_room (k - 1) (put n pk id r must e).1.
Proof.
  intros Hok Hroom Hk Hid. assert (engine_room (k - 1) e) as Hr' by (eapply engine_room_mono; [done|lia]).
  unfold put. destruct (bool_decide_reflect (id < 0)%Z); [done|].
  destruct (_ && bool_decide (id = 0)%Z); [done|].
  destruct (e_tables e !! n) as [t|] eqn:Et; [|done]. destruct (bool_decide (length r ≠ _)); [done|].
  destruct (reserveID id must t) as [[id' t1]|err] eqn:Er; [|done].
  assert (engine_room (k - 1) (upd_table n (λ _, t1) e)) as Hr1.
  { eapply engine_room_upd; [done|lia|]. intros t0 Ht0. rewrite Et in Ht0. injection Ht0 as <-.
    eapply reserveID_next; [done|by apply (co_table _ Hok n)|lia|lia|lia|by apply (proj2 Hroom n)]. }
  destruct (existsb _ _); [done|]. destruct (gbind _ _ _) as [e' q] eqn:Eq.
  apply txn_then in Eq as [(e2 & [[Hc _ _ _] _ _ _ _] & _ & Hk2)|(-> & Hlog & _)]; [..|done].
  - unfold gbind, gret in Hk2. cbn [gmodify] in Hk2.
    pose proof (noteWrite_cat (upd_table n (storeRow id' (stamp pk id' r)) e2)) as Hnw.
    destruct (noteWrite _) as [e4 [[]|]] eqn:E4; [|by inversion E4]. injection Hk2 as <- <-.
    simpl in Hnw. apply (engine_room_cat _ (upd_table n (storeRow id' (stamp pk id' r)) e2)); [|exact Hnw].
    assert (engine_room (k - 1) e2) as Hr2 by (by eapply engine_room_cat).
    eapply engine_room_upd; [done|lia|]. intros t0 Ht0.
    destruct (storeRow_frame id' (stamp pk id' r) t0) as (_ & _ & _ & ->). by eapply (proj2 Hr2).
  - eapply engine_room_cat; [done|]. apply (sm_cat _ _ (lt_same _ _ _ _ Hlog)).
Qed.

Lemma delete_room n id k e : engine_room k e → engine_room k (Delete n id e).1.
Proof.
  intros Hr. unfold Delete. destruct (e_tables e !! n) as [t|]; [|done].
  destruct (t_rows t !! id); [|done]. destruct (gbind _ _ _) as [e' q] eqn:Eq.
  apply txn_then in Eq as [(e2 & [[Hc _ _ _] _ _ _ _] & _ & Hk2)|(-> & Hlog & _)]; [..|done].
  - unfold gbind in Hk2. cbn [gmodify] in Hk2.
    pose proof (noteWrite_cat (upd_table n (eraseRow id) e2)) as Hnw. rewrite Hk2 in Hnw. simpl in *.
    apply (engine_room_cat _ (upd_table n (eraseRow id) e2)); [|exact Hnw].
    assert (engine_room k e2) as Hr2 by (by eapply engine_room_cat).
    eapply engine_room_upd; [done|lia|]. intros t0 Ht0.
    destruct (eraseRow_frame id t0) as (_ & _ & _ & ->). by eapply (proj2 Hr2).
  - eapply engine_room_cat; [done|]. apply (sm_cat _ _ (lt_same _ _ _ _ Hlog)).
Qed.

Lemma engine_room_cmd c k e :
  engine_room k e → (0 < k)%Z → match c with CPut _ _ id _ _ => (id + k < int64_max)%Z | _ => True end → room c e.
Proof.
  intros [Hr1 Hr2] Hk Hid. split; [done|]. split; [|destruct c; try done; lia].
  intros n t Ht. specialize (Hr2 _ _ Ht). lia.
Qed.

(** The steps of the engine from its refinement. *)
Lemma engine_put_step n pk id r must k e e' q :
  cat_ok (e_cat e) → engine_room k e → (0 < k)%Z → (0 ≤ id)%Z → (id + k < int64_max)%Z →
  put n pk id r must e = (e', q) →
  cat_ok (e_cat e') ∧ engine_room (k - 1) e' ∧ db_step (CPut n pk id r must) (abs e) q (abs e').
Proof.
  intros Hok Hroom Hk H0 Hid Hp.
  pose proof (engine_room_cmd (CPut n pk id r must) k e Hroom Hk Hid) as Hr.
  pose proof (put_refines _ _ _ _ _ _ Hok Hr) as H. pose proof (put_room n pk id r must k e Hok Hroom Hk Hid) as H'.
  unfold refines_at in H. simpl in H. rewrite Hp in H, H'. by destruct H as (H1 & H2 & _).
Qed.

#[export] Program Instance engine_reads : ReadSpec Engine := {|
  acc_view := abs;
  acc_inv e := cat_ok (e_cat e) |}.
Next Obligation. intros e d Hok. exact (Catalog_abs e d (co_name _ Hok)). Qed.
Next Obligation. intros n e _. apply AllRows_abs. Qed.
Next Obligation. intros n id cols rows e _. apply Get_abs. Qed.
#[export] Instance engine_index : IndexSpec Engine.
Proof.
  split. intros n ci v cols rows e Hok Hl Hci Hv. simpl. apply abs_lookup_inv in Hl as (t & Ht & <- & <-).
  unfold UniqueGet. rewrite Ht. assert (IsNull v = false) as -> by (by destruct v).
  destruct (co_table _ Hok _ _ Ht) as ([_ [Hd He]] & _ & _). pose proof Hci as [m Hm]%Hd.
  rewrite Hm. simpl. destruct (m !! uniqKey v) as [id|] eqn:Em; [by apply (He _ _ _ _ Hm)|].
  intros id r Hr Hk. enough (m !! uniqKey v = Some id) by congruence. apply (He _ _ _ _ Hm). eauto.
Qed.
#[export] Program Instance engine_accessor_spec : AccessorSpec Engine := {|
  acc_room := engine_room |}.
Next Obligation.
  intros n cols rows id e Hok Hl Hid. apply abs_lookup_inv in Hl as (t & Ht & _ & <-).
  destruct (co_table _ Hok _ _ Ht) as (_ & [Hn Hids] & _). specialize (Hids _ Hid). lia.
Qed.
Next Obligation.
  intros n id r k e e' q Hok Hr Hk H0 Hid Hp.
  destruct (engine_put_step _ _ _ _ _ _ _ _ _ Hok Hr Hk H0 Hid Hp) as (H1 & H2 & H3).
  split; [done|]. split; [done|]. by left.
Qed.
Next Obligation.
  intros n pk r k e e' q Hok Hr Hk Hpk Hp.
  destruct (engine_put_step n pk 0 r false k e e' q Hok Hr ltac:(lia) ltac:(lia) ltac:(lia) Hp) as (H1 & H2 & H3).
  split; [done|]. split; [done|]. by left.
Qed.
Next Obligation.
  intros n id r k e e' q Hok Hr Hk H0 Hid Hp. simpl in Hp. unfold Update, gbind, gret in Hp.
  destruct (put n (-1) id r true e) as [e1 q1] eqn:Ep.
  destruct (engine_put_step n (-1) id r true k e e1 q1 Hok Hr Hk ltac:(lia) Hid Ep) as (H1 & H2 & H3).
  destruct q1 as [id'|err]; injection Hp as <- <-; (split; [done|]); (split; [done|]); left; [|done].
  assert (id' = id) as ->; [|done].
  inversion H3; subst; match goal with H : target _ _ _ _ |- _ => destruct H as [? [?|?]] end; lia.
Qed.
Next Obligation.
  intros n id e e' q Hok Hp. simpl in Hp.
  pose proof (delete_refines n id e Hok) as H. unfold refines_at in H. simpl in H.
  unfold gbind, gret in H. rewrite Hp in H.
  assert (∀ k, engine_room k e → (0 < k)%Z → engine_room (k - 1) e') as Hr.
  { intros k Hk _. pose proof (delete_room n id k e Hk) as H'. rewrite Hp in H'.
    eapply engine_room_mono; [exact H'|lia]. }
  destruct q as [[]|err]; destruct H as (H1 & H2 & _);
    (split; [done|]); (split; [done|]); by left.
Qed.
Next Obligation. intros k k' s Hr Hk. simpl in *. by eapply engine_room_mono. Qed.

(** ** A transaction keeps the promise *)
Lemma writes_spec {A} (c : cmd) (m : GoM Sess A) (f : A → Z) s s' q :
  writes_as c m f s → x_done s.1 = false → m s = (s', q) →
  (txn_ok s' ∧ x_done s'.1 = false) ∧ acc_step c (view s) (f <$> q) (view s').
Proof.
  intros (H1 & [_ _ Hd _] & H3) Hx Hm. rewrite Hm in *. simpl in *. by rewrite Hd.
Qed.

Lemma reserve_room n k e :
  cat_ok (e_cat e) → engine_room k e → (0 < k)%Z → engine_room (k - 1) (ReserveID n e).1.
Proof.
  intros Hok Hr Hk. unfold ReserveID.
  destruct (e_tables e !! n) as [t|] eqn:Et; simpl; [|eapply engine_room_mono; [done|lia]].
  eapply engine_room_upd; [done|lia|]. intros t' Ht'. rewrite Et in Ht'. injection Ht' as <-. simpl.
  destruct (co_table _ Hok _ _ Et) as (_ & [Hn _] & _). pose proof (proj2 Hr _ _ Et).
  rewrite wrap64_id; [lia|]. unfold in_int64. assert (int64_min < 0)%Z by done. lia.
Qed.

(** The engine under a computation that does not touch it. *)
Definition engine_still {A} (m : GoM Sess A) : Prop := ∀ s, (m s).1.2 = s.2.

Lemma still_bind {A B} (m : GoM Sess A) (f : A → GoM Sess B) :
  engine_still m → (∀ a, engine_still (f a)) → engine_still (gbind m f).
Proof.
  intros Hm Hf s. unfold gbind. specialize (Hm s). destruct (m s) as [s' [a|err]]; simpl in *; [|done].
  by rewrite (Hf a s').
Qed.
Lemma still_lift {A} (q : res A) : engine_still (glift q).
Proof. done. Qed.
Lemma still_get : engine_still gget.
Proof. done. Qed.
Lemma still_ret {A} (a : A) : engine_still (gret a).
Proof. done. Qed.
Lemma still_txn f : engine_still (on_txn f).
Proof. done. Qed.

Create HintDb still.
#[local] Hint Resolve still_bind still_lift still_get still_ret still_txn : still.

Lemma still_prepare n r : engine_still (Tx.prepare n r).
Proof. unfold Tx.prepare. eauto 20 with still. Qed.
Lemma still_insertRow n d eff id r : engine_still (Tx.insertRow n d eff id r).
Proof. unfold Tx.insertRow. eauto 20 with still. Qed.
#[local] Hint Resolve still_prepare still_insertRow : still.

Lemma still_Update n id r : engine_still (Tx.Update n id r).
Proof. unfold Tx.Update. eauto 20 with still. Qed.
Lemma still_Delete n id : engine_still (Tx.Delete n id).
Proof. unfold Tx.Delete. eauto 20 with still. Qed.

(** A computation of a transaction that reserves one id at most. *)
Definition may_reserve (n : string) (e e' : Engine) : Prop := e' = e ∨ e' = (ReserveID n e).1.

Lemma bind_reserve {A B} (m : GoM Sess A) n (f : A → GoM Sess B) (g : A → Z → GoM Sess B) s :
  engine_still m → (∀ a, f a = gbind (on_engine (ReserveID n)) (g a) ∨ engine_still (f a)) →
  (∀ a z, engine_still (g a z)) → may_reserve n s.2 (gbind m f s).1.2.
Proof.
  intros Hm Hf Hg. unfold may_reserve. set (e1 := (gbind m f s).1.2). unfold gbind in e1. subst e1. specialize (Hm s).
  destruct (m s) as [s1 [a|err]]; simpl in *; [|by left]. destruct (Hf a) as [->|Hst]; [right|by left; rewrite (Hst s1)].
  unfold gbind, on_engine. destruct s1 as [x1 e1]. simpl in *. subst e1.
  destruct (ReserveID n s.2) as [e2 [z|err]]; [|done]. by rewrite (Hg a z (x1, e2)).
Qed.

Lemma prepare_state n r (s : Sess) : (Tx.prepare n r s).1 = s.
Proof.
  unfold Tx.prepare, gbind, gget, glift, gret.
  destruct (guard_err _ _) as [[]|]; [|done]. destruct (Tx.tableDef _ _) as [d|]; [|done].
  destruct (guard_err _ _) as [[]|]; [|done]. by destruct (Tx.effMapLocked _ _ _).
Qed.

Lemma Tx_Put_engine n id r s : may_reserve n s.2 (Tx.Put n id r s).1.2.
Proof.
  unfold Tx.Put.
  eapply (bind_reserve _ n _ (λ de id,
    gbind (glift (guard_err (bool_decide (is_Some (de.2 !! id))) ErrExists))
      (λ _, Tx.insertRow n de.1 de.2 id r))); [apply still_prepare| |eauto 20 with still].
  intros de. case_bool_decide; [by left|right]. eauto 20 with still.
Qed.

Lemma Tx_PutAuto_engine n pk r s : may_reserve n s.2 (Tx.PutAuto n pk r s).1.2.
Proof.
  unfold Tx.PutAuto.
  eapply (bind_reserve _ n _ (λ de id,
    gbind (glift (guard_err (bool_decide (is_Some (de.2 !! id))) ErrExists)) (λ _,
    gbind (glift (guard_err (negb (bool_decide (0 ≤ pk < Z.of_nat (length r))%Z)) panicIndex))
      (λ _, Tx.insertRow n de.1 de.2 id (stamp pk id r))))); [apply still_prepare| |eauto 20 with still].
  intros de. by left.
Qed.

Lemma may_reserve_room n k e e' :
  cat_ok (e_cat e) → engine_room k e → (0 < k)%Z → may_reserve n e e' → engine_room (k - 1) e'.
Proof. intros Hok Hr Hk [->| ->]; [eapply engine_room_mono; [done|lia]|by apply reserve_room]. Qed.

Lemma session_room_of k x e : engine_room k e → (0 < k)%Z → session_room (x, e).
Proof. intros [_ Hr] Hk n t Ht. specialize (Hr _ _ Ht). simpl in *. lia. Qed.

Lemma overlay_ids n ops m id :
  Forall (λ o, o_kind o = opPut → (0 < o_rowID o < int64_max)%Z) ops →
  (∀ i, is_Some (m !! i) → (0 < i < int64_max)%Z) →
  is_Some (Tx.overlay n ops m !! id) → (0 < id < int64_max)%Z.
Proof.
  revert m. induction ops as [|o ops IH]; intros m Hf Hm; [apply Hm|].
  apply Forall_cons in Hf as [Ho Hf].
  change (Tx.overlay n (o :: ops) m) with (Tx.overlay n ops (overlay_op n o m)). apply IH; [done|].
  intros i. unfold overlay_op. case_bool_decide; [|apply Hm]. destruct (o_kind o).
  - intros [ri [[<- _]|[_ Hi]]%lookup_insert_Some]; [by apply Ho|]. apply Hm. eauto.
  - intros [ri [_ Hi]%lookup_delete_Some]. apply Hm. eauto.
Qed.

Lemma Tx_Catalog_view x e d :
  tables_named e → d ∈ Tx.Catalog x e ↔ ∃ rows, view (x, e) !! td_Name d = Some (td_Cols d, rows).
Proof.
  intros Hn. unfold Tx.Catalog. rewrite Catalog_elem by done. setoid_rewrite view_lookup. cbn [fst snd]. split.
  - intros (t & Ht & ->). eexists. simpl in *. by rewrite Ht.
  - intros (rows & (t & Ht & [= Hc ->])%fmap_Some). exists t. split; [done|].
    unfold table_def. rewrite (Hn _ _ Ht), <-Hc. by destruct d.
Qed.
Lemma Tx_tableDef_inv n e def :
  tables_named e → Tx.tableDef n e = Ok def → ∃ t, e_tables e !! n = Some t ∧ def = table_def t.
Proof.
  intros Hn. unfold Tx.tableDef, res_of_option. destruct (find _ _) as [d|] eqn:Ef; [|done]. intros [= <-].
  apply find_some in Ef as [Hin%list_elem_of_In Hd%bool_decide_eq_true].
  apply (Catalog_elem e d Hn) in Hin as (t & Ht & ->). exists t. by rewrite <-Hd.
Qed.
Lemma Tx_AllRows_view n x e :
  x_done x = false →
  Tx.AllRows n x e = match view (x, e) !! n with Some (_, rows) => Ok (sorted_rows rows) | None => Err ErrNoTable end.
Proof.
  intros Hx. rewrite view_lookup. cbn [fst snd]. unfold Tx.AllRows, Tx.effRowsLocked. rewrite Hx, effMap_spec.
  by destruct (e_tables e !! n).
Qed.
Lemma Tx_Get_view n id cols rows x e :
  x_done x = false → view (x, e) !! n = Some (cols, rows) → Tx.Get n id x e = rows !! id.
Proof.
  intros Hx Hl. rewrite view_lookup in Hl. cbn [fst snd] in Hl.
  apply fmap_Some in Hl as (t & Ht & [= -> ->]). unfold Tx.Get, Get. rewrite Hx, Ht. by rewrite overlay_get.
Qed.

#[export] Program Instance txn_reads : ReadSpec Sess := {|
  acc_view := view;
  acc_inv s := txn_ok s ∧ x_done s.1 = false |}.
Next Obligation. intros [x e] d [[Hok _] _]. exact (Tx_Catalog_view x e d (co_name _ Hok)). Qed.
Next Obligation. intros n [x e] [_ Hx]. by apply Tx_AllRows_view. Qed.
Next Obligation. intros n id cols rows [x e] [_ Hx]. by apply Tx_Get_view. Qed.
#[export] Instance txn_index : IndexSpec Sess.
Proof.
  split. intros n ci v cols rows [x e] [_ Hx] Hl Hci Hv. simpl in *. rewrite view_lookup in Hl. simpl in Hl.
  apply fmap_Some in Hl as (t & Ht & [= -> ->]). by apply Tx_UniqueGet_view.
Qed.
#[export] Program Instance txn_accessor_spec : AccessorSpec Sess := {|
  acc_room k s := engine_room k s.2 |}.
Next Obligation.
  intros n cols rows id [x e] [[Hok Hops] Hx] Hl Hid. simpl in *. rewrite view_lookup in Hl. simpl in Hl.
  apply fmap_Some in Hl as (t & Ht & [= -> ->]). eapply overlay_ids; [| |done].
  - eapply Forall_impl; [done|]. intros o Ho Hk. by destruct (Ho Hk).
  - intros i Hi. destruct (co_table _ Hok _ _ Ht) as (_ & [Hn Hids] & _). specialize (Hids _ Hi). lia.
Qed.
Next Obligation.
  intros n id r k [x e] s' q [Hok Hx] Hr Hk H0 Hid Hp.
  pose proof (session_room_of k x e Hr Hk) as Hsr. pose proof (may_reserve_room n k e _ (to_cat _ Hok) Hr Hk (Tx_Put_engine n id r (x, e))) as Hr'.
  simpl in Hp. rewrite Hp in Hr'.
  destruct (writes_spec _ _ _ _ _ _ (Tx_Put_writes n id r x e Hok Hx Hsr ltac:(lia)) Hx Hp) as [H1 H2].
  split; [done|]. split; [done|]. by destruct q.
Qed.
Next Obligation.
  intros n pk r k [x e] s' q [Hok Hx] Hr Hk Hpk Hp.
  pose proof (session_room_of k x e Hr ltac:(lia)) as Hsr.
  pose proof (may_reserve_room n k e _ (to_cat _ Hok) Hr ltac:(lia) (Tx_PutAuto_engine n pk r (x, e))) as Hr'.
  simpl in Hp. rewrite Hp in Hr'.
  destruct (writes_spec _ _ _ _ _ _ (Tx_PutAuto_writes n pk r x e Hok Hx Hsr Hpk) Hx Hp) as [H1 H2].
  split; [done|]. split; [done|]. by destruct q.
Qed.
Next Obligation.
  intros n id r k [x e] s' q [Hok Hx] Hr Hk H0 Hid Hp. simpl in Hp.
  pose proof (still_Update n id r (x, e)) as Hst. rewrite Hp in Hst. simpl in Hst.
  destruct (writes_spec _ _ _ _ _ _ (Tx_Update_writes n id r x e Hok Hx ltac:(lia)) Hx Hp) as [H1 H2].
  split; [done|]. split; [|done]. rewrite Hst. eapply engine_room_mono; [done|lia].
Qed.
Next Obligation.
  intros n id [x e] s' q [Hok Hx] Hp. simpl in Hp.
  pose proof (still_Delete n id (x, e)) as Hst. rewrite Hp in Hst. simpl in Hst.
  destruct (writes_spec _ _ _ _ _ _ (Tx_Delete_writes n id x e Hok Hx) Hx Hp) as [H1 H2].
  split; [done|]. split; [|done]. intros k Hr _. rewrite Hst. eapply engine_room_mono; [done|lia].
Qed.
Next Obligation. intros k k' s Hr Hk. simpl in *. by eapply engine_room_mono. Qed.

(** ** Metered properties

    A property [D k] of the state that a write keeps, using up one of [k], is
    carried by the specification as part of the room: whatever is proved of a
    statement against the interface is then proved with [D] kept at every write,
    also on the error paths. *)
Section metered.
  Context {S : Type} `{!Accessor S, !ReadSpec S, !AccessorSpec S} (D : Z → S → Prop).

Record metered : Prop := {
  me_mono k k' s : D k s → (k' ≤ k)%Z → D k' s;
  me_Put n id r k s : acc_inv s → acc_room k s → D k s → (0 < k)%Z → (0 ≤ id)%Z → (id + k < int64_max)%Z →
    D (k - 1) (acc_Put n id r s).1;
  me_PutAuto n pk r k s : acc_inv s → acc_room k s → D k s → (0 < k < int64_max)%Z →
    (0 ≤ pk < Z.of_nat (length r))%Z → D (k - 1) (acc_PutAuto n pk r s).1;
  me_Update n id r k s : acc_inv s → acc_room k s → D k s → (0 < k)%Z → (0 < id)%Z → (id + k < int64_max)%Z →
    D (k - 1) (acc_Update n id r s).1;
  me_Delete n id k s : acc_inv s → D k s → (0 < k)%Z → D (k - 1) (acc_Delete n id s).1 }.

Program Definition metered_spec (M : metered) : AccessorSpec S := {|
  acc_room k s := acc_room k s ∧ D k s |}.
Next Obligation. intros M n cols rows id s. apply acc_ids. Qed.
Next Obligation.
  intros M n id r k s s' q Hi [Hr HD] Hk H0 Hid Hp. pose proof (me_Put M n id r k s Hi Hr HD Hk H0 Hid) as H'.
  rewrite Hp in H'. destruct (acc_Put_spec n id r k s s' q Hi Hr Hk H0 Hid Hp) as (? & ? & ?). auto.
Qed.
Next Obligation.
  intros M n pk r k s s' q Hi [Hr HD] Hk Hpk Hp. pose proof (me_PutAuto M n pk r k s Hi Hr HD Hk Hpk) as H'.
  rewrite Hp in H'. destruct (acc_PutAuto_spec n pk r k s s' q Hi Hr Hk Hpk Hp) as (? & ? & ?). auto.
Qed.
Next Obligation.
  intros M n id r k s s' q Hi [Hr HD] Hk H0 Hid Hp. pose proof (me_Update M n id r k s Hi Hr HD Hk H0 Hid) as H'.
  rewrite Hp in H'. destruct (acc_Update_spec n id r k s s' q Hi Hr Hk H0 Hid Hp) as (? & ? & ?). auto.
Qed.
Next Obligation.
  intros M n id s s' q Hi Hp. destruct (acc_Delete_spec n id s s' q Hi Hp) as (H1 & H2 & H3).
  split; [done|]. split; [|done]. intros k [Hr HD] Hk. split; [by apply H2|].
  pose proof (me_Delete M n id k s Hi HD Hk) as H'. by rewrite Hp in H'.
Qed.
Next Obligation.
  intros M k k' s [Hr HD] Hk. split; [by eapply acc_room_mono|by eapply me_mono].
Qed.
End metered.
