(* ===== verification/Ast.v ===== *)
(** * Syntax trees (the AST part of parser/parser.go)

    The statements and expressions the parser produces and the executor runs. *)
From S2P Require Import Prelude GoStd Types Schema.

(** ** Expressions and queries

    A nil [Expr] is [None]; [ColRef] with an empty table is unqualified. *)
Inductive Expr : Type :=
  | Lit (V : Value)
  | ColRef (Table Name : string)
  | Func (Name : string) (Star : bool) (Arg : option Expr)
  | Cmp (Op : string) (L R : Expr)
  | IsNullE (X : Expr) (Not : bool)
  | And (L R : Expr)
  | Or (L R : Expr)
  | Not (X : Expr)
  | Binary (Op : string) (L R : Expr)
  | InList (X : Expr) (List : list Expr) (Not : bool)
  | InSub (X : Expr) (Sub : Select) (Not : bool)
with Select : Type :=
  | MkSelect (Tables : list TableRef) (On : list Expr) (JoinKinds : list string)
      (Star : bool) (Fields : list Expr) (FieldAliases : list string)
      (Where : option Expr) (Group : list Expr) (Having : option Expr)
      (Order : list OrderTerm) (Limit : option Z)
with TableRef : Type :=
  | MkTableRef (Table Alias : string) (Sub : option Select)
with OrderTerm : Type :=
  | MkOrderTerm (E : Expr) (Desc : bool).

(** ** Statements *)
Record ColumnDef := MkColumnDef {
  cd_Name : string; cd_Type : ColumnType; cd_Primary : bool; cd_NotNull : bool;
  cd_AutoInc : bool; cd_Unique : bool; cd_RefTable : string; cd_RefCol : string }.

Record Assignment := MkAssignment { as_Col : string; as_Expr : Expr }.

Record InsertStmt := MkInsert {
  in_Table : string; in_Cols : list string; in_Rows : list (list Expr) }.
Record UpdateStmt := MkUpdate {
  up_Table : string; up_Sets : list Assignment; up_Where : option Expr }.
Record DeleteStmt := MkDelete { de_Table : string; de_Where : option Expr }.

Inductive Statement :=
  | CreateTableS (Name : string) (Cols : list ColumnDef)
  | DropTableS (Name : string) (IfExists : bool)
  | InsertS (s : InsertStmt)
  | SelectS (s : Select)
  | UpdateS (s : UpdateStmt)
  | DeleteS (s : DeleteStmt)
  | BeginS
  | CommitS
  | RollbackS.

Definition IsAggregateFunc (name : string) : bool :=
  bool_decide (name ∈ ["count"; "sum"; "avg"; "min"; "max"]).
