(* ===== verification/Lexer.v ===== *)
(** * The lexer (parser/parser.go: lex)

    [lex] cuts a statement into tokens with their byte positions.  A turn of its
    loop consumes at least one byte, so the number of bytes, plus one for the end
    of the input, is fuel enough; [lex_total] shows it. *)
From Stdlib Require Import Ascii.
From S2P Require Import Prelude GoStd Schema.

Inductive tokKind := tokEOF | tokIdent | tokNum | tokStr | tokPunct.

#[global] Instance tokKind_eq_dec : EqDecision tokKind.
Proof. solve_decision. Defined.

Record token := MkToken { tk_kind : tokKind; tk_text : string; tk_pos : nat }.

(** A loop of the model that was not given enough fuel. *)
Definition errFuel : error := Errorf "out of fuel" [].

(** ** Character classes *)
Definition isIdentStart (c : ascii) : bool :=
  bool_decide (c = "_"%char) || in_range 97 122 c || in_range 65 90 c.
Definition isIdentChar (c : ascii) : bool := isIdentStart c || in_range 48 57 c.

Definition is_space (c : ascii) : bool :=
  bool_decide (c ∈ [" "%char; ascii_of_nat 9; ascii_of_nat 10; ascii_of_nat 13]).

Definition punctChars : list ascii :=
  ["("; ")"; ","; "="; "<"; ">"; "+"; "-"; "*"; "%"; "/"; ";"; "."]%char.
Definition twoChars : list string := ["<="; ">="; "<>"].

Definition quote : ascii := "'"%char.

(** [strings.ToLower] on the bytes of an identifier. *)
Definition lowerChar (c : ascii) : ascii :=
  if in_range 65 90 c then ascii_of_N (N_of_ascii c + 32) else c.
Fixpoint ToLower (s : string) : string :=
  match s with EmptyString => EmptyString | String c s => String (lowerChar c) (ToLower s) end.

(** ** Spans *)

(** The longest prefix of bytes that satisfy [p], and the rest. *)
Fixpoint span (p : ascii → bool) (s : string) : string * string :=
  match s with
  | EmptyString => (EmptyString, EmptyString)
  | String c s' => if p c then let '(a, b) := span p s' in (String c a, b) else (EmptyString, s)
  end.

(** A string literal after its opening quote: two quotes stand for one. *)
Fixpoint lexString (s : string) : option (string * string) :=
  match s with
  | EmptyString => None
  | String c s' =>
      if bool_decide (c = quote) then
        match s' with
        | String c' s'' =>
            if bool_decide (c' = quote) then
              match lexString s'' with Some (t, r) => Some (String quote t, r) | None => None end
            else Some (EmptyString, s')
        | EmptyString => Some (EmptyString, EmptyString)
        end
      else match lexString s' with Some (t, r) => Some (String c t, r) | None => None end
  end.

(** Digits, then a point and more digits. *)
Definition lexNumber (s : string) : string * string :=
  let '(d, s1) := span is_digit s in
  match s1 with
  | String c s2 =>
      if bool_decide (c = "."%char) then
        let '(f, s3) := span is_digit s2 in (d +:+ String c f, s3)
      else (d, s1)
  | EmptyString => (d, s1)
  end.

Definition lexPunct (c : ascii) (s : string) : string * string :=
  match s with
  | String c' s' =>
      if bool_decide (String c (String c' EmptyString) ∈ twoChars)
      then (String c (String c' EmptyString), s') else (String c EmptyString, s)
  | EmptyString => (String c EmptyString, s)
  end.

(** ** The loop *)
Fixpoint lexFrom (fuel : nat) (len : nat) (s : string) : res (list token) :=
  match fuel with
  | O => Err errFuel
  | S fuel =>
      let pos := len - String.length s in
      let emit (k : tokKind) (t : string) (rest : string) :=
        ts ← lexFrom fuel len rest; Ok (MkToken k t pos :: ts) in
      match s with
      | EmptyString => Ok [MkToken tokEOF "" len]
      | String c s' =>
          if is_space c then lexFrom fuel len s'
          else if bool_decide (c = quote) then
            match lexString s' with
            | None => Err (Errorf "syntax error at position %d: unterminated string literal" [AInt (Z.of_nat pos)])
            | Some (t, rest) => emit tokStr t rest
            end
          else if is_digit c then let '(t, rest) := lexNumber s in emit tokNum t rest
          else if isIdentStart c then
            let '(t, rest) := span isIdentChar s in emit tokIdent (ToLower t) rest
          else if bool_decide (c ∈ punctChars) then
            let '(t, rest) := lexPunct c s' in emit tokPunct t rest
          else Err (Errorf "syntax error at position %d: unexpected character %q"
                      [AInt (Z.of_nat pos); AStr (String c EmptyString)])
      end
  end.

Definition lex (src : string) : res (list token) := lexFrom (S (String.length src)) (String.length src) src.

(** ** Lengths *)
Abbreviation slen := String.length.

Lemma span_length p s : slen (span p s).1 + slen (span p s).2 = slen s.
Proof.
  induction s as [|c s IH]; simpl; [done|]. destruct (p c); [|done].
  destruct (span p s) as [a b]. simpl in *. lia.
Qed.

Lemma lexString_length s t r : lexString s = Some (t, r) → slen r < slen s.
Proof.
  revert t r. induction s as [s IH] using (induction_ltof1 _ slen). unfold ltof in IH.
  intros t r. destruct s as [|c s]; [done|]. simpl. case_bool_decide.
  - destruct s as [|c' s]; [intros [= <- <-]; simpl; lia|]. case_bool_decide.
    + destruct (lexString s) as [[t' r']|] eqn:E; [|done]. intros [= <- <-].
      apply IH in E; simpl in *; lia.
    + intros [= <- <-]. simpl. lia.
  - destruct (lexString s) as [[t' r']|] eqn:E; [|done]. intros [= <- <-]. apply IH in E; simpl; lia.
Qed.

Lemma lexNumber_length c s : is_digit c = true → slen (lexNumber (String c s)).2 ≤ slen s.
Proof.
  intros Hc. unfold lexNumber. cbn [span]. rewrite Hc. pose proof (span_length is_digit s) as H.
  destruct (span is_digit s) as [d s1]. simpl in H. destruct s1 as [|c1 s2]; [simpl in *; lia|].
  case_bool_decide; [|simpl in *; lia]. pose proof (span_length is_digit s2).
  destruct (span is_digit s2). simpl in *. lia.
Qed.

Lemma lexPunct_length c s : slen (lexPunct c s).2 ≤ slen s.
Proof. destruct s as [|c' s]; simpl; [done|]. case_bool_decide; simpl; lia. Qed.

(** Enough fuel: one unit more than bytes left. *)
Lemma lexFrom_total fuel len s : slen s < fuel → lexFrom fuel len s ≠ Err errFuel.
Proof.
  revert s. induction fuel as [|fuel IH]; intros s Hf; [lia|]. cbn [lexFrom].
  assert (∀ k t rest, slen rest < fuel →
    (ts ← lexFrom fuel len rest; Ok (MkToken k t (len - slen s) :: ts)) ≠ Err errFuel) as Hemit.
  { intros k t rest Hr Heq. apply (IH rest Hr). destruct (lexFrom fuel len rest); [done|].
    simpl in Heq. congruence. }
  destruct s as [|c s]; [done|]. simpl in Hf.
  destruct (is_space c); [apply IH; lia|]. case_bool_decide.
  { destruct (lexString s) as [[t r]|] eqn:E; [|done]. apply lexString_length in E. apply Hemit. lia. }
  destruct (is_digit c) eqn:Hd.
  { pose proof (lexNumber_length c s Hd). destruct (lexNumber (String c s)). apply Hemit. simpl in *. lia. }
  destruct (isIdentStart c) eqn:Hi.
  { cbn [span]. unfold isIdentChar at 1. rewrite Hi. cbn [orb]. pose proof (span_length isIdentChar s).
    destruct (span isIdentChar s). apply Hemit. simpl in *. lia. }
  case_bool_decide; [|done]. pose proof (lexPunct_length c s). destruct (lexPunct c s). apply Hemit. simpl in *. lia.
Qed.

(** ** Well-formed tokens *)
Definition ident_text (s : string) : Prop :=
  match s with
  | EmptyString => False
  | String c s' => isIdentStart c = true ∧ all_chars isIdentChar s' = true
  end ∧ ToLower s = s.
Definition num_text (s : string) : Prop :=
  match s with EmptyString => False | String c _ => is_digit c = true end ∧ lexNumber s = (s, EmptyString).
Definition punct_text (s : string) : Prop :=
  s ∈ twoChars ∨ ∃ c, c ∈ punctChars ∧ s = String c EmptyString.

Definition wf_token (t : token) : Prop :=
  match tk_kind t with
  | tokEOF => False
  | tokIdent => ident_text (tk_text t)
  | tokNum => num_text (tk_text t)
  | tokStr => True
  | tokPunct => punct_text (tk_text t)
  end.

(** The part of a token that the grammar looks at. *)
Definition sym (t : token) : tokKind * string := (tk_kind t, tk_text t).

Lemma span_prefix p s : all_chars p (span p s).1 = true.
Proof.
  induction s as [|c s IH]; simpl; [done|]. destruct (p c) eqn:Ep; [|done].
  destruct (span p s). simpl in *. by rewrite Ep.
Qed.

Lemma span_all p s : all_chars p s = true → span p s = (s, EmptyString).
Proof.
  induction s as [|c s IH]; simpl; [done|]. intros [-> Hs]%andb_true_iff. by rewrite IH.
Qed.

(** The byte that stops a span. *)
Lemma span_stop p a c r : all_chars p a = true → p c = false → span p (a +:+ String c r) = (a, String c r).
Proof.
  induction a as [|x a IH]; simpl; [by intros _ ->|]. intros [-> Ha]%andb_true_iff Hc. by rewrite IH.
Qed.

Lemma span_digits_idem s : span is_digit (span is_digit s).1 = ((span is_digit s).1, EmptyString).
Proof. apply span_all, span_prefix. Qed.

Lemma lexNumber_idem c s :
  is_digit c = true → num_text (lexNumber (String c s)).1.
Proof.
  intros Hc. unfold lexNumber. pose proof (span_prefix is_digit (String c s)) as Hd.
  assert (∃ d, (span is_digit (String c s)).1 = String c d) as [d Ed].
  { simpl. rewrite Hc. destruct (span is_digit s). simpl. eauto. }
  destruct (span is_digit (String c s)) as [d' s1]. simpl in Hd, Ed. subst d'.
  assert (num_text (String c d)) as Hnum.
  { split; [done|]. unfold lexNumber. by rewrite (span_all _ _ Hd). }
  destruct s1 as [|c1 s2]; [done|]. case_bool_decide as Hdot; [|done]. subst c1.
  pose proof (span_prefix is_digit s2) as Hf. destruct (span is_digit s2) as [f s3]. simpl in Hf |- *.
  split; [done|]. unfold lexNumber. change (String c (d +:+ String "."%char f)) with (String c d +:+ String "."%char f).
  rewrite span_stop by done. rewrite bool_decide_eq_true_2 by done. by rewrite (span_all _ _ Hf).
Qed.

Lemma lower_range c : in_range 65 90 (lowerChar c) = false ∧
  (isIdentStart c = true → isIdentStart (lowerChar c) = true) ∧
  (isIdentChar c = true → isIdentChar (lowerChar c) = true).
Proof. destruct c as [[] [] [] [] [] [] [] []]; by vm_compute. Qed.

Lemma ToLower_idem s : ToLower (ToLower s) = ToLower s.
Proof.
  induction s as [|c s IH]; simpl; [done|]. rewrite IH. unfold lowerChar at 1.
  by rewrite (proj1 (lower_range c)).
Qed.

Lemma ToLower_chars s : all_chars isIdentChar s = true → all_chars isIdentChar (ToLower s) = true.
Proof.
  induction s as [|c s IH]; simpl; [done|]. intros [Hc Hs]%andb_true_iff.
  apply andb_true_iff. split; [by apply lower_range|auto].
Qed.

Lemma lex_ident c s : isIdentStart c = true → ident_text (ToLower (span isIdentChar (String c s)).1).
Proof.
  intros Hc. assert (isIdentChar c = true) as Hc' by (unfold isIdentChar; by rewrite Hc).
  cbn [span]. rewrite Hc'. pose proof (span_prefix isIdentChar s) as H.
  destruct (span isIdentChar s) as [a b]. simpl in *. split; [|by apply (ToLower_idem (String c a))].
  split; [by apply lower_range|]. by apply ToLower_chars.
Qed.

Lemma lex_punct c s : c ∈ punctChars → punct_text (lexPunct c s).1.
Proof.
  intros Hc. destruct s as [|c' s]; simpl; [right; eauto|]. case_bool_decide; simpl; [by left|right; eauto].
Qed.

(** What [lex] returns: well-formed tokens and the end of the input. *)
Lemma lexFrom_shape fuel len s toks :
  lexFrom fuel len s = Ok toks → ∃ ts, toks = ts ++ [MkToken tokEOF "" len] ∧ Forall wf_token ts.
Proof.
  revert s toks. induction fuel as [|fuel IH]; intros s toks; [done|]. cbn [lexFrom].
  assert (∀ k t p rest, wf_token (MkToken k t p) →
    (ts ← lexFrom fuel len rest; Ok (MkToken k t p :: ts)) = Ok toks →
    ∃ ts, toks = ts ++ [MkToken tokEOF "" len] ∧ Forall wf_token ts) as Hemit.
  { intros k t p rest Hw Heq. destruct (lexFrom fuel len rest) as [ts|] eqn:E; [|done].
    simpl in Heq. injection Heq as <-. destruct (IH _ _ E) as (ts' & -> & Hts).
    exists (MkToken k t p :: ts'). split; [done|]. by constructor. }
  destruct s as [|c s]; [intros [= <-]; by exists []|].
  destruct (is_space c); [apply IH|]. case_bool_decide.
  { destruct (lexString s) as [[t r]|]; [|done]. by apply Hemit. }
  destruct (is_digit c) eqn:Hd.
  { pose proof (lexNumber_idem c s Hd). destruct (lexNumber (String c s)). by apply Hemit. }
  destruct (isIdentStart c) eqn:Hi.
  { pose proof (lex_ident c s Hi) as Ht. destruct (span isIdentChar (String c s)). by apply Hemit. }
  case_bool_decide as Hp; [|done]. pose proof (lex_punct c s Hp). destruct (lexPunct c s). by apply Hemit.
Qed.

(** ** Printing tokens *)
Fixpoint escape (s : string) : string :=
  match s with
  | EmptyString => EmptyString
  | String c s => if bool_decide (c = quote) then String quote (String quote (escape s)) else String c (escape s)
  end.
Definition printToken (t : token) : string :=
  match tk_kind t with
  | tokStr => String quote (escape (tk_text t) +:+ String quote EmptyString)
  | _ => tk_text t
  end.
(** Tokens separated by spaces. *)
Fixpoint printTokens (ts : list token) : string :=
  match ts with [] => EmptyString | t :: ts => printToken t +:+ String " " (printTokens ts) end.

Lemma str_app_assoc (a b c : string) : (a +:+ b) +:+ c = a +:+ (b +:+ c).
Proof. induction a as [|x a IH]; [done|]. change (String x ((a +:+ b) +:+ c) = String x (a +:+ (b +:+ c))). by f_equal. Qed.

Lemma str_app_nil (a : string) : a +:+ EmptyString = a.
Proof. induction a as [|x a IH]; [done|]. change (String x (a +:+ EmptyString) = String x a). by f_equal. Qed.

Lemma span_split p s d r : span p s = (d, r) → s = d +:+ r ∧ all_chars p d = true.
Proof.
  revert d r. induction s as [|c s IH]; simpl; intros d r; [by intros [= <- <-]|].
  destruct (p c) eqn:Ec; [|by intros [= <- <-]]. destruct (span p s) as [a b].
  intros [= <- <-]. destruct (IH _ _ eq_refl) as [-> Ha]. simpl. by rewrite Ec.
Qed.

Lemma lexString_escape t r :
  match r with String c _ => c ≠ quote | EmptyString => True end →
  lexString (escape t +:+ String quote r) = Some (t, r).
Proof.
  intros Hr. induction t as [|c t IH].
  - change (lexString (String quote r) = Some (EmptyString, r)). cbn [lexString].
    rewrite bool_decide_eq_true_2 by done. destruct r as [|c' r]; [done|].
    by rewrite bool_decide_eq_false_2.
  - cbn [escape]. case_bool_decide as Hc.
    + change (lexString (String quote (String quote (escape t +:+ String quote r))) = Some (String c t, r)).
      cbn [lexString]. rewrite !bool_decide_eq_true_2 by done. rewrite IH. by subst.
    + change (lexString (String c (escape t +:+ String quote r)) = Some (String c t, r)).
      cbn [lexString]. rewrite bool_decide_eq_false_2 by done. by rewrite IH.
Qed.

Lemma lexNumber_space s r : num_text s → lexNumber (s +:+ String " " r) = (s, String " " r).
Proof.
  intros [_ H]. unfold lexNumber in *.
  destruct (span is_digit s) as [d s1] eqn:Es. destruct (span_split _ _ _ _ Es) as [-> Hd].
  destruct s1 as [|c s2]; [rewrite str_app_nil; by rewrite span_stop|].
  case_bool_decide as Hc; [|by injection H]. subst c. destruct (span is_digit s2) as [f s3] eqn:Ef.
  destruct (span_split _ _ _ _ Ef) as [-> Hf]. injection H as _ ->.
  rewrite str_app_nil, str_app_assoc. change (String ?x ?a +:+ ?b) with (String x (a +:+ b)).
  rewrite span_stop by done. rewrite bool_decide_eq_true_2 by done. by rewrite span_stop.
Qed.

Lemma lexPunct_space c s r :
  punct_text (String c s) → lexPunct c (s +:+ String " " r) = (String c s, String " " r) ∧ c ∈ punctChars.
Proof.
  intros [H|(c' & Hc & [= -> ->])].
  - apply list_elem_of_In in H. simpl in H.
    destruct H as [H|[H|[H|[]]]]; injection H as <- <-;
      (split; [done|]; apply list_elem_of_In; simpl; tauto).
  - split; [|done]. change (lexPunct c' (String " " r) = (String c' EmptyString, String " " r)).
    unfold lexPunct. rewrite bool_decide_eq_false_2; [done|].
    rewrite list_elem_of_In. simpl. intros [H|[H|[H|[]]]]; discriminate H.
Qed.

(** The byte classes are disjoint. *)
Lemma byte_classes c :
  (isIdentStart c = true → is_space c = false ∧ bool_decide (c = quote) = false ∧ is_digit c = false) ∧
  (is_digit c = true → is_space c = false ∧ bool_decide (c = quote) = false) ∧
  (bool_decide (c ∈ punctChars) = true →
    is_space c = false ∧ bool_decide (c = quote) = false ∧ is_digit c = false ∧ isIdentStart c = false).
Proof. destruct c as [[] [] [] [] [] [] [] []]; vm_compute; repeat split; done. Qed.

Lemma ident_tail c s : ident_text (String c s) → all_chars isIdentChar (String c s) = true.
Proof. intros [[Hc Hs] _]. simpl. apply andb_true_iff. split; [|done]. unfold isIdentChar. by rewrite Hc. Qed.

(** One printed token and the space after it take two turns of the loop. *)
Lemma lexFrom_token fuel len t r :
  wf_token t →
  ∃ pos, lexFrom (S (S fuel)) len (printToken t +:+ String " " r)
         = (ts ← lexFrom fuel len r; Ok (MkToken (tk_kind t) (tk_text t) pos :: ts)).
Proof.
  destruct t as [k s p]. unfold wf_token, printToken. cbn [tk_kind tk_text].
  destruct k; intros Hw; [done| | | |]; remember (S fuel) as n eqn:En.
  - destruct s as [|c s]; [by destruct Hw|]. pose proof (ident_tail c s Hw) as Hall. destruct Hw as [[Hc _] Hlow].
    change (String c s +:+ String " " r) with (String c (s +:+ String " " r)). cbn [lexFrom].
    destruct (proj1 (byte_classes c) Hc) as (-> & -> & ->). rewrite Hc.
    change (String c (s +:+ String " " r)) with (String c s +:+ String " " r).
    rewrite span_stop by done. rewrite Hlow. subst n. by eexists.
  - destruct s as [|c s]; [by destruct Hw|]. pose proof (lexNumber_space _ r Hw) as Hn. destruct Hw as [Hc _].
    change (String c s +:+ String " " r) with (String c (s +:+ String " " r)) in *. cbn [lexFrom].
    destruct (proj1 (proj2 (byte_classes c)) Hc) as [-> ->]. rewrite Hc, Hn. subst n. by eexists.
  - change (String quote (escape s +:+ String quote EmptyString) +:+ String " " r)
      with (String quote ((escape s +:+ String quote EmptyString) +:+ String " " r)).
    rewrite str_app_assoc. cbn [lexFrom]. change (is_space quote) with false.
    rewrite bool_decide_eq_true_2 by done.
    change (String quote EmptyString +:+ String " " r) with (String quote (String " " r)).
    rewrite lexString_escape by done. subst n. by eexists.
  - destruct s as [|c s]; [by destruct Hw as [?%list_elem_of_In|(? & _ & ?)]; simpl in *; intuition|].
    destruct (lexPunct_space c s r Hw) as [Hp Hc].
    apply (bool_decide_eq_true_2 (c ∈ punctChars)) in Hc.
    change (String c s +:+ String " " r) with (String c (s +:+ String " " r)). cbn [lexFrom].
    destruct (proj2 (proj2 (byte_classes c)) Hc) as (-> & -> & -> & ->). rewrite Hc, Hp. subst n. by eexists.
Qed.

Lemma slen_app a b : slen (a +:+ b) = slen a + slen b.
Proof. induction a as [|x a IH]; [done|]. change (S (slen (a +:+ b)) = S (slen a) + slen b). lia. Qed.

Lemma printToken_length t : wf_token t → 1 ≤ slen (printToken t).
Proof.
  destruct t as [[] [|c s] p]; unfold wf_token, ident_text, num_text, printToken; simpl; try lia; try by intros [[] _].
  intros [H%list_elem_of_In|(? & _ & ?)]; [simpl in H; intuition discriminate|done].
Qed.

Lemma lexFrom_print ts fuel len :
  Forall wf_token ts → slen (printTokens ts) < fuel →
  ∃ ts', lexFrom fuel len (printTokens ts) = Ok (ts' ++ [MkToken tokEOF "" len]) ∧ map sym ts' = map sym ts.
Proof.
  intros Hts. revert fuel. induction Hts as [|t ts Ht _ IH]; intros fuel Hf.
  { exists []. destruct fuel; [simpl in Hf; lia|done]. }
  cbn [printTokens] in *. rewrite slen_app in Hf. pose proof (printToken_length t Ht). simpl in Hf.
  destruct fuel as [|[|fuel]]; [lia..|]. destruct (lexFrom_token fuel len t (printTokens ts) Ht) as [pos ->].
  destruct (IH fuel ltac:(lia)) as (ts' & -> & Hs).
  exists (MkToken (tk_kind t) (tk_text t) pos :: ts'). split; [done|]. simpl. by rewrite Hs.
Qed.

(** The lexer always comes to an end within its fuel, one turn per byte and
    one for the end of the input, on every string of bytes: it returns tokens
    closed by the end-of-input token at the end of the text, or a syntax error. *)
Theorem lex_total src :
  lex src ≠ Err errFuel ∧
  ∀ toks, lex src = Ok toks →
    ∃ ts, toks = ts ++ [MkToken tokEOF "" (slen src)] ∧ Forall wf_token ts.
Proof. split; [apply lexFrom_total; lia|]. intros toks. apply lexFrom_shape. Qed.

(** round trip of the lexer.  Whatever text it accepts, writing its tokens
    back (identifiers in lower case, string literals with their quotes doubled,
    a space after each token) and lexing that text again gives the same kinds
    and texts: no literal, number, identifier or operator is read differently
    from how it is written. *)
Theorem lex_roundtrip src ts eof :
  lex src = Ok (ts ++ [eof]) →
  ∃ ts' eof', lex (printTokens ts) = Ok (ts' ++ [eof']) ∧ map sym ts' = map sym ts.
Proof.
  intros H. destruct (lexFrom_shape _ _ _ _ H) as (ts0 & [-> _]%app_inj_tail & Hts).
  destruct (lexFrom_print ts0 (S (slen (printTokens ts0))) (slen (printTokens ts0)) Hts ltac:(lia)) as (ts' & Hl & Hs).
  eauto.
Qed.

Definition demo_src : string := "SELECT x1,'it''s' FROM t_2 Where x1<=1.50;".
Definition demo_toks : list token := match lex demo_src with Ok ts => ts | Err _ => [] end.

Lemma lex_roundtrip_witness :
  printTokens (take 10 demo_toks) = "select x1 , 'it''s' from t_2 where x1 <= 1.50 " ∧
  ∃ ts' eof', lex (printTokens (take 11 demo_toks)) = Ok (ts' ++ [eof']) ∧ map sym ts' = map sym (take 11 demo_toks).
Proof.
  split; [vm_compute; reflexivity|].
  apply (lex_roundtrip demo_src (take 11 demo_toks) (MkToken tokEOF "" 42)). vm_compute. reflexivity.
Defined.
