(* ===== verification/Parser.v ===== *)
(** * The recursive-descent parser (parser/parser.go: parser, parse*, Parse)

    The parser walks over the tokens of the lexer.  Its state, the token slice and
    the index [i], is the list of the tokens from [i] on; the last one is the
    end-of-input token, which [next] never passes.  Saving and restoring [p.i] is
    keeping the older list.

    Every loop of the code consumes a token per turn, so it gets the number of
    remaining tokens as fuel; the recursion through parentheses and subqueries
    ([parseExpr] and [parseSelect] call each other) gets the number of tokens of
    the statement.  A fuel that runs out is the error [errFuel]; the file Grammar
    shows that it never does. *)
From S2P Require Import Prelude GoStd Types Schema Ast Lexer.

(** ** The parser monad *)
Definition PM (A : Type) : Type := list token → res (A * list token).

#[global] Instance PM_ret : MRet PM := λ A a s, Ok (a, s).
#[global] Instance PM_bind : MBind PM := λ A B f m s,
  match m s with Ok (a, s') => f a s' | Err e => Err e end.

Definition tokNone : token := MkToken tokEOF "" 0.
Definition peek (s : list token) : token := default tokNone (head s).

Definition next : PM token := λ s,
  match s with
  | t :: ((_ :: _) as s') => Ok (t, s')
  | _ => Ok (peek s, s)
  end.

(** A rendered token: its text is printed with [%q]. *)
Definition describe (t : token) : arg :=
  match tk_kind t with
  | tokEOF => AStr "end of input"
  | _ => AErr (Errorf "%q" [AStr (tk_text t)])
  end.

Definition errf {A} (format : string) (a : list arg) : PM A := λ s,
  Err (Errorf ("syntax error at position %d: " +:+ format) (AInt (Z.of_nat (tk_pos (peek s))) :: a)).

Definition isPunct (x : string) (t : token) : bool :=
  bool_decide (tk_kind t = tokPunct) && bool_decide (tk_text t = x).
Definition isKw (kw : string) (t : token) : bool :=
  bool_decide (tk_kind t = tokIdent) && bool_decide (tk_text t = kw).
Definition isIdent (t : token) : bool := bool_decide (tk_kind t = tokIdent).
Definition punctIn (xs : list string) (t : token) : bool :=
  bool_decide (tk_kind t = tokPunct) && bool_decide (tk_text t ∈ xs).

(** Branch on the token at hand. *)
Definition ifPeek {A} (test : token → bool) (yes no : PM A) : PM A := λ s,
  if test (peek s) then yes s else no s.
Definition withPeek {A} (k : token → PM A) : PM A := λ s, k (peek s) s.
(** Give a loop as much fuel as tokens are left. *)
Definition withFuel {A} (k : nat → PM A) : PM A := λ s, k (length s) s.
Definition outOfFuel {A} : PM A := λ _, Err errFuel.

Definition expectPunct (x : string) : PM unit :=
  ifPeek (isPunct x) (_ ← next; mret tt)
    (withPeek (λ t, errf "expected %q, got %s" [AStr x; describe t])).
Definition expectKw (kw : string) : PM unit :=
  ifPeek (isKw kw) (_ ← next; mret tt)
    (withPeek (λ t, errf "expected %q, got %s" [AStr kw; describe t])).
Definition takeKw (kw : string) : PM bool :=
  ifPeek (isKw kw) (_ ← next; mret true) (mret false).
Definition identOrErr (what : string) : PM string :=
  ifPeek isIdent (t ← next; mret (tk_text t))
    (withPeek (λ t, errf "expected %s, got %s" [AStr what; describe t])).

Definition refStopWords : list string :=
  ["where"; "group"; "order"; "limit"; "join"; "inner"; "left"; "right"; "outer"; "cross"; "on"; "having"; "in"; "not"].
Definition fieldStopWords : list string := ["from"; "where"; "group"; "having"; "order"; "limit"].
Definition isAlias (stop : list string) (t : token) : bool := isIdent t && negb (bool_decide (tk_text t ∈ stop)).

(** ** The shapes of the loops *)

(** [for { x := p(); append; if "," { next; continue }; break }] *)
Fixpoint commaLoop {A} (p : PM A) (n : nat) : PM (list A) :=
  match n with
  | O => outOfFuel
  | S n =>
      x ← p;
      ifPeek (isPunct ",") (_ ← next; xs ← commaLoop p n; mret (x :: xs)) (mret [x])
  end.
Definition commaList {A} (p : PM A) : PM (list A) := withFuel (commaLoop p).

(** [for op(peek) { next; r := p(); l = op(l, r) }] *)
Fixpoint chainLoop (op : token → option (Expr → Expr → Expr)) (p : PM Expr) (l : Expr) (n : nat) : PM Expr :=
  withPeek (λ t,
    match op t with
    | None => mret l
    | Some f =>
        match n with
        | O => outOfFuel
        | S n => _ ← next; r ← p; chainLoop op p (f l r) n
        end
    end).
Definition chain (op : token → option (Expr → Expr → Expr)) (p : PM Expr) : PM Expr :=
  l ← p; withFuel (chainLoop op p l).

(** A function that calls itself after a prefix token. *)
Fixpoint prefixLoop (test : token → bool) (f : Expr → Expr) (p : PM Expr) (n : nat) : PM Expr :=
  ifPeek test
    (match n with
     | O => outOfFuel
     | S n => _ ← next; x ← prefixLoop test f p n; mret (f x)
     end)
    p.

(** ** Expressions, given the recursive calls *)
Section recursive.
  Context (parseExpr : PM Expr) (parseSelect : PM Select).

Definition parseNumber (text : string) : PM Expr :=
  match (split_dot text).2 with
  | Some _ =>
      match ParseFloat text with
      | Some f => mret (Lit (VFloat f))
      | None => errf "bad number %q" [AStr text]
      end
  | None =>
      match ParseInt text with
      | Some n => mret (Lit (VInt n))
      | None => errf "bad number %q" [AStr text]
      end
  end.

(** The argument of a function call and the closing parenthesis. *)
Definition parseCall (name : string) : PM Expr :=
  f ← ifPeek (isPunct "*") (_ ← next; mret (Func name true None))
        (ifPeek (isPunct ")") (mret (Func name false None))
           (arg ← parseExpr; mret (Func name false (Some arg))));
  _ ← expectPunct ")"; mret f.

Definition parseName (name : string) : PM Expr :=
  ifPeek (isPunct ".") (_ ← next; cn ← identOrErr "column name"; mret (ColRef name cn))
    (ifPeek (isPunct "(") (_ ← next; parseCall name)
       (mret (ColRef "" name))).

Definition parsePrimary : PM Expr :=
  withPeek (λ t,
    match tk_kind t with
    | tokNum => _ ← next; parseNumber (tk_text t)
    | tokStr => _ ← next; mret (Lit (VText (tk_text t)))
    | tokIdent =>
        _ ← next;
        if bool_decide (tk_text t = "null") then mret (Lit VNull)
        else if bool_decide (tk_text t = "true") then mret (Lit (VBool true))
        else if bool_decide (tk_text t = "false") then mret (Lit (VBool false))
        else parseName (tk_text t)
    | tokPunct =>
        if bool_decide (tk_text t = "(") then
          _ ← next; e ← parseExpr; _ ← expectPunct ")"; mret e
        else errf "unexpected %s" [describe t]
    | tokEOF => errf "unexpected end of input" []
    end).

Definition parseUnary : PM Expr :=
  withFuel (prefixLoop (isPunct "-") (Binary "-" (Lit (VInt 0))) parsePrimary).

Definition binOp (ops : list string) (t : token) : option (Expr → Expr → Expr) :=
  if punctIn ops t then Some (Binary (tk_text t)) else None.
Definition parseMul : PM Expr := chain (binOp ["*"; "/"; "%"]) parseUnary.
Definition parseAdd : PM Expr := chain (binOp ["+"; "-"]) parseMul.

Definition cmpOps : list string := ["="; "<>"; "<"; "<="; ">"; ">="].

(** [IN ( ... )] from the keyword [in] on. *)
Definition parseIn (l : Expr) (isNotIn : bool) : PM Expr :=
  _ ← next; _ ← expectPunct "(";
  ifPeek (isKw "select")
    (sub ← parseSelect; _ ← expectPunct ")"; mret (InSub l sub isNotIn))
    (list ← commaList parseExpr; _ ← expectPunct ")"; mret (InList l list isNotIn)).

(** [NOT] after an operand: consumed only when [IN] follows. *)
Definition parseNotIn (l : Expr) : PM Expr := λ s,
  match next s with
  | Ok (_, s') => if isKw "in" (peek s') then parseIn l true s' else Ok (l, s)
  | Err e => Err e
  end.

Definition parseCmp : PM Expr :=
  l ← parseAdd;
  withPeek (λ t,
    if punctIn cmpOps t then _ ← next; r ← parseAdd; mret (Cmp (tk_text t) l r)
    else if isKw "is" t then
      _ ← next; n ← takeKw "not"; _ ← expectKw "null"; mret (IsNullE l n)
    else if isKw "not" t then parseNotIn l
    else if isKw "in" t then parseIn l false
    else mret l).

Definition parseNot : PM Expr := withFuel (prefixLoop (isKw "not") Not parseCmp).
Definition parseAnd : PM Expr := chain (λ t, if isKw "and" t then Some And else None) parseNot.
Definition parseOr : PM Expr := chain (λ t, if isKw "or" t then Some Or else None) parseAnd.

(** ** Queries, given the recursive calls *)
(** [AS ident], or an identifier that is no clause keyword, or none. *)
Definition parseRefAlias (what none : string) : PM string :=
  named ← takeKw "as";
  if named : bool then identOrErr what
  else ifPeek (isAlias refStopWords) (identOrErr what) (mret none).

Definition parseTableRef : PM TableRef :=
  ifPeek (isPunct "(")
    (_ ← next;
     ifPeek (isKw "select")
       (sub ← parseSelect;
        _ ← expectPunct ")";
        alias ← parseRefAlias "derived table alias" "";
        if bool_decide (alias = "") then errf "derived table requires an alias" []
        else mret (MkTableRef "" alias (Some sub)))
       (errf "expected SELECT in derived table" []))
    (name ← identOrErr "table name";
     alias ← parseRefAlias "alias" name;
     mret (MkTableRef name alias None)).

Definition parseOptionalAlias : PM string :=
  ifPeek (isKw "as") (_ ← next; identOrErr "column alias")
    (ifPeek (isAlias fieldStopWords) (t ← next; mret (tk_text t)) (mret "")).

Definition parseField : PM (Expr * string) :=
  e ← parseExpr; al ← parseOptionalAlias; mret (e, al).

(** Undo what [m] consumed unless [JOIN] follows; then consume it. *)
Definition joinAfter (m : PM unit) (kind : string) : PM (option string) := λ s,
  match m s with
  | Ok (_, s') =>
      if isKw "join" (peek s') then (_ ← next; mret (Some kind)) s' else Ok (None, s)
  | Err e => Err e
  end.

(** The kind of the join that starts here, its keywords consumed. *)
Definition joinKind : PM (option string) :=
  ifPeek (isKw "join") (_ ← next; mret (Some "inner"))
    (ifPeek (isKw "inner") (joinAfter (_ ← next; mret tt) "inner")
       (ifPeek (isKw "left") (joinAfter (_ ← next; _ ← takeKw "outer"; mret tt) "left")
          (mret None))).

Fixpoint joinLoop (n : nat) : PM (list (TableRef * Expr * string)) :=
  k ← joinKind;
  match k with
  | None => mret []
  | Some kind =>
      match n with
      | O => outOfFuel
      | S n =>
          ref ← parseTableRef; _ ← expectKw "on"; on ← parseExpr;
          js ← joinLoop n; mret ((ref, on, kind) :: js)
      end
  end.

Definition parseFields : PM (bool * list (Expr * string)) :=
  ifPeek (isPunct "*") (_ ← next; mret (true, []))
    (fs ← commaList parseField; mret (false, fs)).

Definition parseClause (kw : string) : PM (option Expr) :=
  ifPeek (isKw kw) (_ ← next; e ← parseExpr; mret (Some e)) (mret None).

Definition parseGroup : PM (list Expr) :=
  ifPeek (isKw "group") (_ ← next; _ ← expectKw "by"; commaList parseExpr) (mret []).

Definition parseOrderTerm : PM OrderTerm :=
  e ← parseExpr;
  desc ← takeKw "desc";
  (if desc : bool then mret (MkOrderTerm e true) else _ ← takeKw "asc"; mret (MkOrderTerm e false)).

Definition parseOrder : PM (list OrderTerm) :=
  ifPeek (isKw "order") (_ ← next; _ ← expectKw "by"; commaList parseOrderTerm) (mret []).

Definition limitErr : PM (option Z) := errf "LIMIT requires a non-negative integer literal" [].
Definition parseLimit : PM (option Z) :=
  ifPeek (isKw "limit")
    (_ ← next;
     withPeek (λ t,
       if negb (bool_decide (tk_kind t = tokNum)) || bool_decide (is_Some (split_dot (tk_text t)).2) then limitErr
       else match ParseInt (tk_text t) with
            | Some n => if bool_decide (n < 0)%Z then limitErr else _ ← next; mret (Some n)
            | None => limitErr
            end))
    (mret None).

Definition parseSelectBody : PM Select :=
  _ ← next;
  fields ← parseFields;
  _ ← expectKw "from";
  ref ← parseTableRef;
  js ← withFuel joinLoop;
  where_ ← parseClause "where";
  group ← parseGroup;
  having ← parseClause "having";
  order ← parseOrder;
  limit ← parseLimit;
  mret (MkSelect (ref :: map (λ j, j.1.1) js) (map (λ j, j.1.2) js) (map snd js)
          fields.1 (map fst fields.2) (map snd fields.2) where_ group having order limit).
End recursive.

(** ** Tying the knot *)
Fixpoint parsers (n : nat) : PM Expr * PM Select :=
  match n with
  | O => (outOfFuel, outOfFuel)
  | S n => let '(pe, ps) := parsers n in (parseOr pe ps, parseSelectBody pe ps)
  end.
Definition parseExpr (n : nat) : PM Expr := (parsers n).1.
Definition parseSelect (n : nat) : PM Select := (parsers n).2.

(** ** Statements *)
Section statements.
  Context (parseExpr : PM Expr).

Fixpoint attrLoop (cd : ColumnDef) (n : nat) : PM ColumnDef :=
  match n with
  | O => outOfFuel
  | S n =>
      primary ← takeKw "primary";
      if primary : bool then
        _ ← expectKw "key";
        attrLoop (MkColumnDef (cd_Name cd) (cd_Type cd) true (cd_NotNull cd) (cd_AutoInc cd) (cd_Unique cd)
                    (cd_RefTable cd) (cd_RefCol cd)) n
      else
      nn ← takeKw "not";
      if nn : bool then
        _ ← expectKw "null";
        attrLoop (MkColumnDef (cd_Name cd) (cd_Type cd) (cd_Primary cd) true (cd_AutoInc cd) (cd_Unique cd)
                    (cd_RefTable cd) (cd_RefCol cd)) n
      else
      auto ← takeKw "auto_increment";
      if auto : bool then
        attrLoop (MkColumnDef (cd_Name cd) (cd_Type cd) (cd_Primary cd) (cd_NotNull cd) true (cd_Unique cd)
                    (cd_RefTable cd) (cd_RefCol cd)) n
      else
      uniq ← takeKw "unique";
      if uniq : bool then
        attrLoop (MkColumnDef (cd_Name cd) (cd_Type cd) (cd_Primary cd) (cd_NotNull cd) (cd_AutoInc cd) true
                    (cd_RefTable cd) (cd_RefCol cd)) n
      else
      refs ← takeKw "references";
      if refs : bool then
        ref ← identOrErr "referenced table name";
        col ← ifPeek (isPunct "(")
                (_ ← next; c ← identOrErr "referenced column name"; _ ← expectPunct ")"; mret c)
                (mret (cd_RefCol cd));
        attrLoop (MkColumnDef (cd_Name cd) (cd_Type cd) (cd_Primary cd) (cd_NotNull cd) (cd_AutoInc cd) (cd_Unique cd)
                    ref col) n
      else mret cd
  end.

Definition parseColumnDef : PM ColumnDef :=
  name ← identOrErr "column name";
  tn ← identOrErr "column type";
  if ValidTypes tn then withFuel (attrLoop (MkColumnDef name tn false false false false "" ""))
  else errf "unknown column type %q" [AStr tn].

Definition parseCreate : PM Statement :=
  _ ← next; _ ← expectKw "table";
  name ← identOrErr "table name";
  _ ← expectPunct "(";
  cols ← commaList parseColumnDef;
  _ ← expectPunct ")";
  mret (CreateTableS name cols).

Definition parseDrop : PM Statement :=
  _ ← next; _ ← expectKw "table";
  ifExists ← takeKw "if";
  (if ifExists : bool then expectKw "exists" else mret tt);;
  name ← identOrErr "table name";
  mret (DropTableS name ifExists).

Definition parseRow : PM (list Expr) :=
  _ ← expectPunct "(";
  row ← ifPeek (isPunct ")") (mret []) (commaList parseExpr);
  _ ← expectPunct ")";
  mret row.

Definition parseInsert : PM Statement :=
  _ ← next; _ ← expectKw "into";
  name ← identOrErr "table name";
  cols ← ifPeek (isPunct "(")
           (_ ← next; cs ← commaList (identOrErr "column name"); _ ← expectPunct ")"; mret cs)
           (mret []);
  _ ← expectKw "values";
  rows ← commaList parseRow;
  mret (InsertS (MkInsert name cols rows)).

Definition parseAssignment : PM Assignment :=
  c ← identOrErr "column name"; _ ← expectPunct "="; e ← parseExpr; mret (MkAssignment c e).

Definition parseUpdate : PM Statement :=
  _ ← next;
  name ← identOrErr "table name";
  _ ← expectKw "set";
  sets ← commaList parseAssignment;
  where_ ← parseClause parseExpr "where";
  mret (UpdateS (MkUpdate name sets where_)).

Definition parseDelete : PM Statement :=
  _ ← next; _ ← expectKw "from";
  name ← identOrErr "table name";
  where_ ← parseClause parseExpr "where";
  mret (DeleteS (MkDelete name where_)).
End statements.

Definition parseStatement (n : nat) : PM Statement :=
  withPeek (λ t,
    if isKw "create" t then parseCreate
    else if isKw "drop" t then parseDrop
    else if isKw "insert" t then parseInsert (parseExpr n)
    else if isKw "select" t then q ← parseSelect n; mret (SelectS q)
    else if isKw "update" t then parseUpdate (parseExpr n)
    else if isKw "delete" t then parseDelete (parseExpr n)
    else if isKw "begin" t then _ ← next; mret BeginS
    else if isKw "start" t then _ ← next; _ ← expectKw "transaction"; mret BeginS
    else if isKw "commit" t then _ ← next; mret CommitS
    else if isKw "rollback" t then _ ← next; mret RollbackS
    else match tk_kind t with
         | tokEOF => errf "empty statement" []
         | _ => errf "unsupported statement (got %s)" [describe t]
         end).

Definition parseProgram (n : nat) : PM Statement :=
  stmt ← parseStatement n;
  ifPeek (isPunct ";") (_ ← next; mret tt) (mret tt);;
  withPeek (λ t,
    match tk_kind t with
    | tokEOF => mret stmt
    | _ => errf "unexpected input %s after statement" [describe t]
    end).

Definition Parse (src : string) : res Statement :=
  toks ← lex src;
  fst <$> parseProgram (length toks) toks.
