(* ===== verification/Grammar.v ===== *)
(** * The SQL grammar and the parser's correctness

    The grammar of the statements as inductive relations between syntax trees and
    the symbols (kind and text) of tokens, with the precedence levels of
    expressions (OR < AND < NOT < comparison < addition < multiplication < unary
    minus < primary) and left-associative operators; and the theorems that the
    recursive-descent parser comes to an end on every text and only accepts what
    the grammar derives, with that tree. *)
From S2P Require Import Prelude GoStd Types Schema Ast Lexer Parser.

Abbreviation symbol := (tokKind * string)%type.
Definition kw (x : string) : symbol := (tokIdent, x).
Definition pn (x : string) : symbol := (tokPunct, x).

(** ** Lists and options in the grammar *)

(** One or more, with commas. *)
Inductive sep {A} (R : A → list symbol → Prop) : list A → list symbol → Prop :=
  | sep_one x ks : R x ks → sep R [x] ks
  | sep_cons x xs ks ks' : R x ks → sep R xs ks' → sep R (x :: xs) (ks ++ pn "," :: ks').

(** Zero or more. *)
Inductive many {A} (R : A → list symbol → Prop) : list A → list symbol → Prop :=
  | many_nil : many R [] []
  | many_cons x xs ks ks' : R x ks → many R xs ks' → many R (x :: xs) (ks ++ ks').

(** An optional clause with its keyword. *)
Inductive clause {A} (k : string) (R : A → list symbol → Prop) : option A → list symbol → Prop :=
  | clause_none : clause k R None []
  | clause_some x ks : R x ks → clause k R (Some x) (kw k :: ks).

(** An optional [GROUP BY] or [ORDER BY] list. *)
Inductive by_list {A} (k : string) (R : A → list symbol → Prop) : list A → list symbol → Prop :=
  | by_none : by_list k R [] []
  | by_some xs ks : sep R xs ks → by_list k R xs (kw k :: kw "by" :: ks).

Inductive alias (stop : list string) : string → list symbol → Prop :=
  | alias_as a : alias stop a [kw "as"; kw a]
  | alias_bare a : a ∉ stop → a ≠ "as" → alias stop a [kw a].

(** ** Literals *)
Definition literals : list string := ["null"; "true"; "false"].

Inductive literal : Value → symbol → Prop :=
  | lit_int t n : (split_dot t).2 = None → ParseInt t = Some n → literal (VInt n) (tokNum, t)
  | lit_float t f : is_Some (split_dot t).2 → ParseFloat t = Some f → literal (VFloat f) (tokNum, t)
  | lit_text t : literal (VText t) (tokStr, t)
  | lit_null : literal VNull (kw "null")
  | lit_true : literal (VBool true) (kw "true")
  | lit_false : literal (VBool false) (kw "false").

Definition optKw (b : bool) (k : string) : list symbol := if b then [kw k] else [].

(** ** Expressions and queries *)
Inductive GE : nat → Expr → list symbol → Prop :=
  | G_up l e ks : l < 7 → GE (S l) e ks → GE l e ks
  | G_or l r kl kr : GE 0 l kl → GE 1 r kr → GE 0 (Or l r) (kl ++ kw "or" :: kr)
  | G_and l r kl kr : GE 1 l kl → GE 2 r kr → GE 1 (And l r) (kl ++ kw "and" :: kr)
  | G_not x ks : GE 2 x ks → GE 2 (Not x) (kw "not" :: ks)
  | G_cmp op l r kl kr : op ∈ cmpOps → GE 4 l kl → GE 4 r kr → GE 3 (Cmp op l r) (kl ++ pn op :: kr)
  | G_isnull x ks n : GE 4 x ks → GE 3 (IsNullE x n) (ks ++ kw "is" :: optKw n "not" ++ [kw "null"])
  | G_inlist x ks es kes n : GE 4 x ks → sep (GE 0) es kes →
      GE 3 (InList x es n) (ks ++ optKw n "not" ++ kw "in" :: pn "(" :: kes ++ [pn ")"])
  | G_insub x ks q kq n : GE 4 x ks → GSel q kq →
      GE 3 (InSub x q n) (ks ++ optKw n "not" ++ kw "in" :: pn "(" :: kq ++ [pn ")"])
  | G_add op l r kl kr : op ∈ ["+"; "-"] → GE 4 l kl → GE 5 r kr → GE 4 (Binary op l r) (kl ++ pn op :: kr)
  | G_mul op l r kl kr : op ∈ ["*"; "/"; "%"] → GE 5 l kl → GE 6 r kr → GE 5 (Binary op l r) (kl ++ pn op :: kr)
  | G_neg x ks : GE 6 x ks → GE 6 (Binary "-" (Lit (VInt 0)) x) (pn "-" :: ks)
  | G_lit v k : literal v k → GE 7 (Lit v) [k]
  | G_col n : n ∉ literals → GE 7 (ColRef "" n) [kw n]
  | G_qcol t n : t ∉ literals → GE 7 (ColRef t n) [kw t; pn "."; kw n]
  | G_call0 f : f ∉ literals → GE 7 (Func f false None) [kw f; pn "("; pn ")"]
  | G_callstar f : f ∉ literals → GE 7 (Func f true None) [kw f; pn "("; pn "*"; pn ")"]
  | G_call f e ks : f ∉ literals → GE 0 e ks → GE 7 (Func f false (Some e)) (kw f :: pn "(" :: ks ++ [pn ")"])
  | G_paren e ks : GE 0 e ks → GE 7 e (pn "(" :: ks ++ [pn ")"])
with GSel : Select → list symbol → Prop :=
  | G_select star fs kf ref kr js kj w kwh group kg having kh order ko limit kl :
      GFields star fs kf → GRef ref kr → many GJoin js kj →
      clause "where" (GE 0) w kwh → by_list "group" (GE 0) group kg → clause "having" (GE 0) having kh →
      by_list "order" GOrder order ko → clause "limit" (λ n ks, ∃ t, ks = [t] ∧ literal (VInt n) t) limit kl →
      GSel (MkSelect (ref :: map (λ j, j.1.1) js) (map (λ j, j.1.2) js) (map snd js)
              star (map fst fs) (map snd fs) w group having order limit)
        (kw "select" :: kf ++ kw "from" :: kr ++ kj ++ kwh ++ kg ++ kh ++ ko ++ kl)
with GFields : bool → list (Expr * string) → list symbol → Prop :=
  | G_star : GFields true [] [pn "*"]
  | G_fields fs ks : sep GField fs ks → GFields false fs ks
with GField : Expr * string → list symbol → Prop :=
  | G_field e ks : GE 0 e ks → GField (e, "") ks
  | G_field_as e ks a ka : GE 0 e ks → alias fieldStopWords a ka → GField (e, a) (ks ++ ka)
with GRef : TableRef → list symbol → Prop :=
  | G_table n : GRef (MkTableRef n n None) [kw n]
  | G_table_as n a ka : alias refStopWords a ka → GRef (MkTableRef n a None) (kw n :: ka)
  | G_derived q kq a ka : GSel q kq → a ≠ "" → alias refStopWords a ka →
      GRef (MkTableRef "" a (Some q)) (pn "(" :: kq ++ pn ")" :: ka)
with GJoin : TableRef * Expr * string → list symbol → Prop :=
  | G_inner (inner : bool) ref kr on ko : GRef ref kr → GE 0 on ko →
      GJoin (ref, on, "inner") (optKw inner "inner" ++ kw "join" :: kr ++ kw "on" :: ko)
  | G_left (outer : bool) ref kr on ko : GRef ref kr → GE 0 on ko →
      GJoin (ref, on, "left") (kw "left" :: optKw outer "outer" ++ kw "join" :: kr ++ kw "on" :: ko)
with GOrder : OrderTerm → list symbol → Prop :=
  | G_asc (asc : bool) e ks : GE 0 e ks → GOrder (MkOrderTerm e false) (ks ++ optKw asc "asc")
  | G_desc e ks : GE 0 e ks → GOrder (MkOrderTerm e true) (ks ++ [kw "desc"]).

(** ** Statements *)

(** The attributes of a column, in any order; a later one overrides. *)
Inductive GAttr : ColumnDef → ColumnDef → list symbol → Prop :=
  | G_noattr cd : GAttr cd cd []
  | G_primary n t p nn ai u rt rc cd ks :
      GAttr (MkColumnDef n t true nn ai u rt rc) cd ks →
      GAttr (MkColumnDef n t p nn ai u rt rc) cd (kw "primary" :: kw "key" :: ks)
  | G_notnull n t p nn ai u rt rc cd ks :
      GAttr (MkColumnDef n t p true ai u rt rc) cd ks →
      GAttr (MkColumnDef n t p nn ai u rt rc) cd (kw "not" :: kw "null" :: ks)
  | G_auto n t p nn ai u rt rc cd ks :
      GAttr (MkColumnDef n t p nn true u rt rc) cd ks →
      GAttr (MkColumnDef n t p nn ai u rt rc) cd (kw "auto_increment" :: ks)
  | G_unique n t p nn ai u rt rc cd ks :
      GAttr (MkColumnDef n t p nn ai true rt rc) cd ks →
      GAttr (MkColumnDef n t p nn ai u rt rc) cd (kw "unique" :: ks)
  | G_ref n t p nn ai u rt rc rt' cd ks :
      GAttr (MkColumnDef n t p nn ai u rt' rc) cd ks →
      GAttr (MkColumnDef n t p nn ai u rt rc) cd (kw "references" :: kw rt' :: ks)
  | G_refcol n t p nn ai u rt rc rt' rc' cd ks :
      GAttr (MkColumnDef n t p nn ai u rt' rc') cd ks →
      GAttr (MkColumnDef n t p nn ai u rt rc) cd
        (kw "references" :: kw rt' :: pn "(" :: kw rc' :: pn ")" :: ks).

Inductive GColumn : ColumnDef → list symbol → Prop :=
  | G_column n t cd ks : ValidTypes t = true →
      GAttr (MkColumnDef n t false false false false "" "") cd ks → GColumn cd (kw n :: kw t :: ks).

Inductive GName : string → list symbol → Prop :=
  | G_name n : GName n [kw n].

Inductive GRow : list Expr → list symbol → Prop :=
  | G_row0 : GRow [] [pn "("; pn ")"]
  | G_row es ks : sep (GE 0) es ks → GRow es (pn "(" :: ks ++ [pn ")"]).

Inductive GAssign : Assignment → list symbol → Prop :=
  | G_assign c e ks : GE 0 e ks → GAssign (MkAssignment c e) (kw c :: pn "=" :: ks).

Inductive GStmt : Statement → list symbol → Prop :=
  | G_create n cols ks : sep GColumn cols ks →
      GStmt (CreateTableS n cols) (kw "create" :: kw "table" :: kw n :: pn "(" :: ks ++ [pn ")"])
  | G_drop n (b : bool) : GStmt (DropTableS n b)
      (kw "drop" :: kw "table" :: (if b then [kw "if"; kw "exists"] else []) ++ [kw n])
  | G_insert n rows ks : sep GRow rows ks →
      GStmt (InsertS (MkInsert n [] rows)) (kw "insert" :: kw "into" :: kw n :: kw "values" :: ks)
  | G_insert_cols n cs kc rows ks : sep GName cs kc → sep GRow rows ks →
      GStmt (InsertS (MkInsert n cs rows))
        (kw "insert" :: kw "into" :: kw n :: pn "(" :: kc ++ pn ")" :: kw "values" :: ks)
  | G_query q ks : GSel q ks → GStmt (SelectS q) ks
  | G_update n sets ks w kwh : sep GAssign sets ks → clause "where" (GE 0) w kwh →
      GStmt (UpdateS (MkUpdate n sets w)) (kw "update" :: kw n :: kw "set" :: ks ++ kwh)
  | G_delete n w kwh : clause "where" (GE 0) w kwh →
      GStmt (DeleteS (MkDelete n w)) (kw "delete" :: kw "from" :: kw n :: kwh)
  | G_begin : GStmt BeginS [kw "begin"]
  | G_start : GStmt BeginS [kw "start"; kw "transaction"]
  | G_commit : GStmt CommitS [kw "commit"]
  | G_rollback : GStmt RollbackS [kw "rollback"].

(** A statement and an optional semicolon. *)
Inductive GProgram : Statement → list symbol → Prop :=
  | G_program st ks (semi : bool) : GStmt st ks → GProgram st (ks ++ (if semi then [pn ";"] else [])).

(** ** A program logic for parsers

    [runs m s R]: from the tokens [s] the parser does not run out of fuel, and if
    it accepts it has consumed a prefix with symbols [ks] for which [R] holds. *)
Definition stream (s : list token) : Prop :=
  ∃ ts p, s = ts ++ [MkToken tokEOF "" p] ∧ Forall (λ t, tk_kind t ≠ tokEOF) ts.

Definition took (s : list token) (ks : list symbol) (s' : list token) : Prop :=
  map sym s = ks ++ map sym s' ∧ length s = length ks + length s' ∧ stream s'.

Definition runs {A} (m : PM A) (s : list token) (R : A → list symbol → Prop) : Prop :=
  match m s with
  | Ok (a, s') => ∃ ks, took s ks s' ∧ R a ks
  | Err e => e ≠ errFuel
  end.

(** A parser meets [R] on all streams of at most [n] tokens. *)
Definition meets {A} (n : nat) (m : PM A) (R : A → list symbol → Prop) : Prop :=
  ∀ s, stream s → length s ≤ n → runs m s R.

(** Relations that consume something. *)
Definition eats {A} (R : A → list symbol → Prop) (a : A) (ks : list symbol) : Prop := R a ks ∧ 1 ≤ length ks.

Lemma stream_length s : stream s → 1 ≤ length s.
Proof. intros (ts & p & -> & _). rewrite length_app. simpl. lia. Qed.

Lemma took_nil s : stream s → took s [] s.
Proof. by repeat split. Qed.

Lemma took_trans s ks s' ks' s'' : took s ks s' → took s' ks' s'' → took s (ks ++ ks') s''.
Proof.
  intros (H1 & H2 & _) (H3 & H4 & H5). split; [by rewrite H1, H3, app_assoc|].
  rewrite length_app. split; [lia|done].
Qed.

Lemma runs_mono {A} (m : PM A) s (R R' : A → list symbol → Prop) :
  runs m s R → (∀ a ks, R a ks → R' a ks) → runs m s R'.
Proof. unfold runs. destruct (m s) as [[a s']|]; [|done]. intros (ks & Ht & HR) Hm. eauto. Qed.

Lemma runs_bind {A B} (m : PM A) (k : A → PM B) s R R' :
  runs m s R →
  (∀ a ks s', R a ks → took s ks s' → runs (k a) s' (λ b ks', R' b (ks ++ ks'))) →
  runs (m ≫= k) s R'.
Proof.
  unfold runs, mbind, PM_bind. destruct (m s) as [[a s']|]; [|done]. intros (ks & Ht & HR) Hk.
  specialize (Hk a ks s' HR Ht). destruct (k a s') as [[b s'']|]; [|done].
  destruct Hk as (ks' & Ht' & HR'). exists (ks ++ ks'). split; [by eapply took_trans|done].
Qed.

Lemma runs_ret {A} (a : A) s R : stream s → R a [] → runs (mret a) s R.
Proof. intros Hs HR. exists []. split; [by apply took_nil|done]. Qed.

Lemma runs_errf {A} f args s (R : A → list symbol → Prop) : runs (errf f args) s R.
Proof. unfold runs, errf. intros [=]. Qed.

Lemma runs_ifPeek {A} test (yes no : PM A) s R :
  (test (peek s) = true → runs yes s R) → (test (peek s) = false → runs no s R) → runs (ifPeek test yes no) s R.
Proof. intros Hy Hn. unfold runs, ifPeek. destruct (test (peek s)); [by apply Hy|by apply Hn]. Qed.

Lemma runs_withPeek {A} (k : token → PM A) s R : runs (k (peek s)) s R → runs (withPeek k) s R.
Proof. done. Qed.

Lemma runs_next s : stream s → tk_kind (peek s) ≠ tokEOF → runs next s (λ t ks, t = peek s ∧ ks = [sym t]).
Proof.
  intros (ts & p & -> & Hts) Hne. destruct ts as [|t ts]; [done|]. apply Forall_cons in Hts as [_ Hts].
  assert (next ((t :: ts) ++ [MkToken tokEOF "" p]) = Ok (t, ts ++ [MkToken tokEOF "" p])) as Hn by by destruct ts.
  unfold runs. rewrite Hn. exists [sym t]. repeat split. by exists ts, p.
Qed.

Lemma isKw_sym x t : isKw x t = true → sym t = kw x ∧ tk_kind t ≠ tokEOF.
Proof.
  unfold isKw, sym, kw. intros [->%bool_decide_eq_true ->%bool_decide_eq_true]%andb_true_iff. done.
Qed.
Lemma isPunct_sym x t : isPunct x t = true → sym t = pn x ∧ tk_kind t ≠ tokEOF.
Proof.
  unfold isPunct, sym, pn. intros [->%bool_decide_eq_true ->%bool_decide_eq_true]%andb_true_iff. done.
Qed.
Lemma isIdent_sym t : isIdent t = true → sym t = kw (tk_text t) ∧ tk_kind t ≠ tokEOF.
Proof. unfold isIdent, sym, kw. intros ->%bool_decide_eq_true. done. Qed.
Lemma punctIn_sym xs t : punctIn xs t = true → sym t = pn (tk_text t) ∧ tk_text t ∈ xs ∧ tk_kind t ≠ tokEOF.
Proof.
  unfold punctIn, sym, pn. intros [->%bool_decide_eq_true ?%bool_decide_eq_true]%andb_true_iff. done.
Qed.

(** A keyword or sign that was tested for is consumed. *)
Lemma runs_skip {B} (k : PM B) s R x :
  stream s → tk_kind (peek s) ≠ tokEOF → sym (peek s) = x →
  (∀ s', took s [x] s' → runs k s' (λ b ks, R b (x :: ks))) → runs (_ ← next; k) s R.
Proof.
  intros Hs Hne Hx Hk. eapply runs_bind; [by apply runs_next|]. intros t ks s' [-> ->] Ht.
  rewrite Hx in Ht |- *. by apply Hk.
Qed.

Lemma runs_expect (test : token → bool) x (err : PM unit) s :
  stream s → (∀ t, test t = true → sym t = x ∧ tk_kind t ≠ tokEOF) → (∀ R, runs err s R) →
  runs (ifPeek test (_ ← next; mret tt) err) s (λ _ ks, ks = [x]).
Proof.
  intros Hs Ht He. apply runs_ifPeek; [|intros _; apply He]. intros [Hx Hne]%Ht.
  eapply runs_skip; [done..|]. intros s' (_ & _ & Hs'). by apply runs_ret.
Qed.
Lemma runs_expectKw x s : stream s → runs (expectKw x) s (λ _ ks, ks = [kw x]).
Proof. intros Hs. apply runs_expect; [done|apply isKw_sym|]. intros R. apply runs_withPeek, runs_errf. Qed.
Lemma runs_expectPunct x s : stream s → runs (expectPunct x) s (λ _ ks, ks = [pn x]).
Proof. intros Hs. apply runs_expect; [done|apply isPunct_sym|]. intros R. apply runs_withPeek, runs_errf. Qed.
Lemma runs_takeKw x s : stream s → runs (takeKw x) s (λ b ks, ks = optKw b x).
Proof.
  intros Hs. apply runs_ifPeek; [|intros _; by apply runs_ret]. intros [Hx Hne]%isKw_sym.
  eapply runs_skip; [done..|]. intros s' (_ & _ & Hs'). by apply runs_ret.
Qed.
Lemma runs_identOrErr what s : stream s → runs (identOrErr what) s (λ n ks, ks = [kw n]).
Proof.
  intros Hs. apply runs_ifPeek; [|intros _; apply runs_withPeek, runs_errf]. intros [Hx Hne]%isIdent_sym.
  eapply runs_bind; [by apply runs_next|]. intros t ks s' [-> ->] (_ & _ & Hs').
  apply runs_ret; [done|]. by rewrite Hx.
Qed.

(** ** Automation: one step of a parser *)
Ltac sym_of H :=
  first [ apply isKw_sym in H as [? ?] | apply isPunct_sym in H as [? ?] | apply isIdent_sym in H as [? ?]
        | apply punctIn_sym in H as (? & ? & ?) ].
Ltac with_took := let Hl := fresh "Hl" in let Hs := fresh "Hs" in intros (_ & Hl & Hs); cbn [length app] in Hl.
Ltac pbind lem := eapply runs_bind; [apply lem; (assumption || lia)|].
Ltac pstep :=
  lazymatch goal with
  | |- runs (mret _) _ _ => apply runs_ret; [assumption|]
  | |- runs (errf _ _) _ _ => apply runs_errf
  | |- runs (ifPeek _ _ _) _ _ =>
      let H := fresh "Ht" in apply runs_ifPeek; intros H; [try sym_of H|]
  | |- runs (withPeek _) _ _ => apply runs_withPeek
  | |- runs (mbind _ next) _ _ =>
      eapply runs_skip; [assumption|try assumption|try eassumption|intros ?; with_took]
  | |- runs (mbind _ (expectKw _)) _ _ => pbind runs_expectKw; intros [] ? ? ->; with_took
  | |- runs (mbind _ (expectPunct _)) _ _ => pbind runs_expectPunct; intros [] ? ? ->; with_took
  | |- runs (mbind _ (takeKw _)) _ _ =>
      let b := fresh "b" in pbind runs_takeKw; intros b ? ? ->; with_took
  | |- runs (mbind _ (identOrErr _)) _ _ =>
      let n := fresh "name" in pbind runs_identOrErr; intros n ? ? ->; with_took
  | |- runs (mbind _ ?m) _ _ =>
      match goal with
      | H : meets _ m _ |- _ =>
          let R := fresh "HR" in let Hk := fresh "Hk" in let e := fresh "e" in
          let ks := fresh "ks" in
          eapply runs_bind; [apply H; [assumption|lia]|]; intros e ks ? [R Hk]; with_took
      end
  end.
(** Bring the consumed symbols into the form of a grammar rule. *)
Ltac plist := cbn [app optKw]; rewrite ?app_nil_r, <-?app_assoc; cbn [app]; rewrite ?app_nil_r.

Section loops.
  Context {A : Type} (n : nat) (p : PM A) (R : A → list symbol → Prop) (Hp : meets n p (eats R)).

Lemma commaLoop_meets m s :
  stream s → length s ≤ n → length s ≤ m → runs (commaLoop p m) s (eats (sep R)).
Proof.
  revert s. induction m as [|m IH]; intros s Hs Hn Hm; [pose proof (stream_length s Hs); lia|].
  cbn [commaLoop]. pstep. pstep.
  - pstep. eapply runs_bind; [apply IH; (assumption || lia)|]. intros xs ks' ? [HR' Hk']. with_took.
    pstep. plist. split; [by apply sep_cons|]. rewrite length_app. lia.
  - pstep. plist. split; [by apply sep_one|done].
Qed.
Lemma commaList_meets : meets n (commaList p) (eats (sep R)).
Proof. intros s Hs Hn. by apply commaLoop_meets. Qed.
End loops.

Section chains.
  Context (n lv : nat) (p : PM Expr) (Hlv : lv < 7) (Hp : meets n p (eats (GE (S lv)))).

Section infix.
  Context (op : token → option (Expr → Expr → Expr)).
  Context (Hop : ∀ t f, op t = Some f → tk_kind t ≠ tokEOF ∧
    ∀ l kl r kr, GE lv l kl → GE (S lv) r kr → GE lv (f l r) (kl ++ sym t :: kr)).

Lemma chainLoop_meets m l kl s :
  stream s → length s ≤ n → length s ≤ m → GE lv l kl →
  runs (chainLoop op p l m) s (λ e ks, GE lv e (kl ++ ks)).
Proof.
  revert l kl s. induction m as [|m IH]; intros l kl s Hs Hn Hm Hl.
  { pose proof (stream_length s Hs). lia. }
  cbn [chainLoop]. apply runs_withPeek. destruct (op (peek s)) as [f|] eqn:Ef.
  - destruct (Hop _ _ Ef) as [Hne Hf]. eapply runs_skip; [done|done|done|]. intros s'. with_took.
    pstep. eapply runs_mono; [apply (IH _ (kl ++ sym (peek s) :: ks)); [done|lia|lia|by apply Hf]|].
    intros e' ks'. simpl. by rewrite <-app_assoc.
  - pstep. by rewrite app_nil_r.
Qed.
Lemma chain_meets : meets n (chain op p) (eats (GE lv)).
Proof.
  intros s Hs Hn. unfold chain. pstep.
  eapply runs_mono; [apply (chainLoop_meets _ _ ks); [done|lia|done|by apply G_up]|].
  intros e' ks' HG. split; [done|]. rewrite length_app. lia.
Qed.
End infix.

Lemma prefix_meets test f :
  (∀ t, test t = true → tk_kind t ≠ tokEOF ∧ ∀ x ks, GE lv x ks → GE lv (f x) (sym t :: ks)) →
  meets n (withFuel (prefixLoop test f p)) (eats (GE lv)).
Proof.
  intros Ht s0 Hs0 Hn0.
  cut (∀ m s, stream s → length s ≤ n → length s ≤ m → runs (prefixLoop test f p m) s (eats (GE lv))).
  { intros H. by apply (H (length s0) s0). }
  intros m. induction m as [|m IH]; intros s Hs Hn Hm; [pose proof (stream_length s Hs); lia|].
  cbn [prefixLoop]. apply runs_ifPeek; intros Htest.
  - destruct (Ht _ Htest) as [Hne Hf]. eapply runs_skip; [done|done|done|]. intros s'. with_took.
    eapply runs_bind; [apply IH; (assumption || lia)|]. intros x ks s'' [HG _]. with_took. pstep.
    plist. split; [by apply Hf|simpl; lia].
  - eapply runs_mono; [by apply Hp|]. intros e ks [HG Hk]. split; [by apply G_up|done].
Qed.
End chains.

(** ** Expressions *)
Section expressions.
  Context (n : nat) (pe : PM Expr) (ps : PM Select).
  Context (HE : meets n pe (eats (GE 0))).
  Context (HS : ∀ s, stream s → length s ≤ n → isKw "select" (peek s) = true → runs ps s (eats GSel)).

Lemma parseNumber_runs t s : stream s → runs (parseNumber t) s (λ e ks, ks = [] ∧ GE 7 e [(tokNum, t)]).
Proof.
  intros Hs. unfold parseNumber. destruct (split_dot t).2 eqn:Ed.
  - destruct (ParseFloat t) eqn:Ef; pstep. split; [done|]. apply G_lit, lit_float; [by rewrite Ed|done].
  - destruct (ParseInt t) eqn:Ef; pstep. split; [done|]. by apply G_lit, lit_int.
Qed.

Lemma parseCall_runs f s : f ∉ literals → stream s → length s ≤ n →
  runs (parseCall pe f) s (λ e ks, GE 7 e (kw f :: pn "(" :: ks)).
Proof.
  intros Hf Hs Hn. unfold parseCall.
  eapply (runs_bind _ _ _ (λ e ks, GE 7 e (kw f :: pn "(" :: ks ++ [pn ")"]))).
  - pstep; [|pstep]; repeat pstep; plist; [by apply G_callstar|by apply G_call0|by apply G_call].
  - intros e ks s' HG. with_took. pstep. pstep. by plist.
Qed.

Lemma parseName_runs f s : f ∉ literals → stream s → length s ≤ S n →
  runs (parseName pe f) s (λ e ks, GE 7 e (kw f :: ks)).
Proof.
  intros Hf Hs Hn. unfold parseName. pstep; [|pstep].
  - repeat pstep. by apply G_qcol.
  - pstep. eapply runs_mono; [apply parseCall_runs; [done|done|lia]|]. done.
  - pstep. by apply G_col.
Qed.

Lemma parsePrimary_meets : meets (S n) (parsePrimary pe) (eats (GE 7)).
Proof.
  intros s Hs Hn. unfold parsePrimary. pstep. destruct (tk_kind (peek s)) eqn:Ek.
  - pstep.
  - eapply runs_skip; [done|by rewrite Ek|by unfold sym; rewrite Ek|]. intros s'. with_took.
    case_bool_decide as H1; [pstep; split; [rewrite H1; apply G_lit, lit_null|done]|].
    case_bool_decide as H2; [pstep; split; [rewrite H2; apply G_lit, lit_true|done]|].
    case_bool_decide as H3; [pstep; split; [rewrite H3; apply G_lit, lit_false|done]|].
    eapply runs_mono; [apply parseName_runs; [|done|lia]|].
    + unfold literals. set_solver.
    + intros e ks HG. split; [done|simpl; lia].
  - eapply runs_skip; [done|by rewrite Ek|by unfold sym; rewrite Ek|]. intros s'. with_took.
    eapply runs_mono; [by apply parseNumber_runs|]. intros e ks [-> HG]. by split.
  - eapply runs_skip; [done|by rewrite Ek|by unfold sym; rewrite Ek|]. intros s'. with_took.
    pstep. split; [|done]. apply G_lit. constructor.
  - case_bool_decide as Hx; [|pstep].
    eapply runs_skip; [done|by rewrite Ek|unfold sym; by rewrite Ek, Hx|]. intros s'. with_took.
    pstep. pstep. pstep. plist. split; [by apply G_paren|simpl; lia].
Qed.

Lemma parseUnary_meets : meets (S n) (parseUnary pe) (eats (GE 6)).
Proof.
  apply prefix_meets; [lia|apply parsePrimary_meets|].
  intros t [-> Hne]%isPunct_sym. split; [done|]. intros. by apply G_neg.
Qed.
Lemma binOp_some ops t f : binOp ops t = Some f →
  tk_kind t ≠ tokEOF ∧ tk_text t ∈ ops ∧ f = Binary (tk_text t) ∧ sym t = pn (tk_text t).
Proof. unfold binOp. destruct (punctIn ops t) eqn:E; [|done]. intros [= <-]. by apply punctIn_sym in E as (? & ? & ?). Qed.
Lemma parseMul_meets : meets (S n) (parseMul pe) (eats (GE 5)).
Proof.
  apply chain_meets; [lia|apply parseUnary_meets|].
  intros t f (Hne & Hop & -> & ->)%binOp_some. split; [done|]. intros. by apply G_mul.
Qed.
Lemma parseAdd_meets : meets (S n) (parseAdd pe) (eats (GE 4)).
Proof.
  apply chain_meets; [lia|apply parseMul_meets|].
  intros t f (Hne & Hop & -> & ->)%binOp_some. split; [done|]. intros. by apply G_add.
Qed.

Lemma parseIn_runs l kl b s : stream s → length s ≤ S n → isKw "in" (peek s) = true → GE 4 l kl →
  runs (parseIn pe ps l b) s (λ e ks, GE 3 e (kl ++ optKw b "not" ++ ks)).
Proof.
  intros Hs Hn [Hin Hne]%isKw_sym HG. unfold parseIn. pstep. pstep.
  apply runs_ifPeek; intros Ht.
  - eapply runs_bind; [by apply HS; [|lia|]|]. intros q kq s3 [HQ _]. with_took. pstep. pstep. plist. by apply G_insub.
  - pose proof (commaList_meets n pe (GE 0) HE) as HL. pstep. pstep. pstep. plist. by apply G_inlist.
Qed.

Lemma parseNotIn_runs l kl s : stream s → length s ≤ S n → isKw "not" (peek s) = true → GE 4 l kl →
  runs (parseNotIn pe ps l) s (λ e ks, GE 3 e (kl ++ ks)).
Proof.
  intros Hs Hn [Hx Hne]%isKw_sym HG. pose proof (runs_next s Hs Hne) as Hr. unfold runs, parseNotIn in *.
  destruct (next s) as [[t s']|]; [|done]. destruct Hr as (ks & Ht & -> & ->). rewrite Hx in Ht.
  destruct (isKw "in" (peek s')) eqn:Ein; [|exists []; split; [by apply took_nil|rewrite app_nil_r; by apply G_up; [lia|]]].
  pose proof Ht as (_ & Hl & Hs'). simpl in Hl. pose proof (parseIn_runs l kl true s' Hs' ltac:(lia) Ein HG) as Hr.
  unfold runs in Hr. destruct (parseIn pe ps l true s') as [[e s'']|]; [|done]. destruct Hr as (ks & Ht' & HG').
  exists ([kw "not"] ++ ks). split; [by eapply took_trans|done].
Qed.

Lemma parseCmp_meets : meets (S n) (parseCmp pe ps) (eats (GE 3)).
Proof.
  intros s Hs Hn. unfold parseCmp. pose proof parseAdd_meets as HA. pstep. pstep.
  eapply (runs_mono _ _ (λ e' ks', GE 3 e' (ks ++ ks'))); [|intros e' ks' HG; split; [done|rewrite length_app; lia]].
  destruct (punctIn cmpOps (peek s')) eqn:E1; [|destruct (isKw "is" (peek s')) eqn:E2;
    [|destruct (isKw "not" (peek s')) eqn:E3; [|destruct (isKw "in" (peek s')) eqn:E4]]].
  - apply punctIn_sym in E1 as (Hx & Hop & Hne). pstep. pstep. pstep. plist. by apply G_cmp.
  - apply isKw_sym in E2 as [Hx Hne]. pstep. pstep. pstep. pstep. plist. by apply G_isnull.
  - apply parseNotIn_runs; [done|lia|done|done].
  - apply (parseIn_runs e ks false); [done|lia|done|done].
  - pstep. rewrite app_nil_r. by apply G_up; [lia|].
Qed.

Lemma parseOr_meets : meets (S n) (parseOr pe ps) (eats (GE 0)).
Proof.
  apply chain_meets; [lia|apply chain_meets; [lia|apply prefix_meets; [lia|apply parseCmp_meets|]|]|].
  - intros t [-> Hne]%isKw_sym. split; [done|]. intros. by apply G_not.
  - intros t f. destruct (isKw "and" t) eqn:E; [|done]. intros [= <-]. apply isKw_sym in E as [-> Hne].
    split; [done|]. intros. by apply G_and.
  - intros t f. destruct (isKw "or" t) eqn:E; [|done]. intros [= <-]. apply isKw_sym in E as [-> Hne].
    split; [done|]. intros. by apply G_or.
Qed.
End expressions.

(** ** Queries *)
Lemma isAlias_sym stop t : isAlias stop t = true → isIdent t = true ∧ sym t = kw (tk_text t) ∧ tk_text t ∉ stop.
Proof.
  unfold isAlias. intros [Hi Hn%negb_true_iff%bool_decide_eq_false]%andb_true_iff.
  pose proof (isIdent_sym _ Hi) as [? _]. done.
Qed.
Lemma isKw_neq x t : isKw x t = false → isIdent t = true → tk_text t ≠ x.
Proof. unfold isKw, isIdent. intros Hk Hi. rewrite Hi, andb_true_l in Hk. by apply bool_decide_eq_false in Hk. Qed.

Lemma runs_take {B} x (k : bool → PM B) s R :
  stream s →
  (∀ s', took s [kw x] s' → runs (k true) s' (λ b ks, R b (kw x :: ks))) →
  (isKw x (peek s) = false → runs (k false) s R) → runs (mbind k (takeKw x)) s R.
Proof.
  intros Hs Hy Hn. destruct (isKw x (peek s)) eqn:E.
  - pose proof (isKw_sym _ _ E) as [Hx Hne].
    assert (runs (_ ← next; k true) s R) as Hr by (eapply runs_skip; done).
    unfold runs, mbind, PM_bind, takeKw, ifPeek in *. rewrite E. unfold mbind, PM_bind, mret, PM_ret in *.
    by destruct (next s) as [[t s']|].
  - unfold runs, mbind, PM_bind, takeKw, ifPeek in *. rewrite E. by apply Hn.
Qed.

Lemma bareAlias_runs stop (m : PM string) s :
  stream s → isKw "as" (peek s) = false → isAlias stop (peek s) = true →
  (∀ R, runs (t ← next; mret (tk_text t)) s R → runs m s R) → runs m s (alias stop).
Proof.
  intros Hs Has (Hi & Hx & Hstop)%isAlias_sym Hm. apply Hm. pose proof (isIdent_sym _ Hi) as [_ Hne].
  eapply runs_bind; [by apply runs_next|]. intros t ks s' [-> ->]. with_took. pstep. rewrite Hx.
  apply alias_bare; [done|by apply isKw_neq].
Qed.
Lemma identOrErr_at what s R : isIdent (peek s) = true →
  runs (t ← next; mret (tk_text t)) s R → runs (identOrErr what) s R.
Proof. intros Hi. unfold runs, identOrErr, ifPeek. by rewrite Hi. Qed.

Lemma parseRefAlias_runs what none s : stream s →
  runs (parseRefAlias what none) s (λ a ks, alias refStopWords a ks ∨ (a = none ∧ ks = [])).
Proof.
  intros Hs. apply runs_take; [done| |].
  - intros s'. with_took. eapply runs_mono; [by apply runs_identOrErr|]. intros a ks ->. left. apply alias_as.
  - intros Has. apply runs_ifPeek; intros Ht; [|pstep; by right].
    eapply runs_mono; [eapply (bareAlias_runs refStopWords); [done|done|done|]|by left].
    intros R. apply identOrErr_at. by apply isAlias_sym in Ht as (? & _).
Qed.

Lemma parseOptionalAlias_runs s : stream s →
  runs parseOptionalAlias s (λ a ks, alias fieldStopWords a ks ∨ (a = "" ∧ ks = [])).
Proof.
  intros Hs. unfold parseOptionalAlias. apply runs_ifPeek; [intros [Hx Hne]%isKw_sym|intros Has].
  - pstep. eapply runs_mono; [by apply runs_identOrErr|]. intros a ks ->. left. apply alias_as.
  - apply runs_ifPeek; intros Ht; [|pstep; by right].
    eapply runs_mono; [eapply (bareAlias_runs fieldStopWords); [done|done|done|]|by left]. done.
Qed.

Section queries.
  Context (n : nat) (pe : PM Expr) (ps : PM Select).
  Context (HE : meets n pe (eats (GE 0))).
  Context (HS : ∀ s, stream s → length s ≤ n → isKw "select" (peek s) = true → runs ps s (eats GSel)).

Lemma parseTableRef_meets : meets n (parseTableRef ps) (eats GRef).
Proof.
  intros s Hs Hn. unfold parseTableRef. pstep.
  - pstep. apply runs_ifPeek; intros Ht; [|pstep].
    eapply runs_bind; [by apply HS; [|lia|]|]. intros q kq s3 [HQ _]. with_took. pstep.
    pbind parseRefAlias_runs. intros a ka s4 Ha. with_took. case_bool_decide as Hne; [pstep|]. pstep. plist.
    destruct Ha as [Ha|[-> _]]; [|done]. split; [by apply G_derived|simpl; lia].
  - pstep. pbind parseRefAlias_runs. intros a ka s4 Ha. with_took. pstep. plist. split; [|simpl; lia].
    destruct Ha as [Ha|[-> ->]]; [by apply G_table_as|apply G_table].
Qed.

Lemma parseField_meets : meets n (parseField pe) (eats GField).
Proof.
  intros s Hs Hn. unfold parseField. pstep. pbind parseOptionalAlias_runs. intros a ka s4 Ha. with_took. pstep.
  plist. split; [|rewrite length_app; lia].
  destruct Ha as [Ha|[-> ->]]; [by apply G_field_as|rewrite app_nil_r; by apply G_field].
Qed.

Lemma parseFields_runs s : stream s → length s ≤ n →
  runs (parseFields pe) s (λ f ks, GFields f.1 f.2 ks).
Proof.
  intros Hs Hn. pose proof (commaList_meets _ _ _ parseField_meets) as HL. unfold parseFields. pstep.
  - pstep. pstep. apply G_star.
  - pstep. pstep. plist. by apply G_fields.
Qed.

Lemma parseClause_runs k s : stream s → length s ≤ S n → runs (parseClause pe k) s (clause k (GE 0)).
Proof.
  intros Hs Hn. unfold parseClause. pstep; [|pstep; apply clause_none].
  pstep. pstep. pstep. plist. by apply clause_some.
Qed.

Lemma by_runs {A} k (p : PM A) R s : meets n p (eats R) → stream s → length s ≤ n →
  runs (ifPeek (isKw k) (_ ← next; _ ← expectKw "by"; commaList p) (mret [])) s (by_list k R).
Proof.
  intros Hp Hs Hn. pstep; [|pstep; apply by_none]. pstep. pstep.
  eapply runs_mono; [apply (commaList_meets n p R Hp); [done|lia]|]. intros xs ks [HR _]. by apply by_some.
Qed.

Lemma parseOrderTerm_meets : meets n (parseOrderTerm pe) (eats GOrder).
Proof.
  intros s Hs Hn. unfold parseOrderTerm. pstep. pstep. destruct b.
  - pstep. plist. split; [by apply G_desc|rewrite length_app; lia].
  - pstep. pstep. plist. split; [by apply G_asc|rewrite length_app; lia].
Qed.

Lemma parseLimit_runs s : stream s →
  runs parseLimit s (clause "limit" (λ n ks, ∃ t, ks = [t] ∧ literal (VInt n) t)).
Proof.
  intros Hs. unfold parseLimit, limitErr. pstep; [|pstep; apply clause_none]. pstep. pstep.
  destruct (negb (bool_decide (tk_kind (peek s') = tokNum)) || _) eqn:E; [pstep|].
  apply orb_false_iff in E as [Ek%negb_false_iff%bool_decide_eq_true Ed%bool_decide_eq_false].
  destruct (ParseInt (tk_text (peek s'))) as [z|] eqn:Ez; [|pstep]. case_bool_decide; [pstep|].
  eapply runs_skip; [done|by rewrite Ek|unfold sym; by rewrite Ek|]. intros s''. with_took. pstep.
  apply clause_some. eexists. split; [done|]. apply lit_int; [|done].
  destruct (split_dot (tk_text (peek s'))).2; [|done]. by destruct Ed.
Qed.
End queries.

(** ** Joins *)
Definition join_words (k : option string) (ks : list symbol) : Prop :=
  match k with
  | None => ks = []
  | Some kind =>
      (kind = "inner" ∧ ∃ b, ks = optKw b "inner" ++ [kw "join"]) ∨
      (kind = "left" ∧ ∃ b, ks = kw "left" :: optKw b "outer" ++ [kw "join"])
  end.

Lemma joinAfter_runs m kind s Q : stream s → runs m s Q →
  runs (joinAfter m kind) s (λ k ks, match k with
    | None => ks = []
    | Some x => x = kind ∧ ∃ km, Q tt km ∧ ks = km ++ [kw "join"]
    end).
Proof.
  intros Hs Hm. unfold runs at 1 in Hm. unfold runs, joinAfter. destruct (m s) as [[[] s']|]; [|done].
  destruct Hm as (km & Ht & HQ). destruct (isKw "join" (peek s')) eqn:Ej; [|exists []; by split; [apply took_nil|]].
  apply isKw_sym in Ej as [Hx Hne]. pose proof Ht as (_ & _ & Hs').
  assert (runs (_ ← next; mret (Some kind)) s' (λ k ks, k = Some kind ∧ ks = [kw "join"])) as Hr
    by (pstep; by pstep).
  unfold runs in Hr. destruct ((_ ← next; mret (Some kind)) s') as [[k s'']|]; [|done].
  destruct Hr as (ks & Ht' & -> & ->). exists (km ++ [kw "join"]). split; [by eapply took_trans|eauto].
Qed.

Lemma joinKind_runs s : stream s → runs joinKind s join_words.
Proof.
  intros Hs. unfold joinKind. pstep; [|pstep; [|pstep; [|by pstep]]].
  - pstep. pstep. left. split; [done|]. by exists false.
  - eapply runs_mono; [apply (joinAfter_runs _ _ _ (λ _ ks, ks = [kw "inner"])); [done|by pstep; pstep]|].
    intros [k|] ks; [|done]. intros (-> & km & -> & ->). left. split; [done|]. by exists true.
  - eapply runs_mono; [apply (joinAfter_runs _ _ _ (λ _ ks, ∃ b, ks = kw "left" :: optKw b "outer")); [done|]|].
    + pstep. pstep. pstep. exists b. by plist.
    + intros [k|] ks; [|done]. intros (-> & km & [b ->] & ->). right. split; [done|]. by exists b.
Qed.

Section knot.
  Context (n : nat) (pe : PM Expr) (ps : PM Select).
  Context (HE : meets n pe (eats (GE 0))).
  Context (HS : ∀ s, stream s → length s ≤ n → isKw "select" (peek s) = true → runs ps s (eats GSel)).

Lemma join_words_cons ref kr on ko k ks :
  join_words (Some k) ks → GRef ref kr → GE 0 on ko → GJoin (ref, on, k) (ks ++ kr ++ kw "on" :: ko) ∧ 1 ≤ length ks.
Proof.
  intros [[-> [b ->]]|[-> [b ->]]] Hr Ho; (split; [|simpl; rewrite ?length_app; simpl; lia]); plist.
  - by apply G_inner.
  - by apply G_left.
Qed.

Lemma joinLoop_runs m s : stream s → length s ≤ n → length s ≤ m → runs (joinLoop pe ps m) s (many GJoin).
Proof.
  pose proof (parseTableRef_meets n ps HS) as HT. revert s. induction m as [|m IH]; intros s Hs Hn Hm.
  { pose proof (stream_length s Hs). lia. }
  cbn [joinLoop]. pbind joinKind_runs. intros [k|] ks s' Hw; with_took.
  - assert (1 ≤ length ks) as Hk by (by destruct Hw as [[_ [b ->]]|[_ [b ->]]]; destruct b; simpl; lia).
    pstep. pstep. pstep. eapply runs_bind; [apply IH; [done|lia|lia]|]. intros js kj s5 Hjs. with_took. pstep.
    plist. rewrite (app_assoc ks). change (kw "on" :: ?x ++ ?y) with ((kw "on" :: x) ++ y).
    rewrite (app_assoc _ _ kj), <-(app_assoc ks). apply many_cons; [|done]. by apply join_words_cons.
  - pstep. simpl in Hw. subst ks. apply many_nil.
Qed.

Lemma parseSelectBody_runs s : stream s → length s ≤ S n → isKw "select" (peek s) = true →
  runs (parseSelectBody pe ps) s (eats GSel).
Proof.
  intros Hs Hn [Hx Hne]%isKw_sym. pose proof (parseTableRef_meets n ps HS) as HT. unfold parseSelectBody.
  pstep. eapply runs_bind; [apply (parseFields_runs n pe HE); [done|lia]|]. intros [st fs] kf s2 Hf. with_took.
  pstep. pstep. eapply runs_bind; [apply joinLoop_runs; [done|lia|done]|]. intros js kj s5 Hjs. with_took.
  eapply runs_bind; [apply (parseClause_runs n pe HE); [done|lia]|]. intros w kwh s6 Hw. with_took.
  eapply runs_bind; [apply (by_runs n _ pe (GE 0)); [done|done|lia]|]. intros g kg s7 Hg. with_took.
  eapply runs_bind; [apply (parseClause_runs n pe HE); [done|lia]|]. intros h kh s8 Hh. with_took.
  eapply runs_bind; [apply (by_runs n "order" _ GOrder _ (parseOrderTerm_meets n pe HE)); [done|lia]|].
  intros o ko s9 Ho. with_took. pbind parseLimit_runs. intros lim kl s10 Hlim. with_took.
  pstep. plist. split; [by apply G_select|simpl; lia].
Qed.
End knot.

Lemma parsers_meet n :
  meets n (parseExpr n) (eats (GE 0)) ∧
  ∀ s, stream s → length s ≤ n → isKw "select" (peek s) = true → runs (parseSelect n) s (eats GSel).
Proof.
  unfold parseExpr, parseSelect. induction n as [|n [HE HS]].
  { split; intros s Hs Hn; pose proof (stream_length s Hs); lia. }
  cbn [parsers]. destruct (parsers n) as [pe ps]. cbn [fst snd] in *. split.
  - by apply parseOr_meets.
  - intros s Hs Hn Hk. by apply (parseSelectBody_runs n).
Qed.

(** ** Statements *)
Lemma attrLoop_runs m n t p nn ai u rt rc s : stream s → length s ≤ m →
  runs (attrLoop (MkColumnDef n t p nn ai u rt rc) m) s
    (λ cd ks, GAttr (MkColumnDef n t p nn ai u rt rc) cd ks).
Proof.
  revert p nn ai u rt rc s. induction m as [|m IH]; intros p nn ai u rt rc s Hs Hm.
  { pose proof (stream_length s Hs). lia. }
  cbn [attrLoop cd_Name cd_Type cd_Primary cd_NotNull cd_AutoInc cd_Unique cd_RefTable cd_RefCol].
  pstep. destruct b.
  { pstep. eapply runs_mono; [apply IH; [done|simpl in *; lia]|]. intros. by apply G_primary. }
  pstep. destruct b.
  { pstep. eapply runs_mono; [apply IH; [done|simpl in *; lia]|]. intros. by apply G_notnull. }
  pstep. destruct b.
  { eapply runs_mono; [apply IH; [done|simpl in *; lia]|]. intros. by apply G_auto. }
  pstep. destruct b.
  { eapply runs_mono; [apply IH; [done|simpl in *; lia]|]. intros. by apply G_unique. }
  pstep. destruct b; [|pstep; apply G_noattr]. pstep.
  eapply (runs_bind _ _ _ (λ c ks, ks = [pn "("; kw c; pn ")"] ∨ c = rc ∧ ks = [])).
  - pstep; [|pstep; by right]. pstep. pstep. pstep. pstep. by left.
  - intros c ks s3 [->|[-> ->]]; with_took;
      (eapply runs_mono; [apply IH; [done|simpl in *; lia]|]); intros; [by apply G_refcol|by apply G_ref].
Qed.

Lemma parseColumnDef_meets n : meets n parseColumnDef (eats GColumn).
Proof.
  intros s Hs Hn. unfold parseColumnDef. pstep. pstep. destruct (ValidTypes _) eqn:Ev; [|pstep].
  eapply runs_mono; [by apply (attrLoop_runs (length _))|]. intros cd ks HG. plist. split; [|simpl; lia].
  by eapply G_column.
Qed.

Lemma ident_meets n what : meets n (identOrErr what) (eats GName).
Proof. intros s Hs Hn. eapply runs_mono; [by apply runs_identOrErr|]. intros c ks ->. split; [apply G_name|done]. Qed.

Section statements.
  Context (n : nat) (pe : PM Expr) (HE : meets n pe (eats (GE 0))).

Lemma parseRow_meets : meets n (parseRow pe) (eats GRow).
Proof.
  intros s Hs Hn. unfold parseRow. pstep. pose proof (commaList_meets n pe (GE 0) HE) as HL.
  eapply (runs_bind _ _ _ (λ es ks, GRow es (pn "(" :: ks ++ [pn ")"]))).
  - apply runs_ifPeek; intros Ht; [pstep; apply G_row0|].
    eapply runs_mono; [apply HL; [done|lia]|]. intros es ks [HR _]. by apply G_row.
  - intros es ks s3 HG. with_took. pstep. pstep. plist. split; [done|simpl; lia].
Qed.

Lemma parseAssignment_meets : meets n (parseAssignment pe) (eats GAssign).
Proof.
  intros s Hs Hn. unfold parseAssignment. pstep. pstep. pstep. pstep. plist. split; [by apply G_assign|simpl; lia].
Qed.

Lemma parseCreate_runs s : stream s → length s ≤ n → sym (peek s) = kw "create" → tk_kind (peek s) ≠ tokEOF →
  runs parseCreate s GStmt.
Proof.
  intros Hs Hn Hx Hne. pose proof (commaList_meets n _ _ (parseColumnDef_meets n)) as HL.
  unfold parseCreate. do 7 pstep. plist. by apply G_create.
Qed.
Lemma parseDrop_runs s : stream s → sym (peek s) = kw "drop" → tk_kind (peek s) ≠ tokEOF →
  runs parseDrop s GStmt.
Proof.
  intros Hs Hx Hne. unfold parseDrop. do 3 pstep.
  eapply (runs_bind _ _ _ (λ _ ks, ks = optKw b "exists")).
  - destruct b; [by apply runs_expectKw|by pstep].
  - intros [] ks s3 ->. with_took. do 2 pstep. plist. destruct b; [apply (G_drop _ true)|apply (G_drop _ false)].
Qed.
Lemma parseInsert_runs s : stream s → length s ≤ n → sym (peek s) = kw "insert" → tk_kind (peek s) ≠ tokEOF →
  runs (parseInsert pe) s GStmt.
Proof.
  intros Hs Hn Hx Hne. pose proof (commaList_meets n _ _ parseRow_meets) as HR0.
  pose proof (commaList_meets n _ _ (ident_meets n "column name")) as HN. unfold parseInsert. do 3 pstep.
  eapply (runs_bind _ _ _ (λ cs ks, (cs = [] ∧ ks = []) ∨ ∃ kc, sep GName cs kc ∧ ks = pn "(" :: kc ++ [pn ")"])).
  - pstep; [|pstep; by left]. do 4 pstep. plist. right. eauto.
  - intros cs ks s3 Hcs. with_took. do 3 pstep. plist. destruct Hcs as [[-> ->]|(kc & Hkc & ->)].
    + by apply G_insert.
    + plist. by apply G_insert_cols.
Qed.
Lemma parseUpdate_runs s : stream s → length s ≤ n → sym (peek s) = kw "update" → tk_kind (peek s) ≠ tokEOF →
  runs (parseUpdate pe) s GStmt.
Proof.
  intros Hs Hn Hx Hne. pose proof (commaList_meets n _ _ parseAssignment_meets) as HL. unfold parseUpdate. do 4 pstep.
  eapply runs_bind; [apply (parseClause_runs n pe HE); [done|lia]|]. intros w kwh s6 Hw. with_took.
  pstep. plist. by apply G_update.
Qed.
Lemma parseDelete_runs s : stream s → length s ≤ n → sym (peek s) = kw "delete" → tk_kind (peek s) ≠ tokEOF →
  runs (parseDelete pe) s GStmt.
Proof.
  intros Hs Hn Hx Hne. unfold parseDelete. do 3 pstep.
  eapply runs_bind; [apply (parseClause_runs n pe HE); [done|lia]|]. intros w kwh s6 Hw. with_took.
  pstep. plist. by apply G_delete.
Qed.
End statements.

Lemma parseStatement_runs n s : stream s → length s ≤ n → runs (parseStatement n) s GStmt.
Proof.
  intros Hs Hn. destruct (parsers_meet n) as [HE HS]. unfold parseStatement. apply runs_withPeek.
  destruct (isKw "create" (peek s)) eqn:E; [apply isKw_sym in E as []; by apply (parseCreate_runs n)|clear E].
  destruct (isKw "drop" (peek s)) eqn:E; [apply isKw_sym in E as []; by apply parseDrop_runs|clear E].
  destruct (isKw "insert" (peek s)) eqn:E; [apply isKw_sym in E as []; by apply (parseInsert_runs n)|clear E].
  destruct (isKw "select" (peek s)) eqn:E.
  { eapply runs_bind; [by apply HS|]. intros q ks s' [HG _]. with_took. pstep. plist. by apply G_query. }
  clear E.
  destruct (isKw "update" (peek s)) eqn:E; [apply isKw_sym in E as []; by apply (parseUpdate_runs n)|clear E].
  destruct (isKw "delete" (peek s)) eqn:E; [apply isKw_sym in E as []; by apply (parseDelete_runs n)|clear E].
  destruct (isKw "begin" (peek s)) eqn:E; [apply isKw_sym in E as []; do 2 pstep; apply G_begin|clear E].
  destruct (isKw "start" (peek s)) eqn:E; [apply isKw_sym in E as []; do 3 pstep; apply G_start|clear E].
  destruct (isKw "commit" (peek s)) eqn:E; [apply isKw_sym in E as []; do 2 pstep; apply G_commit|clear E].
  destruct (isKw "rollback" (peek s)) eqn:E; [apply isKw_sym in E as []; do 2 pstep; apply G_rollback|clear E].
  destruct (tk_kind (peek s)); pstep.
Qed.

(** The whole text: nothing but the end of the input is left. *)
Lemma parseProgram_runs n s : stream s → length s ≤ n →
  match parseProgram n s with
  | Ok (st, s') => ∃ ks p, took s ks s' ∧ GProgram st ks ∧ s' = [MkToken tokEOF "" p]
  | Err e => e ≠ errFuel
  end.
Proof.
  intros Hs Hn.
  assert (runs (parseProgram n) s GProgram) as Hr.
  { unfold parseProgram. eapply runs_bind; [by apply parseStatement_runs|]. intros st ks s' HG. with_took.
    eapply (runs_bind _ _ _ (λ _ ks, ∃ b : bool, ks = if b then [pn ";"] else [])).
    - pstep; [pstep; pstep; by exists true|pstep; by exists false].
    - intros [] ks' s'' [b ->]. with_took. pstep. destruct (tk_kind (peek s'')); pstep.
      rewrite app_nil_r. by apply G_program. }
  unfold runs in Hr. destruct (parseProgram n s) as [[st s']|] eqn:Ep; [|done].
  destruct Hr as (ks & Ht & HG). exists ks.
  assert (tk_kind (peek s') = tokEOF) as Hk.
  { revert Ep. unfold parseProgram, mbind, PM_bind. destruct (parseStatement n s) as [[st0 s0]|]; [|done].
    destruct (ifPeek _ _ _ s0) as [[[] s1]|]; [|done]. unfold withPeek.
    destruct (tk_kind (peek s1)) eqn:E; [intros [= <- <-]; done|done..]. }
  destruct Ht as (Hm & Hl & Hs'). pose proof Hs' as (ts & p & -> & Hts). exists p.
  destruct ts as [|t ts]; [by repeat split|]. by inversion Hts.
Qed.

Lemma lex_stream src toks : lex src = Ok toks → stream toks.
Proof.
  intros (ts & -> & Hts)%lexFrom_shape. exists ts, (slen src). split; [done|].
  eapply Forall_impl; [done|]. intros t Hw Hk. unfold wf_token in Hw. by rewrite Hk in Hw.
Qed.

(** C18: Parsing comes to an end on every text: with the number of tokens as the
    bound of the recursion and of every loop, neither the lexer nor the parser
    ever runs out of fuel; the result is a statement or a syntax error. *)
Theorem parse_terminates src : Parse src ≠ Err errFuel.
Proof.
  unfold Parse. pose proof (lexFrom_total (S (slen src)) (slen src) src ltac:(lia)) as Hl.
  destruct (lex src) as [toks|e] eqn:El; [|intros [= ->]; by apply Hl]. simpl.
  pose proof (parseProgram_runs (length toks) toks (lex_stream _ _ El) ltac:(lia)) as H.
  destruct (parseProgram (length toks) toks) as [[st s']|e]; [done|]. by intros [= ->].
Qed.

(** C17: The parser is sound for the SQL grammar: an accepted text consists of
    tokens that the grammar, with its operator precedences and associativity,
    derives for exactly the returned statement, up to the end of the input. *)
Theorem parse_sound src st :
  Parse src = Ok st →
  ∃ ts eof, lex src = Ok (ts ++ [eof]) ∧ tk_kind eof = tokEOF ∧ GProgram st (map sym ts).
Proof.
  unfold Parse. destruct (lex src) as [toks|e] eqn:El; [|done]. simpl.
  pose proof (lex_stream _ _ El) as Hs. pose proof (parseProgram_runs (length toks) toks Hs ltac:(lia)) as H.
  destruct (parseProgram (length toks) toks) as [[st' s']|e]; [|done]. intros [= <-].
  destruct H as (ks & p & (Hm & _ & _) & HG & ->). destruct Hs as (ts & p' & -> & Hts).
  exists ts, (MkToken tokEOF "" p'). split; [done|split; [done|]].
  rewrite map_app in Hm. simpl in Hm. by apply app_inj_tail in Hm as [-> _].
Qed.

Lemma parse_sound_witness :
  ∃ ts eof, lex "DELETE FROM t WHERE NOT a = 1 + 2 * b OR c;" = Ok (ts ++ [eof]) ∧ tk_kind eof = tokEOF ∧
    GProgram (DeleteS (MkDelete "t" (Some (Or (Not (Cmp "=" (ColRef "" "a")
      (Binary "+" (Lit (VInt 1)) (Binary "*" (Lit (VInt 2)) (ColRef "" "b"))))) (ColRef "" "c"))))) (map sym ts).
Proof. apply parse_sound. vm_compute. reflexivity. Defined.
