(* ===== verification/Printer.v ===== *)
(** * Printing statements, and reading them back

    A printer for syntax trees: every operand in parentheses, every table alias
    and join kind written out.  [Parse] reads the printed text back as the same
    tree, for every tree whose names, operators and literals can be written
    ([okStmt]).  With the soundness of the parser this fixes what the parser
    makes of every construct of the language. *)
From Stdlib Require Import Ascii.
From S2P Require Import Prelude GoStd Types Schema Ast Lexer Parser Grammar.

(** ** The printer *)
Fixpoint sepBy (l : list (list symbol)) : list symbol :=
  match l with
  | [] => []
  | [x] => x
  | x :: l => x ++ pn "," :: sepBy l
  end.

Definition paren (ks : list symbol) : list symbol := pn "(" :: ks ++ [pn ")"].

(** The exact decimal expansion of a finite float. *)
Definition floatText (f : f64) : string :=
  match f with
  | S754_finite _ m e =>
      let '(D, x) := exact_dec m e in
      let k := Z.to_nat (- x) in
      let ds := FormatInt D in
      let ds := str_repeat "0" (S k - String.length ds) +:+ ds in
      String.substring 0 (String.length ds - k) ds +:+ "." +:+ String.substring (String.length ds - k) k ds
  | _ => "0.0"
  end.

Definition prLit (v : Value) : symbol :=
  match v with
  | VNull => kw "null"
  | VInt i => (tokNum, FormatInt i)
  | VFloat f => (tokNum, floatText f)
  | VText s => (tokStr, s)
  | VBool b => kw (if b then "true" else "false")
  | VTime _ => kw "null"
  end.

Definition prAs (a : string) : list symbol := if bool_decide (a = "") then [] else [kw "as"; kw a].
Definition prField (f : list symbol) (a : string) : list symbol := f ++ prAs a.
Fixpoint prJoins (ts ons : list (list symbol)) (kinds : list string) : list symbol :=
  match ts, ons, kinds with
  | t :: ts, on :: ons, k :: kinds => kw k :: kw "join" :: t ++ kw "on" :: on ++ prJoins ts ons kinds
  | _, _, _ => []
  end.
Definition prTables (ts ons : list (list symbol)) (kinds : list string) : list symbol :=
  match ts with [] => [] | t :: ts => t ++ prJoins ts ons kinds end.
Definition prClause (k : string) (o : option (list symbol)) : list symbol :=
  match o with None => [] | Some ks => kw k :: ks end.
Definition prBy (k : string) (l : list (list symbol)) : list symbol :=
  match l with [] => [] | _ => kw k :: kw "by" :: sepBy l end.
Definition prLimit (l : option Z) : list symbol :=
  match l with None => [] | Some n => [kw "limit"; (tokNum, FormatInt n)] end.

Fixpoint prE (e : Expr) : list symbol :=
  match e with
  | Lit v => [prLit v]
  | ColRef t n => if bool_decide (t = "") then [kw n] else [kw t; pn "."; kw n]
  | Func f star arg =>
      kw f :: paren (if star then [pn "*"] else match arg with None => [] | Some a => prE a end)
  | Cmp op l r | Binary op l r => paren (prE l) ++ pn op :: paren (prE r)
  | And l r => paren (prE l) ++ kw "and" :: paren (prE r)
  | Or l r => paren (prE l) ++ kw "or" :: paren (prE r)
  | Not x => kw "not" :: paren (prE x)
  | IsNullE x n => paren (prE x) ++ kw "is" :: optKw n "not" ++ [kw "null"]
  | InList x es n => paren (prE x) ++ optKw n "not" ++ kw "in" :: paren (sepBy (map prE es))
  | InSub x q n => paren (prE x) ++ optKw n "not" ++ kw "in" :: paren (prS q)
  end
with prS (q : Select) : list symbol :=
  match q with
  | MkSelect ts ons kinds star fs als w g h o lim =>
      kw "select" :: (if star then [pn "*"] else sepBy (zip_with prField (map prE fs) als))
      ++ kw "from" :: prTables (map prT ts) (map prE ons) kinds
      ++ prClause "where" (match w with None => None | Some e => Some (prE e) end)
      ++ prBy "group" (map prE g)
      ++ prClause "having" (match h with None => None | Some e => Some (prE e) end)
      ++ prBy "order" (map prO o) ++ prLimit lim
  end
with prT (t : TableRef) : list symbol :=
  match t with
  | MkTableRef n a None => [kw n; kw "as"; kw a]
  | MkTableRef _ a (Some q) => paren (prS q) ++ [kw "as"; kw a]
  end
with prO (o : OrderTerm) : list symbol :=
  match o with MkOrderTerm e desc => prE e ++ optKw desc "desc" end.

Definition prAttrs (cd : ColumnDef) : list symbol :=
  (if cd_Primary cd then [kw "primary"; kw "key"] else [])
  ++ (if cd_NotNull cd then [kw "not"; kw "null"] else [])
  ++ optKw (cd_AutoInc cd) "auto_increment" ++ optKw (cd_Unique cd) "unique"
  ++ (if bool_decide (cd_RefTable cd = "") then []
      else kw "references" :: kw (cd_RefTable cd)
           :: (if bool_decide (cd_RefCol cd = "") then [] else paren [kw (cd_RefCol cd)])).
Definition prColumn (cd : ColumnDef) : list symbol := kw (cd_Name cd) :: kw (cd_Type cd) :: prAttrs cd.
Definition prRow (es : list Expr) : list symbol := paren (sepBy (map prE es)).
Definition prAssign (a : Assignment) : list symbol := kw (as_Col a) :: pn "=" :: prE (as_Expr a).

Definition prStmt (st : Statement) : list symbol :=
  match st with
  | CreateTableS n cols => kw "create" :: kw "table" :: kw n :: paren (sepBy (map prColumn cols))
  | DropTableS n b => kw "drop" :: kw "table" :: (if b then [kw "if"; kw "exists"] else []) ++ [kw n]
  | InsertS (MkInsert n cs rows) =>
      kw "insert" :: kw "into" :: kw n
      :: (match cs with [] => [] | _ => paren (sepBy (map (λ c, [kw c]) cs)) end)
      ++ kw "values" :: sepBy (map prRow rows)
  | SelectS q => prS q
  | UpdateS (MkUpdate n sets w) =>
      kw "update" :: kw n :: kw "set" :: sepBy (map prAssign sets) ++ prClause "where" (prE <$> w)
  | DeleteS (MkDelete n w) => kw "delete" :: kw "from" :: kw n :: prClause "where" (prE <$> w)
  | BeginS => [kw "begin"]
  | CommitS => [kw "commit"]
  | RollbackS => [kw "rollback"]
  end.

(** Symbols as text. *)
Definition render (ks : list symbol) : string := printTokens (map (λ k : symbol, MkToken k.1 k.2 0) ks).
Definition print (st : Statement) : string := render (prStmt st).

(** ** Trees that can be written *)
Definition okIdent (s : string) : bool :=
  match s with
  | EmptyString => false
  | String c s' => isIdentStart c && all_chars isIdentChar s'
  end && bool_decide (ToLower s = s).
(** The first name of an expression: no literal, no [NOT], and not [SELECT],
    which opens a subquery. *)
Definition okName (s : string) : bool :=
  okIdent s && negb (bool_decide (s ∈ ["null"; "true"; "false"; "not"; "select"])).
Definition okNum (t : string) : bool :=
  match t with EmptyString => false | String c _ => is_digit c end
  && bool_decide (lexNumber t = (t, EmptyString)).

Definition okLit (v : Value) : bool :=
  match v with
  | VInt i => bool_decide (0 ≤ i ≤ int64_max)%Z
  | VFloat f => okNum (floatText f) && bool_decide (is_Some (split_dot (floatText f)).2)
                && bool_decide (ParseFloat (floatText f) = Some f)
  | VTime _ => false
  | _ => true
  end.
Definition okAlias (a : string) : bool := bool_decide (a = "") || okIdent a.

Fixpoint okE (e : Expr) : bool :=
  match e with
  | Lit v => okLit v
  | ColRef t n => okIdent n && (if bool_decide (t = "") then okName n else okName t)
  | Func f star arg =>
      okName f && match arg with None => true | Some a => negb star && okE a end
  | Cmp op l r => bool_decide (op ∈ cmpOps) && okE l && okE r
  | Binary op l r => bool_decide (op ∈ ["+"; "-"; "*"; "/"; "%"]) && okE l && okE r
  | And l r | Or l r => okE l && okE r
  | Not x | IsNullE x _ => okE x
  | InList x es _ => okE x && negb (bool_decide (es = [])) && forallb okE es
  | InSub x q _ => okE x && okS q
  end
with okS (q : Select) : bool :=
  match q with
  | MkSelect ts ons kinds star fs als w g h o lim =>
      negb (bool_decide (ts = [])) && forallb okT ts
      && bool_decide (length ons = length (tail ts)) && bool_decide (length kinds = length (tail ts))
      && forallb okE ons && forallb (λ k, bool_decide (k ∈ ["inner"; "left"])) kinds
      && (if star then bool_decide (fs = []) else negb (bool_decide (fs = [])))
      && bool_decide (length als = length fs) && forallb okE fs && forallb okAlias als
      && match w with None => true | Some e => okE e end && forallb okE g
      && match h with None => true | Some e => okE e end && forallb okO o
      && match lim with None => true | Some n => bool_decide (0 ≤ n ≤ int64_max)%Z end
  end
with okT (t : TableRef) : bool :=
  match t with
  | MkTableRef n a None => okIdent n && okIdent a
  | MkTableRef n a (Some q) => bool_decide (n = "") && okIdent a && okS q
  end
with okO (o : OrderTerm) : bool := match o with MkOrderTerm e _ => okE e end.

Definition okColumn (cd : ColumnDef) : bool :=
  okIdent (cd_Name cd) && ValidTypes (cd_Type cd)
  && (if bool_decide (cd_RefTable cd = "") then bool_decide (cd_RefCol cd = "")
      else okIdent (cd_RefTable cd) && okAlias (cd_RefCol cd)).

Definition okStmt (st : Statement) : bool :=
  match st with
  | CreateTableS n cols => okIdent n && negb (bool_decide (cols = [])) && forallb okColumn cols
  | DropTableS n b => okIdent n && (b || negb (bool_decide (n = "if")))
  | InsertS (MkInsert n cs rows) =>
      okIdent n && forallb okIdent cs && negb (bool_decide (rows = [])) && forallb (forallb okE) rows
  | SelectS q => okS q
  | UpdateS (MkUpdate n sets w) =>
      okIdent n && negb (bool_decide (sets = []))
      && forallb (λ a, okIdent (as_Col a) && okE (as_Expr a)) sets
      && match w with None => true | Some e => okE e end
  | DeleteS (MkDelete n w) => okIdent n && match w with None => true | Some e => okE e end
  | BeginS | CommitS | RollbackS => true
  end.

(** ** Running parsers forward on symbols

    [steps m ks a ks']: on any tokens with the symbols [ks] the parser returns
    [a] and leaves tokens with the symbols [ks']. *)
Definition steps {A} (m : PM A) (ks : list symbol) (a : A) (ks' : list symbol) : Prop :=
  ∀ s, map sym s = ks → ∃ s', m s = Ok (a, s') ∧ map sym s' = ks'.

Lemma steps_bind {A B} (m : PM A) (k : A → PM B) ks a ks1 b ks2 :
  steps m ks a ks1 → steps (k a) ks1 b ks2 → steps (m ≫= k) ks b ks2.
Proof.
  intros Hm Hk s Hs. destruct (Hm s Hs) as (s1 & E1 & Hs1). destruct (Hk s1 Hs1) as (s2 & E2 & Hs2).
  exists s2. unfold mbind, PM_bind. by rewrite E1.
Qed.
Lemma steps_ret {A} (a : A) ks : steps (mret a) ks a ks.
Proof. intros s Hs. by exists s. Qed.
Lemma steps_fuel {A} (k : nat → PM A) ks a ks' : steps (k (length ks)) ks a ks' → steps (withFuel k) ks a ks'.
Proof. intros H s Hs. specialize (H s Hs). by rewrite <-Hs, length_map in H. Qed.

Lemma steps_peek {A} (k : token → PM A) x r a ks' :
  (∀ t, sym t = x → steps (k t) (x :: r) a ks') → steps (withPeek k) (x :: r) a ks'.
Proof. intros H s Hs. destruct s as [|t s]; [done|]. pose proof Hs as [= Ht _]. by apply (H t Ht). Qed.
Lemma steps_if {A} (b : bool) test (yes no : PM A) x r a ks' :
  (∀ t, sym t = x → test t = b) → steps (if b then yes else no) (x :: r) a ks' →
  steps (ifPeek test yes no) (x :: r) a ks'.
Proof.
  intros Hb H s Hs. destruct s as [|t s]; [done|]. pose proof Hs as [= Ht _]. unfold ifPeek.
  change (peek (t :: s)) with t. rewrite (Hb t Ht). destruct b; by apply H.
Qed.
Lemma steps_next {B} (k : token → PM B) x r b ks' :
  r ≠ [] → (∀ t, sym t = x → steps (k t) r b ks') → steps (t ← next; k t) (x :: r) b ks'.
Proof.
  intros Hr H s Hs. destruct r as [|y r]; [done|]. destruct s as [|t [|t' s]]; [done|done|]. injection Hs as Ht Ht' Hs.
  apply (H t Ht (t' :: s)). simpl. by rewrite Ht', Hs.
Qed.

(** What a test says of a symbol. *)
Definition symKw (x : string) (k : symbol) : bool := bool_decide (k.1 = tokIdent) && bool_decide (k.2 = x).
Definition symPunct (x : string) (k : symbol) : bool := bool_decide (k.1 = tokPunct) && bool_decide (k.2 = x).
Lemma isKw_of x t k : sym t = k → isKw x t = symKw x k.
Proof. by intros <-. Qed.
Lemma isPunct_of x t k : sym t = k → isPunct x t = symPunct x k.
Proof. by intros <-. Qed.
Definition symPunctIn (xs : list string) (k : symbol) : bool := bool_decide (k.1 = tokPunct) && bool_decide (k.2 ∈ xs).
Lemma punctIn_of xs t k : sym t = k → punctIn xs t = symPunctIn xs k.
Proof. by intros <-. Qed.

Lemma steps_ifPunct {A} x (yes no : PM A) k r a ks' :
  steps (if symPunct x k then yes else no) (k :: r) a ks' → steps (ifPeek (isPunct x) yes no) (k :: r) a ks'.
Proof. apply steps_if. intros t. apply isPunct_of. Qed.
Lemma steps_ifKw {A} x (yes no : PM A) k r a ks' :
  steps (if symKw x k then yes else no) (k :: r) a ks' → steps (ifPeek (isKw x) yes no) (k :: r) a ks'.
Proof. apply steps_if. intros t. apply isKw_of. Qed.
Lemma symKw_same x : symKw x (kw x) = true.
Proof. unfold symKw, kw. simpl. by rewrite bool_decide_eq_true_2. Qed.
Lemma symPunct_same x : symPunct x (pn x) = true.
Proof. unfold symPunct, pn. simpl. by rewrite bool_decide_eq_true_2. Qed.

Lemma steps_skip {B} (k : PM B) x r b ks' : r ≠ [] → steps k r b ks' → steps (_ ← next; k) (x :: r) b ks'.
Proof. intros Hr H. by apply steps_next. Qed.
Lemma steps_expectKw {B} x (k : PM B) r b ks' :
  r ≠ [] → steps k r b ks' → steps (_ ← expectKw x; k) (kw x :: r) b ks'.
Proof.
  intros Hr H. eapply steps_bind; [|done]. apply steps_ifKw. rewrite symKw_same. by apply steps_skip; [|apply steps_ret].
Qed.
Lemma steps_expectPunct {B} x (k : PM B) r b ks' :
  r ≠ [] → steps k r b ks' → steps (_ ← expectPunct x; k) (pn x :: r) b ks'.
Proof.
  intros Hr H. eapply steps_bind; [|done]. apply steps_ifPunct. rewrite symPunct_same. by apply steps_skip; [|apply steps_ret].
Qed.
Lemma steps_takeYes {B} x (k : bool → PM B) r b ks' :
  r ≠ [] → steps (k true) r b ks' → steps (mbind k (takeKw x)) (kw x :: r) b ks'.
Proof.
  intros Hr H. eapply steps_bind; [|done]. apply steps_ifKw. rewrite symKw_same. by apply steps_skip; [|apply steps_ret].
Qed.
Lemma steps_takeNo {B} x (k : bool → PM B) y r b ks' :
  symKw x y = false → steps (k false) (y :: r) b ks' → steps (mbind k (takeKw x)) (y :: r) b ks'.
Proof.
  intros Hx H. eapply steps_bind; [|done]. apply steps_ifKw. rewrite Hx. by apply steps_ret.
Qed.
Lemma steps_identEnd what n r : r ≠ [] → steps (identOrErr what) (kw n :: r) n r.
Proof.
  intros Hr. apply (steps_if true).
  - intros t Ht. unfold isIdent. injection Ht as -> _. done.
  - apply steps_next; [done|]. intros t [= _ ->]. apply steps_ret.
Qed.
Lemma steps_ident {B} what n (k : string → PM B) r b ks' :
  r ≠ [] → steps (k n) r b ks' → steps (mbind k (identOrErr what)) (kw n :: r) b ks'.
Proof. intros Hr H. eapply steps_bind; [by apply steps_identEnd|done]. Qed.

(** ** Operators and what stops them *)
Definition tightness (k : symbol) : option nat :=
  if symPunctIn ["*"; "/"; "%"] k then Some 5
  else if symPunctIn ["+"; "-"] k then Some 4
  else if symPunctIn cmpOps k || symKw "is" k || symKw "not" k || symKw "in" k then Some 3
  else if symKw "and" k then Some 1
  else if symKw "or" k then Some 0
  else None.
(** [k] does not continue an expression of level [lv]. *)
Definition quiet (lv : nat) (k : symbol) : bool :=
  match tightness k with Some o => o <? lv | None => true end.

Lemma quiet_up lv lv' k : lv ≤ lv' → quiet lv k = true → quiet lv' k = true.
Proof. unfold quiet. destruct (tightness k); [|done]. intros ? ?%Nat.ltb_lt. apply Nat.ltb_lt. lia. Qed.

Lemma quiet_ops lv k : quiet lv k = true →
  (lv ≤ 5 → symPunctIn ["*"; "/"; "%"] k = false) ∧ (lv ≤ 4 → symPunctIn ["+"; "-"] k = false) ∧
  (lv ≤ 3 → symPunctIn cmpOps k = false ∧ symKw "is" k = false ∧ symKw "not" k = false ∧ symKw "in" k = false) ∧
  (lv ≤ 1 → symKw "and" k = false) ∧ (lv = 0 → symKw "or" k = false).
Proof.
  unfold quiet, tightness.
  destruct (symPunctIn ["*"; "/"; "%"] k); [intros ?%Nat.ltb_lt; repeat split; intros; lia|].
  destruct (symPunctIn ["+"; "-"] k); [intros ?%Nat.ltb_lt; repeat split; intros; (lia || done)|].
  destruct (symPunctIn cmpOps k || _ || _ || _) eqn:E; [intros ?%Nat.ltb_lt; repeat split; intros; (lia || done)|].
  apply orb_false_iff in E as [[[? ?]%orb_false_iff ?]%orb_false_iff ?].
  destruct (symKw "and" k); [intros ?%Nat.ltb_lt; repeat split; intros; (lia || done)|].
  destruct (symKw "or" k); [intros ?%Nat.ltb_lt; repeat split; intros; (lia || done)|]. done.
Qed.

Section chain_steps.
  Context (op : token → option (Expr → Expr → Expr)) (p : PM Expr).

Lemma chain_stop ks l k r :
  (∀ t, sym t = k → op t = None) → steps p ks l (k :: r) → steps (chain op p) ks l (k :: r).
Proof.
  intros Hop Hp. eapply steps_bind; [done|]. apply steps_fuel. simpl. apply steps_peek. intros t Ht.
  rewrite (Hop t Ht). apply steps_ret.
Qed.

Lemma chain_two ks l x f r1 r k r2 :
  (∀ t, sym t = x → op t = Some f) → (∀ t, sym t = k → op t = None) → r1 ≠ [] →
  steps p ks l (x :: r1) → steps p r1 r (k :: r2) → steps (chain op p) ks (f l r) (k :: r2).
Proof.
  intros Hx Hk Hr Hl Hp. eapply steps_bind; [done|]. apply steps_fuel. simpl. apply steps_peek. intros t Ht.
  rewrite (Hx t Ht). apply steps_skip; [done|]. eapply steps_bind; [done|].
  destruct (length r1); simpl; apply steps_peek; intros t' Ht'; rewrite (Hk t' Ht'); apply steps_ret.
Qed.
End chain_steps.

Lemma prefix_stop test f p k ks e r :
  (∀ t, sym t = k → test t = false) → steps p (k :: ks) e r → steps (withFuel (prefixLoop test f p)) (k :: ks) e r.
Proof. intros Ht Hp. apply steps_fuel. simpl. by apply (steps_if false). Qed.

Section levels.
  Context (pe : PM Expr) (ps : PM Select).

Definition level (lv : nat) : PM Expr :=
  match lv with
  | 0 => parseOr pe ps
  | 1 => parseAnd pe ps
  | 2 => parseNot pe ps
  | 3 => parseCmp pe ps
  | 4 => parseAdd pe
  | 5 => parseMul pe
  | 6 => parseUnary pe
  | _ => parsePrimary pe
  end.

Lemma binOp_none ops k t : sym t = k → symPunctIn ops k = false → binOp ops t = None.
Proof. intros Ht Hk. unfold binOp. by rewrite (punctIn_of _ _ _ Ht), Hk. Qed.
Lemma binOp_found ops x t : sym t = pn x → x ∈ ops → binOp ops t = Some (Binary x).
Proof.
  intros Ht Hx. unfold binOp. rewrite (punctIn_of _ _ _ Ht). unfold symPunctIn, pn. simpl.
  rewrite bool_decide_eq_true_2 by done. by injection Ht as _ ->.
Qed.

Lemma cmp_stop ks l k r : quiet 3 k = true → steps (parseAdd pe) ks l (k :: r) → steps (parseCmp pe ps) ks l (k :: r).
Proof.
  intros (_ & _ & H & _)%quiet_ops Hp. destruct (H ltac:(lia)) as (H1 & H2 & H3 & H4).
  eapply steps_bind; [done|]. apply steps_peek. intros t Ht.
  rewrite (punctIn_of _ _ _ Ht), !(isKw_of _ _ _ Ht), H1, H2, H3, H4. apply steps_ret.
Qed.

(** An expression of a level is one of the looser levels, before a symbol that
    does not continue it. *)
Lemma level_loose L lv k0 ks e k r :
  lv ≤ L ≤ 7 → quiet lv k = true → symPunct "-" k0 = false → (2 < L → symKw "not" k0 = false) →
  steps (level L) (k0 :: ks) e (k :: r) → steps (level lv) (k0 :: ks) e (k :: r).
Proof.
  intros Hlv Hq Hm Hn Hp. remember (L - lv) as d eqn:Hd. revert lv Hd Hlv Hq.
  induction d as [|d IH]; intros lv Hd Hlv Hq; [by replace lv with L by lia|].
  assert (steps (level (S lv)) (k0 :: ks) e (k :: r)) as H.
  { apply IH; [lia|lia|]. apply (quiet_up lv); [lia|done]. }
  pose proof (quiet_ops _ _ Hq) as (Q5 & Q4 & _ & Q1 & Q0).
  destruct lv as [|[|[|[|[|[|[|lv]]]]]]]; simpl in H |- *.
  - apply chain_stop; [|done]. intros t Ht. by rewrite (isKw_of _ _ _ Ht), Q0.
  - apply chain_stop; [|done]. intros t Ht. by rewrite (isKw_of _ _ _ Ht), Q1.
  - apply prefix_stop; [|done]. intros t Ht. rewrite (isKw_of _ _ _ Ht). apply Hn. lia.
  - apply cmp_stop; [|done]. done.
  - apply chain_stop; [|done]. intros t Ht. apply (binOp_none _ k); [done|apply Q4; lia].
  - apply chain_stop; [|done]. intros t Ht. apply (binOp_none _ k); [done|apply Q5; lia].
  - apply prefix_stop; [|done]. intros t Ht. by rewrite (isPunct_of _ _ _ Ht).
  - done.
Qed.
End levels.

(** ** Literals *)
Lemma digit_val_char d : (d < 10)%N → digit_val (pretty_N_char d) = Some (Z.of_N d).
Proof.
  intros Hd. assert (d = 0 ∨ d = 1 ∨ d = 2 ∨ d = 3 ∨ d = 4 ∨ d = 5 ∨ d = 6 ∨ d = 7 ∨ d = 8 ∨ d = 9)%N as H by lia.
  by repeat destruct H as [->|H]; [..|subst d].
Qed.

Lemma digits_pretty x s : digits_acc (pretty_N_go x s) 0 = digits_acc s (Z.of_N x).
Proof.
  revert s. induction (N.lt_wf_0 x) as [x _ IH]; intros s. destruct (decide (x = 0)%N) as [->|Hx]; [done|].
  rewrite pretty_N_go_step by lia. rewrite IH by (apply N.div_lt; lia). simpl.
  rewrite digit_val_char by (apply N.mod_lt; lia). f_equal. rewrite (N.div_mod x 10) at 3 by lia. lia.
Qed.
Lemma all_digits_pretty x s : all_chars is_digit s = true → all_chars is_digit (pretty_N_go x s) = true.
Proof.
  revert s. induction (N.lt_wf_0 x) as [x _ IH]; intros s Hs. destruct (decide (x = 0)%N) as [->|Hx]; [done|].
  rewrite pretty_N_go_step by lia. apply IH; [apply N.div_lt; lia|]. simpl. unfold is_digit at 1.
  by rewrite digit_val_char by (apply N.mod_lt; lia).
Qed.

Lemma FormatInt_nat i : (0 ≤ i)%Z → FormatInt i = pretty (Z.to_N i).
Proof. intros Hi. unfold FormatInt, pretty, pretty_Z. by destruct i. Qed.
Lemma FormatInt_digits i : (0 ≤ i)%Z → all_chars is_digit (FormatInt i) = true ∧ digits_acc (FormatInt i) 0 = Some i.
Proof.
  intros Hi. rewrite FormatInt_nat by done. unfold pretty, pretty_N. case_decide as H0.
  - by assert (i = 0)%Z as -> by lia.
  - split; [by apply all_digits_pretty|]. rewrite digits_pretty. simpl. f_equal. lia.
Qed.
Lemma FormatInt_ne i : FormatInt i ≠ EmptyString.
Proof.
  intros H. assert (FormatInt i ≠ FormatInt 0) as Hne by (rewrite H; done).
  destruct (decide (0 ≤ i)%Z) as [Hi|Hi].
  - destruct (FormatInt_digits i Hi) as [_ Hd]. rewrite H in Hd. simpl in Hd. injection Hd as <-. done.
  - unfold FormatInt, pretty, pretty_Z in H. destruct i; [lia|lia|]. done.
Qed.

Lemma split_dot_digits s : all_chars is_digit s = true → split_dot s = (s, None).
Proof.
  induction s as [|c s IH]; simpl; [done|]. intros [Hc Hs]%andb_true_iff.
  rewrite bool_decide_eq_false_2; [by rewrite IH|]. by intros ->.
Qed.

Lemma ParseInt_FormatInt i : (0 ≤ i ≤ int64_max)%Z →
  ParseInt (FormatInt i) = Some i ∧ (split_dot (FormatInt i)).2 = None ∧ num_text (FormatInt i).
Proof.
  intros Hi. destruct (FormatInt_digits i ltac:(lia)) as [Ha Hd]. pose proof (FormatInt_ne i) as Hne.
  split; [|split; [by rewrite split_dot_digits|]].
  - unfold ParseInt, digits_val. destruct (FormatInt i) eqn:E; [done|]. rewrite Hd.
    by rewrite bool_decide_eq_true_2 by lia.
  - destruct (FormatInt i) as [|c s] eqn:E; [done|]. split; [by apply andb_true_iff in Ha as [? _]|].
    unfold lexNumber. by rewrite (span_all _ _ Ha).
Qed.

Lemma okNum_text t : okNum t = true → num_text t.
Proof. unfold okNum, num_text. intros [H ?%bool_decide_eq_true]%andb_true_iff. by destruct t. Qed.
Lemma okIdent_text s : okIdent s = true → ident_text s.
Proof.
  unfold okIdent, ident_text. intros [H ?%bool_decide_eq_true]%andb_true_iff.
  destruct s; [done|]. by apply andb_true_iff in H.
Qed.
Lemma okName_spec s : okName s = true →
  s ∉ literals ∧ s ≠ "not" ∧ s ≠ "select" ∧ okIdent s = true.
Proof.
  unfold okName, literals. intros [H Hn%negb_true_iff%bool_decide_eq_false]%andb_true_iff. set_solver.
Qed.

(** ** Reading expressions *)

(** Symbols that end an expression, and a query. *)
Definition stops : list symbol := [(tokEOF, ""); pn ")"; pn ";"].
Definition ends : list symbol :=
  stops ++ [pn ","; kw "from"; kw "where"; kw "group"; kw "having"; kw "order"; kw "limit"; kw "as"; kw "desc";
            kw "join"; kw "inner"; kw "left"].

(** The tests the parser makes at the end of an expression fail. *)
Definition end_tests (k : symbol) : bool :=
  quiet 0 k && negb (symPunct "." k) && negb (symPunct "(" k) && negb (symKw "asc" k)
  && (bool_decide (k = kw "as") || bool_decide (k = kw "desc") || bool_decide (k = kw "join")
      || bool_decide (k = kw "inner") || bool_decide (k = kw "left")
      || negb (bool_decide (k.1 = tokIdent)) || bool_decide (k.2 ∈ fieldStopWords)).
Lemma ends_tests k : k ∈ ends → end_tests k = true.
Proof.
  intros H%list_elem_of_In. assert (forallb end_tests ends = true) as Hall by (vm_compute; reflexivity).
  rewrite List.forallb_forall in Hall. by apply Hall.
Qed.

(** Membership of a known symbol in a known list. *)
Ltac elem := apply (bool_decide_eq_true_1 _); vm_compute; reflexivity.
(** Decide the tests on known symbols. *)
Ltac decide_test c := let v := eval vm_compute in c in
  lazymatch v with true => change c with true | false => change c with false end; cbv iota.
Ltac tests := repeat match goal with
  | |- context [symKw ?x ?k] => decide_test (symKw x k)
  | |- context [symPunct ?x ?k] => decide_test (symPunct x k)
  | |- context [symPunctIn ?x ?k] => decide_test (symPunctIn x k)
  end.
Ltac ne := let H := fresh in intros H; apply (f_equal length) in H; rewrite ?length_app in H; simpl in H; lia.

Section primaries.
  Context (pe : PM Expr) (ps : PM Select).

Lemma prim_ident n r e r' : n ∉ literals → r ≠ [] → steps (parseName pe n) r e r' →
  steps (parsePrimary pe) (kw n :: r) e r'.
Proof.
  unfold literals. intros Hn Hr H. apply steps_peek. intros [k tx p] [= -> ->]. cbn [tk_kind tk_text].
  apply steps_skip; [done|]. rewrite !bool_decide_eq_false_2 by set_solver. done.
Qed.

Lemma name_col n k r : symPunct "." k = false → symPunct "(" k = false →
  steps (parseName pe n) (k :: r) (ColRef "" n) (k :: r).
Proof. intros H1 H2. apply steps_ifPunct. rewrite H1. apply steps_ifPunct. rewrite H2. apply steps_ret. Qed.

Lemma prim_lit v k r : okLit v = true → steps (parsePrimary pe) (prLit v :: k :: r) (Lit v) (k :: r).
Proof.
  intros Hv. apply steps_peek. intros [kd tx p] Ht. destruct v; cbn [prLit okLit] in *;
    injection Ht as -> ->; cbn [tk_kind tk_text].
  - by apply steps_skip; [done|apply steps_ret].
  - apply bool_decide_eq_true in Hv. destruct (ParseInt_FormatInt i Hv) as (H1 & H2 & _).
    apply steps_skip; [done|]. unfold parseNumber. rewrite H2, H1. apply steps_ret.
  - apply andb_true_iff in Hv as [[_ H1%bool_decide_eq_true]%andb_true_iff H2%bool_decide_eq_true].
    apply steps_skip; [done|]. unfold parseNumber. destruct H1 as [x ->]. rewrite H2. apply steps_ret.
  - by apply steps_skip; [done|apply steps_ret].
  - by destruct b; apply steps_skip; [done|apply steps_ret|done|apply steps_ret].
  - done.
Qed.

Lemma call_end f e r k rest : steps (ifPeek (isPunct "*") (_ ← next; mret (Func f true None))
        (ifPeek (isPunct ")") (mret (Func f false None))
           (arg ← pe; mret (Func f false (Some arg))))) (r ++ pn ")" :: k :: rest) e (pn ")" :: k :: rest) →
  steps (parseName pe f) (paren r ++ k :: rest) e (k :: rest).
Proof.
  intros H. unfold paren. cbn [app]. rewrite <-app_assoc. cbn [app]. apply steps_ifPunct. cbn.
  apply steps_ifPunct. cbn. apply steps_skip; [ne|]. eapply steps_bind; [exact H|].
  apply steps_expectPunct; [done|apply steps_ret].
Qed.

Lemma prim_paren e ks k r : steps pe (ks ++ pn ")" :: k :: r) e (pn ")" :: k :: r) →
  steps (parsePrimary pe) (paren ks ++ k :: r) e (k :: r).
Proof.
  intros H. unfold paren. cbn [app]. rewrite <-app_assoc. cbn [app]. apply steps_peek.
  intros [kd tx p] [= -> ->]. cbn [tk_kind tk_text]. rewrite bool_decide_eq_true_2 by done.
  apply steps_skip; [ne|]. eapply steps_bind; [exact H|]. apply steps_expectPunct; [done|apply steps_ret].
Qed.

(** A parenthesised operand is one of every level. *)
Lemma operand lv e ks k r : lv ≤ 7 → quiet lv k = true →
  steps pe (ks ++ pn ")" :: k :: r) e (pn ")" :: k :: r) →
  steps (level pe ps lv) (paren ks ++ k :: r) e (k :: r).
Proof.
  intros Hlv Hq H. unfold paren. cbn [app]. apply (level_loose _ _ 7); [lia|done|done|done|].
  apply (prim_paren e ks k r H).
Qed.

Lemma in_steps l ks (b : bool) inner e k r :
  steps pe (ks ++ pn ")" :: optKw b "not" ++ kw "in" :: paren inner ++ k :: r) l
    (pn ")" :: optKw b "not" ++ kw "in" :: paren inner ++ k :: r) →
  steps (parseIn pe ps l b) (kw "in" :: paren inner ++ k :: r) e (k :: r) →
  steps (level pe ps 3) (paren ks ++ optKw b "not" ++ kw "in" :: paren inner ++ k :: r) e (k :: r).
Proof.
  intros Hl Hin. destruct b; cbn [optKw app] in *.
  - eapply steps_bind; [apply (operand 4 l ks); [lia|done|exact Hl]|]. apply steps_peek. intros t Ht.
    rewrite (punctIn_of _ _ _ Ht), !(isKw_of _ _ _ Ht). tests. intros s Hs. unfold parseNotIn.
    destruct s as [|t0 [|t1 s]]; [done|done|]. apply (f_equal tail) in Hs. cbn [next].
    pose proof (f_equal (hd (kw "")) Hs) as Ht1. cbn [hd map tail] in Ht1. change (peek (t1 :: s)) with t1.
    rewrite (isKw_of _ _ _ Ht1). by apply Hin.
  - eapply steps_bind; [apply (operand 4 l ks); [lia|done|exact Hl]|]. apply steps_peek. intros t Ht.
    rewrite (punctIn_of _ _ _ Ht), !(isKw_of _ _ _ Ht). by tests.
Qed.
End primaries.

Lemma sepBy_cons x l : l ≠ [] → sepBy (x :: l) = x ++ pn "," :: sepBy l.
Proof. by destruct l. Qed.
Lemma sepBy_length l : length l ≤ S (length (sepBy l)).
Proof.
  induction l as [|x [|y l] IH]; [simpl; lia|simpl; lia|].
  rewrite sepBy_cons by done. rewrite length_app. simpl in IH |- *. lia.
Qed.

Lemma comma_steps {A} (p : PM A) (pr : A → list symbol) xs k r :
  xs ≠ [] → symPunct "," k = false →
  (∀ x k' r', x ∈ xs → k' = pn "," ∨ k' = k → steps p (pr x ++ k' :: r') x (k' :: r')) →
  steps (commaList p) (sepBy (map pr xs) ++ k :: r) xs (k :: r).
Proof.
  intros Hne Hk Hp. apply steps_fuel.
  assert (length xs ≤ length (sepBy (map pr xs) ++ k :: r)) as Hm.
  { rewrite length_app. pose proof (sepBy_length (map pr xs)) as H. rewrite length_map in H. simpl. lia. }
  revert Hm. generalize (length (sepBy (map pr xs) ++ k :: r)). intros m. revert m.
  induction xs as [|x xs IH]; intros m Hm; [done|]. destruct m as [|m]; simpl in Hm; [lia|]. cbn [commaLoop].
  destruct (decide (xs = [])) as [->|Hxs].
  - eapply steps_bind; [apply Hp; [set_solver|by right]|]. apply steps_ifPunct. rewrite Hk. apply steps_ret.
  - cbn [map]. rewrite sepBy_cons by (intros H; by apply map_eq_nil in H). rewrite <-app_assoc. cbn [app].
    eapply steps_bind; [apply Hp; [set_solver|by left]|]. apply steps_ifPunct. tests. apply steps_skip; [ne|].
    eapply steps_bind; [apply IH; [done|intros; apply Hp; [set_solver|done]|lia]|]. apply steps_ret.
Qed.

Lemma forallb_elem {A} (f : A → bool) l x : forallb f l = true → x ∈ l → f x = true.
Proof. rewrite List.forallb_forall. intros H Hx%list_elem_of_In. auto. Qed.
Lemma sepBy_elem_length (l : list (list symbol)) x : x ∈ l → length x ≤ length (sepBy l).
Proof.
  induction l as [|y l IH]; [set_solver|]. destruct (decide (l = [])) as [->|Hl]; [by intros ->%list_elem_of_singleton|].
  rewrite sepBy_cons, length_app by done. intros [->|H%IH]%elem_of_cons; simpl; lia.
Qed.
Lemma sepBy_map_length {A} (pr : A → list symbol) xs y : y ∈ xs → length (pr y) ≤ length (sepBy (map pr xs)).
Proof.
  intros Hy. apply sepBy_elem_length. apply list_elem_of_In, in_map. by apply list_elem_of_In.
Qed.
Lemma paren_length ks : length (paren ks) = S (S (length ks)).
Proof. unfold paren. simpl. rewrite length_app. simpl. lia. Qed.

(** An expression starts with no star, closing parenthesis or [SELECT]. *)
Lemma prE_head e : okE e = true →
  ∃ k0 r, prE e = k0 :: r ∧ symPunct "*" k0 = false ∧ symPunct ")" k0 = false ∧ symKw "select" k0 = false.
Proof.
  assert (∀ x, okName x = true → symKw "select" (kw x) = false) as Hn.
  { intros x (_ & _ & Hx & _)%okName_spec. unfold symKw. simpl. by apply bool_decide_eq_false_2. }
  intros He. destruct e as [v|t c|f ? ?| | | | | | | |]; cbn [prE okE] in *; try (eexists _, _; split; [reflexivity|done]).
  - exists (prLit v), []. by destruct v as [| | | |[]|].
  - apply andb_true_iff in He as [_ Ht]. case_bool_decide; eexists _, _; (split; [reflexivity|auto]).
  - apply andb_true_iff in He as [Ht _]. eexists _, _; (split; [reflexivity|auto]).
Qed.
(** So does a list of them. *)
Lemma sepBy_head {A} (pr : A → list symbol) x xs ks k0 r :
  pr x = k0 :: r → ∃ r', sepBy (map pr (x :: xs)) ++ ks = k0 :: r'.
Proof.
  intros E. cbn [map]. destruct (map pr xs); [cbn [sepBy]|rewrite sepBy_cons by done]; rewrite E; cbn [app]; eauto.
Qed.

Section reading.
  Context (n : nat) (pe : PM Expr) (ps : PM Select).
  Context (IHE : ∀ e k r, okE e = true → length (prE e) ≤ n → k ∈ ends → steps pe (prE e ++ k :: r) e (k :: r)).
  Context (IHS : ∀ q k r, okS q = true → length (prS q) ≤ n → k ∈ stops → steps ps (prS q ++ k :: r) q (k :: r)).

Lemma operandE lv e k r : okE e = true → length (prE e) ≤ n → lv ≤ 7 → quiet lv k = true →
  steps (level pe ps lv) (paren (prE e) ++ k :: r) e (k :: r).
Proof. intros He Hl Hlv Hq. apply operand; [done|done|]. apply IHE; [done|done|elem]. Qed.

Lemma exprs_steps es k r : es ≠ [] → forallb okE es = true → length (sepBy (map prE es)) ≤ n → k ∈ ends →
  symPunct "," k = false → steps (commaList pe) (sepBy (map prE es) ++ k :: r) es (k :: r).
Proof.
  intros Hne Hok Hl Hk Hc. apply comma_steps; [done|done|]. intros x k' r' Hx Hk'. apply IHE.
  - by apply (forallb_elem _ _ _ Hok).
  - pose proof (sepBy_map_length prE es x Hx). lia.
  - destruct Hk' as [->| ->]; [elem|done].
Qed.

Lemma infix_steps lv op e1 e2 x f k r :
  (level pe ps lv = chain op (level pe ps (S lv))) → lv ≤ 5 → (∀ t, sym t = x → op t = Some f) →
  (∀ t, sym t = k → op t = None) → quiet (S lv) x = true → quiet 0 k = true →
  okE e1 = true → okE e2 = true → length (paren (prE e1) ++ x :: paren (prE e2)) ≤ S n →
  steps (parseOr pe ps) ((paren (prE e1) ++ x :: paren (prE e2)) ++ k :: r) (f e1 e2) (k :: r).
Proof.
  intros Hlev Hlv Hx Hk Hqx Hqk H1 H2 Hlen. rewrite length_app in Hlen. simpl in Hlen. rewrite !length_app in Hlen. simpl in Hlen.
  rewrite <-app_assoc. cbn [app].
  apply (level_loose pe ps lv 0 (pn "(")); [lia|done|done|done|]. rewrite Hlev.
  eapply (chain_two _ _ _ _ x f); [done|done| |apply (operandE (S lv)); [done|lia|lia|done]|].
  - unfold paren. ne.
  - apply (operandE (S lv)); [done|lia|lia|]. apply (quiet_up 0); [lia|done].
Qed.
Lemma end_quiet k : k ∈ ends → quiet 0 k = true ∧ symPunct "." k = false ∧ symPunct "(" k = false.
Proof.
  intros H%ends_tests. unfold end_tests in H. repeat (apply andb_true_iff in H as [H ?]).
  repeat split; [done|by apply negb_true_iff..].
Qed.

(** Literals, columns and calls. *)
Definition isPrimary (e : Expr) : bool :=
  match e with Lit _ | ColRef _ _ | Func _ _ _ => true | _ => false end.

Lemma primary_steps e k r : okE e = true → length (prE e) ≤ S n → k ∈ ends →
  isPrimary e = true →
  steps (parsePrimary pe) (prE e ++ k :: r) e (k :: r) ∧
  ∃ k0 ks, prE e = k0 :: ks ∧ symPunct "-" k0 = false ∧ symKw "not" k0 = false.
Proof.
  intros Hok Hl Hk He. destruct (end_quiet k Hk) as (_ & Hdot & Hpar).
  assert (∀ x, okName x = true → symKw "not" (kw x) = false) as Hnot.
  { intros x (_ & Hx & _)%okName_spec. unfold symKw. simpl. by apply bool_decide_eq_false_2. }
  destruct e as [v|t c|f star arg| | | | | | | |]; try done; clear He; cbn [prE okE] in *.
  - split; [by apply prim_lit|]. exists (prLit v), []. split; [done|]. by destruct v as [| | | |[]|].
  - apply andb_true_iff in Hok as [Hc Ht]. case_bool_decide as H0.
    + subst t. split; [|by exists (kw c), []; split; [|split; [|apply Hnot]]].
      destruct (okName_spec _ Ht) as (Hlit & _). apply prim_ident; [done|done|]. by apply name_col.
    + split; [|by exists (kw t), [pn "."; kw c]; split; [|split; [|apply Hnot]]].
      destruct (okName_spec _ Ht) as (Hlit & _). apply prim_ident; [done|done|].
      apply steps_ifPunct. tests. apply steps_skip; [done|]. apply steps_ident; [done|apply steps_ret].
  - apply andb_true_iff in Hok as [Hf Ha]. destruct (okName_spec _ Hf) as (Hlit & _).
    split; [|eexists (kw f), _; split; [done|split; [done|by apply Hnot]]].
    cbn [app]. apply prim_ident; [done|unfold paren; ne|]. apply call_end. destruct star.
    + destruct arg; [done|]. apply steps_ifPunct. tests. apply steps_skip; [done|apply steps_ret].
    + destruct arg as [a|].
      * simpl in Ha. cbn [length] in Hl. rewrite paren_length in Hl.
        destruct (prE_head a Ha) as (k0 & ks & E & E1 & E2 & _).
        pose proof (IHE a (pn ")") (k :: r) Ha ltac:(lia) ltac:(elem)) as Hs.
        rewrite E in Hs |- *. cbn [app] in *. apply steps_ifPunct. rewrite E1. apply steps_ifPunct. rewrite E2.
        eapply steps_bind; [exact Hs|apply steps_ret].
      * cbn [app]. apply steps_ifPunct. tests. apply steps_ifPunct. tests. apply steps_ret.
Qed.

Lemma not_select ks es : es ≠ [] → forallb okE es = true → ∃ k0 r, sepBy (map prE es) ++ ks = k0 :: r ∧ symKw "select" k0 = false.
Proof.
  intros Hne Hok. destruct es as [|e es]; [done|]. apply andb_true_iff in Hok as [He _].
  destruct (prE_head e He) as (k0 & r & E & _ & _ & H). destruct (sepBy_head prE e es ks k0 r E). eauto.
Qed.

(** The other constructs, one by one. *)
Definition reads (e : Expr) : Prop := ∀ k r, okE e = true → length (prE e) ≤ S n → k ∈ ends →
  steps (parseOr pe ps) (prE e ++ k :: r) e (k :: r).

Lemma cmp_reads op l r1 : reads (Cmp op l r1).
Proof.
  intros k r Hok Hl Hk. pose proof (end_quiet k Hk) as (Hq & _).
  cbn [prE okE] in *.
  apply andb_true_iff in Hok as [[Hop%bool_decide_eq_true H1]%andb_true_iff H2].
  rewrite length_app in Hl. simpl in Hl. rewrite !length_app in Hl. simpl in Hl.
  rewrite <-app_assoc. cbn [app]. apply (level_loose pe ps 3 0 (pn "(")); [lia|done|done|done|].
  eapply steps_bind; [apply (operandE 4); [done|lia|lia|]|].
  { clear -Hop. apply list_elem_of_In in Hop. simpl in Hop. destruct Hop as [<-|[<-|[<-|[<-|[<-|[<-|[]]]]]]]; done. }
  apply steps_peek. intros t Ht. rewrite (punctIn_of _ _ _ Ht). injection Ht as _ ->.
  unfold symPunctIn, pn. cbn [fst snd]. rewrite !bool_decide_eq_true_2 by done. cbn [andb].
  apply steps_skip; [unfold paren; ne|].
  eapply steps_bind; [apply (operandE 4); [done|lia|lia|by apply (quiet_up 0); [lia|]]|]. apply steps_ret.
Qed.

Lemma isnull_reads x b : reads (IsNullE x b).
Proof.
  intros k r Hok Hl Hk. pose proof (end_quiet k Hk) as (Hq & _).
  cbn [prE okE] in *.
  rewrite length_app in Hl. simpl in Hl. rewrite !length_app in Hl. simpl in Hl.
  rewrite <-app_assoc. cbn [app]. apply (level_loose pe ps 3 0 (pn "(")); [lia|done|done|done|].
  eapply steps_bind; [apply (operandE 4); [done|lia|lia|done]|].
  apply steps_peek. intros t Ht. rewrite (punctIn_of _ _ _ Ht), !(isKw_of _ _ _ Ht). tests.
  apply steps_skip; [ne|]. rewrite <-app_assoc. cbn [app].
  destruct b; cbn [optKw app]; [apply steps_takeYes; [done|]|apply steps_takeNo; [done|]];
    (apply steps_expectKw; [done|apply steps_ret]).
Qed.

Lemma and_reads l r1 : reads (And l r1).
Proof.
  intros k r Hok Hl Hk. pose proof (end_quiet k Hk) as (Hq & _). pose proof (quiet_ops _ _ Hq) as (Q5 & Q4 & _ & Q1 & Q0).
  cbn [prE okE] in *.
  apply andb_true_iff in Hok as [H1 H2].
  apply (infix_steps 1 (λ t, if isKw "and" t then Some And else None)); try done; [lia|..];
    intros t Ht; rewrite (isKw_of _ _ _ Ht); [done|by rewrite Q1 by lia].
Qed.

Lemma or_reads l r1 : reads (Or l r1).
Proof.
  intros k r Hok Hl Hk. pose proof (end_quiet k Hk) as (Hq & _). pose proof (quiet_ops _ _ Hq) as (Q5 & Q4 & _ & Q1 & Q0).
  cbn [prE okE] in *.
  apply andb_true_iff in Hok as [H1 H2].
  apply (infix_steps 0 (λ t, if isKw "or" t then Some Or else None)); try done; [lia|..];
    intros t Ht; rewrite (isKw_of _ _ _ Ht); [done|by rewrite Q0].
Qed.

Lemma not_reads x : reads (Not x).
Proof.
  intros k r Hok Hl Hk. pose proof (end_quiet k Hk) as (Hq & _).
  cbn [prE okE] in *.
  apply (level_loose pe ps 2 0 (kw "not")); [lia|done|done|lia|]. apply steps_fuel. cbn [length app prefixLoop].
  apply steps_ifKw. tests. apply steps_skip; [unfold paren; ne|]. eapply steps_bind; [|apply steps_ret].
  cbn [length] in Hl. rewrite paren_length in Hl.
  assert (steps (parseCmp pe ps) (paren (prE x) ++ k :: r) x (k :: r)) as Hx.
  { apply (operandE 3); [done|lia|lia|by apply (quiet_up 0); [lia|]]. }
  by destruct (length _); simpl; apply steps_ifKw; tests.
Qed.

Lemma binary_reads op l r1 : reads (Binary op l r1).
Proof.
  intros k r Hok Hl Hk. pose proof (end_quiet k Hk) as (Hq & _). pose proof (quiet_ops _ _ Hq) as (Q5 & Q4 & _ & Q1 & Q0).
  cbn [prE okE] in *.
  apply andb_true_iff in Hok as [[Hop%bool_decide_eq_true H1]%andb_true_iff H2].
  change (op ∈ ["+"; "-"] ++ ["*"; "/"; "%"]) in Hop. apply elem_of_app in Hop as [Ho|Ho].
  - apply (infix_steps 4 (binOp ["+"; "-"])); try done; [lia|by intros; apply binOp_found| |].
    + intros t Ht. apply (binOp_none _ k); [done|apply Q4; lia].
    + clear -Ho. apply list_elem_of_In in Ho. by destruct Ho as [<-|[<-|[]]].
  - apply (infix_steps 5 (binOp ["*"; "/"; "%"])); try done; [by intros; apply binOp_found| |].
    + intros t Ht. apply (binOp_none _ k); [done|apply Q5; lia].
    + clear -Ho. apply list_elem_of_In in Ho. by destruct Ho as [<-|[<-|[<-|[]]]].
Qed.

Lemma inlist_reads x es b : reads (InList x es b).
Proof.
  intros k r Hok Hl Hk. pose proof (end_quiet k Hk) as (Hq & _).
  cbn [prE okE] in *.
  apply andb_true_iff in Hok as [[H1 Hne%negb_true_iff%bool_decide_eq_false]%andb_true_iff H2].
  rewrite !length_app in Hl. cbn [length] in Hl. rewrite !paren_length in Hl.
  rewrite <-!app_assoc. cbn [app]. apply (level_loose pe ps 3 0 (pn "(")); [lia|done|done|done|].
  apply (in_steps pe ps x); [apply IHE; [done|lia|elem]|].
  unfold parseIn. apply steps_skip; [unfold paren; ne|]. unfold paren. cbn [app]. rewrite <-app_assoc. cbn [app].
  apply steps_expectPunct; [ne|]. destruct (not_select (pn ")" :: k :: r) es Hne H2) as (k0 & r0 & E & Hk0).
  pose proof (exprs_steps es (pn ")") (k :: r) Hne H2 ltac:(lia) ltac:(elem) eq_refl) as Hs.
  rewrite E in Hs |- *. apply steps_ifKw. rewrite Hk0. eapply steps_bind; [exact Hs|].
  apply steps_expectPunct; [done|apply steps_ret].
Qed.

Lemma insub_reads x q b : reads (InSub x q b).
Proof.
  intros k r Hok Hl Hk. pose proof (end_quiet k Hk) as (Hq & _).
  cbn [prE okE] in *.
  apply andb_true_iff in Hok as [H1 H2].
  rewrite !length_app in Hl. cbn [length] in Hl. rewrite !paren_length in Hl.
  rewrite <-!app_assoc. cbn [app]. apply (level_loose pe ps 3 0 (pn "(")); [lia|done|done|done|].
  apply (in_steps pe ps x); [apply IHE; [done|lia|elem]|].
  unfold parseIn. apply steps_skip; [unfold paren; ne|]. unfold paren. cbn [app]. rewrite <-app_assoc. cbn [app].
  apply steps_expectPunct; [ne|].
  pose proof (IHS q (pn ")") (k :: r) H2 ltac:(lia) ltac:(elem)) as Hs.
  assert (∃ r0, prS q ++ pn ")" :: k :: r = kw "select" :: r0) as [r0 E] by (destruct q; by eexists).
  rewrite E in Hs |- *. apply steps_ifKw. tests. eapply steps_bind; [exact Hs|].
  apply steps_expectPunct; [done|apply steps_ret].
Qed.

Lemma expr_steps e : reads e.
Proof.
  destruct (isPrimary e) eqn:Hp.
  - intros k r Hok Hl Hk. pose proof (end_quiet k Hk) as (Hq & _).
    destruct (primary_steps e k r Hok Hl Hk Hp) as (Hs & k0 & ks & E & E1 & E2).
    rewrite E in Hs |- *. cbn [app] in *. by apply (level_loose pe ps 7 0); [lia| | | |].
  - destruct e; try done; auto using cmp_reads, isnull_reads, and_reads, or_reads, not_reads, binary_reads, inlist_reads, insub_reads.
Qed.
End reading.

(** ** Reading queries *)

(** What can come after the tables, after WHERE, and so on. *)
Definition after_order : list symbol := kw "limit" :: stops.
Definition after_having : list symbol := kw "order" :: after_order.
Definition after_group : list symbol := kw "having" :: after_having.
Definition after_where : list symbol := kw "group" :: after_group.
Definition after_tables : list symbol := kw "where" :: after_where.

Lemma after_ends k : k ∈ after_tables → k ∈ ends.
Proof.
  intros Hk. apply (forallb_elem (λ k, bool_decide (k ∈ ends))) in Hk; [by apply bool_decide_eq_true in Hk|].
  vm_compute. reflexivity.
Qed.

Lemma head_clause x (o : option (list symbol)) S k r : k ∈ S → ∃ k' r', prClause x o ++ k :: r = k' :: r' ∧ k' ∈ kw x :: S.
Proof. intros Hk. destruct o; eexists _, _; (split; [reflexivity|set_solver]). Qed.
Lemma head_by x l S k r : k ∈ S → ∃ k' r', prBy x l ++ k :: r = k' :: r' ∧ k' ∈ kw x :: S.
Proof. intros Hk. destruct l; eexists _, _; (split; [reflexivity|set_solver]). Qed.
Lemma head_limit l k r : k ∈ stops → ∃ k' r', prLimit l ++ k :: r = k' :: r' ∧ k' ∈ after_order.
Proof. unfold after_order. intros Hk. destruct l; eexists _, _; (split; [reflexivity|set_solver]). Qed.

(** A test that fails on all of a list of symbols. *)
Lemma no_kw x S k : forallb (λ k, negb (symKw x k)) S = true → k ∈ S → symKw x k = false.
Proof. intros H Hk. apply negb_true_iff. by apply (forallb_elem (λ k, negb (symKw x k)) S). Qed.
Lemma no_punct x S k : forallb (λ k, negb (symPunct x k)) S = true → k ∈ S → symPunct x k = false.
Proof. intros H Hk. apply negb_true_iff. by apply (forallb_elem (λ k, negb (symPunct x k)) S). Qed.

Lemma limit_steps l k r : k ∈ stops → match l with None => true | Some n => bool_decide (0 ≤ n ≤ int64_max)%Z end = true →
  steps parseLimit (prLimit l ++ k :: r) l (k :: r).
Proof.
  intros Hk Hl. destruct l as [z|]; cbn [prLimit app]; unfold parseLimit; apply steps_ifKw.
  - apply bool_decide_eq_true in Hl. destruct (ParseInt_FormatInt z Hl) as (H1 & H2 & _). tests.
    apply steps_skip; [done|]. apply steps_peek. intros [kd tx p] [= -> ->]. cbn [tk_kind tk_text].
    rewrite H2, H1, bool_decide_eq_true_2, !bool_decide_eq_false_2 by (lia || done || by intros [? [=]]). cbn [negb orb].
    apply steps_skip; [done|apply steps_ret].
  - rewrite (no_kw _ stops) by (vm_compute; reflexivity || done). apply steps_ret.
Qed.

Lemma refAlias_steps what none a k r : steps (parseRefAlias what none) (kw "as" :: kw a :: k :: r) a (k :: r).
Proof. apply steps_takeYes; [done|]. by apply steps_identEnd. Qed.

Lemma app_cons_head {A} (l : list A) x r : ∃ y r', l ++ x :: r = y :: r'.
Proof. destruct l; cbn [app]; eauto. Qed.
Lemma prJoins_length ts ons kinds : length ons = length ts → length kinds = length ts →
  length ts ≤ length (prJoins (map prT ts) (map prE ons) kinds).
Proof.
  revert ons kinds. induction ts as [|t ts IH]; intros [|on ons] [|k kinds]; try done.
  intros [= H1] [= H2]. specialize (IH ons kinds H1 H2). cbn [map prJoins length].
  rewrite length_app. cbn [length]. rewrite length_app. lia.
Qed.

Section query_reading.
  Context (n : nat) (pe : PM Expr) (ps : PM Select).
  Context (IHE : ∀ e k r, okE e = true → length (prE e) ≤ n → k ∈ ends → steps pe (prE e ++ k :: r) e (k :: r)).
  Context (IHS : ∀ q k r, okS q = true → length (prS q) ≤ n → k ∈ stops → steps ps (prS q ++ k :: r) q (k :: r)).

Lemma ref_steps t k r : okT t = true → length (prT t) ≤ n → steps (parseTableRef ps) (prT t ++ k :: r) t (k :: r).
Proof.
  intros Hok Hl. destruct t as [x a [q|]]; cbn [prT okT] in *; unfold parseTableRef.
  - apply andb_true_iff in Hok as [[->%bool_decide_eq_true Ha]%andb_true_iff Hq].
    rewrite length_app, paren_length in Hl. unfold paren. cbn [app]. rewrite <-!app_assoc. cbn [app].
    apply steps_ifPunct. tests. apply steps_skip; [ne|].
    pose proof (IHS q (pn ")") (kw "as" :: kw a :: k :: r) Hq ltac:(lia) ltac:(elem)) as Hs.
    assert (∃ r0, prS q ++ pn ")" :: kw "as" :: kw a :: k :: r = kw "select" :: r0) as [r0 E] by (destruct q; by eexists).
    rewrite E in Hs |- *. apply steps_ifKw. tests. eapply steps_bind; [exact Hs|]. apply steps_expectPunct; [done|].
    eapply steps_bind; [apply refAlias_steps|]. rewrite bool_decide_eq_false_2 by (by intros ->). apply steps_ret.
  - cbn [app]. apply steps_ifPunct. unfold symPunct, kw. cbn [fst snd]. rewrite bool_decide_eq_false_2 by done. cbn [andb].
    apply steps_ident; [done|]. eapply steps_bind; [apply refAlias_steps|]. apply steps_ret.
Qed.

Definition prPair (f : Expr * string) : list symbol := prE f.1 ++ prAs f.2.
Lemma prFields_zip fs als : zip_with prField (map prE fs) als = map prPair (zip fs als).
Proof. revert als. induction fs as [|f fs IH]; intros [|a als]; [done..|]. simpl. by rewrite IH. Qed.

Lemma field_steps f k r : okE f.1 = true → okAlias f.2 = true → length (prPair f) ≤ n → k = pn "," ∨ k = kw "from" →
  steps (parseField pe) (prPair f ++ k :: r) f (k :: r).
Proof.
  destruct f as [e a]. unfold prPair, prAs. cbn [fst snd]. intros He Ha Hl Hk. rewrite length_app in Hl.
  rewrite <-app_assoc. unfold parseField. case_bool_decide as H0; cbn [app].
  - subst a. eapply steps_bind; [apply IHE; [done|lia|destruct Hk as [->| ->]; elem]|].
    eapply steps_bind; [|apply steps_ret]. unfold parseOptionalAlias. apply steps_ifKw.
    destruct Hk as [->| ->]; tests; (apply (steps_if false); [by intros [? ? ?] [= -> ->]|apply steps_ret]).
  - eapply steps_bind; [apply IHE; [done|lia|elem]|].
    eapply steps_bind; [|apply steps_ret]. unfold parseOptionalAlias. apply steps_ifKw. tests.
    apply steps_skip; [done|]. by apply steps_identEnd.
Qed.

Lemma fields_steps (star : bool) fs als r :
  (if star then bool_decide (fs = []) else negb (bool_decide (fs = []))) = true → length als = length fs →
  forallb okE fs = true → forallb okAlias als = true →
  length (if star then [pn "*"] else sepBy (zip_with prField (map prE fs) als)) ≤ n →
  steps (parseFields pe) ((if star then [pn "*"] else sepBy (zip_with prField (map prE fs) als)) ++ kw "from" :: r)
    (star, zip fs als) (kw "from" :: r).
Proof.
  intros Hs Hlen Hf Ha Hl. destruct star; cbn [app]; unfold parseFields.
  - apply bool_decide_eq_true in Hs as ->. apply steps_ifPunct. tests. apply steps_skip; [done|apply steps_ret].
  - apply negb_true_iff, bool_decide_eq_false in Hs. rewrite prFields_zip in *.
    assert (zip fs als ≠ []) as Hne by (by destruct fs, als).
    assert (∃ k0 r0, sepBy (map prPair (zip fs als)) ++ kw "from" :: r = k0 :: r0 ∧ symPunct "*" k0 = false) as (k0 & r0 & E & E1).
    { destruct fs as [|e fs]; [done|]. destruct als as [|a als]; [done|]. apply andb_true_iff in Hf as [He _].
      destruct (prE_head e He) as (k0 & r1 & E & E1 & _). cbn [zip zip_with].
      destruct (sepBy_head prPair (e, a) (zip fs als) (kw "from" :: r) k0 (r1 ++ prAs a)) as [r' ->]; [|eauto].
      unfold prPair. cbn [fst snd]. by rewrite E. }
    assert (steps (commaList (parseField pe)) (sepBy (map prPair (zip fs als)) ++ kw "from" :: r) (zip fs als) (kw "from" :: r)) as Hc.
    { apply comma_steps; [done|done|]. intros [e a] k' r' Hin Hk'. apply field_steps; [| | |done].
      - apply elem_of_zip_l in Hin. by apply (forallb_elem _ _ _ Hf).
      - apply elem_of_zip_r in Hin. by apply (forallb_elem _ _ _ Ha).
      - pose proof (sepBy_map_length prPair (zip fs als) (e, a) Hin). lia. }
    rewrite E in Hc |- *. apply steps_ifPunct. rewrite E1. eapply steps_bind; [exact Hc|apply steps_ret].
Qed.
Lemma clause_steps x o S k r : k ∈ S → forallb (λ k, negb (symKw x k)) S = true → k ∈ ends →
  match o with None => true | Some e => okE e end = true →
  length (prClause x (match o with None => None | Some e => Some (prE e) end)) ≤ n →
  steps (parseClause pe x) (prClause x (match o with None => None | Some e => Some (prE e) end) ++ k :: r) o (k :: r).
Proof.
  intros Hk HS He Ho Hl. unfold parseClause. destruct o as [e|]; cbn [prClause app length] in *; apply steps_ifKw.
  - rewrite symKw_same. apply steps_skip; [ne|]. eapply steps_bind; [apply IHE; [done|lia|done]|apply steps_ret].
  - rewrite (no_kw x S) by done. apply steps_ret.
Qed.

Lemma by_steps {A} x (p : PM A) (pr : A → list symbol) xs S k r :
  k ∈ S → forallb (λ k, negb (symKw x k)) S = true → symPunct "," k = false →
  (∀ y k' r', y ∈ xs → k' = pn "," ∨ k' = k → steps p (pr y ++ k' :: r') y (k' :: r')) →
  steps (ifPeek (isKw x) (_ ← next; _ ← expectKw "by"; commaList p) (mret [])) (prBy x (map pr xs) ++ k :: r) xs (k :: r).
Proof.
  intros Hk HS Hc Hp. destruct xs as [|y xs].
  - cbn [map prBy app]. apply steps_ifKw. rewrite (no_kw x S) by done. apply steps_ret.
  - cbn [map prBy app]. apply steps_ifKw. rewrite symKw_same. apply steps_skip; [done|]. apply steps_expectKw; [ne|].
    by apply (comma_steps p pr (y :: xs)).
Qed.

Lemma order_steps o k r : okO o = true → length (prO o) ≤ n → k ∈ ends → symKw "desc" k = false →
  steps (parseOrderTerm pe) (prO o ++ k :: r) o (k :: r).
Proof.
  destruct o as [e d]. cbn [okO prO]. intros He Hl Hk Hd. rewrite length_app in Hl. rewrite <-app_assoc.
  unfold parseOrderTerm. destruct d; cbn [optKw app].
  - eapply steps_bind; [apply IHE; [done|lia|elem]|]. apply steps_takeYes; [done|apply steps_ret].
  - eapply steps_bind; [apply IHE; [done|lia|done]|]. apply steps_takeNo; [done|]. cbn.
    apply steps_takeNo; [|apply steps_ret]. apply (no_kw _ ends); [vm_compute; reflexivity|done].
Qed.

Lemma kind_steps kind r : kind ∈ ["inner"; "left"] → r ≠ [] → steps joinKind (kw kind :: kw "join" :: r) (Some kind) r.
Proof.
  intros Hk Hr s Hs. destruct s as [|t0 [|t1 s]]; [done|done|]. pose proof (f_equal (hd (kw "")) Hs) as H0.
  pose proof (f_equal (hd (kw "")) (f_equal tail Hs)) as H1. pose proof (f_equal (tail ∘ tail) Hs) as H2. simpl in H2.
  destruct s as [|t2 s]; [by destruct r|]. exists (t2 :: s). split; [|done].
  destruct t0 as [k0 x0 p0], t1 as [k1 x1 p1]. injection H0 as -> ->. injection H1 as -> ->.
  apply list_elem_of_In in Hk. by destruct Hk as [<-|[<-|[]]].
Qed.

Lemma joins_steps m ts ons kinds k r :
  length ons = length ts → length kinds = length ts → forallb okT ts = true → forallb okE ons = true →
  forallb (λ k, bool_decide (k ∈ ["inner"; "left"])) kinds = true → k ∈ after_tables →
  length (prJoins (map prT ts) (map prE ons) kinds) ≤ n → length ts ≤ m →
  steps (joinLoop pe ps m) (prJoins (map prT ts) (map prE ons) kinds ++ k :: r) (zip (zip ts ons) kinds) (k :: r).
Proof.
  intros Ho Hkd HT HE HK Hk. revert m ons kinds Ho Hkd HE HK.
  induction ts as [|t ts IH]; intros m ons kinds Ho Hkd HE HK Hl Hm.
  - destruct ons, kinds; try done. cbn [map prJoins app zip zip_with].
    assert (steps joinKind (k :: r) None (k :: r)) as Hj.
    { unfold joinKind. do 3 (apply steps_ifKw; rewrite (no_kw _ after_tables) by (vm_compute; reflexivity || done)).
      apply steps_ret. }
    destruct m; (eapply steps_bind; [exact Hj|apply steps_ret]).
  - destruct ons as [|on ons]; [done|]. destruct kinds as [|kd kinds]; [done|]. destruct m as [|m]; [simpl in Hm; lia|].
    apply andb_true_iff in HT as [HT1 HT2]. apply andb_true_iff in HE as [HE1 HE2].
    apply andb_true_iff in HK as [HK1%bool_decide_eq_true HK2].
    cbn [map prJoins zip zip_with length app] in *. rewrite !length_app in Hl. cbn [length] in Hl. rewrite length_app in Hl.
    cbn [joinLoop]. eapply steps_bind; [apply kind_steps; [done|ne]|].
    rewrite <-app_assoc. cbn [app]. eapply steps_bind; [apply ref_steps; [done|lia]|].
    apply steps_expectKw; [ne|]. rewrite <-app_assoc.
    assert (∃ k' r', prJoins (map prT ts) (map prE ons) kinds ++ k :: r = k' :: r' ∧ k' ∈ ends) as (k' & r' & E & Hk').
    { destruct ts, ons; cbn [map prJoins app]; try (eexists _, _; split; [reflexivity|by apply after_ends]).
      destruct kinds as [|kd' kinds]; cbn [app]; [eexists _, _; split; [reflexivity|by apply after_ends]|].
      eexists _, _; split; [reflexivity|]. apply andb_true_iff in HK2 as [H%bool_decide_eq_true _].
      apply list_elem_of_In in H. destruct H as [<-|[<-|[]]]; elem. }
    pose proof (IH HT2 m ons kinds ltac:(lia) ltac:(lia) HE2 HK2 ltac:(lia) ltac:(lia)) as Hs. rewrite E in Hs |- *.
    eapply steps_bind; [apply IHE; [done|lia|done]|]. eapply steps_bind; [exact Hs|apply steps_ret].
Qed.
Lemma zip3_parts (ts : list TableRef) (ons : list Expr) (kinds : list string) :
  length ons = length ts → length kinds = length ts →
  map (λ j : TableRef * Expr * string, j.1.1) (zip (zip ts ons) kinds) = ts ∧
  map (λ j : TableRef * Expr * string, j.1.2) (zip (zip ts ons) kinds) = ons ∧ map snd (zip (zip ts ons) kinds) = kinds.
Proof.
  revert ons kinds. induction ts as [|t ts IH]; intros [|on ons] [|k kinds]; try done.
  intros [= H1] [= H2]. destruct (IH ons kinds H1 H2) as (E1 & E2 & E3). simpl. by rewrite E1, E2, E3.
Qed.
Lemma zip_parts (fs : list Expr) (als : list string) : length als = length fs →
  map fst (zip fs als) = fs ∧ map snd (zip fs als) = als.
Proof. intros H. split; [apply fst_zip|apply snd_zip]; lia. Qed.

(** The clauses after the tables. *)
Lemma tail_steps {B} w g h o lim k r (c : option Expr → list Expr → option Expr → list OrderTerm → option Z → B) :
  let W := match w with None => None | Some e => Some (prE e) end in
  let H := match h with None => None | Some e => Some (prE e) end in
  k ∈ stops → match w with None => true | Some e => okE e end = true → forallb okE g = true →
  match h with None => true | Some e => okE e end = true → forallb okO o = true →
  match lim with None => true | Some n => bool_decide (0 ≤ n ≤ int64_max)%Z end = true →
  length (prClause "where" W ++ prBy "group" (map prE g) ++ prClause "having" H ++ prBy "order" (map prO o) ++ prLimit lim) ≤ n →
  steps (w ← parseClause pe "where"; g ← parseGroup pe; h ← parseClause pe "having"; o ← parseOrder pe;
         lim ← parseLimit; mret (c w g h o lim))
    (prClause "where" W ++ prBy "group" (map prE g) ++ prClause "having" H ++ prBy "order" (map prO o) ++ prLimit lim ++ k :: r)
    (c w g h o lim) (k :: r).
Proof.
  intros W H Hk Hw Hg Hh Ho Hlim Hlen. rewrite !length_app in Hlen.
  destruct (head_limit lim k r Hk) as (k5 & r5 & E5 & H5). pose proof (limit_steps lim k r Hk Hlim) as S5. rewrite E5 in S5 |- *.
  destruct (head_by "order" (map prO o) _ k5 r5 H5) as (k4 & r4 & E4 & H4).
  destruct (head_clause "having" H _ k4 r4 H4) as (k3 & r3 & E3 & H3).
  destruct (head_by "group" (map prE g) _ k3 r3 H3) as (k2 & r2 & E2 & H2). rewrite E4, E3, E2.
  assert (∀ k', k' ∈ after_order ∨ k' ∈ after_having ∨ k' ∈ after_group ∨ k' ∈ after_where → k' ∈ ends) as Hends.
  { unfold after_having, after_group, after_where. intros k' [?|[?|[?|?]]]; apply after_ends; repeat first [done|right]. }
  assert (∀ xs, length (sepBy xs) ≤ length (prBy "group" xs)) as Hby by (intros [|x xs]; cbn [prBy sepBy length]; lia).
  eapply steps_bind; [apply (clause_steps _ _ _ _ _ H2); [vm_compute; reflexivity|auto|done|unfold W in *; lia]|].
  rewrite <-E2. eapply steps_bind.
  { apply (by_steps "group" pe prE g _ _ _ H3); [vm_compute; reflexivity|apply (no_punct _ after_group); [vm_compute; reflexivity|done]|].
    intros y k' r' Hy Hk'. apply IHE; [by apply (forallb_elem _ _ _ Hg)| |destruct Hk' as [->| ->]; [elem|auto]].
    pose proof (sepBy_map_length prE g y Hy). specialize (Hby (map prE g)). lia. }
  rewrite <-E3. eapply steps_bind; [apply (clause_steps _ _ _ _ _ H4); [vm_compute; reflexivity|auto|done|unfold H in *; lia]|].
  rewrite <-E4. eapply steps_bind.
  { apply (by_steps "order" (parseOrderTerm pe) prO o _ _ _ H5); [vm_compute; reflexivity|apply (no_punct _ after_order); [vm_compute; reflexivity|done]|].
    intros y k' r' Hy Hk'. apply order_steps; [by apply (forallb_elem _ _ _ Ho)| |destruct Hk' as [->| ->]; [elem|auto]|].
    - pose proof (sepBy_map_length prO o y Hy). specialize (Hby (map prO o)).
      destruct o; cbn [map prBy length] in *; lia.
    - destruct Hk' as [->| ->]; [done|]. apply (no_kw _ after_order); [vm_compute; reflexivity|done]. }
  eapply steps_bind; [exact S5|apply steps_ret].
Qed.

Lemma select_steps q k r : okS q = true → length (prS q) ≤ S n → k ∈ stops →
  steps (parseSelectBody pe ps) (prS q ++ k :: r) q (k :: r).
Proof.
  destruct q as [ts ons kinds star fs als w g h o lim]. cbn [okS prS]. intros Hok Hl Hk.
  apply andb_true_iff in Hok as [Hok Hlim]. apply andb_true_iff in Hok as [Hok Ho].
  apply andb_true_iff in Hok as [Hok Hh]. apply andb_true_iff in Hok as [Hok Hg].
  apply andb_true_iff in Hok as [Hok Hw]. apply andb_true_iff in Hok as [Hok Hals].
  apply andb_true_iff in Hok as [Hok Hfs]. apply andb_true_iff in Hok as [Hok Hlen%bool_decide_eq_true].
  apply andb_true_iff in Hok as [Hok Hstar]. apply andb_true_iff in Hok as [Hok Hkinds].
  apply andb_true_iff in Hok as [Hok Hons]. apply andb_true_iff in Hok as [Hok Hlk%bool_decide_eq_true].
  apply andb_true_iff in Hok as [Hok Hlo%bool_decide_eq_true]. apply andb_true_iff in Hok as [Hne Hts].
  destruct ts as [|t ts]; [done|]. cbn [tail forallb map prTables] in *. apply andb_true_iff in Hts as [Ht Hts].
  cbn [length] in Hl. rewrite !length_app in Hl. cbn [length] in Hl. rewrite !length_app in Hl.
  cbn [app]. rewrite <-!app_assoc. cbn [app]. rewrite <-!app_assoc. unfold parseSelectBody.
  apply steps_skip; [ne|]. eapply steps_bind; [apply fields_steps; try done; lia|]. apply steps_expectKw; [ne|].
  pose proof (tail_steps w g h o lim k r (λ w g h o lim, MkSelect (t :: ts) ons kinds star fs als w g h o lim)
    Hk Hw Hg Hh Ho Hlim ltac:(rewrite !length_app; lia)) as Htail.
  destruct (head_limit lim k r Hk) as (k5 & r5 & E5 & H5).
  destruct (head_by "order" (map prO o) _ k5 r5 H5) as (k4 & r4 & E4 & H4).
  destruct (head_clause "having" (match h with None => None | Some e => Some (prE e) end) _ k4 r4 H4) as (k3 & r3 & E3 & H3).
  destruct (head_by "group" (map prE g) _ k3 r3 H3) as (k2 & r2 & E2 & H2).
  destruct (head_clause "where" (match w with None => None | Some e => Some (prE e) end) _ k2 r2 H2) as (k1 & r1 & E1 & H1).
  rewrite E5, E4, E3, E2, E1 in *.
  destruct (app_cons_head (prJoins (map prT ts) (map prE ons) kinds) k1 r1) as (k0 & r0 & E0).
  rewrite E0. eapply steps_bind; [apply ref_steps; [done|lia]|]. rewrite <-E0.
  eapply steps_bind; [apply steps_fuel; apply joins_steps; try done; [lia|]|].
  { rewrite length_app. pose proof (prJoins_length ts ons kinds Hlo Hlk). lia. }
  destruct (zip3_parts ts ons kinds Hlo Hlk) as (Z1 & Z2 & Z3). destruct (zip_parts fs als Hlen) as [F1 F2].
  cbn [fst snd]. rewrite Z1, Z2, Z3, F1, F2. exact Htail.
Qed.
End query_reading.

Lemma parsers_read n :
  (∀ e k r, okE e = true → length (prE e) ≤ n → k ∈ ends → steps (parseExpr n) (prE e ++ k :: r) e (k :: r)) ∧
  (∀ q k r, okS q = true → length (prS q) ≤ n → k ∈ stops → steps (parseSelect n) (prS q ++ k :: r) q (k :: r)).
Proof.
  unfold parseExpr, parseSelect. induction n as [|n [HE HS]].
  - split; [intros e k r He Hl|intros [] k r He Hl; simpl in Hl; lia].
    destruct (prE_head e He) as (k0 & r0 & E & _). rewrite E in Hl. simpl in Hl. lia.
  - cbn [parsers]. destruct (parsers n) as [pe ps]. cbn [fst snd] in *. split.
    + intros e k r. by apply (expr_steps n pe ps).
    + intros q k r. by apply (select_steps n pe ps).
Qed.

(** ** Reading column definitions *)
Section attributes.
  Context (k : symbol) (r : list symbol) (Hk : k ∈ [pn ","; pn ")"]) (n : string) (t : ColumnType) (out : ColumnDef).

(** With fuel for the symbols left, the attribute loop ends with [out]. *)
Definition attrs (cd : ColumnDef) (ks : list symbol) : Prop :=
  ∀ m, length (ks ++ k :: r) ≤ m → steps (attrLoop cd m) (ks ++ k :: r) out (k :: r).

Ltac attr_turn := intros m Hm; destruct m as [|m]; [simpl in Hm; lia|];
  cbn [attrLoop app cd_Name cd_Type cd_Primary cd_NotNull cd_AutoInc cd_Unique cd_RefTable cd_RefCol];
  repeat (apply steps_takeNo; [reflexivity|]); first [apply steps_takeYes; [ne|]|idtac].

Lemma attrs_end : attrs out [].
Proof.
  intros m Hm. destruct m as [|m]; [simpl in Hm; lia|]. cbn [attrLoop app].
  do 5 (apply steps_takeNo; [apply (no_kw _ [pn ","; pn ")"]); [vm_compute; reflexivity|done]|]). apply steps_ret.
Qed.
Lemma attrs_primary (b : bool) nn ai u rt rc ks :
  attrs (MkColumnDef n t b nn ai u rt rc) ks →
  attrs (MkColumnDef n t false nn ai u rt rc) ((if b then [kw "primary"; kw "key"] else []) ++ ks).
Proof.
  intros H. destruct b; [|done]. attr_turn. apply steps_expectKw; [ne|]. apply H. simpl in Hm. lia.
Qed.
Lemma attrs_notnull p (b : bool) ai u rt rc ks :
  attrs (MkColumnDef n t p b ai u rt rc) ks →
  attrs (MkColumnDef n t p false ai u rt rc) ((if b then [kw "not"; kw "null"] else []) ++ ks).
Proof.
  intros H. destruct b; [|done]. attr_turn. apply steps_expectKw; [ne|]. apply H. simpl in Hm. lia.
Qed.
Lemma attrs_auto p nn (b : bool) u rt rc ks :
  attrs (MkColumnDef n t p nn b u rt rc) ks →
  attrs (MkColumnDef n t p nn false u rt rc) (optKw b "auto_increment" ++ ks).
Proof. intros H. destruct b; [|done]. attr_turn. apply H. simpl in Hm. lia. Qed.
Lemma attrs_unique p nn ai (b : bool) rt rc ks :
  attrs (MkColumnDef n t p nn ai b rt rc) ks →
  attrs (MkColumnDef n t p nn ai false rt rc) (optKw b "unique" ++ ks).
Proof. intros H. destruct b; [|done]. attr_turn. apply H. simpl in Hm. lia. Qed.
Lemma attrs_references p nn ai u rt rc :
  attrs (MkColumnDef n t p nn ai u rt rc) [] →
  (if bool_decide (rt = "") then bool_decide (rc = "") else okIdent rt && okAlias rc) = true →
  attrs (MkColumnDef n t p nn ai u "" "")
    (if bool_decide (rt = "") then []
     else kw "references" :: kw rt :: (if bool_decide (rc = "") then [] else paren [kw rc])).
Proof.
  intros H Hok. case_bool_decide as H1; [apply bool_decide_eq_true in Hok; by subst|].
  case_bool_decide as H2; attr_turn; (apply steps_ident; [ne|]).
  - subst rc. eapply steps_bind; [apply steps_ifPunct; rewrite (no_punct _ [pn ","; pn ")"]) by (vm_compute; reflexivity || done); apply steps_ret|].
    apply (H m). simpl in *. lia.
  - cbn [paren app]. eapply (steps_bind _ _ _ rc).
    + apply steps_ifPunct. tests. apply steps_skip; [done|]. apply steps_ident; [done|].
      apply steps_expectPunct; [done|apply steps_ret].
    + apply (H m). simpl in *. lia.
Qed.
End attributes.

Lemma column_steps cd k r : okColumn cd = true → k ∈ [pn ","; pn ")"] →
  steps parseColumnDef (prColumn cd ++ k :: r) cd (k :: r).
Proof.
  destruct cd as [n t p nn ai u rt rc]. unfold okColumn, prColumn, prAttrs.
  cbn [cd_Name cd_Type cd_Primary cd_NotNull cd_AutoInc cd_Unique cd_RefTable cd_RefCol].
  intros [[_ Ht]%andb_true_iff Href]%andb_true_iff Hk. cbn [app]. unfold parseColumnDef.
  apply steps_ident; [done|]. apply steps_ident; [ne|]. rewrite Ht. apply steps_fuel.
  eapply (attrs_primary k r n t (MkColumnDef n t p nn ai u rt rc) p false false false "" ""); [|done].
  apply attrs_notnull, attrs_auto, attrs_unique. by apply attrs_references; [|apply attrs_end|].
Qed.

(** ** Reading statements *)
Lemma stop_ends k : k ∈ stops → k ∈ ends.
Proof. unfold ends. rewrite elem_of_app. auto. Qed.
Lemma prE_fmap o : prE <$> o = match o with None => None | Some e => Some (prE e) end.
Proof. by destruct o. Qed.

Lemma row_steps n row k r : forallb okE row = true → length (prRow row) ≤ n →
  steps (parseRow (parseExpr n)) (prRow row ++ k :: r) row (k :: r).
Proof.
  unfold prRow. rewrite paren_length. intros Hok Hl. destruct (parsers_read n) as [HE HS].
  unfold paren, parseRow. cbn [app]. rewrite <-app_assoc. cbn [app]. apply steps_expectPunct; [ne|].
  apply (steps_bind _ _ _ row (pn ")" :: k :: r)); [|apply steps_expectPunct; [done|apply steps_ret]].
  destruct row as [|e row]; [apply steps_ifPunct; tests; apply steps_ret|].
  assert (e :: row ≠ []) as Hne by (intros [=]).
  pose proof (exprs_steps n _ HE (e :: row) (pn ")") (k :: r) Hne Hok ltac:(lia) ltac:(elem) eq_refl) as Hs.
  apply andb_true_iff in Hok as [He _]. destruct (prE_head e He) as (k0 & r0 & E & _ & Hp & _).
  destruct (sepBy_head prE e row (pn ")" :: k :: r) k0 r0 E) as [r' E']. rewrite E' in Hs |- *.
  apply steps_ifPunct. by rewrite Hp.
Qed.

Lemma assign_steps n a k r : okIdent (as_Col a) && okE (as_Expr a) = true → length (prAssign a) ≤ n → k ∈ ends →
  steps (parseAssignment (parseExpr n)) (prAssign a ++ k :: r) a (k :: r).
Proof.
  destruct a as [c e]. unfold prAssign. cbn [as_Col as_Expr length]. intros [_ He]%andb_true_iff Hl Hk.
  destruct (parsers_read n) as [HE HS]. unfold parseAssignment. cbn [app]. apply steps_ident; [done|].
  apply steps_expectPunct; [ne|]. eapply steps_bind; [apply HE; [done|lia|done]|apply steps_ret].
Qed.

Section statement_reading.
  Context (n : nat) (k : symbol) (r : list symbol) (Hk : k ∈ stops).

Lemma where_steps w : match w with None => true | Some e => okE e end = true →
  length (prClause "where" (prE <$> w)) ≤ n →
  steps (parseClause (parseExpr n) "where") (prClause "where" (prE <$> w) ++ k :: r) w (k :: r).
Proof.
  intros Hw Hl. rewrite prE_fmap in *. destruct (parsers_read n) as [HE HS].
  apply (clause_steps n _ HE "where" w stops); [done|vm_compute; reflexivity|by apply stop_ends|done|done].
Qed.

Lemma create_steps x cols : okStmt (CreateTableS x cols) = true →
  steps parseCreate (prStmt (CreateTableS x cols) ++ k :: r) (CreateTableS x cols) (k :: r).
Proof.
  cbn [okStmt prStmt app]. intros [[_ Hne%negb_true_iff%bool_decide_eq_false]%andb_true_iff Hc]%andb_true_iff.
  unfold parseCreate. apply steps_skip; [done|]. apply steps_expectKw; [done|]. apply steps_ident; [done|].
  unfold paren. cbn [app]. rewrite <-app_assoc. cbn [app]. apply steps_expectPunct; [ne|].
  eapply steps_bind; [apply comma_steps; [done|done|]|apply steps_expectPunct; [done|apply steps_ret]].
  intros cd k' r' Hin Hk'. apply column_steps; [by apply (forallb_elem _ _ _ Hc)|].
  destruct Hk' as [->| ->]; elem.
Qed.

Lemma drop_steps x b : okStmt (DropTableS x b) = true →
  steps parseDrop (prStmt (DropTableS x b) ++ k :: r) (DropTableS x b) (k :: r).
Proof.
  cbn [okStmt prStmt app]. intros [_ Hif]%andb_true_iff. unfold parseDrop.
  apply steps_skip; [done|]. destruct b; cbn [app]; (apply steps_expectKw; [done|]).
  - apply steps_takeYes; [done|]. apply steps_expectKw; [done|]. apply steps_ident; [done|apply steps_ret].
  - apply negb_true_iff, bool_decide_eq_false in Hif.
    apply steps_takeNo; [unfold symKw; simpl; by apply bool_decide_eq_false_2|].
    eapply steps_bind; [apply steps_ret|]. apply steps_ident; [done|apply steps_ret].
Qed.

Lemma insert_steps st : okStmt (InsertS st) = true → length (prStmt (InsertS st)) ≤ n →
  steps (parseInsert (parseExpr n)) (prStmt (InsertS st) ++ k :: r) (InsertS st) (k :: r).
Proof.
  destruct st as [x cs rows]. cbn [okStmt prStmt length]. rewrite length_app. cbn [length].
  intros [[[_ Hcs]%andb_true_iff Hne%negb_true_iff%bool_decide_eq_false]%andb_true_iff Hrows]%andb_true_iff Hl.
  unfold parseInsert. cbn [app]. apply steps_skip; [done|]. apply steps_expectKw; [done|].
  rewrite <-app_assoc. cbn [app]. apply steps_ident; [ne|].
  apply (steps_bind _ _ _ cs (kw "values" :: sepBy (map prRow rows) ++ k :: r)).
  - destruct cs as [|c cs]; [apply steps_ifPunct; tests; apply steps_ret|].
    unfold paren. cbn [app]. rewrite <-app_assoc. cbn [app]. apply steps_ifPunct. tests. apply steps_skip; [ne|].
    eapply steps_bind; [apply (comma_steps _ (λ c, [kw c]) (c :: cs)); [done|done|]|].
    + intros y k' r' _ _. by apply steps_identEnd.
    + apply steps_expectPunct; [done|apply steps_ret].
  - apply steps_expectKw; [ne|]. eapply steps_bind; [|apply steps_ret].
    apply (comma_steps _ prRow rows); [done|apply (no_punct _ stops); [vm_compute; reflexivity|done]|].
    intros row k' r' Hin _. apply row_steps; [by apply (forallb_elem _ _ _ Hrows)|].
    pose proof (sepBy_map_length prRow rows row Hin). lia.
Qed.

Lemma update_steps st : okStmt (UpdateS st) = true → length (prStmt (UpdateS st)) ≤ n →
  steps (parseUpdate (parseExpr n)) (prStmt (UpdateS st) ++ k :: r) (UpdateS st) (k :: r).
Proof.
  destruct st as [x sets w]. cbn [okStmt prStmt length]. rewrite length_app.
  intros [[[_ Hne%negb_true_iff%bool_decide_eq_false]%andb_true_iff Hsets]%andb_true_iff Hw]%andb_true_iff Hl.
  unfold parseUpdate. cbn [app]. apply steps_skip; [done|]. apply steps_ident; [done|].
  rewrite <-app_assoc. apply steps_expectKw; [ne|]. pose proof (where_steps w Hw ltac:(lia)) as Hws.
  destruct (head_clause "where" (prE <$> w) stops k r Hk) as (k1 & r1 & E & H1). rewrite E in Hws |- *.
  assert (k1 ∈ ends) as He.
  { apply elem_of_cons in H1 as [->|H1]; [elem|by apply stop_ends]. }
  eapply steps_bind; [|eapply steps_bind; [exact Hws|apply steps_ret]].
  apply (comma_steps _ prAssign sets); [done|apply (no_punct _ (kw "where" :: stops)); [vm_compute; reflexivity|done]|].
  intros a k' r' Hin Hk'. apply assign_steps; [by apply (forallb_elem _ _ _ Hsets)| |destruct Hk' as [->| ->]; [elem|done]].
  pose proof (sepBy_map_length prAssign sets a Hin). lia.
Qed.

Lemma delete_steps st : okStmt (DeleteS st) = true → length (prStmt (DeleteS st)) ≤ n →
  steps (parseDelete (parseExpr n)) (prStmt (DeleteS st) ++ k :: r) (DeleteS st) (k :: r).
Proof.
  destruct st as [x w]. cbn [okStmt prStmt length]. intros [_ Hw]%andb_true_iff Hl.
  unfold parseDelete. cbn [app]. apply steps_skip; [done|]. apply steps_expectKw; [done|]. apply steps_ident; [ne|].
  eapply steps_bind; [apply where_steps; [done|lia]|apply steps_ret].
Qed.

(** Dispatch on the first keyword. *)
Lemma dispatch_steps x m ks st :
  (∀ t s, sym t = kw x → parseStatement n (t :: s) = m (t :: s)) →
  steps m (kw x :: ks) st (k :: r) → steps (parseStatement n) (kw x :: ks) st (k :: r).
Proof.
  intros Hd Hm s Hs. destruct s as [|t s]; [done|]. pose proof (f_equal (hd (kw "")) Hs) as Ht.
  rewrite (Hd t s Ht). by apply Hm.
Qed.

Lemma statement_steps st : okStmt st = true → length (prStmt st) ≤ n →
  steps (parseStatement n) (prStmt st ++ k :: r) st (k :: r).
Proof.
  intros Hok Hl.
  assert (∀ x m ks, (∀ p s, parseStatement n (MkToken tokIdent x p :: s) = m (MkToken tokIdent x p :: s)) →
    steps m (kw x :: ks) st (k :: r) → steps (parseStatement n) (kw x :: ks) st (k :: r)) as Hd.
  { intros x m ks H. apply dispatch_steps. intros [? ? p] s [= -> ->]. apply H. }
  destruct st as [x cols|x b|[x cs rows]|q|[x sets w]|[x w]| | |].
  - apply (Hd _ parseCreate); [done|by apply create_steps].
  - apply (Hd _ parseDrop); [done|by apply drop_steps].
  - apply (Hd _ (parseInsert (parseExpr n))); [done|by apply (insert_steps (MkInsert x cs rows))].
  - destruct (parsers_read n) as [_ HS]. pose proof (HS q k r Hok Hl Hk) as Hs. destruct q.
    apply (Hd _ (q ← parseSelect n; mret (SelectS q))); [done|]. eapply steps_bind; [exact Hs|apply steps_ret].
  - apply (Hd _ (parseUpdate (parseExpr n))); [done|by apply (update_steps (MkUpdate x sets w))].
  - apply (Hd _ (parseDelete (parseExpr n))); [done|by apply (delete_steps (MkDelete x w))].
  - apply (Hd _ (_ ← next; mret BeginS)); [done|]. apply steps_skip; [done|apply steps_ret].
  - apply (Hd _ (_ ← next; mret CommitS)); [done|]. apply steps_skip; [done|apply steps_ret].
  - apply (Hd _ (_ ← next; mret RollbackS)); [done|]. apply steps_skip; [done|apply steps_ret].
Qed.
End statement_reading.

(** ** The printed symbols are tokens *)
Definition symOk (k : symbol) : bool :=
  match k.1 with
  | tokEOF => false
  | tokIdent => okIdent k.2
  | tokNum => okNum k.2
  | tokStr => true
  | tokPunct => bool_decide (k.2 ∈ twoChars ++ map (λ c, String c EmptyString) punctChars)
  end.
Abbreviation allOk := (forallb symOk).

Lemma symOk_token k p : symOk k = true → wf_token (MkToken k.1 k.2 p).
Proof.
  destruct k as [[] x]; unfold symOk, wf_token; cbn [fst snd tk_kind tk_text]; [done|apply okIdent_text|apply okNum_text|done|].
  intros [H|H]%bool_decide_eq_true%elem_of_app; [by left|]. right.
  apply list_elem_of_fmap in H as (c & -> & Hc). eauto.
Qed.

Lemma allOk_paren ks : allOk (paren ks) = allOk ks.
Proof. unfold paren. cbn [forallb]. rewrite forallb_app. simpl. by rewrite !andb_true_r. Qed.
Lemma allOk_sepBy {A} (pr : A → list symbol) xs :
  (∀ x, x ∈ xs → allOk (pr x) = true) → allOk (sepBy (map pr xs)) = true.
Proof.
  induction xs as [|x xs IH]; intros H; [done|]. pose proof (H x ltac:(left)) as Hx.
  assert (allOk (sepBy (map pr xs)) = true) as Hxs by (apply IH; intros y Hy; apply H; by right).
  cbn [map]. destruct (map pr xs) eqn:E; [done|]. rewrite sepBy_cons by done.
  rewrite forallb_app. cbn [forallb]. rewrite Hx. by rewrite <-E, Hxs in *.
Qed.
Lemma allOk_opt b x : allOk (optKw b x) = (negb b || symOk (kw x)).
Proof. destruct b; simpl; [by rewrite andb_true_r|done]. Qed.

(** Known symbols are checked by computation. *)
Ltac sym_test := repeat match goal with
  | |- context [symOk (kw (String ?c ?x))] => decide_test (symOk (kw (String c x)))
  | |- context [symOk (pn (String ?c ?x))] => decide_test (symOk (pn (String c x)))
  end.
Ltac all_ok := repeat (rewrite ?forallb_app, ?allOk_paren, ?allOk_opt; cbn [forallb]); sym_test;
  rewrite ?orb_true_r, ?andb_true_r; cbn [andb].

Lemma okIdent_sym x : okIdent x = true → symOk (kw x) = true.
Proof. done. Qed.
Lemma okName_sym x : okName x = true → symOk (kw x) = true.
Proof. by intros (_ & _ & _ & H)%okName_spec. Qed.
Lemma okLit_sym v : okLit v = true → symOk (prLit v) = true.
Proof.
  destruct v; cbn [okLit prLit]; intros H; try done.
  - apply bool_decide_eq_true, ParseInt_FormatInt in H as (_ & _ & Hn). unfold symOk, okNum. cbn [fst snd].
    destruct Hn as [H1 H2]. destruct (FormatInt i); [done|]. rewrite H1. by apply bool_decide_eq_true.
  - apply andb_true_iff in H as [[H _]%andb_true_iff _]. done.
  - by destruct b.
Qed.
Lemma op_sym x l : x ∈ l → forallb (λ x, symOk (pn x)) l = true → symOk (pn x) = true.
Proof. intros Hx H. by apply (forallb_elem (λ x, symOk (pn x)) l). Qed.

Section printed.
  Context (n : nat).
  Context (IHE : ∀ e, okE e = true → length (prE e) ≤ n → allOk (prE e) = true).
  Context (IHS : ∀ q, okS q = true → length (prS q) ≤ n → allOk (prS q) = true).

Lemma exprs_ok es : forallb okE es = true → length (sepBy (map prE es)) ≤ n → allOk (sepBy (map prE es)) = true.
Proof.
  intros H Hl. apply allOk_sepBy. intros e He. apply IHE; [by apply (forallb_elem _ _ _ H)|].
  pose proof (sepBy_map_length prE es e He). lia.
Qed.

Lemma expr_ok e : okE e = true → length (prE e) ≤ S n → allOk (prE e) = true.
Proof.
  intros Hok Hl.
  destruct e as [v|t c|f star arg|op l r1|x b|l r1|l r1|x|op l r1|x es b|x q b]; cbn [prE okE] in *;
    rewrite ?length_app in Hl; cbn [length] in Hl; rewrite ?length_app in Hl; cbn [length] in Hl;
    rewrite ?paren_length in Hl.
  - simpl. by rewrite okLit_sym.
  - apply andb_true_iff in Hok as [Hc Ht]. case_bool_decide; all_ok; rewrite ?(okIdent_sym c Hc), ?(okName_sym _ Ht); done.
  - apply andb_true_iff in Hok as [Hf Ha]. all_ok. rewrite okName_sym by done. destruct star; [done|].
    destruct arg as [a|]; [|done]. simpl in Ha. by apply IHE; [|lia].
  - apply andb_true_iff in Hok as [[Hop%bool_decide_eq_true H1]%andb_true_iff H2]. all_ok.
    rewrite (op_sym op cmpOps), !IHE by (done || lia || (vm_compute; reflexivity)). done.
  - all_ok. by apply IHE; [|lia].
  - apply andb_true_iff in Hok as [H1 H2]. all_ok. by rewrite !IHE by (done || lia).
  - apply andb_true_iff in Hok as [H1 H2]. all_ok. by rewrite !IHE by (done || lia).
  - all_ok. by apply IHE; [|lia].
  - apply andb_true_iff in Hok as [[Hop%bool_decide_eq_true H1]%andb_true_iff H2]. all_ok.
    rewrite (op_sym op ["+"; "-"; "*"; "/"; "%"]), !IHE by (done || lia || (vm_compute; reflexivity)). done.
  - apply andb_true_iff in Hok as [[H1 _]%andb_true_iff H2]. all_ok. by rewrite IHE, exprs_ok by (done || lia).
  - apply andb_true_iff in Hok as [H1 H2]. all_ok. by rewrite IHE, IHS by (done || lia).
Qed.
Lemma ref_ok t : okT t = true → length (prT t) ≤ S n → allOk (prT t) = true.
Proof.
  destruct t as [x a [q|]]; cbn [okT prT].
  - intros [[_ Ha]%andb_true_iff Hq]%andb_true_iff. rewrite length_app, paren_length. cbn [length]. intros Hl. all_ok.
    by rewrite IHS, okIdent_sym by (done || lia).
  - intros [H1 H2]%andb_true_iff _. all_ok. by rewrite !okIdent_sym.
Qed.
Lemma joins_ok ts ons kinds :
  forallb okT ts = true → forallb okE ons = true → forallb (λ k, bool_decide (k ∈ ["inner"; "left"])) kinds = true →
  length (prJoins (map prT ts) (map prE ons) kinds) ≤ n → allOk (prJoins (map prT ts) (map prE ons) kinds) = true.
Proof.
  revert ons kinds. induction ts as [|t ts IH]; intros [|on ons] [|k kinds]; try done.
  intros [Ht Hts]%andb_true_iff [Ho Hos]%andb_true_iff [Hk%bool_decide_eq_true Hks]%andb_true_iff.
  cbn [map prJoins length]. rewrite length_app. cbn [length]. rewrite length_app. intros Hl. all_ok.
  rewrite ref_ok, IHE, IH by (done || lia).
  apply list_elem_of_In in Hk. by destruct Hk as [<-|[<-|[]]].
Qed.
Lemma clause_ok x o : okIdent x = true → match o with None => true | Some e => okE e end = true →
  length (prClause x (match o with None => None | Some e => Some (prE e) end)) ≤ n →
  allOk (prClause x (match o with None => None | Some e => Some (prE e) end)) = true.
Proof.
  intros Hx Ho. destruct o as [e|]; cbn [prClause length forallb]; [|done]. intros Hl.
  by rewrite okIdent_sym, IHE by (done || lia).
Qed.
Lemma by_ok {A} x (pr : A → list symbol) xs : okIdent x = true → (∀ y, y ∈ xs → allOk (pr y) = true) →
  allOk (prBy x (map pr xs)) = true.
Proof.
  intros Hx H. pose proof (allOk_sepBy pr xs H) as Hs. destruct xs as [|y xs]; [done|]. cbn [map prBy] in *.
  cbn [forallb]. rewrite okIdent_sym by done. by sym_test.
Qed.
Lemma prBy_length {A} x (pr : A → list symbol) xs y : y ∈ xs → length (pr y) ≤ length (prBy x (map pr xs)).
Proof.
  intros Hy. pose proof (sepBy_map_length pr xs y Hy). destruct xs; [by apply not_elem_of_nil in Hy|].
  cbn [map prBy length] in *. lia.
Qed.
Lemma fields_ok fs als : forallb okE fs = true → forallb okAlias als = true →
  length (sepBy (zip_with prField (map prE fs) als)) ≤ n → allOk (sepBy (zip_with prField (map prE fs) als)) = true.
Proof.
  intros Hf Ha. rewrite prFields_zip. intros Hl. apply allOk_sepBy. intros [e a] Hin.
  pose proof (sepBy_map_length prPair _ _ Hin) as Hlen. unfold prPair in *. cbn [fst snd] in *.
  rewrite length_app in Hlen. pose proof (elem_of_zip_l _ _ _ _ Hin) as He. pose proof (elem_of_zip_r _ _ _ _ Hin) as Ha'.
  all_ok. rewrite IHE by (lia || exact (forallb_elem _ _ _ Hf He)).
  unfold prAs. case_bool_decide as H0; [done|]. all_ok. apply (forallb_elem _ _ _ Ha) in Ha'.
  unfold okAlias in Ha'. by rewrite bool_decide_eq_false_2 in Ha' by done.
Qed.

Lemma select_ok q : okS q = true → length (prS q) ≤ S n → allOk (prS q) = true.
Proof.
  destruct q as [ts ons kinds star fs als w g h o lim]. cbn [okS prS]. rewrite !andb_true_iff.
  intros ((((((((((((((Hne & Hts) & Hlo) & Hlk) & Hons) & Hkinds) & Hstar) & Hlen) & Hfs) & Hals) & Hw) & Hg) & Hh) & Ho) & Hlim) Hl.
  destruct ts as [|t ts]; [done|]. cbn [map prTables forallb] in *. apply andb_true_iff in Hts as [Ht Hts].
  cbn [length] in Hl. rewrite !length_app in Hl. cbn [length] in Hl. rewrite !length_app in Hl.
  assert (allOk (prBy "group" (map prE g)) = true) as Hg'.
  { apply by_ok; [done|]. intros y Hy. pose proof (prBy_length "group" prE g y Hy).
    apply IHE; [by apply (forallb_elem _ _ _ Hg)|lia]. }
  assert (allOk (prBy "order" (map prO o)) = true) as Ho'.
  { apply by_ok; [done|]. intros [e d] Hy. pose proof (prBy_length "order" prO o _ Hy) as Hb.
    apply (forallb_elem _ _ _ Ho) in Hy. cbn [okO prO] in *. rewrite length_app in Hb. all_ok.
    rewrite IHE by (done || lia). by destruct d. }
  assert (allOk (prLimit lim) = true) as Hlim'.
  { destruct lim as [z|]; [|done]. cbn [prLimit]. all_ok. by apply (okLit_sym (VInt z)). }
  all_ok. rewrite ref_ok, joins_ok, !clause_ok, Hg', Ho', Hlim' by (done || lia).
  destruct star; [done|]. by rewrite fields_ok by (done || lia).
Qed.
End printed.

Lemma printed_ok n :
  (∀ e, okE e = true → length (prE e) ≤ n → allOk (prE e) = true) ∧
  (∀ q, okS q = true → length (prS q) ≤ n → allOk (prS q) = true).
Proof.
  induction n as [|n [HE HS]].
  - split; [intros e He Hl|intros [] He Hl; simpl in Hl; lia].
    destruct (prE_head e He) as (k0 & r0 & E & _). rewrite E in Hl. simpl in Hl. lia.
  - split; [intros e; by apply (expr_ok n)|intros q; by apply (select_ok n)].
Qed.

Lemma stmt_ok st : okStmt st = true → allOk (prStmt st) = true.
Proof.
  intros Hok. destruct (printed_ok (length (prStmt st))) as [HE HS]. revert Hok HE HS.
  destruct st as [x cols|x b|[x cs rows]|q|[x sets w]|[x w]| | |]; cbn [okStmt prStmt]; try done; rewrite ?andb_true_iff.
  - intros [[Hx _] Hc] _ _. all_ok. rewrite okIdent_sym by done. apply allOk_sepBy. intros cd Hcd.
    apply (forallb_elem _ _ _ Hc) in Hcd. unfold okColumn in Hcd. rewrite !andb_true_iff in Hcd.
    destruct Hcd as [[Hn Ht%bool_decide_eq_true] Href]. unfold prColumn, prAttrs. all_ok.
    rewrite okIdent_sym by done. rewrite (okIdent_sym (cd_Type cd))
      by (apply (forallb_elem okIdent) in Ht; [done|vm_compute; reflexivity]).
    case_bool_decide; destruct (cd_Primary cd), (cd_NotNull cd); all_ok; try done;
      apply andb_true_iff in Href as [H1 H2]; rewrite okIdent_sym by done; unfold okAlias in H2;
      case_bool_decide; try done; all_ok; by rewrite okIdent_sym.
  - intros [Hx _] _ _. destruct b; all_ok; by rewrite okIdent_sym.
  - intros [[[Hx Hcs] _] Hrows] HE _. cbn [length] in HE. rewrite length_app in HE. cbn [length] in HE.
    all_ok. rewrite okIdent_sym by done. rewrite (allOk_sepBy prRow); [rewrite andb_true_r|].
    + destruct cs as [|c cs]; [done|]. rewrite allOk_paren. apply allOk_sepBy. intros y Hy. all_ok.
      by apply okIdent_sym, (forallb_elem _ _ _ Hcs).
    + intros row Hrow. pose proof (sepBy_map_length prRow rows row Hrow) as Hl. apply (forallb_elem _ _ _ Hrows) in Hrow.
      unfold prRow in *. rewrite paren_length in Hl. rewrite allOk_paren.
      apply (exprs_ok (length (sepBy (map prE row)))); [|done|done].
      intros e He Hle. apply HE; [done|lia].
  - intros Hq _ HS. by apply HS.
  - intros [[[Hx _] Hsets] Hw] HE _. cbn [length] in HE. rewrite length_app in HE. all_ok. rewrite okIdent_sym by done.
    rewrite prE_fmap in *. rewrite (clause_ok (length (prClause "where" (match w with Some e => Some (prE e) | None => None end))));
      [rewrite andb_true_r|intros e He Hle; apply HE; [done|lia]|done|done|done].
    apply allOk_sepBy. intros [c e] Ha. pose proof (sepBy_map_length prAssign sets _ Ha) as Hl.
    apply (forallb_elem _ _ _ Hsets) in Ha. unfold prAssign in *. cbn [as_Col as_Expr length] in *.
    apply andb_true_iff in Ha as [Hc He]. all_ok. by rewrite okIdent_sym, HE by (done || lia).
  - intros [Hx Hw] HE _. cbn [length] in HE. all_ok. rewrite okIdent_sym by done.
    rewrite prE_fmap in *. apply (clause_ok (length (prClause "where" (match w with Some e => Some (prE e) | None => None end))));
      [intros e He Hle; apply HE; [done|lia]|done|done|done].
Qed.

(** A rendered list of symbols lexes as these symbols. *)
Lemma lex_render ks : allOk ks = true →
  ∃ toks, lex (render ks) = Ok toks ∧ map sym toks = ks ++ [(tokEOF, "")].
Proof.
  intros Hok. unfold render, lex. set (ts := map (λ k : symbol, MkToken k.1 k.2 0) ks).
  assert (Forall wf_token ts) as Hw.
  { apply Forall_fmap, Forall_forall. intros k Hk. by apply (symOk_token k 0), (forallb_elem _ _ _ Hok). }
  destruct (lexFrom_print ts (S (slen (printTokens ts))) (slen (printTokens ts)) Hw ltac:(lia)) as (ts' & -> & Hs).
  eexists. split; [done|]. rewrite map_app, Hs. f_equal. unfold ts. rewrite map_map.
  rewrite <-(map_id ks) at 2. apply map_ext. by intros [].
Qed.

(** C16: Parsing inverts printing.  For every statement whose names, operators and
    literals can be written in SQL, [Parse] of its printed text is that statement
    again: CREATE with all its column attributes, DROP, INSERT, UPDATE, DELETE,
    the transaction statements, and SELECT with joins, derived tables, IN
    subqueries, grouping, ordering and every operator. *)
Theorem parse_print st : okStmt st = true → Parse (print st) = Ok st.
Proof.
  intros Hok. destruct (lex_render (prStmt st) (stmt_ok st Hok)) as (toks & Hlex & Hs).
  unfold Parse, print. rewrite Hlex. cbn.
  assert (length (prStmt st) ≤ length toks) as Hl.
  { rewrite <-(length_map sym toks), Hs, length_app. lia. }
  destruct (statement_steps (length toks) (tokEOF, "") [] ltac:(elem) st Hok Hl toks Hs) as (s' & E & Hs').
  unfold parseProgram, mbind, PM_bind. rewrite E. destruct s' as [|[k x p] s']; [done|]. by injection Hs' as -> -> _.
Qed.

Definition demo_select : Select :=
  MkSelect [MkTableRef "users" "u" None;
            MkTableRef "" "p" (Some (MkSelect [MkTableRef "posts" "posts" None] [] [] true [] [] None [] None [] None))]
    [Cmp "=" (ColRef "u" "id") (ColRef "p" "author")] ["left"] false
    [ColRef "u" "name"; Func "count" true None] [""; "n"]
    (Some (And (Not (IsNullE (ColRef "" "name") true))
             (InList (Binary "*" (ColRef "u" "score") (Lit (VFloat (S754_finite false 5629499534213120 (-51)))))
                [Lit (VInt 1); Lit (VText "it's")] true)))
    [ColRef "u" "name"] (Some (Cmp ">" (Func "count" true None) (Lit (VInt 1))))
    [MkOrderTerm (ColRef "" "n") true] (Some 10%Z).

Lemma parse_print_witness :
  print (DropTableS "users" true) = "drop table if exists users " ∧
  Parse (print (SelectS demo_select)) = Ok (SelectS demo_select).
Proof. split; [vm_compute; reflexivity|]. apply (parse_print (SelectS demo_select)). vm_compute. reflexivity. Defined.
