(* ===== verification/Eval.v ===== *)
(** * Expressions over rows (executor/executor.go: scopes, validation,
    evaluation, aggregates)

    Column references are resolved against the tables in scope; boolean
    expressions evaluate to a pair of a truth value and a NULL flag.  The time
    [NOW()] returns is the argument [now] of the evaluators. *)
From S2P Require Import Prelude GoStd Types Schema Wal Table Engine Ast.

(** [row[i]] on a Go slice: out of range is a panic. *)
Definition panicRow : error := Errorf "runtime error: index out of range" [].
Definition row_at (r : row) (i : nat) : res Value := res_of_option panicRow (r !! i).
(** [r[argPos]] with [argPos] possibly -1. *)
Definition arg_at (r : row) (pos : option nat) : res Value :=
  match pos with Some i => row_at r i | None => Err panicRow end.

(** ** Scopes *)
Record joinTable := MkJoinTable {
  jt_def : TableDef; jt_alias : string; jt_basePos : nat;
  jt_rows : option (list row) }.

(** [joinScope]: the tables in scope, in order. *)
Abbreviation joinScope := (list joinTable).

(** The map from column names to positions; a later duplicate wins. *)
Definition colIndexMap (def : TableDef) : gmap string nat :=
  foldl (λ m ic, <[Name ic.2 := ic.1]> m) ∅ (zip (seq 0 (length (td_Cols def))) (td_Cols def)).

Definition jt_colIdx (t : joinTable) : gmap string nat := colIndexMap (jt_def t).

Definition singleTableScope (def : TableDef) : joinScope :=
  [MkJoinTable def (td_Name def) 0 None].

Definition sub (n : nat) (sc : joinScope) : joinScope := take n sc.

(** The first table with the alias decides a qualified reference. *)
Fixpoint resolveQualified (sc : joinScope) (table name : string) : res nat :=
  match sc with
  | [] => Err (SQLError "42P01" "missing FROM-clause entry for table %s" [AStr table])
  | t :: sc =>
      if bool_decide (jt_alias t = table) then
        match jt_colIdx t !! name with
        | Some ci => Ok (jt_basePos t + ci)
        | None => Err (SQLError "42703" "column %s of table %s does not exist"
                         [AStr name; AStr table])
        end
      else resolveQualified sc table name
  end.

Definition positions (sc : joinScope) (name : string) : list nat :=
  omap (λ t, (λ ci, jt_basePos t + ci) <$> jt_colIdx t !! name) sc.

Definition resolve (sc : joinScope) (table name : string) : res nat :=
  if bool_decide (table ≠ "") then resolveQualified sc table name
  else match positions sc name with
       | [] => Err (SQLError "42703" "column %s does not exist" [AStr name])
       | [p] => Ok p
       | _ => Err (SQLError "42703" "column name %s is ambiguous" [AStr name])
       end.

(** ** Validation before any row is read *)
Fixpoint all_literals (l : list Expr) : res unit :=
  match l with
  | [] => Ok tt
  | Lit _ :: l => all_literals l
  | _ :: _ => Err (SQLError "42601" "IN list must contain literals in v2" [])
  end.

Fixpoint validateExpr (sc : joinScope) (e : Expr) : res unit :=
  match e with
  | Lit _ => Ok tt
  | ColRef t n => _ ← resolve sc t n; Ok tt
  | Func name _ _ =>
      if bool_decide (name = "now") then Ok tt
      else if IsAggregateFunc name then
        Err (SQLError "42883" "aggregate function %s() is not allowed in WHERE or SET clauses" [AStr name])
      else Err (SQLError "42883" "function %s() is not supported in v1" [AStr name])
  | Cmp _ l r | And l r | Or l r | Binary _ l r => _ ← validateExpr sc l; validateExpr sc r
  | IsNullE x _ | Not x => validateExpr sc x
  | InList x l _ => _ ← validateExpr sc x; all_literals l
  | InSub x _ _ => validateExpr sc x
  end.

(** ** Arithmetic *)
Definition is_num (v : Value) : bool :=
  match v with VInt _ | VFloat _ => true | _ => false end.
(** [float64(v.I)], or [v.F] for a float. *)
Definition num_f64 (v : Value) : f64 :=
  match v with VFloat f => f | VInt i => f64_of_int i | _ => f64_of_int 0 end.

Definition arithmetic (op : string) (l r : Value) : res Value :=
  if negb (is_num l) || negb (is_num r) then
    Err (SQLError "42883" "operator %q is not defined for %s and %s"
           [AStr op; AStr (Kind_String (kind l)); AStr (Kind_String (kind r))])
  else
    let a := num_f64 l in
    let b := num_f64 r in
    if bool_decide (op = "/" ∨ op = "%") && f64_eqb b f64_zero then
      Err (SQLError "22012" "division by zero" [])
    else
      let pick (fi : Z → Z → Z) (ff : f64 → f64 → f64) :=
        match l, r with
        | VInt i, VInt j => Ok (VInt (wrap64 (fi i j)))
        | _, _ => Ok (VFloat (ff a b))
        end in
      if bool_decide (op = "+") then pick Z.add f64_add
      else if bool_decide (op = "-") then pick Z.sub f64_sub
      else if bool_decide (op = "*") then pick Z.mul f64_mul
      else if bool_decide (op = "/") then pick Z.quot f64_div
      else if bool_decide (op = "%") then pick Z.rem f64_mod
      else Err (SQLError "0A000" "unknown operator " [AStr op]).

(** ** Aggregates *)
Fixpoint count_nonnull (rows : list row) (pos : option nat) : res Z :=
  match rows with
  | [] => Ok 0%Z
  | r :: rows =>
      v ← arg_at r pos;
      n ← count_nonnull rows pos;
      Ok (if IsNull v then n else (n + 1)%Z)
  end.

(** The loop of [sum]: integer sum, float sum, any value seen, all integers. *)
Fixpoint sum_loop (rows : list row) (pos : option nat) (sumI : Z) (sumF : f64) (any allInt : bool) :
    res (Z * f64 * bool * bool) :=
  match rows with
  | [] => Ok (sumI, sumF, any, allInt)
  | r :: rows =>
      v ← arg_at r pos;
      match v with
      | VNull => sum_loop rows pos sumI sumF any allInt
      | VInt i => sum_loop rows pos (wrap64 (sumI + i)) sumF true allInt
      | VFloat f => sum_loop rows pos sumI (f64_add sumF f) true false
      | _ => Err (SQLError "42883" "sum() requires a numeric column" [])
      end
  end.

Fixpoint avg_loop (rows : list row) (pos : option nat) (sum : f64) (n : Z) : res (f64 * Z) :=
  match rows with
  | [] => Ok (sum, n)
  | r :: rows =>
      v ← arg_at r pos;
      match v with
      | VNull => avg_loop rows pos sum n
      | VInt i => avg_loop rows pos (f64_add sum (f64_of_int i)) (n + 1)%Z
      | VFloat f => avg_loop rows pos (f64_add sum f) (n + 1)%Z
      | _ => Err (SQLError "42883" "avg() requires a numeric column" [])
      end
  end.

Fixpoint extremum_loop (is_min : bool) (rows : list row) (pos : option nat) (best : option Value) :
    res (option Value) :=
  match rows with
  | [] => Ok best
  | r :: rows =>
      v ← arg_at r pos;
      if IsNull v then extremum_loop is_min rows pos best
      else match best with
           | None => extremum_loop is_min rows pos (Some v)
           | Some b =>
               let c := Compare v b in
               if (if is_min then (c <? 0)%Z else (0 <? c)%Z)
               then extremum_loop is_min rows pos (Some v)
               else extremum_loop is_min rows pos (Some b)
           end
  end.

Definition evalAggregate (name : string) (star : bool) (rows : list row) (pos : option nat) : res Value :=
  if bool_decide (name = "count") then
    if star then Ok (VInt (Z.of_nat (length rows)))
    else n ← count_nonnull rows pos; Ok (VInt n)
  else if bool_decide (name = "sum") then
    match sum_loop rows pos 0 f64_zero false true with
    | Err e => Err e
    | Ok (sumI, sumF, any, allInt) =>
        Ok (if negb any then VNull
            else if allInt then VInt sumI
            else VFloat (f64_add (f64_of_int sumI) sumF))
    end
  else if bool_decide (name = "avg") then
    match avg_loop rows pos f64_zero 0 with
    | Err e => Err e
    | Ok (sum, n) => Ok (if (n =? 0)%Z then VNull else VFloat (f64_div sum (f64_of_int n)))
    end
  else if bool_decide (name = "min" ∨ name = "max") then
    best ← extremum_loop (bool_decide (name = "min")) rows pos None;
    Ok (default VNull best)
  else Err (SQLError "42883" "unknown aggregate function %s()" [AStr name]).

(** ** Evaluation

    [gc] is the group whose aggregates an expression may use. *)
Record groupCtx := MkGroupCtx { gc_rows : list row; gc_nowVal : Value }.

Section eval.
  Context (sc : joinScope) (now : Value) (r : row) (gc : option groupCtx).

Fixpoint evalValueCtx (e : Expr) : res Value :=
  match e with
  | Lit v => Ok v
  | ColRef t n => i ← resolve sc t n; row_at r i
  | Func name star arg =>
      if bool_decide (name = "now") then
        Ok match gc with Some g => gc_nowVal g | None => now end
      else if IsAggregateFunc name then
        match gc with
        | None =>
            Err (SQLError "42883" "aggregate function %s() is not allowed in this context" [AStr name])
        | Some g =>
            if star then evalAggregate name star (gc_rows g) None
            else match arg with
                 | Some (ColRef t n) =>
                     p ← resolve sc t n; evalAggregate name star (gc_rows g) (Some p)
                 | _ => Err (SQLError "42883" "aggregate argument must be a column reference in v2" [])
                 end
        end
      else Err (SQLError "42883" "function %s() is not supported in v2" [AStr name])
  | Binary op l rr =>
      lv ← evalValueCtx l;
      rv ← evalValueCtx rr;
      if IsNull lv || IsNull rv then Ok VNull else arithmetic op lv rv
  | _ => Err (SQLError "0A000" "unsupported expression" [])
  end.

(** The comparison operators on the result of [Compare]. *)
Definition cmp_op (op : string) (c : Z) : res bool :=
  if bool_decide (op = "=") then Ok (c =? 0)%Z
  else if bool_decide (op = "<>") then Ok (negb (c =? 0)%Z)
  else if bool_decide (op = "<") then Ok (c <? 0)%Z
  else if bool_decide (op = "<=") then Ok (c <=? 0)%Z
  else if bool_decide (op = ">") then Ok (0 <? c)%Z
  else if bool_decide (op = ">=") then Ok (0 <=? c)%Z
  else Err (SQLError "0A000" "unknown comparison operator " [AStr op]).

(** The scan of an IN list: a match found, a NULL passed. *)
Fixpoint in_list (v : Value) (l : list Expr) (hasNull : bool) : res (bool * bool) :=
  match l with
  | [] => Ok (false, hasNull)
  | Lit w :: l =>
      if IsNull w then in_list v l true
      else if (Compare v w =? 0)%Z then Ok (true, hasNull)
      else in_list v l hasNull
  | _ :: _ => Err (SQLError "42601" "IN list must contain literals in v2" [])
  end.

(** The result is the pair (value, isNull). *)
Fixpoint evalBoolCtx (e : Expr) : res (bool * bool) :=
  match e with
  | Cmp op l rr =>
      lv ← evalValueCtx l;
      rv ← evalValueCtx rr;
      if IsNull lv || IsNull rv then Ok (false, true)
      else b ← cmp_op op (Compare lv rv); Ok (b, false)
  | IsNullE x neg =>
      v ← evalValueCtx x;
      Ok (if neg then negb (IsNull v) else IsNull v, false)
  | InList x l neg =>
      v ← evalValueCtx x;
      if IsNull v then Ok (false, true)
      else
        '(matched, hasNull) ← in_list v l false;
        if negb matched && hasNull then Ok (false, true)
        else Ok (if neg then negb matched else matched, false)
  | And l rr =>
      '(lt, ln) ← evalBoolCtx l;
      '(rt, rn) ← evalBoolCtx rr;
      if (ln && negb rt) || (rn && negb lt) then Ok (false, true)
      else Ok (lt && rt, false)
  | Or l rr =>
      '(lt, ln) ← evalBoolCtx l;
      '(rt, rn) ← evalBoolCtx rr;
      if (ln && negb rt) || (rn && negb lt) then Ok (false, true)
      else Ok (lt || rt, false)
  | Not x =>
      '(v, n) ← evalBoolCtx x;
      if (n : bool) then Ok (false, true) else Ok (negb v, false)
  | Lit v =>
      match v with
      | VBool b => Ok (b, false)
      | VNull => Ok (false, true)
      | _ => Err (SQLError "42883" "expression is not boolean" [])
      end
  | Binary _ _ _ =>
      v ← evalValueCtx e;
      match v with
      | VNull => Ok (false, true)
      | VBool b => Ok (b, false)
      | VInt i => Ok (negb (i =? 0)%Z, false)
      | VFloat f => Ok (negb (f64_eqb f f64_zero), false)
      | _ => Err (SQLError "42883" "expression is not boolean" [])
      end
  | _ => Err (SQLError "0A000" "unsupported expression in boolean context" [])
  end.

End eval.

Definition evalValue (sc : joinScope) (now : Value) (e : Expr) (r : row) : res Value :=
  evalValueCtx sc now r None e.
Definition evalBool (sc : joinScope) (now : Value) (e : Expr) (r : row) : res (bool * bool) :=
  evalBoolCtx sc now r None e.

(** [b && !isNull]: the row passes. *)
Definition passes (bn : bool * bool) : bool := bn.1 && negb bn.2.

(** ** Three-valued logic

    The reference: Kleene's connectives on [option bool], NULL being [None]. *)
Definition kand (l r : option bool) : option bool :=
  match l, r with
  | Some false, _ | _, Some false => Some false
  | Some true, Some true => Some true
  | _, _ => None
  end.
Definition kor (l r : option bool) : option bool :=
  match l, r with
  | Some true, _ | _, Some true => Some true
  | Some false, Some false => Some false
  | _, _ => None
  end.
Definition knot (x : option bool) : option bool := negb <$> x.

Definition tv_of (bn : bool * bool) : option bool := if bn.2 then None else Some bn.1.

(** The truth value of an expression whose connectives are Kleene's and whose
    atoms evaluate as in the code. *)
Fixpoint kleene (sc : joinScope) (now : Value) (r : row) (e : Expr) : res (option bool) :=
  match e with
  | And a b => x ← kleene sc now r a; y ← kleene sc now r b; Ok (kand x y)
  | Or a b => x ← kleene sc now r a; y ← kleene sc now r b; Ok (kor x y)
  | Not a => x ← kleene sc now r a; Ok (knot x)
  | _ => tv_of <$> evalBool sc now e r
  end.

Fixpoint no_and (e : Expr) : bool :=
  match e with
  | And _ _ => false
  | Or a b => no_and a && no_and b
  | Not a => no_and a
  | _ => true
  end.

(** No AND below a NOT. *)
Fixpoint and_positive (e : Expr) : bool :=
  match e with
  | And a b | Or a b => and_positive a && and_positive b
  | Not a => no_and a
  | _ => true
  end.

(** A NULL result carries the value false. *)
Lemma evalBool_null_false sc now r e b n :
  evalBool sc now e r = Ok (b, n) → n = true → b = false.
Proof.
  unfold evalBool. intros H Hn. subst n.
  destruct e; simpl in H; unfold mbind, res_bind in H; try done;
    repeat (case_match; simplify_eq/=; try done).
Qed.

Lemma kleene_no_and sc now r e :
  no_and e = true → kleene sc now r e = tv_of <$> evalBool sc now e r.
Proof.
  induction e as [| | | | |l IHl rr IHr|l IHl rr IHr|x IH| | |]; intros Hna; try done; simpl in Hna.
  - apply andb_true_iff in Hna as [H1 H2]. simpl. rewrite IHl, IHr by done.
    unfold evalBool. simpl.
    destruct (evalBoolCtx sc now r None l) as [[lt ln]|err] eqn:El; simpl; [|done].
    destruct (evalBoolCtx sc now r None rr) as [[rt rn]|err] eqn:Er; simpl; [|done].
    pose proof (evalBool_null_false _ _ _ _ _ _ El). pose proof (evalBool_null_false _ _ _ _ _ _ Er).
    destruct lt, ln, rt, rn; try done; naive_solver.
  - simpl. rewrite IH by done. unfold evalBool. simpl.
    destruct (evalBoolCtx sc now r None x) as [[v n]|err]; simpl; [|done]. by destruct n.
Qed.

(** C36: WHERE follows SQL's three-valued logic on every expression in which no
    AND stands below a NOT: a row passes exactly if the expression is true in
    Kleene's logic, and evaluation fails exactly if the reference does. *)
Theorem where_kleene (sc : joinScope) (now : Value) (r : row) (e : Expr) :
  and_positive e = true →
  passes <$> evalBool sc now e r = (λ t, bool_decide (t = Some true)) <$> kleene sc now r e.
Proof.
  assert (∀ bn, passes bn = bool_decide (tv_of bn = Some true)) as Hp.
  { intros [b n]. unfold passes, tv_of. simpl. by destruct b, n. }
  assert (∀ e, kleene sc now r e = tv_of <$> evalBool sc now e r →
    passes <$> evalBool sc now e r = (λ t, bool_decide (t = Some true)) <$> kleene sc now r e) as Heq.
  { intros e' ->. destruct (evalBool sc now e' r); simpl; [|done]. by rewrite Hp. }
  induction e as [| | | | |l IHl rr IHr|l IHl rr IHr|x IH| | |]; intros Hpos;
    try (by apply Heq); simpl in Hpos.
  - apply andb_true_iff in Hpos as [H1 H2]. specialize (IHl H1). specialize (IHr H2).
    unfold evalBool in *. simpl.
    destruct (evalBoolCtx sc now r None l) as [[lt ln]|el] eqn:El, (kleene sc now r l) as [tl|el'];
      simpl in *; simplify_eq; [|done].
    destruct (evalBoolCtx sc now r None rr) as [[rt rn]|er] eqn:Er, (kleene sc now r rr) as [tr|er'];
      simpl in *; simplify_eq; [|done].
    pose proof (evalBool_null_false _ _ _ _ _ _ El). pose proof (evalBool_null_false _ _ _ _ _ _ Er).
    unfold passes in *. simpl in *.
    destruct lt, ln, rt, rn, tl as [[]|], tr as [[]|]; try done; naive_solver.
  - apply andb_true_iff in Hpos as [H1 H2]. specialize (IHl H1). specialize (IHr H2).
    unfold evalBool in *. simpl.
    destruct (evalBoolCtx sc now r None l) as [[lt ln]|el] eqn:El, (kleene sc now r l) as [tl|el'];
      simpl in *; simplify_eq; [|done].
    destruct (evalBoolCtx sc now r None rr) as [[rt rn]|er] eqn:Er, (kleene sc now r rr) as [tr|er'];
      simpl in *; simplify_eq; [|done].
    pose proof (evalBool_null_false _ _ _ _ _ _ El). pose proof (evalBool_null_false _ _ _ _ _ _ Er).
    unfold passes in *. simpl in *.
    destruct lt, ln, rt, rn, tl as [[]|], tr as [[]|]; try done; naive_solver.
  - apply Heq. by apply kleene_no_and.
Qed.

Lemma where_kleene_witness :
  let e := And (Or (Lit VNull) (Lit (VBool true))) (Not (Or (Lit VNull) (Lit (VBool false)))) in
  passes <$> evalBool [] VNull e [] = (λ t, bool_decide (t = Some true)) <$> kleene [] VNull [] e.
Proof. intros e. apply (where_kleene [] VNull [] e). reflexivity. Defined.

(** AND itself is not Kleene's when an operand is NULL: NULL AND TRUE is FALSE
    and NULL AND FALSE is NULL, so that under NOT a row passes that should
    not. *)
Example and_not_kleene :
  evalBool [] VNull (And (Lit VNull) (Lit (VBool true))) [] = Ok (false, false) ∧
  evalBool [] VNull (And (Lit VNull) (Lit (VBool false))) [] = Ok (false, true) ∧
  passes <$> evalBool [] VNull (Not (And (Lit VNull) (Lit (VBool true)))) [] = Ok true ∧
  kleene [] VNull [] (Not (And (Lit VNull) (Lit (VBool true)))) = Ok None.
Proof. repeat split. Qed.

(** ** Name resolution *)
Lemma colIndexMap_Some def n i :
  colIndexMap def !! n = Some i → ∃ c, td_Cols def !! i = Some c ∧ Name c = n.
Proof.
  unfold colIndexMap.
  assert (∀ l (m : gmap string nat),
    (∀ ic, ic ∈ l → td_Cols def !! ic.1 = Some ic.2) →
    (∀ n i, m !! n = Some i → ∃ c, td_Cols def !! i = Some c ∧ Name c = n) →
    ∀ n i, foldl (λ m (ic : nat * Column), <[Name ic.2 := ic.1]> m) m l !! n = Some i →
      ∃ c, td_Cols def !! i = Some c ∧ Name c = n) as Hgen.
  { induction l as [|[j c] l IH]; intros m Hl Hm n' i'; simpl; [apply Hm|].
    apply IH; [set_solver|]. intros n0 i0. simpl.
    intros [[<- <-]|[_ ?]]%lookup_insert_Some; [|by apply Hm].
    exists c. split; [|done]. by apply (Hl (j, c)), list_elem_of_here. }
  apply Hgen; [|by intros ?? ?%lookup_empty_Some].
  intros [j c] [k Hk]%list_elem_of_lookup. apply lookup_zip_with_Some in Hk as (j' & c' & [= <- <-] & Hj & Hc).
  apply lookup_seq in Hj as [-> _]. done.
Qed.

Lemma colIndexMap_is_Some def n :
  is_Some (colIndexMap def !! n) ↔ ∃ c, c ∈ td_Cols def ∧ Name c = n.
Proof.
  split.
  { intros [i (c & Hc & Hn)%colIndexMap_Some]. exists c. split; [|done].
    by eapply list_elem_of_lookup_2. }
  intros (c & [k Hk]%list_elem_of_lookup & <-). unfold colIndexMap.
  assert (∀ l (m : gmap string nat), is_Some (m !! Name c) ∨ (∃ j, (j, c) ∈ l) →
    is_Some (foldl (λ m (ic : nat * Column), <[Name ic.2 := ic.1]> m) m l !! Name c)) as Hgen.
  { induction l as [|[j c'] l IH]; intros m; simpl; [set_solver|].
    intros H. apply IH. destruct (decide (Name c' = Name c)) as [->|Hne].
    - left. rewrite lookup_insert_eq. eauto.
    - destruct H as [H|(j' & [[= _ <-]|Hj]%elem_of_cons)]; [|done|eauto].
      left. by rewrite lookup_insert_ne. }
  apply Hgen. right. exists k. apply (list_elem_of_lookup_2 _ k), lookup_zip_with_Some.
  exists k, c. split; [done|]. split; [|done]. apply lookup_seq. split; [lia|].
  by apply lookup_lt_Some in Hk.
Qed.

(** A table of the scope that has the column. *)
Definition has_col (t : joinTable) (name : string) : Prop :=
  ∃ c, c ∈ td_Cols (jt_def t) ∧ Name c = name.

Lemma resolveQualified_Ok sc t n p :
  resolveQualified sc t n = Ok p →
  ∃ jt i c, jt ∈ sc ∧ jt_alias jt = t ∧ p = jt_basePos jt + i ∧
    td_Cols (jt_def jt) !! i = Some c ∧ Name c = n.
Proof.
  induction sc as [|jt sc IH]; simpl; [done|]. case_bool_decide as Ha.
  - destruct (jt_colIdx jt !! n) as [i|] eqn:Ei; [|done]. intros [= <-].
    apply colIndexMap_Some in Ei as (c & Hc & Hn). exists jt, i, c. set_solver.
  - intros (jt' & i & c & H)%IH. exists jt', i, c. set_solver.
Qed.

Lemma positions_elem sc n p :
  p ∈ positions sc n → ∃ jt i c, jt ∈ sc ∧ p = jt_basePos jt + i ∧
    td_Cols (jt_def jt) !! i = Some c ∧ Name c = n.
Proof.
  unfold positions. intros (jt & Hjt & (i & Hi & ->)%fmap_Some)%list_elem_of_omap.
  apply colIndexMap_Some in Hi as (c & Hc & Hn). eauto 10.
Qed.

Lemma positions_length sc n :
  length (positions sc n) = length (filter (λ t, is_Some (jt_colIdx t !! n)) sc).
Proof.
  unfold positions. induction sc as [|t sc IH]; [done|].
  destruct (jt_colIdx t !! n) as [i|] eqn:E.
  - rewrite filter_cons_True by eauto. simpl. rewrite E. simpl. by f_equal.
  - rewrite filter_cons_False by (rewrite E; by intros [? ?]). simpl. by rewrite E.
Qed.

Lemma resolve_Ok sc t n p :
  resolve sc t n = Ok p →
  ∃ jt i c, jt ∈ sc ∧ (t = "" ∨ jt_alias jt = t) ∧ p = jt_basePos jt + i ∧
    td_Cols (jt_def jt) !! i = Some c ∧ Name c = n.
Proof.
  unfold resolve. case_bool_decide as Ht.
  - intros (jt & i & c & ? & ? & ?)%resolveQualified_Ok. eauto 10.
  - destruct (positions sc n) as [|p' [|]] eqn:E; try done. intros [= <-].
    destruct (positions_elem sc n p') as (jt & i & c & H); [rewrite E; set_solver|].
    exists jt, i, c. destruct_and! H. auto 10.
Qed.

(** Name resolution: a resolved reference is the position of a column with
    that name in a table of the scope, of the named alias if it is qualified;
    an unqualified name resolves exactly if one table of the scope has it, and
    is an error (unknown or ambiguous) otherwise. *)
Theorem resolve_spec (sc : joinScope) (t n : string) :
  (∀ p, resolve sc t n = Ok p →
    ∃ jt i c, jt ∈ sc ∧ (t = "" ∨ jt_alias jt = t) ∧ p = jt_basePos jt + i ∧
      td_Cols (jt_def jt) !! i = Some c ∧ Name c = n) ∧
  (is_Ok (resolve sc "" n) ↔ length (filter (λ jt, is_Some (jt_colIdx jt !! n)) sc) = 1) ∧
  (∀ jt, is_Some (jt_colIdx jt !! n) ↔ has_col jt n).
Proof.
  split; [apply resolve_Ok|split].
  - rewrite <-positions_length. unfold resolve. simpl.
    destruct (positions sc n) as [|p [|]]; simpl; split; try done; try (by intros [? ?]).
    eexists. done.
  - intros jt. apply colIndexMap_is_Some.
Qed.

(** ** Validated expressions do not fail on names *)

(** The errors of a bad column reference. *)
Definition column_error (err : error) : Prop :=
  err = panicRow ∨ ∃ c f a, err = SQLError c f a ∧ (c = "42703" ∨ c = "42P01").

Definition scope_fits (sc : joinScope) (width : nat) : Prop :=
  ∀ jt, jt ∈ sc → jt_basePos jt + length (td_Cols (jt_def jt)) ≤ width.

Lemma resolve_in_row sc t n p (r : row) :
  scope_fits sc (length r) → resolve sc t n = Ok p → is_Some (r !! p).
Proof.
  intros Hw (jt & i & c & Hjt & _ & -> & Hi & _)%resolve_Ok.
  apply lookup_lt_is_Some_2. specialize (Hw _ Hjt). apply lookup_lt_Some in Hi. lia.
Qed.

Lemma arithmetic_error op l r err : arithmetic op l r = Err err → ¬ column_error err.
Proof.
  unfold arithmetic, column_error. intros H.
  repeat (case_match; simplify_eq/=; try done); intros [?|(c & f & a & ? & [?|?])]; simplify_eq.
Qed.

Lemma evalValue_validated sc now r e err :
  scope_fits sc (length r) → validateExpr sc e = Ok tt →
  evalValue sc now e r = Err err → ¬ column_error err.
Proof.
  unfold evalValue. intros Hw. revert err.
  assert (∀ c f a, c ≠ "42703" → c ≠ "42P01" → ¬ column_error (SQLError c f a)) as Hne.
  { intros c f a H1 H2 [?|(c' & f' & a' & [= -> -> ->] & [?|?])]; done. }
  induction e; intros err Hv He; simpl in *; try (injection He as <-; by apply Hne);
    try discriminate He.
  - destruct (resolve sc Table Name) as [p|] eqn:Er; [|done]. simpl in He.
    destruct (resolve_in_row _ _ _ _ _ Hw Er) as [v Hr]. unfold row_at in He. by rewrite Hr in He.
  - case_bool_decide; [done|]. destruct (IsAggregateFunc Name); [done|]. done.
  - destruct (validateExpr sc e1) as [[]|] eqn:Hv1; [|done]. simpl in Hv.
    destruct (evalValueCtx sc now r None e1) as [lv|] eqn:E1; simpl in He; [|by simplify_eq; eauto].
    destruct (evalValueCtx sc now r None e2) as [rv|] eqn:E2; simpl in He; [|by simplify_eq; eauto].
    destruct (IsNull lv || IsNull rv); [done|]. by eapply arithmetic_error.
Qed.

Lemma in_list_validated v l b err : all_literals l = Ok tt → in_list v l b = Err err → False.
Proof.
  revert b. induction l as [|[] l IH]; intros b Hl He; simpl in *; try done.
  destruct (IsNull V); [by eapply IH|]. destruct (_ =? _)%Z; [done|by eapply IH].
Qed.

Lemma cmp_op_error op c err : cmp_op op c = Err err → ¬ column_error err.
Proof.
  unfold cmp_op, column_error. intros H.
  repeat (case_match; simplify_eq/=; try done); intros [?|(c' & f & a & ? & [?|?])]; simplify_eq.
Qed.

Lemma evalBool_validated sc now r e err :
  scope_fits sc (length r) → validateExpr sc e = Ok tt → evalBool sc now e r = Err err → ¬ column_error err.
Proof.
  intros Hw Hv He. revert err Hv He. unfold evalBool.
  assert (∀ c f a, c ≠ "42703" → c ≠ "42P01" → ¬ column_error (SQLError c f a)) as Hne.
  { intros c f a H1 H2 [?|(c' & f' & a' & [= -> -> ->] & [?|?])]; done. }
  pose proof (λ e err, evalValue_validated sc now r e err Hw) as Hval. unfold evalValue in Hval.
  assert (∀ e1 e2 (P : Prop), (validateExpr sc e1 ≫= λ _, validateExpr sc e2) = Ok tt →
    (validateExpr sc e1 = Ok tt → validateExpr sc e2 = Ok tt → P) → P) as Hboth.
  { intros e1 e2 P H HP. destruct (validateExpr sc e1) as [[]|]; [|done]. auto. }
  induction e; intros err Hv He; simpl in Hv, He; try (injection He as <-; by apply Hne).
  - destruct V; simplify_eq; by apply Hne.
  - eapply Hboth; [done|]. intros H1 H2.
    destruct (evalValueCtx sc now r None e1) eqn:E1; simpl in He; [|simplify_eq; eauto].
    destruct (evalValueCtx sc now r None e2) eqn:E2; simpl in He; [|simplify_eq; eauto].
    destruct (_ || _); [done|]. destruct (cmp_op _ _) eqn:Ec; simpl in He; [done|].
    simplify_eq. by eapply cmp_op_error.
  - destruct (evalValueCtx sc now r None e) eqn:E1; simpl in He; [done|simplify_eq; eauto].
  - eapply Hboth; [done|]. intros H1 H2.
    destruct (evalBoolCtx sc now r None e1) as [[]|] eqn:E1; simpl in He; [|simplify_eq; eauto].
    destruct (evalBoolCtx sc now r None e2) as [[]|] eqn:E2; simpl in He; [|simplify_eq; eauto].
    by destruct (_ || _).
  - eapply Hboth; [done|]. intros H1 H2.
    destruct (evalBoolCtx sc now r None e1) as [[]|] eqn:E1; simpl in He; [|simplify_eq; eauto].
    destruct (evalBoolCtx sc now r None e2) as [[]|] eqn:E2; simpl in He; [|simplify_eq; eauto].
    by destruct (_ || _).
  - destruct (evalBoolCtx sc now r None e) as [[? []]|] eqn:E1; simpl in He; [done|done|simplify_eq; eauto].
  - pose proof (Hval (Binary Op e1 e2)) as Hb. simpl in Hb.
    destruct (evalValueCtx sc now r None e1 ≫= _) as [v|] eqn:Eb; simpl in He.
    + destruct v; simplify_eq; by apply Hne.
    + simplify_eq. by apply (Hb err).
  - destruct (validateExpr sc e) as [[]|] eqn:Hv1; [|done]. simpl in Hv.
    destruct (evalValueCtx sc now r None e) as [v|] eqn:E1; simpl in He; [|simplify_eq; eauto].
    destruct (IsNull v); [done|]. destruct (in_list v List false) as [[m h]|] eqn:Ei; simpl in He.
    + by destruct (_ && _).
    + by destruct (in_list_validated _ _ _ _ Hv Ei).
Qed.

(** Unknown and ambiguous columns are found before any row is read: once
    an expression has been validated against a scope, evaluating it on a row as
    wide as the scope never fails on a column reference and never indexes
    outside the row. *)
Theorem validated_columns (sc : joinScope) (now : Value) (r : row) (e : Expr) (err : error) :
  scope_fits sc (length r) → validateExpr sc e = Ok tt →
  evalBool sc now e r = Err err ∨ evalValue sc now e r = Err err → ¬ column_error err.
Proof. intros Hw Hv [He|He]; [by eapply evalBool_validated|by eapply evalValue_validated]. Qed.

Definition users_def : TableDef := MkTableDef "users" demo_cols.
Definition users_scope : joinScope := singleTableScope users_def.

Lemma validated_columns_witness :
  ∃ err, evalBool users_scope VNull (Cmp "~" (ColRef "" "id") (Lit (VInt 1))) [VInt 1; VText "a"] = Err err ∧
  ¬ column_error err.
Proof.
  eexists. split; [vm_compute; reflexivity|].
  apply (validated_columns users_scope VNull [VInt 1; VText "a"]
           (Cmp "~" (ColRef "" "id") (Lit (VInt 1)))).
  - intros jt Hjt. unfold users_scope, singleTableScope in Hjt.
    apply list_elem_of_singleton in Hjt as ->. simpl. lia.
  - vm_compute. reflexivity.
  - left. vm_compute. reflexivity.
Defined.

(** ** Aggregates *)

(** The values an aggregate ranges over: the column without NULLs. *)
Definition column (rows : list row) (pos : nat) : list Value :=
  omap (λ r : row, match r !! pos with
                   | Some v => if IsNull v then None else Some v
                   | None => None
                   end) rows.

Definition rows_wide (rows : list row) (pos : nat) : Prop := Forall (λ r : row, pos < length r) rows.

Lemma column_cons r rows pos v :
  r !! pos = Some v →
  column (r :: rows) pos = (if IsNull v then [] else [v]) ++ column rows pos.
Proof. intros Hv. unfold column. simpl. rewrite Hv. by destruct (IsNull v). Qed.

Lemma count_spec rows pos :
  rows_wide rows pos → count_nonnull rows (Some pos) = Ok (Z.of_nat (length (column rows pos))).
Proof.
  induction 1 as [|r rows Hr _ IH]; [done|].
  destruct (lookup_lt_is_Some_2 r pos Hr) as [v Hv]. rewrite (column_cons _ _ _ v) by done.
  simpl. unfold row_at. rewrite Hv. simpl. rewrite IH. simpl. f_equal.
  destruct (IsNull v); simpl; lia.
Qed.

Definition value_int (v : Value) : Z := match v with VInt i => i | _ => 0%Z end.
Definition all_ints (vs : list Value) : Prop := Forall (λ v, kind v = KindInt) vs.

Lemma wrap64_add a b : wrap64 (wrap64 a + b) = wrap64 (a + b).
Proof.
  unfold wrap64. f_equal.
  replace ((a + 2 ^ 63) mod 2 ^ 64 - 2 ^ 63 + b + 2 ^ 63)%Z with ((a + 2 ^ 63) mod 2 ^ 64 + b)%Z by lia.
  rewrite Z.add_mod_idemp_l by lia. f_equal. lia.
Qed.

Lemma sum_loop_ints rows pos acc f any :
  rows_wide rows pos → all_ints (column rows pos) →
  sum_loop rows (Some pos) (wrap64 acc) f any true =
    Ok (wrap64 (acc + foldr Z.add 0 (value_int <$> column rows pos))%Z, f,
        any || negb (bool_decide (column rows pos = [])), true).
Proof.
  intros Hw. revert acc any. induction Hw as [|r rows Hr _ IH]; intros acc any Hi.
  { simpl. by rewrite Z.add_0_r, orb_false_r. }
  destruct (lookup_lt_is_Some_2 r pos Hr) as [v Hv]. rewrite (column_cons _ _ _ v) in Hi |- * by done.
  apply Forall_app in Hi as [Hi1 Hi2]. simpl. unfold row_at. rewrite Hv. simpl.
  destruct v as [|i| | | |]; simpl in *; [by rewrite IH| |by inversion Hi1..].
  rewrite wrap64_add, IH by done. simpl. rewrite orb_true_r, Z.add_assoc. done.
Qed.

(** The candidate [b] for a minimum or maximum of [vs]. *)
Definition extreme (is_min : bool) (b : Value) (vs : list Value) : Prop :=
  b ∈ vs ∧ ∀ v, v ∈ vs → if is_min then (Compare b v ≤ 0)%Z else (0 ≤ Compare b v)%Z.

Lemma extreme_step is_min b v vs :
  Forall no_nan (v :: vs) → extreme is_min b vs →
  extreme is_min (if (if is_min then (Compare v b <? 0)%Z else (0 <? Compare v b)%Z) then v else b)
    (vs ++ [v]).
Proof.
  intros Hn [Hin Hb]. rewrite Forall_forall in Hn.
  assert (no_nan v) by (apply Hn; set_solver). assert (no_nan b) by (apply Hn; set_solver).
  destruct (Compare_preorder v b b) as (Hvv & Hanti & _ & _); [done..|].
  split.
  { destruct is_min; destruct (_ <? _)%Z; set_solver. }
  intros w Hw. apply elem_of_app in Hw as [Hw|Hw%list_elem_of_singleton].
  - assert (no_nan w) by (apply Hn; set_solver). specialize (Hb _ Hw).
    destruct (Compare_preorder v b w) as (_ & _ & _ & Htr1); [done..|].
    destruct (Compare_preorder w b v) as (_ & Ha1 & _ & Htr2); [done..|].
    destruct (Compare_preorder w v v) as (_ & Ha2 & _ & _); [done..|].
    destruct is_min.
    + destruct (Z.ltb_spec (Compare v b) 0); [|done]. apply Htr1; [lia|done].
    + destruct (Z.ltb_spec 0 (Compare v b)); [|done].
      assert (Compare w v ≤ 0)%Z by (apply Htr2; lia). lia.
  - subst w. destruct is_min.
    + destruct (Z.ltb_spec (Compare v b) 0); lia.
    + destruct (Z.ltb_spec 0 (Compare v b)); lia.
Qed.

Lemma extremum_loop_spec is_min rows pos b vs :
  rows_wide rows pos → Forall no_nan (vs ++ column rows pos) → extreme is_min b vs →
  ∃ b', extremum_loop is_min rows (Some pos) (Some b) = Ok (Some b') ∧
    extreme is_min b' (vs ++ column rows pos).
Proof.
  intros Hw. revert b vs. induction Hw as [|r rows Hr _ IH]; intros b vs Hn Hb.
  { exists b. simpl. by rewrite app_nil_r. }
  destruct (lookup_lt_is_Some_2 r pos Hr) as [v Hv]. rewrite (column_cons _ _ _ v) in Hn |- * by done.
  simpl. unfold row_at. rewrite Hv. simpl. destruct (IsNull v); simpl in *; [by apply IH|].
  change (v :: column rows pos) with ([v] ++ column rows pos) in *.
  rewrite (app_assoc vs [v]) in Hn |- *.
  assert (Forall no_nan (v :: vs)) as Hn'.
  { apply Forall_app in Hn as [[H1 H2]%Forall_app _]. constructor; [by inversion H2|done]. }
  pose proof (extreme_step is_min b v vs Hn' Hb) as Hst.
  destruct (if is_min then _ else _); by apply IH.
Qed.

(** C37: Aggregates over a column, NULLs skipped: COUNT is the number of values,
    SUM of integers is their sum (modulo 2^64, as Go adds), MIN and MAX are
    values of the column that no other is below or above, and SUM, MIN and MAX
    of no values are NULL. *)
Theorem aggregates_correct (rows : list row) (pos : nat) :
  rows_wide rows pos →
  let vs := column rows pos in
  evalAggregate "count" false rows (Some pos) = Ok (VInt (Z.of_nat (length vs))) ∧
  (all_ints vs → evalAggregate "sum" false rows (Some pos) =
     Ok (if bool_decide (vs = []) then VNull else VInt (wrap64 (foldr Z.add 0 (value_int <$> vs))%Z))) ∧
  (Forall no_nan vs → ∀ is_min : bool,
     match evalAggregate (if is_min then "min" else "max") false rows (Some pos) with
     | Ok b => (vs = [] ∧ b = VNull) ∨ extreme is_min b vs
     | Err _ => False
     end).
Proof.
  intros Hw vs. split; [|split].
  - unfold evalAggregate. simpl. by rewrite count_spec.
  - intros Hi. unfold evalAggregate. simpl. change 0%Z with (wrap64 0) at 1.
    rewrite sum_loop_ints by done. simpl. fold vs. by case_bool_decide.
  - intros Hn is_min.
    assert (evalAggregate (if is_min then "min" else "max") false rows (Some pos) =
      best ← extremum_loop is_min rows (Some pos) None; Ok (default VNull best)) as -> by (by destruct is_min).
    unfold vs in *. clear vs. induction Hw as [|r rows Hr Hw' IH]; [by left|].
    destruct (lookup_lt_is_Some_2 r pos Hr) as [v Hv]. rewrite (column_cons _ _ _ v) in Hn |- * by done.
    simpl. unfold row_at. rewrite Hv. simpl. destruct (IsNull v); simpl in *; [by apply IH|].
    inversion Hn as [|? ? Hv1 Hv2]; subst.
    destruct (extremum_loop_spec is_min rows pos v [v]) as (b' & -> & Hb'); [done|by constructor| |].
    + split; [set_solver|]. intros w ->%list_elem_of_singleton.
      destruct (Compare_preorder v v v) as (-> & _); [done..|]. by destruct is_min.
    + simpl. by right.
Qed.

Lemma aggregates_correct_witness :
  evalAggregate "sum" false [[VInt 2; VNull]; [VInt 3; VNull]; [VNull; VNull]] (Some 0) = Ok (VInt 5).
Proof.
  destruct (aggregates_correct [[VInt 2; VNull]; [VInt 3; VNull]; [VNull; VNull]] 0) as (_ & H & _).
  - repeat constructor; simpl; lia.
  - rewrite H; [reflexivity|]. repeat constructor.
Defined.

(** ** Arithmetic on integers

    The test for a zero divisor goes through a float, so that an [int64] that
    is not zero must not round to zero: a shift right in the rounding never
    takes all the bits of the mantissa. *)
Lemma shr_1_m (r : shr_record) : (0 ≤ shr_m r)%Z → shr_m (shr_1 r) = (shr_m r / 2)%Z.
Proof.
  destruct r as [m b s]. simpl. destruct m as [|[p|p|]|p]; intros H; try done.
  - change (Zpos p = Zpos p~1 / 2)%Z. rewrite (Pos2Z.inj_xI p).
    apply (Z.div_unique _ _ _ 1); lia.
  - change (Zpos p = Zpos p~0 / 2)%Z. rewrite (Pos2Z.inj_xO p).
    apply (Z.div_unique _ _ _ 0); lia.
Qed.

Lemma iter_shr_1_m n : ∀ r : shr_record,
  (0 ≤ shr_m r)%Z → shr_m (iter_pos shr_1 n r) = (shr_m r / 2 ^ Zpos n)%Z.
Proof.
  induction n as [n IH|n IH|]; intros r Hr; simpl iter_pos.
  - assert (0 ≤ shr_m (shr_1 r))%Z as H1 by (rewrite shr_1_m by done; apply Z.div_pos; lia).
    assert (0 ≤ shr_m (iter_pos shr_1 n (shr_1 r)))%Z as H2 by (rewrite IH by done; apply Z.div_pos; lia).
    rewrite (IH _ H2), (IH _ H1), shr_1_m, !Z.div_div by lia.
    f_equal. replace (Zpos n~1) with (1 + Zpos n + Zpos n)%Z by lia. rewrite !Z.pow_add_r by lia. lia.
  - assert (0 ≤ shr_m (iter_pos shr_1 n r))%Z as H2 by (rewrite IH by done; apply Z.div_pos; lia).
    rewrite (IH _ H2), (IH _ Hr), Z.div_div by lia.
    f_equal. replace (Zpos n~0) with (Zpos n + Zpos n)%Z by lia. by rewrite Z.pow_add_r.
  - by apply shr_1_m.
Qed.

Lemma shr_fexp_pos m e l :
  (0 < m)%Z → (0 ≤ e)%Z →
  (0 < shr_m (shr_fexp 53 1024 m e l).1)%Z ∧ (0 ≤ (shr_fexp 53 1024 m e l).2)%Z.
Proof.
  intros Hm He. unfold shr_fexp, shr.
  assert (shr_m (shr_record_of_loc m l) = m) as Hr by (by destruct l as [|[]]).
  destruct (fexp 53 1024 (Zdigits2 m + e) - e)%Z as [|n|n] eqn:En; cbn [fst snd]; rewrite ?Hr; [lia| |lia].
  split; [|lia]. rewrite iter_shr_1_m, Hr by lia. destruct m as [|p|p]; [lia| |lia].
  apply Z.div_str_pos. split; [lia|]. destruct (digits2_pos_bounds p) as [Hb _].
  transitivity (2 ^ (Zpos (digits2_pos p) - 1))%Z; [|done]. apply Z.pow_le_mono_r; [lia|].
  unfold fexp, emin, Zdigits2 in En. lia.
Qed.

Lemma round_nearest_even_le m l : (m ≤ round_nearest_even m l)%Z.
Proof. destruct l as [|[]]; simpl; try destruct (Z.even m); lia. Qed.

(** Rounding an integer that is not zero does not give zero. *)
Lemma binary_round_nonzero s m :
  (53 < Zpos (digits2_pos m))%Z → ∀ s', binary_round 53 1024 s m 0 ≠ S754_zero s'.
Proof.
  intros Hd s'. unfold binary_round, shl_align, fexp, emin. rewrite Z.add_0_r, Z.sub_0_r, Z.max_l by lia.
  destruct (Zpos (digits2_pos m) - 53)%Z as [|p|p] eqn:Ep; [lia| |lia]. unfold binary_round_aux.
  destruct (shr_fexp_pos (Zpos m) 0 loc_Exact) as [H1 H2]; [lia..|].
  destruct (shr_fexp 53 1024 (Zpos m) 0 loc_Exact) as [r1 e1]. cbn [fst snd] in *.
  pose proof (round_nearest_even_le (shr_m r1) (loc_of_shr_record r1)).
  destruct (shr_fexp_pos (round_nearest_even (shr_m r1) (loc_of_shr_record r1)) e1 loc_Exact) as [H3 _]; [lia..|].
  destruct (shr_fexp 53 1024 (round_nearest_even _ _) e1 loc_Exact) as [r2 e2]. cbn [fst] in *.
  destruct (shr_m r2); [lia| |done]. by destruct (e2 <=? _)%Z.
Qed.

Lemma f64_eqb_zero f : f64_eqb f f64_zero = true → ∃ s, f = S754_zero s.
Proof. destruct f as [s|[]| |[] ? ?]; try done. by exists s. Qed.

Lemma f64_of_int_zero j : f64_eqb (f64_of_int j) f64_zero = (j =? 0)%Z.
Proof.
  destruct (decide (- 2 ^ 53 < j < 2 ^ 53)%Z) as [Hj|Hj].
  - pose proof (f64_rank_small j Hj) as Hr. unfold f64_eqb, SFeqb.
    rewrite SFcompare_rank by (apply f64_of_int_not_nan || done). rewrite Hr. by destruct j.
  - assert ((j =? 0)%Z = false) as -> by lia. apply not_true_iff_false. intros [s Hs]%f64_eqb_zero.
    unfold f64_of_int, binary_normalize in Hs.
    assert (∀ m, (2 ^ 53 ≤ Zpos m)%Z → 53 < Zpos (digits2_pos m))%Z as Hd.
    { intros m Hm. destruct (digits2_pos_bounds m) as [_ Hb].
      assert (2 ^ 53 < 2 ^ Zpos (digits2_pos m))%Z as Hlt by lia. apply Z.pow_lt_mono_r_iff in Hlt; lia. }
    destruct j as [|m|m]; [lia|..]; (eapply binary_round_nonzero; [|exact Hs]; apply Hd; lia).
Qed.

Lemma wrap64_mod a : ∃ k, wrap64 a = (a + k * 2 ^ 64)%Z.
Proof.
  exists (- ((a + 2 ^ 63) / 2 ^ 64))%Z. unfold wrap64.
  pose proof (Z.div_mod (a + 2 ^ 63) (2 ^ 64) ltac:(lia)). lia.
Qed.

Lemma wrap64_period a k : wrap64 (a + k * 2 ^ 64) = wrap64 a.
Proof.
  unfold wrap64. f_equal. replace (a + k * 2 ^ 64 + 2 ^ 63)%Z with (a + 2 ^ 63 + k * 2 ^ 64)%Z by lia.
  by apply Z.mod_add.
Qed.

Lemma quot_in_range i j :
  in_int64 i → j ≠ 0%Z → (i, j) ≠ (int64_min, -1)%Z → in_int64 (Z.quot i j).
Proof.
  intros Hi Hj Hne. unfold in_int64, int64_min, int64_max in *.
  assert (Z.abs j * Z.abs (Z.quot i j) ≤ Z.abs i)%Z as Hle.
  { rewrite <-Z.quot_abs by done. apply Z.mul_quot_le; lia. }
  destruct (decide (Z.abs j = 1)%Z) as [H1|H1]; [|nia].
  assert (j = 1 ∨ j = -1)%Z as [->| ->] by lia; [rewrite Z.quot_1_r; lia|].
  assert (i ≠ - 2 ^ 63)%Z by congruence.
  change (-1)%Z with (- (1))%Z. rewrite Z.quot_opp_r, Z.quot_1_r by lia. lia.
Qed.

(** The result [z] of an [int64] operation whose exact value is [x]: an [int64]
    congruent to it modulo 2^64, and the exact value itself where that fits. *)
Definition int64_result (x z : Z) : Prop :=
  in_int64 z ∧ (∃ k, z = x + k * 2 ^ 64)%Z ∧ (in_int64 x → z = x).

Lemma wrap64_result x : int64_result x (wrap64 x).
Proof. split; [apply wrap64_range|]. split; [apply wrap64_mod|apply wrap64_id]. Qed.

(** The remainder fits, and with the wrapped quotient gives back the dividend. *)
Lemma quot_rem_wrap i j :
  in_int64 i → in_int64 j → j ≠ 0%Z →
  in_int64 (Z.rem i j) ∧ (∃ k, j * wrap64 (Z.quot i j) + Z.rem i j = i + k * 2 ^ 64)%Z.
Proof.
  intros Hi Hj Hne. split.
  - pose proof (Z.rem_bound_abs i j Hne). unfold in_int64, int64_min, int64_max in *. lia.
  - destruct (wrap64_mod (Z.quot i j)) as [k ->]. exists (j * k)%Z.
    rewrite (Z.quot_rem i j) at 3 by done. lia.
Qed.

(** C38: Arithmetic on two [int64] values: the result of addition, subtraction
    and multiplication is an [int64], congruent to the exact value modulo 2^64,
    and exact where that value is an [int64]; division by zero, and only that,
    is an error (whatever the size of the divisor, although the test goes
    through a float); otherwise quotient and remainder are [int64], the
    quotient truncates towards zero except for the smallest integer divided by
    -1, where it wraps, and the remainder is smaller than the divisor, has the
    sign of the dividend, and pairs with the quotient. *)
Theorem arithmetic_int (i j : Z) :
  in_int64 i → in_int64 j →
  (∃ z, arithmetic "+" (VInt i) (VInt j) = Ok (VInt z) ∧ int64_result (i + j) z) ∧
  (∃ z, arithmetic "-" (VInt i) (VInt j) = Ok (VInt z) ∧ int64_result (i - j) z) ∧
  (∃ z, arithmetic "*" (VInt i) (VInt j) = Ok (VInt z) ∧ int64_result (i * j) z) ∧
  (j = 0%Z → arithmetic "/" (VInt i) (VInt j) = Err (SQLError "22012" "division by zero" []) ∧
             arithmetic "%" (VInt i) (VInt j) = Err (SQLError "22012" "division by zero" [])) ∧
  (j ≠ 0%Z → ∃ q m, arithmetic "/" (VInt i) (VInt j) = Ok (VInt q) ∧
     arithmetic "%" (VInt i) (VInt j) = Ok (VInt m) ∧ in_int64 q ∧ in_int64 m ∧
     (∃ k, j * q + m = i + k * 2 ^ 64)%Z ∧ (Z.abs m < Z.abs j)%Z ∧ (0 ≤ m * i)%Z ∧
     ((i, j) ≠ (int64_min, -1)%Z → (j * q + m = i)%Z)).
Proof.
  intros Hi Hj. do 3 (split; [eexists; split; [reflexivity|apply wrap64_result]|]).
  unfold arithmetic. cbn [is_num num_f64 negb orb].
  rewrite f64_of_int_zero. split; [by intros ->|]. intros Hne.
  assert ((j =? 0)%Z = false) as -> by (by apply Z.eqb_neq). rewrite !andb_false_r. cbn.
  destruct (quot_rem_wrap i j Hi Hj Hne) as [Hrem Hqr].
  exists (wrap64 (Z.quot i j)), (Z.rem i j). rewrite (wrap64_id (Z.rem i j)) by done.
  split_and!; [done|done|apply wrap64_range|done|done|by apply Z.rem_bound_abs| |].
  - by apply Z.rem_sign_mul.
  - intros Hno. rewrite wrap64_id by (by apply quot_in_range). symmetry. by apply Z.quot_rem.
Qed.

(** Also for a divisor that no float represents. *)
Lemma arithmetic_int_witness :
  ∃ q m, arithmetic "/" (VInt (- 2 ^ 63)) (VInt (2 ^ 53 + 1)) = Ok (VInt q) ∧
    arithmetic "%" (VInt (- 2 ^ 63)) (VInt (2 ^ 53 + 1)) = Ok (VInt m) ∧
    ((2 ^ 53 + 1) * q + m = - 2 ^ 63)%Z.
Proof.
  destruct (arithmetic_int (- 2 ^ 63) (2 ^ 53 + 1)) as (_ & _ & _ & _ & H).
  - unfold in_int64, int64_min, int64_max. lia.
  - unfold in_int64, int64_min, int64_max. lia.
  - destruct H as (q & m & H1 & H2 & _ & _ & _ & _ & _ & H3); [done|]. exists q, m.
    split; [exact H1|]. split; [exact H2|]. apply H3. discriminate.
Defined.
