(* ===== verification/Exec.v ===== *)
(** * Data manipulation (executor/executor.go: DDL, foreign keys, INSERT,
    UPDATE, DELETE)

    The statements run against any [Accessor], the engine or a transaction, as
    in the code; their theorems use its specification only.  A statement that
    fails half way leaves the writes it has done.

    A subquery of an IN is run by [execSelect], which calls back here; it is
    the argument [sel] of the definitions that reach it, and nothing is assumed
    of it: a query reads the accessor and does not change it. *)
From Stdlib Require Import Ascii.
From S2P Require Import Prelude GoStd Types Schema Wal Table Engine Txn Accessor Ast Eval.

Open Scope go_scope.

(** ** Results and errors *)
Record Result := MkResult {
  res_Columns : list string; res_Rows : list (list Value); res_Affected : Z }.

Definition errRelation (name : string) : error :=
  SQLError "42P01" "relation %s does not exist" [AStr name].
Definition errNotNull (col tbl : string) : error :=
  SQLError "23502" "null value in column %s of relation %s violates not-null constraint"
    [AStr col; AStr tbl].
Definition errDuplicate (tbl : string) : error :=
  SQLError "23505" "duplicate key value violates unique constraint on %s" [AStr tbl].
Definition errDuplicateID (tbl : string) (id : Z) : error :=
  SQLError "23505" "duplicate key value violates unique constraint on %s (id %d)" [AStr tbl; AInt id].

(** ** Helpers *)
Definition findDef (name : string) (defs : list TableDef) : option TableDef :=
  find (λ d, bool_decide (td_Name d = name)) defs.

(** The first position a predicate holds at. *)
Fixpoint findIndex {A} (p : A → bool) (l : list A) : option nat :=
  match l with
  | [] => None
  | x :: l => if p x then Some 0 else S <$> findIndex p l
  end.

Definition pkIndex (def : TableDef) : option nat := findIndex Primary (td_Cols def).

Definition timeLayouts : list (list time_field) :=
  [date_fields ++ [FSpace] ++ clock_fields; date_fields ++ [FChar "T"%char] ++ clock_fields; date_fields].

Fixpoint parseTimestamp (layouts : list (list time_field)) (s : string) : option Z :=
  match layouts with
  | [] => None
  | l :: ls => match ParseTime l s with Some t => Some t | None => parseTimestamp ls s end
  end.

Definition coerce (col : Column) (v : Value) : res Value :=
  let v' := match v with
            | VText s =>
                if bool_decide (Type_ col = TypeTimestamp) then
                  match parseTimestamp timeLayouts s with Some t => VTime t | None => v end
                else v
            | _ => v
            end in
  Check (Type_ col) v'.

Section exec.
  Context {S : Type} `{!Accessor S}.

Definition tableDef (name : string) (s : S) : res TableDef :=
  res_of_option (errRelation name) (findDef name (acc_Catalog s)).

(** ** Foreign keys *)
Fixpoint checkFKFrom (ci : nat) (cols : list Column) (tbl : string) (r : row) (s : S) : res unit :=
  match cols with
  | [] => Ok tt
  | c :: cols =>
      if bool_decide (FKTable c = "") then checkFKFrom (Datatypes.S ci) cols tbl r s
      else
        v ← row_at r ci;
        match v with
        | VNull => checkFKFrom (Datatypes.S ci) cols tbl r s
        | VInt i =>
            match acc_Get (FKTable c) i s with
            | None => Err (SQLError "23503" "insert or update on table %q violates foreign key constraint (no row %d in %q)"
                             [AStr tbl; AInt i; AStr (FKTable c)])
            | Some _ => checkFKFrom (Datatypes.S ci) cols tbl r s
            end
        | _ => Err (SQLError "23503" "foreign key value in column %q of table %q is not an integer"
                      [AStr (Name c); AStr tbl])
        end
  end.
Definition checkFK (def : TableDef) (r : row) (s : S) : res unit :=
  checkFKFrom 0 (td_Cols def) (td_Name def) r s.

(** Some row but the skipped one holds [pk] in column [ci]. *)
Definition references (tbl : string) (ci : nat) (pk : Z) (skipTable : string) (skipRow : Z)
    (ids : list Z) (rows : list row) : bool :=
  existsb (λ ir : Z * row,
    if bool_decide (tbl = skipTable ∧ ir.1 = skipRow) then false
    else bool_decide (ir.2 !! ci = Some (VInt pk))) (zip ids rows).

Fixpoint fkColumns (ci : nat) (cols : list Column) (tbl parent : string) (pk : Z)
    (skipTable : string) (skipRow : Z) (s : S) : res unit :=
  match cols with
  | [] => Ok tt
  | c :: cols =>
      if bool_decide (FKTable c = parent) then
        match acc_AllRows tbl s with
        | Err _ => fkColumns (Datatypes.S ci) cols tbl parent pk skipTable skipRow s
        | Ok (ids, rows) =>
            if references tbl ci pk skipTable skipRow ids rows then
              Err (SQLError "23503" "update or delete on table %q violates foreign key constraint (row referenced by %q)"
                     [AStr parent; AStr tbl])
            else fkColumns (Datatypes.S ci) cols tbl parent pk skipTable skipRow s
        end
      else fkColumns (Datatypes.S ci) cols tbl parent pk skipTable skipRow s
  end.

Definition fkReferenced (parent : string) (pk : Z) (skipTable : string) (skipRow : Z) (s : S) : res unit :=
  res_foreach (λ d, fkColumns 0 (td_Cols d) (td_Name d) parent pk skipTable skipRow s) (acc_Catalog s).

(** ** INSERT *)

(** The column positions an INSERT names, duplicates refused. *)
Fixpoint insertColumns (def : TableDef) (seen : list nat) (names : list string) : res (list nat) :=
  match names with
  | [] => Ok []
  | cn :: names =>
      match findIndex (λ c, bool_decide (Name c = cn)) (td_Cols def) with
      | None => Err (SQLError "42703" "column %s of relation %s does not exist" [AStr cn; AStr (td_Name def)])
      | Some i =>
          if bool_decide (i ∈ seen) then
            Err (SQLError "42703" "column %s specified more than once" [AStr cn])
          else idx ← insertColumns def (i :: seen) names; Ok (i :: idx)
      end
  end.

Definition insertIndex (def : TableDef) (names : list string) : res (list nat) :=
  if bool_decide (names = []) then Ok (seq 0 (length (td_Cols def))) else insertColumns def [] names.

Definition evalInsertValue (now : Value) (e : Expr) : res Value :=
  match e with
  | Lit v => Ok v
  | Func name _ _ =>
      if bool_decide (name = "now") then Ok now
      else Err (SQLError "42883" "function %s() is not supported in v1" [AStr name])
  | _ => Err (SQLError "0A000" "only literals are allowed in VALUES (v1)" [])
  end.

(** Evaluate and coerce the expressions of one row into their columns. *)
Fixpoint fillRow (now : Value) (def : TableDef) (idx : list nat) (es : list Expr) (r : row) : res row :=
  match idx, es with
  | i :: idx, e :: es =>
      v ← evalInsertValue now e;
      match td_Cols def !! i with
      | None => Err panicRow
      | Some c =>
          match coerce c v with
          | Err err => Err (SQLError "22P02" "column %s: %v" [AStr (Name c); AErr err])
          | Ok cv => fillRow now def idx es (<[i := cv]> r)
          end
      end
  | _, _ => Ok r
  end.

(** The id a row is stored under: [None] asks for an automatic one. *)
Definition insertID (def : TableDef) (tbl : string) (r : row) : res (option Z) :=
  match pkIndex def with
  | None => Ok (Some 0%Z)
  | Some pk =>
      v ← row_at r pk;
      match v, td_Cols def !! pk with
      | VNull, Some c => if AutoInc c then Ok None else Err (errNotNull (Name c) tbl)
      | VInt i, _ => Ok (Some i)
      | _, Some c => Err (SQLError "22P02" "column %s: primary key value must be integer" [AStr (Name c)])
      | _, None => Err panicRow
      end
  end.

(** NOT NULL of the other columns. *)
Fixpoint checkNotNull (i : nat) (cols : list Column) (tbl : string) (r : row) : res unit :=
  match cols with
  | [] => Ok tt
  | c :: cols =>
      if Primary c then checkNotNull (Datatypes.S i) cols tbl r
      else
        v ← row_at r i;
        if NotNull c && IsNull v then Err (errNotNull (Name c) tbl)
        else checkNotNull (Datatypes.S i) cols tbl r
  end.

Definition insertError (tbl : string) (id : Z) (err : error) : error :=
  match err with
  | ErrExists => errDuplicateID tbl id
  | ErrUnique => errDuplicate tbl
  | _ => err
  end.

(** Translate the error of a write. *)
Definition map_err {A} (f : error → error) (m : GoM S A) : GoM S A := λ s,
  match m s with (s', Err err) => (s', Err (f err)) | q => q end.

Definition insertOne (now : Value) (def : TableDef) (tbl : string) (idx : list nat)
    (ri : nat) (es : list Expr) : GoM S unit :=
  s <-- gget ;;
  glift (guard_err (bool_decide (length es ≠ length idx))
    (SQLError "21000" "INSERT has %d expressions but %d columns were specified (row %d)"
       [AInt (Z.of_nat (length es)); AInt (Z.of_nat (length idx)); AInt (Z.of_nat (ri + 1))])) ;;;
  r <-- glift (fillRow now def idx es (replicate (length (td_Cols def)) VNull)) ;;
  id <-- glift (insertID def tbl r) ;;
  glift (checkNotNull 0 (td_Cols def) tbl r) ;;;
  glift (checkFK def r s) ;;;
  map_err (insertError tbl (default 0%Z id))
    match id with
    | None => acc_PutAuto tbl (Z.of_nat (default 0 (pkIndex def))) r ;;; gret tt
    | Some id => acc_Put tbl id r ;;; gret tt
    end.

Fixpoint insertRows (now : Value) (def : TableDef) (tbl : string) (idx : list nat)
    (ri : nat) (rows : list (list Expr)) : GoM S unit :=
  match rows with
  | [] => gret tt
  | es :: rows =>
      insertOne now def tbl idx ri es ;;; insertRows now def tbl idx (ri + 1) rows
  end.

Definition execInsert (now : Value) (st : InsertStmt) : GoM S Result :=
  s <-- gget ;;
  def <-- glift (tableDef (in_Table st) s) ;;
  idx <-- glift (insertIndex def (in_Cols st)) ;;
  insertRows now def (in_Table st) idx 0 (in_Rows st) ;;;
  gret (MkResult [] [] (Z.of_nat (length (in_Rows st)))).

(** ** Subqueries of IN *)
Section subqueries.
  Context (sel : Select → S → res Result).

(** The values of a one-column result as literals. *)
Fixpoint firstColumn (rows : list (list Value)) : res (list Expr) :=
  match rows with
  | [] => Ok []
  | r :: rows => v ← row_at r 0; l ← firstColumn rows; Ok (Lit v :: l)
  end.

Fixpoint resolveInSubqueries (s : S) (e : Expr) : res Expr :=
  match e with
  | InSub x q neg =>
      rs ← sel q s;
      if bool_decide (length (res_Columns rs) ≠ 1) then
        Err (SQLError "42601" "IN subquery must select exactly one column in v2" [])
      else lits ← firstColumn (res_Rows rs); Ok (InList x lits neg)
  | Cmp op l r => l' ← resolveInSubqueries s l; r' ← resolveInSubqueries s r; Ok (Cmp op l' r')
  | And l r => l' ← resolveInSubqueries s l; r' ← resolveInSubqueries s r; Ok (And l' r')
  | Or l r => l' ← resolveInSubqueries s l; r' ← resolveInSubqueries s r; Ok (Or l' r')
  | Not x => x' ← resolveInSubqueries s x; Ok (Not x')
  | IsNullE x neg => x' ← resolveInSubqueries s x; Ok (IsNullE x' neg)
  | Binary op l r => l' ← resolveInSubqueries s l; r' ← resolveInSubqueries s r; Ok (Binary op l' r')
  | InList x l neg => x' ← resolveInSubqueries s x; Ok (InList x' l neg)
  | _ => Ok e
  end.

(** WHERE with its subqueries run and its columns checked. *)
Definition prepareWhere (sc : joinScope) (w : option Expr) (s : S) : res (option Expr) :=
  match w with
  | None => Ok None
  | Some e =>
      e' ← resolveInSubqueries s e;
      _ ← validateExpr sc e';
      Ok (Some e')
  end.

(** ** The rows a WHERE selects *)

(** [col = literal] on a UNIQUE column: its position and the literal coerced to
    its type. *)
Definition uniqueEquality (w : Expr) (alias : string) (def : TableDef) : option (nat * Value) :=
  let look (t n : string) (v : Value) :=
    if bool_decide (t ≠ "" ∧ t ≠ alias) then None
    else
      i ← findIndex (λ c, bool_decide (Name c = n) && Unique c) (td_Cols def);
      c ← td_Cols def !! i;
      match Check (Type_ c) v with Ok cv => Some (i, cv) | Err _ => None end in
  match w with
  | Cmp op (ColRef t n) (Lit v) => if bool_decide (op = "=") then look t n v else None
  | Cmp op (Lit v) (ColRef t n) => if bool_decide (op = "=") then look t n v else None
  | _ => None
  end.

Record candidate := MkCandidate { ca_id : Z; ca_row : row }.

Definition whereHolds (now : Value) (sc : joinScope) (w : option Expr) (r : row) : res bool :=
  match w with
  | None => Ok true
  | Some e => passes <$> evalBool sc now e r
  end.

Fixpoint scan (now : Value) (sc : joinScope) (w : option Expr) (ids : list Z) (rows : list row) :
    res (list candidate) :=
  match ids, rows with
  | id :: ids, r :: rows =>
      b ← whereHolds now sc w r;
      cs ← scan now sc w ids rows;
      Ok (if (b : bool) then MkCandidate id r :: cs else cs)
  | _, _ => Ok []
  end.

Definition collectScan (now : Value) (name : string) (sc : joinScope) (w : option Expr) (s : S) :
    res (list candidate) :=
  match acc_AllRows name s with
  | Err _ => Err (errRelation name)
  | Ok (ids, rows) => scan now sc w ids rows
  end.

Definition collectCandidates (now : Value) (name : string) (def : TableDef) (sc : joinScope)
    (w : option Expr) (s : S) : res (list candidate) :=
  match w ≫= λ e, uniqueEquality e name def with
  | Some (ci, lit) =>
      match acc_UniqueGet name ci lit s with
      | None => Ok []
      | Some id =>
          match acc_Get name id s with
          | None => Ok []
          | Some r =>
              b ← whereHolds now sc w r;
              Ok (if (b : bool) then [MkCandidate id r] else [])
          end
      end
  | None => collectScan now name sc w s
  end.

(** ** UPDATE *)
Fixpoint setColumns (def : TableDef) (sets : list Assignment) : res (list (nat * Expr)) :=
  match sets with
  | [] => Ok []
  | a :: sets =>
      match findIndex (λ c, bool_decide (Name c = as_Col a)) (td_Cols def) with
      | None => Err (SQLError "42703" "column %s does not exist" [AStr (as_Col a)])
      | Some i => l ← setColumns def sets; Ok ((i, as_Expr a) :: l)
      end
  end.

(** The new row: every expression is evaluated on the old one. *)
Fixpoint applySets (now : Value) (sc : joinScope) (def : TableDef) (old : row)
    (sets : list (nat * Expr)) (r : row) : res row :=
  match sets with
  | [] => Ok r
  | (i, e) :: sets =>
      v ← evalValue sc now e old;
      match td_Cols def !! i with
      | None => Err panicRow
      | Some c =>
          match coerce c v with
          | Err err => Err (SQLError "22P02" "column %s: %v" [AStr (Name c); AErr err])
          | Ok cv => applySets now sc def old sets (<[i := cv]> r)
          end
      end
  end.

(** The new id if the primary key changes. *)
Definition movedTo (def : TableDef) (old new : row) : option Z :=
  pk ← pkIndex def;
  match new !! pk, old !! pk with
  | Some (VInt j), Some (VInt i) => if bool_decide (j ≠ i) then Some j else None
  | _, _ => None
  end.

Definition updateError (tbl : string) (err : error) : error :=
  match err with ErrUnique => errDuplicate tbl | _ => err end.

Definition updateOne (now : Value) (def : TableDef) (tbl : string) (sets : list (nat * Expr))
    (c : candidate) : GoM S unit :=
  s <-- gget ;;
  new <-- glift (applySets now (singleTableScope def) def (ca_row c) sets (ca_row c)) ;;
  glift (checkFK def new s) ;;;
  match movedTo def (ca_row c) new with
  | Some j =>
      glift (fkReferenced tbl (ca_id c) tbl (ca_id c) s) ;;;
      acc_Delete tbl (ca_id c) ;;;
      map_err (insertError tbl j) (acc_Put tbl j new ;;; gret tt)
  | None => map_err (updateError tbl) (acc_Update tbl (ca_id c) new)
  end.

Definition execUpdate (now : Value) (st : UpdateStmt) : GoM S Result :=
  s <-- gget ;;
  def <-- glift (tableDef (up_Table st) s) ;;
  let sc := singleTableScope def in
  sets <-- glift (setColumns def (up_Sets st)) ;;
  glift (res_foreach (λ a, validateExpr sc (as_Expr a)) (up_Sets st)) ;;;
  w <-- glift (prepareWhere sc (up_Where st) s) ;;
  cands <-- glift (collectCandidates now (up_Table st) def sc w s) ;;
  gforeach (updateOne now def (up_Table st) sets) cands ;;;
  gret (MkResult [] [] (Z.of_nat (length cands))).

(** ** DELETE *)
Definition deleteOne (tbl : string) (c : candidate) : GoM S unit :=
  s <-- gget ;;
  glift (fkReferenced tbl (ca_id c) tbl (ca_id c) s) ;;;
  acc_Delete tbl (ca_id c).

Definition execDelete (now : Value) (st : DeleteStmt) : GoM S Result :=
  s <-- gget ;;
  def <-- glift (tableDef (de_Table st) s) ;;
  let sc := singleTableScope def in
  w <-- glift (prepareWhere sc (de_Where st) s) ;;
  cands <-- glift (collectCandidates now (de_Table st) def sc w s) ;;
  gforeach (deleteOne (de_Table st)) cands ;;;
  gret (MkResult [] [] (Z.of_nat (length cands))).

End subqueries.
End exec.

(** ** DDL *)

(** The [REFERENCES] clause of a column: the parent exists, the target is its
    primary key, and the types agree. *)
Definition validateFK (thisTable : string) (col : Column) (refTable refCol : string) (e : Engine) :
    res Column :=
  if bool_decide (refTable = thisTable) then
    Err (SQLError "42P01" "foreign key references unknown table %q (self references need the table to exist first in v1)" [AStr refTable])
  else
    match findDef refTable (Engine.Catalog e) with
    | None => Err (SQLError "42P01" "foreign key references unknown table %q" [AStr refTable])
    | Some pdef =>
        target ← (if bool_decide (refCol = "") then
                    res_of_option (SQLError "23552" "table %q has no primary key to reference" [AStr refTable])
                      (Name <$> find Primary (td_Cols pdef))
                  else Ok refCol);
        match find (λ c, bool_decide (Name c = target)) (td_Cols pdef) with
        | None => Err (SQLError "23552" "column %q does not exist in table %q" [AStr target; AStr refTable])
        | Some pt =>
            if negb (Primary pt) then
              Err (SQLError "0A000" "foreign key to non-primary-key column %q.%q is not supported in v1"
                     [AStr refTable; AStr target])
            else if bool_decide (Type_ pt ≠ Type_ col) then
              Err (SQLError "42804" "foreign key column %q type %s does not match referenced column %q type %s"
                     [AStr (Name col); AStr (Type_ col); AStr (Name pt); AStr (Type_ pt)])
            else Ok (MkColumn (Name col) (Type_ col) (NotNull col) (Primary col) (AutoInc col)
                       (Unique col) refTable target)
        end
    end.

Fixpoint createColumns (tbl : string) (cols : list ColumnDef) (e : Engine) : res (list Column) :=
  match cols with
  | [] => Ok []
  | c :: cols =>
      let col := MkColumn (cd_Name c) (cd_Type c) (cd_NotNull c) (cd_Primary c) (cd_AutoInc c)
                   (cd_Unique c) "" "" in
      col' ← (if bool_decide (cd_RefTable c = "") then Ok col
              else validateFK tbl col (cd_RefTable c) (cd_RefCol c) e);
      rest ← createColumns tbl cols e;
      Ok (col' :: rest)
  end.

Definition execCreate (name : string) (cols : list ColumnDef) : GoM Engine Result :=
  e <-- gget ;;
  cs <-- glift (createColumns name cols e) ;;
  map_err (λ err, match err with
                  | ErrExists => SQLError "42P07" "relation %s already exists" [AStr name]
                  | _ => SQLError "42601" "" [AErr err]
                  end) (CreateTable name cs) ;;;
  gret (MkResult [] [] 0).

Definition execDrop (name : string) (ifExists : bool) : GoM Engine Result := λ e,
  match DropTable name e with
  | (e', Err ErrNoTable) =>
      if ifExists then (e', Ok (MkResult [] [] 0)) else (e', Err (errRelation name))
  | (e', Err err) => (e', Err err)
  | (e', Ok _) => (e', Ok (MkResult [] [] 0))
  end.

(** ** Referential integrity

    Every foreign key names a table, and every integer in a foreign-key column
    is the id of a row of that table. *)
Record fk_ok (d : Db) : Prop := {
  fk_parent : ∀ n cols rows c, d !! n = Some (cols, rows) → c ∈ cols → FKTable c ≠ "" →
    is_Some (d !! FKTable c);
  fk_row : ∀ n cols rows id r ci c i, d !! n = Some (cols, rows) → rows !! id = Some r →
    cols !! ci = Some c → FKTable c ≠ "" → r !! ci = Some (VInt i) →
    ∃ pcols prows, d !! FKTable c = Some (pcols, prows) ∧ is_Some (prows !! i) }.

(** The primary key is not itself a foreign key. *)
Definition pk_plain (cols : list Column) : Prop :=
  ∀ c, c ∈ cols → Primary c = true → FKTable c = "".

(** The foreign keys of a row point to rows of [d]. *)
Definition row_fk_ok (d : Db) (cols : list Column) (r : row) : Prop :=
  ∀ ci c i, cols !! ci = Some c → FKTable c ≠ "" → r !! ci = Some (VInt i) →
    ∃ pcols prows, d !! FKTable c = Some (pcols, prows) ∧ is_Some (prows !! i).

Lemma fk_ok_delete d n cols rows id :
  fk_ok d → d !! n = Some (cols, rows) →
  (∀ m mcols mrows j r ci c, d !! m = Some (mcols, mrows) → mrows !! j = Some r →
     mcols !! ci = Some c → FKTable c = n → r !! ci = Some (VInt id) → m = n ∧ j = id) →
  fk_ok (<[n := (cols, delete id rows)]> d).
Proof.
  intros [Hp Hr] Hd Hno. split.
  - intros m mcols mrows c Hm Hc Hfk. apply lookup_insert_is_Some.
    destruct (decide (n = FKTable c)); [by left|right]. split; [done|].
    apply lookup_insert_Some in Hm as [[<- [= <- <-]]|[_ Hm]]; eauto.
  - intros m mcols mrows j r ci c i Hm Hj Hc Hfk Hv.
    assert (∃ mrows0, d !! m = Some (mcols, mrows0) ∧ mrows0 !! j = Some r ∧ (m = n → j ≠ id)) as (mr0 & Hm0 & Hj0 & Hne).
    { apply lookup_insert_Some in Hm as [[<- [= <- <-]]|[Hmn Hm]].
      - apply lookup_delete_Some in Hj as [? ?]. exists rows. auto.
      - exists mrows. naive_solver. }
    destruct (Hr _ _ _ _ _ _ _ _ Hm0 Hj0 Hc Hfk Hv) as (pcols & prows & Hpd & Hpi).
    destruct (decide (FKTable c = n)) as [Hn|Hn].
    + subst n. rewrite Hd in Hpd. injection Hpd as <- <-. exists cols, (delete id rows).
      rewrite lookup_insert_eq. split; [done|].
      rewrite lookup_delete_ne; [done|]. intros <-.
      destruct (Hno _ _ _ _ _ _ _ Hm0 Hj0 Hc eq_refl Hv) as [-> ->]. by apply Hne.
    + exists pcols, prows. by rewrite lookup_insert_ne.
Qed.

Lemma fk_ok_put d n cols rows id r :
  fk_ok d → d !! n = Some (cols, rows) → row_fk_ok d cols r →
  fk_ok (<[n := (cols, <[id := r]> rows)]> d).
Proof.
  intros [Hp Hr] Hd Hnew.
  assert (∀ t i, (∃ pcols prows, d !! t = Some (pcols, prows) ∧ is_Some (prows !! i)) →
    ∃ pcols prows, <[n := (cols, <[id := r]> rows)]> d !! t = Some (pcols, prows) ∧ is_Some (prows !! i)) as Hkeep.
  { intros t i (pcols & prows & Hpd & Hpi). destruct (decide (t = n)) as [->|Hn].
    - rewrite Hd in Hpd. injection Hpd as <- <-. exists cols, (<[id := r]> rows).
      rewrite lookup_insert_eq. split; [done|]. apply lookup_insert_is_Some.
      destruct (decide (id = i)); [by left|by right].
    - exists pcols, prows. by rewrite lookup_insert_ne. }
  split.
  - intros m mcols mrows c Hm Hc Hfk. apply lookup_insert_is_Some.
    destruct (decide (n = FKTable c)); [by left|right]. split; [done|].
    apply lookup_insert_Some in Hm as [[<- [= <- <-]]|[_ Hm]]; eauto.
  - intros m mcols mrows j rj ci c i Hm Hj Hc Hfk Hv. apply Hkeep.
    apply lookup_insert_Some in Hm as [[<- [= <- <-]]|[_ Hm]]; [|eauto].
    apply lookup_insert_Some in Hj as [[<- <-]|[_ Hj]]; eauto.
Qed.

(** What a step can do to the database. *)
Lemma acc_step_delete n id d q d' :
  acc_step (CDelete n id) d q d' →
  d' = d ∨ ∃ cols rows, d !! n = Some (cols, rows) ∧ d' = <[n := (cols, delete id rows)]> d.
Proof. intros [H|(? & ? & ? & ? & _)]; [|done]. inversion H; subst; eauto. Qed.

Lemma acc_step_put n pk id r must d q d' :
  acc_step (CPut n pk id r must) d q d' →
  d' = d ∨ ∃ cols rows id', d !! n = Some (cols, rows) ∧
    d' = <[n := (cols, <[id' := stamp pk id' r]> rows)]> d.
Proof. intros [H|(? & ? & ? & ? & ? & ->)]; [|by left]. inversion H; subst; eauto 10. Qed.

Section integrity.
  Context {S : Type} `{!Accessor S, !ReadSpec S, !AccessorSpec S}.
  Implicit Types s : S.

Lemma tableDef_view n s def :
  acc_inv s → tableDef n s = Ok def →
  td_Name def = n ∧ ∃ rows, acc_view s !! n = Some (td_Cols def, rows).
Proof.
  intros Hi. unfold tableDef, findDef, res_of_option.
  destruct (find _ _) as [d|] eqn:Ef; [|done]. intros [= <-].
  apply find_some in Ef as [Hin%list_elem_of_In Hn%bool_decide_eq_true].
  apply acc_Catalog_spec in Hin as [rows Hrows]; [|done]. subst n. eauto.
Qed.

Lemma checkFKFrom_spec i pre cols tbl r s :
  length pre = i → checkFKFrom i cols tbl r s = Ok tt →
  ∀ ci c v, i ≤ ci → (pre ++ cols) !! ci = Some c → FKTable c ≠ "" → r !! ci = Some (VInt v) →
    is_Some (acc_Get (FKTable c) v s).
Proof.
  revert i pre. induction cols as [|c0 cols IH]; intros i pre Hi Hck ci c v Hle Hc Hfk Hv.
  { apply lookup_lt_Some in Hc. rewrite app_nil_r in Hc. lia. }
  rewrite (cons_middle c0 pre cols), (app_assoc pre [c0]) in Hc. simpl in Hck.
  assert (checkFKFrom (Datatypes.S i) cols tbl r s = Ok tt →
    ci ≠ i → is_Some (acc_Get (FKTable c) v s)) as Hrest.
  { intros Hck' Hne. assert (length (pre ++ [c0]) = Datatypes.S i) as Hl by (rewrite length_app; simpl; lia).
    apply (IH (Datatypes.S i) (pre ++ [c0]) Hl Hck' ci c v); [lia|done|done|done]. }
  destruct (decide (ci = i)) as [->|Hne].
  - assert (c = c0) as ->.
    { rewrite lookup_app_l in Hc by (rewrite length_app; simpl; lia).
      rewrite lookup_app_r, Hi, Nat.sub_diag in Hc by lia. by injection Hc. }
    rewrite bool_decide_eq_false_2 in Hck by done. unfold row_at in Hck. rewrite Hv in Hck. simpl in Hck.
    by destruct (acc_Get (FKTable c0) v s).
  - case_bool_decide; [by apply Hrest|]. unfold row_at in Hck.
    destruct (r !! i) as [w|]; [|done]. simpl in Hck.
    destruct w; try done; [by apply Hrest|]. destruct (acc_Get _ _ _); [by apply Hrest|done].
Qed.

(** A row that passes the check points to existing parents. *)
Lemma checkFK_sound def n rows r s :
  acc_inv s → fk_ok (acc_view s) → acc_view s !! n = Some (td_Cols def, rows) →
  checkFK def r s = Ok tt → row_fk_ok (acc_view s) (td_Cols def) r.
Proof.
  intros Hi Hfk Hn Hck ci c v Hc Hne Hv.
  pose proof (checkFKFrom_spec 0 [] _ _ _ _ eq_refl Hck ci c v ltac:(lia) Hc Hne Hv) as [pr Hg].
  destruct (fk_parent _ Hfk n _ _ c Hn) as [[pcols prows] Hp]; [by eapply list_elem_of_lookup_2|done|].
  rewrite (acc_Get_spec _ _ _ _ _ Hi Hp) in Hg. eauto 10.
Qed.

Lemma fkColumns_spec i pre cols tbl parent pk skipT skipR s ids rows :
  length pre = i → acc_AllRows tbl s = Ok (ids, rows) →
  fkColumns i cols tbl parent pk skipT skipR s = Ok tt →
  ∀ ci c, i ≤ ci → (pre ++ cols) !! ci = Some c → FKTable c = parent →
    references tbl ci pk skipT skipR ids rows = false.
Proof.
  intros Hi Hall. revert i pre Hi. induction cols as [|c0 cols IH]; intros i pre Hi Hf ci c Hle Hc Hp.
  { apply lookup_lt_Some in Hc. rewrite app_nil_r in Hc. lia. }
  rewrite (cons_middle c0 pre cols), (app_assoc pre [c0]) in Hc. simpl in Hf. rewrite Hall in Hf.
  assert (fkColumns (Datatypes.S i) cols tbl parent pk skipT skipR s = Ok tt → ci ≠ i →
    references tbl ci pk skipT skipR ids rows = false) as Hrest.
  { intros Hf' Hne. assert (length (pre ++ [c0]) = Datatypes.S i) as Hl by (rewrite length_app; simpl; lia).
    apply (IH (Datatypes.S i) (pre ++ [c0]) Hl Hf' ci c); [lia|done|done]. }
  destruct (decide (ci = i)) as [->|Hne].
  - assert (c = c0) as ->.
    { rewrite lookup_app_l in Hc by (rewrite length_app; simpl; lia).
      rewrite lookup_app_r, Hi, Nat.sub_diag in Hc by lia. by injection Hc. }
    rewrite bool_decide_eq_true_2 in Hf by done. by destruct (references _ _ _ _ _ _ _).
  - case_bool_decide; [|by apply Hrest]. destruct (references _ _ _ _ _ _ _); [done|by apply Hrest].
Qed.

(** RESTRICT: if the check passes, only the skipped row can refer to the key. *)
Lemma fkReferenced_sound parent pk skipT skipR s :
  acc_inv s → fkReferenced parent pk skipT skipR s = Ok tt →
  ∀ m mcols mrows j r ci c, acc_view s !! m = Some (mcols, mrows) → mrows !! j = Some r →
    mcols !! ci = Some c → FKTable c = parent → r !! ci = Some (VInt pk) → m = skipT ∧ j = skipR.
Proof.
  intros Hi Hf m mcols mrows j r ci c Hm Hj Hc Hp Hv. unfold fkReferenced in Hf.
  rewrite res_foreach_Ok in Hf.
  assert (MkTableDef m mcols ∈ acc_Catalog s) as Hin by (apply acc_Catalog_spec; [done|by exists mrows]).
  specialize (Hf _ Hin). simpl in Hf. pose proof (acc_AllRows_spec m s Hi) as Hall. rewrite Hm in Hall.
  destruct (sorted_rows mrows) as [ids rows] eqn:Es.
  pose proof (fkColumns_spec 0 [] mcols m parent pk skipT skipR s ids rows eq_refl Hall Hf ci c
    ltac:(lia) Hc Hp) as Href.
  destruct (sorted_rows_spec mrows) as [_ Hrows]. rewrite Es in Hrows. simpl in Hrows.
  apply Hrows in Hj as (k & Hk1 & Hk2). apply dec_stable. intros Hne.
  enough (references m ci pk skipT skipR ids rows = true) by congruence.
  unfold references. apply existsb_exists. exists (j, r). split.
  - apply list_elem_of_In, (list_elem_of_lookup_2 _ k), lookup_zip_with_Some. eauto 10.
  - simpl. rewrite bool_decide_eq_false_2 by done. by apply bool_decide_eq_true.
Qed.

(** ** DELETE keeps referential integrity *)
Lemma deleteOne_fk tbl c s s' q :
  acc_inv s → fk_ok (acc_view s) → deleteOne tbl c s = (s', q) →
  acc_inv s' ∧ fk_ok (acc_view s').
Proof.
  intros Hi Hfk Hd. unfold deleteOne, gbind, gget, glift in Hd.
  destruct (fkReferenced tbl (ca_id c) tbl (ca_id c) s) as [[]|err] eqn:Ef; [|by simplify_eq].
  destruct (acc_Delete_spec _ _ _ _ _ Hi Hd) as (Hi' & _ & Hst). split; [done|].
  apply acc_step_delete in Hst as [->|(cols & rows & Hn & ->)]; [done|].
  apply fk_ok_delete; [done|done|]. intros m mcols mrows j r ci c0 H1 H2 H3 H4 H5.
  exact (fkReferenced_sound tbl (ca_id c) tbl (ca_id c) s Hi Ef m mcols mrows j r ci c0 H1 H2 H3 H4 H5).
Qed.

Lemma gforeach_inv {A} (P : S → Prop) (f : A → GoM S unit) l s s' q :
  (∀ a s s' q, a ∈ l → P s → f a s = (s', q) → P s') → P s → gforeach f l s = (s', q) → P s'.
Proof.
  revert s. induction l as [|a l IH]; intros s Hf Hp Hr; simpl in Hr.
  { unfold gret in Hr. by simplify_eq. }
  unfold gbind in Hr. destruct (f a s) as [s1 [[]|err]] eqn:Ef.
  - eapply IH; [|eapply Hf; [|done|done]; set_solver|done].
    intros a' s0 s0' q' Ha'. apply Hf. set_solver.
  - simplify_eq. eapply Hf; [|done|done]. set_solver.
Qed.

(** C27: DELETE keeps referential integrity, in autocommit and in a transaction,
    whatever the WHERE selects and also when it stops half way with an error:
    no foreign key is left pointing to a deleted row. *)
Theorem delete_keeps_fk (sel : Select → S → res Result) (now : Value) (st : DeleteStmt) s s' q :
  acc_inv s → fk_ok (acc_view s) → execDelete sel now st s = (s', q) →
  acc_inv s' ∧ fk_ok (acc_view s').
Proof.
  intros Hi Hfk Hd. unfold execDelete, gbind, gget, glift, gret in Hd.
  destruct (tableDef (de_Table st) s) as [def|err]; [|by simplify_eq].
  destruct (prepareWhere sel _ (de_Where st) s) as [w|err]; [|by simplify_eq].
  destruct (collectCandidates now (de_Table st) def _ w s) as [cands|err]; [|by simplify_eq].
  destruct (gforeach (deleteOne (de_Table st)) cands s) as [s1 q1] eqn:Eg.
  assert (acc_inv s1 ∧ fk_ok (acc_view s1)) as H.
  { eapply (gforeach_inv (λ s, acc_inv s ∧ fk_ok (acc_view s))); [|by split|exact Eg].
    intros c s0 s0' q0 _ [H1 H2] Hc. by eapply deleteOne_fk. }
  destruct q1 as [[]|err]; by simplify_eq.
Qed.
(** ** INSERT *)
Lemma findIndex_Some {A} (p : A → bool) l i :
  findIndex p l = Some i → ∃ x, l !! i = Some x ∧ p x = true.
Proof.
  revert i. induction l as [|y l IH]; intros i; simpl; [done|].
  destruct (p y) eqn:Ey; [intros [= <-]; eauto|].
  intros (j & Hj & ->)%fmap_Some. by apply IH.
Qed.

Lemma fillRow_length now def idx es r r' : fillRow now def idx es r = Ok r' → length r' = length r.
Proof.
  revert es r. induction idx as [|i idx IH]; intros [|e es] r H; simpl in H; try by simplify_eq.
  destruct (evalInsertValue now e); [|done]. simpl in H. destruct (td_Cols def !! i); [|done].
  destruct (coerce _ _); [|done]. apply IH in H. by rewrite H, length_insert.
Qed.

Lemma stamp_nat pk id r : pk < length r → stamp (Z.of_nat pk) id r = <[pk := VInt id]> r.
Proof. intros H. unfold stamp. rewrite bool_decide_eq_true_2 by lia. by rewrite Nat2Z.id. Qed.

(** The row an INSERT stores for the row [r] it computed: [r] itself, or [r]
    with an automatic id written to its primary key. *)
Definition stored (def : TableDef) (r : row) (id : Z) (r' : row) : Prop :=
  r' = r ∨ ∃ pk c, pkIndex def = Some pk ∧ td_Cols def !! pk = Some c ∧ Primary c = true ∧
    r' = <[pk := VInt id]> r.

(** The ids a row of VALUES names can be stored. *)
Definition insert_id_ok (now : Value) (def : TableDef) (tbl : string) (idx : list nat)
    (es : list Expr) : Prop :=
  ∀ r id, fillRow now def idx es (replicate (length (td_Cols def)) VNull) = Ok r →
    insertID def tbl r = Ok (Some id) → (0 ≤ id < 2 ^ 62)%Z.

Lemma insertOne_step now def tbl idx ri es k rows s s' q :
  acc_inv s → acc_room k s → (0 < k < 2 ^ 62)%Z →
  acc_view s !! tbl = Some (td_Cols def, rows) → insert_id_ok now def tbl idx es →
  insertOne now def tbl idx ri es s = (s', q) →
  acc_inv s' ∧ acc_room (k - 1) s' ∧
  (acc_view s' = acc_view s ∨ ∃ r r' id,
    fillRow now def idx es (replicate (length (td_Cols def)) VNull) = Ok r ∧
    checkNotNull 0 (td_Cols def) tbl r = Ok tt ∧ checkFK def r s = Ok tt ∧
    stored def r id r' ∧ (0 < id < int64_max)%Z ∧
    acc_view s' = <[tbl := (td_Cols def, <[id := r']> rows)]> (acc_view s)).
Proof.
  intros Hi Hroom Hk Hv Hid H. unfold insertOne, gbind, gget, glift, gret, map_err in H.
  assert (acc_room (k - 1) s) as Hless by (eapply acc_room_mono; [done|lia]).
  destruct (guard_err _ _); [|by simplify_eq; split_and!; [| |left]].
  destruct (fillRow _ _ _ _ _) as [r|] eqn:Er; [|by simplify_eq; split_and!; [| |left]].
  destruct (insertID def tbl r) as [id|] eqn:Eid; [|by simplify_eq; split_and!; [| |left]].
  destruct (checkNotNull _ _ _ _) as [[]|] eqn:Enn; [|by simplify_eq; split_and!; [| |left]].
  destruct (checkFK def r s) as [[]|] eqn:Efk; [|by simplify_eq; split_and!; [| |left]].
  assert (int64_max = 2 ^ 63 - 1)%Z as Hmax by done.
  destruct id as [id|].
  - destruct (acc_Put tbl id r s) as [s1 q1] eqn:Ep.
    destruct (Hid r id Er Eid) as [Hid0 Hid1].
    destruct (acc_Put_spec tbl id r k s s1 q1 Hi Hroom ltac:(lia) ltac:(lia) ltac:(lia) Ep) as (Hi' & Hr' & Hst).
    assert (s1 = s') as -> by (destruct q1; by simplify_eq). split; [done|]. split; [done|].
    apply acc_step_put in Hst as [Hst|(cols & rows' & id' & Hn & Hst)]; [by left|right].
    rewrite Hv in Hn. injection Hn as <- <-. exists r, r, id'. do 3 (split; [done|]).
    split; [by left|]. split; [|done]. eapply acc_ids; [exact Hi'|by rewrite Hst, lookup_insert_eq|].
    rewrite lookup_insert_eq. eauto.
  - destruct (pkIndex def) as [pk|] eqn:Epk; [|by unfold insertID in Eid; rewrite Epk in Eid].
    destruct (findIndex_Some _ _ _ Epk) as (c & Hc & Hprim).
    assert (pk < length r) as Hpk.
    { rewrite (fillRow_length _ _ _ _ _ _ Er), length_replicate. by apply lookup_lt_Some in Hc. }
    simpl in H. destruct (acc_PutAuto tbl (Z.of_nat pk) r s) as [s1 q1] eqn:Ep.
    destruct (acc_PutAuto_spec tbl (Z.of_nat pk) r k s s1 q1 Hi Hroom ltac:(lia) ltac:(lia) Ep) as (Hi' & Hr' & Hst).
    assert (s1 = s') as -> by (destruct q1; by simplify_eq). split; [done|]. split; [done|].
    apply acc_step_put in Hst as [Hst|(cols & rows' & id' & Hn & Hst)]; [by left|right].
    rewrite Hv in Hn. injection Hn as <- <-. exists r, (stamp (Z.of_nat pk) id' r), id'. do 3 (split; [done|]).
    split; [|split; [|done]].
    + right. exists pk, c. do 3 (split; [done|]). by apply stamp_nat.
    + eapply acc_ids; [exact Hi'|by rewrite Hst, lookup_insert_eq|]. rewrite lookup_insert_eq. eauto.
Qed.

(** A property of the database that every row an INSERT stores keeps. *)
Lemma insertRows_inv (P : Db → Prop) now def tbl idx rows0 ri k s s' q :
  (∀ s rows es r r' id, acc_inv s → P (acc_view s) → es ∈ rows0 →
     acc_view s !! tbl = Some (td_Cols def, rows) →
     fillRow now def idx es (replicate (length (td_Cols def)) VNull) = Ok r →
     checkNotNull 0 (td_Cols def) tbl r = Ok tt → checkFK def r s = Ok tt →
     stored def r id r' → (0 < id < int64_max)%Z →
     P (<[tbl := (td_Cols def, <[id := r']> rows)]> (acc_view s))) →
  acc_inv s → acc_room k s → (Z.of_nat (length rows0) ≤ k < 2 ^ 62)%Z →
  (∃ rows, acc_view s !! tbl = Some (td_Cols def, rows)) →
  Forall (insert_id_ok now def tbl idx) rows0 → P (acc_view s) →
  insertRows now def tbl idx ri rows0 s = (s', q) →
  (acc_inv s' ∧ acc_room (k - Z.of_nat (length rows0)) s') ∧ P (acc_view s').
Proof.
  revert ri k s. induction rows0 as [|es rows0 IH]; intros ri k s HP Hi Hroom Hk [rows Hv] Hids Hp H; simpl in H.
  { unfold gret in H. simplify_eq. split; [|done]. split; [done|]. eapply acc_room_mono; [done|simpl; lia]. }
  apply Forall_cons in Hids as [Hid Hids]. unfold gbind in H. simpl in Hk.
  destruct (insertOne now def tbl idx ri es s) as [s1 q1] eqn:E1.
  destruct (insertOne_step _ _ _ _ _ _ k rows _ _ _ Hi Hroom ltac:(lia) Hv Hid E1) as (Hi1 & Hr1 & Hst).
  assert (P (acc_view s1) ∧ ∃ rows1, acc_view s1 !! tbl = Some (td_Cols def, rows1)) as [Hp1 Hv1].
  { destruct Hst as [->|(r & r' & id & ? & ? & ? & ? & ? & ->)]; [by eauto|]. split.
    - eapply (HP s rows es r); [done|done|by left|done..].
    - rewrite lookup_insert_eq. eauto. }
  cbn [length]. destruct q1 as [[]|err]; cycle 1.
  { simplify_eq. split; [|done]. split; [done|]. eapply acc_room_mono; [exact Hr1|lia]. }
  replace (k - Z.of_nat (Datatypes.S (length rows0)))%Z with (k - 1 - Z.of_nat (length rows0))%Z by lia.
  eapply (IH (ri + 1) (k - 1)%Z s1); [|done|done|lia|done|done|done|exact H].
  intros s2 rows2 es2 r2 r2' id2 ? ? Hin. apply HP; [done|done|by right].
Qed.
(** The rows an INSERT names can be stored: what its theorems assume of the
    statement [st] in the state [s]. *)
Record insert_ready (now : Value) (st : InsertStmt) (k : Z) (s : S) : Prop := {
  ir_inv : acc_inv s;
  ir_room : acc_room k s;
  ir_rows : (Z.of_nat (length (in_Rows st)) ≤ k < 2 ^ 62)%Z;
  ir_ids : ∀ def idx, tableDef (in_Table st) s = Ok def → insertIndex def (in_Cols st) = Ok idx →
    Forall (insert_id_ok now def (in_Table st) idx) (in_Rows st) }.

Lemma execInsert_inv (P : Db → Prop) now st k s s' q :
  (∀ def idx s rows es r r' id, acc_inv s → P (acc_view s) → es ∈ in_Rows st →
     acc_view s !! in_Table st = Some (td_Cols def, rows) →
     fillRow now def idx es (replicate (length (td_Cols def)) VNull) = Ok r →
     checkNotNull 0 (td_Cols def) (in_Table st) r = Ok tt → checkFK def r s = Ok tt →
     stored def r id r' → (0 < id < int64_max)%Z →
     P (<[in_Table st := (td_Cols def, <[id := r']> rows)]> (acc_view s))) →
  insert_ready now st k s → P (acc_view s) → execInsert now st s = (s', q) →
  (acc_inv s' ∧ acc_room (k - Z.of_nat (length (in_Rows st))) s') ∧ P (acc_view s').
Proof.
  intros HP [Hi Hroom Hk Hids] Hp H. unfold execInsert, gbind, gget, glift, gret in H.
  assert (acc_room (k - Z.of_nat (length (in_Rows st))) s) as Hless by (eapply acc_room_mono; [done|lia]).
  destruct (tableDef (in_Table st) s) as [def|err] eqn:Ed; [|by simplify_eq].
  destruct (insertIndex def (in_Cols st)) as [idx|err] eqn:Ex; [|by simplify_eq].
  destruct (tableDef_view _ _ _ Hi Ed) as (_ & rows & Hv).
  destruct (insertRows _ _ _ _ _ _ s) as [s1 q1] eqn:E1.
  assert ((acc_inv s1 ∧ acc_room (k - Z.of_nat (length (in_Rows st))) s1) ∧ P (acc_view s1)) as Hres.
  { eapply (insertRows_inv P); [|done|done|done|by eauto|by apply Hids|done|exact E1].
    intros s2 rows2 es2 r2 r2' id2 ?????. eapply HP; eauto 10. }
  destruct q1 as [[]|err]; by simplify_eq.
Qed.

(** The columns of a table of the database. *)
Definition cols_of (d : Db) (n : string) (P : list Column → Prop) : Prop :=
  ∀ cols rows, d !! n = Some (cols, rows) → P cols.

Lemma cols_of_insert d n P cols rows rows' :
  cols_of d n P → d !! n = Some (cols, rows) → cols_of (<[n := (cols, rows')]> d) n P.
Proof. intros HP Hd cols' rows''. rewrite lookup_insert_eq. intros [= <- <-]. by eapply HP. Qed.


(** ** Stored rows have the types of their columns *)
Definition row_typed (cols : list Column) (r : row) : Prop :=
  length r = length cols ∧
  ∀ ci c v, cols !! ci = Some c → r !! ci = Some v → has_type (Type_ c) v.

(** NOT NULL holds outside the primary key. *)
Definition row_complete (cols : list Column) (r : row) : Prop :=
  ∀ ci c, cols !! ci = Some c → NotNull c = true → Primary c = false → r !! ci ≠ Some VNull.

Definition db_rows (P : list Column → row → Prop) (d : Db) : Prop :=
  ∀ n cols rows id r, d !! n = Some (cols, rows) → rows !! id = Some r → P cols r.

Lemma db_rows_put P d n cols rows id r :
  db_rows P d → d !! n = Some (cols, rows) → P cols r →
  db_rows P (<[n := (cols, <[id := r]> rows)]> d).
Proof.
  intros HP Hd Hr m mcols mrows j rj.
  intros [[<- [= <- <-]]|[_ Hm]]%lookup_insert_Some; [|by apply (HP m)].
  intros [[<- <-]|[_ Hj]]%lookup_insert_Some; [done|by apply (HP n _ _ j rj Hd)].
Qed.

Lemma db_rows_delete P d n cols rows id :
  db_rows P d → d !! n = Some (cols, rows) → db_rows P (<[n := (cols, delete id rows)]> d).
Proof.
  intros HP Hd m mcols mrows j rj.
  intros [[<- [= <- <-]]|[_ Hm]]%lookup_insert_Some; [|by apply (HP m)].
  intros [_ Hj]%lookup_delete_Some. by apply (HP n _ _ j rj Hd).
Qed.

Lemma row_typed_insert cols r ci c v :
  row_typed cols r → cols !! ci = Some c → has_type (Type_ c) v → row_typed cols (<[ci := v]> r).
Proof.
  intros [Hl Ht] Hc Hv. split; [by rewrite length_insert|].
  intros cj c' v' Hc'. rewrite list_lookup_insert_Some. intros [(<- & <- & _)|[_ Hr]]; [by simplify_eq|eauto].
Qed.

Lemma coerce_typed c v v' : wf_value v → coerce c v = Ok v' → has_type (Type_ c) v'.
Proof.
  intros Hwf. unfold coerce. apply Check_typed.
  destruct v as [| | |t| |]; try done. case_bool_decide; [|done]. by destruct (parseTimestamp timeLayouts t).
Qed.

Definition wf_lit (e : Expr) : Prop := match e with Lit v => wf_value v | _ => True end.

Lemma fillRow_typed now def idx es r r' :
  wf_value now → Forall wf_lit es → row_typed (td_Cols def) r →
  fillRow now def idx es r = Ok r' → row_typed (td_Cols def) r'.
Proof.
  intros Hnow. revert es r. induction idx as [|i idx IH]; intros [|e es] r Hwf Hr H; simpl in H; try by simplify_eq.
  apply Forall_cons in Hwf as [He Hes].
  destruct (evalInsertValue now e) as [v|] eqn:Ev; [|done]. simpl in H.
  destruct (td_Cols def !! i) as [c|] eqn:Ec; [|done]. destruct (coerce c v) as [cv|] eqn:Ecv; [|done].
  eapply IH; [done| |exact H]. eapply row_typed_insert; [done|done|]. eapply coerce_typed; [|exact Ecv].
  destruct e; simpl in Ev; try done; [by simplify_eq|]. case_bool_decide; by simplify_eq.
Qed.

Lemma checkNotNull_sound i pre cols tbl r :
  length pre = i → checkNotNull i cols tbl r = Ok tt →
  ∀ ci c, i ≤ ci → (pre ++ cols) !! ci = Some c → NotNull c = true → Primary c = false →
    r !! ci ≠ Some VNull.
Proof.
  revert i pre. induction cols as [|c0 cols IH]; intros i pre Hi Hck ci c Hle Hc Hnn Hp.
  { apply lookup_lt_Some in Hc. rewrite app_nil_r in Hc. lia. }
  rewrite (cons_middle c0 pre cols), (app_assoc pre [c0]) in Hc. simpl in Hck.
  assert (checkNotNull (Datatypes.S i) cols tbl r = Ok tt → ci ≠ i → r !! ci ≠ Some VNull) as Hrest.
  { intros Hck' Hne. assert (length (pre ++ [c0]) = Datatypes.S i) as Hl by (rewrite length_app; simpl; lia).
    apply (IH (Datatypes.S i) (pre ++ [c0]) Hl Hck' ci c); [lia|done|done|done]. }
  destruct (decide (ci = i)) as [->|Hne].
  - assert (c = c0) as ->.
    { rewrite lookup_app_l in Hc by (rewrite length_app; simpl; lia).
      rewrite lookup_app_r, Hi, Nat.sub_diag in Hc by lia. by injection Hc. }
    rewrite Hp in Hck. unfold row_at in Hck. destruct (r !! i) as [v|]; [|done]. simpl in Hck.
    rewrite Hnn in Hck. intros [= ->]. done.
  - destruct (Primary c0); [by apply Hrest|]. unfold row_at in Hck. destruct (r !! i) as [v|]; [|done].
    simpl in Hck. destruct (NotNull c0 && IsNull v); [done|by apply Hrest].
Qed.

(** C28: INSERT stores well-typed, complete rows only: if every stored row had a
    value of the column's type in each cell and a value in each NOT NULL column
    outside the primary key, the same holds afterwards, also when the statement
    stops with an error. *)
Theorem insert_keeps_types now st k s s' q :
  insert_ready now st k s → wf_value now → Forall (Forall wf_lit) (in_Rows st) →
  cols_of (acc_view s) (in_Table st) (Forall (λ c, Primary c = true → is_int_type (Type_ c))) →
  db_rows (λ cols r, row_typed cols r ∧ row_complete cols r) (acc_view s) →
  execInsert now st s = (s', q) →
  db_rows (λ cols r, row_typed cols r ∧ row_complete cols r) (acc_view s').
Proof.
  set (P := Forall (λ c, Primary c = true → is_int_type (Type_ c))).
  set (T := λ cols r, row_typed cols r ∧ row_complete cols r). intros Hrd Hnow Hlits Hpk Ht H.
  enough ((acc_inv s' ∧ acc_room (k - Z.of_nat (length (in_Rows st))) s') ∧
    db_rows T (acc_view s') ∧ cols_of (acc_view s') (in_Table st) P) by tauto.
  eapply (execInsert_inv (λ d, db_rows T d ∧ cols_of d (in_Table st) P)); [|done|done|exact H].
  intros def idx s1 rows es r r' id _ [Ht1 Hpk1] Hes Hv Hfill Hnn _ Hst Hid.
  split; [|by eapply cols_of_insert]. apply db_rows_put; [done|done|].
  rewrite Forall_forall in Hlits.
  assert (row_typed (td_Cols def) r) as Hty.
  { eapply fillRow_typed; [done|by apply Hlits| |exact Hfill]. split; [apply length_replicate|].
    intros ci c v _ [-> _]%lookup_replicate. done. }
  assert (row_complete (td_Cols def) r) as Hco.
  { intros ci c. apply (checkNotNull_sound 0 [] _ _ _ eq_refl Hnn). lia. }
  destruct Hst as [->|(pk & c & _ & Hc & Hprim & ->)]; [done|]. split.
  - eapply row_typed_insert; [done|done|]. split; [|unfold in_int64, int64_min; lia].
    specialize (Hpk1 _ _ Hv). unfold P in Hpk1. rewrite Forall_lookup in Hpk1. by apply (Hpk1 pk).
  - intros ci c' Hc' Hn Hp. rewrite list_lookup_insert_ne; [by eapply Hco|]. intros <-. congruence.
Qed.
(** ** UPDATE *)

(** The rows a WHERE selects are stored rows. *)
Lemma scan_stored now sc w ids rows cs :
  scan now sc w ids rows = Ok cs →
  length cs ≤ length ids ∧
  ∀ c, c ∈ cs → ∃ k, ids !! k = Some (ca_id c) ∧ rows !! k = Some (ca_row c).
Proof.
  revert rows cs. induction ids as [|id ids IH]; intros [|r rows] cs H; simpl in H;
    try (simplify_eq; split; [simpl; lia|set_solver]).
  destruct (whereHolds now sc w r) as [b|]; [|done]. simpl in H.
  destruct (scan now sc w ids rows) as [cs'|] eqn:Es; [|done]. simpl in H. simplify_eq.
  destruct (IH _ _ Es) as [Hl Hin].
  assert (∀ c, c ∈ cs' → ∃ k, (id :: ids) !! k = Some (ca_id c) ∧ (r :: rows) !! k = Some (ca_row c)) as Hin'
    by (intros c (k & ? & ?)%Hin; by exists (Datatypes.S k)).
  destruct b; [|split; [simpl; lia|done]]. split; [simpl; lia|].
  intros c [->|Hc]%elem_of_cons; [by exists 0|by apply Hin'].
Qed.

Lemma sorted_rows_length rows : length (sorted_rows rows).1 = size rows.
Proof.
  simpl. rewrite (Permutation_length (sorted_keys_perm rows)), length_fmap. apply length_map_to_list.
Qed.

Lemma collectCandidates_stored now tbl def sc w s cols rows cs :
  acc_inv s → acc_view s !! tbl = Some (cols, rows) →
  collectCandidates now tbl def sc w s = Ok cs →
  length cs ≤ size rows ∧ ∀ c, c ∈ cs → rows !! ca_id c = Some (ca_row c).
Proof.
  intros Hi Hv H. unfold collectCandidates in H.
  destruct (w ≫= _) as [[ci lit]|].
  - destruct (acc_UniqueGet tbl ci lit s) as [id|]; [|simplify_eq; split; [simpl; lia|set_solver]].
    rewrite (acc_Get_spec _ _ _ _ _ Hi Hv) in H.
    destruct (rows !! id) as [r|] eqn:Er; [|simplify_eq; split; [simpl; lia|set_solver]].
    destruct (whereHolds now sc w r) as [b|]; [|done]. simpl in H. simplify_eq.
    destruct b; [|split; [simpl; lia|set_solver]]. split.
    + destruct (decide (size rows = 0)) as [Hz|]; [|simpl; lia].
      apply map_size_empty_inv in Hz. by subst.
    + by intros c ->%list_elem_of_singleton.
  - unfold collectScan in H. rewrite (acc_AllRows_spec tbl s Hi), Hv in H.
    destruct (sorted_rows rows) as [ids rs] eqn:Es. destruct (scan_stored _ _ _ _ _ _ H) as [Hl Hin].
    destruct (sorted_rows_spec rows) as [Hids Hrows]. pose proof (sorted_rows_length rows) as Hlen.
    rewrite Es in Hrows, Hlen. simpl in Hrows, Hlen.
    split; [lia|]. intros c (k & ? & ?)%Hin. apply Hrows. eauto.
Qed.

(** What updating one candidate can do to the database. *)
Inductive update_effect (now : Value) (def : TableDef) (tbl : string) (sets : list (nat * Expr))
    (c : candidate) (s : S) : Db → Prop :=
  | UE_none : update_effect now def tbl sets c s (acc_view s)
  | UE_set new id rows :
      applySets now (singleTableScope def) def (ca_row c) sets (ca_row c) = Ok new →
      checkFK def new s = Ok tt → acc_view s !! tbl = Some (td_Cols def, rows) →
      update_effect now def tbl sets c s (<[tbl := (td_Cols def, <[id := new]> rows)]> (acc_view s))
  | UE_gone rows :
      fkReferenced tbl (ca_id c) tbl (ca_id c) s = Ok tt →
      acc_view s !! tbl = Some (td_Cols def, rows) →
      update_effect now def tbl sets c s (<[tbl := (td_Cols def, delete (ca_id c) rows)]> (acc_view s))
  | UE_moved new id rows :
      fkReferenced tbl (ca_id c) tbl (ca_id c) s = Ok tt →
      applySets now (singleTableScope def) def (ca_row c) sets (ca_row c) = Ok new →
      checkFK def new s = Ok tt → acc_view s !! tbl = Some (td_Cols def, rows) →
      update_effect now def tbl sets c s
        (<[tbl := (td_Cols def, <[id := new]> (delete (ca_id c) rows))]> (acc_view s)).

(** The ids an UPDATE writes to can be stored. *)
Definition update_id_ok (now : Value) (def : TableDef) (sets : list (nat * Expr)) (c : candidate) : Prop :=
  (0 < ca_id c < 2 ^ 62)%Z ∧
  ∀ new j, applySets now (singleTableScope def) def (ca_row c) sets (ca_row c) = Ok new →
    movedTo def (ca_row c) new = Some j → (0 ≤ j < 2 ^ 62)%Z.

Lemma stamp_none id r : stamp (-1) id r = r.
Proof. unfold stamp. by rewrite bool_decide_eq_false_2 by lia. Qed.

Lemma updateOne_step now def tbl sets c k rows s s' q :
  acc_inv s → acc_room k s → (1 < k < 2 ^ 62)%Z →
  acc_view s !! tbl = Some (td_Cols def, rows) → update_id_ok now def sets c →
  updateOne now def tbl sets c s = (s', q) →
  acc_inv s' ∧ acc_room (k - 2) s' ∧ update_effect now def tbl sets c s (acc_view s').
Proof.
  intros Hi Hroom Hk Hv [Hid Hmv] H. unfold updateOne, gbind, gget, glift, gret, map_err in H.
  assert (int64_max = 2 ^ 63 - 1)%Z as Hmax by done.
  assert (∀ j s2, acc_room j s2 → (k - 2 ≤ j)%Z → acc_room (k - 2) s2) as Hless by (intros; by eapply acc_room_mono).
  assert (acc_room (k - 2) s) as Hr0 by (apply (Hless k); [done|lia]).
  destruct (applySets _ _ _ _ _ _) as [new|] eqn:En; [|by simplify_eq; split_and!; [| |constructor]].
  destruct (checkFK def new s) as [[]|] eqn:Efk; [|by simplify_eq; split_and!; [| |constructor]].
  destruct (movedTo def (ca_row c) new) as [j|] eqn:Ej.
  - destruct (fkReferenced _ _ _ _ s) as [[]|] eqn:Er; [|by simplify_eq; split_and!; [| |constructor]].
    destruct (acc_Delete tbl (ca_id c) s) as [s1 q1] eqn:Ed.
    destruct (acc_Delete_spec _ _ _ _ _ Hi Ed) as (Hi1 & Hr1 & Hst1). apply acc_step_delete in Hst1.
    specialize (Hr1 _ Hroom ltac:(lia)).
    assert (acc_view s1 = acc_view s ∨
      acc_view s1 = <[tbl := (td_Cols def, delete (ca_id c) rows)]> (acc_view s)) as Hst1'.
    { destruct Hst1 as [?|(? & ? & Hn & ?)]; [by left|right]. rewrite Hv in Hn. by simplify_eq. }
    destruct q1 as [[]|err].
    2:{ simplify_eq. split_and!; [done|apply (Hless (k - 1)%Z); [done|lia]|]. destruct Hst1' as [->| ->]; by econstructor. }
    destruct (Hmv new j eq_refl Ej) as [Hj0 Hj1]. destruct (acc_Put tbl j new s1) as [s2 q2] eqn:Ep.
    destruct (acc_Put_spec tbl j new (k - 1) s1 s2 q2 Hi1 Hr1 ltac:(lia) ltac:(lia) ltac:(lia) Ep)
      as (Hi2 & Hr2 & Hst2).
    assert (s2 = s') as -> by (destruct q2; by simplify_eq). split; [done|].
    split; [apply (Hless (k - 1 - 1)%Z); [done|lia]|].
    apply acc_step_put in Hst2 as [->|(cols & rows' & id' & Hn & ->)].
    + destruct Hst1' as [->| ->]; by econstructor.
    + rewrite stamp_none. destruct Hst1' as [Hs| Hs]; rewrite Hs in Hn |- *.
      * rewrite Hv in Hn. simplify_eq. by econstructor.
      * rewrite lookup_insert_eq in Hn. simplify_eq. rewrite insert_insert_eq. by econstructor.
  - destruct (acc_Update tbl (ca_id c) new s) as [s1 q1] eqn:Eu.
    destruct (acc_Update_spec tbl (ca_id c) new k s s1 q1 Hi Hroom ltac:(lia) ltac:(lia) ltac:(lia) Eu)
      as (Hi1 & Hr1 & Hst).
    assert (s1 = s') as -> by (destruct q1; by simplify_eq). split; [done|].
    split; [apply (Hless (k - 1)%Z); [done|lia]|].
    apply acc_step_put in Hst as [->|(cols & rows' & id' & Hn & ->)]; [constructor|].
    rewrite stamp_none. rewrite Hv in Hn. simplify_eq. by econstructor.
Qed.

Lemma update_effect_cols now def tbl sets c s d rows :
  acc_view s !! tbl = Some (td_Cols def, rows) → update_effect now def tbl sets c s d →
  ∃ rows', d !! tbl = Some (td_Cols def, rows').
Proof. intros Hv H. inversion H; subst; rewrite ?lookup_insert_eq; eauto. Qed.

Lemma updateAll_inv (P : Db → Prop) now def tbl sets cs k s s' q :
  (∀ s c d, acc_inv s → P (acc_view s) → c ∈ cs → update_effect now def tbl sets c s d → P d) →
  acc_inv s → acc_room k s → (2 * Z.of_nat (length cs) ≤ k < 2 ^ 62)%Z →
  (∃ rows, acc_view s !! tbl = Some (td_Cols def, rows)) →
  Forall (update_id_ok now def sets) cs → P (acc_view s) →
  gforeach (updateOne now def tbl sets) cs s = (s', q) →
  (acc_inv s' ∧ acc_room (k - 2 * Z.of_nat (length cs)) s') ∧ P (acc_view s').
Proof.
  revert k s. induction cs as [|c cs IH]; intros k s HP Hi Hroom Hk [rows Hv] Hids Hp H; simpl in H.
  { unfold gret in H. simplify_eq. split; [|done]. split; [done|]. eapply acc_room_mono; [done|simpl; lia]. }
  apply Forall_cons in Hids as [Hid Hids]. unfold gbind in H. simpl in Hk.
  destruct (updateOne now def tbl sets c s) as [s1 q1] eqn:E1.
  destruct (updateOne_step _ _ _ _ _ k rows _ _ _ Hi Hroom ltac:(lia) Hv Hid E1) as (Hi1 & Hr1 & Hst).
  assert (P (acc_view s1)) as Hp1 by (eapply (HP s c); [done|done|by left|done]).
  apply (update_effect_cols _ _ _ _ _ _ _ rows Hv) in Hst.
  cbn [length]. destruct q1 as [[]|err]; cycle 1.
  { simplify_eq. split; [|done]. split; [done|]. eapply acc_room_mono; [exact Hr1|lia]. }
  replace (k - 2 * Z.of_nat (Datatypes.S (length cs)))%Z with (k - 2 - 2 * Z.of_nat (length cs))%Z by lia.
  eapply (IH (k - 2)%Z s1); [|done|done|lia|done|done|done|exact H].
  intros s2 c2 d2 ? ? Hin. apply HP; [done|done|by right].
Qed.

(** The rows an UPDATE writes can be stored: what its theorems assume of the
    statement [st] in the state [s]. *)
Record update_ready (now : Value) (st : UpdateStmt) (k : Z) (s : S) : Prop := {
  ur_inv : acc_inv s;
  ur_room : acc_room k s;
  ur_ids : ∀ def sets rows id r, tableDef (up_Table st) s = Ok def →
    setColumns def (up_Sets st) = Ok sets → acc_view s !! up_Table st = Some (td_Cols def, rows) →
    rows !! id = Some r → update_id_ok now def sets (MkCandidate id r);
  ur_rows : ∀ cols rows, acc_view s !! up_Table st = Some (cols, rows) →
    (2 * Z.of_nat (size rows) ≤ k < 2 ^ 62)%Z }.

Lemma execUpdate_inv (P : Db → Prop) sel now st k s s' q :
  (∀ def sets rows s1 c d, acc_view s !! up_Table st = Some (td_Cols def, rows) →
     rows !! ca_id c = Some (ca_row c) → setColumns def (up_Sets st) = Ok sets →
     acc_inv s1 → P (acc_view s1) → update_effect now def (up_Table st) sets c s1 d → P d) →
  update_ready now st k s → P (acc_view s) → execUpdate sel now st s = (s', q) →
  (acc_inv s' ∧ ∃ j, (0 ≤ k → 0 ≤ j)%Z ∧ acc_room j s') ∧ P (acc_view s').
Proof.
  intros HP [Hi Hroom Hids Hk] Hp H. unfold execUpdate, gbind, gget, glift, gret in H.
  destruct (tableDef (up_Table st) s) as [def|err] eqn:Ed; [|by simplify_eq; eauto 10].
  destruct (tableDef_view _ _ _ Hi Ed) as (_ & rows & Hv).
  destruct (setColumns def _) as [sets|err] eqn:Es; [|by simplify_eq; eauto 10].
  destruct (res_foreach _ _); [|by simplify_eq; eauto 10].
  destruct (prepareWhere sel _ (up_Where st) s) as [w|err]; [|by simplify_eq; eauto 10].
  destruct (collectCandidates now (up_Table st) def _ w s) as [cs|err] eqn:Ec; [|by simplify_eq; eauto 10].
  destruct (collectCandidates_stored _ _ _ _ _ _ _ _ _ Hi Hv Ec) as [Hl Hcs].
  destruct (gforeach _ cs s) as [s1 q1] eqn:E1. specialize (Hk _ _ Hv).
  assert ((acc_inv s1 ∧ acc_room (k - 2 * Z.of_nat (length cs)) s1) ∧ P (acc_view s1)) as [[Hi1 Hr1] Hp1].
  { eapply (updateAll_inv P now def _ sets cs k s); [|done|exact Hroom|lia|by eauto| |done|exact E1].
    - intros s2 c d ? ? Hin. eapply HP; [exact Hv|by apply Hcs|done..].
    - apply Forall_forall. intros [id r] Hc. eapply Hids; [done|done|exact Hv|]. exact (Hcs _ Hc). }
  assert (s1 = s') as -> by (destruct q1 as [[]|err]; by simplify_eq).
  split; [|done]. split; [done|]. eexists. split; [|done]. lia.
Qed.


(** Every literal of an expression is a machine value. *)
Fixpoint wf_expr (e : Expr) : Prop :=
  match e with
  | Lit v => wf_value v
  | Binary _ l r => wf_expr l ∧ wf_expr r
  | _ => True
  end.

Lemma arithmetic_wf op l r v : arithmetic op l r = Ok v → wf_value v.
Proof.
  unfold arithmetic. intros H. destruct (negb (is_num l) || _); [done|]. cbv zeta in H.
  destruct (_ && f64_eqb _ _); [done|].
  repeat (case_bool_decide; [destruct l, r; simplify_eq; done || apply wrap64_range|]). done.
Qed.

Lemma evalValue_wf sc now e r v :
  wf_value now → wf_expr e → Forall wf_value r → evalValue sc now e r = Ok v → wf_value v.
Proof.
  intros Hnow He Hr. unfold evalValue. revert v He. induction e; intros v He H; simpl in H; try done.
  - by simplify_eq.
  - destruct (resolve sc _ _) as [i|]; [|done]. simpl in H. unfold row_at in H.
    destruct (r !! i) as [w|] eqn:Ew; [|done]. simpl in H. simplify_eq. by eapply Forall_lookup_1.
  - case_bool_decide; [by simplify_eq|]. destruct (IsAggregateFunc _); done.
  - destruct He as [He1 He2]. destruct (evalValueCtx _ _ _ _ e1) as [l|]; [|done].
    destruct (evalValueCtx _ _ _ _ e2) as [w|]; [|done]. simpl in H.
    destruct (_ || _); [by simplify_eq|]. by eapply arithmetic_wf.
Qed.

Lemma row_typed_wf cols r : row_typed cols r → Forall wf_value r.
Proof.
  intros [Hl Ht]. apply Forall_lookup. intros i v Hv.
  destruct (lookup_lt_is_Some_2 cols i) as [c Hc]; [rewrite <-Hl; by eapply lookup_lt_Some|].
  specialize (Ht _ _ _ Hc Hv). destruct v; try done. by destruct Ht.
Qed.

Lemma applySets_typed now sc def old sets r r' :
  wf_value now → Forall wf_value old → Forall (λ ie, wf_expr ie.2) sets → row_typed (td_Cols def) r →
  applySets now sc def old sets r = Ok r' → row_typed (td_Cols def) r'.
Proof.
  intros Hnow Hold. revert r. induction sets as [|[i e] sets IH]; intros r Hwf Hr H; simpl in H; [by simplify_eq|].
  apply Forall_cons in Hwf as [He Hwf].
  destruct (evalValue sc now e old) as [v|] eqn:Ev; [|done]. simpl in H.
  destruct (td_Cols def !! i) as [c|] eqn:Ec; [|done]. destruct (coerce c v) as [cv|] eqn:Ecv; [|done].
  eapply IH; [done| |exact H]. eapply row_typed_insert; [done|done|].
  eapply coerce_typed; [|exact Ecv]. by eapply evalValue_wf.
Qed.

Lemma setColumns_wf def sets l :
  Forall (λ a, wf_expr (as_Expr a)) sets → setColumns def sets = Ok l → Forall (λ ie, wf_expr ie.2) l.
Proof.
  revert l. induction sets as [|a sets IH]; intros l Hwf H; simpl in H; [by simplify_eq|].
  apply Forall_cons in Hwf as [Ha Hwf]. destruct (findIndex _ _) as [i|]; [|done].
  destruct (setColumns def sets) as [l'|]; [|done]. simpl in H. simplify_eq. constructor; eauto.
Qed.

(** C29: UPDATE keeps every stored row well typed: the values it assigns, computed
    with 64-bit arithmetic, are converted to the type of their column or
    refused. *)
Theorem update_keeps_types (sel : Select → S → res Result) (now : Value) (st : UpdateStmt) k s s' q :
  update_ready now st k s → wf_value now → Forall (λ a, wf_expr (as_Expr a)) (up_Sets st) →
  db_rows row_typed (acc_view s) → execUpdate sel now st s = (s', q) →
  db_rows row_typed (acc_view s').
Proof.
  intros Hrd Hnow Hwf Ht H. eapply (execUpdate_inv (db_rows row_typed)); [|done|done|exact H].
  intros def sets rows0 s1 c d Hv0 Hc Hs Hi Ht1 He.
  assert (row_typed (td_Cols def) (ca_row c)) as Hold by (by eapply Ht).
  assert (∀ new, applySets now (singleTableScope def) def (ca_row c) sets (ca_row c) = Ok new →
    row_typed (td_Cols def) new) as Hnew.
  { intros new. apply applySets_typed; [done|by eapply row_typed_wf|by eapply setColumns_wf|done]. }
  destruct He as [|new id rows Hn Hck Hv|rows Hf Hv|new id rows Hf Hn Hck Hv].
  - done.
  - apply db_rows_put; auto.
  - by apply db_rows_delete.
  - rewrite <-(insert_insert_eq _ _ _ (td_Cols def, delete (ca_id c) rows)).
    apply db_rows_put; [by apply db_rows_delete|by rewrite lookup_insert_eq|auto].
Qed.

End integrity.

(** ** The UNIQUE shortcut *)

(** Values that the index and [Compare] distinguish alike. *)
Definition exact_value (v : Value) : Prop :=
  match v with
  | VInt i => (- 2 ^ 53 < i < 2 ^ 53)%Z
  | VText _ | VBool _ => True
  | _ => False
  end.

Lemma exact_compare v w :
  exact_value v → exact_value w → kind v = kind w → (Compare v w =? 0)%Z = bool_decide (v = w).
Proof.
  intros Hv Hw Hk. destruct v as [|i| |s|b|], w as [|j| |s'|b'|]; try done.
  - rewrite Compare_small by done. destruct (Z.compare_spec i j); symmetry;
      [apply bool_decide_eq_true|apply bool_decide_eq_false|apply bool_decide_eq_false]; simpl;
      first [congruence | intros [= ->]; lia].
  - unfold Compare. simpl. destruct (String.compare s s') eqn:Ec; symmetry.
    + apply bool_decide_eq_true. f_equal. by apply String.compare_eq_iff.
    + apply bool_decide_eq_false. intros [= ->]. by rewrite str_compare_refl in Ec.
    + apply bool_decide_eq_false. intros [= ->]. by rewrite str_compare_refl in Ec.
  - by destruct b, b'.
Qed.

(** A scan whose condition never fails is a filter. *)
Definition keep (p : row → bool) (ir : Z * row) : option candidate :=
  if p ir.2 then Some (MkCandidate ir.1 ir.2) else None.

Lemma scan_filter now sc w p ids rows :
  (∀ r, r ∈ rows → whereHolds now sc w r = Ok (p r)) →
  scan now sc w ids rows = Ok (omap (keep p) (zip ids rows)).
Proof.
  revert rows. induction ids as [|id ids IH]; intros [|r rows] H; simpl; try done.
  rewrite H by set_solver. simpl. rewrite IH by set_solver. simpl. unfold keep. simpl. by destruct (p r).
Qed.

Lemma omap_none {A B} (f : A → option B) l : (∀ x, x ∈ l → f x = None) → omap f l = [].
Proof. induction l as [|x l IH]; intros H; simpl; [done|]. rewrite H by set_solver. apply IH. set_solver. Qed.

Lemma omap_one {A B} (f : A → option B) l k x y :
  l !! k = Some x → f x = Some y → (∀ j z, l !! j = Some z → j ≠ k → f z = None) → omap f l = [y].
Proof.
  intros Hk Hf Hn. rewrite <-(take_drop_middle l k x Hk), omap_app, omap_none; simpl.
  - rewrite Hf. simpl. rewrite omap_none; [done|]. intros z [j Hj]%list_elem_of_lookup.
    rewrite lookup_drop in Hj. eapply Hn; [exact Hj|lia].
  - intros z [j Hj]%list_elem_of_lookup. apply lookup_take_Some in Hj as [Hj ?]. eapply Hn; [exact Hj|lia].
Qed.

Lemma sorted_rows_length2 m : length (sorted_rows m).1 = length (sorted_rows m).2.
Proof. simpl. by rewrite length_fmap. Qed.

Lemma sorted_lt_NoDup l : StronglySorted Z.lt l → NoDup l.
Proof.
  induction 1 as [|z l Hs IH Hf]; constructor; [|done]. intros Hin. rewrite Forall_forall in Hf.
  specialize (Hf _ Hin). lia.
Qed.

(** The column a shortcut found is the one its name resolves to. *)
Lemma NoDup_index (cols : list Column) i j c c' :
  NoDup (Name <$> cols) → cols !! i = Some c → cols !! j = Some c' → Name c = Name c' → i = j.
Proof.
  intros Hnd Hi Hj Hn. eapply (NoDup_lookup (Name <$> cols)); [done|..]; rewrite list_lookup_fmap.
  - by rewrite Hi.
  - rewrite Hj. simpl. by rewrite Hn.
Qed.

Lemma resolve_single def t n ci c :
  NoDup (Name <$> td_Cols def) → t = "" ∨ t = td_Name def → td_Cols def !! ci = Some c → Name c = n →
  resolve (singleTableScope def) t n = Ok ci.
Proof.
  intros Hnd Ht Hc Hn.
  assert (colIndexMap def !! n = Some ci) as Hm.
  { destruct (proj2 (colIndexMap_is_Some def n)) as [j Hj]; [exists c; split; [by eapply list_elem_of_lookup_2|done]|].
    destruct (colIndexMap_Some _ _ _ Hj) as (c' & Hc' & Hn').
    assert (j = ci) as ->; [|done]. eapply NoDup_index; [done..|]. congruence. }
  unfold resolve. case_bool_decide as Ht0.
  - destruct Ht as [->| ->]; [done|]. simpl. rewrite bool_decide_eq_true_2 by done.
    unfold jt_colIdx. simpl. by rewrite Hm.
  - unfold positions, singleTableScope, jt_colIdx. simpl. by rewrite Hm.
Qed.

(** The literal of [col = literal] or [literal = col]. *)
Definition literal_of (w : Expr) : option Value :=
  match w with
  | Cmp _ (ColRef _ _) (Lit v) | Cmp _ (Lit v) (ColRef _ _) => Some v
  | _ => None
  end.

Lemma uniqueEquality_inv w tbl def ci v lit :
  uniqueEquality w tbl def = Some (ci, v) → literal_of w = Some lit →
  ∃ t c, (t = "" ∨ t = tbl) ∧ td_Cols def !! ci = Some c ∧ Unique c = true ∧
    (w = Cmp "=" (ColRef t (Name c)) (Lit lit) ∨ w = Cmp "=" (Lit lit) (ColRef t (Name c))).
Proof.
  intros H Hl.
  assert (∀ t n, (if bool_decide (t ≠ "" ∧ t ≠ tbl) then None
    else i ← findIndex (λ c, bool_decide (Name c = n) && Unique c) (td_Cols def);
         c ← td_Cols def !! i;
         match Check (Type_ c) lit with Ok cv => Some (i, cv) | Err _ => None end) = Some (ci, v) →
    (t = "" ∨ t = tbl) ∧ ∃ c, td_Cols def !! ci = Some c ∧ Unique c = true ∧ Name c = n) as Hlook.
  { intros t n Hq. case_bool_decide as Ht; [done|].
    apply bind_Some in Hq as (i & Hi & (c & Hc & Hq)%bind_Some).
    destruct (Check (Type_ c) lit); [|done]. simplify_eq. split.
    - destruct (decide (t = "")); [by left|]. destruct (decide (t = tbl)); [by right|]. by destruct Ht.
    - apply findIndex_Some in Hi as (c' & Hc' & [Hn%bool_decide_eq_true Hu]%andb_true_iff).
      exists c'. by rewrite Hc'. }
  destruct w as [| | |op l r| | | | | | |]; try done.
  destruct l as [lv|t n| | | | | | | | |], r as [rv|t' n'| | | | | | | | |]; try done;
    simpl in Hl; simplify_eq; simpl in H; case_bool_decide; try done; subst op;
    apply Hlook in H as (Ht & c & Hc & Hu & <-); eauto 10.
Qed.

Lemma whereHolds_unique now t lit c ci w def r v :
  NoDup (Name <$> td_Cols def) → (t = "" ∨ t = td_Name def) → td_Cols def !! ci = Some c →
  (w = Cmp "=" (ColRef t (Name c)) (Lit lit) ∨ w = Cmp "=" (Lit lit) (ColRef t (Name c))) →
  exact_value lit → r !! ci = Some v → (v ≠ VNull → exact_value v ∧ kind v = kind lit) →
  whereHolds now (singleTableScope def) (Some w) r = Ok (bool_decide (r !! ci = Some lit)).
Proof.
  intros Hnd Ht Hc Hw Hlit Hv Hex.
  assert (IsNull lit = false) as Hnl by (by destruct lit).
  assert (bool_decide (r !! ci = Some lit) = bool_decide (v = lit)) as ->.
  { rewrite Hv. apply bool_decide_ext. naive_solver. }
  unfold whereHolds, evalBool. destruct Hw as [-> | ->]; simpl;
    rewrite (resolve_single def t (Name c) ci c) by done; simpl; unfold row_at; rewrite Hv; simpl; rewrite Hnl;
    (destruct (decide (v = VNull)) as [->|Hnn]; [simpl; by rewrite bool_decide_eq_false_2 by (by intros <-)|]);
    (assert (IsNull v = false) as -> by (by destruct v)); destruct (Hex Hnn) as [Hev Hk]; simpl;
    unfold cmp_op; simpl; rewrite exact_compare by done;
    unfold passes; simpl; rewrite andb_true_r; [done|]. f_equal. apply bool_decide_ext. naive_solver.
Qed.

Lemma key_at_exact r ci lit :
  exact_value lit → key_at r ci = Some (uniqKey lit) ↔ r !! ci = Some lit.
Proof.
  intros Hlit. unfold key_at. destruct (r !! ci) as [v|]; [|naive_solver]. split.
  - destruct (IsNull v); [done|]. intros [= Hk]. f_equal. symmetry. apply uniqKey_inj; [|done].
    unfold exact_key_kind. destruct lit; simpl in *; tauto.
  - intros [= ->]. by destruct lit.
Qed.

(** C35: The UNIQUE shortcut is an optimisation only: for [col = literal] on a
    UNIQUE column holding text, booleans or integers of magnitude below 2^53,
    the lookup in the index selects exactly the rows the full scan selects. *)
Theorem index_agrees_scan (now : Value) (tbl : string) (t : Table) (w : Expr) (ci : nat) (lit : Value)
    (e : Engine) :
  cat_ok (e_cat e) → e_tables e !! tbl = Some t →
  uniqueEquality w tbl (table_def t) = Some (ci, lit) → literal_of w = Some lit → exact_value lit →
  (∀ id r v, t_rows t !! id = Some r → r !! ci = Some v → v ≠ VNull →
     exact_value v ∧ kind v = kind lit) →
  collectCandidates now tbl (table_def t) (singleTableScope (table_def t)) (Some w) e =
  collectScan now tbl (singleTableScope (table_def t)) (Some w) e.
Proof.
  intros Hok Ht Hue Hl Hlit Hex. destruct (co_table _ Hok _ _ Ht) as ([Hsh Hix] & _ & Hvd).
  pose proof (co_name _ Hok _ _ Ht) as Hname.
  destruct (uniqueEquality_inv _ _ _ _ _ _ Hue Hl) as (a & c & Ha & Hc & Hu & Hw).
  set (sc := singleTableScope (table_def t)). set (p := λ r : row, bool_decide (r !! ci = Some lit)).
  assert (∀ id r, t_rows t !! id = Some r → whereHolds now sc (Some w) r = Ok (p r)) as Hwh.
  { intros id r Hr. destruct (lookup_lt_is_Some_2 r ci) as [v Hv].
    { rewrite (Hsh _ _ Hr). by apply lookup_lt_Some in Hc. }
    eapply whereHolds_unique; [apply (vd_distinct _ Hvd)| |exact Hc|exact Hw|done|exact Hv|eauto].
    simpl. by rewrite Hname. }
  unfold collectCandidates, collectScan. cbn [mbind option_bind]. rewrite Hue.
  pose proof (abs_lookup _ _ _ Ht) as Hv. assert (acc_inv e) as Hi by done.
  assert (acc_AllRows tbl e = Ok (sorted_rows (t_rows t))) as ->.
  { rewrite (acc_AllRows_spec tbl e Hi). simpl. by rewrite Hv. }
  destruct (sorted_rows_spec (t_rows t)) as [Hs Hrows]. destruct (sorted_rows (t_rows t)) as [ids rows] eqn:Es.
  simpl in Hs, Hrows.
  rewrite (scan_filter _ _ _ p).
  2:{ intros r [k Hk]%list_elem_of_lookup.
      destruct (lookup_lt_is_Some_2 ids k) as [id Hid]; [|by eapply Hwh, Hrows; eauto].
      pose proof (sorted_rows_length2 (t_rows t)) as Hlen. rewrite Es in Hlen. simpl in Hlen. rewrite Hlen.
      by eapply lookup_lt_Some. }
  assert (∀ r, key_at r ci = Some (uniqKey lit) ↔ p r = true) as Hkey.
  { intros r. unfold p. rewrite bool_decide_eq_true. by apply key_at_exact. }
  assert (ci ∈ uniqCols (td_Cols (table_def t))) as Hci by (apply elem_of_uniqCols; eauto).
  pose proof (acc_UniqueGet_spec tbl ci lit _ _ e Hi Hv Hci ltac:(by intros ->)) as Hug.
  destruct (acc_UniqueGet tbl ci lit e) as [id|].
  - destruct Hug as (r & Hr & Hk). rewrite (acc_Get_spec _ id _ _ _ Hi Hv : acc_Get tbl id e = _), Hr.
    rewrite (Hwh _ _ Hr). pose proof (proj1 (Hkey r) Hk) as Hp. simpl. rewrite Hp.
    f_equal. symmetry. pose proof Hr as (k & Hk1 & Hk2)%Hrows.
    apply (omap_one _ _ k (id, r)); [by apply lookup_zip_with_Some; eauto 10|unfold keep; simpl; by rewrite Hp|].
    intros j [id' r'] (? & ? & [= <- <-] & Hj1 & Hj2)%lookup_zip_with_Some Hne. unfold keep. simpl.
    destruct (p r') eqn:Hp'; [|done]. destruct Hne.
    assert (t_rows t !! id' = Some r') as Hr' by (apply Hrows; eauto).
    assert (id' = id) as ->.
    { eapply (index_ok_unique_rows _ _ _ Hix ci id' id r' r (uniqKey lit)); [done..| |done].
      by apply Hkey. }
    eapply (NoDup_lookup ids); [|exact Hj1|exact Hk1]. by apply sorted_lt_NoDup.
  - f_equal. symmetry. apply omap_none. intros [id r] [k (? & ? & [= <- <-] & Hk1 & Hk2)%lookup_zip_with_Some]%list_elem_of_lookup.
    unfold keep. simpl. destruct (p r) eqn:Hp; [|done].
    assert (t_rows t !! id = Some r) as Hr by (apply Hrows; eauto).
    exfalso. eapply Hug; [exact Hr|]. by apply Hkey.
Qed.
