(* ===== verification/ExecDemo.v ===== *)
(** * Instances of the theorems of [Exec] and executions of statements

    A database with a foreign key ([posts.author] refers to [users.id]) on
    which the theorems on INSERT, UPDATE and DELETE are applied, and runs of
    statements that show behaviour the theorems exclude by hypothesis. *)
From S2P Require Import Prelude GoStd Types Schema Wal Table Engine Txn Accessor Ast Eval Exec.

Open Scope go_scope.

(** ** Executable forms of the invariants *)
Definition fk_cell (d : Db) (cv : Column * Value) : bool :=
  match cv.2 with
  | VInt i =>
      bool_decide (FKTable cv.1 = "") ||
      match d !! FKTable cv.1 with
      | Some (_, rows) => bool_decide (is_Some (rows !! i))
      | None => false
      end
  | _ => true
  end.
Definition fk_check (d : Db) : bool :=
  forallb (λ t : string * (list Column * gmap Z row),
    forallb (λ c, bool_decide (FKTable c = "") || bool_decide (is_Some (d !! FKTable c))) t.2.1 &&
    forallb (λ ir : Z * row, forallb (fk_cell d) (zip t.2.1 ir.2)) (map_to_list t.2.2)) (map_to_list d).

Lemma zip_In {A B} i (l : list A) (k : list B) x y :
  l !! i = Some x → k !! i = Some y → In (x, y) (zip l k).
Proof.
  intros Hx Hy. apply list_elem_of_In. eapply (list_elem_of_lookup_2 _ i).
  apply lookup_zip_with_Some. eauto 10.
Qed.

Lemma fk_check_ok d : fk_check d = true → fk_ok d.
Proof.
  unfold fk_check. rewrite forallb_forall. intros H.
  assert (∀ n cols rows, d !! n = Some (cols, rows) →
    (∀ c, c ∈ cols → FKTable c ≠ "" → is_Some (d !! FKTable c)) ∧
    (∀ id r, rows !! id = Some r → forallb (fk_cell d) (zip cols r) = true)) as H'.
  { intros n cols rows Hn. specialize (H (n, (cols, rows))). simpl in H.
    rewrite andb_true_iff, !forallb_forall in H.
    destruct H as [H1 H2]; [by apply list_elem_of_In, elem_of_map_to_list|]. split.
    - intros c Hc%list_elem_of_In Hne. specialize (H1 _ Hc).
      rewrite bool_decide_eq_false_2 in H1 by done. by apply bool_decide_eq_true in H1.
    - intros id r Hr. apply (H2 (id, r)). by apply list_elem_of_In, elem_of_map_to_list. }
  split.
  - intros n cols rows c Hn. apply (H' _ _ _ Hn).
  - intros n cols rows id r ci c i Hn Hr Hc Hne Hv. destruct (H' _ _ _ Hn) as [_ H2].
    specialize (H2 _ _ Hr). rewrite forallb_forall in H2.
    assert (fk_cell d (c, VInt i) = true) as Hcell.
    { apply H2. by apply (zip_In ci). }
    unfold fk_cell in Hcell. simpl in Hcell. rewrite bool_decide_eq_false_2 in Hcell by done. simpl in Hcell.
    destruct (d !! FKTable c) as [[pcols prows]|]; [|done].
    apply bool_decide_eq_true in Hcell. eauto.
Qed.

Definition has_typeb (ct : ColumnType) (v : Value) : bool :=
  match v with
  | VNull => true
  | VInt i => bool_decide (ct = TypeInt ∨ ct = TypeBigint) && bool_decide (in_int64 i)
  | VFloat _ => bool_decide (ct = TypeFloat)
  | VText _ => bool_decide (ct = TypeText)
  | VBool _ => bool_decide (ct = TypeBool)
  | VTime _ => bool_decide (ct = TypeTimestamp)
  end.
Definition row_typedb (cols : list Column) (r : row) : bool :=
  bool_decide (length r = length cols) &&
  forallb (λ cv : Column * Value, has_typeb (Type_ cv.1) cv.2) (zip cols r).
Definition row_completeb (cols : list Column) (r : row) : bool :=
  forallb (λ cv : Column * Value, negb (NotNull cv.1 && negb (Primary cv.1) && IsNull cv.2)) (zip cols r).

Lemma row_typedb_ok cols r : row_typedb cols r = true → row_typed cols r.
Proof.
  unfold row_typedb. intros [H1%bool_decide_eq_true H2]%andb_true_iff. split; [done|].
  rewrite forallb_forall in H2. intros ci c v Hc Hv. specialize (H2 (c, v)). simpl in H2.
  assert (has_typeb (Type_ c) v = true) as H.
  { apply H2. by apply (zip_In ci). }
  destruct v; simpl in *; try done; try by apply bool_decide_eq_true in H.
  apply andb_true_iff in H as [?%bool_decide_eq_true ?%bool_decide_eq_true]. done.
Qed.

Lemma row_completeb_ok cols r : row_completeb cols r = true → row_complete cols r.
Proof.
  unfold row_completeb. rewrite forallb_forall. intros H ci c Hc Hn Hp Hv.
  specialize (H (c, VNull)). simpl in H. rewrite Hn, Hp in H. discriminate H.
  by apply (zip_In ci).
Qed.

Definition db_rowsb (p : list Column → row → bool) (d : Db) : bool :=
  forallb (λ t : string * (list Column * gmap Z row),
    forallb (λ ir : Z * row, p t.2.1 ir.2) (map_to_list t.2.2)) (map_to_list d).

Lemma db_rowsb_ok p (P : list Column → row → Prop) d :
  (∀ cols r, p cols r = true → P cols r) → db_rowsb p d = true → db_rows P d.
Proof.
  unfold db_rowsb. rewrite forallb_forall. intros Hp H n cols rows id r Hn Hr. apply Hp.
  specialize (H (n, (cols, rows))). simpl in H. rewrite forallb_forall in H.
  apply (H ltac:(by apply list_elem_of_In, elem_of_map_to_list) (id, r)).
  by apply list_elem_of_In, elem_of_map_to_list.
Qed.

(** ** The database *)
Definition posts_cols : list Column :=
  [MkColumn "id" TypeInt false true true false "" "";
   MkColumn "author" TypeInt false false false false "users" "id"].

(** Two users; post 1 belongs to user 1. *)
Definition blog : Engine :=
  run_all [CCreate "users" demo_cols; CPut "users" 0 0 [VNull; VText "a"] false;
           CPut "users" 0 0 [VNull; VText "b"] false; CCreate "posts" posts_cols;
           CPut "posts" 0 0 [VNull; VInt 1] false] (fresh_engine []).

Definition no_sel : Select → Engine → res Result := λ _ _, Err (errRelation "").

Lemma blog_inv : acc_inv blog.
Proof. apply run_all_ok; [apply fresh_ok|vm_compute; reflexivity]. Qed.
Lemma blog_fk : fk_ok (acc_view blog).
Proof. apply fk_check_ok. vm_compute. reflexivity. Qed.

Lemma blog_room : acc_room 5 blog.
Proof.
  split; [vm_compute; reflexivity|]. intros n t Ht.
  assert (map_Forall (λ _ t, t_nextID t + 5 ≤ int64_max)%Z (e_tables blog)) as H; [|by apply (H n)].
  apply (bool_decide_unpack _). vm_compute. exact I.
Qed.

(** [DELETE FROM users]: user 1 has a post and stays; nothing dangles. *)
Lemma delete_keeps_fk_witness :
  let s' := (execDelete no_sel VNull (MkDelete "users" None) blog).1 in
  fk_ok (acc_view s') ∧ Engine.Get "users" 1 s' = Some [VInt 1; VText "a"].
Proof.
  destruct (delete_keeps_fk no_sel VNull (MkDelete "users" None) blog _ _ blog_inv blog_fk
    (surjective_pairing _)) as [_ H].
  split; [exact H|vm_compute; reflexivity].
Defined.

(** [INSERT INTO posts VALUES (NULL, 2), (7, NULL), (NULL, 9)]: the first two
    rows are stored, the last has no author. *)
Definition new_posts : InsertStmt :=
  MkInsert "posts" [] [[Lit VNull; Lit (VInt 2)]; [Lit (VInt 7); Lit VNull]; [Lit VNull; Lit (VInt 9)]].

Lemma new_posts_ready : insert_ready VNull new_posts 5 blog.
Proof.
  split; [apply blog_inv|apply blog_room|vm_compute; split; [discriminate|reflexivity]|].
  intros def idx Hd Hx. vm_compute in Hd. injection Hd as <-. vm_compute in Hx. injection Hx as <-.
  unfold new_posts. cbn [in_Rows in_Table].
  repeat apply Forall_cons_2; try apply Forall_nil_2; intros r id Hr Hid;
    vm_compute in Hr; injection Hr as <-; vm_compute in Hid;
    (discriminate Hid || (injection Hid as <-; vm_compute; split; [discriminate|reflexivity])).
Qed.

Lemma blog_pk : cols_of (acc_view blog) "posts" pk_plain.
Proof.
  intros cols rows H. assert (fst <$> acc_view blog !! "posts" = Some posts_cols) as Hc by (vm_compute; reflexivity).
  rewrite H in Hc. simpl in Hc. injection Hc as ->. intros c Hin Hp. unfold posts_cols in Hin.
  apply elem_of_cons in Hin as [->|Hin]; [done|]. apply list_elem_of_singleton in Hin as ->. done.
Qed.


Lemma insert_keeps_types_witness :
  db_rows (λ cols r, row_typed cols r ∧ row_complete cols r) (acc_view (execInsert VNull new_posts blog).1).
Proof.
  refine (insert_keeps_types VNull new_posts 5 blog _ _ new_posts_ready I _ _ _ (surjective_pairing _)).
  - repeat constructor; vm_compute; discriminate.
  - intros cols rows H.
    assert (fst <$> acc_view blog !! "posts" = Some posts_cols) as Hc by (vm_compute; reflexivity).
    cbn [in_Table new_posts] in H. rewrite H in Hc. simpl in Hc. injection Hc as ->.
    repeat constructor; simpl; intros; done.
  - apply (db_rowsb_ok (λ cols r, row_typedb cols r && row_completeb cols r)); [|vm_compute; reflexivity].
    intros cols r [H1 H2]%andb_true_iff. auto using row_typedb_ok, row_completeb_ok.
Defined.

(** [UPDATE posts SET id = id + 10, author = 2]: the key of post 1 moves. *)
Definition move_posts : UpdateStmt :=
  MkUpdate "posts" [MkAssignment "id" (Binary "+" (ColRef "" "id") (Lit (VInt 10)));
                    MkAssignment "author" (Lit (VInt 2))] None.

Lemma move_posts_ready : update_ready VNull move_posts 5 blog.
Proof.
  assert (acc_view blog !! "posts" = Some (posts_cols, {[ 1%Z := [VInt 1; VInt 1] ]})) as Hv
    by (vm_compute; reflexivity).
  split; [apply blog_inv|apply blog_room| |].
  - intros def sets rows id r Hd Hs Hr Hid. cbn [up_Table move_posts] in Hr. rewrite Hv in Hr.
    injection Hr as _ <-. apply lookup_singleton_Some in Hid as [<- <-].
    vm_compute in Hd. injection Hd as <-. vm_compute in Hs. injection Hs as <-.
    split; [vm_compute; split; reflexivity|]. intros new j Hn Hj. vm_compute in Hn. injection Hn as <-.
    vm_compute in Hj. injection Hj as <-. vm_compute. split; [discriminate|reflexivity].
  - intros cols rows Hr. cbn [up_Table move_posts] in Hr. rewrite Hv in Hr. injection Hr as _ <-.
    rewrite map_size_singleton. lia.
Qed.


Lemma update_keeps_types_witness :
  db_rows row_typed (acc_view (execUpdate no_sel VNull move_posts blog).1).
Proof.
  refine (update_keeps_types no_sel VNull move_posts 5 blog _ _ move_posts_ready I _ _ (surjective_pairing _)).
  - repeat constructor; vm_compute; discriminate.
  - apply (db_rowsb_ok row_typedb); [apply row_typedb_ok|vm_compute; reflexivity].
Defined.

(** [WHERE 'b' = users.email] through the index and by a scan. *)
Lemma index_agrees_scan_witness :
  ∃ t, e_tables blog !! "users" = Some t ∧
  let w := Cmp "=" (Lit (VText "b")) (ColRef "users" "email") in
  let sc := singleTableScope (table_def t) in
  collectCandidates VNull "users" (table_def t) sc (Some w) blog =
  collectScan VNull "users" sc (Some w) blog.
Proof.
  destruct (e_tables blog !! "users") as [t|] eqn:Et; [|by vm_compute in Et].
  exists t. split; [done|]. intros w sc.
  assert (table_def <$> e_tables blog !! "users" = Some (MkTableDef "users" demo_cols)) as Hd by (vm_compute; reflexivity).
  assert (t_rows <$> e_tables blog !! "users" =
    Some {[ 1%Z := [VInt 1; VText "a"]; 2%Z := [VInt 2; VText "b"] ]}) as Hr by (vm_compute; reflexivity).
  rewrite Et in Hd, Hr. injection Hd as Hd Hcols. injection Hr as Hr.
  refine (index_agrees_scan VNull "users" t w 1 (VText "b") blog blog_inv Et _ eq_refl I _).
  - change (table_def t) with (MkTableDef (t_name t) (t_cols t)). rewrite Hd, Hcols. vm_compute. reflexivity.
  - intros id r v. rewrite Hr. clear. intros [[<- <-]|[_ [<- <-]%lookup_singleton_Some]]%lookup_insert_Some; intros [= <-] _; split; (exact I || reflexivity).
Defined.

(** ** Runs outside the hypotheses *)

(** An automatic id is written after the foreign keys are checked: a primary key
    that refers to another table can end up without its parent. *)
Example auto_pk_escapes_fk :
  let e := run_all [CCreate "profiles" [MkColumn "id" TypeInt false true true false "users" "id"]] blog in
  let add := execInsert VNull (MkInsert "profiles" [] [[Lit VNull]; [Lit VNull]; [Lit VNull]]) e in
  add.2 = Ok (MkResult [] [] 3) ∧ Engine.Get "profiles" 3 add.1 = Some [VInt 3] ∧
  Engine.Get "users" 3 add.1 = None.
Proof. vm_compute. split_and!; reflexivity. Qed.

(** An explicit id of 0 asks the storage for an automatic one, but the cell of
    the primary key keeps its 0. *)
Example zero_id_keeps_cell :
  let add := execInsert VNull (MkInsert "users" [] [[Lit (VInt 0); Lit (VText "z")]]) blog in
  add.2 = Ok (MkResult [] [] 1) ∧ Engine.Get "users" 3 add.1 = Some [VInt 0; VText "z"].
Proof. vm_compute. split; reflexivity. Qed.

(** In autocommit, an UPDATE that moves a primary key onto a taken one reports
    the duplicate and has deleted the row. *)
Example move_onto_taken_loses_row :
  let up := execUpdate no_sel VNull
    (MkUpdate "users" [MkAssignment "id" (Lit (VInt 1))]
       (Some (Cmp "=" (ColRef "" "id") (Lit (VInt 2))))) blog in
  up.2 = Err (errDuplicateID "users" 1) ∧ Engine.Get "users" 2 blog = Some [VInt 2; VText "b"] ∧
  Engine.Get "users" 2 up.1 = None.
Proof. vm_compute. split_and!; reflexivity. Qed.

(** UPDATE does not check NOT NULL, and can take the primary key away. *)
Example update_writes_null :
  let cols := [MkColumn "id" TypeInt false true false false "" "";
               MkColumn "name" TypeText true false false false "" ""] in
  let e := run_all [CCreate "t" cols; CPut "t" (-1) 1 [VInt 1; VText "a"] false] (fresh_engine []) in
  let up := execUpdate no_sel VNull
    (MkUpdate "t" [MkAssignment "name" (Lit VNull); MkAssignment "id" (Lit VNull)] None) e in
  up.2 = Ok (MkResult [] [] 1) ∧ Engine.Get "t" 1 up.1 = Some [VNull; VNull].
Proof. vm_compute. split; reflexivity. Qed.

(** The UNIQUE index compares exactly, a scan through [Compare] does not: the
    same WHERE selects nothing through the index and a row without it. *)
Example index_and_scan_differ :
  let cols := [MkColumn "n" TypeBigint false false false true "" ""] in
  let e := run_all [CCreate "t" cols; CPut "t" (-1) 0 [VInt (2 ^ 53)] false] (fresh_engine []) in
  let def := MkTableDef "t" cols in
  let w := Some (Cmp "=" (ColRef "" "n") (Lit (VInt (2 ^ 53 + 1)))) in
  collectCandidates VNull "t" def (singleTableScope def) w e = Ok [] ∧
  collectScan VNull "t" (singleTableScope def) w e = Ok [MkCandidate 1 [VInt (2 ^ 53)]].
Proof. vm_compute. split; reflexivity. Qed.

(** DROP TABLE does not look at foreign keys. *)
Example drop_orphans_posts :
  let down := execDrop "users" false blog in
  down.2 = Ok (MkResult [] [] 0) ∧ Engine.Get "posts" 1 down.1 = Some [VInt 1; VInt 1] ∧
  Engine.TableID "users" down.1 = None.
Proof. vm_compute. split_and!; reflexivity. Qed.
