(* ===== verification/Select.v ===== *)
(** * SELECT (executor/executor.go: planning, joins, grouping, ordering)

    [execSelect] as the code runs it: FROM with derived tables, IN subqueries
    made into literal lists, name and GROUP BY checks before any row is read,
    the left-deep nested-loop join, WHERE (through the UNIQUE index where it
    applies), grouping and HAVING, ORDER BY, LIMIT and the select list.

    A query calls itself for derived tables and subqueries; the recursion is on
    the syntax tree, so no fuel is needed.  [now] is the time of the statement
    (the code reads the clock again for each row).  [sort.SliceStable] is a
    stable insertion sort: for an order that is a strict weak one all stable
    sorts agree.  [strconv.Quote], which the group keys of text use, enters as
    the class [Quoter] with its documented contract. *)
From Stdlib Require Import Decidable.
From S2P Require Import Prelude GoStd Types Schema Wal Table Engine Txn Accessor Ast Eval Exec.

Open Scope go_scope.

(** ** Plans *)
Inductive fieldPlan :=
  | fieldCol (pos : nat)
  | fieldAgg (pos : option nat) (name : string) (star : bool)
  | fieldNow
  | fieldExpr (e : Expr).

Definition errGroupBy (name : string) : error :=
  SQLError "42803" "column %q must appear in the GROUP BY clause or be used in an aggregate function"
    [AStr name].
Definition errFunc (name : string) : error :=
  SQLError "42883" "function %s() is not supported in v1" [AStr name].

(** The header of a position: the column's name, qualified in a join. *)
Fixpoint headerFrom (single : bool) (sc : joinScope) (pos : nat) : string :=
  match sc with
  | [] => "?"
  | t :: sc =>
      if bool_decide (jt_basePos t ≤ pos ∧ pos < jt_basePos t + length (td_Cols (jt_def t))) then
        match td_Cols (jt_def t) !! (pos - jt_basePos t) with
        | Some c => if single then Name c else jt_alias t +:+ "." +:+ Name c
        | None => "?"
        end
      else headerFrom single sc pos
  end.
Definition headerAt (sc : joinScope) (pos : nat) : string :=
  headerFrom (bool_decide (length sc = 1)) sc pos.

Definition validateAggregate (name : string) (star : bool) (arg : option Expr) (sc : joinScope) :
    res (option nat) :=
  if star then
    if bool_decide (name ≠ "count") then Err (SQLError "42883" "%s(*) is not supported" [AStr name])
    else Ok None
  else
    match arg with
    | None => Err (SQLError "42883" "%s() requires an argument" [AStr name])
    | Some (ColRef t n) => Some <$> resolve sc t n
    | Some _ => Err (SQLError "42883" "aggregate argument must be a column reference in v1" [])
    end.

Definition aggHeader (name : string) (star : bool) (arg : option Expr) : string :=
  if star then name +:+ "(*)"
  else match arg with
       | Some (ColRef t n) =>
           if bool_decide (t ≠ "") then name +:+ "(" +:+ t +:+ "." +:+ n +:+ ")"
           else name +:+ "(" +:+ n +:+ ")"
       | _ => name +:+ "(?)"
       end.

(** One item of the select list and its header. *)
Definition planField (sc : joinScope) (grouping : bool) (groupPos : list nat) (alias : string) (f : Expr) :
    res (fieldPlan * string) :=
  let named (h : string) := if bool_decide (alias ≠ "") then alias else h in
  match f with
  | ColRef t n =>
      pos ← resolve sc t n;
      if grouping && negb (bool_decide (pos ∈ groupPos)) then Err (errGroupBy n)
      else Ok (fieldCol pos, named (headerAt sc pos))
  | Func name star arg =>
      if bool_decide (name = "now") then Ok (fieldNow, named "now()")
      else if IsAggregateFunc name then
        if negb grouping then Err (SQLError "42803" "aggregate functions require GROUP BY in v1" [])
        else
          pos ← validateAggregate name star arg sc;
          Ok (fieldAgg pos name star, named (aggHeader name star arg))
      else Err (errFunc name)
  | _ =>
      if grouping then
        Err (SQLError "42803" "non-aggregate expressions must appear in the GROUP BY clause" [])
      else _ ← validateExpr sc f; Ok (fieldExpr f, named "expr")
  end.

Fixpoint planList (sc : joinScope) (grouping : bool) (groupPos : list nat) (fields : list Expr)
    (aliases : list string) : res (list (fieldPlan * string)) :=
  match fields with
  | [] => Ok []
  | f :: fields =>
      p ← planField sc grouping groupPos (default "" (head aliases)) f;
      ps ← planList sc grouping groupPos fields (tail aliases);
      Ok (p :: ps)
  end.

(** The columns of one table of the scope for [*]. *)
Definition starTable (sc : joinScope) (t : joinTable) : list (fieldPlan * string) :=
  (λ j, (fieldCol (jt_basePos t + j), headerAt sc (jt_basePos t + j))) <$>
    seq 0 (length (td_Cols (jt_def t))).

Definition planFields (sc : joinScope) (star : bool) (fields : list Expr) (aliases : list string)
    (grouping : bool) (groupPos : list nat) : res (list (fieldPlan * string)) :=
  if star then
    if grouping then
      Err (SQLError "42803" "SELECT * is not allowed with GROUP BY or aggregate functions" [])
    else Ok (sc ≫= starTable sc)
  else planList sc grouping groupPos fields aliases.

(** ORDER BY with grouping admits grouped columns, aggregates, now() and
    literals; without, any expression. *)
Definition orderPlan (sc : joinScope) (grouping : bool) (groupPos : list nat) (ot : OrderTerm) :
    res fieldPlan :=
  let '(MkOrderTerm e _) := ot in
  if grouping then
    match e with
    | ColRef t n =>
        pos ← resolve sc t n;
        if bool_decide (pos ∈ groupPos) then Ok (fieldCol pos) else Err (errGroupBy n)
    | Func name star arg =>
        if bool_decide (name = "now") then Ok fieldNow
        else if IsAggregateFunc name then
          pos ← validateAggregate name star arg sc; Ok (fieldAgg pos name star)
        else Err (errFunc name)
    | Lit _ => Ok (fieldExpr e)
    | _ => Err (SQLError "42803" "ORDER BY must reference a GROUP BY column or an aggregate in v1" [])
    end
  else
    _ ← validateExpr sc e;
    match e with
    | ColRef t n => pos ← resolve sc t n; Ok (fieldCol pos)
    | _ => Ok (fieldExpr e)
    end.

Definition ot_Desc (ot : OrderTerm) : bool := let '(MkOrderTerm _ d) := ot in d.

Fixpoint validateHaving (sc : joinScope) (groupPos : list nat) (e : Expr) : res unit :=
  match e with
  | ColRef t n =>
      pos ← resolve sc t n;
      if bool_decide (pos ∈ groupPos) then Ok tt else Err (errGroupBy n)
  | Func name star arg =>
      if bool_decide (name = "now") then Ok tt
      else if IsAggregateFunc name then _ ← validateAggregate name star arg sc; Ok tt
      else Err (SQLError "42883" "function %s() is not supported in HAVING" [AStr name])
  | Cmp _ l r | And l r | Or l r | Binary _ l r =>
      _ ← validateHaving sc groupPos l; validateHaving sc groupPos r
  | IsNullE x _ | Not x | InSub x _ _ => validateHaving sc groupPos x
  | InList x l _ => _ ← validateHaving sc groupPos x; all_literals l
  | Lit _ => Ok tt
  end.

(** GROUP BY: positions of column references. *)
Fixpoint groupPositions (sc : joinScope) (group : list Expr) : res (list nat) :=
  match group with
  | [] => Ok []
  | ColRef t n :: group => p ← resolve sc t n; ps ← groupPositions sc group; Ok (p :: ps)
  | _ :: _ => Err (SQLError "42601" "GROUP BY accepts column references in v1" [])
  end.

Definition is_aggregate (f : Expr) : bool :=
  match f with Func name _ _ => IsAggregateFunc name | _ => false end.

(** A FROM subquery as a table. *)
Definition derivedType (rows : list row) (i : nat) : ColumnType :=
  match head rows with
  | Some r =>
      match r !! i with
      | Some (VInt _) => TypeInt
      | Some (VFloat _) => TypeFloat
      | Some (VBool _) => TypeBool
      | Some (VTime _) => TypeTimestamp
      | _ => TypeText
      end
  | None => TypeText
  end.
Definition derivedDef (alias : string) (rs : Result) : TableDef :=
  MkTableDef alias (imap (λ i h, MkColumn h (derivedType (res_Rows rs) i) false false false false "" "")
                      (res_Columns rs)).

(** ** Rows: the join and WHERE *)
Section rows.
  Context (now : Value).

(** The rows of the right table that match one left row. *)
Fixpoint matchRight (sc : joinScope) (on : Expr) (lrow : row) (rrows : list row) : res (list row) :=
  match rrows with
  | [] => Ok []
  | rrow :: rrows =>
      b ← whereHolds now sc (Some on) (lrow ++ rrow);
      ms ← matchRight sc on lrow rrows;
      Ok (if (b : bool) then (lrow ++ rrow) :: ms else ms)
  end.

(** One left row: its matches, or itself padded with NULLs in a LEFT JOIN. *)
Definition joinRow (sc : joinScope) (on : Expr) (left : bool) (width : nat) (rrows : list row) (lrow : row) :
    res (list row) :=
  ms ← matchRight sc on lrow rrows;
  Ok (if left && bool_decide (ms = []) then [lrow ++ replicate width VNull] else ms).

Fixpoint joinStep (sc : joinScope) (on : Expr) (left : bool) (width : nat) (rrows joined : list row) :
    res (list row) :=
  match joined with
  | [] => Ok []
  | lrow :: joined =>
      ms ← joinRow sc on left width rrows lrow;
      rest ← joinStep sc on left width rrows joined;
      Ok (ms ++ rest)
  end.

(** The tables after the first, [i] being the position of the next one. *)
Fixpoint joinFrom (i : nat) (sc : joinScope) (tables : list (joinTable * list row)) (ons : list Expr)
    (kinds : list string) (joined : list row) : res (list row) :=
  match tables with
  | [] => Ok joined
  | (t, rrows) :: tables =>
      match ons !! (i - 1), kinds !! (i - 1) with
      | Some on, Some kind =>
          next ← joinStep (sub (i + 1) sc) on (bool_decide (kind = "left")) (length (td_Cols (jt_def t)))
                   rrows joined;
          joinFrom (i + 1) sc tables ons kinds next
      | _, _ => Err panicRow
      end
  end.

Fixpoint filterWhere (sc : joinScope) (w : option Expr) (rows : list row) : res (list row) :=
  match rows with
  | [] => Ok []
  | r :: rows =>
      b ← whereHolds now sc w r;
      rest ← filterWhere sc w rows;
      Ok (if (b : bool) then r :: rest else rest)
  end.

Section load.
  Context {S : Type} `{!Accessor S}.

Definition tableRows (s : S) (t : joinTable) : res (list row) :=
  match jt_rows t with
  | Some rows => Ok rows
  | None => snd <$> acc_AllRows (td_Name (jt_def t)) s
  end.

Fixpoint loadAll (s : S) (sc : joinScope) : res (list (joinTable * list row)) :=
  match sc with
  | [] => Ok []
  | t :: sc => rows ← tableRows s t; rest ← loadAll s sc; Ok ((t, rows) :: rest)
  end.

Definition collectJoined (sc : joinScope) (ons : list Expr) (kinds : list string) (w : option Expr) (s : S) :
    res (list row) :=
  loaded ← loadAll s sc;
  match loaded with
  | [] => Err panicRow
  | (_, first) :: rest =>
      joined ← joinFrom 1 sc rest ons kinds first;
      filterWhere sc w joined
  end.

(** The rows of FROM and WHERE, through the UNIQUE index for [col = literal] on
    a single stored table. *)
Definition selectRows (sc : joinScope) (ons : list Expr) (kinds : list string) (w : option Expr) (s : S) :
    res (list row) :=
  match sc with
  | [MkJoinTable def alias _ None] =>
      match w ≫= λ e, uniqueEquality e alias def with
      | Some (ci, lit) =>
          match acc_UniqueGet (td_Name def) ci lit s with
          | None => Ok []
          | Some id =>
              match acc_Get (td_Name def) id s with
              | None => Ok []
              | Some r =>
                  b ← whereHolds now sc w r;
                  Ok (if (b : bool) then [r] else [])
              end
          end
      | None => collectJoined sc ons kinds w s
      end
  | _ => collectJoined sc ons kinds w s
  end.
End load.

(** ** Values of a plan *)

(** [group] is the rows of the group, if the query groups. *)
Definition planValue (sc : joinScope) (group : option (list row)) (r : row) (p : fieldPlan) : res Value :=
  match p with
  | fieldCol pos => row_at r pos
  | fieldAgg pos name star =>
      match group with
      | Some rows => evalAggregate name star rows pos
      | None => Err (SQLError "0A000" "unsupported expression" [])
      end
  | fieldNow => Ok now
  | fieldExpr e => evalValue sc now e r
  end.

Fixpoint planValues (sc : joinScope) (group : option (list row)) (r : row) (ps : list fieldPlan) :
    res (list Value) :=
  match ps with
  | [] => Ok []
  | p :: ps => v ← planValue sc group r p; vs ← planValues sc group r ps; Ok (v :: vs)
  end.

(** ** ORDER BY *)
Fixpoint lessKeys (desc : list bool) (ka kb : list Value) : bool :=
  match desc, ka, kb with
  | d :: desc, a :: ka, b :: kb =>
      let c := Compare a b in
      if (c =? 0)%Z then lessKeys desc ka kb
      else if (d : bool) then (0 <? c)%Z else (c <? 0)%Z
  | _, _, _ => false
  end.

(** [sort.SliceStable] by keys. *)
Fixpoint insertKeyed {A} (desc : list bool) (x : list Value * A) (l : list (list Value * A)) :
    list (list Value * A) :=
  match l with
  | [] => [x]
  | y :: l' => if lessKeys desc y.1 x.1 then y :: insertKeyed desc x l' else x :: l
  end.
Definition SliceStable {A} (desc : list bool) (l : list (list Value * A)) : list (list Value * A) :=
  foldr (insertKeyed desc) [] l.

(** ** Groups *)
Record grp := MkGrp { g_repr : row; g_rows : list row }.

Fixpoint keyedItems (sc : joinScope) (grouping : bool) (ps : list fieldPlan) (gs : list grp) :
    res (list (list Value * grp)) :=
  match gs with
  | [] => Ok []
  | g :: gs =>
      ks ← planValues sc (if grouping then Some (g_rows g) else None) (g_repr g) ps;
      rest ← keyedItems sc grouping ps gs;
      Ok ((ks, g) :: rest)
  end.

(** ORDER BY, LIMIT and the select list, on groups or, without grouping, on
    rows, each being a group of its own. *)
Definition orderItems (sc : joinScope) (grouping : bool) (plans : list fieldPlan) (desc : list bool)
    (gs : list grp) : res (list grp) :=
  if bool_decide (plans = []) then Ok gs
  else
    keyed ← keyedItems sc grouping plans gs;
    Ok (SliceStable desc keyed).*2.

Definition limitItems {A} (limit : option Z) (l : list A) : res (list A) :=
  match limit with
  | Some n =>
      if (n <? Z.of_nat (length l))%Z then
        if (n <? 0)%Z then Err panicRow else Ok (take (Z.to_nat n) l)
      else Ok l
  | None => Ok l
  end.

Fixpoint projectItems (sc : joinScope) (grouping : bool) (ps : list fieldPlan) (gs : list grp) :
    res (list (list Value)) :=
  match gs with
  | [] => Ok []
  | g :: gs =>
      out ← planValues sc (if grouping then Some (g_rows g) else None) (g_repr g) ps;
      rest ← projectItems sc grouping ps gs;
      Ok (out :: rest)
  end.

Fixpoint keepGroups (sc : joinScope) (h : Expr) (gs : list grp) : res (list grp) :=
  match gs with
  | [] => Ok []
  | g :: gs =>
      bn ← evalBoolCtx sc now (g_repr g) (Some (MkGroupCtx (g_rows g) now)) h;
      rest ← keepGroups sc h gs;
      Ok (if passes bn then g :: rest else rest)
  end.
End rows.

(** [strconv.Quote]: a quoted Go string literal determines the string, and holds
    no NUL byte. *)
Class Quoter := {
  Quote : string → string;
  Quote_inj s s' : Quote s = Quote s' → s = s';
  Quote_no_nul s : all_chars (λ c, negb (Ascii.eqb c Ascii.zero)) (Quote s) = true }.

Section grouping.
  Context {Q : Quoter}.

Definition valKeyPart (v : Value) : string :=
  match v with
  | VInt i => "i" +:+ FormatInt i
  | VFloat f => "f" +:+ FormatFloat f
  | VText s => "s" +:+ Quote s
  | VBool b => if b then "b1" else "b0"
  | VTime t => "t" +:+ FormatInt (wrap64 t)
  | VNull => "n"
  end.

Definition nul : string := String Ascii.zero "".

Fixpoint groupKey (groupPos : list nat) (r : row) : res string :=
  match groupPos with
  | [] => Ok ""
  | p :: ps => v ← row_at r p; k ← groupKey ps r; Ok (valKeyPart v +:+ nul +:+ k)
  end.

(** One turn of the grouping loop: [gi] maps keys to groups. *)
Definition addToGroup (key : string) (r : row) (st : gmap string nat * list grp) : gmap string nat * list grp :=
  match st.1 !! key with
  | Some i => (st.1, alter (λ g, MkGrp (g_repr g) (g_rows g ++ [r])) i st.2)
  | None => (<[key := length st.2]> st.1, st.2 ++ [MkGrp r [r]])
  end.

Fixpoint groupLoop (groupPos : list nat) (rows : list row) (st : gmap string nat * list grp) :
    res (list grp) :=
  match rows with
  | [] => Ok st.2
  | r :: rows => k ← groupKey groupPos r; groupLoop groupPos rows (addToGroup k r st)
  end.

Definition groupRows (groupPos : list nat) (rows : list row) : res (list grp) :=
  gs ← groupLoop groupPos rows (∅, []);
  Ok (if bool_decide (groupPos = []) && bool_decide (gs = []) then [MkGrp [] []] else gs).
End grouping.

(** ** The statement *)
Section select.
  Context {S : Type} `{!Accessor S} {Q : Quoter} (now : Value).

Section from.
  Context (sel : Select → S → res Result).

(** The scope of FROM: derived tables are run here, an alias may be used once.
    [rows] stays nil for a subquery without rows. *)
Fixpoint fromTables (base : nat) (seen : list string) (trs : list TableRef) (s : S) : res joinScope :=
  match trs with
  | [] => Ok []
  | MkTableRef tbl alias subq :: trs =>
      '(def, rows) ← match subq with
                     | Some q =>
                         rs ← sel q s;
                         Ok (derivedDef alias rs,
                             match res_Rows rs with [] => None | rows => Some rows end)
                     | None => def ← tableDef tbl s; Ok (def, None)
                     end;
      if bool_decide (alias ∈ seen) then
        Err (SQLError "42703" "table alias %q specified more than once" [AStr alias])
      else
        rest ← fromTables (base + length (td_Cols def)) (alias :: seen) trs s;
        Ok (MkJoinTable def alias base rows :: rest)
  end.

Definition resolveOpt (s : S) (e : option Expr) : res (option Expr) :=
  match e with None => Ok None | Some e => Some <$> resolveInSubqueries sel s e end.

Fixpoint resolveOns (s : S) (ons : list Expr) : res (list Expr) :=
  match ons with
  | [] => Ok []
  | e :: ons => e' ← resolveInSubqueries sel s e; rest ← resolveOns s ons; Ok (e' :: rest)
  end.
End from.

Fixpoint validateOns (i : nat) (sc : joinScope) (ons : list Expr) : res unit :=
  match ons with
  | [] => Ok tt
  | e :: ons => _ ← validateExpr (sub (i + 2) sc) e; validateOns (i + 1) sc ons
  end.

Fixpoint orderPlans (sc : joinScope) (grouping : bool) (groupPos : list nat) (order : list OrderTerm) :
    res (list fieldPlan) :=
  match order with
  | [] => Ok []
  | ot :: order => p ← orderPlan sc grouping groupPos ot; ps ← orderPlans sc grouping groupPos order; Ok (p :: ps)
  end.

(** A row as a group of its own. *)
Definition singleton_grp (r : row) : grp := MkGrp r [r].

(** The query once FROM is in scope and its subqueries are literals: planning,
    then the rows. *)
Definition runSelect (sc : joinScope) (ons : list Expr) (kinds : list string) (star : bool)
    (fields : list Expr) (aliases : list string) (w : option Expr) (group : list Expr)
    (having : option Expr) (order : list OrderTerm) (limit : option Z) (s : S) : res Result :=
  _ ← validateOns 0 sc ons;
  _ ← match w with None => Ok tt | Some e => validateExpr sc e end;
  groupPos ← groupPositions sc group;
  let grouping := negb (bool_decide (groupPos = [])) || existsb is_aggregate fields
                  || bool_decide (is_Some having) in
  _ ← match having with None => Ok tt | Some h => validateHaving sc groupPos h end;
  plans ← planFields sc star fields aliases grouping groupPos;
  orders ← orderPlans sc grouping groupPos order;
  filtered ← selectRows now sc ons kinds w s;
  gs ← (if grouping then groupRows groupPos filtered else Ok (singleton_grp <$> filtered));
  kept ← match having with None => Ok gs | Some h => keepGroups now sc h gs end;
  sorted ← orderItems now sc grouping orders (ot_Desc <$> order) kept;
  limited ← limitItems limit sorted;
  out ← projectItems now sc grouping plans.*1 limited;
  Ok (MkResult plans.*2 out 0).

Fixpoint execSelect (q : Select) (s : S) : res Result :=
  match q with
  | MkSelect tables ons kinds star fields aliases w group having order limit =>
      sc ← fromTables execSelect 0 [] tables s;
      w' ← resolveOpt execSelect s w;
      having' ← resolveOpt execSelect s having;
      ons' ← resolveOns execSelect s ons;
      runSelect sc ons' kinds star fields aliases w' group having' order limit s
  end.
End select.

(** ** ORDER BY *)
Definition key_ok (n : nat) (k : list Value) : Prop := length k = n ∧ Forall no_nan k.

(** The comparison of two cells, descending or not. *)
Definition dirCompare (d : bool) (a b : Value) : Z := if d then (- Compare a b)%Z else Compare a b.

Lemma dirCompare_order d a b c :
  no_nan a → no_nan b → no_nan c →
  dirCompare d a b = (- dirCompare d b a)%Z ∧
  ((dirCompare d a b ≤ 0)%Z → (dirCompare d b c ≤ 0)%Z → (dirCompare d a c ≤ 0)%Z).
Proof.
  intros Ha Hb Hc. unfold dirCompare.
  destruct (Compare_preorder a b c) as (_ & H1 & _ & H2); [done..|].
  destruct (Compare_preorder c b a) as (_ & H3 & _ & H4); [done..|].
  destruct (Compare_preorder a c a) as (_ & H5 & _ & _); [done..|].
  destruct d; split; [lia| |lia|done]. intros. assert (Compare c a ≤ 0)%Z by (apply H4; lia). lia.
Qed.

Lemma lessKeys_cons d desc a ka b kb :
  lessKeys (d :: desc) (a :: ka) (b :: kb) = true ↔
    (dirCompare d a b < 0)%Z ∨ (dirCompare d a b = 0%Z ∧ lessKeys desc ka kb = true).
Proof.
  unfold dirCompare. simpl. destruct (Z.eqb_spec (Compare a b) 0) as [E|E].
  - rewrite E. destruct d; naive_solver lia.
  - destruct d; rewrite Z.ltb_lt; naive_solver lia.
Qed.

Lemma lessKeys_asym desc ka kb :
  key_ok (length desc) ka → key_ok (length desc) kb →
  lessKeys desc ka kb = true → lessKeys desc kb ka = false.
Proof.
  revert ka kb. induction desc as [|d desc IH]; intros [|a ka] [|b kb] [La Ha] [Lb Hb]; try done.
  apply Forall_cons in Ha as [Ha Hka], Hb as [Hb Hkb]. simpl in La, Lb.
  rewrite <-not_true_iff_false, !lessKeys_cons.
  destruct (dirCompare_order d a b b Ha Hb Hb) as (Hanti & _).
  intros [?|[? Hl]] [?|[? Hl']]; try lia. apply IH in Hl; [congruence|split; [lia|done]..].
Qed.

(** "Not after" is transitive. *)
Lemma lessKeys_trans desc ka kb kc :
  key_ok (length desc) ka → key_ok (length desc) kb → key_ok (length desc) kc →
  lessKeys desc kb ka = false → lessKeys desc kc kb = false → lessKeys desc kc ka = false.
Proof.
  revert ka kb kc. induction desc as [|d desc IH]; intros [|a ka] [|b kb] [|c kc] [La Ha] [Lb Hb] [Lc Hc]; try done.
  apply Forall_cons in Ha as [Ha Hka], Hb as [Hb Hkb], Hc as [Hc Hkc]. simpl in La, Lb, Lc.
  rewrite <-!not_true_iff_false, !lessKeys_cons.
  destruct (dirCompare_order d a b c Ha Hb Hc) as (H1 & H2).
  destruct (dirCompare_order d b c a Hb Hc Ha) as (H3 & H4).
  destruct (dirCompare_order d c a b Hc Ha Hb) as (H5 & H6).
  intros [N1 N1']%not_or [N2 N2']%not_or [N3|[N3 N4]]; [lia|].
  assert (dirCompare d c b = 0 ∧ dirCompare d b a = 0)%Z as [Ecb Eba] by lia.
  assert (lessKeys desc kc ka = false); [|congruence].
  apply (IH ka kb kc); [by split; [lia|]..| |]; apply not_true_iff_false; naive_solver.
Qed.

(** The sort: insertion keeps what is sorted, and the order of equals; with
    the code's comparison first, related below to the order of the keys. *)
Definition sorted_keys_by {A} (desc : list bool) : list (list Value * A) → Prop :=
  StronglySorted (λ x y, lessKeys desc y.1 x.1 = false).
Definition same_key {A} (desc : list bool) (k : list Value) (x : list Value * A) : bool :=
  negb (lessKeys desc k x.1) && negb (lessKeys desc x.1 k).

Section sort.
  Context {A : Type} (desc : list bool).
  Implicit Types (x y : list Value * A) (l : list (list Value * A)).
  Abbreviation ok x := (key_ok (length desc) x.1).

Lemma insertKeyed_perm x l : insertKeyed desc x l ≡ₚ x :: l.
Proof.
  induction l as [|y l IH]; simpl; [done|]. destruct (lessKeys _ _ _); [|done].
  rewrite IH. apply Permutation_swap.
Qed.

Lemma SliceStable_perm l : SliceStable desc l ≡ₚ l.
Proof. induction l as [|x l IH]; simpl; [done|]. by rewrite insertKeyed_perm, IH. Qed.

Lemma insertKeyed_sorted x l :
  ok x → Forall (λ y, ok y) l → sorted_keys_by desc l → sorted_keys_by desc (insertKeyed desc x l).
Proof.
  intros Hx Hl Hs. induction Hs as [|y l Hs IH Hy]; simpl; [repeat constructor|].
  apply Forall_cons in Hl as [Hoy Hl]. destruct (lessKeys desc y.1 x.1) eqn:E.
  - constructor; [by apply IH|]. rewrite insertKeyed_perm. constructor; [|done]. by apply lessKeys_asym.
  - constructor; [by constructor|]. constructor; [done|].
    rewrite Forall_forall in Hl, Hy |- *. intros z Hz.
    eapply (lessKeys_trans desc x.1 y.1 z.1); [done|done|by apply Hl|done|by apply Hy].
Qed.

Lemma SliceStable_sorted l : Forall (λ y, ok y) l → sorted_keys_by desc (SliceStable desc l).
Proof.
  induction l as [|x l IH]; simpl; [constructor|]. intros [Hx Hl]%Forall_cons.
  apply insertKeyed_sorted; [done| |by apply IH]. by rewrite SliceStable_perm.
Qed.

Lemma insertKeyed_stable k x l :
  key_ok (length desc) k → ok x → Forall (λ y, ok y) l →
  filter (λ y, same_key desc k y) (insertKeyed desc x l) = filter (λ y, same_key desc k y) (x :: l).
Proof.
  intros Hk Hx Hl. induction l as [|y l IH]; simpl; [done|].
  apply Forall_cons in Hl as [Hy Hl]. destruct (lessKeys desc y.1 x.1) eqn:E; [|done].
  rewrite !filter_cons, IH, filter_cons by done. unfold same_key.
  destruct (decide (negb (lessKeys desc k y.1) && negb (lessKeys desc y.1 k))) as [Hy1|]; [|done].
  destruct (decide (negb (lessKeys desc k x.1) && negb (lessKeys desc x.1 k))) as [Hx1|]; [|done].
  apply Is_true_true, andb_true_iff in Hy1 as [_ Hyk%negb_true_iff], Hx1 as [Hkx%negb_true_iff _].
  assert (lessKeys desc y.1 x.1 = false); [|congruence].
  by eapply (lessKeys_trans desc x.1 k y.1).
Qed.

Lemma SliceStable_stable k l :
  key_ok (length desc) k → Forall (λ y, ok y) l →
  filter (λ y, same_key desc k y) (SliceStable desc l) = filter (λ y, same_key desc k y) l.
Proof.
  intros Hk. induction l as [|x l IH]; simpl; [done|]. intros [Hx Hl]%Forall_cons.
  rewrite insertKeyed_stable; [|done|done|by rewrite SliceStable_perm]. by rewrite !filter_cons, IH.
Qed.
End sort.

(** The keys of an item as ORDER BY computes them. *)
Definition keys_of (now : Value) (sc : joinScope) (grouping : bool) (ps : list fieldPlan) (g : grp) :
    res (list Value) :=
  planValues now sc (if grouping then Some (g_rows g) else None) (g_repr g) ps.

Lemma planValues_length now sc group r ps vs : planValues now sc group r ps = Ok vs → length vs = length ps.
Proof.
  revert vs. induction ps as [|p ps IH]; intros vs H; simpl in H; [by simplify_eq|].
  destruct (planValue now sc group r p); [|done]. simpl in H.
  destruct (planValues now sc group r ps) as [vs'|]; [|done]. simpl in H. simplify_eq. simpl. by rewrite IH.
Qed.

Lemma keyedItems_spec now sc grouping ps gs keyed :
  keyedItems now sc grouping ps gs = Ok keyed →
  keyed.*2 = gs ∧ Forall (λ x, keys_of now sc grouping ps x.2 = Ok x.1) keyed.
Proof.
  revert keyed. induction gs as [|g gs IH]; intros keyed H; simpl in H; [by simplify_eq|].
  destruct (planValues _ _ _ _ _) as [ks|] eqn:Ek; [|done]. simpl in H.
  destruct (keyedItems _ _ _ _ gs) as [rest|]; [|done]. simpl in H. simplify_eq.
  destruct (IH _ eq_refl) as [<- Hf]. split; [done|]. by constructor.
Qed.

(** *** What ORDER BY promises

    The order of rows is stated without [lessKeys]: cells are ordered by the
    rank of [Types.value_rank] (NULL, then numbers by their value, text by its
    bytes, false before true, times), a DESC key the other way round, and one
    list of keys comes before another when it does so at the first key in which
    the two differ. *)
Definition same_cell (a b : Value) : Prop := rank_cmp (value_rank a) (value_rank b) = Eq.
Definition cell_before (d : bool) (a b : Value) : Prop :=
  if d then rank_cmp (value_rank b) (value_rank a) = Lt else rank_cmp (value_rank a) (value_rank b) = Lt.
Definition same_keys : list Value → list Value → Prop := Forall2 same_cell.
Definition keys_before (desc : list bool) (ka kb : list Value) : Prop :=
  ∃ (i : nat) (d : bool) (a b : Value),
    desc !! i = Some d ∧ ka !! i = Some a ∧ kb !! i = Some b ∧
    same_keys (take i ka) (take i kb) ∧ cell_before d a b.
#[global] Instance same_cell_dec : RelDecision same_cell.
Proof. intros a b. unfold same_cell. apply _. Defined.
#[global] Instance same_keys_dec : RelDecision same_keys.
Proof. intros ka kb. unfold same_keys. apply _. Defined.

Lemma dirCompare_before d a b :
  no_nan a → no_nan b → (dirCompare d a b < 0)%Z ↔ cell_before d a b.
Proof.
  intros Ha Hb. unfold dirCompare, cell_before. rewrite (rank_cmp_antisym (value_rank b)).
  rewrite Compare_rank by done. destruct d, (rank_cmp _ _); simpl; split; try done; lia.
Qed.

Lemma dirCompare_same d a b : no_nan a → no_nan b → dirCompare d a b = 0%Z ↔ same_cell a b.
Proof.
  intros Ha Hb. unfold dirCompare, same_cell. rewrite Compare_rank by done.
  destruct d, (rank_cmp _ _); simpl; split; try done; lia.
Qed.

Lemma keys_before_cons d desc a ka b kb :
  keys_before (d :: desc) (a :: ka) (b :: kb) ↔
    cell_before d a b ∨ (same_cell a b ∧ keys_before desc ka kb).
Proof.
  unfold keys_before. split.
  - intros ([|i] & d' & a' & b' & Hd & Ha & Hb & Hs & Hc); simpl in *; simplify_eq; [by left|].
    apply Forall2_cons in Hs as [Hs Hs']. right. split; [done|]. by exists i, d', a', b'.
  - intros [Hc|(Hs & i & d' & a' & b' & Hd & Ha & Hb & Hs' & Hc)].
    + exists 0, d, a, b. split_and!; try done. constructor.
    + exists (S i), d', a', b'. split_and!; try done. by constructor.
Qed.

(** The code's comparison is that order. *)
Lemma lessKeys_before desc ka kb :
  key_ok (length desc) ka → key_ok (length desc) kb →
  lessKeys desc ka kb = true ↔ keys_before desc ka kb.
Proof.
  revert ka kb. induction desc as [|d desc IH]; intros [|a ka] [|b kb] [La Ha] [Lb Hb]; try done.
  { split; [done|]. intros (i & d & a & b & Hd & _). done. }
  apply Forall_cons in Ha as [Ha Hka], Hb as [Hb Hkb]. simpl in La, Lb.
  rewrite lessKeys_cons, keys_before_cons, dirCompare_before, dirCompare_same, IH by (done || by split; [lia|]).
  done.
Qed.

Lemma same_key_same {A} desc k (x : list Value * A) :
  key_ok (length desc) k → key_ok (length desc) x.1 → same_key desc k x ↔ same_keys k x.1.
Proof.
  intros Hk Hx. unfold same_key. destruct x as [kx y]. simpl in *. clear y.
  rewrite Is_true_true, andb_true_iff, !negb_true_iff, <-!not_true_iff_false, !lessKeys_before by done.
  revert k kx Hk Hx. induction desc as [|d desc IH]; intros [|a ka] [|b kb] [La Ha] [Lb Hb]; try done.
  { split; [constructor|]. intros _. split; intros (i & ? & ? & ? & Hd & _); done. }
  apply Forall_cons in Ha as [Ha Hka], Hb as [Hb Hkb]. simpl in La, Lb.
  unfold same_keys in *. rewrite !keys_before_cons, Forall2_cons, <-IH by (by split; [lia|]).
  rewrite <-!dirCompare_before, <-!(dirCompare_same d) by done.
  destruct (dirCompare_order d a b b Ha Hb Hb) as [Hanti _].
  split; [intros [H1 H2]|intros [H1 [H2 H3]]]; [|by split; (intros [?|[_ ?]]; [lia|])].
  assert (dirCompare d a b = 0)%Z as E by (apply not_or in H1, H2; lia).
  split; [done|]. split; intros ?; [apply H1|apply H2]; right; (split; [lia|done]).
Qed.

Lemma filter_same_key {A} desc k (l : list (list Value * A)) :
  key_ok (length desc) k → Forall (λ x, key_ok (length desc) x.1) l →
  filter (λ x, same_key desc k x) l = filter (λ x, same_keys k x.1) l.
Proof.
  intros Hk Hl. induction Hl as [|x l Hx Hl IH]; [done|]. rewrite !filter_cons, IH.
  pose proof (same_key_same desc k x Hk Hx). repeat case_decide; tauto.
Qed.

Lemma sorted_keys_before {A} desc (l : list (list Value * A)) :
  Forall (λ x, key_ok (length desc) x.1) l → sorted_keys_by desc l →
  StronglySorted (λ x y, ¬ keys_before desc y.1 x.1) l.
Proof.
  intros Hl Hs. induction Hs as [|x l Hs IH Hx]; [constructor|].
  apply Forall_cons in Hl as [Hkx Hl]. constructor; [by apply IH|].
  rewrite Forall_forall in Hx, Hl |- *. intros y Hy.
  rewrite <-lessKeys_before by auto. apply not_true_iff_false. by apply Hx.
Qed.

(** C34: ORDER BY is a stable sort by the keys with their directions, for keys
    that are not NaN. The result holds the same items, each with the keys its
    expressions have; no item is followed, directly or later, by one whose keys
    come before its own; and the items with the same keys as a given item stay
    in the order they had. The order of keys is [keys_before], which does not
    mention the comparison of the code. *)
Theorem order_by_correct (now : Value) (sc : joinScope) (grouping : bool) (plans : list fieldPlan)
    (desc : list bool) (gs out : list grp) :
  orderItems now sc grouping plans desc gs = Ok out → plans ≠ [] → length desc = length plans →
  (∀ g ks, g ∈ gs → keys_of now sc grouping plans g = Ok ks → Forall no_nan ks) →
  ∃ keyed sorted : list (list Value * grp),
    keyed.*2 = gs ∧ sorted.*2 = out ∧ sorted ≡ₚ keyed ∧
    Forall (λ x, keys_of now sc grouping plans x.2 = Ok x.1) sorted ∧
    StronglySorted (λ x y, ¬ keys_before desc y.1 x.1) sorted ∧
    ∀ x, x ∈ keyed → filter (λ y, same_keys x.1 y.1) sorted = filter (λ y, same_keys x.1 y.1) keyed.
Proof.
  intros H Hne Hlen Hnan. unfold orderItems in H. rewrite bool_decide_eq_false_2 in H by done.
  destruct (keyedItems _ _ _ _ _) as [keyed|] eqn:Ek; [|done]. simpl in H. simplify_eq.
  destruct (keyedItems_spec _ _ _ _ _ _ Ek) as [Hgs Hks]. exists keyed, (SliceStable desc keyed).
  assert (Forall (λ x, key_ok (length desc) x.1) keyed) as Hok.
  { rewrite Forall_forall in Hks |- *. intros x Hx. pose proof (Hks _ Hx) as Hk. split.
    - rewrite Hlen. by eapply planValues_length.
    - eapply Hnan; [|exact Hk]. rewrite <-Hgs. by apply list_elem_of_fmap_2. }
  assert (Forall (λ x, key_ok (length desc) x.1) (SliceStable desc keyed)) as Hok' by by rewrite SliceStable_perm.
  split_and!; [done|done|apply SliceStable_perm|by rewrite SliceStable_perm|..].
  - by apply sorted_keys_before; [|apply SliceStable_sorted].
  - intros x Hx. assert (key_ok (length desc) x.1) as Hkx by (rewrite Forall_forall in Hok; by apply Hok).
    rewrite <-!(filter_same_key desc) by done. by apply SliceStable_stable.
Qed.

(** ** GROUP BY *)
Section groups.
  Context {Q : Quoter}.
  Implicit Types (rows : list row) (gp : list nat).

(** The rows of one key, in order. *)
Definition has_key gp (k : string) (r : row) : bool :=
  match groupKey gp r with Ok k' => bool_decide (k' = k) | Err _ => false end.
Definition rows_with gp rows (k : string) : list row := filter (λ r, has_key gp k r) rows.

(** The group of a key. *)
Definition group_of gp rows (k : string) : grp :=
  MkGrp (default [] (head (rows_with gp rows k))) (rows_with gp rows k).

(** The state of the grouping loop after the rows [seen]: [ks] are the keys in
    order of first appearance. *)
Record group_inv gp (seen : list row) (st : gmap string nat * list grp) (ks : list string) : Prop := {
  gi_nodup : NoDup ks;
  gi_index : ∀ k i, st.1 !! k = Some i ↔ ks !! i = Some k;
  gi_groups : st.2 = group_of gp seen <$> ks;
  gi_rows : ∀ k, k ∈ ks → rows_with gp seen k ≠ [];
  gi_keys : ∀ r, r ∈ seen → ∃ k, groupKey gp r = Ok k ∧ k ∈ ks }.

Lemma rows_with_snoc gp seen r k0 k :
  groupKey gp r = Ok k0 →
  rows_with gp (seen ++ [r]) k = if bool_decide (k0 = k) then rows_with gp seen k ++ [r] else rows_with gp seen k.
Proof.
  intros Hk. unfold rows_with. rewrite filter_app, filter_cons, filter_nil.
  assert (has_key gp k r = bool_decide (k0 = k)) as -> by (unfold has_key; by rewrite Hk).
  case_bool_decide; simpl; [done|by rewrite app_nil_r].
Qed.

Lemma group_of_other gp seen r k0 k :
  groupKey gp r = Ok k0 → k ≠ k0 → group_of gp (seen ++ [r]) k = group_of gp seen k.
Proof. intros Hk Hne. unfold group_of. rewrite (rows_with_snoc _ _ _ k0) by done. by rewrite bool_decide_eq_false_2 by done. Qed.

Lemma rows_with_none gp seen st ks k :
  group_inv gp seen st ks → k ∉ ks → rows_with gp seen k = [].
Proof.
  intros [_ _ _ _ Hkeys] Hk. unfold rows_with. destruct (filter _ seen) as [|r l] eqn:Ef; [done|].
  assert (r ∈ filter (λ r, has_key gp k r) seen) as Hr by (rewrite Ef; by left).
  apply list_elem_of_filter in Hr as [Hkey Hr]. apply Hkeys in Hr as (k' & Hk' & Hin).
  unfold has_key in Hkey. rewrite Hk' in Hkey. apply Is_true_true, bool_decide_eq_true in Hkey. by subst.
Qed.

Lemma addToGroup_inv gp seen st ks r k :
  group_inv gp seen st ks → groupKey gp r = Ok k →
  ∃ ks', group_inv gp (seen ++ [r]) (addToGroup k r st) ks'.
Proof.
  intros Hinv Hk. pose proof Hinv as [Hnd Hix Hgs Hrows Hkeys]. unfold addToGroup.
  assert (∀ r0, r0 ∈ seen ++ [r] → r0 ∈ seen ∨ r0 = r) as Happ by set_solver.
  destruct (st.1 !! k) as [i|] eqn:Ei.
  - pose proof Ei as Hi%Hix. exists ks. split; [done|done| | |].
    + simpl. rewrite Hgs. apply list_eq. intros j. destruct (decide (i = j)) as [->|Hne].
      * rewrite list_lookup_alter_eq, !list_lookup_fmap, Hi. simpl. f_equal. unfold group_of. simpl.
        rewrite (rows_with_snoc _ _ _ k) by done. rewrite bool_decide_eq_true_2 by done. f_equal.
        destruct (rows_with gp seen k) eqn:Er; [|done].
        destruct (Hrows k); [by eapply list_elem_of_lookup_2|done].
      * rewrite list_lookup_alter_ne, !list_lookup_fmap by done.
        destruct (ks !! j) as [kj|] eqn:Ej; simpl; [|done].
        f_equal. symmetry. apply (group_of_other _ _ _ k); [done|]. intros ->. apply Hne.
        by eapply NoDup_lookup.
    + intros k' Hk'. rewrite (rows_with_snoc _ _ _ k) by done. case_bool_decide; [|by apply Hrows].
      by destruct (rows_with gp seen k').
    + intros r0 [?| ->]%Happ; [by apply Hkeys|]. exists k. split; [done|]. by eapply list_elem_of_lookup_2.
  - assert (k ∉ ks) as Hnew. { intros [i Hi%Hix]%list_elem_of_lookup. congruence. }
    assert (length st.2 = length ks) as Hlen by (by rewrite Hgs, length_fmap).
    exists (ks ++ [k]). split.
    + apply NoDup_app. split_and!; [done|set_solver|apply NoDup_singleton].
    + intros k' i. simpl. rewrite Hlen, lookup_insert_Some, lookup_snoc_Some. split.
      * intros [[<- <-]|[_ ?%Hix]]; [by right|left]. split; [by eapply lookup_lt_Some|done].
      * intros [[_ ?%Hix]|[-> ->]]; [right|by left]. split; [congruence|done].
    + simpl. rewrite Hgs, fmap_app. f_equal.
      * apply list_fmap_ext. intros i k' Hi. symmetry. apply (group_of_other _ _ _ k); [done|].
        intros ->. apply Hnew. by eapply list_elem_of_lookup_2.
      * simpl. unfold group_of. rewrite (rows_with_snoc _ _ _ k) by done. rewrite bool_decide_eq_true_2 by done.
        by rewrite (rows_with_none gp seen st ks k).
    + intros k' Hk'. rewrite (rows_with_snoc _ _ _ k) by done. case_bool_decide as Hkk; [by destruct (rows_with _ _ _)|].
      apply Hrows. apply elem_of_app in Hk' as [?|Hks%list_elem_of_singleton]; [done|by subst].
    + intros r0 [Hr0| ->]%Happ; [|exists k; set_solver].
      destruct (Hkeys _ Hr0) as (k' & ? & ?). exists k'. set_solver.
Qed.

Lemma groupLoop_inv gp rows seen st ks gs :
  group_inv gp seen st ks → groupLoop gp rows st = Ok gs →
  ∃ st' ks', group_inv gp (seen ++ rows) st' ks' ∧ gs = st'.2.
Proof.
  revert seen st ks. induction rows as [|r rows IH]; intros seen st ks Hinv H; simpl in H.
  { simplify_eq. exists st, ks. by rewrite app_nil_r. }
  destruct (groupKey gp r) as [k|] eqn:Ek; [|done]. simpl in H.
  destruct (addToGroup_inv _ _ _ _ _ _ Hinv Ek) as [ks' Hinv'].
  rewrite cons_middle, app_assoc. by eapply IH.
Qed.

End groups.

(** ** Group keys *)
Section keys.
  Context {Q : Quoter}.

Definition no_nul : string → bool := all_chars (λ c, negb (Ascii.eqb c Ascii.zero)).

Lemma all_chars_app p a b : all_chars p (a +:+ b) = all_chars p a && all_chars p b.
Proof. induction a as [|c a IH]; simpl; [done|]. by rewrite IH, andb_assoc. Qed.

(** A NUL ends a part. *)
Lemma nul_split a b x y :
  no_nul a = true → no_nul b = true → a +:+ nul +:+ x = b +:+ nul +:+ y → a = b ∧ x = y.
Proof.
  revert b. induction a as [|c a IH]; intros [|c' b] Ha Hb H; simpl in *.
  - by injection H.
  - injection H as <- _. done.
  - injection H as -> _. done.
  - injection H as -> H. apply andb_true_iff in Ha as [_ Ha], Hb as [_ Hb].
    destruct (IH b Ha Hb H) as [-> ->]. done.
Qed.

Lemma pretty_N_no_nul x s : no_nul s = true → no_nul (pretty_N_go x s) = true.
Proof.
  revert s. induction (N.lt_wf_0 x) as [x _ IH]. intros s Hs.
  destruct (decide (x = 0)%N) as [->|Hx]; [by rewrite pretty_N_go_0|].
  rewrite pretty_N_go_step by lia. apply IH; [apply N.div_lt; lia|]. simpl. apply andb_true_iff. split; [|done].
  unfold pretty_N_char. by repeat case_match.
Qed.

Lemma FormatInt_no_nul i : no_nul (FormatInt i) = true.
Proof.
  assert (∀ n : N, no_nul (pretty n) = true) as Hn.
  { intros n. unfold pretty, pretty_N. case_decide; [done|]. by apply pretty_N_no_nul. }
  unfold FormatInt. destruct i as [|p|p]; [done| |].
  - apply (Hn (Npos p)).
  - change (pretty (Z.neg p)) with ("-" +:+ pretty (Npos p)). apply (Hn (Npos p)).
Qed.

(** The values whose key parts are exact: all but floats, and times in the range
    of [UnixNano]. *)
Definition exact_group_value (v : Value) : Prop :=
  match v with VFloat _ => False | VTime t => in_int64 t | _ => True end.

Lemma valKeyPart_no_nul v : exact_group_value v → no_nul (valKeyPart v) = true.
Proof.
  destruct v as [|i|f|t|[]|t]; intros H; try done; simpl.
  - apply FormatInt_no_nul.
  - apply Quote_no_nul.
  - apply FormatInt_no_nul.
Qed.

Lemma valKeyPart_inj v w :
  exact_group_value v → exact_group_value w → valKeyPart v = valKeyPart w → v = w.
Proof.
  intros Hv Hw H. destruct v as [|i|f|t|[]|t], w as [|i'|f'|t'|[]|t']; try done; injection H as H.
  - f_equal. by apply (inj FormatInt).
  - f_equal. by apply Quote_inj.
  - apply (inj FormatInt) in H. simpl in Hv, Hw. rewrite !wrap64_id in H by done. by f_equal.
Qed.

(** C33: The keys of GROUP BY are collision free: two rows have the same key only
    if they agree on every grouped column (for all values but floats, and times
    whose nanoseconds fit in [int64]). *)
Theorem group_key_exact (gp : list nat) (r r' : row) (k : string) :
  Forall exact_group_value r → Forall exact_group_value r' →
  groupKey gp r = Ok k → groupKey gp r' = Ok k →
  ∀ p, p ∈ gp → is_Some (r !! p) ∧ r !! p = r' !! p.
Proof.
  intros Hr Hr'. revert k. induction gp as [|p gp IH]; intros k Hk Hk' q Hq; [by apply not_elem_of_nil in Hq|].
  simpl in Hk, Hk'. unfold row_at in Hk, Hk'.
  destruct (r !! p) as [v|] eqn:Ev; [|done]. destruct (r' !! p) as [v'|] eqn:Ev'; [|done]. simpl in Hk, Hk'.
  destruct (groupKey gp r) as [k1|]; [|done]. destruct (groupKey gp r') as [k2|]; [|done]. simpl in Hk, Hk'.
  pose proof (Forall_lookup_1 _ _ _ _ Hr Ev) as Hv. pose proof (Forall_lookup_1 _ _ _ _ Hr' Ev') as Hv'.
  simplify_eq. destruct (nul_split (valKeyPart v) (valKeyPart v') k1 k2) as [Hp <-];
    [by apply valKeyPart_no_nul..|done|].
  apply valKeyPart_inj in Hp as <-; [|done..].
  apply elem_of_cons in Hq as [->|Hq]; [by rewrite Ev, Ev'|by eapply IH].
Qed.
End keys.

(** ** Joins *)

(** A condition that holds of a row, and the rows that satisfy it. *)
Definition holds (now : Value) (sc : joinScope) (w : option Expr) (r : row) : bool :=
  match whereHolds now sc w r with Ok b => b | Err _ => false end.

Lemma holds_Ok now sc w r b : whereHolds now sc w r = Ok b → holds now sc w r = b.
Proof. unfold holds. by intros ->. Qed.

(** Evaluation looks at the cells it resolves only: a longer row does not change
    a result. *)
Lemma evalValue_app sc now gc e r r' v :
  evalValueCtx sc now r gc e = Ok v → evalValueCtx sc now (r ++ r') gc e = Ok v.
Proof.
  revert v. induction e; intros v H; simpl in *; try done.
  - destruct (resolve sc _ _) as [i|]; [|done]. simpl in *. unfold row_at in *.
    destruct (r !! i) as [x|] eqn:Ex; [|done]. by rewrite (lookup_app_l_Some _ _ _ _ Ex).
  - destruct (evalValueCtx sc now r gc e1) as [l|]; [|done].
    destruct (evalValueCtx sc now r gc e2) as [w|]; [|done].
    by rewrite (IHe1 _ eq_refl), (IHe2 _ eq_refl).
Qed.

Lemma evalBool_app sc now gc e r r' b :
  evalBoolCtx sc now r gc e = Ok b → evalBoolCtx sc now (r ++ r') gc e = Ok b.
Proof.
  revert b. induction e; intros b H; cbn [evalBoolCtx] in *; try done.
  - destruct (evalValueCtx sc now r gc e1) as [l|] eqn:E1; [|done].
    destruct (evalValueCtx sc now r gc e2) as [w|] eqn:E2; [|done].
    by rewrite (evalValue_app _ _ _ _ _ _ _ E1), (evalValue_app _ _ _ _ _ _ _ E2).
  - destruct (evalValueCtx sc now r gc e) as [l|] eqn:E1; [|done]. by rewrite (evalValue_app _ _ _ _ _ _ _ E1).
  - destruct (evalBoolCtx sc now r gc e1) as [l|]; [|done]. destruct (evalBoolCtx sc now r gc e2) as [w|]; [|by destruct l].
    by rewrite (IHe1 _ eq_refl), (IHe2 _ eq_refl).
  - destruct (evalBoolCtx sc now r gc e1) as [l|]; [|done]. destruct (evalBoolCtx sc now r gc e2) as [w|]; [|by destruct l].
    by rewrite (IHe1 _ eq_refl), (IHe2 _ eq_refl).
  - destruct (evalBoolCtx sc now r gc e) as [l|]; [|done]. by rewrite (IHe _ eq_refl).
  - destruct (evalValueCtx sc now r gc (Binary Op e1 e2)) as [v|] eqn:E; [|done].
    by rewrite (evalValue_app _ _ _ _ _ _ _ E).
  - destruct (evalValueCtx sc now r gc e) as [l|] eqn:E1; [|done]. by rewrite (evalValue_app _ _ _ _ _ _ _ E1).
Qed.

Lemma whereHolds_app now sc w r r' b :
  whereHolds now sc w r = Ok b → whereHolds now sc w (r ++ r') = Ok b.
Proof.
  destruct w as [e|]; [|done]. simpl. unfold evalBool.
  destruct (evalBoolCtx sc now r None e) as [x|] eqn:E; [|done]. by rewrite (evalBool_app _ _ _ _ _ _ _ E).
Qed.

(** The loops as filters. *)
Lemma filterWhere_filter now sc w rows out :
  filterWhere now sc w rows = Ok out → out = filter (λ r, holds now sc w r) rows.
Proof.
  revert out. induction rows as [|r rows IH]; intros out H; simpl in H; [by simplify_eq|].
  destruct (whereHolds now sc w r) as [b|] eqn:E; [|done]. simpl in H.
  destruct (filterWhere now sc w rows) as [l|]; [|done]. simpl in H. simplify_eq.
  rewrite filter_cons, (holds_Ok _ _ _ _ _ E), (IH _ eq_refl). by destruct b.
Qed.

Lemma matchRight_filter now sc on l rrows ms :
  matchRight now sc on l rrows = Ok ms →
  ms = filter (λ r, holds now sc (Some on) r) (app l <$> rrows) ∧
  Forall (λ r, is_Ok (whereHolds now sc (Some on) r)) (app l <$> rrows).
Proof.
  revert ms. induction rrows as [|r rrows IH]; intros ms H; cbn [matchRight] in H; [by simplify_eq|].
  destruct (whereHolds now sc (Some on) (l ++ r)) as [b|] eqn:E; [|done]. simpl in H.
  destruct (matchRight now sc on l rrows) as [ms'|]; [|done]. simpl in H. simplify_eq.
  destruct (IH _ eq_refl) as [-> Hok]. split; [|constructor; [by eexists|done]].
  rewrite fmap_cons, filter_cons, (holds_Ok _ _ _ _ _ E). by destruct b.
Qed.

(** What a join makes of one left row. *)
Definition joined_rows (now : Value) (sc : joinScope) (on : Expr) (left : bool) (width : nat)
    (rrows : list row) (l : row) : list row :=
  let ms := filter (λ r, holds now sc (Some on) r) (app l <$> rrows) in
  if left && bool_decide (ms = []) then [l ++ replicate width VNull] else ms.

Lemma joinStep_spec now sc on left width rrows joined out :
  joinStep now sc on left width rrows joined = Ok out →
  out = joined ≫= joined_rows now sc on left width rrows ∧
  Forall (λ r, is_Ok (whereHolds now sc (Some on) r)) (joined ≫= λ l, app l <$> rrows).
Proof.
  revert out. induction joined as [|l joined IH]; intros out H; cbn [joinStep] in H; [by simplify_eq|].
  unfold joinRow in H. destruct (matchRight now sc on l rrows) as [ms|] eqn:Em; [|done]. simpl in H.
  destruct (joinStep now sc on left width rrows joined) as [rest|]; [|done]. simpl in H. simplify_eq.
  destruct (matchRight_filter _ _ _ _ _ _ Em) as [-> Hok]. destruct (IH _ eq_refl) as [-> Hok'].
  split; [done|]. simpl. by apply Forall_app.
Qed.

(** C31: A LEFT JOIN keeps every row of its left side, in order: a left row is
    followed by its matches in the order of the right table, and if no right row
    satisfies ON it appears once, padded with NULLs. *)
Theorem left_join_rows (now : Value) (sc : joinScope) (on : Expr) (width : nat) (rrows joined out : list row) :
  joinStep now sc on true width rrows joined = Ok out →
  ∃ parts : list (list row), length parts = length joined ∧ out = concat parts ∧
  ∀ i l, joined !! i = Some l → ∃ part, parts !! i = Some part ∧ part ≠ [] ∧
    (part = filter (λ r, holds now sc (Some on) r) (app l <$> rrows) ∨
     part = [l ++ replicate width VNull] ∧
     ∀ r, r ∈ rrows → whereHolds now sc (Some on) (l ++ r) = Ok false).
Proof.
  intros H. destruct (joinStep_spec _ _ _ _ _ _ _ _ H) as [-> Hok].
  exists (joined_rows now sc on true width rrows <$> joined). split; [apply length_fmap|]. split.
  { clear. induction joined as [|l joined IH]; [done|]. rewrite bind_cons, fmap_cons, IH. done. }
  intros i l Hi. exists (joined_rows now sc on true width rrows l). rewrite list_lookup_fmap, Hi. split; [done|].
  unfold joined_rows. cbv zeta. cbn [andb]. case_bool_decide as Hms; [|by auto]. split; [done|]. right. split; [done|].
  intros r Hr. rewrite Forall_forall in Hok. destruct (Hok (l ++ r)) as [b Hb].
  { apply list_elem_of_bind. exists l. split; [by apply list_elem_of_fmap_2|by eapply list_elem_of_lookup_2]. }
  rewrite Hb. f_equal. destruct b; [|done].
  assert (l ++ r ∈ filter (λ r, holds now sc (Some on) r) (app l <$> rrows)) as Hin.
  { apply list_elem_of_filter. split; [unfold holds; by rewrite Hb|by apply list_elem_of_fmap_2]. }
  rewrite Hms in Hin. by apply not_elem_of_nil in Hin.
Qed.

(** The product of the tables, left to right. *)
Definition cross (ls rs : list row) : list row := ls ≫= λ l, app l <$> rs.
Fixpoint product (first : list row) (tables : list (joinTable * list row)) : list row :=
  match tables with [] => first | (_, rs) :: tables => product (cross first rs) tables end.

(** Every ON condition from table [i] on, each in the scope of its prefix. *)
Fixpoint onsHold (now : Value) (sc : joinScope) (ons : list Expr) (i n : nat) (r : row) : bool :=
  match n with
  | O => true
  | S n => match ons !! (i - 1) with
           | Some on => holds now (sub (i + 1) sc) (Some on) r
           | None => false
           end && onsHold now sc ons (i + 1) n r
  end.

Lemma bind_filter (p : row → bool) (rs ls : list row) :
  (ls ≫= λ l, filter (λ r, p r) (app l <$> rs)) = filter (λ r, p r) (cross ls rs).
Proof.
  unfold cross. induction ls as [|l ls IH]; [done|]. by rewrite !bind_cons, filter_app, IH.
Qed.

(** A condition on a prefix can be tested before or after the product. *)
Lemma product_filter (p : row → bool) tables first :
  (∀ l r, l ∈ first → p (l ++ r) = p l) →
  product (filter (λ r, p r) first) tables = filter (λ r, p r) (product first tables).
Proof.
  revert first. induction tables as [|[t rs] tables IH]; intros first Hp; simpl; [done|].
  rewrite <-IH.
  - f_equal. unfold cross. induction first as [|l first IHf]; [done|].
    rewrite filter_cons, bind_cons, filter_app. rewrite <-IHf by (intros; apply Hp; by right). cbv beta.
    assert (∀ r, p (l ++ r) = p l) as Hl by (intros; apply Hp; by left).
    assert (filter (λ r, p r) (app l <$> rs) = if p l then app l <$> rs else []) as ->.
    { clear -Hl. induction rs as [|r rs IHr]; [simpl; by destruct (p l)|].
      rewrite fmap_cons, filter_cons, Hl, IHr. by destruct (p l). }
    by destruct (p l).
  - intros x r (l & (y & -> & Hy)%list_elem_of_fmap & Hl)%list_elem_of_bind.
    rewrite <-(assoc_L app), !Hp by done. done.
Qed.

Lemma filter_andb (p q : row → bool) (l : list row) :
  filter (λ r, q r) (filter (λ r, p r) l) = filter (λ r, p r && q r) l.
Proof.
  induction l as [|x l IH]; [done|]. rewrite !filter_cons.
  destruct (p x), (q x) eqn:Eq; simpl; rewrite ?filter_cons, ?Eq, ?IH; done.
Qed.

Lemma joinFrom_product now sc ons kinds tables i joined out :
  Forall (λ k, k ≠ "left") kinds → joinFrom now i sc tables ons kinds joined = Ok out →
  out = filter (λ r, onsHold now sc ons i (length tables) r) (product joined tables).
Proof.
  intros Hk. revert i joined. induction tables as [|[t rs] tables IH]; intros i joined H; simpl in H.
  { simplify_eq. simpl. induction out as [|r out IHo]; [done|]. rewrite filter_cons_True by done. by rewrite <-IHo. }
  destruct (ons !! (i - 1)) as [on|] eqn:Eon; [|done]. destruct (kinds !! (i - 1)) as [kd|] eqn:Ek; [|done].
  rewrite (bool_decide_eq_false_2 (kd = "left")) in H by (exact (Forall_lookup_1 _ _ _ _ Hk Ek)).
  destruct (joinStep _ _ _ _ _ _ _) as [next|] eqn:Es; [|done]. simpl in H.
  destruct (joinStep_spec _ _ _ _ _ _ _ _ Es) as [-> Hok]. apply IH in H as ->.
  set (p := λ r, holds now (sub (i + 1) sc) (Some on) r).
  assert ((joined ≫= joined_rows now (sub (i + 1) sc) on false (length (td_Cols (jt_def t))) rs) =
    filter (λ r, p r) (cross joined rs)) as -> by apply bind_filter.
  rewrite product_filter, filter_andb.
  - simpl. rewrite Eon. done.
  - intros l r Hl. rewrite Forall_forall in Hok. destruct (Hok l Hl) as [b Hb]. unfold p.
    rewrite (holds_Ok _ _ _ _ _ Hb). eapply holds_Ok. by apply whereHolds_app.
Qed.

(** The nested loops compute the relational join: without LEFT JOINs the
    result is the product of the tables, in order, restricted to the rows that
    satisfy every ON condition and WHERE. *)
Theorem inner_join_product {S : Type} `{!Accessor S} (now : Value) (sc : joinScope) (ons : list Expr)
    (kinds : list string) (w : option Expr) (s : S) (t : joinTable) (first : list row)
    (rest : list (joinTable * list row)) (out : list row) :
  Forall (λ k, k ≠ "left") kinds → loadAll s sc = Ok ((t, first) :: rest) →
  collectJoined now sc ons kinds w s = Ok out →
  out = filter (λ r, onsHold now sc ons 1 (length rest) r && holds now sc w r) (product first rest).
Proof.
  intros Hk Hl H. unfold collectJoined in H. rewrite Hl in H. simpl in H.
  destruct (joinFrom now 1 sc rest ons kinds first) as [joined|] eqn:Ej; [|done]. simpl in H.
  rewrite (filterWhere_filter _ _ _ _ _ H), (joinFrom_product _ _ _ _ _ _ _ _ Hk Ej). apply filter_andb.
Qed.

(** ** The shape of a result *)
Lemma res_bind_Ok {A B} (m : res A) (f : A → res B) b : m ≫= f = Ok b → ∃ a, m = Ok a ∧ f a = Ok b.
Proof. destruct m; [by eexists|done]. Qed.

Lemma projectItems_spec now sc grouping ps gs out :
  projectItems now sc grouping ps gs = Ok out →
  length out = length gs ∧ Forall (λ r, length r = length ps) out.
Proof.
  revert out. induction gs as [|g gs IH]; intros out H; simpl in H; [by simplify_eq|].
  destruct (planValues _ _ _ _ _) as [vs|] eqn:Ev; [|done]. simpl in H.
  destruct (projectItems _ _ _ _ gs) as [rest|]; [|done]. simpl in H. simplify_eq.
  destruct (IH _ eq_refl) as [Hl Hf]. split; [simpl; by rewrite Hl|]. constructor; [|done].
  by eapply planValues_length.
Qed.

Lemma limitItems_spec {A} n (l out : list A) :
  limitItems (Some n) l = Ok out → (Z.of_nat (length out) ≤ n)%Z ∧ out `prefix_of` l.
Proof.
  unfold limitItems. destruct (Z.ltb_spec n (Z.of_nat (length l))); [|intros [= ->]; done || by split; [lia|]].
  destruct (Z.ltb_spec n 0); [done|]. intros [= <-]. split; [rewrite length_take; lia|apply prefix_take].
Qed.

Definition sel_limit (q : Select) : option Z :=
  let '(MkSelect _ _ _ _ _ _ _ _ _ _ limit) := q in limit.

(** A query result is rectangular and respects LIMIT: every row has one value
    per column header, and there are at most LIMIT rows. *)
Theorem select_shape {S : Type} `{!Accessor S} {Q : Quoter} (now : Value) (q : Select) (s : S) (rs : Result) :
  execSelect now q s = Ok rs →
  Forall (λ r, length r = length (res_Columns rs)) (res_Rows rs) ∧
  (∀ n, sel_limit q = Some n → (Z.of_nat (length (res_Rows rs)) ≤ n)%Z).
Proof.
  destruct q as [tables ons kinds star fields aliases w group having order limit]. cbn [execSelect sel_limit].
  intros (sc & _ & H)%res_bind_Ok. apply res_bind_Ok in H as (w' & _ & H).
  apply res_bind_Ok in H as (h' & _ & H). apply res_bind_Ok in H as (ons' & _ & H).
  unfold runSelect in H. do 3 apply res_bind_Ok in H as (? & _ & H). cbv zeta in H.
  apply res_bind_Ok in H as (? & _ & H). apply res_bind_Ok in H as (plans & _ & H).
  do 5 apply res_bind_Ok in H as (? & _ & H).
  apply res_bind_Ok in H as (limited & El & (out & Ep & [= <-])%res_bind_Ok). simpl.
  destruct (projectItems_spec _ _ _ _ _ _ Ep) as [Hlen Hw]. split.
  - rewrite !length_fmap in *. done.
  - intros n ->. destruct (limitItems_spec _ _ _ El). lia.
Qed.

(** ** A query without groups, as relational algebra *)
Section reference.
  Context (now : Value).

(** The values of a row under a list of plans; evaluation that fails has no value. *)
Definition cells (sc : joinScope) (ps : list fieldPlan) (r : row) : list Value :=
  (λ p, match planValue now sc None r p with Ok v => v | Err _ => VNull end) <$> ps.

Definition sort_rows (sc : joinScope) (orders : list fieldPlan) (desc : list bool) (rows : list row) : list row :=
  (SliceStable desc ((λ r, (cells sc orders r, r)) <$> rows)).*2.

(** The product of the tables, restricted to the rows that satisfy every ON
    condition and WHERE, stably sorted by the keys, cut, and mapped to the select
    list. *)
Definition reference (sc : joinScope) (ons : list Expr) (w : option Expr) (plans orders : list fieldPlan)
    (desc : list bool) (limit : option Z) (first : list row) (rest : list (joinTable * list row)) : list (list Value) :=
  let matching := filter (λ r, onsHold now sc ons 1 (length rest) r && holds now sc w r) (product first rest) in
  let sorted := sort_rows sc orders desc matching in
  cells sc plans <$> (match limit with Some n => take (Z.to_nat n) sorted | None => sorted end).

(** The UNIQUE shortcut ([index_agrees_scan] is about it). *)
Definition uses_index (sc : joinScope) (w : option Expr) : bool :=
  match sc with
  | [MkJoinTable def alias _ None] => bool_decide (is_Some (w ≫= λ e, uniqueEquality e alias def))
  | _ => false
  end.

Lemma planValues_cells sc ps r vs : planValues now sc None r ps = Ok vs → vs = cells sc ps r.
Proof.
  revert vs. induction ps as [|p ps IH]; intros vs; simpl; [by intros [= <-]|].
  intros (v & Hv & (vs' & Hvs & [= <-])%res_bind_Ok)%res_bind_Ok. rewrite Hv. by rewrite (IH _ Hvs).
Qed.

Lemma projectItems_cells sc ps rows out :
  projectItems now sc false ps (singleton_grp <$> rows) = Ok out → out = cells sc ps <$> rows.
Proof.
  revert out. induction rows as [|r rows IH]; intros out; simpl; [by intros [= <-]|].
  intros (vs & Hvs & (rest & Hr & [= <-])%res_bind_Ok)%res_bind_Ok.
  by rewrite (planValues_cells _ _ _ _ Hvs), (IH _ Hr).
Qed.

(** Sorting looks at the keys only. *)
Lemma SliceStable_fmap {A B} (f : A → B) desc (l : list (list Value * A)) :
  SliceStable desc (prod_map id f <$> l) = prod_map id f <$> SliceStable desc l.
Proof.
  induction l as [|x l IH]; [done|]. cbn [SliceStable foldr fmap list_fmap]. fold (SliceStable desc l).
  change (foldr (insertKeyed desc) [] (prod_map id f <$> l)) with (SliceStable desc (prod_map id f <$> l)). rewrite IH.
  generalize (SliceStable desc l). clear l IH. intros l.
  induction l as [|y l IH]; [done|]. simpl. destruct (lessKeys desc y.1 x.1); [|done]. exact (f_equal (cons _) IH).
Qed.

Lemma SliceStable_no_keys {A} (l : list A) : SliceStable [] ((λ r, ([], r)) <$> l) = (λ r, ([], r)) <$> l.
Proof.
  induction l as [|x l IH]; [done|]. cbn [fmap list_fmap SliceStable foldr].
  change (foldr (insertKeyed []) [] ((λ r, ([], r)) <$> l)) with (SliceStable [] ((λ r, ([], r)) <$> l)).
  rewrite IH. by destruct l.
Qed.

Lemma orderItems_sort sc orders desc rows sorted :
  length desc = length orders → orderItems now sc false orders desc (singleton_grp <$> rows) = Ok sorted →
  sorted = singleton_grp <$> sort_rows sc orders desc rows.
Proof.
  intros Hlen. unfold orderItems, sort_rows. case_bool_decide as Ho.
  - intros [= <-]. subst orders. destruct desc; [|done]. unfold cells. simpl.
    rewrite SliceStable_no_keys. f_equal. induction rows as [|r rows IH]; [done|]. simpl. by f_equal.
  - intros (keyed & Hk & [= <-])%res_bind_Ok.
    assert (keyed = prod_map id singleton_grp <$> ((λ r, (cells sc orders r, r)) <$> rows)) as ->.
    { clear Ho. revert keyed Hk. induction rows as [|r rows IH]; intros keyed; simpl; [by intros [= <-]|].
      intros (ks & Hks & (rest & Hr & [= <-])%res_bind_Ok)%res_bind_Ok.
      by rewrite (planValues_cells _ _ _ _ Hks), (IH _ Hr). }
    rewrite SliceStable_fmap, <-!list_fmap_compose. done.
Qed.
End reference.

Lemma orderPlans_length sc grouping gp order ps : orderPlans sc grouping gp order = Ok ps → length ps = length order.
Proof.
  revert ps. induction order as [|ot order IH]; intros ps; simpl; [by intros [= <-]|].
  intros (p & _ & (rest & Hr & [= <-])%res_bind_Ok)%res_bind_Ok. simpl. by rewrite (IH _ Hr).
Qed.

Lemma selectRows_scan {S : Type} `{!Accessor S} now sc ons kinds w (s : S) rows :
  uses_index sc w = false → selectRows now sc ons kinds w s = Ok rows → collectJoined now sc ons kinds w s = Ok rows.
Proof.
  unfold uses_index, selectRows. destruct sc as [|[def alias base [r|]] [|t2 sc]]; try done.
  intros Hu%bool_decide_eq_false. destruct (w ≫= _) as [[ci lit]|]; [|done]. by destruct Hu.
Qed.

Lemma limitItems_fmap {A B} (f : A → B) limit (l : list A) out :
  limitItems limit (f <$> l) = Ok out → out = f <$> (match limit with Some n => take (Z.to_nat n) l | None => l end).
Proof.
  unfold limitItems. destruct limit as [n|]; [|by intros [= <-]]. rewrite length_fmap.
  destruct (Z.ltb_spec n (Z.of_nat (length l))).
  - destruct (n <? 0)%Z; [done|]. intros [= <-]. by rewrite fmap_take.
  - intros [= <-]. rewrite take_ge; [done|lia].
Qed.

