(* ===== verification/Safety.v ===== *)
(** * No query makes the server panic

    An index outside a row, a slice bound or a join without its condition is a
    panic in Go, and the server recovers from none: one such query would end the
    process with all its connections.  Here the panics of the model ([panicRow])
    are excluded for every SELECT of the shape the parser gives ([parsed_shape]),
    on every state whose rows are as wide as their tables, as long as the alias of
    a derived table is not also the name of a stored table ([execSelect_safe]).
    [NoPanic] extends this to all statements. *)
From S2P Require Import Prelude GoStd Types Schema Wal Table Engine Txn Accessor Ast Lexer Parser Grammar.
From S2P Require Import Eval Exec Select.

(** ** Computations that do not panic *)
Definition safe {A} (m : res A) : Prop := m ≠ Err panicRow.

Lemma safe_Ok {A} (a : A) : safe (Ok a).
Proof. done. Qed.
Lemma safe_sql {A} c f a : safe (Err (SQLError c f a) : res A).
Proof. done. Qed.
Lemma safe_bind {A B} (m : res A) (f : A → res B) : safe m → (∀ a, m = Ok a → safe (f a)) → safe (m ≫= f).
Proof. unfold safe. intros Hm Hf. destruct m as [a|e]; simpl; [by apply Hf|]. intros [= ->]. by apply Hm. Qed.
Lemma safe_fmap {A B} (f : A → B) (m : res A) : safe m → safe (f <$> m).
Proof. unfold safe. destruct m; [done|]. intros H [= ->]. by apply H. Qed.

Create HintDb safe.
#[export] Hint Resolve safe_Ok safe_sql safe_bind safe_fmap : safe.
#[export] Hint Extern 1 (safe (if ?b then _ else _)) => destruct b : safe.

(** ** Planning *)
Lemma resolve_safe sc t n : safe (resolve sc t n).
Proof.
  unfold resolve. case_bool_decide.
  - induction sc as [|jt sc IH]; simpl; [apply safe_sql|]. case_bool_decide; [|done]. by destruct (_ !! _).
  - by destruct (positions sc n) as [|p [|]].
Qed.
#[export] Hint Resolve resolve_safe : safe.

Lemma all_literals_safe l : safe (all_literals l).
Proof. induction l as [|[] l IH]; simpl; auto with safe. Qed.
#[export] Hint Resolve all_literals_safe : safe.
Lemma validateExpr_safe sc e : safe (validateExpr sc e).
Proof. induction e; simpl; eauto 6 with safe. Qed.
Lemma validateAggregate_safe name star arg sc : safe (validateAggregate name star arg sc).
Proof. unfold validateAggregate. destruct star; [eauto with safe|]. destruct arg as [[]|]; eauto with safe. Qed.
#[export] Hint Resolve validateExpr_safe validateAggregate_safe : safe.
Lemma validateHaving_safe sc gp e : safe (validateHaving sc gp e).
Proof. induction e; simpl; eauto 7 with safe. Qed.
Lemma groupPositions_safe sc g : safe (groupPositions sc g).
Proof. induction g as [|[] g IH]; simpl; eauto 6 with safe. Qed.
Lemma validateOns_safe i sc ons : safe (validateOns i sc ons).
Proof. revert i. induction ons as [|e ons IH]; intros i; simpl; eauto with safe. Qed.
Lemma planField_safe sc grouping gp a f : safe (planField sc grouping gp a f).
Proof. destruct f; simpl; eauto 8 with safe. Qed.
#[export] Hint Resolve validateHaving_safe groupPositions_safe validateOns_safe planField_safe : safe.
Lemma planFields_safe sc star fs als grouping gp : safe (planFields sc star fs als grouping gp).
Proof.
  unfold planFields. destruct star; [destruct grouping; auto with safe|].
  revert als. induction fs as [|f fs IH]; intros als; simpl; eauto 6 with safe.
Qed.
Lemma orderPlans_safe sc grouping gp order : safe (orderPlans sc grouping gp order).
Proof.
  induction order as [|[e d] order IH]; simpl; [apply safe_Ok|].
  assert (safe (orderPlan sc grouping gp (MkOrderTerm e d))) as H.
  { unfold orderPlan. destruct grouping; [destruct e; eauto 8 with safe|].
    apply safe_bind; [apply validateExpr_safe|]. intros _ _. destruct e; eauto with safe. }
  eauto 6 with safe.
Qed.

(** What validation says about a plan: its positions lie in the rows. *)
Lemma resolve_bound sc width t n p : scope_fits sc width → resolve sc t n = Ok p → p < width.
Proof.
  intros Hw Hp. destruct (resolve_in_row sc t n p (replicate width VNull)) as [v Hv];
    [by rewrite length_replicate|done|]. apply lookup_lt_Some in Hv. by rewrite length_replicate in Hv.
Qed.

Lemma groupPositions_bound sc g gp width :
  scope_fits sc width → groupPositions sc g = Ok gp → Forall (λ p, p < width) gp.
Proof.
  intros Hw. revert gp. induction g as [|e g IH]; intros gp H; simpl in H; [by injection H as <-|].
  destruct e; try done. apply res_bind_Ok in H as (p & Hp & (ps & Hps & [= <-])%res_bind_Ok).
  constructor; [by eapply resolve_bound|by apply IH].
Qed.

Lemma validateAggregate_bound name star arg sc width pos :
  scope_fits sc width → validateAggregate name star arg sc = Ok pos →
  if star then name = "count" else ∃ p, pos = Some p ∧ p < width.
Proof.
  intros Hw. unfold validateAggregate. destruct star.
  - case_bool_decide; [done|by destruct (decide (name = "count"))].
  - destruct arg as [[]|]; try done. destruct (resolve sc Table Name) as [p|] eqn:Ep; [|done].
    intros [= <-]. exists p. split; [done|by eapply resolve_bound].
Qed.

(** ** Evaluation *)
Lemma not_column_error_safe {A} (m : res A) : (∀ e, m = Err e → ¬ column_error e) → safe m.
Proof. intros H Hp. destruct (H panicRow); [done|by left]. Qed.

Lemma evalValue_safe sc now r e :
  scope_fits sc (length r) → validateExpr sc e = Ok tt → safe (evalValue sc now e r).
Proof. intros Hw Hv. apply not_column_error_safe. intros err. by apply evalValue_validated. Qed.

Definition where_valid (sc : joinScope) (w : option Expr) : Prop :=
  match w with Some e => validateExpr sc e = Ok tt | None => True end.

Lemma whereHolds_safe sc now w r : scope_fits sc (length r) → where_valid sc w → safe (whereHolds now sc w r).
Proof.
  intros Hw. destruct w as [e|]; [|done]. intros Hv. apply safe_fmap, not_column_error_safe.
  intros err. by apply evalBool_validated.
Qed.

Lemma filterWhere_safe now sc w rows :
  Forall (λ r, scope_fits sc (length r)) rows → where_valid sc w → safe (filterWhere now sc w rows).
Proof.
  intros Hr Hv. induction Hr as [|r rows Hr _ IH]; simpl; [done|].
  apply safe_bind; [by apply whereHolds_safe|]. intros b _. by apply safe_bind; [|done].
Qed.

(** Aggregates over rows that have the column. *)
Lemma row_at_lt r i : i < length r → ∃ v, row_at r i = Ok v.
Proof. intros [v Hv]%lookup_lt_is_Some_2. unfold row_at. rewrite Hv. by exists v. Qed.

Lemma evalAggregate_safe name (star : bool) rows pos :
  (if star then name = "count" else ∃ p, pos = Some p ∧ rows_wide rows p) → safe (evalAggregate name star rows pos).
Proof.
  destruct star; [by intros ->|]. intros (p & -> & Hw). unfold evalAggregate.
  case_bool_decide; [by rewrite count_spec|]. case_bool_decide.
  { assert (∀ i f a b, safe (sum_loop rows (Some p) i f a b)) as H1.
    { induction Hw as [|r rows [v Hv]%row_at_lt _ IH]; intros; simpl; [done|].
      rewrite Hv. destruct v; simpl; auto with safe. }
    specialize (H1 0%Z f64_zero false true). destruct (sum_loop _ _ _ _ _ _) as [[[[] ?] ?]|]; [done..|].
    intros [= ->]. by apply H1. }
  case_bool_decide.
  { assert (∀ f n, safe (avg_loop rows (Some p) f n)) as H2.
    { induction Hw as [|r rows [v Hv]%row_at_lt _ IH]; intros; simpl; [done|].
      rewrite Hv. destruct v; simpl; auto with safe. }
    specialize (H2 f64_zero 0%Z). destruct (avg_loop _ _ _ _) as [[]|]; [done|]. intros [= ->]. by apply H2. }
  case_bool_decide; [|apply safe_sql]. apply safe_bind; [|auto with safe].
  assert (∀ m b, safe (extremum_loop m rows (Some p) b)); [|done].
  induction Hw as [|r rows [v Hv]%row_at_lt _ IH]; intros; simpl; [done|]. rewrite Hv. simpl.
  destruct (IsNull v); [done|]. destruct b as [b|]; [|done]. cbv zeta. destruct (if m then _ else _); done.
Qed.

(** HAVING: grouped columns from the group's first row, aggregates over its rows. *)
Section having.
  Context (sc : joinScope) (now : Value) (gp : list nat) (width : nat) (Hw : scope_fits sc width).
  Context (r : row) (rows : list row) (nowVal : Value).
  Context (Hr : Forall (λ p, p < length r) gp) (Hrows : Forall (λ x : row, length x = width) rows).

Lemma wide_rows p : p < width → rows_wide rows p.
Proof. intros Hp. eapply Forall_impl; [exact Hrows|]. intros x. simpl. lia. Qed.

Lemma grouped_cell p : p ∈ gp → safe (row_at r p).
Proof. intros Hp. rewrite Forall_forall in Hr. destruct (row_at_lt r p (Hr _ Hp)) as [v ->]. done. Qed.

Lemma aggregate_safe name star arg pos :
  validateAggregate name star arg sc = Ok pos → safe (evalAggregate name star rows pos).
Proof.
  intros H%(validateAggregate_bound _ _ _ _ width); [|done]. apply evalAggregate_safe. destruct star; [done|].
  destruct H as (p & -> & Hp). exists p. split; [done|by apply wide_rows].
Qed.

Lemma having_value_safe e :
  validateHaving sc gp e = Ok tt → safe (evalValueCtx sc now r (Some (MkGroupCtx rows nowVal)) e).
Proof.
  induction e; intros Hv; simpl in *; try done.
  - destruct (resolve sc _ _) as [p|]; [|done]. simpl in *. case_bool_decide; [|done]. by apply grouped_cell.
  - case_bool_decide; [done|]. destruct (IsAggregateFunc _); [|done].
    destruct (validateAggregate _ _ _ _) as [pos|] eqn:Ea; [|done]. pose proof (aggregate_safe _ _ _ _ Ea) as Hs.
    destruct Star; [unfold validateAggregate in Ea; by case_bool_decide; simplify_eq|].
    destruct Arg as [[]|]; try done. simpl in Ea. unfold validateAggregate in Ea.
    destruct (resolve sc _ _) as [p|]; [|done]. simpl in *. by injection Ea as <-.
  - destruct (validateHaving sc gp e1) as [[]|] eqn:E1; [|done]. simpl in Hv. apply safe_bind; [by apply IHe1|].
    intros lv _. apply safe_bind; [by apply IHe2|]. intros rv _. destruct (_ || _); [done|].
    apply not_column_error_safe. intros err. apply arithmetic_error.
Qed.

Lemma cmp_op_safe op c : safe (cmp_op op c).
Proof. apply not_column_error_safe. intros err. apply cmp_op_error. Qed.

Lemma in_list_safe v l b : all_literals l = Ok tt → safe (in_list v l b).
Proof. intros Hl. apply not_column_error_safe. intros err Hi. by destruct (in_list_validated _ _ _ _ Hl Hi). Qed.

Lemma having_bool_safe e :
  validateHaving sc gp e = Ok tt → safe (evalBoolCtx sc now r (Some (MkGroupCtx rows nowVal)) e).
Proof.
  assert (∀ e1 e2, (validateHaving sc gp e1 ≫= λ _, validateHaving sc gp e2) = Ok tt →
    validateHaving sc gp e1 = Ok tt ∧ validateHaving sc gp e2 = Ok tt) as Hboth.
  { intros e1 e2 H. by destruct (validateHaving sc gp e1) as [[]|]. }
  induction e; intros Hv; cbn [evalBoolCtx validateHaving] in *; try done.
  - by destruct V.
  - apply Hboth in Hv as [H1 H2]. apply safe_bind; [by apply having_value_safe|]. intros lv _.
    apply safe_bind; [by apply having_value_safe|]. intros rv _. destruct (_ || _); [done|].
    apply safe_bind; [apply cmp_op_safe|done].
  - apply safe_bind; [by apply having_value_safe|done].
  - apply Hboth in Hv as [H1 H2]. apply safe_bind; [by apply IHe1|]. intros [] _.
    apply safe_bind; [by apply IHe2|]. intros [] _. by destruct (_ || _).
  - apply Hboth in Hv as [H1 H2]. apply safe_bind; [by apply IHe1|]. intros [] _.
    apply safe_bind; [by apply IHe2|]. intros [] _. by destruct (_ || _).
  - apply safe_bind; [by apply IHe|]. intros [? []] _; done.
  - apply safe_bind; [by apply (having_value_safe (Binary Op e1 e2))|]. by intros [] _.
  - destruct (validateHaving sc gp e) as [[]|] eqn:E; [|done]. apply safe_bind; [by apply having_value_safe|].
    intros v _. destruct (IsNull v); [done|]. apply safe_bind; [by apply in_list_safe|]. intros [] _.
    by destruct (_ && _).
Qed.
End having.

(** ** Scopes and joins *)
Abbreviation cols_of_table t := (length (td_Cols (jt_def t))).
Definition scope_width (sc : joinScope) : nat := sum_list ((λ t, cols_of_table t) <$> sc).

(** The tables of a scope lie side by side from [base] on. *)
Fixpoint scope_at (base : nat) (sc : joinScope) : Prop :=
  match sc with
  | [] => True
  | t :: sc => jt_basePos t = base ∧ scope_at (base + cols_of_table t) sc
  end.

Lemma scope_at_fits base sc : scope_at base sc → scope_fits sc (base + scope_width sc).
Proof.
  revert base. induction sc as [|t sc IH]; intros base; simpl; [by intros _ ? ?%not_elem_of_nil|].
  intros [Hb Hsc] jt. unfold scope_width in *. rewrite fmap_cons. simpl.
  intros [->|Hjt]%elem_of_cons; [lia|]. specialize (IH _ Hsc _ Hjt). lia.
Qed.

Lemma scope_at_take base n sc : scope_at base sc → scope_at base (take n sc).
Proof.
  revert base n. induction sc as [|t sc IH]; intros base [|n]; try done. intros [Hb Hsc]. split; [done|by apply IH].
Qed.

Lemma sub_fits n sc : scope_at 0 sc → scope_fits (sub n sc) (scope_width (sub n sc)).
Proof. intros Hs. by apply (scope_at_fits 0), scope_at_take. Qed.

Lemma scope_width_snoc sc t : scope_width (sc ++ [t]) = scope_width sc + cols_of_table t.
Proof. unfold scope_width. rewrite fmap_app, sum_list_with_app. simpl. lia. Qed.

(** Rows of one width. *)
Abbreviation all_wide w rows := (Forall (λ r : row, length r = w) rows).

Definition loaded_wide (ld : list (joinTable * list row)) : Prop :=
  Forall (λ p, all_wide (cols_of_table p.1) p.2) ld.

Section join.
  Context (now : Value).

Lemma matchRight_safe sc on l rrows wl wr :
  scope_fits sc (wl + wr) → validateExpr sc on = Ok tt → length l = wl → all_wide wr rrows →
  safe (matchRight now sc on l rrows).
Proof.
  intros Hw Hv Hl Hr. induction Hr as [|r rrows Hlr _ IH]; cbn [matchRight]; [done|]. apply safe_bind.
  - apply (whereHolds_safe _ _ (Some on)); [|done]. by rewrite length_app, Hl, Hlr.
  - intros b _. by apply safe_bind; [|done].
Qed.

Lemma joinStep_safe sc on left rrows joined wl wr :
  scope_fits sc (wl + wr) → validateExpr sc on = Ok tt → all_wide wl joined → all_wide wr rrows →
  safe (joinStep now sc on left wr rrows joined).
Proof.
  intros Hw Hv Hj Hr. induction Hj as [|l joined Hl _ IH]; cbn [joinStep]; [done|]. apply safe_bind.
  - unfold joinRow. apply safe_bind; [by eapply matchRight_safe|done].
  - intros ms _. by apply safe_bind; [|done].
Qed.

Lemma joinStep_wide sc on left rrows joined out wl wr :
  joinStep now sc on left wr rrows joined = Ok out → all_wide wl joined → all_wide wr rrows → all_wide (wl + wr) out.
Proof.
  intros [-> _]%joinStep_spec Hj Hr. rewrite Forall_forall in Hj, Hr |- *.
  intros r (l & Hin & Hl)%list_elem_of_bind. unfold joined_rows in Hin. cbv zeta in Hin.
  destruct (left && _).
  - apply list_elem_of_singleton in Hin as ->. by rewrite length_app, length_replicate, (Hj _ Hl).
  - apply list_elem_of_filter in Hin as [_ (rr & -> & Hrr)%list_elem_of_fmap].
    by rewrite length_app, (Hj _ Hl), (Hr _ Hrr).
Qed.

Lemma validateOns_lookup i sc ons j e :
  validateOns i sc ons = Ok tt → ons !! j = Some e → validateExpr (sub (i + j + 2) sc) e = Ok tt.
Proof.
  revert i j. induction ons as [|e' ons IH]; intros i [|j] Hv He; try done; simpl in Hv, He.
  - simplify_eq. rewrite Nat.add_0_r. by destruct (validateExpr _ e) as [[]|].
  - destruct (validateExpr _ e') as [[]|]; [|done]. replace (i + Datatypes.S j + 2) with (i + 1 + j + 2) by lia.
    by apply IH.
Qed.

(** From the [i]-th table on, with the rows of the tables before it joined. *)
Lemma joinFrom_safe sc ons kinds tables i joined :
  scope_at 0 sc → validateOns 0 sc ons = Ok tt → 0 < i → drop i sc = tables.*1 → loaded_wide tables →
  i + length tables ≤ length ons + 1 → i + length tables ≤ length kinds + 1 →
  all_wide (scope_width (sub i sc)) joined →
  safe (joinFrom now i sc tables ons kinds joined) ∧
  ∀ out, joinFrom now i sc tables ons kinds joined = Ok out → all_wide (scope_width sc) out.
Proof.
  intros Hsc Hv. revert i joined. induction tables as [|[t rs] tables IH]; intros i joined Hi Hd Hl Ho Hk Hj.
  { simpl in *. split; [done|]. intros out [= <-]. unfold sub in Hj. by rewrite <-(take_drop i sc), Hd, app_nil_r. }
  apply Forall_cons in Hl as [Hrs Hl]. simpl in Hd, Hrs, Ho, Hk. cbn [joinFrom].
  destruct (lookup_lt_is_Some_2 ons (i - 1) ltac:(lia)) as [on Eon].
  destruct (lookup_lt_is_Some_2 kinds (i - 1) ltac:(lia)) as [kd Ekd]. rewrite Eon, Ekd.
  assert (sub (i + 1) sc = sub i sc ++ [t]) as Hsub.
  { unfold sub. rewrite Nat.add_1_r. apply take_S_r. rewrite <-(Nat.add_0_r i), <-lookup_drop, Hd. done. }
  assert (scope_width (sub (i + 1) sc) = scope_width (sub i sc) + cols_of_table t) as Hwd
    by (by rewrite Hsub, scope_width_snoc).
  pose proof (validateOns_lookup _ _ _ _ _ Hv Eon) as Hon. replace (0 + (i - 1) + 2) with (i + 1) in Hon by lia.
  pose proof (sub_fits (i + 1) sc Hsc) as Hfit. rewrite Hwd in Hfit.
  assert (∀ next, joinStep now (sub (i + 1) sc) on (bool_decide (kd = "left")) (cols_of_table t) rs joined = Ok next →
    safe (joinFrom now (i + 1) sc tables ons kinds next) ∧
    ∀ out, joinFrom now (i + 1) sc tables ons kinds next = Ok out → all_wide (scope_width sc) out) as Hnext.
  { intros next Hs. apply IH; [lia| |done|lia|lia|].
    - by rewrite <-drop_drop, Hd.
    - rewrite Hwd. by eapply joinStep_wide. }
  split.
  - apply safe_bind; [by eapply joinStep_safe|]. intros next Hs. by apply Hnext.
  - intros out (next & Hs & Ho')%res_bind_Ok. by eapply Hnext.
Qed.
End join.

(** ** Reading the tables of FROM *)
Section load.
  Context {S : Type} `{!Accessor S, !ReadSpec S}.
  Implicit Types s : S.

(** Every stored row has one cell per column. *)
Definition rows_complete s : Prop := db_rows (λ cols r, length r = length cols) (acc_view s).

(** What a table of a scope is: rows of its width, or a stored table; a derived
    table without rows must not share its name with a stored one. *)
Definition jt_ok s (t : joinTable) : Prop :=
  match jt_rows t with
  | Some rows => all_wide (cols_of_table t) rows
  | None => match acc_view s !! td_Name (jt_def t) with
            | Some (cols, _) => cols = td_Cols (jt_def t)
            | None => Forall (λ c, Unique c = false) (td_Cols (jt_def t))
            end
  end.

Context (s : S) (Hinv : acc_inv s) (Hrows : rows_complete s).

Lemma stored_wide n cols (rows : gmap Z row) :
  acc_view s !! n = Some (cols, rows) → all_wide (length cols) (sorted_rows rows).2.
Proof.
  intros Hn. apply Forall_lookup. intros i r Hr.
  destruct (sorted_rows_spec rows) as [_ H]. destruct (lookup_lt_is_Some_2 (sorted_rows rows).1 i) as [id Hid].
  - apply lookup_lt_Some in Hr. simpl in *. by rewrite length_fmap in Hr.
  - eapply Hrows; [exact Hn|]. apply H. eauto.
Qed.

Lemma tableRows_safe t :
  jt_ok s t → safe (tableRows s t) ∧ ∀ rows, tableRows s t = Ok rows → all_wide (cols_of_table t) rows.
Proof.
  unfold jt_ok, tableRows. destruct (jt_rows t) as [rows|]; [intros Hr; split; [done|by intros ? [= <-]]|].
  rewrite acc_AllRows_spec by done. destruct (acc_view s !! td_Name (jt_def t)) as [[cols rows]|] eqn:En; [|done].
  intros ->. split; [done|]. intros rs [= <-]. by apply (stored_wide _ _ _ En).
Qed.

Lemma loadAll_safe sc :
  Forall (jt_ok s) sc →
  safe (loadAll s sc) ∧ ∀ ld, loadAll s sc = Ok ld → ld.*1 = sc ∧ loaded_wide ld.
Proof.
  induction 1 as [|t sc Ht _ [IH1 IH2]]; simpl; [split; [done|]; intros ld [= <-]; by split; [|apply Forall_nil_2]|].
  destruct (tableRows_safe _ Ht) as [H1 H2]. split.
  - apply safe_bind; [done|]. intros rows _. by apply safe_bind; [|done].
  - intros ld (rows & Hr & (rest & Hl & [= <-])%res_bind_Ok)%res_bind_Ok. destruct (IH2 _ Hl) as [<- Hw].
    split; [done|]. constructor; [by apply H2|done].
Qed.

(** What planning has checked of a query before its rows are read. *)
Record query_ok (sc : joinScope) (ons : list Expr) (kinds : list string) (w : option Expr) : Prop := {
  qo_scope : scope_at 0 sc;
  qo_tables : Forall (jt_ok s) sc;
  qo_some : sc ≠ [];
  qo_ons : length sc = length ons + 1;
  qo_kinds : length sc = length kinds + 1;
  qo_valid : validateOns 0 sc ons = Ok tt;
  qo_where : where_valid sc w }.

Lemma collectJoined_safe now sc ons kinds w :
  query_ok sc ons kinds w →
  safe (collectJoined now sc ons kinds w s) ∧
  ∀ rows, collectJoined now sc ons kinds w s = Ok rows → all_wide (scope_width sc) rows.
Proof.
  intros [Hsc Ht Hne Ho Hk Hv Hw]. destruct (loadAll_safe _ Ht) as [Hs Hld].
  unfold collectJoined. destruct (loadAll s sc) as [ld|e] eqn:El; [clear Hs|by split; [intros [= ->]; by apply Hs|]]. simpl.
  destruct (Hld _ eq_refl) as [Hsc' Hwide]. clear Hld El.
  destruct ld as [|[t first] rest]; [by subst sc|]. apply Forall_cons in Hwide as [Hfirst Hrest]. simpl in Hfirst.
  assert (length sc = Datatypes.S (length rest)) as Hlen by (rewrite <-Hsc'; simpl; by rewrite length_fmap).
  destruct (joinFrom_safe now sc ons kinds rest 1 first) as [Hj Hout]; try done; try lia.
  - by rewrite <-Hsc'.
  - rewrite <-Hsc'. unfold scope_width. simpl. by rewrite Nat.add_0_r.
  - assert (∀ joined, joinFrom now 1 sc rest ons kinds first = Ok joined →
      Forall (λ r, scope_fits sc (length r)) joined) as Hfit.
    { intros joined Hj'. eapply Forall_impl; [by apply Hout|]. intros r ->. by apply (scope_at_fits 0). }
    split.
    + apply safe_bind; [done|]. intros joined Hj'. apply filterWhere_safe; [by apply Hfit|done].
    + intros rows (joined & Hj' & Hf)%res_bind_Ok. apply filterWhere_filter in Hf as ->.
      apply Forall_forall. intros r [_ Hr]%list_elem_of_filter. revert r Hr. by apply Forall_forall, Hout.
Qed.

Lemma uniqueEquality_unique w alias def ci v :
  uniqueEquality w alias def = Some (ci, v) → ∃ c, td_Cols def !! ci = Some c ∧ Unique c = true.
Proof.
  intros H. assert (∃ lit, literal_of w = Some lit) as [lit Hl].
  { destruct w as [| | |op l r| | | | | | |]; try done. destruct l, r; try done; eauto. }
  destruct (uniqueEquality_inv _ _ _ _ _ _ H Hl) as (t & c & _ & Hc & Hu & _). eauto.
Qed.

Lemma selectRows_safe now sc ons kinds w :
  query_ok sc ons kinds w →
  safe (selectRows now sc ons kinds w s) ∧
  ∀ rows, selectRows now sc ons kinds w s = Ok rows → all_wide (scope_width sc) rows.
Proof.
  intros Hq. pose proof (collectJoined_safe now sc ons kinds w Hq) as Hc.
  destruct sc as [|[def alias b [rs|]] [|]]; [done..| |done]. unfold selectRows.
  destruct (w ≫= _) as [[ci lit]|] eqn:Eu; [|done]. clear Hc.
  destruct (acc_UniqueGet (td_Name def) ci lit s) as [id|]; [|split; [done|by intros ? [= <-]]].
  destruct (acc_Get (td_Name def) id s) as [r|] eqn:Eg; [|split; [done|by intros ? [= <-]]].
  destruct Hq as [Hsc [Ht _]%Forall_cons _ _ _ _ Hw]. unfold jt_ok in Ht. simpl in Ht.
  assert (length r = scope_width [MkJoinTable def alias b None]) as Hr.
  { unfold scope_width. simpl. rewrite Nat.add_0_r.
    destruct (acc_view s !! td_Name def) as [[cols rows]|] eqn:En.
    - rewrite (acc_Get_spec _ _ _ _ _ Hinv En) in Eg. rewrite <-Ht. by eapply Hrows.
    - apply bind_Some in Eu as (e & _ & (c & Hc & Hu)%uniqueEquality_unique).
      pose proof (Forall_lookup_1 _ _ _ _ Ht Hc) as Hn. simpl in Hn. congruence. }
  assert (safe (whereHolds now [MkJoinTable def alias b None] w r)) as Hwh.
  { apply whereHolds_safe; [|done]. rewrite Hr. by apply (scope_at_fits 0). }
  split.
  - by apply safe_bind; [|done].
  - intros rows (bb & _ & [= <-])%res_bind_Ok. destruct bb; repeat constructor. done.
Qed.
End load.

(** ** Groups, keys and the select list *)
Section plans.
  Context {Q : Quoter} (now : Value) (sc : joinScope) (gp : list nat) (width : nat).
  Context (Hfit : scope_fits sc width) (Hgp : Forall (λ p, p < width) gp).

(** A group's first row has the grouped columns, its rows are joined rows. *)
Definition grp_ok (grouping : bool) (g : grp) : Prop :=
  (if grouping then Forall (λ p, p < length (g_repr g)) gp else length (g_repr g) = width) ∧
  all_wide width (g_rows g).

Definition plan_ok (grouping : bool) (p : fieldPlan) : Prop :=
  match p with
  | fieldCol pos => if grouping then pos ∈ gp else pos < width
  | fieldAgg pos name star => if (star : bool) then name = "count" else ∃ p, pos = Some p ∧ p < width
  | fieldNow => True
  | fieldExpr e => if grouping then ∃ v, e = Lit v else validateExpr sc e = Ok tt
  end.

Lemma groupKey_safe r : length r = width → safe (groupKey gp r).
Proof.
  intros Hr. induction Hgp as [|p ps Hp Hps IH]; simpl; [done|].
  destruct (row_at_lt r p) as [v ->]; [by rewrite Hr|]. by apply (safe_bind (groupKey ps r)); [apply IH|].
Qed.

Lemma wide_one (r : row) : length r = width → all_wide width [r].
Proof. by repeat constructor. Qed.
Hint Resolve wide_one : core.

Lemma addToGroup_ok k r st :
  length r = width → Forall (grp_ok true) st.2 → Forall (grp_ok true) (addToGroup k r st).2.
Proof.
  intros Hr Hst. unfold addToGroup. destruct (st.1 !! k) as [i|]; simpl.
  - apply Forall_alter; [done|]. intros g _ [H1 H2]. split; [done|]. simpl. apply Forall_app. auto.
  - apply Forall_app. split; [done|]. constructor; [|done]. split; [|by apply wide_one]. simpl. by rewrite Hr.
Qed.

Lemma groupLoop_safe rows st :
  all_wide width rows → Forall (grp_ok true) st.2 →
  safe (groupLoop gp rows st) ∧ ∀ gs, groupLoop gp rows st = Ok gs → Forall (grp_ok true) gs.
Proof.
  intros Hr. revert st. induction Hr as [|r rows Hr _ IH]; intros st Hst; simpl; [split; [done|by intros ? [= <-]]|].
  pose proof (groupKey_safe r Hr) as Hk. split.
  - apply safe_bind; [done|]. intros k _. by apply IH, addToGroup_ok.
  - intros gs (k & _ & Hgs)%res_bind_Ok. eapply IH; [|exact Hgs]. by apply addToGroup_ok.
Qed.

Lemma groupRows_safe rows :
  all_wide width rows →
  safe (groupRows gp rows) ∧ ∀ gs, groupRows gp rows = Ok gs → Forall (grp_ok true) gs.
Proof.
  intros Hr. destruct (groupLoop_safe rows (∅, []) Hr (Forall_nil_2 _)) as [H1 H2]. unfold groupRows. split.
  - by apply safe_bind; [|done].
  - intros gs (gs' & Hg & [= <-])%res_bind_Ok. destruct (_ && _) eqn:E; [|by apply H2].
    apply andb_true_iff in E as [E%bool_decide_eq_true _]. apply Forall_singleton. split; [|done]. by rewrite E.
Qed.

Lemma singletons_ok rows : all_wide width rows → Forall (grp_ok false) (singleton_grp <$> rows).
Proof. intros Hr. apply Forall_fmap. eapply Forall_impl; [done|]. intros r Hl. by split; [|apply wide_one]. Qed.

Lemma planValue_safe grouping g p :
  grp_ok grouping g → plan_ok grouping p →
  safe (planValue now sc (if grouping then Some (g_rows g) else None) (g_repr g) p).
Proof.
  intros [Hr Hrows] Hp. destruct p as [pos|pos name star| |e]; simpl in *; [| |done|].
  - destruct (row_at_lt (g_repr g) pos) as [v ->]; [|done].
    destruct grouping; [|by rewrite Hr]. rewrite Forall_forall in Hr. by apply Hr.
  - destruct grouping; [|apply safe_sql]. apply evalAggregate_safe. destruct star; [done|].
    destruct Hp as (p & -> & Hp). exists p. split; [done|]. by eapply wide_rows.
  - destruct grouping; [by destruct Hp as [v ->]|]. apply evalValue_safe; [|done]. by rewrite Hr.
Qed.

Lemma planValues_safe grouping g ps :
  grp_ok grouping g → Forall (plan_ok grouping) ps →
  safe (planValues now sc (if grouping then Some (g_rows g) else None) (g_repr g) ps).
Proof.
  intros Hg. induction 1 as [|p ps Hp _ IH]; simpl; [done|].
  apply safe_bind; [by apply planValue_safe|]. intros v _. by apply safe_bind; [|done].
Qed.

Lemma projectItems_safe grouping ps gs :
  Forall (grp_ok grouping) gs → Forall (plan_ok grouping) ps → safe (projectItems now sc grouping ps gs).
Proof.
  intros Hgs Hp. induction Hgs as [|g gs Hg _ IH]; simpl; [done|].
  apply safe_bind; [by apply planValues_safe|]. intros vs _. by apply safe_bind; [|done].
Qed.

Lemma keyedItems_safe grouping ps gs :
  Forall (grp_ok grouping) gs → Forall (plan_ok grouping) ps → safe (keyedItems now sc grouping ps gs).
Proof.
  intros Hgs Hp. induction Hgs as [|g gs Hg _ IH]; simpl; [done|].
  apply safe_bind; [by apply planValues_safe|]. intros vs _. by apply safe_bind; [|done].
Qed.

Lemma orderItems_safe grouping ps desc gs :
  Forall (grp_ok grouping) gs → Forall (plan_ok grouping) ps →
  safe (orderItems now sc grouping ps desc gs) ∧
  ∀ out, orderItems now sc grouping ps desc gs = Ok out → Forall (grp_ok grouping) out.
Proof.
  intros Hgs Hp. unfold orderItems. case_bool_decide; [split; [done|by intros ? [= <-]]|]. split.
  - apply safe_bind; [by apply keyedItems_safe|done].
  - intros out (keyed & Hk & [= <-])%res_bind_Ok. apply keyedItems_spec in Hk as [<- _].
    by rewrite SliceStable_perm.
Qed.

(** The plans of a checked query. *)
Lemma starTable_ok t : t ∈ sc → Forall (λ p, plan_ok false p.1) (starTable sc t).
Proof.
  intros Ht. apply Forall_fmap, Forall_forall. intros j Hj%elem_of_seq. simpl. specialize (Hfit _ Ht). lia.
Qed.

Lemma planField_ok grouping a f p : planField sc grouping gp a f = Ok p → plan_ok grouping p.1.
Proof.
  assert (∀ name star arg pos, validateAggregate name star arg sc = Ok pos →
    if star then name = "count" else ∃ p, pos = Some p ∧ p < width) as Hagg
    by (intros ????; by apply validateAggregate_bound).
  intros H. destruct f; simpl in H;
    try (destruct grouping; [done|]; by apply res_bind_Ok in H as ([] & Hv & [= <-])).
  - destruct grouping; [done|]. injection H as <-. done.
  - apply res_bind_Ok in H as (pos & Hp & H). destruct grouping; simpl in H.
    + case_bool_decide; [|done]. by injection H as <-.
    + injection H as <-. simpl. by eapply resolve_bound.
  - case_bool_decide; [by injection H as <-|]. destruct (IsAggregateFunc _); [|done].
    destruct grouping; [|done]. apply res_bind_Ok in H as (pos & Hp & [= <-]). by eapply Hagg.
Qed.

Lemma planFields_ok star fs als grouping ps :
  planFields sc star fs als grouping gp = Ok ps → Forall (plan_ok grouping) ps.*1.
Proof.
  unfold planFields. destruct star.
  - destruct grouping; [done|]. intros [= <-]. apply Forall_fmap, Forall_forall.
    intros p (t & Hp & Ht)%list_elem_of_bind. revert p Hp. by apply Forall_forall, starTable_ok.
  - revert als ps. induction fs as [|f fs IH]; intros als ps H; simpl in H; [by injection H as <-|].
    apply res_bind_Ok in H as (p & Hp & (rest & Hr & [= <-])%res_bind_Ok).
    simpl. constructor; [by eapply planField_ok|by eapply IH].
Qed.

Lemma orderPlans_ok grouping order ps : orderPlans sc grouping gp order = Ok ps → Forall (plan_ok grouping) ps.
Proof.
  revert ps. induction order as [|[e d] order IH]; intros ps H; cbn [orderPlans] in H; [by injection H as <-|].
  apply res_bind_Ok in H as (p & Hp & (rest & Hr & [= <-])%res_bind_Ok). constructor; [|by apply IH].
  clear IH Hr rest. unfold orderPlan in Hp. destruct grouping.
  - destruct e; try done.
    + injection Hp as <-. simpl. eauto.
    + apply res_bind_Ok in Hp as (pos & Hp & H). case_bool_decide; [|done]. by injection H as <-.
    + case_bool_decide; [by injection Hp as <-|]. destruct (IsAggregateFunc _); [|done].
      apply res_bind_Ok in Hp as (pos & Hp & [= <-]). by eapply validateAggregate_bound.
  - apply res_bind_Ok in Hp as ([] & Hv & Hp). destruct e; try (by injection Hp as <-).
    apply res_bind_Ok in Hp as (pos & Hp & [= <-]). simpl. by eapply resolve_bound.
Qed.

(** HAVING keeps some of the groups. *)
Lemma keepGroups_safe h gs :
  validateHaving sc gp h = Ok tt → Forall (grp_ok true) gs →
  safe (keepGroups now sc h gs) ∧ ∀ out, keepGroups now sc h gs = Ok out → Forall (grp_ok true) out.
Proof.
  intros Hv. induction 1 as [|g gs Hg _ [IH1 IH2]]; simpl; [split; [done|by intros ? [= <-]]|]. split.
  - destruct Hg as [H1 H2]. apply safe_bind; [by eapply having_bool_safe|].
    intros bn _. by apply safe_bind; [|done].
  - intros out (bn & _ & (rest & Hr & [= <-])%res_bind_Ok)%res_bind_Ok.
    destruct (passes bn); [constructor|]; auto.
Qed.
End plans.

(** ** A query, once its tables are in scope *)
Definition limit_ok (limit : option Z) : Prop := match limit with Some n => (0 ≤ n)%Z | None => True end.

Lemma limitItems_safe {A} limit (l : list A) : limit_ok limit → safe (limitItems limit l).
Proof.
  intros Hl. destruct limit as [n|]; [|done]. simpl in *. destruct (_ <? Z.of_nat _)%Z; [|done].
  by destruct (Z.ltb_spec n 0); [lia|].
Qed.

Lemma limitItems_incl {A} (P : A → Prop) limit l out : limitItems limit l = Ok out → Forall P l → Forall P out.
Proof.
  destruct limit as [n|]; [|by intros [= <-]]. simpl. destruct (_ <? Z.of_nat _)%Z; [|by intros [= <-]].
  destruct (_ <? 0)%Z; [done|]. intros [= <-] Hl. by apply Forall_take.
Qed.

(** The queries a query runs: derived tables and subqueries of conditions. *)
Definition ref_subs (tr : TableRef) : list Select :=
  let '(MkTableRef _ _ sub) := tr in match sub with Some q => [q] | None => [] end.
Fixpoint expr_subs (e : Expr) : list Select :=
  match e with
  | InSub _ q _ => [q]
  | Cmp _ l r | And l r | Or l r | Binary _ l r => expr_subs l ++ expr_subs r
  | Not x | IsNullE x _ | InList x _ _ => expr_subs x
  | _ => []
  end.
Definition opt_subs (e : option Expr) : list Select := match e with Some e => expr_subs e | None => [] end.
Definition select_subs (q : Select) : list Select :=
  let '(MkSelect tables ons _ _ _ _ w _ having _ _) := q in
  (tables ≫= ref_subs) ++ opt_subs w ++ opt_subs having ++ (ons ≫= expr_subs).

(** A property of a query and of all the queries it runs. *)
Inductive everywhere (P : Select → Prop) (q : Select) : Prop :=
  everywhere_intro : P q → (∀ q', q' ∈ select_subs q → everywhere P q') → everywhere P q.

(** The shape of parsed queries. *)
Definition shape_ok (q : Select) : Prop :=
  let '(MkSelect tables ons kinds _ _ _ _ _ _ _ limit) := q in
  tables ≠ [] ∧ length tables = length ons + 1 ∧ length tables = length kinds + 1 ∧ limit_ok limit.

(** The aliases of derived tables. *)
Definition derived_aliases (q : Select) : list string :=
  let '(MkSelect tables _ _ _ _ _ _ _ _ _ _) := q in
  tables ≫= λ tr, let '(MkTableRef _ a sub) := tr in match sub with Some _ => [a] | None => [] end.

Section queries.
  Context {S : Type} `{!Accessor S, !ReadSpec S} {Q : Quoter} (now : Value) (s : S).
  Context (Hinv : acc_inv s) (Hrows : rows_complete s).

Lemma runSelect_safe sc ons kinds star fields aliases w group having order limit :
  scope_at 0 sc → Forall (jt_ok s) sc → sc ≠ [] → length sc = length ons + 1 → length sc = length kinds + 1 →
  limit_ok limit → safe (runSelect now sc ons kinds star fields aliases w group having order limit s).
Proof.
  intros Hsc Ht Hne Ho Hk Hlim. pose proof (scope_at_fits 0 sc Hsc) as Hfit. simpl in Hfit. unfold runSelect.
  apply safe_bind; [apply validateOns_safe|]. intros [] Hons.
  apply safe_bind; [destruct w; [apply validateExpr_safe|done]|]. intros [] Hw.
  apply safe_bind; [apply groupPositions_safe|]. intros gp Hgp. cbv zeta.
  set (grouping := _ || _). apply safe_bind; [destruct having; [apply validateHaving_safe|done]|]. intros [] Hh.
  apply safe_bind; [apply planFields_safe|]. intros plans Hp.
  apply safe_bind; [apply orderPlans_safe|]. intros orders Hor.
  pose proof (groupPositions_bound _ _ _ _ Hfit Hgp) as Hb.
  pose proof (planFields_ok sc gp _ Hfit _ _ _ _ _ Hp) as Hplans.
  pose proof (orderPlans_ok sc gp _ Hfit _ _ _ Hor) as Horders.
  destruct (selectRows_safe s Hinv Hrows now sc ons kinds w) as [Hs Hwide].
  { split; try done. by destruct w. }
  apply safe_bind; [done|]. intros filtered Hf. apply Hwide in Hf as Hfw.
  assert (safe (if grouping then groupRows gp filtered else Ok (singleton_grp <$> filtered)) ∧
    ∀ gs, (if grouping then groupRows gp filtered else Ok (singleton_grp <$> filtered)) = Ok gs →
      Forall (grp_ok gp (scope_width sc) grouping) gs) as [Hg1 Hg2].
  { destruct grouping; [by apply groupRows_safe|]. split; [done|]. intros gs [= <-]. by apply singletons_ok. }
  apply safe_bind; [done|]. intros gs Hgs%Hg2.
  assert (safe (match having with None => Ok gs | Some h => keepGroups now sc h gs end) ∧
    ∀ kept, match having with None => Ok gs | Some h => keepGroups now sc h gs end = Ok kept →
      Forall (grp_ok gp (scope_width sc) grouping) kept) as [Hk1 Hk2].
  { destruct having as [h|]; [|split; [done|by intros ? [= <-]]].
    assert (grouping = true) as Eg by (unfold grouping; apply orb_true_iff; by right).
    rewrite Eg in *. by eapply keepGroups_safe. }
  apply safe_bind; [done|]. intros kept Hkept%Hk2.
  destruct (orderItems_safe now sc gp _ Hfit grouping orders (ot_Desc <$> order) kept Hkept Horders) as [Ho1 Ho2].
  apply safe_bind; [done|]. intros sorted Hsorted%Ho2.
  apply safe_bind; [by apply limitItems_safe|]. intros limited Hl.
  apply safe_bind; [|done]. eapply projectItems_safe; [done|by eapply limitItems_incl|done].
Qed.

(** What a query gives to the one around it. *)
Definition sub_ok (m : res Result) : Prop :=
  safe m ∧ ∀ rs, m = Ok rs → Forall (λ r, length r = length (res_Columns rs)) (res_Rows rs).

Section subqueries.
  Context (sel : Select → S → res Result).

Lemma firstColumn_safe rows : all_wide 1 rows → safe (firstColumn rows).
Proof.
  induction 1 as [|r rows Hr _ IH]; simpl; [done|].
  destruct (row_at_lt r 0) as [v ->]; [rewrite Hr; lia|]. by apply (safe_bind (firstColumn rows)).
Qed.

Lemma resolveInSubqueries_safe e :
  (∀ q, q ∈ expr_subs e → sub_ok (sel q s)) → safe (resolveInSubqueries sel s e).
Proof.
  induction e; intros Hq; cbn [resolveInSubqueries expr_subs] in *; try done;
    try (apply safe_bind; [apply IHe1; intros q Hin; apply Hq, elem_of_app; by left|]; intros l' _;
         apply safe_bind; [apply IHe2; intros q Hin; apply Hq, elem_of_app; by right|done]);
    try (by apply safe_bind; [apply IHe|]).
  destruct (Hq Sub) as [H1 H2]; [by left|]. apply safe_bind; [done|]. intros rs Hrs.
  case_bool_decide as Hc; [apply safe_sql|]. apply safe_bind; [|done]. apply firstColumn_safe.
  eapply Forall_impl; [by apply H2|]. intros r ->. by destruct (decide (length (res_Columns rs) = 1)).
Qed.

Lemma resolveOpt_safe e : (∀ q, q ∈ opt_subs e → sub_ok (sel q s)) → safe (resolveOpt sel s e).
Proof. destruct e as [e|]; [|done]. intros Hq. by apply safe_fmap, resolveInSubqueries_safe. Qed.

Lemma resolveOns_safe ons :
  (∀ q, q ∈ ons ≫= expr_subs → sub_ok (sel q s)) →
  safe (resolveOns sel s ons) ∧ ∀ ons', resolveOns sel s ons = Ok ons' → length ons' = length ons.
Proof.
  induction ons as [|e ons IH]; intros Hq; simpl; [split; [done|by intros ? [= <-]]|].
  rewrite bind_cons in Hq. destruct IH as [IH1 IH2]; [intros q Hin; apply Hq, elem_of_app; by right|]. split.
  - apply safe_bind; [apply resolveInSubqueries_safe; intros q Hin; apply Hq, elem_of_app; by left|].
    intros e' _. by apply safe_bind; [|done].
  - intros ons' (e' & _ & (rest & Hr & [= <-])%res_bind_Ok)%res_bind_Ok. simpl. by rewrite (IH2 _ Hr).
Qed.

(** FROM gives a scope of tables side by side. *)
Lemma derived_ok alias base rs :
  Forall (λ r, length r = length (res_Columns rs)) (res_Rows rs) → acc_view s !! alias = None →
  jt_ok s (MkJoinTable (derivedDef alias rs) alias base
                match res_Rows rs with [] => None | rows => Some rows end).
Proof.
  intros Hr Ha. unfold jt_ok. destruct (res_Rows rs) as [|r rows] eqn:Er; simpl.
  - rewrite Ha. apply Forall_forall. intros c (i & h & -> & _)%elem_of_lookup_imap. done.
  - by rewrite length_imap.
Qed.

Lemma stored_ok n alias base def : tableDef n s = Ok def → jt_ok s (MkJoinTable def alias base None).
Proof. intros Hd. destruct (tableDef_view _ _ _ Hinv Hd) as (<- & rows & Hv). unfold jt_ok. simpl. by rewrite Hv. Qed.

Lemma fromTables_safe base seen trs :
  (∀ q, q ∈ trs ≫= ref_subs → sub_ok (sel q s)) →
  (∀ t a q, MkTableRef t a (Some q) ∈ trs → acc_view s !! a = None) →
  safe (fromTables sel base seen trs s) ∧
  ∀ sc, fromTables sel base seen trs s = Ok sc →
    scope_at base sc ∧ Forall (jt_ok s) sc ∧ length sc = length trs.
Proof.
  revert base seen. induction trs as [|[n alias sub] trs IH]; intros base seen Hq Ha; cbn [fromTables].
  { split; [done|]. by intros ? [= <-]. }
  rewrite bind_cons in Hq.
  assert (∀ def rows, jt_ok s (MkJoinTable def alias base rows) →
    let m := if bool_decide (alias ∈ seen) then
        Err (SQLError "42703" "table alias %q specified more than once" [AStr alias])
      else rest ← fromTables sel (base + length (td_Cols def)) (alias :: seen) trs s;
           Ok (MkJoinTable def alias base rows :: rest) in
    safe m ∧ ∀ sc, m = Ok sc → scope_at base sc ∧ Forall (jt_ok s) sc ∧ length sc = Datatypes.S (length trs)) as Hrest.
  { intros def rows Ht m. subst m. case_bool_decide; [split; [apply safe_sql|done]|].
    destruct (IH (base + length (td_Cols def)) (alias :: seen)) as [H1 H2].
    - intros q Hin. apply Hq, elem_of_app. by right.
    - intros t a q Hin. eapply Ha. by right.
    - split; [by apply safe_bind; [|done]|]. intros sc (rest & Hr & [= <-])%res_bind_Ok.
      destruct (H2 _ Hr) as (Hs & Hf & Hl). split_and!; [by split|by constructor|simpl; by rewrite Hl]. }
  destruct sub as [q|].
  - destruct (Hq q) as [H1 H2]; [apply elem_of_app; left; by left|].
    destruct (sel q s) as [rs|e]; simpl; [|split; [intros [= ->]; by apply H1|done]].
    apply (Hrest (derivedDef alias rs)), derived_ok; [by apply H2|]. eapply Ha. by left.
  - destruct (tableDef n s) as [def|e] eqn:Ed; simpl; [by apply Hrest, (stored_ok n)|].
    split; [|done]. unfold tableDef, res_of_option in Ed. destruct (findDef _ _); [done|].
    injection Ed as <-. apply safe_sql.
Qed.
End subqueries.

(** Running a query, by induction on the queries it runs. *)
Lemma execSelect_safe q :
  everywhere shape_ok q → everywhere (λ q, ∀ a, a ∈ derived_aliases q → acc_view s !! a = None) q →
  safe (execSelect now q s).
Proof.
  intros Hs. induction Hs as [q Hq _ IH]. intros [Ha Hsub].
  assert (∀ q', q' ∈ select_subs q → sub_ok (execSelect now q' s)) as Hok.
  { intros q' Hin. split; [by apply IH; [|apply Hsub]|]. intros rs Hrs. by apply (select_shape _ _ _ _ Hrs). }
  clear IH Hsub. destruct q as [tables ons kinds star fields aliases w group having order limit].
  destruct Hq as (Hne & Ho & Hk & Hlim). cbn [execSelect]. cbn [select_subs] in Hok.
  destruct (fromTables_safe (execSelect now) 0 [] tables) as [Hf1 Hf2].
  { intros q Hin. apply Hok, elem_of_app. by left. }
  { intros t a q Hin. apply Ha. apply list_elem_of_bind. eexists. split; [|exact Hin]. by left. }
  apply safe_bind; [done|]. intros sc (Hsc & Ht & Hl)%Hf2.
  apply safe_bind; [apply resolveOpt_safe; intros q Hin; apply Hok; rewrite !elem_of_app; auto|]. intros w' _.
  apply safe_bind; [apply resolveOpt_safe; intros q Hin; apply Hok; rewrite !elem_of_app; auto|]. intros having' _.
  destruct (resolveOns_safe (execSelect now) ons) as [Hon1 Hon2].
  { intros q Hin. apply Hok. rewrite !elem_of_app. auto. }
  apply safe_bind; [done|]. intros ons' Hlo%Hon2.
  apply runSelect_safe; try done; try lia. intros ->. by destruct tables.
Qed.
End queries.

(** ** The shape of what the parser accepts *)
Definition inside (q : Select) (ks : list symbol) : Prop := ∃ kq, GSel q kq ∧ length kq < length ks.

Lemma inside_mono q ks ks' : inside q ks → length ks ≤ length ks' → inside q ks'.
Proof. intros (kq & Hq & Hl) Hle. exists kq. split; [done|lia]. Qed.

Ltac inside_tac :=
  match goal with H : inside ?q ?ks |- inside ?q _ => apply (inside_mono _ _ _ H) end;
  do 9 (rewrite ?length_app; cbn [length]); lia.

Lemma expr_inside l e ks q : GE l e ks → q ∈ expr_subs e → inside q ks.
Proof.
  induction 1; simpl; try (by intros ?%not_elem_of_nil);
    try (intros [?%IHGE1|?%IHGE2]%elem_of_app; inside_tac); try (intros ?%IHGE; inside_tac).
  - intros ->%list_elem_of_singleton. eexists. split; [done|]. rewrite !length_app. simpl.
    rewrite length_app. simpl. lia.
Qed.

Lemma ref_inside tr ks q : GRef tr ks → q ∈ ref_subs tr → inside q ks.
Proof.
  intros H. inversion H; subst; simpl; try (by intros ?%not_elem_of_nil).
  intros ->%list_elem_of_singleton. eexists. split; [done|]. simpl. rewrite length_app. simpl. lia.
Qed.

(** The joins of a query: as many tables, conditions and kinds. *)
Lemma joins_inside js ks q :
  many GJoin js ks → q ∈ (map (λ j, j.1.1) js ≫= ref_subs) ∨ q ∈ (map (λ j, j.1.2) js ≫= expr_subs) → inside q ks.
Proof.
  induction 1 as [|[[tr on] k] js kj ks Hj _ IH]; [by intros [?%not_elem_of_nil|?%not_elem_of_nil]|].
  cbn [map fst snd]. rewrite !bind_cons, !elem_of_app.
  assert (q ∈ ref_subs tr ∨ q ∈ expr_subs on → inside q kj) as Hhd.
  { inversion Hj; subst; (intros [?|?];
      [assert (inside q kr) by (by eapply ref_inside)|assert (inside q ko) by (by eapply expr_inside)]); inside_tac. }
  intros [[?|?]|[?|?]]; [assert (inside q kj) by auto|assert (inside q ks) by auto|
    assert (inside q kj) by auto|assert (inside q ks) by auto]; inside_tac.
Qed.

Lemma clause_inside k w ks q : clause k (GE 0) w ks → q ∈ opt_subs w → inside q ks.
Proof.
  destruct 1 as [|e ks He]; simpl; [by intros ?%not_elem_of_nil|]. intros H%(expr_inside _ _ _ _ He). inside_tac.
Qed.

Lemma literal_int_nonneg n t : literal (VInt n) t → (0 ≤ n)%Z.
Proof.
  assert (∀ s a, (0 ≤ a)%Z → ∀ z, digits_acc s a = Some z → (0 ≤ z)%Z) as Hacc.
  { induction s as [|c s IH]; intros a Ha z; simpl; [by intros [= <-]|].
    unfold digit_val. case_bool_decide; [|done]. apply IH. lia. }
  inversion 1 as [t' n' _ Hp| | | | |]; subst. unfold ParseInt, digits_val in Hp. destruct t'; [done|].
  destruct (digits_acc _ 0) as [z|] eqn:Ez; [|done]. case_bool_decide; [|done]. injection Hp as <-.
  by eapply Hacc.
Qed.

Lemma parsed_shape q ks : GSel q ks → everywhere shape_ok q.
Proof.
  remember (length ks) as n eqn:Hn. revert q ks Hn. induction (lt_wf n) as [n _ IH]. intros q ks -> HG.
  inversion HG as [star fs kf ref kr js kj w kwh group kg having kh order ko limit kl Hf Hr Hj Hw Hg Hh Ho Hl].
  subst. split.
  - simpl. rewrite !length_map, !Nat.add_1_r. split_and!; [done..|].
    inversion Hl as [|z ? (t & _ & Ht)]; [done|]. by eapply literal_int_nonneg.
  - intros q' Hq'. assert (inside q' (kw "select" :: kf ++ kw "from" :: kr ++ kj ++ kwh ++ kg ++ kh ++ ko ++ kl))
      as (kq & HG' & Hlt); [|by eapply IH].
    cbn [select_subs] in Hq'. rewrite bind_cons, !elem_of_app in Hq'.
    destruct Hq' as [[?|?]|[?|[?|?]]];
      [assert (inside q' kr) by (by eapply ref_inside)|assert (inside q' kj) by (by eapply joins_inside; eauto)|
       assert (inside q' kwh) by (by eapply clause_inside)|assert (inside q' kh) by (by eapply clause_inside)|
       assert (inside q' kj) by (by eapply joins_inside; eauto)]; inside_tac.
Qed.

Lemma Parse_derives src st : Parse src = Ok st → ∃ ks, GProgram st ks.
Proof.
  unfold Parse. destruct (lex src) as [toks|e] eqn:El; [|done]. simpl.
  pose proof (parseProgram_runs (length toks) toks (lex_stream _ _ El) ltac:(lia)) as H.
  destruct (parseProgram (length toks) toks) as [[st' s']|e]; [|done]. intros [= <-].
  destruct H as (ks & _ & _ & HG & _). by exists ks.
Qed.
