(* ===== verification/SelectDemo.v ===== *)
(** * Instances of the theorems of [Select] and executions of queries

    Queries on the database of [ExecDemo], with a concrete [Quoter], and a run
    that shows what a derived table without rows does. *)
From Stdlib Require Import Ascii.
From S2P Require Import Prelude GoStd Types Schema Wal Table Engine Txn Accessor Ast Lexer Parser Eval Exec ExecDemo Select Safety.

Open Scope go_scope.

(** ** A quoter: each byte as two letters *)
Definition nibble (n : N) : ascii := ascii_of_N (97 + n).
Definition unnibble (c : ascii) : N := (N_of_ascii c - 97)%N.

Fixpoint hexQuote (s : string) : string :=
  match s with
  | EmptyString => EmptyString
  | String c s =>
      String (nibble (N_of_ascii c / 16)) (String (nibble (N_of_ascii c mod 16)) (hexQuote s))
  end.

Lemma nibble_roundtrip c :
  ascii_of_N (16 * unnibble (nibble (N_of_ascii c / 16)) + unnibble (nibble (N_of_ascii c mod 16))) = c ∧
  negb (Ascii.eqb (nibble (N_of_ascii c / 16)) Ascii.zero) = true ∧
  negb (Ascii.eqb (nibble (N_of_ascii c mod 16)) Ascii.zero) = true.
Proof. destruct c as [[] [] [] [] [] [] [] []]; vm_compute; auto. Qed.

#[export] Program Instance hexQuoter : Quoter := {| Quote := hexQuote |}.
Next Obligation.
  intros s. induction s as [|c s IH]; intros [|c' s'] H; simpl in H; try done.
  injection H as H1 H2 H3. f_equal; [|by apply IH].
  rewrite <-(proj1 (nibble_roundtrip c)), <-(proj1 (nibble_roundtrip c')). by rewrite H1, H2.
Qed.
Next Obligation.
  induction s as [|c s IH]; simpl; [done|]. destruct (nibble_roundtrip c) as (_ & -> & ->). done.
Qed.

(** ** Queries *)
Definition from (ts : list TableRef) (on : list Expr) (kinds : list string) (fields : list Expr)
    (w : option Expr) (group : list Expr) (order : list OrderTerm) (limit : option Z) : Select :=
  MkSelect ts on kinds false fields [] w group None order limit.
Definition tref (t : string) : TableRef := MkTableRef t t None.

(** [SELECT users.email, posts.id FROM users LEFT JOIN posts ON author = users.id
    ORDER BY users.email DESC LIMIT 5] *)
Definition q_left : Select :=
  from [tref "users"; tref "posts"] [Cmp "=" (ColRef "posts" "author") (ColRef "users" "id")] ["left"]
    [ColRef "users" "email"; ColRef "posts" "id"] None [] [MkOrderTerm (ColRef "users" "email") true] (Some 5%Z).

Example q_left_result :
  execSelect VNull q_left blog =
  Ok (MkResult ["users.email"; "posts.id"] [[VText "b"; VNull]; [VText "a"; VInt 1]] 0).
Proof. vm_compute. reflexivity. Qed.

Lemma select_shape_witness :
  ∃ rs, execSelect VNull q_left blog = Ok rs ∧ length (res_Columns rs) = 2 ∧
  Forall (λ r, length r = length (res_Columns rs)) (res_Rows rs) ∧ (Z.of_nat (length (res_Rows rs)) ≤ 5)%Z.
Proof.
  exists (MkResult ["users.email"; "posts.id"] [[VText "b"; VNull]; [VText "a"; VInt 1]] 0).
  destruct (select_shape VNull q_left blog _ q_left_result) as [H1 H2].
  split; [exact q_left_result|]. split; [reflexivity|]. split; [exact H1|]. apply H2. reflexivity.
Defined.

(** [SELECT count( * ), author FROM posts GROUP BY author], after two more posts. *)
Definition posts3 : list row := [[VInt 1; VInt 1]; [VInt 2; VNull]; [VInt 3; VInt 1]].


Lemma group_key_exact_witness :
  ∃ k, groupKey [1] [VInt 1; VText "x"] = Ok k ∧ groupKey [1] [VInt 3; VText "x"] = Ok k ∧
  ([VInt 1; VText "x"] : row) !! 1 = ([VInt 3; VText "x"] : row) !! 1.
Proof.
  destruct (groupKey [1] [VInt 1; VText "x"]) as [k|] eqn:E; [|by vm_compute in E].
  assert (groupKey [1] [VInt 3; VText "x"] = Ok k) as E' by (rewrite <-E; vm_compute; reflexivity).
  exists k. split; [done|]. split; [done|].
  refine (proj2 (group_key_exact [1] [VInt 1; VText "x"] [VInt 3; VText "x"] k _ _ E E' 1 _));
    [repeat constructor|repeat constructor|by left].
Defined.

(** Rows ordered by their second column, descending. *)
Lemma order_by_correct_witness :
  ∃ sorted : list (list Value * grp),
    sorted.*2 = singleton_grp <$> [[VInt 1; VText "b"]; [VInt 3; VText "b"]; [VInt 2; VText "a"]] ∧
    StronglySorted (λ x y, ¬ keys_before [true] y.1 x.1) sorted.
Proof.
  assert (orderItems VNull users_scope false [fieldCol 1] [true]
    (singleton_grp <$> [[VInt 2; VText "a"]; [VInt 1; VText "b"]; [VInt 3; VText "b"]]) =
    Ok (singleton_grp <$> [[VInt 1; VText "b"]; [VInt 3; VText "b"]; [VInt 2; VText "a"]])) as H
    by (vm_compute; reflexivity).
  destruct (order_by_correct VNull users_scope false [fieldCol 1] [true] _ _ H) as
    (keyed & sorted & _ & Hs & _ & _ & Hsort & _); [discriminate|reflexivity| |by exists sorted].
  intros g ks Hg Hk. rewrite !fmap_cons in Hg.
  repeat (apply elem_of_cons in Hg as [->|Hg]; [vm_compute in Hk; injection Hk as <-; repeat constructor|]).
  by apply not_elem_of_nil in Hg.
Defined.

(** ** Joins *)
Definition blog_scope : joinScope :=
  [MkJoinTable (MkTableDef "users" demo_cols) "users" 0 None;
   MkJoinTable (MkTableDef "posts" posts_cols) "posts" 2 None].
Definition by_author : Expr := Cmp "=" (ColRef "" "author") (ColRef "users" "id").

Lemma left_join_rows_witness :
  joinStep VNull blog_scope by_author true 2 [[VInt 1; VInt 1]] [[VInt 1; VText "a"]; [VInt 2; VText "b"]] =
    Ok [[VInt 1; VText "a"; VInt 1; VInt 1]; [VInt 2; VText "b"; VNull; VNull]] ∧
  ∃ parts : list (list row), length parts = 2 ∧ parts !! 1 ≠ Some [].
Proof.
  assert (joinStep VNull blog_scope by_author true 2 [[VInt 1; VInt 1]] [[VInt 1; VText "a"]; [VInt 2; VText "b"]] =
    Ok [[VInt 1; VText "a"; VInt 1; VInt 1]; [VInt 2; VText "b"; VNull; VNull]]) as H by (vm_compute; reflexivity).
  split; [exact H|].
  destruct (left_join_rows VNull blog_scope by_author 2 _ _ _ H) as (parts & Hl & _ & Hp).
  exists parts. split; [exact Hl|]. destruct (Hp 1 _ eq_refl) as (part & -> & Hne & _). by intros [= ->].
Defined.

Lemma inner_join_product_witness :
  collectJoined VNull blog_scope [by_author] ["inner"] None blog =
    Ok (filter (λ r, onsHold VNull blog_scope [by_author] 1 1 r && holds VNull blog_scope None r)
          (cross [[VInt 1; VText "a"]; [VInt 2; VText "b"]] [[VInt 1; VInt 1]])).
Proof.
  destruct (collectJoined VNull blog_scope [by_author] ["inner"] None blog) as [out|] eqn:E;
    [|by vm_compute in E].
  f_equal. refine (inner_join_product VNull blog_scope [by_author] ["inner"] None blog
    (MkJoinTable (MkTableDef "users" demo_cols) "users" 0 None) [[VInt 1; VText "a"]; [VInt 2; VText "b"]]
    [(MkJoinTable (MkTableDef "posts" posts_cols) "posts" 2 None, [[VInt 1; VInt 1]])] out _ _ E).
  - repeat constructor; discriminate.
  - vm_compute. reflexivity.
Defined.

(** ** A derived table without rows

    The result of a subquery without rows is the nil slice, which stands for "not
    materialised": the table named by the alias is read instead, or reported
    missing. *)
Definition no_users : Select :=
  from [tref "users"] [] [] [ColRef "" "email"] (Some (Cmp "=" (ColRef "" "id") (Lit (VInt 99)))) [] [] None.

Example empty_derived_table :
  execSelect VNull no_users blog = Ok (MkResult ["email"] [] 0) ∧
  execSelect VNull (from [MkTableRef "" "t" (Some no_users)] [] [] [ColRef "" "email"] None [] [] None) blog =
    Err ErrNoTable ∧
  execSelect VNull (from [MkTableRef "" "posts" (Some no_users)] [] [] [ColRef "" "email"] None [] [] None) blog =
    Ok (MkResult ["email"] [[VInt 1]] 0).
Proof. vm_compute. split_and!; reflexivity. Qed.

(** ** Panics

    A query with a derived table, a join, a subquery and groups. *)
Definition q_authors_src : string :=
  "SELECT u.email, count(*) FROM users u LEFT JOIN (SELECT author, id FROM posts) p ON p.author = u.id
   WHERE u.id IN (SELECT author FROM posts) GROUP BY u.email HAVING count(*) > 0 ORDER BY u.email LIMIT 3".
Definition q_authors : Select :=
  MkSelect [MkTableRef "users" "u" None;
            MkTableRef "" "p" (Some (MkSelect [MkTableRef "posts" "posts" None] [] [] false
              [ColRef "" "author"; ColRef "" "id"] [""; ""] None [] None [] None))]
    [Cmp "=" (ColRef "p" "author") (ColRef "u" "id")] ["left"] false
    [ColRef "u" "email"; Func "count" true None] [""; ""]
    (Some (InSub (ColRef "u" "id") (MkSelect [MkTableRef "posts" "posts" None] [] [] false
       [ColRef "" "author"] [""] None [] None [] None) false))
    [ColRef "u" "email"] (Some (Cmp ">" (Func "count" true None) (Lit (VInt 0))))
    [MkOrderTerm (ColRef "u" "email") false] (Some 3%Z).

Example q_authors_result :
  Parse q_authors_src = Ok (SelectS q_authors) ∧
  execSelect VNull q_authors blog = Ok (MkResult ["u.email"; "count(*)"] [[VText "a"; VInt 1]] 0).
Proof. split; vm_compute; reflexivity. Qed.

Definition q_empty_derived : Select :=
  MkSelect [MkTableRef "" "posts" (Some (MkSelect [MkTableRef "users" "users" None] [] [] false
      [ColRef "" "id"; ColRef "" "email"; ColRef "" "id"] [""; ""; "c"]
      (Some (Cmp "=" (ColRef "" "id") (Lit (VInt 99)))) [] None [] None))]
    [] [] false [ColRef "" "c"] [""] None [] None [] None.

(** A derived table without rows, of three columns, named like a stored table of
    two: the stored rows are read, and the third column is outside them.  The
    server has no recover: this SELECT stops the process. *)
Example empty_derived_panics :
  Parse "SELECT c FROM (SELECT id, email, id AS c FROM users WHERE id = 99) posts" = Ok (SelectS q_empty_derived) ∧
  execSelect VNull q_empty_derived blog = Err panicRow.
Proof. split; vm_compute; reflexivity. Qed.

(** [SELECT users.email, posts.id FROM users, posts ... ORDER BY users.email DESC
    LIMIT 2] with an inner join and a WHERE condition. *)
Definition q_inner : Select :=
  from [tref "users"; tref "posts"] [Cmp "<=" (ColRef "posts" "id") (ColRef "users" "id")] [""]
    [ColRef "users" "email"; ColRef "posts" "id"] (Some (IsNullE (ColRef "users" "email") true)) []
    [MkOrderTerm (ColRef "users" "email") true] (Some 2%Z).

