(* ===== verification/Protocol.v ===== *)
(** * The wire protocol (protocol/protocol.go)

    Messages and their frames: a 4-byte big-endian length and a JSON body of at
    most [MaxFrame] bytes.  [encoding/json] enters as the class [Json]: encoding a
    message gives bytes or fails, and decoding them gives what the documentation
    of the package says it gives back ([through]; a number in a row comes back as
    a float, for one).  A stream is the list of bytes still to be read. *)
From S2P Require Import Prelude Bytes GoStd Types Wal.

(** The values of a row on the wire: [any] as the server fills it. *)
Inductive any := ANil | ANum (i : Z) | AFloat (f : f64) | AText (s : string) | ABool (b : bool).

(** A text is a string or the rendering of an error. *)
Record Message := MkMessage {
  m_Type : string; m_SQL : string; m_Name : string; m_Columns : list string;
  m_Rows : list (list any); m_Affected : Z; m_Code : string; m_Message : arg;
  m_Txn : string; m_Tables : list string }.

Definition MaxFrame : Z := 16 * 2 ^ 20.

Class Json := {
  Marshal : Message → res (list byte);
  Unmarshal : list byte → res Message;
  through : Message → Message;
  json_roundtrip m b : Marshal m = Ok b → Unmarshal b = Ok (through m) }.

Definition errFrame (n : Z) : error := Errorf "protocol: frame too large (%d bytes)" [AInt n].
Definition errEOF : error := Errorf "EOF" [].

Section protocol.
  Context {J : Json}.

(** The bytes [WriteFrame] writes. *)
Definition WriteFrame (m : Message) : res (list byte) :=
  b ← Marshal m;
  if (MaxFrame <? Z.of_nat (length b))%Z then Err (errFrame (Z.of_nat (length b)))
  else Ok (PutUintBE 4 (wrapu32 (Z.of_nat (length b))) ++ b).

(** A message and the rest of the stream. *)
Definition ReadFrame (f : list byte) : res (Message * list byte) :=
  match ReadFull 4 f with
  | None => Err errEOF
  | Some (hdr, f1) =>
      let n := UintBE hdr in
      if (MaxFrame <? n)%Z then Err (errFrame n)
      else match ReadFull (Z.to_nat n) f1 with
           | None => Err errEOF
           | Some (buf, f2) => m ← Unmarshal buf; Ok (m, f2)
           end
  end.

(** The messages a connection is served, until a read fails; each frame takes
    at least four bytes, so the length of the stream is enough fuel. *)
Fixpoint readAll (fuel : nat) (f : list byte) : list Message * list byte :=
  match fuel with
  | O => ([], f)
  | S fuel =>
      match ReadFrame f with
      | Ok (m, f') => let '(ms, rest) := readAll fuel f' in (m :: ms, rest)
      | Err _ => ([], f)
      end
  end.

Fixpoint writeAll (ms : list Message) : res (list byte) :=
  match ms with
  | [] => Ok []
  | m :: ms => b ← WriteFrame m; bs ← writeAll ms; Ok (b ++ bs)
  end.

(** A writer that ignores the errors of [WriteFrame]: the bytes on the wire for a
    list of messages, and what arrives of one. *)
Definition written (ms : list Message) : list byte :=
  ms ≫= λ m, match WriteFrame m with Ok fr => fr | Err _ => [] end.
Definition deliver (m : Message) : list Message :=
  match WriteFrame m with Ok _ => [through m] | Err _ => [] end.

(** ** Lemmas *)
Lemma WriteFrame_inv m fr :
  WriteFrame m = Ok fr →
  ∃ b, Marshal m = Ok b ∧ (Z.of_nat (length b) ≤ MaxFrame)%Z ∧
    fr = PutUintBE 4 (Z.of_nat (length b)) ++ b.
Proof.
  unfold WriteFrame. destruct (Marshal m) as [b|]; [|done]. simpl.
  destruct (Z.ltb_spec MaxFrame (Z.of_nat (length b))) as [|Hle]; [done|]. intros [= <-].
  exists b. split; [done|]. split; [done|]. unfold wrapu32, MaxFrame in *. by rewrite Z.mod_small by lia.
Qed.

Lemma header_id (b : list byte) :
  (Z.of_nat (length b) ≤ MaxFrame)%Z → UintBE (PutUintBE 4 (Z.of_nat (length b))) = Z.of_nat (length b).
Proof. intros H. apply UintBE_PutUintBE_id. unfold MaxFrame in H. simpl. lia. Qed.

Lemma ReadFrame_body b rest :
  (Z.of_nat (length b) ≤ MaxFrame)%Z →
  ReadFrame (PutUintBE 4 (Z.of_nat (length b)) ++ b ++ rest) = (λ m, (m, rest)) <$> Unmarshal b.
Proof.
  intros Hb. unfold ReadFrame. rewrite ReadFull_app by apply length_PutUintBE. cbv zeta.
  rewrite header_id by done. destruct (Z.ltb_spec MaxFrame (Z.of_nat (length b))); [lia|].
  rewrite Nat2Z.id, ReadFull_app by done. by destruct (Unmarshal b).
Qed.

Lemma readFrame_frame m fr rest : WriteFrame m = Ok fr → ReadFrame (fr ++ rest) = Ok (through m, rest).
Proof.
  intros (b & Hm & Hb & ->)%WriteFrame_inv. rewrite <-(assoc_L app), ReadFrame_body by done.
  by rewrite (json_roundtrip _ _ Hm).
Qed.

(** A cut frame is never a message. *)
Lemma readFrame_cut m fr k : WriteFrame m = Ok fr → k < length fr → ReadFrame (take k fr) = Err errEOF.
Proof.
  intros (b & Hm & Hb & ->)%WriteFrame_inv. rewrite length_app, length_PutUintBE. intros Hk.
  set (h := PutUintBE 4 (Z.of_nat (length b))). assert (length h = 4) as Hh by apply length_PutUintBE.
  destruct (decide (k < 4)).
  - unfold ReadFrame. rewrite ReadFull_short; [done|]. rewrite length_take, length_app. lia.
  - rewrite take_app_ge, Hh by lia. unfold ReadFrame. rewrite ReadFull_app by done. cbv zeta.
    unfold h. rewrite header_id by done. destruct (Z.ltb_spec MaxFrame (Z.of_nat (length b))); [lia|].
    rewrite Nat2Z.id, ReadFull_short; [done|]. rewrite length_take. lia.
Qed.

Lemma WriteFrame_length m fr : WriteFrame m = Ok fr → 4 ≤ length fr.
Proof. intros (b & _ & _ & ->)%WriteFrame_inv. rewrite length_app, length_PutUintBE. lia. Qed.

Lemma readAll_written ms fuel :
  length (written ms) ≤ fuel → readAll fuel (written ms) = (ms ≫= deliver, []).
Proof.
  revert fuel. induction ms as [|m ms IH]; intros fuel Hf; [by destruct fuel|].
  unfold written, deliver in *. cbn [mbind list_bind] in *. destruct (WriteFrame m) as [fr|] eqn:Em; [|by apply IH].
  rewrite length_app in Hf. pose proof (WriteFrame_length _ _ Em). destruct fuel as [|fuel]; [lia|].
  cbn [readAll app]. rewrite (readFrame_frame _ _ _ Em), IH by lia. done.
Qed.

(** What arrives of the messages of such a writer is read from the bytes. *)
Lemma written_read ms : readAll (length (written ms)) (written ms) = (ms ≫= deliver, []).
Proof. by apply readAll_written. Qed.

Lemma readAll_frames ms bs m fr k fuel :
  writeAll ms = Ok bs → WriteFrame m = Ok fr → k < length fr → length bs < fuel →
  readAll fuel (bs ++ take k fr) = (through <$> ms, take k fr).
Proof.
  intros Hms Hm Hk. revert fuel bs Hms. induction ms as [|x ms IH]; intros fuel bs Hms Hf; simpl in Hms.
  - simplify_eq. destruct fuel; [lia|]. cbn [readAll app]. by rewrite (readFrame_cut _ _ _ Hm Hk).
  - destruct (WriteFrame x) as [fx|] eqn:Ex; [|done]. simpl in Hms.
    destruct (writeAll ms) as [bs'|]; [|done]. simpl in Hms. simplify_eq.
    rewrite length_app in Hf. pose proof (WriteFrame_length _ _ Ex).
    destruct fuel as [|fuel]; [lia|]. cbn [readAll]. rewrite <-(assoc_L app), (readFrame_frame _ _ _ Ex).
    rewrite IH by (done || lia). done.
Qed.

(** C39: Framing is lossless and self-delimiting: a stream of frames followed by
    any cut part of another frame is read as exactly those messages in order (as
    JSON carries them), the partial frame yields no message, and a message whose
    body is over [MaxFrame] is refused by the writer. *)
Theorem frames_roundtrip (ms : list Message) (bs : list byte) (m : Message) (fr : list byte) (k : nat) :
  writeAll ms = Ok bs → WriteFrame m = Ok fr → k < length fr →
  readAll (S (length bs)) (bs ++ take k fr) = (through <$> ms, take k fr) ∧
  readAll (S (length (bs ++ fr))) (bs ++ fr) = (through <$> (ms ++ [m]), []).
Proof.
  intros Hms Hm Hk. split; [apply (readAll_frames ms bs m fr k); (done || lia)|].
  assert (writeAll (ms ++ [m]) = Ok (bs ++ fr)) as Hall.
  { clear Hk. revert bs Hms. induction ms as [|x ms IH]; intros bs Hms; simpl in *.
    - simplify_eq. rewrite Hm. simpl. by rewrite app_nil_r.
    - destruct (WriteFrame x); [|done]. simpl in *. destruct (writeAll ms) as [bs'|]; [|done]. simpl in *.
      simplify_eq. rewrite (IH _ eq_refl). simpl. by rewrite (assoc_L app). }
  pose proof (readAll_frames (ms ++ [m]) (bs ++ fr) m fr 0 (S (length (bs ++ fr))) Hall Hm
    ltac:(lia) ltac:(lia)) as H. rewrite take_0, app_nil_r in H. exact H.
Qed.
End protocol.

(** ** An instance: queries as their text *)
Module DemoJson.
Definition query (sql : string) : Message := MkMessage "query" sql "" [] [] 0 "" (AStr "") "" [].

#[export] Program Instance demo_json : Json := {|
  Marshal m := Ok (String.list_byte_of_string (m_SQL m));
  Unmarshal b := Ok (query (String.string_of_list_byte b));
  through m := query (m_SQL m) |}.
Next Obligation. intros m b [= <-]. by rewrite String.string_of_list_byte_of_string. Qed.

Lemma frames_roundtrip_witness :
  ∃ bs fr, writeAll [query "BEGIN"; query ""] = Ok bs ∧ WriteFrame (query "COMMIT") = Ok fr ∧
  length bs = 13 ∧ readAll 14 (bs ++ take 9 fr) = ([query "BEGIN"; query ""], take 9 fr).
Proof.
  destruct (writeAll [query "BEGIN"; query ""]) as [bs|] eqn:Eb; [|by vm_compute in Eb].
  destruct (WriteFrame (query "COMMIT")) as [fr|] eqn:Ef; [|by vm_compute in Ef].
  exists bs, fr. split; [done|]. split; [done|].
  assert (length bs = 13) as Hl by (vm_compute in Eb; injection Eb as <-; reflexivity).
  assert (length fr = 10) as Hf by (vm_compute in Ef; injection Ef as <-; reflexivity).
  split; [done|]. rewrite <-Hl.
  apply (frames_roundtrip [query "BEGIN"; query ""] bs (query "COMMIT") fr 9 Eb Ef). lia.
Defined.
End DemoJson.
