(* ===== verification/Server.v ===== *)
(** * The server (server/server.go) and the statement dispatcher (executor.Exec)

    A connection answers one message at a time: [dispatch] on the state of the
    engine and of the connection, whose transaction decides through which
    accessor a statement runs.  [c_out] is the list of the messages handed to
    [WriteFrame]; the code ignores its errors, so that a message [WriteFrame]
    refuses is never on the wire ([Protocol.deliver], [Protocol.written]).
    [handle] serves the messages of a connection and rolls an open transaction
    back when they end.

    The SQL parser is the argument [parse], of which nothing is assumed here; [Net]
    and the demo files take [Parse].  An index out of range is the error
    [panicRow]; nothing in the code recovers from it, so that no frame is written
    and the process ends with the state the panic left.  [panics] tells when a
    message does that; [dispatch] then gives this state, and whoever goes on from
    it ([Net], [Durable]) covers more than the code does.  [Net] puts all
    connections on one engine. *)
From S2P Require Import Prelude Bytes GoStd Types Schema Wal Table Engine Txn Accessor Ast Eval Exec Select Protocol.

Open Scope go_scope.

(** ** executor.Exec *)
Definition ExecStmt {S : Type} `{!Accessor S} {Q : Quoter} (eng : GoM Engine Result → GoM S Result) (now : Value)
    (stmt : Statement) : GoM S Result :=
  match stmt with
  | CreateTableS name cols => eng (execCreate name cols)
  | DropTableS name ifExists => eng (execDrop name ifExists)
  | InsertS st => execInsert now st
  | SelectS q => λ s, (s, execSelect now q s)
  | UpdateS st => execUpdate (execSelect now) now st
  | DeleteS st => execDelete (execSelect now) now st
  | BeginS | CommitS | RollbackS => glift (Err (SQLError "0A000" "unsupported statement" []))
  end.

(** ** Connections *)
Record connState := MkConn { c_txn : option Txn; c_out : list Message }.
Abbreviation Srv := (Engine * connState)%type.

Definition msg_ok (affected : Z) : Message := MkMessage "ok" "" "" [] [] affected "" (AStr "") "" [].
Definition msg_error (code : string) (text : arg) : Message :=
  MkMessage "error" "" "" [] [] 0 code text "" [].
Definition msg_ready (txn : string) : Message := MkMessage "ready" "" "" [] [] 0 "" (AStr "") txn [].
Definition msg_tables (type : string) (names : list string) : Message :=
  MkMessage type "" "" [] [] 0 "" (AStr "") "" names.

(** Hand one message to [WriteFrame], whose error is ignored. *)
Definition send (m : Message) (st : Srv) : Srv := (st.1, MkConn (c_txn st.2) (c_out st.2 ++ [m])).
Definition set_txn (x : option Txn) (st : Srv) : Srv := (st.1, MkConn x (c_out st.2)).

Definition ready (st : Srv) : Srv :=
  send (msg_ready (match c_txn st.2 with Some _ => "in-txn" | None => "idle" end)) st.

(** [st.txn.Rollback()], ignoring its error. *)
Definition rollback (st : Srv) : Srv :=
  match c_txn st.2 with
  | Some x => let '(x', e') := (Tx.Rollback (x, st.1)).1 in (e', MkConn (Some x') (c_out st.2))
  | None => st
  end.

Definition drop_txn (st : Srv) : Srv :=
  match c_txn st.2 with Some _ => set_txn None (rollback st) | None => st end.

Definition fail (code : string) (text : arg) (st : Srv) : Srv :=
  ready (send (msg_error code text) (drop_txn st)).

(** The error of a statement or a commit: a panic ends the process without a
    reply, after the deferred rollback of [handle]. *)
Definition is_panic (err : error) : bool :=
  match err with Errorf fmt [] => bool_decide (fmt = "runtime error: index out of range") | _ => false end.
Definition failWith (err : error) (code : string) (text : arg) (st : Srv) : Srv :=
  if is_panic err then drop_txn st else fail code text st.

Definition toJSON (v : Value) : any :=
  match v with
  | VNull => ANil
  | VInt i => ANum i
  | VFloat f => AFloat f
  | VText s => AText s
  | VBool b => ABool b
  | VTime t => AText (FormatDateTime t)
  end.

(** The SQLSTATE of an error. *)
Definition sqlstate (err : error) : string :=
  match err with SQLError code _ _ => code | _ => "58030" end.

Definition describeRow (c : Column) : list any :=
  let key := if Primary c then "PK" else if Unique c then "UNI" else "" in
  let null := if NotNull c || Primary c then "no" else "yes" in
  let auto := if AutoInc c then "auto_increment" else "" in
  let extra := if bool_decide (FKTable c ≠ "") then
                 (if bool_decide (auto ≠ "") then auto +:+ " " else auto)
                 +:+ "references " +:+ FKTable c +:+ "(" +:+ FKCol c +:+ ")"
               else auto in
  [AText (Name c); AText (Type_ c); AText key; AText null; AText extra].

Definition runDescribe (name : string) (st : Srv) : Srv :=
  match findDef name (Engine.Catalog st.1) with
  | None => ready (send (msg_error "42P01" (AErr (Errorf "relation %q does not exist" [AStr name]))) st)
  | Some def =>
      ready (send (MkMessage "describe" "" (td_Name def) ["column"; "type"; "key"; "null"; "extra"]
                     (describeRow <$> td_Cols def) 0 "" (AStr "") "" []) st)
  end.

Section server.
  Context {Q : Quoter} (parse : string → res Statement) (now : Value).

(** The reply to a statement. *)
Definition reply (rs : Result) : Message :=
  match res_Columns rs with
  | [] => msg_ok (res_Affected rs)
  | cols => MkMessage "result" "" "" cols ((λ r : list Value, toJSON <$> r) <$> res_Rows rs) 0 "" (AStr "") "" []
  end.

(** The statement through the accessor of the connection. *)
Definition execute (stmt : Statement) (st : Srv) : Srv * res Result :=
  match c_txn st.2 with
  | None => let '(e', q) := ExecStmt (λ m, m) now stmt st.1 in ((e', st.2), q)
  | Some x =>
      let '((x', e'), q) := ExecStmt on_engine now stmt (x, st.1) in
      ((e', MkConn (Some x') (c_out st.2)), q)
  end.

Definition is_ddl (stmt : Statement) : bool :=
  match stmt with CreateTableS _ _ | DropTableS _ _ => true | _ => false end.

Definition runQuery (sql : string) (st : Srv) : Srv :=
  match parse sql with
  | Err err => fail "42601" (AErr err) st
  | Ok BeginS =>
      match c_txn st.2 with
      | Some _ => ready (send (msg_ok 0) st)
      | None =>
          match Begin st.1 with
          | (e', Ok x) => ready (send (msg_ok 0) (e', MkConn (Some x) (c_out st.2)))
          | (e', Err err) => fail "58030" (AErr err) (e', st.2)
          end
      end
  | Ok CommitS =>
      match c_txn st.2 with
      | None => fail "25006" (AStr "there is no transaction in progress") st
      | Some x =>
          match Tx.Commit (x, st.1) with
          | ((x', e'), Err ErrUnique) =>
              fail "23505" (AStr "duplicate key value violates unique constraint") (e', MkConn (Some x') (c_out st.2))
          | ((x', e'), Err err) => failWith err "58030" (AErr err) (e', MkConn (Some x') (c_out st.2))
          | ((x', e'), Ok _) => ready (send (msg_ok 0) (e', MkConn None (c_out st.2)))
          end
      end
  | Ok RollbackS =>
      match c_txn st.2 with
      | None => fail "25006" (AStr "there is no transaction in progress") st
      | Some _ => ready (send (msg_ok 0) (set_txn None (rollback st)))
      end
  | Ok stmt =>
      if bool_decide (is_Some (c_txn st.2)) && is_ddl stmt then
        fail "25000" (AStr "DDL is not supported inside an explicit transaction in v1") st
      else
        match execute stmt st with
        | (st', Err err) => failWith err (sqlstate err) (AErr err) st'
        | (st', Ok rs) => ready (send (reply rs) st')
        end
  end.

Definition dispatch (msg : Message) (st : Srv) : Srv :=
  if bool_decide (m_Type msg = "query") then runQuery (m_SQL msg) st
  else if bool_decide (m_Type msg = "tables") then
    ready (send (msg_tables "tables" (td_Name <$> Engine.Catalog st.1)) st)
  else if bool_decide (m_Type msg = "databases") then
    ready (send (msg_tables "databases" ["tsql"]) st)
  else if bool_decide (m_Type msg = "describe") then runDescribe (m_Name msg) st
  else ready (send (msg_error "0A000" (AStr ("unknown message type " +:+ m_Type msg))) st).

(** Does handling the message panic? *)
Definition panics (msg : Message) (st : Srv) : bool :=
  let panicked {A} (q : res A) := match q with Err err => is_panic err | Ok _ => false end in
  bool_decide (m_Type msg = "query") &&
  match parse (m_SQL msg) with
  | Err _ | Ok BeginS | Ok RollbackS => false
  | Ok CommitS => match c_txn st.2 with Some x => panicked (Tx.Commit (x, st.1)).2 | None => false end
  | Ok stmt =>
      negb (bool_decide (is_Some (c_txn st.2)) && is_ddl stmt) && panicked (execute stmt st).2
  end.

(** The loop of [handle] and its deferred rollback. *)
Definition serve (msgs : list Message) (st : Srv) : Srv := foldl (λ st m, dispatch m st) st msgs.
Definition handle (msgs : list Message) (e : Engine) : Srv := rollback (serve msgs (e, MkConn None [])).

End server.

Create HintDb keeps.

(** ** Statements keep what the writes of their accessor keep *)
Section keeps.
  Context {S : Type} `{!Accessor S} (P : S → Prop).

Definition keeps {A} (m : GoM S A) : Prop := ∀ s, P s → P (m s).1.

Lemma keeps_bind {A B} (m : GoM S A) (k : A → GoM S B) :
  keeps m → (∀ a, keeps (k a)) → keeps (gbind m k).
Proof.
  intros Hm Hk s Hs. unfold gbind. pose proof (Hm s Hs) as H1. destruct (m s) as [s1 [a|err]]; [|done].
  by apply Hk.
Qed.
Lemma keeps_glift {A} (q : res A) : keeps (glift q).
Proof. by intros s. Qed.
Lemma keeps_gret {A} (a : A) : keeps (gret a).
Proof. by intros s. Qed.
Lemma keeps_gget : keeps gget.
Proof. by intros s. Qed.
Lemma keeps_map_err {A} f (m : GoM S A) : keeps m → keeps (map_err f m).
Proof.
  intros Hm s Hs. unfold map_err. pose proof (Hm s Hs) as H1. by destruct (m s) as [s1 [a|err]].
Qed.
Lemma keeps_gforeach {A} (f : A → GoM S unit) l : (∀ a, keeps (f a)) → keeps (gforeach f l).
Proof. intros Hf. induction l as [|a l IH]; [apply keeps_gret|]. by apply keeps_bind. Qed.

(** The four writes of the accessor keep [P]. *)
Record writes_keep : Prop := {
  wk_Put n id r : keeps (acc_Put n id r);
  wk_PutAuto n pk r : keeps (acc_PutAuto n pk r);
  wk_Update n id r : keeps (acc_Update n id r);
  wk_Delete n id : keeps (acc_Delete n id) }.

Context (W : writes_keep).

Lemma keeps_Put n id r : keeps (acc_Put n id r).
Proof. apply W. Qed.
Lemma keeps_PutAuto n pk r : keeps (acc_PutAuto n pk r).
Proof. apply W. Qed.
Lemma keeps_Update n id r : keeps (acc_Update n id r).
Proof. apply W. Qed.
Lemma keeps_Delete n id : keeps (acc_Delete n id).
Proof. apply W. Qed.

#[local] Hint Resolve keeps_bind keeps_glift keeps_gret keeps_gget keeps_map_err keeps_gforeach
  keeps_Put keeps_PutAuto keeps_Update keeps_Delete : keeps.

Lemma keeps_insertRows now def tbl idx ri rows : keeps (insertRows now def tbl idx ri rows).
Proof.
  revert ri. induction rows as [|es rows IH]; intros ri; simpl; [auto with keeps|].
  apply keeps_bind; [|auto]. unfold insertOne. apply keeps_bind; [auto with keeps|]. intros s.
  repeat (apply keeps_bind; [auto with keeps|]; intros ?). apply keeps_map_err.
  destruct (_ : option Z); auto with keeps.
Qed.

Lemma keeps_execInsert now st : keeps (execInsert now st).
Proof.
  unfold execInsert. repeat (apply keeps_bind; [auto using keeps_insertRows with keeps|]; intros ?).
  auto with keeps.
Qed.

Lemma keeps_updateOne now def tbl sets c : keeps (updateOne now def tbl sets c).
Proof.
  unfold updateOne. repeat (apply keeps_bind; [auto with keeps|]; intros ?).
  destruct (movedTo _ _ _); auto with keeps.
Qed.

Lemma keeps_execUpdate sel now st : keeps (execUpdate sel now st).
Proof.
  unfold execUpdate. repeat (apply keeps_bind; [auto using keeps_updateOne with keeps|]; intros ?).
  auto with keeps.
Qed.

Lemma keeps_execDelete sel now st : keeps (execDelete sel now st).
Proof.
  unfold execDelete, deleteOne. repeat (apply keeps_bind; [auto 10 with keeps|]; intros ?).
  auto with keeps.
Qed.

Lemma keeps_ExecStmt {Q : Quoter} eng now stmt :
  (∀ m, is_ddl stmt = true → keeps (eng m)) → keeps (ExecStmt eng now stmt).
Proof.
  intros He. destruct stmt; simpl;
    auto using keeps_execInsert, keeps_execUpdate, keeps_execDelete with keeps.
Qed.
End keeps.

(** ** A transaction does not touch the shared state *)
Record quiet (e e' : Engine) : Prop := {
  q_abs : abs e' = abs e; q_wal : e_wal e' = e_wal e; q_disk : e_disk e' = e_disk e }.

Lemma quiet_refl e : quiet e e.
Proof. done. Qed.
Lemma quiet_trans e1 e2 e3 : quiet e1 e2 → quiet e2 e3 → quiet e1 e3.
Proof. intros [] []. split; congruence. Qed.

Lemma reserve_quiet n e e0 : quiet e0 e → quiet e0 (ReserveID n e).1.
Proof.
  intros H. unfold ReserveID. destruct (e_tables e !! n) as [t|] eqn:Et; [|done].
  eapply quiet_trans; [done|]. split; [|done|done]. unfold abs, upd_table. simpl.
  rewrite (abs_upd n _ _ t Et). unfold abs_table. simpl.
  apply insert_id. exact (abs_lookup e n t Et).
Qed.

(** The engine under a session is one that nothing has happened to. *)
Definition still (e0 : Engine) (s : Sess) : Prop := quiet e0 s.2.

Lemma still_on_txn e0 f : keeps (still e0) (on_txn f).
Proof. by intros s. Qed.
Lemma still_reserve e0 n : keeps (still e0) (on_engine (ReserveID n)).
Proof.
  intros [x e] H. unfold still, on_engine in *. simpl in *. pose proof (reserve_quiet n _ _ H) as H'.
  by destruct (ReserveID n e).
Qed.

#[local] Hint Resolve keeps_bind keeps_glift keeps_gret keeps_gget still_on_txn still_reserve : keeps.

Lemma still_writes e0 : writes_keep (still e0).
Proof.
  split; intros; simpl; unfold Tx.Put, Tx.PutAuto, Tx.Update, Tx.Delete, Tx.prepare, Tx.insertRow;
    repeat first [apply keeps_bind; [|intros ?] | progress case_bool_decide | solve [auto with keeps]].
Qed.

(** ** One message *)
Section dispatch.
  Context {Q : Quoter} (parse : string → res Statement) (now : Value).

(** What [fail] leaves: no transaction, an untouched engine, two messages. *)
Lemma fail_spec code text (st : Srv) :
  (fail code text st).1 = st.1 ∧ c_txn (fail code text st).2 = None ∧
  c_out (fail code text st).2 = c_out st.2 ++ [msg_error code text; msg_ready "idle"].
Proof.
  destruct st as [e [[x|] out]]; unfold fail, drop_txn, rollback, ready, send, set_txn; simpl.
  - unfold Tx.Rollback, gbind, gget, on_txn, gret. simpl.
    destruct (x_done x); simpl; by rewrite <-(assoc_L app).
  - by rewrite <-(assoc_L app).
Qed.

Lemma ready_spec m (st : Srv) :
  (ready (send m st)).1 = st.1 ∧ c_txn (ready (send m st)).2 = c_txn st.2 ∧
  c_out (ready (send m st)).2 =
    c_out st.2 ++ [m; msg_ready (match c_txn st.2 with Some _ => "in-txn" | None => "idle" end)].
Proof. unfold ready, send. simpl. by rewrite <-(assoc_L app). Qed.

Lemma rollback_engine (st : Srv) : (rollback st).1 = st.1.
Proof.
  destruct st as [e [[x|] out]]; [|done]. unfold rollback, Tx.Rollback, gbind, gget, on_txn, gret. simpl.
  by destruct (x_done x).
Qed.

Lemma is_panic_spec err : is_panic err = true ↔ err = panicRow.
Proof.
  split; [|by intros ->]. destruct err as [| | | | | |fmt [|]|]; try done. simpl. case_bool_decide; [by subst|done].
Qed.

Lemma drop_txn_spec (st : Srv) :
  (drop_txn st).1 = st.1 ∧ c_txn (drop_txn st).2 = None ∧ c_out (drop_txn st).2 = c_out st.2.
Proof.
  destruct st as [e [[x|] out]]; [|done]. unfold drop_txn, set_txn, rollback, Tx.Rollback, gbind, gget, on_txn, gret.
  simpl. by destruct (x_done x).
Qed.

(** An error ends the transaction and leaves the engine as it was, with a reply or
    without. *)
Lemma failWith_spec err code text (st : Srv) :
  (failWith err code text st).1 = st.1 ∧ c_txn (failWith err code text st).2 = None ∧
  c_out (failWith err code text st).2 =
    c_out st.2 ++ if is_panic err then [] else [msg_error code text; msg_ready "idle"].
Proof.
  unfold failWith. destruct (is_panic err); [|apply fail_spec].
  destruct (drop_txn_spec st) as (H1 & H2 & H3). by rewrite app_nil_r.
Qed.

(** A statement in a transaction leaves the engine quiet. *)
Lemma execute_quiet stmt (st : Srv) x :
  c_txn st.2 = Some x → is_ddl stmt = false → quiet st.1 (execute now stmt st).1.1.
Proof.
  intros Hx Hd. unfold execute. rewrite Hx.
  assert (still st.1 (ExecStmt on_engine now stmt (x, st.1)).1) as H.
  { apply (keeps_ExecStmt (still st.1) (still_writes st.1)); [congruence|apply quiet_refl]. }
  by destruct (ExecStmt on_engine now stmt (x, st.1)) as [[x' e'] q].
Qed.
Lemma execute_out stmt (st : Srv) : c_out (execute now stmt st).1.2 = c_out st.2.
Proof.
  unfold execute. destruct (c_txn st.2) as [x|]; [destruct (ExecStmt _ _ _ _) as [[] ?]|destruct (ExecStmt _ _ _ _)]; done.
Qed.

(** [st'] has answered one message after [out]: one reply and one [ready] frame
    that tells the transaction state; an error reply to a query leaves no
    transaction.  After a panic there is neither, and no transaction. *)
Definition answered (panic query : bool) (out : list Message) (st' : Srv) : Prop :=
  if panic then c_out st'.2 = out ∧ c_txn st'.2 = None else
  ∃ r, c_out st'.2 = out ++
         [r; msg_ready (match c_txn st'.2 with Some _ => "in-txn" | None => "idle" end)] ∧
    m_Type r ∈ ["ok"; "error"; "result"; "tables"; "databases"; "describe"] ∧
    (query = true → m_Type r = "error" → c_txn st'.2 = None).

Lemma answered_failWith query err code text (st : Srv) out :
  c_out st.2 = out → answered (is_panic err) query out (failWith err code text st).
Proof.
  intros <-. destruct (failWith_spec err code text st) as (_ & Ht & Hout). unfold answered.
  destruct (is_panic err); [by rewrite app_nil_r in Hout|]. exists (msg_error code text).
  rewrite Ht, Hout. simpl. split; [done|]. split; [set_solver|done].
Qed.

Lemma answered_fail query code text (st : Srv) out :
  c_out st.2 = out → answered false query out (fail code text st).
Proof.
  intros <-. destruct (fail_spec code text st) as (_ & Ht & Hout). exists (msg_error code text).
  rewrite Ht, Hout. simpl. split; [done|]. split; [set_solver|done].
Qed.

Lemma answered_ready query m (st : Srv) out :
  c_out st.2 = out → m_Type m ∈ ["ok"; "error"; "result"; "tables"; "databases"; "describe"] →
  (query = true → m_Type m ≠ "error") → answered false query out (ready (send m st)).
Proof.
  intros <- Hm Hq. destruct (ready_spec m st) as (_ & Ht & Hout). exists m.
  rewrite Ht, Hout. split; [done|]. split; [done|]. intros ? ?. by destruct Hq.
Qed.

Lemma reply_type rs : m_Type (reply rs) ∈ ["ok"; "result"].
Proof. unfold reply. destruct (res_Columns rs); simpl; set_solver. Qed.

Lemma runQuery_answered msg (st : Srv) :
  m_Type msg = "query" →
  answered (panics parse now msg st) true (c_out st.2) (runQuery parse now (m_SQL msg) st).
Proof.
  intros Hq. unfold runQuery, panics. rewrite bool_decide_eq_true_2 by done. cbn [andb].
  destruct (parse (m_SQL msg)) as [stmt|err]; [|by apply answered_fail].
  assert (answered (negb (bool_decide (is_Some (c_txn st.2)) && is_ddl stmt) &&
      match (execute now stmt st).2 with Err err => is_panic err | Ok _ => false end) true (c_out st.2)
    (if bool_decide (is_Some (c_txn st.2)) && is_ddl stmt then
       fail "25000" (AStr "DDL is not supported inside an explicit transaction in v1") st
     else match execute now stmt st with
          | (st', Err err) => failWith err (sqlstate err) (AErr err) st'
          | (st', Ok rs) => ready (send (reply rs) st')
          end)) as Hstmt.
  { destruct (bool_decide (is_Some (c_txn st.2)) && is_ddl stmt); [by apply answered_fail|]. pose proof (execute_out stmt st) as Ho.
    destruct (execute now stmt st) as [st' [rs|err]]; [|by apply answered_failWith].
    pose proof (reply_type rs) as Hr. apply answered_ready; [done|set_solver|].
    intros _ He. rewrite He in Hr. set_solver. }
  destruct stmt; try exact Hstmt; clear Hstmt.
  - destruct (c_txn st.2) as [x|]; [by apply answered_ready; [|set_solver|]|].
    destruct (Begin st.1) as [e' [x|err]]; [by apply answered_ready; [|set_solver|]|by apply answered_fail].
  - destruct (c_txn st.2) as [x|]; [|by apply answered_fail].
    destruct (Tx.Commit (x, st.1)) as [[x' e'] [[]|err]]; [by apply answered_ready; [|set_solver|]|].
    destruct err; first [by apply answered_fail|by apply answered_failWith].
  - destruct (c_txn st.2) as [x|] eqn:Ex; [|by apply answered_fail].
    apply answered_ready; [|set_solver|done]. unfold rollback. rewrite Ex. by destruct (Tx.Rollback _) as [[] ?].
Qed.

Lemma dispatch_answered (msg : Message) (st : Srv) :
  answered (panics parse now msg st) (bool_decide (m_Type msg = "query")) (c_out st.2) (dispatch parse now msg st).
Proof.
  unfold dispatch. case_bool_decide as Hq; [by apply runQuery_answered|].
  assert (panics parse now msg st = false) as -> by (unfold panics; by rewrite bool_decide_eq_false_2).
  repeat case_bool_decide; try (by apply answered_ready; [|set_solver|]).
  unfold runDescribe. destruct (findDef _ _); by apply answered_ready; [|set_solver|].
Qed.

(** What the client can read of the frames written for one reply. *)
Definition wire_reads {J : Json} (out : list Message) (ms : list Message) : Prop :=
  readAll (length (written out)) (written out) = (ms, []).

(** C12: Every message that does not panic is answered by exactly two calls of
    [WriteFrame]: a reply, and then a [ready] message that tells the transaction
    state the connection is left in; an error reply to a query leaves no
    transaction open.  The errors of these calls are ignored: if [WriteFrame]
    accepts both, what can be read from the wire is the reply and then [ready];
    if it refuses the reply (a NaN or an infinity, more than [MaxFrame] bytes),
    it is [ready] alone.  A message that panics ends the process: nothing is
    written for it, and its transaction is gone. *)
Theorem dispatch_replies {J : Json} (msg : Message) (st : Srv) :
  let st' := dispatch parse now msg st in
  if panics parse now msg st then c_out st'.2 = c_out st.2 ∧ c_txn st'.2 = None
  else ∃ r, let rd := msg_ready (match c_txn st'.2 with Some _ => "in-txn" | None => "idle" end) in
    c_out st'.2 = c_out st.2 ++ [r; rd] ∧
    m_Type r ∈ ["ok"; "error"; "result"; "tables"; "databases"; "describe"] ∧
    (m_Type msg = "query" → m_Type r = "error" → c_txn st'.2 = None) ∧
    (is_Ok (WriteFrame r) → is_Ok (WriteFrame rd) → wire_reads [r; rd] [through r; through rd]) ∧
    (¬ is_Ok (WriteFrame r) → is_Ok (WriteFrame rd) → wire_reads [r; rd] [through rd]).
Proof.
  cbv zeta. pose proof (dispatch_answered msg st) as H. unfold answered in H.
  destruct (panics parse now msg st); [done|]. destruct H as (r & Hout & Hty & Herr). exists r.
  set (rd := msg_ready _) in *. split; [done|]. split; [done|].
  split; [intros Hq; apply Herr; by apply bool_decide_eq_true|].
  unfold wire_reads. split; intros Hr Hrd; rewrite written_read; cbn [mbind list_bind];
    unfold deliver; destruct Hrd as [frd ->]; [by destruct Hr as [fr ->]|].
  destruct (WriteFrame r); [|done]. destruct Hr. by eexists.
Qed.

(** The message asks for a COMMIT. *)
Definition is_commit (msg : Message) : Prop := m_Type msg = "query" ∧ parse (m_SQL msg) = Ok CommitS.

Lemma runQuery_quiet sql (st : Srv) x :
  c_txn st.2 = Some x → parse sql ≠ Ok CommitS → quiet st.1 (runQuery parse now sql st).1.
Proof.
  intros Hx Hc. unfold runQuery. rewrite Hx.
  assert (∀ code text (st0 : Srv), quiet st.1 st0.1 → quiet st.1 (fail code text st0).1) as Hf.
  { intros code text st0 H. by rewrite (proj1 (fail_spec code text st0)). }
  assert (∀ err code text (st0 : Srv), quiet st.1 st0.1 → quiet st.1 (failWith err code text st0).1) as Hfw.
  { intros err code text st0 H. by rewrite (proj1 (failWith_spec err code text st0)). }
  assert (∀ m (st0 : Srv), quiet st.1 st0.1 → quiet st.1 (ready (send m st0)).1) as Hr.
  { intros m st0 H. by rewrite (proj1 (ready_spec m st0)). }
  destruct (parse sql) as [stmt|err]; [|by apply Hf].
  assert (is_ddl stmt = false → quiet st.1 (match execute now stmt st with
          | (st', Err err) => failWith err (sqlstate err) (AErr err) st'
          | (st', Ok rs) => ready (send (reply rs) st')
          end).1) as Hstmt.
  { intros Hd. pose proof (execute_quiet stmt st x Hx Hd) as He.
    destruct (execute now stmt st) as [st' [rs|err]]; [by apply Hr|by apply Hfw]. }
  rewrite bool_decide_eq_true_2 by eauto. cbn [andb].
  destruct stmt; try (by apply Hstmt); try (by apply Hf); try (by apply Hr); try done.
  apply Hr. unfold set_txn. cbn [fst]. by rewrite rollback_engine.
Qed.

Lemma dispatch_quiet msg (st : Srv) x :
  c_txn st.2 = Some x → ¬ is_commit msg → quiet st.1 (dispatch parse now msg st).1.
Proof.
  intros Hx Hc. unfold dispatch. case_bool_decide as Hq.
  { apply (runQuery_quiet _ _ x); [done|]. intros Hp. by apply Hc. }
  repeat case_bool_decide; try (by rewrite (proj1 (ready_spec _ _))).
  unfold runDescribe. destruct (findDef _ _); by rewrite (proj1 (ready_spec _ _)).
Qed.

(** C10: Isolation of open transactions: while a connection is in a transaction,
    no message of it but COMMIT changes the database the other connections see,
    the log or the files on disk; in particular a failing statement or ROLLBACK
    leaves nothing behind. *)
Theorem txn_message_isolated (msg : Message) (st : Srv) (x : Txn) :
  c_txn st.2 = Some x → ¬ is_commit msg →
  quiet st.1 (dispatch parse now msg st).1.
Proof. apply dispatch_quiet. Qed.
Lemma commit_ends msg (st : Srv) : is_commit msg → c_txn (dispatch parse now msg st).2 = None.
Proof.
  intros [Hq Hp]. unfold dispatch. rewrite bool_decide_eq_true_2 by done. unfold runQuery. rewrite Hp.
  assert (∀ code text st0, c_txn (fail code text st0).2 = None) as Hf by (intros; apply fail_spec).
  destruct (c_txn st.2) as [x|]; [|by apply Hf].
  destruct (Tx.Commit (x, st.1)) as [[x' e'] [[]|err]]; [done|].
  destruct err; first [apply Hf|apply failWith_spec].
Qed.

(** The connection is in a transaction after each of the messages. *)
Fixpoint stays_in_txn (msgs : list Message) (st : Srv) : Prop :=
  match msgs with
  | [] => True
  | m :: msgs => is_Some (c_txn (dispatch parse now m st).2) ∧ stays_in_txn msgs (dispatch parse now m st)
  end.

Lemma serve_quiet msgs (st : Srv) :
  is_Some (c_txn st.2) → stays_in_txn msgs st → quiet st.1 (serve parse now msgs st).1.
Proof.
  revert st. induction msgs as [|m msgs IH]; intros st [x Hx] Hs; [apply quiet_refl|].
  destruct Hs as [Hin Hs]. eapply quiet_trans; [|by apply IH].
  apply (dispatch_quiet m st x Hx). intros Hc. rewrite (commit_ends _ _ Hc) in Hin. by destruct Hin.
Qed.

(** C11: A connection that dies in the middle of a transaction leaves nothing
    behind: after BEGIN and any messages during which the transaction stays open,
    the rollback at the end of [handle] leaves the database, the log and the disk
    as they were. *)
Theorem disconnect_aborts (b : Message) (msgs : list Message) (e : Engine) :
  m_Type b = "query" → parse (m_SQL b) = Ok BeginS →
  stays_in_txn msgs (dispatch parse now b (e, MkConn None [])) →
  quiet e (handle parse now (b :: msgs) e).1.
Proof.
  intros Hq Hp Hs. unfold handle. rewrite rollback_engine. unfold serve. cbn [foldl].
  set (st1 := dispatch parse now b (e, MkConn None [])) in *.
  assert (quiet e st1.1 ∧ is_Some (c_txn st1.2)) as [H1 H2].
  { unfold st1, dispatch. rewrite bool_decide_eq_true_2 by done. unfold runQuery. rewrite Hp. cbn [c_txn snd fst].
    by split; [|eexists]. }
  eapply quiet_trans; [exact H1|]. by apply serve_quiet.
Qed.
End dispatch.
