(* ===== verification/ServerDemo.v ===== *)
(** * Instances of the theorems of [Server] and runs of connections

    The server with the SQL parser of the file Parser, on the database of
    [ExecDemo]: whole conversations, from SQL text to replies. *)
From S2P Require Import Prelude Bytes GoStd Types Schema Wal Table Engine Txn Accessor Ast Eval Exec ExecDemo.
From S2P Require Import Select SelectDemo Lexer Parser Protocol Server.

Open Scope go_scope.

Definition query (sql : string) : Message := MkMessage "query" sql "" [] [] 0 "" (AStr "") "" [].

(** A new user, and a user whose id is taken. *)
Definition ADD : string := "INSERT INTO users VALUES (3, 'c')".
Definition DUP : string := "insert into users values (1, 'd');".

Definition session (sqls : list string) : Srv :=
  handle Parse VNull (query <$> sqls) blog.

Lemma txn_message_isolated_witness :
  let st := serve Parse VNull [query "BEGIN"] (blog, MkConn None []) in
  is_Some (c_txn st.2) ∧ quiet st.1 (dispatch Parse VNull (query ADD) st).1.
Proof.
  set (st := serve Parse VNull [query "BEGIN"] (blog, MkConn None [])). cbv zeta.
  destruct (c_txn st.2) as [x|] eqn:Ex; [|by vm_compute in Ex]. split; [by eexists|].
  apply (txn_message_isolated Parse VNull (query ADD) st x Ex).
  intros [_ H]. vm_compute in H. discriminate H.
Defined.

Lemma disconnect_aborts_witness :
  quiet blog (session ["BEGIN"; ADD]).1 ∧ Engine.Get "users" 3 (session ["BEGIN"; ADD]).1 = None.
Proof.
  split; [|vm_compute; reflexivity].
  apply (disconnect_aborts Parse VNull (query "BEGIN") [query ADD] blog); [reflexivity|reflexivity|].
  split; [|exact I].
  destruct (c_txn (dispatch Parse VNull (query ADD)
    (dispatch Parse VNull (query "BEGIN") (blog, MkConn None []))).2) as [x|] eqn:E; [by eexists|].
  vm_compute in E. discriminate E.
Defined.

(** A transaction committed. *)
Example commit_run : Engine.Get "users" 3 (session ["BEGIN"; ADD; "COMMIT"]).1 = Some [VInt 3; VText "c"].
Proof. vm_compute. reflexivity. Qed.

(** After an error the transaction is gone and the connection is back in
    autocommit: a statement that the client sends as part of the failed
    transaction takes effect at once, and its COMMIT or ROLLBACK is refused. *)
Example error_leaves_autocommit :
  let st := session ["BEGIN"; DUP; ADD; "ROLLBACK"] in
  Engine.Get "users" 3 st.1 = Some [VInt 3; VText "c"] ∧
  (m_Type <$> c_out st.2) = ["ok"; "ready"; "error"; "ready"; "ok"; "ready"; "error"; "ready"].
Proof. vm_compute. split; reflexivity. Qed.
