(* ===== verification/NoPanic.v ===== *)
(** * No statement makes the server panic

    [Safety] for SELECT, extended to all statements: INSERT, UPDATE and DELETE
    index rows by column positions, and the storage operations behind them index
    rows and stamp keys.  What the executor needs from the storage is the class
    [QuietWrites], which the engine and the transactions implement. *)
From S2P Require Import Prelude GoStd Types Schema Wal Table Engine Txn Accessor Ast Lexer Parser Grammar.
From S2P Require Import Eval Exec Select Safety Protocol Server.

Open Scope go_scope.

(** ** Computations with state that do not panic *)
Definition gsafe {S A} (m : GoM S A) : Prop := ∀ s, safe (m s).2.

Lemma gsafe_bind {S A B} (m : GoM S A) (k : A → GoM S B) :
  gsafe m → (∀ a, gsafe (k a)) → gsafe (gbind m k).
Proof.
  intros Hm Hk s. specialize (Hm s). unfold gbind. destruct (m s) as [s' [a|e]]; [apply Hk|].
  intros [= ->]. by apply Hm.
Qed.
Lemma gsafe_lift {S A} (m : res A) : safe m → gsafe (S := S) (glift m).
Proof. by intros Hm s. Qed.
(** What a check has established holds for the rest. *)
Lemma gsafe_lift_bind {S A B} (m : res A) (k : A → GoM S B) :
  safe m → (∀ a, m = Ok a → gsafe (k a)) → gsafe (gbind (glift m) k).
Proof.
  intros Hm Hk s. unfold gbind, glift. destruct m as [a|e]; [by apply Hk|]. intros [= ->]. by apply Hm.
Qed.
Lemma gsafe_ret {S A} (a : A) : gsafe (S := S) (gret a).
Proof. done. Qed.
Lemma gsafe_get {S} : gsafe (S := S) gget.
Proof. done. Qed.
Lemma gsafe_modify {S} (f : S → S) : gsafe (gmodify f).
Proof. done. Qed.
Lemma gsafe_foreach {S A} (f : A → GoM S unit) l : (∀ x, x ∈ l → gsafe (f x)) → gsafe (gforeach f l).
Proof.
  induction l as [|x l IH]; intros Hf; simpl; [done|].
  apply gsafe_bind; [apply Hf; by left|intros _; apply IH; intros y Hy; apply Hf; by right].
Qed.
Lemma gsafe_map_err {S A} f (m : GoM S A) : (∀ e, e ≠ panicRow → f e ≠ panicRow) → gsafe m → gsafe (map_err f m).
Proof.
  intros Hf Hm s. specialize (Hm s). unfold map_err. destruct (m s) as [s' [a|e]]; [done|].
  intros [= Hp]. apply (Hf e); [|done]. intros ->. by apply Hm.
Qed.
Lemma safe_guard b e : (b = true → e ≠ panicRow) → safe (guard_err b e).
Proof. unfold guard_err. destruct b; [|done]. intros He [= Hp]. by apply He. Qed.

Create HintDb gsafe.
#[export] Hint Resolve gsafe_bind gsafe_lift gsafe_ret gsafe_get gsafe_modify : gsafe.

(** ** The storage *)
Class QuietWrites (S : Type) `{!Accessor S} := {
  Put_quiet n id r : gsafe (acc_Put n id r);
  PutAuto_quiet n pk r : (0 ≤ pk < Z.of_nat (length r))%Z → gsafe (acc_PutAuto n pk r);
  Update_quiet n id r : gsafe (acc_Update n id r);
  Delete_quiet n id : gsafe (acc_Delete n id) }.
#[export] Hint Resolve Put_quiet PutAuto_quiet Update_quiet Delete_quiet : gsafe.

(** The engine: what fails in the log is an I/O error. *)
Lemma txn_safe (f : Z → WalRecord) {A} (k : GoM Engine A) :
  (∀ tx, encode_error (f tx) = None) → gsafe k → gsafe (gbind (txn (λ tx, walAppend (f tx) false)) (λ _, k)).
Proof.
  intros He Hk e. destruct (gbind _ _ e) as [e' q] eqn:Eq.
  apply txn_then in Eq as [(e1 & _ & _ & Hk1)|(-> & _)]; [|done..]. specialize (Hk e1). by rewrite Hk1 in Hk.
Qed.

Lemma noteWrite_safe : gsafe noteWrite.
Proof. done. Qed.
#[export] Hint Resolve noteWrite_safe : gsafe.

Lemma engine_put_safe n pk id r must : gsafe (put n pk id r must).
Proof.
  intros e. unfold put. destruct (bool_decide (id < 0)%Z); [done|]. destruct (must && _); [done|].
  destruct (e_tables e !! n) as [t|]; [|done]. destruct (bool_decide (length r ≠ _)); [done|].
  destruct (reserveID id must t) as [[id' t1]|err] eqn:Er.
  - cbv zeta. destruct (existsb _ _); [done|]. apply txn_safe; [done|]. auto 10 with gsafe.
  - unfold reserveID in Er. destruct (bool_decide (id = 0)%Z); [done|]. repeat case_match; by simplify_eq.
Qed.

#[export] Instance engine_quiet : QuietWrites Engine.
Proof.
  split; intros.
  - apply engine_put_safe.
  - apply engine_put_safe.
  - apply gsafe_bind; [apply engine_put_safe|done].
  - intros e. cbn [acc_Delete engine_accessor]. unfold Delete. destruct (e_tables e !! n) as [t|]; [|done].
    destruct (t_rows t !! id); [|done]. apply txn_safe; [done|]. auto with gsafe.
Qed.

(** A transaction. *)
Lemma tx_checkUnique_safe def id r eff : length r = length (td_Cols def) → safe (Tx.checkUnique def id r eff).
Proof. intros Hl. by destruct (checkUnique_spec def id r eff Hl) as [[-> _]|[-> _]]. Qed.

Lemma tx_tableDef_safe n e : safe (Tx.tableDef n e).
Proof. unfold Tx.tableDef, res_of_option. by destruct (find _ _). Qed.
Lemma tx_effMap_safe n x e : safe (Tx.effMapLocked n x e).
Proof. rewrite effMap_spec. by destruct (e_tables e !! n). Qed.
Lemma on_txn_safe f : gsafe (on_txn f).
Proof. done. Qed.
Lemma on_engine_safe {A} (m : GoM Engine A) : gsafe m → gsafe (on_engine m).
Proof. intros Hm [x e]. specialize (Hm e). unfold on_engine. simpl. by destruct (m e). Qed.
Lemma ReserveID_safe n : gsafe (ReserveID n).
Proof. intros e. unfold ReserveID. by destruct (e_tables e !! n). Qed.
#[export] Hint Resolve tx_tableDef_safe tx_effMap_safe on_txn_safe on_engine_safe ReserveID_safe : gsafe.

(** [prepare] hands on a definition as wide as the row. *)
Lemma prepare_safe {A} n r (k : TableDef * gmap Z row → GoM Sess A) :
  (∀ de, length r = length (td_Cols de.1) → gsafe (k de)) → gsafe (gbind (Tx.prepare n r) k).
Proof.
  intros Hk s. unfold Tx.prepare. unfold gbind at 1 2, gget. cbn [fst snd].
  destruct (x_done s.1); [done|]. unfold gbind at 1 2, glift. simpl.
  pose proof (tx_tableDef_safe n s.2) as Hd. destruct (Tx.tableDef n s.2) as [def|e]; cycle 1.
  { intros [= ->]. by apply Hd. }
  unfold gbind. case_bool_decide as Hl; [done|]. simpl.
  pose proof (tx_effMap_safe n s.1 s.2) as He. destruct (Tx.effMapLocked n s.1 s.2) as [eff|e]; cycle 1.
  { intros [= ->]. by apply He. }
  simpl. apply (Hk (def, eff)). simpl. lia.
Qed.

#[export] Instance txn_quiet : QuietWrites Sess.
Proof.
  assert (∀ n de id r, length r = length (td_Cols de.1) → gsafe (Tx.insertRow n de.1 de.2 id r)) as Hins.
  { intros n de id r Hl. unfold Tx.insertRow. eauto 10 using tx_checkUnique_safe with gsafe. }
  split; intros; cbn.
  - apply prepare_safe. intros de Hl. apply gsafe_bind; [case_bool_decide; auto with gsafe|]. intros id'.
    apply gsafe_bind; [apply gsafe_lift; by apply safe_guard|]. intros _. by apply Hins.
  - apply prepare_safe. intros de Hl. apply gsafe_bind; [auto with gsafe|]. intros id'.
    apply gsafe_bind; [apply gsafe_lift; by apply safe_guard|]. intros _.
    apply gsafe_bind; [apply gsafe_lift, safe_guard; by rewrite bool_decide_eq_true_2|]. intros _.
    apply Hins. unfold stamp. case_bool_decide; [by rewrite length_insert|done].
  - apply prepare_safe. intros de Hl. apply gsafe_bind; [apply gsafe_lift; by apply safe_guard|].
    eauto using tx_checkUnique_safe with gsafe.
  - unfold Tx.Delete. apply gsafe_bind; [auto with gsafe|]. intros s.
    apply gsafe_bind; [apply gsafe_lift; by apply safe_guard|]. intros _.
    apply gsafe_bind; [auto with gsafe|]. intros def. apply gsafe_bind; [auto with gsafe|]. intros eff.
    apply gsafe_bind; [apply gsafe_lift; by apply safe_guard|]. auto with gsafe.
Qed.

(** ** INSERT *)
Lemma evalInsertValue_safe now e : safe (evalInsertValue now e).
Proof. destruct e; simpl; auto with safe. Qed.

Lemma findIndex_bound {A} (p : A → bool) l i : findIndex p l = Some i → i < length l.
Proof. intros (x & Hx & _)%findIndex_Some. by eapply lookup_lt_Some. Qed.

Lemma insertColumns_ok def seen names :
  safe (insertColumns def seen names) ∧
  ∀ idx, insertColumns def seen names = Ok idx → Forall (λ i, i < length (td_Cols def)) idx.
Proof.
  revert seen. induction names as [|n names IH]; intros seen; simpl; [split; [done|by intros ? [= <-]]|].
  destruct (findIndex _ _) as [i|] eqn:Ei; [|split; [apply safe_sql|done]].
  case_bool_decide; [split; [apply safe_sql|done]|]. destruct (IH (i :: seen)) as [H1 H2]. split.
  - by apply safe_bind; [|done].
  - intros idx (l & Hl & [= <-])%res_bind_Ok. constructor; [by eapply findIndex_bound|by apply H2].
Qed.

Lemma insertIndex_ok def names :
  safe (insertIndex def names) ∧
  ∀ idx, insertIndex def names = Ok idx → Forall (λ i, i < length (td_Cols def)) idx.
Proof.
  unfold insertIndex. case_bool_decide; [|apply insertColumns_ok]. split; [done|].
  intros idx [= <-]. apply Forall_forall. intros i Hi%elem_of_seq. lia.
Qed.

Lemma fillRow_safe now def idx es r :
  Forall (λ i, i < length (td_Cols def)) idx → safe (fillRow now def idx es r).
Proof.
  intros Hi. revert es r. induction Hi as [|i idx Hi _ IH]; intros [|e es] r; simpl; try done.
  apply safe_bind; [apply evalInsertValue_safe|]. intros v _.
  destruct (lookup_lt_is_Some_2 _ _ Hi) as [c ->]. destruct (coerce c v); [apply IH|apply safe_sql].
Qed.

Lemma insertID_safe def tbl r : length r = length (td_Cols def) → safe (insertID def tbl r).
Proof.
  intros Hr. unfold insertID. destruct (pkIndex def) as [pk|] eqn:Ep; [|done]. apply findIndex_bound in Ep.
  destruct (row_at_lt r pk) as [v ->]; [lia|]. destruct (lookup_lt_is_Some_2 _ _ Ep) as [c ->]. simpl.
  destruct v; auto with safe. by destruct (AutoInc c).
Qed.

Lemma checkNotNull_safe i cols tbl r : i + length cols ≤ length r → safe (checkNotNull i cols tbl r).
Proof.
  revert i. induction cols as [|c cols IH]; intros i Hl; simpl in *; [done|].
  destruct (Primary c); [apply IH; lia|]. destruct (row_at_lt r i) as [v ->]; [lia|]. simpl.
  destruct (_ && _); [apply safe_sql|apply IH; lia].
Qed.

Section dml.
  Context {S : Type} `{!Accessor S, !ReadSpec S, !QuietWrites S} {Q : Quoter}.
  Implicit Types s : S.

Lemma checkFK_safe def r s : length r = length (td_Cols def) → safe (checkFK def r s).
Proof.
  unfold checkFK. intros Hl. assert (0 + length (td_Cols def) ≤ length r) as Hle by lia. clear Hl.
  revert Hle. generalize 0. induction (td_Cols def) as [|c cols IH]; intros i Hl; simpl in *; [done|].
  case_bool_decide; [apply IH; lia|]. destruct (row_at_lt r i) as [v ->]; [lia|]. simpl.
  destruct v; try apply safe_sql; [apply IH; lia|]. destruct (acc_Get _ _ _); [apply IH; lia|apply safe_sql].
Qed.

Lemma insertError_safe tbl id e : e ≠ panicRow → insertError tbl id e ≠ panicRow.
Proof. by destruct e. Qed.

Lemma insertOne_safe now def tbl idx ri es :
  Forall (λ i, i < length (td_Cols def)) idx → gsafe (S := S) (insertOne now def tbl idx ri es).
Proof.
  intros Hi. unfold insertOne. apply gsafe_bind; [done|]. intros s.
  apply gsafe_lift_bind; [by apply safe_guard|]. intros _ _.
  apply gsafe_lift_bind; [by apply fillRow_safe|]. intros r Hr%fillRow_length. rewrite length_replicate in Hr.
  apply gsafe_lift_bind; [by apply insertID_safe|]. intros id Hid.
  apply gsafe_lift_bind; [apply checkNotNull_safe; simpl; lia|]. intros _ _.
  apply gsafe_lift_bind; [by apply checkFK_safe|]. intros _ _.
  apply gsafe_map_err; [intros e; by apply insertError_safe|].
  destruct id as [id|]; (apply gsafe_bind; [|done]); [apply Put_quiet|apply PutAuto_quiet].
  unfold insertID in Hid. destruct (pkIndex def) as [pk|] eqn:Ep; [|done]. apply findIndex_bound in Ep. simpl. lia.
Qed.

Lemma execInsert_safe now st : gsafe (S := S) (execInsert now st).
Proof.
  unfold execInsert. apply gsafe_bind; [done|]. intros s.
  apply gsafe_lift_bind; [unfold tableDef, res_of_option; destruct (findDef _ _); done|]. intros def _.
  destruct (insertIndex_ok def (in_Cols st)) as [H1 H2]. apply gsafe_lift_bind; [done|]. intros idx Hidx%H2.
  apply gsafe_bind; [|done]. generalize 0. induction (in_Rows st) as [|es rows IH]; intros i; simpl; [done|].
  apply gsafe_bind; [by apply insertOne_safe|auto].
Qed.

(** ** UPDATE and DELETE *)
Lemma res_foreach_safe {A} (f : A → res unit) l : (∀ x, x ∈ l → safe (f x)) → safe (res_foreach f l).
Proof.
  induction l as [|x l IH]; intros Hf; simpl; [done|]. assert (safe (f x)) as Hx by (apply Hf; by left).
  destruct (f x); [apply IH; intros y Hy; apply Hf; by right|]. intros [= ->]. by apply Hx.
Qed.

Lemma fkReferenced_safe parent pk skipT skipR s : safe (fkReferenced parent pk skipT skipR s).
Proof.
  apply res_foreach_safe. intros d _. generalize 0. induction (td_Cols d) as [|c cols IH]; intros i; simpl; [done|].
  case_bool_decide; [|apply IH]. destruct (acc_AllRows _ _) as [[ids rows]|]; [|apply IH].
  destruct (references _ _ _ _ _ _ _); [apply safe_sql|apply IH].
Qed.

Lemma setColumns_ok def sets :
  safe (setColumns def sets) ∧
  ∀ l, setColumns def sets = Ok l →
    Forall (λ ie : nat * Expr, ie.1 < length (td_Cols def) ∧ ie.2 ∈ as_Expr <$> sets) l.
Proof.
  induction sets as [|a sets [IH1 IH2]]; simpl; [split; [done|by intros ? [= <-]]|].
  destruct (findIndex _ _) as [i|] eqn:Ei; [|split; [apply safe_sql|done]]. split.
  - by apply safe_bind; [|done].
  - intros l (l' & Hl & [= <-])%res_bind_Ok. constructor.
    + split; [by eapply findIndex_bound|by left].
    + eapply Forall_impl; [by apply IH2|]. intros ie [? ?]. split; [done|by right].
Qed.

Lemma applySets_safe now sc def old sets r :
  scope_fits sc (length old) →
  Forall (λ ie : nat * Expr, ie.1 < length (td_Cols def) ∧ validateExpr sc ie.2 = Ok tt) sets →
  safe (applySets now sc def old sets r).
Proof.
  intros Hw Hs. revert r. induction Hs as [|[i e] sets [Hi He] _ IH]; intros r; simpl in *; [done|].
  apply safe_bind; [by apply evalValue_safe|]. intros v _. destruct (lookup_lt_is_Some_2 _ _ Hi) as [c ->].
  destruct (coerce c v); [apply IH|apply safe_sql].
Qed.

Lemma applySets_length now sc def old sets r r' : applySets now sc def old sets r = Ok r' → length r' = length r.
Proof.
  revert r. induction sets as [|[i e] sets IH]; intros r; simpl; [by intros [= ->]|].
  intros (v & _ & H)%res_bind_Ok. destruct (td_Cols def !! i); [|done]. destruct (coerce _ _); [|done].
  apply IH in H. by rewrite length_insert in H.
Qed.

Lemma single_fits def (r : row) : length r = length (td_Cols def) → scope_fits (singleTableScope def) (length r).
Proof. intros -> t ->%list_elem_of_singleton. done. Qed.

Lemma updateOne_safe now def tbl sets c :
  length (ca_row c) = length (td_Cols def) →
  Forall (λ ie : nat * Expr, ie.1 < length (td_Cols def) ∧ validateExpr (singleTableScope def) ie.2 = Ok tt) sets →
  gsafe (S := S) (updateOne now def tbl sets c).
Proof.
  intros Hc Hs. unfold updateOne. apply gsafe_bind; [done|]. intros s.
  apply gsafe_lift_bind; [apply applySets_safe; [by apply single_fits|done]|]. intros new Hn%applySets_length.
  apply gsafe_lift_bind; [apply checkFK_safe; congruence|]. intros _ _. destruct (movedTo _ _ _) as [j|].
  - apply gsafe_lift_bind; [apply fkReferenced_safe|]. intros _ _. apply gsafe_bind; [apply Delete_quiet|]. intros _.
    apply gsafe_map_err; [intros e; by apply insertError_safe|]. apply gsafe_bind; [apply Put_quiet|done].
  - apply gsafe_map_err; [by intros []|apply Update_quiet].
Qed.

Lemma deleteOne_safe tbl c : gsafe (S := S) (deleteOne tbl c).
Proof.
  unfold deleteOne. apply gsafe_bind; [done|]. intros s.
  apply gsafe_lift_bind; [apply fkReferenced_safe|]. intros _ _. apply Delete_quiet.
Qed.

(** The rows WHERE selects. *)
Lemma collectCandidates_safe now def w s :
  acc_inv s → rows_complete s → tableDef (td_Name def) s = Ok def → where_valid (singleTableScope def) w →
  safe (collectCandidates now (td_Name def) def (singleTableScope def) w s) ∧
  ∀ cs, collectCandidates now (td_Name def) def (singleTableScope def) w s = Ok cs →
    Forall (λ c, length (ca_row c) = length (td_Cols def)) cs.
Proof.
  intros Hi Hr Hd Hw. destruct (tableDef_view _ _ _ Hi Hd) as (_ & rows & Hv). split.
  - assert (∀ r, length r = length (td_Cols def) → safe (whereHolds now (singleTableScope def) w r)) as Hwh.
    { intros r Hl. apply whereHolds_safe; [by apply single_fits|done]. }
    unfold collectCandidates. destruct (w ≫= _) as [[ci lit]|].
    + destruct (acc_UniqueGet _ _ _ _) as [id|]; [|done]. rewrite (acc_Get_spec _ _ _ _ _ Hi Hv).
      destruct (rows !! id) as [r|] eqn:Er; [|done]. apply safe_bind; [|done]. apply Hwh. by eapply Hr.
    + unfold collectScan. rewrite acc_AllRows_spec, Hv by done. pose proof (stored_wide s Hr _ _ _ Hv) as Hst.
      destruct (sorted_rows rows) as [ids rs]. simpl in Hst. revert ids.
      induction Hst as [|r rs Hl _ IH]; intros [|id ids]; simpl; try done.
      apply safe_bind; [by apply Hwh|]. intros b _. by apply safe_bind; [|done].
  - intros cs Hcs. apply (collectCandidates_stored _ _ _ _ _ _ _ _ _ Hi Hv) in Hcs as [_ Hcs].
    apply Forall_forall. intros c Hc%Hcs. by eapply Hr.
Qed.

Lemma prepareWhere_safe now sc w s :
  (∀ q, q ∈ opt_subs w → sub_ok (execSelect now q s)) →
  safe (prepareWhere (execSelect now) sc w s) ∧
  ∀ w', prepareWhere (execSelect now) sc w s = Ok w' → where_valid sc w'.
Proof.
  intros Hq. destruct w as [e|]; simpl; [|split; [done|by intros ? [= <-]]]. split.
  - apply safe_bind; [by apply resolveInSubqueries_safe|]. intros e' _. apply safe_bind; [apply validateExpr_safe|done].
  - by intros w' (e' & _ & ([] & Hv & [= <-])%res_bind_Ok)%res_bind_Ok.
Qed.

(** From a state [s], a computation that starts with checks of [s]. *)
Lemma at_get {A} (k : S → GoM S A) s : safe (k s s).2 → safe (gbind gget k s).2.
Proof. done. Qed.
Lemma at_lift {A B} (m : res A) (k : A → GoM S B) s :
  safe m → (∀ a, m = Ok a → safe (k a s).2) → safe (gbind (glift m) k s).2.
Proof. unfold gbind, glift. intros Hm Hk. destruct m as [a|e]; [by apply Hk|]. intros [= ->]. by apply Hm. Qed.

Lemma tableDef_safe n s : safe (tableDef n s).
Proof. unfold tableDef, res_of_option. by destruct (findDef _ _). Qed.

Lemma execUpdate_safe now st s :
  acc_inv s → rows_complete s → (∀ q, q ∈ opt_subs (up_Where st) → sub_ok (execSelect now q s)) →
  safe (execUpdate (execSelect now) now st s).2.
Proof.
  intros Hi Hr Hq. unfold execUpdate. apply at_get, at_lift; [apply tableDef_safe|]. intros def Hd. cbv zeta.
  destruct (tableDef_view _ _ _ Hi Hd) as (Hn & _). rewrite <-Hn in Hd |- *.
  destruct (setColumns_ok def (up_Sets st)) as [H1 H2]. apply at_lift; [done|]. intros sets Hsets%H2.
  apply at_lift; [apply res_foreach_safe; intros; apply validateExpr_safe|]. intros [] Hval.
  destruct (prepareWhere_safe now (singleTableScope def) (up_Where st) s Hq) as [H3 H4].
  apply at_lift; [done|]. intros w Hw%H4.
  destruct (collectCandidates_safe now def w s Hi Hr Hd Hw) as [H5 H6].
  apply at_lift; [done|]. intros cands Hc%H6. revert s Hi Hr Hq Hd H3 H4 H5 H6. intros s _ _ _ _ _ _ _ _.
  eapply (gsafe_bind (gforeach _ cands)); [|done]. apply gsafe_foreach. intros c Hin.
  apply updateOne_safe; [by eapply Forall_forall in Hc|]. eapply Forall_impl; [exact Hsets|].
  intros ie [? Hie]. split; [done|]. rewrite res_foreach_Ok in Hval.
  apply list_elem_of_fmap in Hie as (a & -> & Ha). by apply Hval.
Qed.

Lemma execDelete_safe now st s :
  acc_inv s → rows_complete s → (∀ q, q ∈ opt_subs (de_Where st) → sub_ok (execSelect now q s)) →
  safe (execDelete (execSelect now) now st s).2.
Proof.
  intros Hi Hr Hq. unfold execDelete. apply at_get, at_lift; [apply tableDef_safe|]. intros def Hd. cbv zeta.
  destruct (tableDef_view _ _ _ Hi Hd) as (Hn & _). rewrite <-Hn in Hd |- *.
  destruct (prepareWhere_safe now (singleTableScope def) (de_Where st) s Hq) as [H3 H4].
  apply at_lift; [done|]. intros w Hw%H4.
  destruct (collectCandidates_safe now def w s Hi Hr Hd Hw) as [H5 H6]. apply at_lift; [done|]. intros cands _.
  eapply (gsafe_bind (gforeach _ cands)); [|done]. apply gsafe_foreach. intros c _. apply deleteOne_safe.
Qed.
End dml.

(** ** DDL *)
Lemma createColumns_safe tbl cols e : safe (createColumns tbl cols e).
Proof.
  induction cols as [|c cols IH]; simpl; [done|]. apply safe_bind.
  - case_bool_decide; [done|]. unfold validateFK. case_bool_decide; [apply safe_sql|].
    destruct (findDef _ _) as [pdef|]; [|apply safe_sql]. apply safe_bind.
    { case_bool_decide; [|done]. unfold res_of_option. by destruct (Name <$> _). }
    intros target _. destruct (find _ _) as [pt|]; [|apply safe_sql]. destruct (negb _); [apply safe_sql|].
    case_bool_decide; [apply safe_sql|done].
  - intros col _. by apply safe_bind; [|done].
Qed.

Lemma execCreate_safe name cols : gsafe (execCreate name cols).
Proof.
  unfold execCreate. apply gsafe_bind; [done|]. intros e.
  apply gsafe_lift_bind; [apply createColumns_safe|]. intros cs _. apply gsafe_bind; [|done].
  intros e'. unfold map_err. destruct (CreateTable name cs e') as [e2 [[]|[]]]; done.
Qed.

Lemma execDrop_safe name b : gsafe (execDrop name b).
Proof.
  intros e. assert (gsafe (DropTable name)) as Hd.
  { intros e0. unfold DropTable. destruct (e_tables e0 !! name) as [t|]; [|done]. apply txn_safe; [done|].
    auto with gsafe. }
  specialize (Hd e). unfold execDrop. destruct (DropTable name e) as [e' [[]|err]]; [done|]. unfold safe in *. simpl in Hd.
  destruct err; try (by simpl; intros [= -> ->]; apply Hd). by destruct b.
Qed.

(** ** All statements *)

(** The queries a statement runs. *)
Definition stmt_subs (st : Statement) : list Select :=
  match st with
  | SelectS q => [q]
  | UpdateS st => opt_subs (up_Where st)
  | DeleteS st => opt_subs (de_Where st)
  | _ => []
  end.

Lemma parsed_subs st ks q : GStmt st ks → q ∈ stmt_subs st → everywhere shape_ok q.
Proof.
  intros HG Hq. assert (∃ kq, GSel q kq) as [kq HS]; [|by eapply parsed_shape].
  inversion HG; subst; simpl in Hq; try (by apply not_elem_of_nil in Hq).
  - apply list_elem_of_singleton in Hq as ->. eauto.
  - match goal with H : clause "where" _ _ _ |- _ => destruct (clause_inside _ _ _ _ H Hq) as (kq & ? & _) end. eauto.
  - match goal with H : clause "where" _ _ _ |- _ => destruct (clause_inside _ _ _ _ H Hq) as (kq & ? & _) end. eauto.
Qed.

(** No derived table has the name of a stored one. *)
Definition derived_fresh {S} `{!Accessor S, !ReadSpec S} (st : Statement) (s : S) : Prop :=
  ∀ q, q ∈ stmt_subs st → everywhere (λ q, ∀ a, a ∈ derived_aliases q → acc_view s !! a = None) q.

Lemma ExecStmt_safe {S : Type} `{!Accessor S, !ReadSpec S, !QuietWrites S} {Q : Quoter}
    (eng : GoM Engine Result → GoM S Result) (now : Value) (src : string) (st : Statement) (s : S) :
  (∀ m, gsafe m → gsafe (eng m)) → Parse src = Ok st → acc_inv s → rows_complete s → derived_fresh st s →
  safe (ExecStmt eng now st s).2.
Proof.
  intros He (ks & [st' ks' semi HG])%Parse_derives Hi Hr Hf.
  assert (∀ q, q ∈ stmt_subs st' → sub_ok (execSelect now q s)) as Hq.
  { intros q Hin. split; [|intros rs Hrs; by apply (select_shape _ _ _ _ Hrs)].
    apply (execSelect_safe now s Hi Hr); [by eapply parsed_subs|by apply Hf]. }
  destruct st'; cbn [ExecStmt]; [| | | | | |done..].
  - apply He, execCreate_safe.
  - apply He, execDrop_safe.
  - apply execInsert_safe.
  - apply (Hq s0). by left.
  - by apply execUpdate_safe.
  - by apply execDelete_safe.
Qed.

(** COMMIT indexes the buffered rows. *)
Lemma Commit_safe (s : Sess) : txn_ok s → safe (Tx.Commit s).2.
Proof.
  destruct s as [x e]. intros Hok. unfold Tx.Commit. unfold gbind at 1, gget. simpl.
  destruct (x_done x); [done|]. destruct (validate_spec x e Hok) as [[Hv Hvc]|[Hv _]].
  - unfold gbind, glift. rewrite Hv. simpl. case_bool_decide; [done|].
    destruct (valid_commit_ok x e Hok Hvc) as (_ & _ & Hdom).
    destruct (commitTxn_spec (x_id x) (x_ops x) e Hdom) as (rs & _ & Hct). unfold on_engine. simpl.
    destruct (Tx.commitTxn (x_id x) (x_ops x) e) as [e2 q2]. by destruct Hct as (_ & _ & _ & [[-> _]|[-> _]]).
  - unfold gbind, glift. by destruct Hv as [Hv|Hv]; rewrite Hv.
Qed.

(** ** The server *)

(** What has to hold of a connection when a statement arrives: its database, or
    the view of its open transaction, is well formed and its rows are complete. *)
Definition conn_ok (st : Srv) : Prop :=
  match c_txn st.2 with
  | None => acc_inv st.1 ∧ rows_complete st.1
  | Some x => acc_inv (x, st.1) ∧ rows_complete (x, st.1)
  end.
Definition conn_fresh (stmt : Statement) (st : Srv) : Prop :=
  match c_txn st.2 with
  | None => derived_fresh stmt st.1
  | Some x => derived_fresh stmt (x, st.1)
  end.

(** Executing a statement, in autocommit or in the open transaction of the
    connection, and committing that transaction do not panic. *)
Lemma query_safe {Q : Quoter} (now : Value) (src : string) (stmt : Statement) (st : Srv) :
  Parse src = Ok stmt → conn_ok st → conn_fresh stmt st →
  safe (execute now stmt st).2 ∧ ∀ x, c_txn st.2 = Some x → safe (Tx.Commit (x, st.1)).2.
Proof.
  unfold conn_ok, conn_fresh. intros Hp Hc Hf. unfold execute. destruct (c_txn st.2) as [x|]; destruct Hc as (Hi & Hr).
  - pose proof (ExecStmt_safe on_engine now src stmt (x, st.1) on_engine_safe Hp Hi Hr Hf) as Hs.
    split; [by destruct (ExecStmt _ _ _ _) as [[] ?]|]. intros _ [= <-]. apply Commit_safe, Hi.
  - pose proof (ExecStmt_safe (λ m, m) now src stmt st.1 (λ m Hm, Hm) Hp Hi Hr Hf) as Hs.
    split; [by destruct (ExecStmt _ _ _ _)|done].
Qed.

(** ** The hypothesis on the rows is an invariant

    Every step of the storage interface keeps the rows as wide as their tables:
    the length is checked before a row is stored. *)
Lemma acc_step_complete c d q d' :
  acc_step c d q d' → db_rows (λ cols r, length r = length cols) d → db_rows (λ cols r, length r = length cols) d'.
Proof.
  intros [H|(? & ? & ? & _ & _ & ->)] Hd; [|done]. inversion H; subst; try done.
  - intros m mcols mrows j r [[<- [= <- <-]]|[_ Hm]]%lookup_insert_Some; [by intros ?%lookup_empty_Some|by eapply Hd].
  - intros m mcols mrows j r [_ Hm]%lookup_delete_Some. by eapply Hd.
  - apply db_rows_put; [done|done|]. unfold stamp. case_bool_decide; [by rewrite length_insert|done].
  - by apply db_rows_delete.
Qed.
