(* ===== verification/Net.v ===== *)
(** * The server with all its connections (server/server.go: ListenAndServe, handle)

    [ListenAndServe] serves every accepted connection by its own [handle], on one
    engine.  A step of [net_step] is one accepted connection, one message of one
    connection or the end of one; a run is any interleaving of them.  The theorems
    are about runs in which messages are handled one at a time; [Overlap] is about
    messages that overlap in time.

    What holds of every reachable state: each table has rows of its width and
    exact UNIQUE indexes, and the buffers of all open transactions fit their
    tables.  It needs that no table is created or dropped while another connection
    is in a transaction ([calm]) and, for COMMIT, that no counter of row or table
    ids has wrapped around ([counters_ok]). *)
From S2P Require Import Prelude GoStd Types Schema Wal Table Engine Txn Accessor Ast Lexer Parser.
From S2P Require Import Eval Exec Select Safety Protocol Server NoPanic.

Open Scope go_scope.

(** ** The tables, without their counters *)
Definition tables_ok (e : Engine) : Prop :=
  ∀ n t, e_tables e !! n = Some t → table_ok t ∧ valid_def (table_def t) ∧ t_name t = n.
Definition same_cols (e0 e : Engine) : Prop := ∀ n, t_cols <$> e_tables e !! n = t_cols <$> e_tables e0 !! n.

(** What [cat_ok] says beyond [tables_ok]. *)
Record counters_ok (e : Engine) : Prop := {
  ct_ids : ∀ n t, e_tables e !! n = Some t → ids_ok t;
  ct_id : ∀ n t, e_tables e !! n = Some t →
    c_byID (e_cat e) !! t_id t = Some n ∧ (0 ≤ t_id t < c_nextTableID (e_cat e))%Z;
  ct_byID : ∀ i n, c_byID (e_cat e) !! i = Some n → ∃ t, e_tables e !! n = Some t ∧ t_id t = i;
  ct_next : (0 ≤ c_nextTableID (e_cat e) < 2 ^ 32)%Z }.

Lemma cat_ok_split e : cat_ok (e_cat e) ↔ tables_ok e ∧ counters_ok e.
Proof.
  split.
  - intros [Ht Hn Hi Hb Hx]. split; [|split; [|done..]].
    + intros n t Hl. destruct (Ht _ _ Hl) as (? & ? & ?). eauto.
    + intros n t Hl. by destruct (Ht _ _ Hl) as (? & ? & ?).
  - intros [Ht [Hids Hi Hb Hx]]. split; [|intros n t Hl; by apply Ht in Hl as (_ & _ & ?)|done..].
    intros n t Hl. destruct (Ht _ _ Hl) as (? & ? & ?). split; [done|]. split; [by eapply Hids|done].
Qed.

(** ** What the storage calls keep of every table

    A property [P] of tables that the three changes of a table keep: another next
    id, a row of the right width without UNIQUE conflict, a row less. *)
Section fits.
  Context (P : Table → Prop).
  Context (P_next : ∀ k t, P t → P (set_nextID k t)).
  Context (P_store : ∀ id r t, P t → length r = length (t_cols t) →
    existsb (uniqueConflict id r t) (uniqCols (t_cols t)) = false → P (storeRow id r t)).
  Context (P_erase : ∀ id t, P t → P (eraseRow id t)).

(** [e] has the tables of [e0], with other rows. *)
Definition fits (e0 e : Engine) : Prop :=
  (∀ n t, e_tables e !! n = Some t → P t ∧ t_name t = n) ∧ same_cols e0 e.

Lemma fits_cat e0 e e' : e_cat e' = e_cat e → fits e0 e → fits e0 e'.
Proof. unfold fits, same_cols, e_tables. by intros ->. Qed.

Lemma fits_upd n f e0 e :
  (∀ t, e_tables e !! n = Some t → P t → P (f t) ∧ t_cols (f t) = t_cols t ∧ t_name (f t) = t_name t) →
  fits e0 e → fits e0 (upd_table n f e).
Proof.
  intros Hf [Ht Hc]. unfold fits, same_cols, e_tables, upd_table in *. cbn [e_cat set_cat]. split.
  - intros m t'. rewrite cat_upd_lookup. case_decide as E; [subst m|by apply Ht].
    intros (t & Hl & ->)%fmap_Some. destruct (Ht _ _ Hl) as (H1 & H2).
    destruct (Hf _ Hl H1) as (H4 & H5 & H6). by rewrite H6.
  - intros m. rewrite cat_upd_lookup, <-Hc. case_decide as E; [subst m|done].
    destruct (c_tables (e_cat e) !! n) as [t|] eqn:Hl; [|done]. simpl. f_equal.
    destruct (Ht _ _ Hl) as (H1 & _). by apply Hf.
Qed.

(** The writes of the engine. *)
Lemma keeps_txn_then {A} e0 (f : Z → WalRecord) (k : GoM Engine A) :
  (∀ tx, encode_error (f tx) = None) → keeps (fits e0) k →
  keeps (fits e0) (gbind (txn (λ tx, walAppend (f tx) false)) (λ _, k)).
Proof.
  intros He Hk e Hc. destruct (gbind _ _ e) as [e' q] eqn:Eq.
  apply txn_then in Eq as [(e1 & [[Hcat _ _ _] _ _ _ _] & _ & Hk1)|(_ & [[Hcat _ _ _] _ _ _ _] & _)]; [..|done].
  - specialize (Hk e1 (fits_cat _ _ _ Hcat Hc)). by rewrite Hk1 in Hk.
  - by eapply fits_cat.
Qed.

Lemma reserveID_table id must t id' t1 : reserveID id must t = Ok (id', t1) → ∃ k, t1 = set_nextID k t.
Proof.
  assert (∀ i t0 k0, ∃ k, bumpNextID i (set_nextID k0 t0) = set_nextID k t0) as Hb.
  { intros i t0 k0. unfold bumpNextID. case_bool_decide; by eexists. }
  assert (t = set_nextID (t_nextID t) t) as Ht by (by destruct t).
  unfold reserveID. destruct (bool_decide (id = 0)%Z); [intros [= _ <-]; apply Hb|].
  destruct (_ && negb must); [done|]. destruct (_ && must); [done|]. intros [= _ <-].
  destruct (_ && _); [by eexists|]. pose proof (Hb id t (t_nextID t)) as H. by rewrite <-Ht in H.
Qed.

Lemma keeps_noteWrite e0 : keeps (fits e0) noteWrite.
Proof. intros e Hc. eapply fits_cat; [apply noteWrite_cat|done]. Qed.

Lemma keeps_put e0 n pk id r must : keeps (fits e0) (put n pk id r must).
Proof.
  intros e Hc. unfold put. destruct (bool_decide (id < 0)%Z); [done|]. destruct (must && _); [done|].
  destruct (e_tables e !! n) as [t|] eqn:Et; [|done]. case_bool_decide as Hl; [done|].
  destruct (reserveID id must t) as [[id' t1]|err] eqn:Er; [|done]. cbv zeta.
  apply reserveID_table in Er as [k ->].
  assert (fits e0 (upd_table n (λ _, set_nextID k t) e)) as Hc1.
  { apply fits_upd; [|done]. intros t' Ht' Hok. rewrite Et in Ht'. injection Ht' as <-.
    split; [by apply P_next|done]. }
  destruct (existsb _ _) eqn:Ex; [done|]. destruct (gbind _ _ _) as [e' q] eqn:Eq.
  apply txn_then in Eq as [(e1 & [[Hcat _ _ _] _ _ _ _] & _ & Hk1)|(_ & [[Hcat _ _ _] _ _ _ _] & _)]; [..|done];
    [|by eapply fits_cat].
  apply (fits_cat _ _ _ Hcat) in Hc1. unfold gbind, gret in Hk1. cbn [gmodify] in Hk1.
  assert (fits e0 (upd_table n (storeRow id' (stamp pk id' r)) e1)) as Hc2.
  { apply fits_upd; [|done]. intros t' Ht' Hok.
    assert (t' = set_nextID k t) as ->.
    { unfold e_tables in Ht'. rewrite Hcat in Ht'. unfold upd_table in Ht'. simpl in Ht'.
      rewrite lookup_alter_eq in Ht'. unfold e_tables in Et. rewrite Et in Ht'. by injection Ht' as <-. }
    destruct (storeRow_frame id' (stamp pk id' r) (set_nextID k t)) as (_ & Hnm & Hcs & _).
    split; [|done]. apply P_store; [done|rewrite length_stamp; simpl; lia|exact Ex]. }
  pose proof (keeps_noteWrite e0 _ Hc2) as Hc3. unfold keeps in Hc3.
  destruct (noteWrite _) as [e4 [[]|]]; by injection Hk1 as <- <-.
Qed.

Lemma keeps_Delete_engine e0 n id : keeps (fits e0) (Engine.Delete n id).
Proof.
  intros e Hc. unfold Engine.Delete. destruct (e_tables e !! n) as [t|]; [|done].
  destruct (t_rows t !! id); [|done]. apply keeps_txn_then; [done| |done].
  apply keeps_bind; [|intros _; apply keeps_noteWrite]. intros e1 Hc1. apply fits_upd; [|done].
  intros t' _ Hok. destruct (eraseRow_frame id t') as (_ & ? & ? & _). split; [by apply P_erase|done].
Qed.

Lemma engine_fits e0 : writes_keep (S := Engine) (fits e0).
Proof.
  split; intros; cbn; try apply keeps_put.
  - apply keeps_bind; [apply keeps_put|intros; apply keeps_gret].
  - apply keeps_Delete_engine.
Qed.

(** The writes of a transaction. *)
Definition op_shaped (e : Engine) (o : op) : Prop :=
  o_kind o = opPut → ∀ cols, t_cols <$> e_tables e !! o_name o = Some cols → length (o_row o) = length cols.

(** The buffer of an active transaction fits the tables of [e]. *)
Definition txn_shaped (e : Engine) (x : Txn) : Prop := Forall (op_shaped e) (x_ops x) ∧ x_done x = false.

Lemma op_shaped_cols e0 e o : same_cols e0 e → op_shaped e0 o → op_shaped e o.
Proof. intros Hc Ho Hk cols Hl. apply Ho; [done|]. by rewrite <-Hc. Qed.
Lemma txn_shaped_cols e0 e x : same_cols e0 e → txn_shaped e0 x → txn_shaped e x.
Proof. intros Hc [Ho Hd]. split; [|done]. eapply Forall_impl; [done|]. intros o. by apply op_shaped_cols. Qed.

Definition sess_fits (e0 : Engine) (s : Sess) : Prop := fits e0 s.2 ∧ txn_shaped e0 s.1.

Lemma keeps_reserve e0 n : keeps (sess_fits e0) (on_engine (ReserveID n)).
Proof.
  intros [x e] [Hc Hx]. unfold on_engine, ReserveID. simpl in *.
  destruct (e_tables e !! n) as [t|] eqn:Et; [|by split]. split; [|done]. simpl. apply fits_upd; [|done].
  intros t' _ Hok. split; [by apply P_next|done].
Qed.

Lemma keeps_add_op e0 o : op_shaped e0 o → keeps (sess_fits e0) (on_txn (add_op o)).
Proof.
  intros Ho [x e] [Hc [Hx Hd]]. split; [done|]. split; [|done]. simpl. apply Forall_app. by split; [|constructor].
Qed.
Lemma keeps_noteInsert e0 n id : keeps (sess_fits e0) (on_txn (Tx.noteInsert n id)).
Proof. by intros [x e] [Hc Hx]. Qed.

(** [prepare] hands on the columns of the table, as many as the row has cells. *)
Lemma keeps_prepare {A} e0 n r (k : TableDef * gmap Z row → GoM Sess A) :
  (∀ de, (∀ cols, t_cols <$> e_tables e0 !! n = Some cols → length r = length cols) → keeps (sess_fits e0) (k de)) →
  keeps (sess_fits e0) (gbind (Tx.prepare n r) k).
Proof.
  intros Hk s Hs. pose proof (prepare_state n r s) as Hst. unfold gbind.
  destruct (Tx.prepare n r s) as [s1 [de|err]] eqn:Ep; simpl in Hst; subst s1; [|done].
  apply Hk; [|done]. destruct Hs as [[Ht Hc] _]. intros cols Hl. rewrite <-Hc in Hl.
  apply fmap_Some in Hl as (t & Hl & ->). unfold Tx.prepare, gbind, gget, glift, gret in Ep.
  destruct (guard_err (x_done s.1) _) as [[]|]; [|done].
  destruct (Tx.tableDef n s.2) as [def|] eqn:Ed; [|done]. unfold guard_err in Ep.
  case_bool_decide as Hlen; [done|].
  apply Tx_tableDef_inv in Ed as (t' & Hl' & ->); [|by intros m t' [_ Hm]%Ht].
  rewrite Hl in Hl'. injection Hl' as <-. simpl in Hlen. lia.
Qed.

Lemma txn_fits e0 : writes_keep (S := Sess) (sess_fits e0).
Proof.
  assert (∀ q : res unit, keeps (sess_fits e0) (glift q)) as Hg by (intros; apply keeps_glift).
  assert (∀ n id r, (∀ cols, t_cols <$> e_tables e0 !! n = Some cols → length r = length cols) →
    op_shaped e0 (MkOp opPut n id r)) as Hop by (intros n id r Hr _; apply Hr).
  assert (∀ n de id r, (∀ cols, t_cols <$> e_tables e0 !! n = Some cols → length r = length cols) →
    keeps (sess_fits e0) (Tx.insertRow n de.1 de.2 id r)) as Hins.
  { intros n de id r Hr. unfold Tx.insertRow. apply keeps_bind; [apply Hg|intros _].
    apply keeps_bind; [apply keeps_noteInsert|intros _]. apply keeps_bind; [by apply keeps_add_op, Hop|intros _].
    apply keeps_gret. }
  split; intros; cbn.
  - apply keeps_prepare. intros de Hr. apply keeps_bind; [case_bool_decide; [apply keeps_reserve|apply keeps_gret]|].
    intros id'. apply keeps_bind; [apply Hg|intros _]. by apply Hins.
  - apply keeps_prepare. intros de Hr. apply keeps_bind; [apply keeps_reserve|]. intros id'.
    do 2 (apply keeps_bind; [apply Hg|intros _]). apply Hins. intros cols Hl. rewrite length_stamp. by apply Hr.
  - apply keeps_prepare. intros de Hr. do 2 (apply keeps_bind; [apply Hg|intros _]). by apply keeps_add_op, Hop.
  - unfold Tx.Delete. apply keeps_bind; [apply keeps_gget|intros s]. apply keeps_bind; [apply Hg|intros _].
    apply keeps_bind; [apply keeps_glift|intros def]. apply keeps_bind; [apply keeps_glift|intros eff].
    apply keeps_bind; [apply Hg|intros _]. by apply keeps_add_op.
Qed.
End fits.

(** Well-formed tables. *)
Definition good_table (t : Table) : Prop := table_ok t ∧ valid_def (table_def t).
Definition calm : Engine → Engine → Prop := fits good_table.

Lemma calm_split e0 e : calm e0 e ↔ tables_ok e ∧ same_cols e0 e.
Proof. unfold calm, fits, tables_ok, good_table. naive_solver. Qed.
Lemma calm_refl e : tables_ok e → calm e e.
Proof. intros H. by apply calm_split. Qed.

Lemma good_next k t : good_table t → good_table (set_nextID k t).
Proof. intros [H1 H2]. split; [by apply table_ok_set_nextID|done]. Qed.
Lemma good_store id r t :
  good_table t → length r = length (t_cols t) → existsb (uniqueConflict id r t) (uniqCols (t_cols t)) = false →
  good_table (storeRow id r t).
Proof.
  intros [H1 H2] Hl Hx. destruct (storeRow_frame id r t) as (_ & Hn & Hc & _). split.
  - apply storeRow_ok; [done..|]. apply uniqueConflict_iff; [apply H1|exact Hx].
  - unfold table_def in *. by rewrite Hn, Hc.
Qed.
Lemma good_erase id t : good_table t → good_table (eraseRow id t).
Proof.
  intros [H1 H2]. destruct (eraseRow_frame id t) as (_ & Hn & Hc & _).
  split; [by apply eraseRow_ok|]. unfold table_def in *. by rewrite Hn, Hc.
Qed.
Lemma engine_calm e0 : writes_keep (S := Engine) (calm e0).
Proof. exact (engine_fits _ good_next good_store good_erase e0). Qed.
Lemma txn_calm e0 : writes_keep (S := Sess) (sess_fits good_table e0).
Proof. exact (txn_fits _ good_next e0). Qed.

(** ** COMMIT and DDL *)
Definition ids_small (x : Txn) : Prop := Forall (λ o, o_kind o = opPut → (0 < o_rowID o < int64_max)%Z) (x_ops x).

Lemma txn_ok_intro x e : cat_ok (e_cat e) → txn_shaped e x → ids_small x → txn_ok (x, e).
Proof.
  intros Hok [Hs _] Hi. unfold ids_small in Hi. split; [done|]. rewrite Forall_forall in Hs, Hi. apply Forall_forall. intros o Ho Hk.
  split; [by apply Hi|]. intros t Ht. apply Hs; [done..|]. simpl in Ht. by rewrite Ht.
Qed.

Lemma Commit_calm x e : txn_ok (x, e) → calm e (Tx.Commit (x, e)).1.2.
Proof.
  intros Hok. pose proof (to_cat _ Hok) as Hcat. simpl in Hcat. pose proof (proj1 (cat_ok_split e) Hcat) as [Ht _].
  assert (calm e e) as Hrefl by (by apply calm_refl).
  unfold Tx.Commit, gbind, gget, glift, gret, on_txn, on_engine. simpl. destruct (x_done x); [done|].
  destruct (validate_spec x e Hok) as [[-> Hvc]|[Hv _]]; [|by destruct Hv as [-> | ->]].
  case_bool_decide; [done|]. destruct (valid_commit_ok x e Hok Hvc) as (Hok' & _ & Hdom). simpl.
  destruct (commitTxn_spec (x_id x) (x_ops x) e Hdom) as (rs & _ & Hct).
  destruct (Tx.commitTxn (x_id x) (x_ops x) e) as [e2 q2].
  destruct Hct as (e1 & [[Hc1 _ _ _] _ _ _ _] & _ & [[-> ->]|[-> ->]]); [|by eapply fits_cat].
  apply (fits_cat _ e (set_cat (cat_ops (x_ops x) (e_cat e1)) e1)); [apply noteWrite_cat|]. apply calm_split. split.
  - apply (cat_ok_split (set_cat (cat_ops (x_ops x) (e_cat e1)) e1)). simpl. by rewrite Hc1.
  - intros n. unfold e_tables. simpl. rewrite Hc1, cat_ops_tables.
    destruct (c_tables (e_cat e) !! n) as [t|]; [|done]. simpl.
    by destruct (tab_ops_frame n (x_ops x) t) as (_ & _ & -> & _).
Qed.

Lemma CreateTable_tables n cols e : tables_ok e → tables_ok (CreateTable n cols e).1.
Proof.
  intros Ht. unfold CreateTable. destruct (Validate _) as [td|] eqn:Ev; [|done].
  destruct (e_tables e !! n) as [t|] eqn:Et; [done|]. pose proof (Validate_valid _ _ Ev) as [Hv Hn]. simpl in Hn.
  destruct (gbind _ _ e) as [e' q] eqn:Eq.
  apply txn_then in Eq as [(e2 & [[Hc _ _ _] _ _ _ _] & _ & Hk)|(_ & [[Hc _ _ _] _ _ _ _] & _)]; [..|done];
    unfold tables_ok, e_tables in *; [|simpl; by rewrite Hc].
  unfold gbind, gmodify in Hk. injection Hk as <- <-. simpl. rewrite Hc.
  intros m t [[<- <-]|[_ Hm]]%lookup_insert_Some; [|by apply Ht].
  split; [apply empty_table_ok|]. split; [|done]. destruct td; simpl in *. by subst.
Qed.

Lemma DropTable_tables n e : tables_ok e → tables_ok (DropTable n e).1.
Proof.
  intros Ht. unfold DropTable. destruct (e_tables e !! n) as [t|]; [|done]. destruct (gbind _ _ e) as [e' q] eqn:Eq.
  apply txn_then in Eq as [(e2 & [[Hc _ _ _] _ _ _ _] & _ & Hk)|(_ & [[Hc _ _ _] _ _ _ _] & _)]; [..|done];
    unfold tables_ok, e_tables in *; [|simpl; by rewrite Hc].
  unfold gbind, gmodify in Hk. injection Hk as <- <-. simpl. rewrite Hc.
  intros m t' [_ Hm]%lookup_delete_Some. by apply Ht.
Qed.

Lemma execCreate_tables n cols e : tables_ok e → tables_ok (execCreate n cols e).1.
Proof.
  intros Ht. unfold execCreate. unfold gbind at 1, gget. cbn [glift gbind]. unfold gbind at 1, glift.
  destruct (createColumns n cols e) as [cs|]; [|done]. pose proof (CreateTable_tables n cs e Ht) as H.
  unfold gbind, map_err. by destruct (CreateTable n cs e) as [e' [[]|err]].
Qed.
Lemma execDrop_tables n b e : tables_ok e → tables_ok (execDrop n b e).1.
Proof.
  intros Ht. pose proof (DropTable_tables n e Ht) as H. unfold execDrop.
  destruct (DropTable n e) as [e' [[]|err]]; [done|]. destruct err; try done. by destruct b.
Qed.

(** ** One message *)
Definition conn_shaped (e : Engine) (c : connState) : Prop :=
  match c_txn c with Some x => txn_shaped e x | None => True end.

(** COMMIT needs the counters of ids. *)
Definition conn_counters (st : Srv) : Prop :=
  counters_ok st.1 ∧ match c_txn st.2 with Some x => ids_small x | None => True end.

(** After a message: the tables are well formed, the connection's buffer fits them,
    and they have the columns they had unless the message was DDL. *)
Record after (ddl : Prop) (st st' : Srv) : Prop := {
  af_tables : tables_ok st'.1;
  af_conn : conn_shaped st'.1 st'.2;
  af_cols : ¬ ddl → same_cols st.1 st'.1 }.

Section message.
  Context {Q : Quoter} (parse : string → res Statement) (now : Value).

Lemma after_fail ddl code text (st0 st : Srv) : tables_ok st.1 → (¬ ddl → same_cols st0.1 st.1) →
  after ddl st0 (fail code text st).
Proof.
  intros Ht Hc. destruct (fail_spec code text st) as (He & Hx & _).
  split; rewrite ?He; [done| |done]. unfold conn_shaped. by rewrite Hx.
Qed.
Lemma after_failWith ddl err code text (st0 st : Srv) : tables_ok st.1 → (¬ ddl → same_cols st0.1 st.1) →
  after ddl st0 (failWith err code text st).
Proof.
  intros Ht Hc. destruct (failWith_spec err code text st) as (He & Hx & _).
  split; rewrite ?He; [done| |done]. unfold conn_shaped. by rewrite Hx.
Qed.
Lemma after_ready ddl m (st0 st : Srv) : after ddl st0 st → after ddl st0 (ready (send m st)).
Proof.
  intros [Ht Hs Hc]. destruct (ready_spec m st) as (He & Hx & _). unfold conn_shaped in *.
  split; unfold conn_shaped; rewrite ?He, ?Hx; done.
Qed.

Lemma execute_after stmt (st : Srv) :
  tables_ok st.1 → conn_shaped st.1 st.2 → (is_ddl stmt = true → c_txn st.2 = None) →
  after (is_ddl stmt = true) st (execute now stmt st).1.
Proof.
  destruct st as [e c]. intros Ht Hs Hd. unfold conn_shaped, execute in *. simpl in *.
  destruct (c_txn c) as [x|] eqn:Ex.
  - assert (sess_fits good_table e (ExecStmt on_engine now stmt (x, e)).1) as [[Ht' Hc]%calm_split Hx'].
    { apply (keeps_ExecStmt (sess_fits good_table e) (txn_calm e)); [by intros m ?%Hd|by split; [apply calm_refl|]]. }
    destruct (ExecStmt on_engine now stmt (x, e)) as [[x' e'] q]. split; simpl in *; [done|by eapply txn_shaped_cols|done].
  - assert (tables_ok (ExecStmt (λ m, m) now stmt e).1 ∧
      (is_ddl stmt = false → same_cols e (ExecStmt (λ m, m) now stmt e).1)) as [Ht' Hc].
    { destruct (is_ddl stmt) eqn:Eddl.
      - split; [|done]. destruct stmt; try done; simpl; [by apply execCreate_tables|by apply execDrop_tables].
      - assert (calm e (ExecStmt (λ m, m) now stmt e).1) as [? ?]%calm_split; [|done].
        apply (keeps_ExecStmt (calm e) (engine_calm e)); [by rewrite Eddl|by apply calm_refl]. }
    destruct (ExecStmt (λ m, m) now stmt e) as [e' q]. split; simpl in *; [done|by unfold conn_shaped; rewrite Ex|].
    intros Hn. apply Hc. by destruct (is_ddl stmt).
Qed.

Definition is_ddl_query (msg : Message) : Prop :=
  m_Type msg = "query" ∧ ∃ stmt, parse (m_SQL msg) = Ok stmt ∧ is_ddl stmt = true.

Lemma runQuery_after sql (st : Srv) :
  tables_ok st.1 → conn_shaped st.1 st.2 → conn_counters st →
  after (∃ stmt, parse sql = Ok stmt ∧ is_ddl stmt = true) st (runQuery parse now sql st).
Proof.
  intros Ht Hs [Hct Hids]. assert (∀ ddl : Prop, after ddl st st) as Hsame by (by split).
  unfold runQuery. destruct (parse sql) as [stmt|err]; [|by apply after_fail].
  set (ddl := ∃ stmt0, Ok stmt = Ok stmt0 ∧ is_ddl stmt0 = true).
  assert (after ddl st (if bool_decide (is_Some (c_txn st.2)) && is_ddl stmt then
       fail "25000" (AStr "DDL is not supported inside an explicit transaction in v1") st
     else match execute now stmt st with
          | (st', Err err) => failWith err (sqlstate err) (AErr err) st'
          | (st', Ok rs) => ready (send (reply rs) st')
          end)) as Hstmt.
  { destruct (_ && _) eqn:Eb; [by apply after_fail|]. destruct (execute_after stmt st Ht Hs) as [H1 H2 H3].
    { intros Hd. rewrite Hd, andb_true_r in Eb. apply bool_decide_eq_false in Eb. by destruct (c_txn st.2); [destruct Eb|]. }
    assert (after ddl st (execute now stmt st).1) as Ha.
    { split; [done..|]. intros Hn. apply H3. intros Hd. apply Hn. by exists stmt. }
    destruct (execute now stmt st) as [st' [rs|err]]; [by apply after_ready|]. apply after_failWith; apply Ha. }
  destruct stmt; try exact Hstmt; clear Hstmt.
  - destruct (c_txn st.2) as [x|] eqn:Ex; [by apply after_ready|]. simpl. apply after_ready.
    split; [exact Ht|by split|by intros _ n].
  - destruct (c_txn st.2) as [x|] eqn:Ex; [|by apply after_fail]. unfold conn_shaped in Hs. rewrite Ex in Hs.
    assert (calm st.1 (Tx.Commit (x, st.1)).1.2) as [Ht' Hc]%calm_split.
    { apply Commit_calm, txn_ok_intro; [by apply cat_ok_split|done|done]. }
    destruct (Tx.Commit (x, st.1)) as [[x' e'] [[]|err]]; simpl in *.
    + apply after_ready. split; [done|done|by intros _].
    + destruct err; by (apply after_fail || apply after_failWith); [|intros _].
  - destruct (c_txn st.2) as [x|] eqn:Ex; [|by apply after_fail]. apply after_ready.
    pose proof (rollback_engine st) as He. split; unfold set_txn; simpl; rewrite ?He; done.
Qed.

Lemma dispatch_after msg (st : Srv) :
  tables_ok st.1 → conn_shaped st.1 st.2 → conn_counters st →
  after (is_ddl_query msg) st (dispatch parse now msg st).
Proof.
  intros Ht Hs Hct. assert (∀ ddl : Prop, after ddl st st) as Hsame by (by split).
  unfold dispatch. case_bool_decide as Hq.
  { destruct (runQuery_after (m_SQL msg) st Ht Hs Hct) as [H1 H2 H3]. split; [done..|].
    intros Hn. apply H3. intros Hd. by apply Hn. }
  repeat case_bool_decide; try (by apply after_ready).
  unfold runDescribe. destruct (findDef _ _); by apply after_ready.
Qed.
End message.

(** ** All connections *)

(** The engine and the open connections by number. *)
Abbreviation Net := (Engine * gmap nat connState)%type.

Section net.
  Context {Q : Quoter} (parse : string → res Statement).

Inductive net_step : Net → Net → Prop :=
  | step_accept e cs i : cs !! i = None → net_step (e, cs) (e, <[i := MkConn None []]> cs)
  | step_message e cs i c msg now e' c' : cs !! i = Some c → dispatch parse now msg (e, c) = (e', c') →
      net_step (e, cs) (e', <[i := c']> cs)
  | step_close e cs i c : cs !! i = Some c → net_step (e, cs) ((rollback (e, c)).1, delete i cs).

(** The invariant. *)
Definition net_ok (n : Net) : Prop :=
  tables_ok n.1 ∧ ∀ i c, n.2 !! i = Some c → conn_shaped n.1 c.

(** What a run has to keep to: messages see counters that have not wrapped, and
    DDL comes when no other connection is in a transaction. *)
Inductive calm_step : Net → Net → Prop :=
  | calm_accept e cs i : cs !! i = None → calm_step (e, cs) (e, <[i := MkConn None []]> cs)
  | calm_message e cs i c msg now e' c' :
      cs !! i = Some c → conn_counters (e, c) →
      (is_ddl_query parse msg → ∀ j cj, j ≠ i → cs !! j = Some cj → c_txn cj = None) →
      dispatch parse now msg (e, c) = (e', c') → calm_step (e, cs) (e', <[i := c']> cs)
  | calm_close e cs i c : cs !! i = Some c → calm_step (e, cs) ((rollback (e, c)).1, delete i cs).

Lemma calm_step_net n n' : calm_step n n' → net_step n n'.
Proof. destruct 1; [by apply step_accept|by eapply step_message|by apply step_close]. Qed.

Lemma conn_shaped_cols e0 e c : same_cols e0 e → conn_shaped e0 c → conn_shaped e c.
Proof. unfold conn_shaped. destruct (c_txn c); [|done]. apply txn_shaped_cols. Qed.

Lemma calm_step_ok n n' : net_ok n → calm_step n n' → net_ok n'.
Proof.
  intros [Ht Hs] Hstep. destruct Hstep as [e cs i Hi|e cs i c msg now e' c' Hi Hct Hddl Hd|e cs i c Hi]; simpl in *.
  - split; [done|]. simpl. intros j cj [[<- <-]|[_ Hj]]%lookup_insert_Some; [done|by apply (Hs j)].
  - destruct (dispatch_after parse now msg (e, c) Ht (Hs _ _ Hi) Hct) as [H1 H2 H3]. rewrite Hd in H1, H2, H3.
    split; [done|]. simpl in *. intros j cj [[<- <-]|[Hne Hj]]%lookup_insert_Some; [done|]. simpl in *.
    destruct (decide (∃ x, c_txn cj = Some x)) as [Hx|Hx].
    + apply (conn_shaped_cols e); [|by apply (Hs j)]. apply H3. intros Hq. destruct Hx as [x Hx].
      specialize (Hddl Hq j cj). rewrite Hx in Hddl. by assert (Some x = None) by (apply Hddl; congruence).
    + unfold conn_shaped. destruct (c_txn cj) as [x|]; [|done]. destruct Hx. by exists x.
  - split; simpl; rewrite rollback_engine; [done|]. intros j cj [_ Hj]%lookup_delete_Some. by apply (Hs j).
Qed.

Lemma calm_run_ok n n' : net_ok n → rtc calm_step n n' → net_ok n'.
Proof.
  intros Hok Hrun. revert Hok. induction Hrun as [|n1 n2 n3 Hstep _ IH]; [done|]. intros Hn.
  by eapply IH, calm_step_ok.
Qed.

(** C15: After every run of [calm_step] from a state that satisfies the invariant,
    that is, any interleaving of the messages of any number of connections, with
    connections opening and closing, in which CREATE and DROP TABLE come only while
    no other connection is in a transaction and no counter of ids has wrapped:
    every table has rows of its width and exact UNIQUE indexes, no two rows of it
    share the key of a UNIQUE column, and every open transaction's buffer fits its
    tables. *)
Theorem reachable_ok (n n' : Net) :
  net_ok n → rtc calm_step n n' →
  (∀ name t, e_tables n'.1 !! name = Some t →
     table_ok t ∧ rows_unique (t_cols t) (t_rows t) ∧ rows_shaped (t_cols t) (t_rows t)) ∧
  (∀ i c x, n'.2 !! i = Some c → c_txn c = Some x → txn_shaped n'.1 x).
Proof.
  intros Hok Hrun. destruct (calm_run_ok n n' Hok Hrun) as [Ht Hs]. split.
  - intros name t Hl. destruct (Ht _ _ Hl) as (Hok' & _). split; [done|]. split; [|by apply Hok'].
    eapply index_ok_unique_rows, Hok'.
  - intros i c x Hi Hx. specialize (Hs _ _ Hi). unfold conn_shaped in Hs. by rewrite Hx in Hs.
Qed.
End net.

(** ** No panic in any run *)

(** Rows that fit their tables, with a buffer that fits them laid over. *)
Lemma overlay_shaped e x n t :
  e_tables e !! n = Some t → rows_shaped (t_cols t) (t_rows t) → Forall (op_shaped e) (x_ops x) →
  rows_shaped (t_cols t) (Tx.overlay n (x_ops x) (t_rows t)).
Proof.
  intros Ht Hr. induction (x_ops x) as [|o ops IH] using rev_ind; [done|].
  intros [Hops [Ho _]%Forall_cons]%Forall_app. specialize (IH Hops).
  rewrite overlay_snoc. unfold overlay_op. case_bool_decide as Hn; [|done]. destruct (o_kind o) eqn:Ek.
  - intros id r [[_ <-]|[_ Hl]]%lookup_insert_Some; [|by eapply IH]. apply (Ho Ek). by rewrite Hn, Ht.
  - intros id r [_ Hl]%lookup_delete_Some. by eapply IH.
Qed.

Lemma conn_ok_intro e c : tables_ok e → conn_shaped e c → conn_counters (e, c) → conn_ok (e, c).
Proof.
  intros Ht Hs [Hct Hids]. assert (cat_ok (e_cat e)) as Hok by (by apply cat_ok_split).
  unfold conn_ok, conn_shaped in *. simpl in *. destruct (c_txn c) as [x|].
  - split; [split; [by apply txn_ok_intro|apply Hs]|]. intros n cols rows id r Hn Hr. simpl in Hn.
    rewrite view_lookup in Hn. apply fmap_Some in Hn as (t & Hl & [= -> ->]). simpl in *.
    destruct (Ht _ _ Hl) as ([Hsh _] & _). by eapply (overlay_shaped e x n t Hl Hsh (proj1 Hs)).
  - split; [done|]. intros n cols rows id r Hn Hr. simpl in Hn.
    apply abs_lookup_inv in Hn as (t & Hl & <- & <-). destruct (Ht _ _ Hl) as ([Hsh _] & _). by eapply Hsh.
Qed.

(** A message whose statement and whose commit are safe does not panic. *)
Lemma safe_panics {Q : Quoter} (parse : string → res Statement) now (msg : Message) stmt (st : Srv) :
  parse (m_SQL msg) = Ok stmt → (execute now stmt st).2 ≠ Err panicRow →
  (∀ x, c_txn st.2 = Some x → (Tx.Commit (x, st.1)).2 ≠ Err panicRow) → panics parse now msg st = false.
Proof.
  intros Hp He Hc. unfold panics. rewrite Hp. apply andb_false_iff. right.
  assert (∀ A (q : res A), q ≠ Err panicRow → match q with Err err => is_panic err | Ok _ => false end = false) as Hsafe.
  { intros A [a|err] Hq; [done|]. apply not_true_iff_false. rewrite is_panic_spec. congruence. }
  destruct stmt; try done; try (rewrite Hsafe by done; apply andb_false_r).
  destruct (c_txn st.2); [apply Hsafe; auto|done].
Qed.

(** C13: No SQL text makes the server panic, in the following runs: those of
    [calm_step] (the messages of any number of connections interleaved, CREATE and
    DROP TABLE only while no other connection is in a transaction, no counter of
    ids wrapped) from a state that satisfies the invariant.  There, whatever
    statement the parser accepts, if no derived table of it has the name of a
    stored one, executing it, in autocommit or in the open transaction of its
    connection, and committing that transaction give a result or an error, and
    never an index outside a row, a missing join condition or a negative slice
    bound; so that a message with this text does not panic. *)
Theorem no_panic {Q : Quoter} (n n' : Net) (i : nat) (c : connState) (now : Value) (src : string) (stmt : Statement) :
  net_ok n → rtc (calm_step Parse) n n' → n'.2 !! i = Some c → conn_counters (n'.1, c) →
  Parse src = Ok stmt → conn_fresh stmt (n'.1, c) →
  (execute now stmt (n'.1, c)).2 ≠ Err panicRow ∧
  (∀ x, c_txn c = Some x → (Tx.Commit (x, n'.1)).2 ≠ Err panicRow) ∧
  ∀ msg, m_SQL msg = src → panics Parse now msg (n'.1, c) = false.
Proof.
  intros Hok Hrun Hi Hct Hp Hf. destruct (calm_run_ok Parse n n' Hok Hrun) as [Ht Hs].
  destruct (query_safe now src stmt (n'.1, c) Hp (conn_ok_intro _ _ Ht (Hs _ _ Hi) Hct) Hf) as [H1 H2].
  split; [done|]. split; [done|]. intros msg <-. by eapply safe_panics.
Qed.
