(* ===== verification/Overlap.v ===== *)
(** * Messages that overlap in time

    [Net] handles one message after another.  The program does not: the messages of
    different connections run in goroutines of their own, and only a single call of
    the storage, such as [Catalog], [AllRows], [Put] or the critical section of
    [commitTxn], holds the engine's lock.  Here a statement is run with the storage calls of
    the other connections ([act]) in between: [env] says which of them have
    happened by the time the statement reads the catalogue, reads a table, and makes
    its next write.  The executor is the one of [Exec], run on an accessor
    that puts the calls of an [env] before each of its own; between two writes a
    table is read as of one moment, and different tables as of different moments.

    The foreign keys, the uniqueness of keys and the exactness of the indexes can
    all break in such a run ([NetDemo]); what cannot is the width of the rows, and
    that is what the absence of panics needs. *)
From S2P Require Import Prelude GoStd Types Schema Wal Table Engine Txn Accessor Ast Lexer Parser Grammar.
From S2P Require Import Eval Exec Select Safety Protocol Server NoPanic Net.

Open Scope go_scope.

(** ** The storage calls of the other connections *)
Inductive act :=
  | act_put (n : string) (pk id : Z) (r : row) (mustExist : bool)
  | act_delete (n : string) (id : Z)
  | act_reserve (n : string)
  | act_commit (id : Z) (ops : list op)
  | act_checkpoint.

Definition act_run (e : Engine) (a : act) : Engine :=
  match a with
  | act_put n pk id r must => (put n pk id r must e).1
  | act_delete n id => (Engine.Delete n id e).1
  | act_reserve n => (ReserveID n e).1
  | act_commit id ops => (Tx.commitTxn id ops e).1
  | act_checkpoint => (backgroundCheckpoint e).1
  end.
Definition acts_run (l : list act) (e : Engine) : Engine := foldl act_run e l.

(** ** The width of the rows *)
Definition wide_table (t : Table) : Prop := rows_shaped (t_cols t) (t_rows t).
Definition wide : Engine → Engine → Prop := fits wide_table.

Lemma wide_next k t : wide_table t → wide_table (set_nextID k t).
Proof. done. Qed.
Lemma wide_row id r t : wide_table t → length r = length (t_cols t) → wide_table (storeRow id r t).
Proof.
  unfold wide_table. destruct (storeRow_frame id r t) as (_ & _ & -> & _). rewrite storeRow_rows.
  intros Ht Hl i r' [[<- <-]|[_ Hi]]%lookup_insert_Some; [done|by eapply Ht].
Qed.
Lemma wide_store id r t :
  wide_table t → length r = length (t_cols t) → existsb (uniqueConflict id r t) (uniqCols (t_cols t)) = false →
  wide_table (storeRow id r t).
Proof. intros Ht Hl _. by apply wide_row. Qed.
Lemma wide_erase id t : wide_table t → wide_table (eraseRow id t).
Proof.
  unfold wide_table. destruct (eraseRow_frame id t) as (_ & _ & -> & _). rewrite eraseRow_rows.
  intros Ht i r' [_ Hi]%lookup_delete_Some. by eapply Ht.
Qed.

Lemma tables_ok_wide e : tables_ok e → wide e e.
Proof. intros Ht. split; [|by intros n]. intros n t Hl. destruct (Ht _ _ Hl) as ([Hs _] & _ & Hn). done. Qed.
Lemma wide_named e0 e : wide e0 e → tables_named e.
Proof. intros [Ht _] n t Hl. by apply Ht. Qed.

Lemma wide_engine_writes e0 : writes_keep (S := Engine) (wide e0).
Proof. exact (engine_fits _ wide_next wide_store wide_erase e0). Qed.
Lemma wide_txn_writes e0 : writes_keep (S := Sess) (sess_fits wide_table e0).
Proof. exact (txn_fits _ wide_next e0). Qed.

(** COMMIT stores rows without looking at their width. *)
Lemma wide_applyOp e0 o : op_shaped e0 o → keeps (wide e0) (Tx.applyOp o).
Proof.
  intros Ho e He. unfold Tx.applyOp. destruct (o_kind o) eqn:Ek.
  - unfold applyPut. destruct (e_tables e !! o_name o) as [t|] eqn:Et; [|done]. apply fits_upd; [|done].
    intros t' Ht' Hw. rewrite Et in Ht'. injection Ht' as <-.
    destruct (storeRow_frame (o_rowID o) (o_row o) t) as (_ & Hn & Hc & _).
    assert (wide_table (storeRow (o_rowID o) (o_row o) t)) as Hst.
    { apply wide_row; [done|]. apply Ho; [done|]. destruct He as [_ Hcols]. by rewrite <-Hcols, Et. }
    unfold bumpNextID. by case_bool_decide.
  - unfold applyDelete. destruct (e_tables e !! o_name o) as [t|] eqn:Et; [|done]. apply fits_upd; [|done].
    intros t' _ Hw. destruct (eraseRow_frame (o_rowID o) t') as (_ & Hn & Hc & _). split; [by apply wide_erase|done].
Qed.

Lemma walAppend_cat r d e : e_cat (walAppend r d e).1 = e_cat e.
Proof. unfold walAppend. by destruct (log_append _ _ _ _). Qed.

Lemma keeps_each (P : Engine → Prop) {A} (f : A → GoM Engine unit) l :
  Forall (λ a, keeps P (f a)) l → keeps P (gforeach f l).
Proof. induction 1 as [|a l Ha _ IH]; [apply keeps_gret|]. by apply keeps_bind. Qed.

Lemma wide_commitTxn e0 id ops : Forall (op_shaped e0) ops → keeps (wide e0) (Tx.commitTxn id ops).
Proof.
  intros Ho. unfold Tx.commitTxn. apply keeps_bind; [apply keeps_gget|intros e].
  apply keeps_bind; [apply keeps_glift|intros rs]. apply keeps_bind; [|intros _; apply keeps_bind].
  - apply keeps_each, Forall_true. intros [r d] e1 He. eapply fits_cat; [apply walAppend_cat|done].
  - apply keeps_each. eapply Forall_impl; [exact Ho|]. intros o. apply wide_applyOp.
  - intros _ e1 He. eapply fits_cat; [apply noteWrite_cat|done].
Qed.

Lemma wide_backgroundCheckpoint e0 : keeps (wide e0) backgroundCheckpoint.
Proof.
  intros e He. unfold backgroundCheckpoint. destruct (e_checkpointing e); [|done].
  eapply fits_cat; [|exact He]. simpl. apply Checkpoint_cat.
Qed.

(** The calls of connections whose buffers fit the tables. *)
Definition act_ok (e0 : Engine) (a : act) : Prop :=
  match a with act_commit _ ops => Forall (op_shaped e0) ops | _ => True end.

Lemma act_wide e0 e a : act_ok e0 a → wide e0 e → wide e0 (act_run e a).
Proof.
  intros Ha He. destruct a as [n pk id r must|n id|n|id ops|]; simpl.
  - by apply (keeps_put _ wide_next wide_store e0).
  - by apply (wk_Delete _ (wide_engine_writes e0)).
  - unfold ReserveID. destruct (e_tables e !! n); [|done]. by apply fits_upd.
  - by apply wide_commitTxn.
  - by apply wide_backgroundCheckpoint.
Qed.
Lemma acts_wide e0 e l : Forall (act_ok e0) l → wide e0 e → wide e0 (acts_run l e).
Proof. intros Hl. revert e. induction Hl as [|a l Ha _ IH]; intros e He; [done|]. by apply IH, act_wide. Qed.

(** ** The accessor with others in between *)
Record env := MkEnv { en_cat : list act; en_tab : string → list act; en_write : list act }.
Definition calm_env : env := MkEnv [] (λ _, []) [].
Definition env_ok (e0 : Engine) (v : env) : Prop :=
  Forall (act_ok e0) (en_cat v) ∧ (∀ n, Forall (act_ok e0) (en_tab v n)) ∧ Forall (act_ok e0) (en_write v).

(** A state that holds the engine. *)
Class Hosted (S : Type) := hosted : (Engine → Engine) → S → S.
#[export] Instance engine_hosted : Hosted Engine := λ f, f.
#[export] Instance sess_hosted : Hosted Sess := λ f s, (s.1, f s.2).

Section overlapped.
  Context {S : Type} `{!Accessor S, !Hosted S}.

(** The state after the last write, and what happens before each write to come; when
    the list ends, nothing more. *)
Abbreviation Over := (S * list env)%type.

Definition here (s : Over) : env := default calm_env (head s.2).
Definition seen (l : list act) (s : Over) : S := hosted (acts_run l) s.1.
Definition at_table (n : string) (s : Over) : S := seen (en_tab (here s) n) s.

Definition interrupted {A} (m : GoM S A) : GoM Over A := λ s,
  let '(s', q) := m (seen (en_write (here s)) s) in ((s', tail s.2), q).

#[export] Instance over_accessor : Accessor Over := {|
  acc_Catalog s := acc_Catalog (seen (en_cat (here s)) s);
  acc_AllRows n s := acc_AllRows n (at_table n s);
  acc_Get n id s := acc_Get n id (at_table n s);
  acc_UniqueGet n ci v s := acc_UniqueGet n ci v (at_table n s);
  acc_Put n id r := interrupted (acc_Put n id r);
  acc_PutAuto n pk r := interrupted (acc_PutAuto n pk r);
  acc_Update n id r := interrupted (acc_Update n id r);
  acc_Delete n id := interrupted (acc_Delete n id) |}.

(** CREATE and DROP TABLE of this connection. *)
Definition on_base {A} (m : GoM S A) : GoM Over A := λ s, let '(s', q) := m s.1 in ((s', s.2), q).

Lemma interrupted_safe {A} (m : GoM S A) : gsafe m → gsafe (interrupted m).
Proof. intros Hm s. unfold interrupted. specialize (Hm (seen (en_write (here s)) s)). by destruct (m _). Qed.
Lemma on_base_safe {A} (m : GoM S A) : gsafe m → gsafe (on_base m).
Proof. intros Hm s. unfold on_base. specialize (Hm s.1). by destruct (m _). Qed.

#[export] Instance over_quiet `{!QuietWrites S} : QuietWrites Over.
Proof. split; intros; apply interrupted_safe; auto with gsafe. Qed.

(** What the reads show of a state whose columns the others leave alone. *)
Section reads.
  Context `{!ReadSpec S} (ok : act → Prop).
  Context (others_inv : ∀ l s, Forall ok l → acc_inv s → acc_inv (hosted (acts_run l) s)).
  Context (others_cols : ∀ l s n, Forall ok l → acc_inv s →
    fst <$> acc_view (hosted (acts_run l) s) !! n = fst <$> acc_view s !! n).

Definition envs_ok (l : list env) : Prop :=
  Forall (λ v, Forall ok (en_cat v) ∧ (∀ n, Forall ok (en_tab v n)) ∧ Forall ok (en_write v)) l.

Lemma here_ok (s : Over) :
  envs_ok s.2 → Forall ok (en_cat (here s)) ∧ (∀ n, Forall ok (en_tab (here s) n)) ∧ Forall ok (en_write (here s)).
Proof. unfold here. intros H. destruct H as [|v l Hv _]; [|exact Hv]. split_and!; intros; constructor. Qed.

Definition over_view (s : Over) : Db := map_imap (λ n _, acc_view (at_table n s) !! n) (acc_view s.1).

Lemma over_view_lookup (s : Over) n : acc_inv s.1 → envs_ok s.2 → over_view s !! n = acc_view (at_table n s) !! n.
Proof.
  intros Hi (_ & Ht & _)%here_ok. unfold over_view. rewrite map_lookup_imap.
  pose proof (others_cols _ s.1 n (Ht n) Hi) as Hc. unfold at_table, seen.
  by destruct (acc_view s.1 !! n), (acc_view (hosted _ _) !! n).
Qed.

Lemma over_complete (s : Over) :
  (∀ s', acc_inv s' → rows_complete s') → acc_inv s.1 → envs_ok s.2 →
  db_rows (λ cols r, length r = length cols) (over_view s).
Proof.
  intros Hr Hi He n cols rows id r. rewrite over_view_lookup by done. destruct (here_ok s He) as (_ & Ht & _).
  apply Hr, others_inv; [apply Ht|exact Hi].
Qed.

#[program] Definition over_reads : ReadSpec Over := {|
  acc_view := over_view;
  acc_inv s := acc_inv s.1 ∧ envs_ok s.2 |}.
Next Obligation.
  intros s d [Hi He]. rewrite over_view_lookup by done. destruct (here_ok s He) as (Hc & Ht & _). simpl.
  rewrite acc_Catalog_spec by (by apply others_inv). unfold at_table, seen.
  pose proof (others_cols _ s.1 (td_Name d) Hc Hi) as H1. pose proof (others_cols _ s.1 (td_Name d) (Ht (td_Name d)) Hi) as H2.
  rewrite <-H1 in H2. clear H1. split; intros [rows Hr]; rewrite Hr in H2; simpl in H2.
  - apply fmap_Some in H2 as ([cols rows'] & -> & [= <-]). by eexists.
  - symmetry in H2. apply fmap_Some in H2 as ([cols rows'] & -> & [= <-]). by eexists.
Qed.
Next Obligation.
  intros n s [Hi He]. rewrite over_view_lookup by done. destruct (here_ok s He) as (_ & Ht & _).
  exact (acc_AllRows_spec n (at_table n s) (others_inv _ _ (Ht n) Hi)).
Qed.
Next Obligation.
  intros n id cols rows s [Hi He]. rewrite over_view_lookup by done. destruct (here_ok s He) as (_ & Ht & _).
  exact (acc_Get_spec n id cols rows (at_table n s) (others_inv _ _ (Ht n) Hi)).
Qed.
End reads.

(** The writes keep what the calls of the others and the writes themselves keep. *)
Lemma over_writes (P : S → Prop) (ok : act → Prop) :
  (∀ l s, Forall ok l → P s → P (hosted (acts_run l) s)) → writes_keep P →
  writes_keep (S := Over) (λ s, P s.1 ∧ envs_ok ok s.2).
Proof.
  intros Ho W. assert (∀ A (m : GoM S A), keeps P m → keeps (λ s : Over, P s.1 ∧ envs_ok ok s.2) (interrupted m)) as Hi.
  { intros A m Hm s [Hs He]. unfold interrupted. destruct (here_ok ok s He) as (_ & _ & Hw).
    specialize (Hm _ (Ho _ _ Hw Hs)). fold (seen (en_write (here s)) s) in Hm.
    destruct (m (seen (en_write (here s)) s)) as [s' q]. split; [exact Hm|].
    simpl. unfold envs_ok in *. destruct He; [constructor|done]. }
  split; intros; apply Hi; apply W.
Qed.
End overlapped.

(** ** The engine and a transaction, in any state of wide rows *)
Lemma wide_cols e0 e n : wide e0 e → fst <$> abs e !! n = t_cols <$> e_tables e0 !! n.
Proof. intros [_ Hc]. rewrite <-Hc. unfold abs, abs_cat. rewrite lookup_fmap, <-option_fmap_compose. done. Qed.

#[program] Definition wide_reads (e0 : Engine) : ReadSpec Engine := {|
  acc_view := abs;
  acc_inv := wide e0 |}.
Next Obligation. intros e0 e d He. exact (Catalog_abs e d (wide_named _ _ He)). Qed.
Next Obligation. intros e0 n e _. apply AllRows_abs. Qed.
Next Obligation. intros e0 n id cols rows e _. apply Get_abs. Qed.

#[program] Definition wide_txn_reads (e0 : Engine) : ReadSpec Sess := {|
  acc_view := view;
  acc_inv := sess_fits wide_table e0 |}.
Next Obligation. intros e0 [x e] d [He _]. exact (Tx_Catalog_view x e d (wide_named _ _ He)). Qed.
Next Obligation. intros e0 n [x e] [_ [_ Hx]]. by apply Tx_AllRows_view. Qed.
Next Obligation. intros e0 n id cols rows [x e] [_ [_ Hx]]. by apply Tx_Get_view. Qed.

Lemma engine_others_inv e0 l (e : Engine) : Forall (act_ok e0) l → wide e0 e → wide e0 (hosted (acts_run l) e).
Proof. apply acts_wide. Qed.
Lemma engine_others_cols e0 l (e : Engine) n :
  Forall (act_ok e0) l → wide e0 e → fst <$> abs (hosted (acts_run l) e) !! n = fst <$> abs e !! n.
Proof. intros Hl He. rewrite !(wide_cols e0); [done..|by apply engine_others_inv]. Qed.

Lemma view_cols x e n : fst <$> view (x, e) !! n = fst <$> abs e !! n.
Proof.
  rewrite view_lookup. unfold abs, abs_cat. rewrite lookup_fmap. cbn [fst snd].
  unfold e_tables. by destruct (c_tables (e_cat e) !! n).
Qed.
Lemma txn_others_inv e0 l (s : Sess) :
  Forall (act_ok e0) l → sess_fits wide_table e0 s → sess_fits wide_table e0 (hosted (acts_run l) s).
Proof. intros Hl [He Hx]. split; [by apply acts_wide|exact Hx]. Qed.
Lemma txn_others_cols e0 l (s : Sess) n :
  Forall (act_ok e0) l → sess_fits wide_table e0 s → fst <$> view (hosted (acts_run l) s) !! n = fst <$> view s !! n.
Proof.
  destruct s as [x e]. intros Hl [He _]. unfold hosted, sess_hosted. rewrite !view_cols.
  by apply (engine_others_cols e0).
Qed.

Definition over_engine (e0 : Engine) : ReadSpec (Engine * list env) :=
  @over_reads _ _ _ (wide_reads e0) (act_ok e0) (engine_others_inv e0) (engine_others_cols e0).
Definition over_txn (e0 : Engine) : ReadSpec (Sess * list env) :=
  @over_reads _ _ _ (wide_txn_reads e0) (act_ok e0) (txn_others_inv e0) (txn_others_cols e0).

(** All rows a statement reads are as wide as their tables. *)
Lemma wide_complete e0 e : wide e0 e → @rows_complete _ _ (wide_reads e0) e.
Proof. intros [Ht _] n cols rows id r (t & Hl & <- & <-)%abs_lookup_inv Hr. destruct (Ht _ _ Hl) as [Hw _]. by eapply Hw. Qed.
Lemma wide_txn_complete e0 s : sess_fits wide_table e0 s → @rows_complete _ _ (wide_txn_reads e0) s.
Proof.
  destruct s as [x e]. intros [[Ht Hc] [Ho _]] n cols rows id r Hl Hr. simpl in Hl.
  rewrite view_lookup in Hl. apply fmap_Some in Hl as (t & Hl & [= -> ->]).
  cbn [fst snd] in *. destruct (Ht _ _ Hl) as [Hw _]. eapply (overlay_shaped e x n t Hl Hw); [|exact Hr].
  eapply Forall_impl; [exact Ho|]. intros o. by apply op_shaped_cols.
Qed.

(** ** A statement and a COMMIT of one connection *)
Section statement.
  Context {Q : Quoter} (now : Value).

(** [execute] with others in between. *)
Definition execute_over (stmt : Statement) (st : Srv) (envs : list env) : Srv * res Result :=
  match c_txn st.2 with
  | None =>
      let '((e', _), q) := ExecStmt on_base now stmt (st.1, envs) in ((e', st.2), q)
  | Some x =>
      let '(((x', e'), _), q) := ExecStmt (λ m, on_base (on_engine m)) now stmt ((x, st.1), envs) in
      ((e', MkConn (Some x') (c_out st.2)), q)
  end.

(** [Commit] reads the catalogue, each touched table, and then runs [commitTxn]. *)
Definition validate_over (ecat : Engine) (etab : string → Engine) (x : Txn) : res unit :=
  defs ← Tx.lookupDefs (Tx.touched x) ecat;
  _ ← res_foreach (λ dn : TableDef * string, Tx.validateTable dn.1 dn.2 x (etab dn.2)) (zip defs (Tx.touched x));
  guard_err (existsb (λ nm : string * gset Z,
               existsb (λ id, bool_decide (is_Some (Engine.Get nm.1 id (etab nm.1)))) (elements nm.2))
               (map_to_list (x_inserts x))) ErrUnique.

Definition commit_over (v : env) : GoM Sess unit :=
  s <-- gget ;;
  if x_done s.1 then gret tt else
  glift (validate_over (acts_run (en_cat v) s.2) (λ n, acts_run (en_tab v n) s.2) s.1) ;;;
  on_txn Tx.finish ;;;
  if bool_decide (x_ops s.1 = []) then gret tt
  else on_engine (λ e, Tx.commitTxn (x_id s.1) (x_ops s.1) (acts_run (en_write v) e)).

(** With nothing in between it is [Commit]. *)
Lemma commit_over_calm : commit_over calm_env = Tx.Commit.
Proof. reflexivity. Qed.

End statement.

(** ** No panic *)
Lemma lookupDefs_safe ns e : safe (Tx.lookupDefs ns e).
Proof.
  induction ns as [|n ns IH]; simpl; [done|]. apply safe_bind; [apply tx_tableDef_safe|]. intros def _.
  by apply safe_bind.
Qed.
Lemma lookupDefs_tables ns e defs :
  tables_named e → Tx.lookupDefs ns e = Ok defs →
  Forall2 (λ def n, ∃ t, e_tables e !! n = Some t ∧ def = table_def t) defs ns.
Proof.
  intros Hn. revert defs. induction ns as [|n ns IH]; intros defs; simpl; [by intros [= <-]|].
  intros (def & Hd & (rest & Hr & [= <-])%res_bind_Ok)%res_bind_Ok. constructor; [by eapply Tx_tableDef_inv|by apply IH].
Qed.

Lemma validate_over_safe e0 ecat etab x :
  wide e0 ecat → Forall (op_shaped e0) (x_ops x) → safe (validate_over ecat etab x).
Proof.
  intros He Ho. unfold validate_over. apply safe_bind; [apply lookupDefs_safe|]. intros defs Hd.
  apply lookupDefs_tables in Hd; [|by eapply wide_named].
  apply safe_bind; [|intros _ _; by apply safe_guard]. apply res_foreach_safe.
  intros [def n] [i Hi]%list_elem_of_lookup. apply lookup_zip_with_Some in Hi as (d & m & [= <- <-] & Hi & Hm).
  destruct (Forall2_lookup_lr _ _ _ _ _ _ Hd Hi Hm) as (t & Ht & ->). unfold Tx.validateTable. cbn [fst snd].
  apply safe_bind; [apply tx_effMap_safe|]. intros eff _. apply res_foreach_safe.
  intros o [[<- Hk] Hin]%list_elem_of_filter. apply tx_checkUnique_safe.
  rewrite Forall_forall in Ho. apply (Ho o Hin Hk). destruct He as [_ <-]. by rewrite Ht.
Qed.

Lemma walAppend_safe r d : gsafe (walAppend r d).
Proof.
  intros e. unfold walAppend, log_append, encode_error. repeat case_match; simplify_eq; done.
Qed.
Lemma commitTxn_safe id ops : gsafe (Tx.commitTxn id ops).
Proof.
  unfold Tx.commitTxn. apply gsafe_bind; [done|]. intros e. apply gsafe_lift_bind.
  { induction ops as [|o ops IH]; simpl; [done|]. apply safe_bind; [unfold Tx.opRecord; by case_match|]. intros r _.
    by apply safe_bind. }
  intros rs _. apply gsafe_bind; [apply gsafe_foreach; intros rd _; apply walAppend_safe|]. intros _.
  apply gsafe_bind; [|intros _; apply noteWrite_safe]. apply gsafe_foreach. intros o _ e1.
  unfold Tx.applyOp, applyPut, applyDelete. by repeat case_match.
Qed.

Lemma commit_over_ok e0 v x e :
  env_ok e0 v → wide e0 e → txn_shaped e0 x →
  safe (commit_over v (x, e)).2 ∧ wide e0 (commit_over v (x, e)).1.2.
Proof.
  intros (Hc & _ & Hw) He [Ho Hx]. unfold commit_over. unfold gbind at 1 4, gget. cbn [fst snd]. rewrite Hx.
  pose proof (validate_over_safe e0 (acts_run (en_cat v) e) (λ n, acts_run (en_tab v n) e) x (acts_wide _ _ _ Hc He) Ho) as Hs.
  unfold gbind, glift, on_txn. destruct (validate_over _ _ _) as [[]|err]; [|split; [by intros [= ->]|exact He]].
  case_bool_decide; [done|]. unfold on_engine. cbn [fst snd].
  pose proof (wide_commitTxn e0 (x_id x) (x_ops x) Ho _ (acts_wide _ _ _ Hw He)) as Hk.
  pose proof (commitTxn_safe (x_id x) (x_ops x) (acts_run (en_write v) e)) as Hcs.
  by destruct (Tx.commitTxn _ _ _).
Qed.

(** The names of the tables decide whether a derived table is named like one. *)
Lemma everywhere_impl (P P' : Select → Prop) q : (∀ q, P q → P' q) → everywhere P q → everywhere P' q.
Proof. intros HP. induction 1 as [q Hq _ IH]. by constructor; [apply HP|]. Qed.

Lemma over_fresh {S} `{!Accessor S, !Hosted S} (R : ReadSpec S) (stmt : Statement) (s : S) (envs : list env) :
  derived_fresh stmt s →
  ∀ q, q ∈ stmt_subs stmt → everywhere (λ q, ∀ a, a ∈ derived_aliases q → over_view (s, envs) !! a = None) q.
Proof.
  intros Hf q Hq. eapply everywhere_impl; [|by apply Hf]. simpl. intros q' H a Ha.
  unfold over_view. rewrite map_lookup_imap. cbn [fst]. by rewrite (H a Ha).
Qed.

(** A statement, in any state that holds the engine. *)
Lemma ExecStmt_over {S : Type} `{!Accessor S, !Hosted S, !QuietWrites S} (R : ReadSpec S) {Q : Quoter} (ok : act → Prop)
    (eng : GoM Engine Result → GoM (S * list env) Result) (now : Value) (src : string) (stmt : Statement) (s : S)
    (envs : list env) :
  (∀ l s, Forall ok l → acc_inv s → acc_inv (hosted (acts_run l) s)) →
  (∀ l s n, Forall ok l → acc_inv s → fst <$> acc_view (hosted (acts_run l) s) !! n = fst <$> acc_view s !! n) →
  (∀ s, acc_inv s → rows_complete s) → writes_keep acc_inv → (∀ m, gsafe m → gsafe (eng m)) →
  Parse src = Ok stmt → acc_inv s → envs_ok ok envs → derived_fresh stmt s →
  let '(s', q) := ExecStmt eng now stmt (s, envs) in safe q ∧ (is_ddl stmt = false → acc_inv s'.1).
Proof.
  intros Hinv Hcols Hrows Hw Heng Hp Hs He Hf.
  pose proof (@ExecStmt_safe _ _ (over_reads ok Hinv Hcols) _ _ eng now src stmt (s, envs) Heng Hp (conj Hs He)
    (over_complete ok Hinv Hcols (s, envs) Hrows Hs He) (over_fresh R stmt s envs Hf)) as Hsafe.
  assert (is_ddl stmt = false → keeps (λ s : S * list env, acc_inv s.1 ∧ envs_ok ok s.2) (ExecStmt eng now stmt)) as Hk.
  { intros Hd. apply keeps_ExecStmt; [by apply over_writes|by intros m; rewrite Hd]. }
  destruct (ExecStmt eng now stmt (s, envs)) as [s' q] eqn:Eq. split; [exact Hsafe|].
  intros Hd. specialize (Hk Hd (s, envs) (conj Hs He)). rewrite Eq in Hk. apply Hk.
Qed.

(** C14: The panics do not come back when messages overlap in time.  Take tables
    whose rows have their width and a connection whose buffer, if it is in a
    transaction, fits them, and let the storage calls of other connections (writes,
    reserved ids, commits, checkpoints, but no DDL) happen between the storage calls
    of the connection's message, where between two writes of its own the statement
    reads each table as of one moment (different tables as of different moments).
    Then a statement the parser accepts, if no derived table of it has the name of a
    stored one, and a COMMIT, end in a result or an error and not in a panic, and
    leave tables and a buffer of the same kind, so that the same holds of the next
    message. *)
Theorem overlap_no_panic {Q : Quoter} (e0 : Engine) (now : Value) (src : string) (stmt : Statement) (st : Srv) (envs : list env) :
  wide e0 st.1 → conn_shaped e0 st.2 → Forall (env_ok e0) envs → Parse src = Ok stmt → conn_fresh stmt st →
  (let '(st', q) := execute_over now stmt st envs in
    q ≠ Err panicRow ∧ (is_ddl stmt = false → wide e0 st'.1 ∧ conn_shaped e0 st'.2)) ∧
  ∀ x v, c_txn st.2 = Some x → env_ok e0 v →
    (commit_over v (x, st.1)).2 ≠ Err panicRow ∧ wide e0 (commit_over v (x, st.1)).1.2.
Proof.
  intros He Hx Hv Hp Hf. unfold conn_shaped, conn_fresh, execute_over in *. destruct (c_txn st.2) as [x|] eqn:Ex; cycle 1.
  - split; [|done]. pose proof (ExecStmt_over (wide_reads e0) (act_ok e0) on_base now src stmt st.1 envs
      (engine_others_inv e0) (engine_others_cols e0) (wide_complete e0) (wide_engine_writes e0) on_base_safe Hp He Hv Hf) as H.
    destruct (ExecStmt _ _ _ _) as [[e' envs'] q]. destruct H as [H1 H2]. split; [exact H1|]. cbn [fst snd].
    rewrite Ex. intros Hd. split; [exact (H2 Hd)|exact I].
  - split; [|intros y v [= <-] Hok; by apply commit_over_ok].
    pose proof (ExecStmt_over (wide_txn_reads e0) (act_ok e0) (λ m, on_base (on_engine m)) now src stmt (x, st.1) envs
      (txn_others_inv e0) (txn_others_cols e0) (wide_txn_complete e0) (wide_txn_writes e0)
      (λ m Hm, on_base_safe _ (on_engine_safe m Hm)) Hp (conj He Hx) Hv Hf) as H.
    destruct (ExecStmt _ _ _ _) as [[[x' e'] envs'] q]. destruct H as [H1 H2]. split; [exact H1|].
    intros Hd. apply (H2 Hd).
Qed.
