(* ===== verification/NetDemo.v ===== *)
(** * Runs of the server with several connections

    Instances of the theorems of [Net], [NoPanic] and [Overlap] on the database of [ExecDemo],
    and what goes wrong outside their hypotheses: DDL under another connection's
    transaction, and messages that overlap in time. *)
From S2P Require Import Prelude Bytes GoStd Types Schema Wal Table Engine Txn Accessor Ast Lexer Parser.
From S2P Require Import Eval Exec ExecDemo Select Safety SelectDemo Protocol Server ServerDemo NoPanic Net Overlap.

Open Scope go_scope.

(** ** Two connections, one in a transaction *)
Definition idle : connState := MkConn None [].

(** A message of connection [i]. *)
Definition deliver (i : nat) (sql : string) (n : Net) : Net :=
  match n.2 !! i with
  | Some c => let st := dispatch Parse VNull (query sql) (n.1, c) in (st.1, <[i := st.2]> n.2)
  | None => n
  end.

Definition opened : Net := (blog, <[1 := idle]> (<[0 := idle]> ∅)).
Definition in_txn : Net := deliver 0 "BEGIN" opened.
Definition added : Net := deliver 1 ADD in_txn.

Lemma blog_net_ok : net_ok (blog, ∅).
Proof.
  split; [exact (proj1 (proj1 (cat_ok_split blog) blog_inv))|].
  intros i c H. simpl in H. by rewrite lookup_empty in H.
Qed.

(** A message is a calm step if it is no DDL. *)
Lemma deliver_step i sql stmt n c :
  n.2 !! i = Some c → conn_counters (n.1, c) → Parse sql = Ok stmt → is_ddl stmt = false →
  calm_step Parse n (deliver i sql n).
Proof.
  intros Hi Hct Hp Hd. unfold deliver. rewrite Hi. destruct n as [e cs]. simpl in *.
  eapply (calm_message _ _ _ _ c (query sql) VNull); [done|done| |by rewrite <-surjective_pairing].
  intros (_ & stmt' & Hp' & Hd'). simpl in Hp'. congruence.
Qed.

Lemma in_txn_cat : e_cat in_txn.1 = e_cat blog.
Proof. vm_compute. reflexivity. Qed.
Lemma in_txn_conns : ∃ c0 x, in_txn.2 !! 0 = Some c0 ∧ c_txn c0 = Some x ∧ x_ops x = [] ∧ in_txn.2 !! 1 = Some idle.
Proof.
  destruct (in_txn.2 !! 0) as [c0|] eqn:E; [|vm_compute in E; discriminate E].
  assert (c_txn <$> in_txn.2 !! 0 = Some (Some (MkTxn 6 false [] ∅))) as H by (vm_compute; reflexivity).
  rewrite E in H. simpl in H. injection H as H. eexists c0, _.
  split; [reflexivity|]. split; [exact H|]. split; [reflexivity|]. vm_compute. reflexivity.
Qed.

Lemma counters_cat e e' : e_cat e' = e_cat e → counters_ok e → counters_ok e'.
Proof. unfold e_tables. intros Hc [H1 H2 H3 H4]. split; unfold e_tables in *; by rewrite Hc. Qed.
Lemma blog_counters : counters_ok blog.
Proof. exact (proj2 (proj1 (cat_ok_split blog) blog_inv)). Qed.

Lemma in_txn_run : rtc (calm_step Parse) (blog, ∅) in_txn.
Proof.
  eapply rtc_l; [apply (calm_accept _ blog ∅ 0), lookup_empty|].
  eapply rtc_l; [apply (calm_accept _ blog (<[0 := MkConn None []]> ∅) 1); reflexivity|].
  apply rtc_once. apply (deliver_step 0 "BEGIN" BeginS opened idle); [reflexivity| |vm_compute; reflexivity|reflexivity].
  split; [exact blog_counters|exact I].
Qed.
Lemma added_run : rtc (calm_step Parse) (blog, ∅) added.
Proof.
  eapply rtc_r; [exact in_txn_run|]. destruct in_txn_conns as (c0 & x & _ & _ & _ & H1).
  eapply (deliver_step 1 ADD _ in_txn idle); [exact H1| |vm_compute; reflexivity|reflexivity].
  split; [exact (counters_cat _ _ in_txn_cat blog_counters)|exact I].
Qed.

Lemma reachable_ok_witness :
  Engine.Get "users" 3 added.1 = Some [VInt 3; VText "c"] ∧
  ∀ t, e_tables added.1 !! "users" = Some t → rows_unique (t_cols t) (t_rows t).
Proof.
  split; [vm_compute; reflexivity|]. intros t Ht.
  exact (proj1 (proj2 (proj1 (reachable_ok Parse (blog, ∅) added blog_net_ok added_run) "users" t Ht))).
Defined.

(** A query with a join, a derived table, a subquery and groups, in the open
    transaction. *)
Lemma no_panic_witness :
  ∃ c, in_txn.2 !! 0 = Some c ∧ c_txn c ≠ None ∧ (execute VNull (SelectS q_authors) (in_txn.1, c)).2 ≠ Err panicRow.
Proof.
  destruct in_txn_conns as (c & x & Hc & Hx & Hops & _). exists c. split; [exact Hc|].
  split; [rewrite Hx; discriminate|].
  refine (proj1 (no_panic (blog, ∅) in_txn 0 c VNull q_authors_src (SelectS q_authors)
    blog_net_ok in_txn_run Hc _ (proj1 q_authors_result) _)).
  - split; [exact (counters_cat _ _ in_txn_cat blog_counters)|]. cbn [snd]. rewrite Hx. unfold ids_small.
    rewrite Hops. constructor.
  - unfold conn_fresh. cbn [snd fst]. rewrite Hx.
    assert (acc_view (x, in_txn.1) = acc_view blog) as Hv.
    { change (view (x, in_txn.1) = abs blog). rewrite view_nil by exact Hops. unfold abs. by rewrite in_txn_cat. }
    intros q Hq. rewrite Hv. assert (acc_view blog !! "p" = None) as Hp by (vm_compute; reflexivity).
    cbn in Hq. apply list_elem_of_singleton in Hq as ->. split.
    + intros a Ha. cbn in Ha. apply list_elem_of_singleton in Ha as ->. exact Hp.
    + intros q' Hq'. cbn in Hq'. apply elem_of_cons in Hq' as [->|Hq'];
        [|apply list_elem_of_singleton in Hq' as ->];
        (split; intros y Hy; exfalso; cbn in Hy; exact (not_elem_of_nil y Hy)).
Defined.

(** ** DDL while another connection is in a transaction *)
Definition txn_open : Net := deliver 0 "INSERT INTO posts VALUES (5, 1)" in_txn.
Definition commit_of (n : Net) : option (res unit) :=
  c ← n.2 !! 0; x ← c_txn c; Some (Tx.Commit (x, n.1)).2.

(** The table of a buffered row is dropped and created again with a UNIQUE column
    the row does not have: COMMIT indexes the row outside its cells and the server
    process ends. *)
Example ddl_under_transaction_panics :
  commit_of (deliver 1 "CREATE TABLE posts (id INT PRIMARY KEY, author INT, tag TEXT UNIQUE)"
    (deliver 1 "DROP TABLE posts" txn_open)) = Some (Err panicIndex).
Proof. vm_compute. reflexivity. Qed.

(** With a third column that is not UNIQUE the short row is committed, and every
    later query of that column panics. *)
Definition short_row : Net :=
  deliver 0 "COMMIT" (deliver 1 "CREATE TABLE posts (id INT PRIMARY KEY, author INT, tag TEXT)"
    (deliver 1 "DROP TABLE posts" txn_open)).
Definition q_tag : Select :=
  MkSelect [tref "posts"] [] [] false [ColRef "" "tag"] [""] None [] None [] None.

Example ddl_under_transaction_short_row :
  Engine.Get "posts" 5 short_row.1 = Some [VInt 5; VInt 1] ∧
  Parse "SELECT tag FROM posts" = Ok (SelectS q_tag) ∧
  (execute VNull (SelectS q_tag) (short_row.1, idle)).2 = Err panicRow.
Proof. vm_compute. split_and!; reflexivity. Qed.

(** ** Messages that overlap in time

    [Commit] validates the buffer and then, without holding the tables, hands it to
    [commitTxn].  Two transactions that both validate before either is applied
    both commit, with the same value in a UNIQUE column. *)
Definition buffer (id : Z) : Sess :=
  (Tx.Put "users" id [VInt id; VText "z"] (MkTxn id false [] ∅, blog)).1.

Example concurrent_commits_break_unique :
  let x1 := (buffer 7).1 in let x2 := (buffer 8).1 in
  Tx.validateCommit x1 blog = Ok tt ∧ Tx.validateCommit x2 blog = Ok tt ∧
  let '(e1, q1) := Tx.commitTxn (x_id x1) (x_ops x1) blog in
  let '(e2, q2) := Tx.commitTxn (x_id x2) (x_ops x2) e1 in
  q1 = Ok tt ∧ q2 = Ok tt ∧
  Engine.Get "users" 7 e2 = Some [VInt 7; VText "z"] ∧ Engine.Get "users" 8 e2 = Some [VInt 8; VText "z"].
Proof. vm_compute. split_and!; reflexivity. Qed.

(** INSERT checks its foreign keys and then stores the row; DELETE checks for
    references and then deletes.  Between the check and the store of a post its
    author can go. *)
Example insert_and_delete_break_fk :
  checkFK (MkTableDef "posts" posts_cols) [VInt 2; VInt 2] blog = Ok tt ∧
  let '(e1, q1) := execDelete (execSelect VNull) VNull
      (MkDelete "users" (Some (Cmp "=" (ColRef "" "id") (Lit (VInt 2))))) blog in
  let '(e2, q2) := acc_Put "posts" 2 [VInt 2; VInt 2] e1 in
  q1 = Ok (MkResult [] [] 1) ∧ q2 = Ok 2%Z ∧
  Engine.Get "users" 2 e2 = None ∧ Engine.Get "posts" 2 e2 = Some [VInt 2; VInt 2].
Proof. vm_compute. split_and!; reflexivity. Qed.

(** The same with the storage calls of the others in between, as [Overlap] has them:
    what is stored is wrong, but no panic.  A post of user 2 arrives between the
    check and the write of a DELETE; and another transaction with the same UNIQUE
    value is applied between the validation of a COMMIT and its application. *)
Definition between : env := MkEnv [] (λ _, []) [act_put "posts" 0 5 [VInt 5; VInt 2] false].
Definition DELETE2 : string := "DELETE FROM users WHERE id = 2".
Definition delete2 : Statement := DeleteS (MkDelete "users" (Some (Cmp "=" (ColRef "" "id") (Lit (VInt 2))))).
Definition overtaken : env := MkEnv [] (λ _, []) [act_commit 8 (x_ops (buffer 8).1)].

Lemma blog_wide : wide blog blog.
Proof. exact (tables_ok_wide blog (proj1 (proj1 (cat_ok_split blog) blog_inv))). Qed.
Lemma blog_cols : (λ t, length (t_cols t)) <$> e_tables blog !! "users" = Some 2.
Proof. vm_compute. reflexivity. Qed.
Lemma user_shaped ops : ops = [MkOp opPut "users" 7 [VInt 7; VText "z"]] ∨ ops = [MkOp opPut "users" 8 [VInt 8; VText "z"]] →
  Forall (op_shaped blog) ops.
Proof.
  assert (∀ cols, t_cols <$> e_tables blog !! "users" = Some cols → 2 = length cols) as H.
  { pose proof blog_cols as Hb. intros cols Hc. destruct (e_tables blog !! "users"); [|discriminate Hc].
    injection Hc as <-. by injection Hb. }
  intros [-> | ->]; (constructor; [|constructor]); intros _; exact H.
Qed.

(** The run of the DELETE, and of the COMMIT of a buffer [x]. *)
Definition deleted : Srv * res Result := execute_over VNull delete2 (blog, idle) [between].
Definition committed_over : Sess * res unit := commit_over overtaken ((buffer 7).1, blog).

Lemma overlap_no_panic_witness :
  (deleted.2 = Ok (MkResult [] [] 1) ∧ wide blog deleted.1.1 ∧
    Engine.Get "users" 2 deleted.1.1 = None ∧ Engine.Get "posts" 5 deleted.1.1 = Some [VInt 5; VInt 2]) ∧
  (committed_over.2 = Ok tt ∧ wide blog committed_over.1.2 ∧
    Engine.Get "users" 7 committed_over.1.2 = Some [VInt 7; VText "z"] ∧
    Engine.Get "users" 8 committed_over.1.2 = Some [VInt 8; VText "z"]).
Proof.
  assert (∀ st : Srv, conn_fresh delete2 st) as Hfresh.
  { intros st. unfold conn_fresh. destruct (c_txn st.2); intros q Hq; exfalso; cbn in Hq; exact (not_elem_of_nil q Hq). }
  assert (Parse DELETE2 = Ok delete2) as Hp by (vm_compute; reflexivity).
  assert (∀ e x l v, wide e e → match x with Some x => txn_shaped e x | None => True end → Forall (env_ok e) l → env_ok e v →
    wide e (execute_over VNull delete2 (e, MkConn x []) l).1.1 ∧
    ∀ y, x = Some y → wide e (commit_over v (y, e)).1.2) as Hgen.
  { intros e x l v He Hx Hl Hv.
    destruct (overlap_no_panic e VNull DELETE2 delete2 (e, MkConn x []) l He Hx Hl Hp (Hfresh _)) as [H1 H2]. split.
    - destruct (execute_over _ _ _ _) as [st' q]. by apply H1.
    - intros y Hy. by apply H2. }
  assert (env_ok blog between) as Hb by (split_and!; [constructor|intros n; constructor|constructor; [exact I|constructor]]).
  assert (env_ok blog overtaken) as Ho.
  { split_and!; [constructor|intros n; constructor|constructor; [|constructor]].
    apply user_shaped. right. vm_compute. reflexivity. }
  split.
  - split; [vm_compute; reflexivity|]. split; [|vm_compute; split; reflexivity].
    exact (proj1 (Hgen blog None [between] between blog_wide I (Forall_cons_2 _ _ _ Hb (Forall_nil_2 _)) Hb)).
  - split; [vm_compute; reflexivity|]. split; [|vm_compute; split; reflexivity].
    refine (proj2 (Hgen blog (Some (buffer 7).1) [] overtaken blog_wide _ (Forall_nil_2 _) Ho) _ eq_refl).
    split; [apply user_shaped; left; vm_compute; reflexivity|vm_compute; reflexivity].
Defined.
