(* ===== verification/Durable.v ===== *)
(** * What a restart of the server finds

    [Recovery] is about runs of engine commands and transactions; here the runs are
    those of the whole server: connections that come and go, messages that are
    parsed and executed, background checkpoints, restarts.  The executor is proved
    to keep the recovery invariant through the [metered_spec] of its two accessors:
    each write takes one transaction id and leaves a log from which the tables can
    be recovered, so a whole statement does, also when it stops with an error. *)
From S2P Require Import Prelude GoStd Types Schema Wal Table Engine Txn Recovery Accessor Ast Lexer Parser.
From S2P Require Import Eval Exec Select Safety Protocol Server NoPanic Net.

Open Scope go_scope.

(** ** The transaction counter

    Every command that logs takes one id. *)
Lemma auto_txSeq {A} (f : Z → WalRecord) (k : GoM Engine A) e :
  (∀ tx, encode_error (f tx) = None) → (∀ e1, e_txSeq (k e1).1 = e_txSeq e1) →
  (0 ≤ e_txSeq e)%Z → tx_room e →
  e_txSeq (gbind (txn (λ tx, walAppend (f tx) false)) (λ _, k) e).1 = (e_txSeq e + 1)%Z.
Proof.
  intros Henc Hk H0 Hr. unfold tx_room in Hr. destruct (gbind _ _ e) as [e' q] eqn:Eq.
  apply txn_then in Eq; [|done]. rewrite wrapu64_id in Eq by lia.
  destruct Eq as [(e1 & _ & <- & Hk1)|(_ & _ & <-)]; [|done]. specialize (Hk e1). by rewrite Hk1 in Hk.
Qed.

Definition takes_one (m : Engine → Engine) : Prop :=
  ∀ e, (0 ≤ e_txSeq e)%Z → tx_room e → (e_txSeq (m e) ≤ e_txSeq e + 1)%Z.

Lemma put_takes_one n pk id r must : takes_one (λ e, (put n pk id r must e).1).
Proof.
  intros e H0 Hr. unfold put. destruct (bool_decide (id < 0)%Z); [simpl; lia|].
  destruct (must && _); [simpl; lia|]. destruct (e_tables e !! n) as [t|]; [|simpl; lia].
  destruct (bool_decide (length r ≠ _)); [simpl; lia|].
  destruct (reserveID id must t) as [[id' t1]|err]; [|simpl; lia]. cbv zeta.
  destruct (existsb _ _); [simpl; lia|]. rewrite auto_txSeq; [simpl; lia|done| |done|done].
  intros e1. unfold gbind, gret. cbn [gmodify].
  destruct (noteWrite_frame (upd_table n (storeRow id' (stamp pk id' r)) e1)) as (_ & _ & _ & Htx & Hq).
  destruct (noteWrite _) as [e4 q4]. simpl in *. by subst q4.
Qed.

Lemma Delete_takes_one n id : takes_one (λ e, (Engine.Delete n id e).1).
Proof.
  intros e H0 Hr. unfold Engine.Delete. destruct (e_tables e !! n) as [t|]; [|simpl; lia].
  destruct (t_rows t !! id); [|simpl; lia]. rewrite auto_txSeq; [lia|done| |done|done].
  intros e1. unfold gbind. cbn [gmodify]. by destruct (noteWrite_frame (upd_table n (eraseRow id) e1)) as (_ & _ & _ & Htx & _).
Qed.

(** ** The engine: autocommit *)
Definition engine_meter (opn : gset Z) (k : Z) (e : Engine) : Prop :=
  (e_txSeq e + k < 2 ^ 64)%Z ∧ durable e opn ∧ no_sync_err e.

Lemma put_metered opn n pk id r must k e :
  cat_ok (e_cat e) → engine_room k e → engine_meter opn k e → (0 < k)%Z → (id + k < int64_max)%Z →
  engine_meter opn (k - 1) (put n pk id r must e).1.
Proof.
  intros Hok Hr (Htx & Hdu & Hns) Hk Hid. assert (tx_room e) as Ht by (unfold tx_room; lia).
  split; [|by apply put_durable, Hok; [..|by eapply engine_room_cmd]].
  pose proof (put_takes_one n pk id r must e (du_seq _ _ Hdu) Ht). simpl in *. lia.
Qed.

Lemma engine_metered opn : metered (engine_meter opn).
Proof.
  split.
  - intros k k' e (Htx & Hd) Hk. split; [lia|done].
  - intros n id r k e Hok Hr HD Hk H0 Hid. by apply put_metered.
  - intros n pk r k e Hok Hr HD Hk Hpk. apply put_metered; [done..|lia|lia].
  - intros n id r k e Hok Hr HD Hk H0 Hid. simpl. unfold Engine.Update. rewrite (gbind_ret_state _ (λ _, tt)).
    by apply put_metered.
  - intros n id k e Hok (Htx & Hdu & Hns) Hk. assert (tx_room e) as Ht by (unfold tx_room; lia).
    split; [|by apply delete_durable]. pose proof (Delete_takes_one n id e (du_seq _ _ Hdu) Ht). simpl in *. lia.
Qed.

Definition logged_engine (opn : gset Z) : AccessorSpec Engine := metered_spec _ (engine_metered opn).

(** ** A transaction: nothing of it is logged before COMMIT *)
Definition txn_meter (opn : gset Z) (id k : Z) (s : Sess) : Prop :=
  durable s.2 opn ∧ no_sync_err s.2 ∧ x_id s.1 = id.

Lemma may_reserve_durable n k opn e e' :
  cat_ok (e_cat e) → engine_room k e → (0 < k)%Z → may_reserve n e e' →
  durable e opn → no_sync_err e → durable e' opn ∧ no_sync_err e'.
Proof.
  intros Hok [_ Hr] Hk [->| ->]; [done|]. apply ReserveID_durable; [done|].
  intros t Ht. specialize (Hr _ _ Ht). lia.
Qed.

Lemma txn_metered opn id0 : metered (txn_meter opn id0).
Proof.
  split.
  - by intros k k' s HD _.
  - intros n id r k [x e] [Hok Hx] Hr (Hdu & Hns & Hid) Hk H0 Hb. pose proof (session_room_of k x e Hr Hk) as Hsr.
    destruct (Tx_Put_writes n id r x e Hok Hx Hsr ltac:(lia)) as (_ & [_ _ _ Hi] & _).
    destruct (may_reserve_durable n k opn e _ (to_cat _ Hok) Hr Hk (Tx_Put_engine n id r (x, e)) Hdu Hns).
    split; [done|]. split; [done|]. exact (eq_trans Hi Hid).
  - intros n pk r k [x e] [Hok Hx] Hr (Hdu & Hns & Hid) Hk Hpk. pose proof (session_room_of k x e Hr ltac:(lia)) as Hsr.
    destruct (Tx_PutAuto_writes n pk r x e Hok Hx Hsr Hpk) as (_ & [_ _ _ Hi] & _).
    destruct (may_reserve_durable n k opn e _ (to_cat _ Hok) Hr ltac:(lia) (Tx_PutAuto_engine n pk r (x, e)) Hdu Hns).
    split; [done|]. split; [done|]. exact (eq_trans Hi Hid).
  - intros n id r k [x e] [Hok Hx] Hr HD Hk H0 Hb.
    destruct (Tx_Update_writes n id r x e Hok Hx ltac:(lia)) as (_ & [_ _ _ Hi] & _).
    unfold txn_meter in *. cbn [acc_Update txn_accessor]. rewrite (still_Update n id r (x, e)), Hi. exact HD.
  - intros n id k [x e] [Hok Hx] HD Hk.
    destruct (Tx_Delete_writes n id x e Hok Hx) as (_ & [_ _ _ Hi] & _).
    unfold txn_meter in *. cbn [acc_Delete txn_accessor]. rewrite (still_Delete n id (x, e)), Hi. exact HD.
Qed.

Definition logged_txn (opn : gset Z) (id : Z) : AccessorSpec Sess := metered_spec _ (txn_metered opn id).

(** ** Statements

    What a statement needs so that no counter wraps around in the middle of it:
    room for the writes it can make. *)
Section statements.
  Context {S : Type} `{!Accessor S, !ReadSpec S, !AccessorSpec S} {Q : Quoter}.

Definition delete_ready (st : DeleteStmt) (k : Z) (s : S) : Prop :=
  acc_inv s ∧ acc_room k s ∧
  ∀ cols rows, acc_view s !! de_Table st = Some (cols, rows) → (Z.of_nat (size rows) ≤ k)%Z.

Definition stmt_ready (now : Value) (stmt : Statement) (k : Z) (s : S) : Prop :=
  match stmt with
  | InsertS st => insert_ready now st k s
  | UpdateS st => update_ready now st k s
  | DeleteS st => delete_ready st k s
  | CreateTableS _ _ | DropTableS _ _ | BeginS => (1 ≤ k)%Z ∧ acc_inv s ∧ acc_room k s
  | SelectS _ | CommitS | RollbackS => acc_inv s ∧ acc_room k s
  end.

Lemma deleteAll_room tbl cs k s s' q :
  acc_inv s → acc_room k s → (Z.of_nat (length cs) ≤ k)%Z →
  gforeach (deleteOne tbl) cs s = (s', q) → acc_inv s' ∧ acc_room (k - Z.of_nat (length cs)) s'.
Proof.
  revert k s. induction cs as [|c cs IH]; intros k s Hi Hr Hk H; simpl in H.
  { unfold gret in H. simplify_eq. split; [done|]. eapply acc_room_mono; [done|simpl; lia]. }
  cbn [length] in *. unfold gbind in H. destruct (deleteOne tbl c s) as [s1 q1] eqn:E1.
  assert (acc_inv s1 ∧ acc_room (k - 1) s1) as [Hi1 Hr1].
  { unfold deleteOne, gbind, gget, glift in E1. destruct (fkReferenced _ _ _ _ s) as [[]|err].
    - destruct (acc_Delete_spec _ _ _ _ _ Hi E1) as (H1 & H2 & _). split; [done|]. apply H2; [done|lia].
    - simplify_eq. split; [done|]. eapply acc_room_mono; [done|lia]. }
  destruct q1 as [[]|err].
  - replace (k - Z.of_nat (Datatypes.S (length cs)))%Z with (k - 1 - Z.of_nat (length cs))%Z by lia.
    apply (IH (k - 1)%Z s1); [done|done|lia|done].
  - simplify_eq. split; [done|]. eapply acc_room_mono; [exact Hr1|lia].
Qed.

Lemma execDelete_room sel now st k s s' q :
  delete_ready st k s → execDelete sel now st s = (s', q) →
  acc_inv s' ∧ ∃ j, (0 ≤ k → 0 ≤ j)%Z ∧ acc_room j s'.
Proof.
  intros (Hi & Hr & Hk) H. unfold execDelete, gbind, gget, glift, gret in H.
  destruct (tableDef (de_Table st) s) as [def|err] eqn:Ed; [|by simplify_eq; eauto].
  destruct (prepareWhere sel _ (de_Where st) s) as [w|err]; [|by simplify_eq; eauto].
  destruct (collectCandidates now (de_Table st) def _ w s) as [cs|err] eqn:Ec; [|by simplify_eq; eauto].
  destruct (tableDef_view _ _ _ Hi Ed) as (_ & rows & Hv).
  destruct (collectCandidates_stored _ _ _ _ _ _ _ _ _ Hi Hv Ec) as [Hl _]. specialize (Hk _ _ Hv).
  destruct (gforeach (deleteOne (de_Table st)) cs s) as [s1 q1] eqn:E1.
  destruct (deleteAll_room _ cs k _ _ _ Hi Hr ltac:(lia) E1) as [Hi1 Hr1].
  assert (s1 = s') as -> by (destruct q1 as [[]|err]; by simplify_eq). split; [done|].
  eexists. split; [|exact Hr1]. lia.
Qed.

(** A statement that writes rows keeps the invariant and uses no more room than it
    was given. *)
Lemma ExecStmt_room eng now stmt k s s' q :
  is_ddl stmt = false → (0 ≤ k)%Z → stmt_ready now stmt k s → ExecStmt eng now stmt s = (s', q) →
  acc_inv s' ∧ ∃ j, (0 ≤ j)%Z ∧ acc_room j s'.
Proof.
  intros Hd Hk Hr H. destruct stmt as [n cols|n b|st|sl|st|st| | |]; try done; simpl in H, Hr.
  - pose proof (ir_rows _ _ _ _ Hr). destruct (execInsert_inv (λ _, True) now st k s s' q) as [[Hi Hr'] _]; [done..|].
    split; [done|]. eexists. split; [|exact Hr']. lia.
  - injection H as <- _. destruct Hr. eauto.
  - destruct (execUpdate_inv (λ _, True) (execSelect now) now st k s s' q) as [[Hi (j & Hj & Hr')] _]; [done..|]. eauto.
  - destruct (execDelete_room _ _ _ _ _ _ _ Hr H) as (Hi & j & Hj & Hr'). eauto.
  - injection H as <- _. destruct Hr as (? & ? & ?). eauto.
  - injection H as <- _. destruct Hr. eauto.
  - injection H as <- _. destruct Hr. eauto.
Qed.
End statements.

(** The room of the metered accessors. *)
Lemma stmt_ready_metered {S} `{!Accessor S, !ReadSpec S, !AccessorSpec S} (D : Z → S → Prop) (M : metered D) now stmt k s :
  stmt_ready now stmt k s → D k s → @stmt_ready _ _ _ (metered_spec D M) now stmt k s.
Proof.
  intros Hr HD. destruct stmt as [n cols|n b|st|sl|st|st| | |]; simpl in *; try (naive_solver).
  - destruct Hr as [H1 H2 H3 H4]. by split.
  - destruct Hr as [H1 H2 H3 H4]. by split.
  - destruct Hr as (H1 & H2 & H3). by split.
Qed.

(** ** One message

    [opn] holds the ids of the transactions that have begun and may still commit. *)
Definition owned (c : connState) (id : Z) : Prop := ∃ x, c_txn c = Some x ∧ x_id x = id.

Definition conn_logged (opn : gset Z) (st : Srv) : Prop :=
  ∀ x, c_txn st.2 = Some x → txn_ok (x, st.1) ∧ x_done x = false ∧ x_id x ∈ opn.

Record logged (st : Srv) (opn : gset Z) (st' : Srv) (opn' : gset Z) : Prop := {
  lg_inv : sys_inv (st'.1, opn');
  lg_conn : conn_logged opn' st';
  lg_fresh : ∀ id, owned st'.2 id → owned st.2 id ∨ id ∉ opn;
  lg_others : ∀ id, id ∈ opn → ¬ owned st.2 id → id ∈ opn' }.

Lemma logged_idle (st : Srv) opn (st' : Srv) opn' :
  sys_inv (st'.1, opn') → c_txn st'.2 = None → (∀ id, id ∈ opn → ¬ owned st.2 id → id ∈ opn') →
  logged st opn st' opn'.
Proof.
  intros Hi Hn Ho. split; [done| | |done].
  - intros x Hx. congruence.
  - intros id (x & Hx & _). congruence.
Qed.
Lemma logged_fail (st : Srv) opn code text (st1 : Srv) opn' :
  sys_inv (st1.1, opn') → (∀ id, id ∈ opn → ¬ owned st.2 id → id ∈ opn') →
  logged st opn (fail code text st1) opn'.
Proof.
  intros Hi Ho. destruct (fail_spec code text st1) as (He & Hx & _). apply logged_idle; [by rewrite He|done|done].
Qed.
Lemma logged_failWith (st : Srv) opn err code text (st1 : Srv) opn' :
  sys_inv (st1.1, opn') → (∀ id, id ∈ opn → ¬ owned st.2 id → id ∈ opn') →
  logged st opn (failWith err code text st1) opn'.
Proof.
  intros Hi Ho. destruct (failWith_spec err code text st1) as (He & Hx & _). apply logged_idle; [by rewrite He|done|done].
Qed.
Lemma logged_ready (st : Srv) opn m (st1 : Srv) opn' :
  logged st opn st1 opn' → logged st opn (ready (send m st1)) opn'.
Proof.
  intros [H1 H2 H3 H4]. destruct (ready_spec m st1) as (He & Hx & _).
  split; unfold conn_logged, owned in *; rewrite ?He, ?Hx; done.
Qed.
Lemma logged_refl (st : Srv) opn : sys_inv (st.1, opn) → conn_logged opn st → logged st opn st opn.
Proof. intros Hi Hc. split; [done|done|by left|done]. Qed.

Section message.
  Context {Q : Quoter} (parse : string → res Statement) (now : Value).

(** Room for the writes of a statement in the accessor of its connection. *)
Definition stmt_budget (stmt : Statement) (st : Srv) : Prop :=
  ∃ k, (0 ≤ k)%Z ∧
    match c_txn st.2 with
    | None => stmt_ready now stmt k st.1 ∧ (e_txSeq st.1 + k < 2 ^ 64)%Z
    | Some x => stmt_ready now stmt k (x, st.1)
    end.

Definition msg_budget (msg : Message) (st : Srv) : Prop :=
  m_Type msg = "query" → ∀ stmt, parse (m_SQL msg) = Ok stmt → stmt_budget stmt st.

Lemma execute_ddl stmt e opn k :
  is_ddl stmt = true → sys_inv (e, opn) → stmt_ready now stmt k e → (e_txSeq e + k < 2 ^ 64)%Z →
  sys_inv ((ExecStmt (λ m, m) now stmt e).1, opn).
Proof.
  intros Hd Hi Hr Htx.
  assert (∀ c, is_checkpoint c = false → match c with CPut _ _ _ _ _ => False | _ => True end →
    stmt_ready now stmt k e → sys_inv ((run c e).1, opn)) as Hrun.
  { intros c Hc Hp Hk. apply (sys_step_inv (e, opn)); [|done].
    assert ((1 ≤ k)%Z ∧ engine_room k e) as [Hk1 Hrm] by (destruct stmt; try done; by destruct Hk as (? & _ & ?)).
    apply SS_cmd; [done| |unfold tx_room; lia]. eapply (engine_room_cmd _ k); [done|lia|by destruct c]. }
  destruct stmt as [n cols|n b| | | | | | |]; try done; simpl.
  - unfold execCreate, gbind at 1, gget. cbn [glift gbind]. unfold gbind at 1, glift.
    destruct (createColumns n cols e) as [cs|]; [|done].
    pose proof (Hrun (CCreate n cs) eq_refl I Hr) as H. simpl in H. rewrite (gbind_ret_state _ (λ _, 0%Z)) in H.
    unfold gbind, map_err. by destruct (CreateTable n cs e) as [e' [[]|err]].
  - pose proof (Hrun (CDrop n) eq_refl I Hr) as H. simpl in H. rewrite (gbind_ret_state _ (λ _, 0%Z)) in H.
    unfold execDrop. destruct (DropTable n e) as [e' [[]|err]]; [done|]. destruct err; try done. by destruct b.
Qed.

Lemma execute_logged stmt (st : Srv) opn :
  sys_inv (st.1, opn) → conn_logged opn st → (is_ddl stmt = true → c_txn st.2 = None) →
  stmt_budget stmt st → logged st opn (execute now stmt st).1 opn.
Proof.
  destruct st as [e c]. intros Hi Hc Hd (k & Hk & Hr). unfold execute, conn_logged in *. cbn [fst snd] in *.
  pose proof Hi as (Hcat & Hdu & Hns). destruct (c_txn c) as [x|] eqn:Ex.
  - destruct (Hc x eq_refl) as (Hok & Hx & Hid).
    apply (stmt_ready_metered _ (txn_metered opn (x_id x))) in Hr; [|done].
    destruct (ExecStmt on_engine now stmt (x, e)) as [[x' e'] q] eqn:Eq.
    assert (is_ddl stmt = false) as Hnd by (destruct (is_ddl stmt); [by specialize (Hd eq_refl)|done]).
    destruct (@ExecStmt_room _ _ _ (logged_txn opn (x_id x)) _ on_engine now stmt k (x, e) (x', e') q Hnd Hk Hr Eq)
      as [[Hok' Hx'] (j & _ & _ & Hdu' & Hns' & Hid')]. cbn in Hok', Hx', Hdu', Hns', Hid'.
    split; cbn [fst snd]; [split; [exact (to_cat _ Hok')|done]| | |done].
    + intros y [= <-]. by rewrite Hid'.
    + intros id (y & [= <-] & <-). left. exists x. by rewrite Ex, Hid'.
  - destruct Hr as [Hr Htx]. destruct (ExecStmt (λ m, m) now stmt e) as [e' q] eqn:Eq.
    apply logged_idle; [|done|done]. cbn [fst snd]. destruct (is_ddl stmt) eqn:Eddl.
    + pose proof (execute_ddl stmt e opn k Eddl Hi Hr Htx) as H. by rewrite Eq in H.
    + apply (stmt_ready_metered _ (engine_metered opn)) in Hr; [|done].
      destruct (@ExecStmt_room _ _ _ (logged_engine opn) _ _ now stmt k e e' q Eddl Hk Hr Eq)
        as [Hcat' (j & _ & _ & _ & Hdu' & Hns')]. done.
Qed.

Lemma runQuery_logged sql (st : Srv) opn :
  sys_inv (st.1, opn) → conn_logged opn st → (∀ stmt, parse sql = Ok stmt → stmt_budget stmt st) →
  ∃ opn', logged st opn (runQuery parse now sql st) opn'.
Proof.
  intros Hi Hc Hb. unfold runQuery. destruct (parse sql) as [stmt|err]; [|eexists; by apply logged_fail].
  specialize (Hb stmt eq_refl).
  assert (∃ opn', logged st opn (if bool_decide (is_Some (c_txn st.2)) && is_ddl stmt then
       fail "25000" (AStr "DDL is not supported inside an explicit transaction in v1") st
     else match execute now stmt st with
          | (st', Err err) => failWith err (sqlstate err) (AErr err) st'
          | (st', Ok rs) => ready (send (reply rs) st')
          end) opn') as Hstmt.
  { destruct (_ && _) eqn:Eb; [eexists; by apply logged_fail|]. exists opn.
    assert (logged st opn (execute now stmt st).1 opn) as Hl.
    { apply execute_logged; [done..| |done]. intros Hd. rewrite Hd, andb_true_r in Eb.
      apply bool_decide_eq_false in Eb. by destruct (c_txn st.2); [destruct Eb|]. }
    destruct (execute now stmt st) as [st' [rs|err]]; [by apply logged_ready|].
    apply logged_failWith; [apply Hl|done]. }
  destruct stmt; try exact Hstmt; clear Hstmt.
  - destruct (c_txn st.2) as [x|] eqn:Ex; [eexists; by apply logged_ready, logged_refl|].
    destruct Hb as (k & _ & Hb). rewrite Ex in Hb. destruct Hb as [(Hk & _) Htx].
    pose proof Hi as (Hcat & Hdu & _). cbn [fst] in *.
    set (id := wrapu64 (e_txSeq st.1 + 1)). exists ({[id]} ∪ opn). simpl. apply logged_ready.
    assert (id ∉ opn) as Hfresh.
    { intros Hin. pose proof (du_opn _ _ Hdu _ Hin). pose proof (du_seq _ _ Hdu). unfold id in *.
      rewrite wrapu64_id in * by lia. lia. }
    split; cbn [fst snd].
    + apply (sys_step_inv (st.1, opn)); [|done].
      refine (SS_begin _ opn _ _ _ eq_refl). unfold tx_room. lia.
    + intros y [= <-]. simpl. split; [split; [exact Hcat|constructor]|]. split; [done|set_solver].
    + intros id' (y & [= <-] & <-). by right.
    + set_solver.
  - destruct (c_txn st.2) as [x|] eqn:Ex; [|eexists; by apply logged_fail].
    destruct (Hc x Ex) as (Hok & Hx & Hid). destruct (Tx.Commit (x, st.1)) as [[x' e'] q] eqn:Eq.
    exists (if x_done x' then opn ∖ {[x_id x]} else opn).
    assert (sys_inv (e', if x_done x' then opn ∖ {[x_id x]} else opn)) as Hi'.
    { apply (sys_step_inv (st.1, opn)); [|done]. by eapply SS_commit. }
    assert (∀ id, id ∈ opn → ¬ owned st.2 id → id ∈ if x_done x' then opn ∖ {[x_id x]} else opn) as Ho.
    { intros id Hin Hno. destruct (x_done x'); [|done]. apply elem_of_difference. split; [done|].
      rewrite elem_of_singleton. intros ->. apply Hno. by exists x. }
    destruct q as [[]|err]; [by apply logged_ready, logged_idle|]. destruct err; by (apply logged_fail || apply logged_failWith).
  - destruct (c_txn st.2) as [x|] eqn:Ex; [|eexists; by apply logged_fail]. exists opn.
    apply logged_ready, logged_idle; [|done|done]. unfold set_txn. simpl. by rewrite rollback_engine.
Qed.

Lemma dispatch_logged msg (st : Srv) opn :
  sys_inv (st.1, opn) → conn_logged opn st → msg_budget msg st →
  ∃ opn', logged st opn (dispatch parse now msg st) opn'.
Proof.
  intros Hi Hc Hb. pose proof (logged_refl st opn Hi Hc) as Hr. unfold dispatch. case_bool_decide as Hq.
  { by apply runQuery_logged, Hb. }
  exists opn. repeat case_bool_decide; try (by apply logged_ready).
  unfold runDescribe. destruct (findDef _ _); by apply logged_ready.
Qed.
End message.

(** ** The whole server, over restarts *)
Lemma txn_ok_cols x e e' : txn_ok (x, e) → same_cols e e' → cat_ok (e_cat e') → txn_ok (x, e').
Proof.
  intros [_ Ho] Hc Hok. split; [done|]. eapply Forall_impl; [exact Ho|]. intros o H Hk.
  destruct (H Hk) as [? Hl]. split; [done|]. intros t Ht. specialize (Hc (o_name o)). simpl in *. rewrite Ht in Hc.
  destruct (e_tables e !! o_name o) as [t0|] eqn:E0; [|done]. injection Hc as ->. by apply Hl.
Qed.

(** What the storage calls of the messages use. *)
Section life.
  Context {Q : Quoter} (parse : string → res Statement).

(** What opening finds: the log holds no record of a transaction that has not
    committed.  Only a failed log write leaves some behind. *)
Definition log_settled (e : Engine) : Prop := ∀ c p, recovered e = Ok (c, p) → p = ∅.

(** The steps of a server and its data directory: connections that come and go,
    their messages, background checkpoints, and the process ending between two
    messages, by [Close] or by a kill, and starting again.  The conditions:
    - a message finds the counters of transactions, tables and rows with room for
      what it uses ([msg_budget]), and one that is CREATE or DROP TABLE comes while
      no other connection is in a transaction;
    - a checkpoint, and the one of [Close], is safe ([ckpt_safe]): its I/O
      succeeds, the newest table has not been dropped, and pruning keeps it;
    - a kill comes while the log holds no record of an unfinished commit
      ([log_settled]; a failed log write leaves such records);
    - no fsync fails; opening meets no I/O error.
    Log writes may fail anywhere.  A message that panics is one after which the
    process is killed. *)
Inductive life_step : Net → Net → Prop :=
  | life_accept e cs i : cs !! i = None → life_step (e, cs) (e, <[i := MkConn None []]> cs)
  | life_message e cs i c msg now e' c' :
      cs !! i = Some c → msg_budget parse now msg (e, c) →
      (is_ddl_query parse msg → ∀ j cj, j ≠ i → cs !! j = Some cj → c_txn cj = None) →
      dispatch parse now msg (e, c) = (e', c') → life_step (e, cs) (e', <[i := c']> cs)
  | life_end e cs i c : cs !! i = Some c → life_step (e, cs) ((rollback (e, c)).1, delete i cs)
  | life_checkpoint e cs : ckpt_safe e → life_step (e, cs) ((backgroundCheckpoint e).1, cs)
  | life_kill e cs faults e' :
      log_settled e → IoSyncErr ∉ faults → openLog (e_disk e) (l_recs (e_wal e)) faults = Ok e' →
      life_step (e, cs) (e', ∅)
  | life_stop e cs faults e' :
      ckpt_safe e → IoSyncErr ∉ faults →
      openLog (e_disk (Close e).1) (l_recs (e_wal (Close e).1)) faults = Ok e' →
      life_step (e, cs) (e', ∅).

(** The invariant of the server and its directory. *)
Definition life_ok (n : Net) : Prop :=
  ∃ opn, sys_inv (n.1, opn) ∧
    (∀ i c, n.2 !! i = Some c → conn_logged opn (n.1, c)) ∧
    (∀ i j ci cj id, n.2 !! i = Some ci → n.2 !! j = Some cj → owned ci id → owned cj id → i = j).

(** The engine a new process starts with. *)
Lemma openLog_sys_inv e faults e' :
  cat_ok (e_cat e) → (∃ opn, durable e opn) → log_settled e → IoSyncErr ∉ faults →
  openLog (e_disk e) (l_recs (e_wal e)) faults = Ok e' → sys_inv (e', ∅) ∧ abs e' = abs e.
Proof.
  intros Hok (opn & [(c & p & Hr & Hs & _) _ _]) Hset Hf Ho. pose proof (Hset _ _ Hr) as ->.
  pose proof Hr as Hr0. unfold recovered, base in Hr. unfold openLog, rebuild in Ho. rewrite Hr in Ho. injection Ho as <-.
  split; [|exact (cat_sim_abs _ _ Hs)]. pose proof (cat_sim_ok _ _ Hs Hok) as Hok'.
  split; [exact Hok'|]. split; [|exact Hf]. split; [|set_solver|done]. exists c, ∅. split; [exact Hr0|].
  split; [by apply cat_sim_refl|]. intros tx [? Hx]. by rewrite lookup_empty in Hx.
Qed.

(** After [Close] the snapshot alone gives the tables. *)
Lemma Close_effect e :
  ckpt_safe e →
  let e' := (Close e).1 in
  e_cat e' = e_cat e ∧ l_recs (e_wal e') = [] ∧ LoadLatestSnapshot (e_disk e') = Some (takeSnapshot e) ∧
  e_disk e' = e_disk (Checkpoint e).1.
Proof.
  intros Hs. destruct (Checkpoint_effect e Hs) as (Hq & Hw & Hc & _ & _ & Hl).
  unfold Close, gbind. destruct (Checkpoint e) as [e1 q1]. simpl in *. subst q1.
  unfold walClose, log_close. cbn [e_wal pop_io set_io]. rewrite Hw. simpl.
  destruct (next_io e1), (next_io (pop_io e1)); simpl; by rewrite ?Hw.
Qed.

Lemma Close_durable e opn :
  sys_inv (e, opn) → ckpt_safe e → cat_ok (e_cat (Close e).1) ∧ durable (Close e).1 ∅ ∧ log_settled (Close e).1 ∧
    abs (Close e).1 = abs e.
Proof.
  intros (Hok & [_ H2 H3] & _) Hs. destruct (Close_effect e Hs) as (Hc & Hw & Hl & _). cbn [fst] in *.
  assert (recovered (Close e).1 = Ok (e_cat e, ∅)) as Hr.
  { unfold recovered, base. rewrite Hw, Hl, load_take by (done || apply Hs). done. }
  split; [by rewrite Hc|]. split; [|split].
  - split; [|set_solver|].
    + exists (e_cat e), ∅. split; [exact Hr|]. rewrite Hc. split; [by apply cat_sim_refl|].
      intros tx [? Hx]. by rewrite lookup_empty in Hx.
    + destruct (Checkpoint_effect e Hs) as (Hq & _ & _ & Htx & _ & _). unfold Close, gbind.
      destruct (Checkpoint e) as [e1 q1]. simpl in *. subst q1. unfold walClose. destruct (log_close _ _ _). simpl. by rewrite Htx.
  - intros c p Hcp. rewrite Hr in Hcp. by injection Hcp as _ <-.
  - unfold abs. by rewrite Hc.
Qed.

Lemma empty_life_ok e : sys_inv (e, ∅) → life_ok (e, ∅).
Proof. intros Hi. exists ∅. split; [exact Hi|]. split; intros ?*; simpl; by rewrite lookup_empty. Qed.

(** A message of connection [i]. *)
Lemma life_message_ok e cs i c msg now e' c' :
  cs !! i = Some c → msg_budget parse now msg (e, c) →
  (is_ddl_query parse msg → ∀ j cj, j ≠ i → cs !! j = Some cj → c_txn cj = None) →
  dispatch parse now msg (e, c) = (e', c') → life_ok (e, cs) → life_ok (e', <[i := c']> cs).
Proof.
  intros Hi Hready Hddl Hd (opn & Hinv & Hconn & Huniq). cbn [fst snd] in *.
  destruct (dispatch_logged parse now msg (e, c) opn Hinv (Hconn _ _ Hi) Hready) as (opn' & [H1 H2 H3 H4]).
  pose proof Hinv as (Hcat & _). apply cat_ok_split in Hcat as [Ht Hct]. cbn [fst] in *.
  assert (conn_shaped e c ∧ conn_counters (e, c)) as [Hsh Hcc].
  { unfold conn_shaped, conn_counters. simpl. specialize (Hconn _ _ Hi). unfold conn_logged in Hconn. cbn [fst snd] in Hconn.
    destruct (c_txn c) as [x|]; [|done]. destruct (Hconn x eq_refl) as ([_ Ho] & Hx & _). cbn [fst snd] in Ho. split; split; try done.
    - eapply Forall_impl; [exact Ho|]. intros o Hop Hk cols (t & Hl & ->)%fmap_Some. destruct (Hop Hk) as [_ Hrow]. by apply Hrow.
    - eapply Forall_impl; [exact Ho|]. intros o Hop Hk. by apply Hop. }
  destruct (dispatch_after parse now msg (e, c) Ht Hsh Hcc) as [_ _ Hcols]. rewrite Hd in *. cbn [fst snd] in *.
  assert (∀ j cj id, j ≠ i → cs !! j = Some cj → owned cj id → id ∈ opn ∧ ¬ owned c id) as Hother.
  { intros j cj id Hne Hj Hown. split; [destruct Hown as (x & Hx & <-); by apply (Hconn j cj Hj)|].
    intros Hown'. by apply Hne, (Huniq j i cj c id). }
  exists opn'. split; [exact H1|]. split; cbn [fst snd].
  - intros j cj [[<- <-]|[Hne Hj]]%lookup_insert_Some; [exact H2|]. intros x Hx. cbn [fst snd] in *.
    destruct (Hconn j cj Hj x Hx) as (Hok & Hxd & _). split; [|split; [done|]].
    + apply (txn_ok_cols x e); [done| |exact (proj1 H1)]. apply Hcols. intros Hq.
      specialize (Hddl Hq j cj (not_eq_sym Hne) Hj). congruence.
    + apply H4; apply (Hother j cj); [done|done|by exists x|done|done|by exists x].
  - intros j k cj ck id [[<- <-]|[Hnj Hj]]%lookup_insert_Some [[<- <-]|[Hnk Hk]]%lookup_insert_Some Hoj Hok.
    + done.
    + destruct (Hother k ck id (not_eq_sym Hnk) Hk Hok) as [Hin Hno]. by destruct (H3 _ Hoj).
    + destruct (Hother j cj id (not_eq_sym Hnj) Hj Hoj) as [Hin Hno]. by destruct (H3 _ Hok).
    + by apply (Huniq j k cj ck id).
Qed.

Lemma life_step_ok n n' : life_ok n → life_step n n' → life_ok n'.
Proof.
  intros Hok Hst. destruct Hst as [e cs i Hi|e cs i c msg now e' c' Hi Hr Hddl Hd|e cs i c Hi|e cs Hs
    |e cs faults e' Hset Hf Ho|e cs faults e' Hs Hf Ho].
  - destruct Hok as (opn & H1 & H2 & H3). exists opn. split; [exact H1|]. split; cbn [fst snd].
    + intros j cj [[<- <-]|[_ Hj]]%lookup_insert_Some; [done|by apply (H2 j)].
    + intros j k cj ck id [[<- <-]|[_ Hj]]%lookup_insert_Some [[<- <-]|[_ Hk]]%lookup_insert_Some Hoj Hok;
        [done|by destruct Hoj as (? & ? & _)|by destruct Hok as (? & ? & _)|by apply (H3 j k cj ck id)].
  - by eapply life_message_ok.
  - destruct Hok as (opn & H1 & H2 & H3). rewrite rollback_engine. exists opn. split; [exact H1|]. split; cbn [fst snd].
    + intros j cj [_ Hj]%lookup_delete_Some. by apply (H2 j).
    + intros j k cj ck id [_ Hj]%lookup_delete_Some [_ Hk]%lookup_delete_Some. by apply (H3 j k cj ck id).
  - destruct Hok as (opn & H1 & H2 & H3). exists opn.
    assert (e_cat (backgroundCheckpoint e).1 = e_cat e) as Hc
      by (unfold backgroundCheckpoint; destruct (e_checkpointing e); [apply Checkpoint_cat|done]).
    split; [by eapply sys_step_inv, H1; apply SS_background|]. split; cbn [fst snd]; [|exact H3].
    intros j cj Hj x Hx. destruct (H2 j cj Hj x Hx) as (Htok & Hxd & Hid). split; [|done].
    apply (txn_ok_cols x e); [done| |simpl; by rewrite Hc; apply H1]. intros n. unfold e_tables. simpl. by rewrite Hc.
  - destruct Hok as (opn & (H1 & H2 & _) & _). apply empty_life_ok. eapply openLog_sys_inv; eauto.
  - destruct Hok as (opn & H1 & _). destruct (Close_durable e opn H1 Hs) as (Hc & Hdu & Hset & _).
    apply empty_life_ok. eapply openLog_sys_inv; eauto.
Qed.

Lemma life_run_ok n n' : life_ok n → rtc life_step n n' → life_ok n'.
Proof.
  intros Hok Hrun. revert Hok. induction Hrun as [|n1 n2 n3 Hst _ IH]; [done|]. intros Hn. by eapply IH, life_step_ok.
Qed.
End life.

(** ** The theorems *)
Lemma life_open n faults : life_ok n →
  ∃ e', openLog (e_disk n.1) (l_recs (e_wal n.1)) faults = Ok e' ∧ abs e' = abs n.1 ∧ cat_ok (e_cat e').
Proof.
  intros (opn & Hi & _). destruct (sys_inv_open _ faults Hi) as (e' & Ho & Ha & Hc & _). eauto.
Qed.

Lemma fresh_life_ok faults : IoSyncErr ∉ faults → life_ok (fresh_engine faults, ∅).
Proof. intros Hf. by apply empty_life_ok, fresh_inv. Qed.

Section restart.
  Context {Q : Quoter} (parse : string → res Statement).


(** The reply of a connection to its last message was [m]. *)
Definition replied (m : Message) (c c' : connState) : Prop :=
  ∃ state, c_out c' = c_out c ++ [m; msg_ready state].

Lemma dispatch_commit (msg : Message) now e c x e' c' :
  is_commit parse msg → c_txn c = Some x → dispatch parse now msg (e, c) = (e', c') → replied (msg_ok 0) c c' →
  ∃ x', Tx.Commit (x, e) = ((x', e'), Ok tt).
Proof.
  intros [Hq Hp] Hx Hd (state & Hout). unfold dispatch in Hd. rewrite bool_decide_eq_true_2 in Hd by done.
  unfold runQuery in Hd. rewrite Hp in Hd. cbn [fst snd] in Hd. rewrite Hx in Hd.
  assert (∀ code text x1 e1, fail code text (e1, MkConn (Some x1) (c_out c)) = (e', c') → False) as Hfail.
  { intros code text x1 e1 He. destruct (fail_spec code text (e1, MkConn (Some x1) (c_out c))) as (_ & _ & Ho).
    rewrite He in Ho. cbn [c_out snd] in Ho. rewrite Hout in Ho. apply app_inv_head in Ho. discriminate Ho. }
  assert (∀ err code text x1 e1, failWith err code text (e1, MkConn (Some x1) (c_out c)) = (e', c') → False) as Hfailw.
  { intros err code text x1 e1 He. destruct (failWith_spec err code text (e1, MkConn (Some x1) (c_out c))) as (_ & _ & Ho).
    rewrite He in Ho. cbn [c_out snd] in Ho. rewrite Hout in Ho. apply app_inv_head in Ho.
    destruct (is_panic err); discriminate Ho. }
  destruct (Tx.Commit (x, e)) as [[x1 e1] [[]|err]].
  - unfold ready, send in Hd. simpl in Hd. injection Hd as <- _. eauto.
  - exfalso. destruct err; first [by eapply Hfail|by eapply Hfailw].
Qed.

End restart.
