(* ===== verification/Tsqld.v ===== *)
(** * The server process (cmd/tsqld/main.go)

    [main] opens the data directory, sets up the listeners, serves until a signal
    or a listener's error, and shuts down.  What the process does to the system is
    the list of its [event]s; what the system answers is a parameter: the directory
    ([open]), the sockets ([listenOn], [mkdirAll]) and the time in between
    ([serving]), which takes the engine to the state it is in when the wait ends.
    [log.Fatalf] ends the process with status 1 and runs no deferred call, so an
    engine that was opened is not closed. *)
From S2P Require Import Prelude GoStd Types Schema Wal Table Engine Txn Recovery Accessor Ast Lexer Parser.
From S2P Require Import Eval Exec Select Safety Protocol Server NoPanic Net Durable.

Open Scope go_scope.

(** ** The flags and their defaults *)
Record Flags := MkFlags { fl_datadir : string; fl_listen : string; fl_unixsocket : string }.
Definition defaults : Flags := MkFlags "/var/lib/tsql" "127.0.0.1:5433" "".

Inductive event :=
  | Listen (net addr : string)
  | MkdirDir (path : string)       (* the directory of [path] *)
  | Remove (path : string)
  | Serve (name : string)
  | CloseListener (name : string)
  | CloseEngine
  | Log (fmt : string) (args : list arg).

Section main.
  Context (open : string → res Engine) (listenOn : string → string → res unit) (mkdirAll : string → res unit).
  (** The state the engine is in when the wait ends: by a signal, or by the error
      of a listener. *)
  Context (serving : list string → Engine → Engine * option error).

(** What set-up ends in: the names of the listeners, or the message of [Fatalf]. *)
Definition setup : Type := list event * (list string + (string * list arg)).

Definition tcpListener (f : Flags) : setup :=
  if bool_decide (fl_listen f = "") then ([], inl [])
  else
    ([Listen "tcp" (fl_listen f)],
     match listenOn "tcp" (fl_listen f) with
     | Err err => inr ("tsqld: listen %s: %v", [AStr (fl_listen f); AErr err])
     | Ok _ => inl ["tcp " +:+ fl_listen f]
     end).

Definition unixListener (f : Flags) : setup :=
  if bool_decide (fl_unixsocket f = "") then ([], inl [])
  else
    match mkdirAll (fl_unixsocket f) with
    | Err err => ([MkdirDir (fl_unixsocket f)], inr ("tsqld: socket dir: %v", [AErr err]))
    | Ok _ =>
        ([MkdirDir (fl_unixsocket f); Remove (fl_unixsocket f); Listen "unix" (fl_unixsocket f)],
         match listenOn "unix" (fl_unixsocket f) with
         | Err err => inr ("tsqld: listen unix %s: %v", [AStr (fl_unixsocket f); AErr err])
         | Ok _ => inl ["unix " +:+ fl_unixsocket f]
         end)
    end.

Definition listeners (f : Flags) : setup :=
  match tcpListener f with
  | (evs, inr msg) => (evs, inr msg)
  | (evs, inl lns) =>
      match unixListener f with
      | (evs', inr msg) => (evs ++ evs', inr msg)
      | (evs', inl lns') =>
          match lns ++ lns' with
          | [] => (evs ++ evs', inr ("tsqld: no listener configured (use -listen or -unixsocket)", []))
          | all => (evs ++ evs', inl all)
          end
      end
  end.

(** From the end of the wait to the end of the process. *)
Definition shutdown (f : Flags) (lns : list string) (cause : option error) (e : Engine) : list event * Z * Engine :=
  let '(e', q) := Close e in
  (Log (match cause with None => "tsqld: shutting down (checkpointing)" | Some _ => "tsqld: listener error: %v" end)
     (match cause with None => [] | Some err => [AErr err] end)
   :: (CloseListener <$> lns)
   ++ (if bool_decide (fl_unixsocket f = "") then [] else [Remove (fl_unixsocket f)])
   ++ [CloseEngine; match q with Ok _ => Log "tsqld: bye" [] | Err err => Log "tsqld: close: %v" [AErr err] end],
   match q with Ok _ => 0%Z | Err _ => 1%Z end, e').

(** The events, the exit status, and the engine at the end if there is one. *)
Definition main (f : Flags) : list event * Z * option Engine :=
  match open (fl_datadir f) with
  | Err err => ([Log "tsqld: open datadir %s: %v" [AStr (fl_datadir f); AErr err]], 1%Z, None)
  | Ok eng =>
      match listeners f with
      | (evs, inr (fmt, args)) => (evs ++ [Log fmt args], 1%Z, Some eng)
      | (evs, inl lns) =>
          let '(e, cause) := serving lns eng in
          let '(evs', code, e') := shutdown f lns cause e in
          (evs ++ ((λ n, Log "tsqld: listening on %s (datadir %s)" [AStr n; AStr (fl_datadir f)]) <$> lns)
               ++ (Serve <$> lns) ++ evs', code, Some e')
      end
  end.

(** ** Exit status 0 *)
Lemma Checkpoint_Ok e e' :
  Checkpoint e = (e', Ok tt) → l_stuck (e_wal e) = false ∧ Forall (eq IoOk) (take 3 (e_io e)).
Proof.
  unfold Checkpoint, gbind, gget, WriteSnapshot, writeManifest, walTruncate, gmodify, next_io, pop_io, log_truncate.
  destruct (e_io e) as [|[] [|[] [|[] io]]]; simpl; try done;
    destruct (l_stuck (e_wal e)); simpl; try done; intros _; by repeat constructor.
Qed.

Lemma Close_Ok e e' : Close e = (e', Ok tt) → l_stuck (e_wal e) = false ∧ Forall (eq IoOk) (take 3 (e_io e)).
Proof.
  unfold Close, gbind. destruct (Checkpoint e) as [e1 [[]|err]] eqn:Ec; [intros _; by eapply Checkpoint_Ok|done].
Qed.

(** The process ends with status 0 exactly if it served and [Close] succeeded. *)
Lemma main_exit0 f evs oe :
  main f = (evs, 0%Z, oe) → ∃ eng sevs lns e cause e',
    open (fl_datadir f) = Ok eng ∧ listeners f = (sevs, inl lns) ∧ serving lns eng = (e, cause) ∧
    Close e = (e', Ok tt) ∧ oe = Some e'.
Proof.
  unfold main. destruct (open (fl_datadir f)) as [eng|err]; [|done].
  destruct (listeners f) as [sevs [lns|[fmt args]]]; [|done].
  destruct (serving lns eng) as [e cause] eqn:Es. unfold shutdown.
  destruct (Close e) as [e' [[]|err]] eqn:Ec; [|done]. intros [= <- <-]. by exists eng, sevs, lns, e, cause, e'.
Qed.

(** The names a set-up ends in are not empty. *)
Lemma listeners_some f evs lns : listeners f = (evs, inl lns) → lns ≠ [].
Proof.
  unfold listeners. destruct (tcpListener f) as [e1 [l1|m1]]; [|done].
  destruct (unixListener f) as [e2 [l2|m2]]; [|done]. destruct (l1 ++ l2); [done|]. by intros [= _ <-].
Qed.

(** Set-up neither serves nor closes the engine. *)
Definition setup_event (ev : event) : Prop := match ev with CloseEngine | Serve _ => False | _ => True end.

Lemma listeners_quiet f : Forall setup_event (listeners f).1.
Proof.
  assert (Forall setup_event (tcpListener f).1) as Ht by (unfold tcpListener; case_bool_decide; by repeat constructor).
  assert (Forall setup_event (unixListener f).1) as Hu.
  { unfold unixListener. case_bool_decide; [constructor|]. destruct (mkdirAll _); by repeat constructor. }
  unfold listeners. destruct (tcpListener f) as [e1 [l1|m1]]; [|done].
  destruct (unixListener f) as [e2 [l2|m2]]; [destruct (l1 ++ l2)|]; by apply Forall_app.
Qed.

(** The engine is closed exactly if a listener has served: not when set-up fails. *)
Lemma main_closes f evs code oe :
  main f = (evs, code, oe) → CloseEngine ∈ evs ↔ ∃ n, Serve n ∈ evs.
Proof.
  assert (∀ l, Forall setup_event l → CloseEngine ∈ l ↔ ∃ n, Serve n ∈ l) as Hnone.
  { intros l Hl. rewrite Forall_forall in Hl. split; [intros H|intros [n H]]; by apply Hl in H. }
  unfold main. destruct (open (fl_datadir f)) as [eng|err]; [|intros [= <- _ _]; apply Hnone; by repeat constructor].
  pose proof (listeners_quiet f) as Hq. pose proof (listeners_some f) as Hne.
  destruct (listeners f) as [sevs [lns|[fmt args]]]; cycle 1.
  { intros [= <- _ _]. apply Hnone, Forall_app. split; [done|by repeat constructor]. }
  destruct (serving lns eng) as [e cause]. unfold shutdown. destruct (Close e) as [e' q]. intros [= <- _ _].
  destruct lns as [|n lns]; [by destruct (Hne sevs [])|]. split; [intros _; exists n; set_solver|intros _].
  rewrite !elem_of_app. right. right. right. rewrite elem_of_cons. right. rewrite !elem_of_app. right. right. by left.
Qed.
End main.

(** ** Stopping and starting again *)

(** The snapshots on disk let the next one be kept, and its table ids are handed
    out again to nobody: [ckpt_safe] without the outcomes of I/O. *)
Record snaps_ok (e : Engine) : Prop := {
  sn_ids : sharp_ids (e_cat e);
  sn_kept : ∀ k1 k2, is_Some (d_snaps (e_disk e) !! k1) → is_Some (d_snaps (e_disk e) !! k2) →
    (l_Seq (e_wal e) < k1)%Z → (l_Seq (e_wal e) < k2)%Z → k1 = k2 }.

(** C5: A server that ends with status 0 has saved everything, provided that it
    started in a state of [life_ok], that what it served was a run of [life_step]
    (no fsync error, safe checkpoints, restricted CREATE and DROP TABLE, room in
    the counters), and that at its end the newest table has not been dropped and
    pruning will keep the last snapshot ([snaps_ok]).  That the I/O of the last
    checkpoint succeeded is not assumed: it follows from the status.  Opening the
    directory it leaves gives the tables that the connections saw last, in a
    state from which the same holds again. *)
Theorem exit0_saves_all {Q : Quoter} (parse : string → res Statement) open listenOn mkdirAll
    (serving : list string → Engine → Engine * option error) (f : Flags) evs (eng e' : Engine) (faults : list io) :
  open (fl_datadir f) = Ok eng → life_ok (eng, ∅) →
  (∀ lns, snaps_ok (serving lns eng).1 ∧ ∃ cs, rtc (life_step parse) (eng, ∅) ((serving lns eng).1, cs)) →
  main open listenOn mkdirAll serving f = (evs, 0%Z, Some e') → IoSyncErr ∉ faults →
  ∃ e'' sevs lns, listeners listenOn mkdirAll f = (sevs, inl lns) ∧
    openLog (e_disk e') (l_recs (e_wal e')) faults = Ok e'' ∧
    abs e'' = abs (serving lns eng).1 ∧ life_ok (e'', ∅).
Proof.
  intros Ho Hok Hserve Hm Hf. apply main_exit0 in Hm as (eng' & sevs & lns & e & cause & e1 & Ho' & Hl & Hs & Hc & [= <-]).
  assert (eng' = eng) as -> by congruence. destruct (Hserve lns) as [[Hids Hkept] [cs Hrun]]. rewrite Hs in *. cbn [fst] in *.
  destruct (Close_Ok _ _ Hc) as [Hst Hio]. assert (ckpt_safe e) as Hsafe by by split.
  pose proof (life_run_ok parse _ _ Hok Hrun) as (opn & Hinv & _).
  destruct (Close_durable e opn Hinv Hsafe) as (Hcat & Hdu & Hset & Habs). rewrite Hc in *. cbn [fst] in *.
  pose proof Hdu as [(c & p & Hr & _) _ _]. pose proof Hr as Hr'. unfold recovered, base in Hr'.
  destruct (openLog (e_disk e') (l_recs (e_wal e')) faults) as [e''|err] eqn:Eo.
  - destruct (openLog_sys_inv e' faults e'' Hcat (ex_intro _ _ Hdu) Hset Hf Eo) as [H1 H2].
    exists e'', sevs, lns. rewrite Hs. split; [done|]. split; [done|].
    split; [by rewrite H2|]. by apply empty_life_ok.
  - unfold openLog, rebuild in Eo. rewrite Hr' in Eo. discriminate Eo.
Qed.
