(* ===== verification/DurableDemo.v ===== *)
(** * Runs of the server over restarts

    Instances of the theorems of [Durable]: a table is created and filled over a
    connection, the process is killed and started again, a transaction inserts a row
    and is committed or not.  And what is not kept: the foreign keys of a
    transaction whose parent rows another connection deletes before COMMIT. *)
From S2P Require Import Prelude Bytes GoStd Types Schema Wal Table Engine Txn Recovery Accessor Ast Lexer Parser.
From S2P Require Import Eval Exec ExecDemo Select SelectDemo Protocol Server ServerDemo NoPanic Net NetDemo Durable Tsqld.

Open Scope go_scope.

(** ** The run *)
Definition CREATE : string := "CREATE TABLE users (id INT PRIMARY KEY, email TEXT UNIQUE)".
Definition ADD1 : string := "INSERT INTO users VALUES (1, 'a')".
Definition ADD2 : string := "INSERT INTO users VALUES (2, 'b')".

Definition accept (i : nat) (n : Net) : Net := (n.1, <[i := idle]> n.2).
(** The process is killed and started again. *)
Definition restart (n : Net) : Net :=
  match openLog (e_disk n.1) (l_recs (e_wal n.1)) [] with Ok e => (e, ∅) | Err _ => n end.

Definition run0 : Net := accept 0 (fresh_engine [], ∅).
Definition run1 : Net := deliver 0 CREATE run0.
Definition run2 : Net := deliver 0 ADD1 run1.
Definition run3 : Net := accept 0 (restart run2).
Definition run4 : Net := deliver 0 "BEGIN" run3.
Definition run5 : Net := deliver 0 ADD2 run4.

Definition conn_of (n : Net) : connState := default idle (n.2 !! 0).

(** A message is a step if it has room and no other connection is open. *)
Lemma deliver_life sql stmt n :
  n.2 !! 0 = Some (conn_of n) → (∀ j cj, j ≠ 0 → n.2 !! j = Some cj → c_txn cj = None) → Parse sql = Ok stmt →
  stmt_budget VNull stmt (n.1, conn_of n) → life_step Parse n (deliver 0 sql n).
Proof.
  intros Hc Ho Hp Hb. unfold deliver. rewrite Hc. destruct n as [e cs]. cbn [fst snd] in *.
  eapply (life_message _ _ _ 0 _ (query sql) VNull); [exact Hc| |intros _; exact Ho|apply surjective_pairing].
  intros _ stmt' Hp'. cbn [m_SQL query] in Hp'. rewrite Hp in Hp'. by injection Hp' as <-.
Qed.

Lemma accept_life i n : n.2 !! i = None → life_step Parse n (accept i n).
Proof. destruct n as [e cs]. apply life_accept. Qed.

Lemma restart_life n e :
  log_settled n.1 → openLog (e_disk n.1) (l_recs (e_wal n.1)) [] = Ok e → life_step Parse n (restart n).
Proof.
  intros Hs Ho. unfold restart. rewrite Ho. destruct n as [e0 cs]. eapply (life_kill _ _ _ []); [exact Hs|set_solver|exact Ho].
Qed.

(** Room, decided. *)
Definition engine_roomb (k : Z) (e : Engine) : bool :=
  bool_decide (c_nextTableID (e_cat e) + 1 < 2 ^ 32)%Z &&
  bool_decide (map_Forall (λ _ t, t_nextID t + k ≤ int64_max)%Z (e_tables e)).
Lemma engine_roomb_ok k e : engine_roomb k e = true → engine_room k e.
Proof. intros [H1%bool_decide_eq_true H2%bool_decide_eq_true]%andb_true_iff. split; [done|exact H2]. Qed.

Lemma idle_budget stmt n k :
  c_txn (conn_of n) = None → (0 ≤ k)%Z → stmt_ready VNull stmt k n.1 → (e_txSeq n.1 + k < 2 ^ 64)%Z →
  stmt_budget VNull stmt (n.1, conn_of n).
Proof. intros Hx Hk Hr Ht. exists k. split; [done|]. cbn [snd]. by rewrite Hx. Qed.
Lemma txn_budget stmt n k x :
  c_txn (conn_of n) = Some x → (0 ≤ k)%Z → stmt_ready VNull stmt k (x, n.1) → stmt_budget VNull stmt (n.1, conn_of n).
Proof. intros Hx Hk Hr. exists k. split; [done|]. cbn [snd]. by rewrite Hx. Qed.

(** In a reachable state the storage invariant holds. *)
Lemma life_acc (n : Net) x c i : life_ok n → n.2 !! i = Some c → c_txn c = Some x → acc_inv (x, n.1).
Proof. intros (opn & _ & Hc & _) Hi Hx. destruct (Hc _ _ Hi x Hx) as (H1 & H2 & _). done. Qed.
Lemma life_cat (n : Net) : life_ok n → acc_inv n.1.
Proof. by intros (opn & (H & _) & _). Qed.

Lemma alone (n : Net) : map_Forall (λ j cj, j = 0 ∨ c_txn cj = None) n.2 →
  ∀ j cj, j ≠ 0 → n.2 !! j = Some cj → c_txn cj = None.
Proof. intros H j cj Hne Hj. by destruct (H _ _ Hj). Qed.

Ltac computed := vm_compute; reflexivity.
Ltac one_conn := apply alone, (bool_decide_unpack _); vm_compute; exact I.

(** The rows of an INSERT of literals have ids in range. *)
Ltac ids_in_range Hd Hx :=
  vm_compute in Hd; injection Hd as <-; vm_compute in Hx; injection Hx as <-;
  repeat apply Forall_cons_2; try apply Forall_nil_2; intros r id Hr Hid;
  vm_compute in Hr; injection Hr as <-; vm_compute in Hid; injection Hid as <-;
  vm_compute; split; [discriminate|reflexivity].

Lemma no_faults : IoSyncErr ∉ @nil io.
Proof. apply not_elem_of_nil. Qed.
Lemma fresh_ready : life_ok (fresh_engine [], ∅).
Proof. apply fresh_life_ok, no_faults. Qed.

Lemma step0 : life_step Parse (fresh_engine [], ∅) run0.
Proof. apply accept_life, lookup_empty. Qed.
Lemma ok0 : life_ok run0.
Proof. exact (life_step_ok _ _ _ fresh_ready step0). Qed.

Lemma step1 : life_step Parse run0 run1.
Proof.
  apply (deliver_life CREATE (CreateTableS "users"
    [MkColumnDef "id" "int" true false false false "" ""; MkColumnDef "email" "text" false false false true "" ""]));
    [computed|one_conn|computed|].
  apply (idle_budget _ _ 1%Z); [computed|done| |computed].
  split; [done|]. split; [exact (life_cat run0 ok0)|apply engine_roomb_ok; computed].
Qed.
Lemma ok1 : life_ok run1.
Proof. exact (life_step_ok _ _ _ ok0 step1). Qed.

Definition row_stmt (id : Z) (s : string) : InsertStmt := MkInsert "users" [] [[Lit (VInt id); Lit (VText s)]].

Lemma step2 : life_step Parse run1 run2.
Proof.
  apply (deliver_life ADD1 (InsertS (row_stmt 1 "a"))); [computed|one_conn|computed|].
  apply (idle_budget _ _ 1%Z); [computed|done| |computed].
  split; [exact (life_cat run1 ok1)|apply engine_roomb_ok; computed|vm_compute; split; [discriminate|reflexivity]|].
  intros def idx Hd Hx. ids_in_range Hd Hx.
Qed.
Lemma ok2 : life_ok run2.
Proof. exact (life_step_ok _ _ _ ok1 step2). Qed.

(** The kill: everything in the log is committed. *)
Lemma settled2 : log_settled run2.1.
Proof.
  assert ((λ cp : Cat * Pending, cp.2) <$> recovered run2.1 = Ok ∅) as H by computed.
  intros c p Hr. rewrite Hr in H. by injection H.
Qed.
Lemma step3 : life_step Parse run2 (restart run2).
Proof.
  destruct (openLog (e_disk run2.1) (l_recs (e_wal run2.1)) []) as [e|err] eqn:E; [|vm_compute in E; discriminate E].
  exact (restart_life run2 e settled2 E).
Qed.
Lemma step3' : life_step Parse (restart run2) run3.
Proof. apply (accept_life 0 (restart run2)). computed. Qed.
Lemma ok3 : life_ok run3.
Proof. exact (life_step_ok _ _ _ (life_step_ok _ _ _ ok2 step3) step3'). Qed.

Lemma step4 : life_step Parse run3 run4.
Proof.
  apply (deliver_life "BEGIN" BeginS); [computed|one_conn|computed|].
  apply (idle_budget _ _ 1%Z); [computed|done| |computed].
  split; [done|]. split; [exact (life_cat run3 ok3)|apply engine_roomb_ok; computed].
Qed.
Lemma ok4 : life_ok run4.
Proof. exact (life_step_ok _ _ _ ok3 step4). Qed.

(** INSERT in the transaction: it reads the committed row and its own. *)
Lemma step5 : life_step Parse run4 run5.
Proof.
  apply (deliver_life ADD2 (InsertS (row_stmt 2 "b"))); [computed|one_conn|computed|].
  assert (run4.2 !! 0 = Some (conn_of run4)) as Hc by computed.
  destruct (c_txn (conn_of run4)) as [x|] eqn:Hx; [|vm_compute in Hx; discriminate Hx].
  apply (txn_budget _ _ 1%Z x Hx); [done|].
  split; [exact (life_acc run4 x (conn_of run4) 0 ok4 Hc Hx)|apply engine_roomb_ok; computed|vm_compute; split; [discriminate|reflexivity]|].
  intros def idx Hd Hx'. ids_in_range Hd Hx'.
Qed.

Lemma life_run : rtc (life_step Parse) (fresh_engine [], ∅) run5.
Proof.
  eapply rtc_l; [exact step0|]. eapply rtc_l; [exact step1|]. eapply rtc_l; [exact step2|].
  eapply rtc_l; [exact step3|]. eapply rtc_l; [exact step3'|].
  eapply rtc_l; [exact step4|]. apply rtc_once. exact step5.
Qed.


(** Killed after COMMIT was acknowledged: both are there. *)
Definition committed : Srv := dispatch Parse VNull (query "COMMIT") (run5.1, conn_of run5).

Lemma committed_eq : dispatch Parse VNull (query "COMMIT") (run5.1, conn_of run5) = (committed.1, committed.2).
Proof. unfold committed. apply surjective_pairing. Qed.


(** ** What COMMIT does not check

    A transaction inserts a post of user 2, which exists; another connection then
    deletes user 2, which no committed post refers to; COMMIT checks UNIQUE columns
    only, and the post is stored without its author. *)
Definition fk_race : Net :=
  deliver 0 "COMMIT" (deliver 1 "DELETE FROM users WHERE id = 2"
    (deliver 0 "INSERT INTO posts VALUES (5, 2)" in_txn)).

Example commit_breaks_fk :
  Engine.Get "posts" 5 fk_race.1 = Some [VInt 5; VInt 2] ∧ Engine.Get "users" 2 fk_race.1 = None ∧
  (m_Type <$> c_out (conn_of fk_race)) = ["ok"; "ready"; "ok"; "ready"; "ok"; "ready"].
Proof. vm_compute. split_and!; reflexivity. Qed.

(** ** The process *)
Definition sockets : string → string → res unit := λ _ _, Ok tt.
(** What the connections do until the signal: the run up to [run2]. *)
Definition served : list string → Engine → Engine * option error := λ _ _, (run2.1, None).
Definition process : list event * Z * option Engine :=
  main (λ _, Ok (fresh_engine [])) sockets (λ _, Ok tt) served defaults.

Lemma run2_snaps : snaps_ok run2.1.
Proof.
  split.
  - unfold sharp_ids.
    assert (c_nextTableID (e_cat run2.1) = 1%Z) as -> by computed. right.
    exists "users". assert (t_id <$> c_tables (e_cat run2.1) !! "users" = Some 0%Z) as H by computed.
    destruct (c_tables (e_cat run2.1) !! "users") as [t|]; [|discriminate H]. injection H as H.
    exists t. split; [reflexivity|]. rewrite H. reflexivity.
  - assert (d_snaps (e_disk run2.1) = ∅) as -> by computed. intros k1 k2 [? H]. rewrite lookup_empty in H. discriminate H.
Qed.

Lemma run2_reached : rtc (life_step Parse) (fresh_engine [], ∅) (run2.1, run2.2).
Proof.
  rewrite <-surjective_pairing. eapply rtc_l; [exact step0|]. eapply rtc_l; [exact step1|]. apply rtc_once. exact step2.
Qed.

Lemma exit0_saves_all_witness :
  ∃ e', process = (process.1.1, 0%Z, Some e') ∧ ∃ e'', openLog (e_disk e') (l_recs (e_wal e')) [] = Ok e'' ∧
    rows_of "users" (Ok e'') = Some [1%Z].
Proof.
  destruct process as [[evs code] oe] eqn:E. destruct oe as [e'|]; [|vm_compute in E; discriminate E].
  assert (code = 0%Z) as -> by (assert (process.1.2 = 0%Z) as H by computed; rewrite E in H; exact H).
  exists e'. split; [reflexivity|].
  destruct (exit0_saves_all Parse (λ _, Ok (fresh_engine [])) sockets (λ _, Ok tt) served defaults evs
    (fresh_engine []) e' [] eq_refl fresh_ready (λ _, conj run2_snaps (ex_intro _ run2.2 run2_reached)) E no_faults)
    as (e'' & _ & _ & _ & Ho & _ & _).
  exists e''. split; [exact Ho|].
  assert (rows_of "users" (match process.2 with Some e => openLog (e_disk e) (l_recs (e_wal e)) [] | None => Err ErrIO end)
    = Some [1%Z]) as H by computed.
  rewrite E in H. cbn [snd] in H. rewrite Ho in H. exact H.
Defined.

(** With the default flags one listener serves; everything is closed in order. *)
Example process_events :
  process.1 = ([Listen "tcp" "127.0.0.1:5433";
                Log "tsqld: listening on %s (datadir %s)" [AStr "tcp 127.0.0.1:5433"; AStr "/var/lib/tsql"];
                Serve "tcp 127.0.0.1:5433"; Log "tsqld: shutting down (checkpointing)" [];
                CloseListener "tcp 127.0.0.1:5433"; CloseEngine; Log "tsqld: bye" []], 0%Z).
Proof. vm_compute. reflexivity. Qed.
