(* ===== verification/Client.v ===== *)
(** * The command-line client (cmd/tsql/main.go)

    The client talks to one connection of the server: it writes a frame and reads
    frames.  [clientConn] holds the server's side of the connection and the
    messages that were sent to the client and not read yet; a frame whose JSON
    body is refused by [WriteFrame] never arrives (the server ignores the error).
    A read with nothing left to come blocks: the result is [None].  A connection
    can break at any message: [wire] is a script of what happens to the frames the
    client writes, as [e_io] is for the files of the engine.  It also breaks when
    the message makes the server panic, which ends the server's process.

    The terminal is a list of output pieces; standard input is a text, which the
    client reads line by line.  The values of the flags and the dialling are
    arguments of [main]. *)
From Stdlib Require Import Ascii.
From S2P Require Import Prelude Bytes GoStd Types Schema Wal Table Engine Txn Accessor Ast Eval Exec Select Lexer Protocol Server.

(** ** Package strings *)
Fixpoint cutPrefix (p s : string) : option string :=
  match p, s with
  | EmptyString, _ => Some s
  | String a p, String b s => if bool_decide (a = b) then cutPrefix p s else None
  | String _ _, EmptyString => None
  end.
Definition HasPrefix (s p : string) : bool := bool_decide (is_Some (cutPrefix p s)).

Fixpoint rev_app (s t : string) : string :=
  match s with EmptyString => t | String c s => rev_app s (String c t) end.
Definition rev (s : string) : string := rev_app s EmptyString.
(** [s] without the suffix [p]. *)
Definition cutSuffix (p s : string) : option string := rev <$> cutPrefix (rev p) (rev s).

Definition bytes_of (l : list nat) : string := fold_right (λ n s, String (ascii_of_nat n) s) EmptyString l.
(** The characters [unicode.IsSpace] accepts, as bytes. *)
Definition spaces : list string :=
  map bytes_of ([[32]; [9]; [10]; [11]; [12]; [13]; [194; 133]; [194; 160]; [225; 154; 128]]
    ++ map (λ b, [226; 128; b]) [128; 129; 130; 131; 132; 133; 134; 135; 136; 137; 138; 168; 169; 175]
    ++ [[226; 129; 159]; [227; 128; 128]]).

(** Cut prefixes of [ps] while there is one; every cut shortens the string. *)
Definition cutAny (ps : list string) (s : string) : option string :=
  foldr (λ p r, match cutPrefix p s with Some s' => Some s' | None => r end) None ps.
Fixpoint strip (ps : list string) (fuel : nat) (s : string) : string :=
  match fuel with
  | O => s
  | S fuel => match cutAny ps s with Some s' => strip ps fuel s' | None => s end
  end.
Definition TrimLeft (s : string) : string := strip spaces (String.length s) s.
Definition TrimRight (s : string) : string := rev (strip (map rev spaces) (String.length s) (rev s)).
Definition TrimSpace (s : string) : string := TrimRight (TrimLeft s).

(** [strings.ToLower] as far as a comparison with ASCII words can tell: besides
    the ASCII letters, U+0130 and the Kelvin sign have ASCII lower-case forms. *)
Fixpoint lowerWord (fuel : nat) (s : string) : string :=
  match fuel with
  | O => s
  | S fuel =>
      match cutPrefix (bytes_of [196; 176]) s with
      | Some s' => String "i" (lowerWord fuel s')
      | None =>
          match cutPrefix (bytes_of [226; 132; 170]) s with
          | Some s' => String "k" (lowerWord fuel s')
          | None => match s with
                    | EmptyString => EmptyString
                    | String c s' => String (lowerChar c) (lowerWord fuel s')
                    end
          end
      end
  end.
Definition toLowerWord (s : string) : string := lowerWord (String.length s) s.

(** [strings.SplitN(s, " ", 2)] *)
Fixpoint splitSpace (s : string) : string * option string :=
  match s with
  | EmptyString => (EmptyString, None)
  | String c s' =>
      if bool_decide (c = " "%char) then (EmptyString, Some s')
      else let '(a, b) := splitSpace s' in (String c a, b)
  end.

Fixpoint Join (l : list string) (sp : string) : string :=
  match l with
  | [] => EmptyString
  | [x] => x
  | x :: l => x +:+ sp +:+ Join l sp
  end.

(** ** Lines *)

(** Trailing semicolons, with the blanks around them. *)
Fixpoint stripSemis (fuel : nat) (sql : string) : string :=
  match fuel with
  | O => sql
  | S fuel => match cutSuffix ";" sql with Some s' => stripSemis fuel (TrimSpace s') | None => sql end
  end.
Definition cleanSQL (line : string) : string :=
  let sql := TrimSpace line in stripSemis (String.length sql) sql.

Inductive lineKind := KQuit | KNoop | KTables | KDatabases | KDescribe | KHelp | KUnknown | KSql.

Definition classifyLine (line : string) : lineKind * string :=
  match line with
  | String c rest =>
      if bool_decide (c = ascii_of_nat 92) || bool_decide (c = "/"%char) then
        let body := TrimSpace rest in
        let '(word, a) := splitSpace body in
        let cmd := toLowerWord word in
        let cmd := default cmd (cutSuffix "+" cmd) in
        let a := match a with Some a => TrimSpace a | None => "" end in
        if bool_decide (cmd = "q") then (KQuit, "")
        else if bool_decide (cmd ∈ ["dt"; "dn"]) then (KTables, "")
        else if bool_decide (cmd = "l") then (KDatabases, "")
        else if bool_decide (cmd = "d") then (KDescribe, a)
        else if bool_decide (cmd ∈ ["h"; "help"]) then (KHelp, "")
        else (KUnknown, body)
      else if bool_decide (toLowerWord (TrimSpace line) ∈ ["quit"; "exit"]) then (KQuit, "")
      else let sql := cleanSQL line in if bool_decide (sql = "") then (KNoop, "") else (KSql, sql)
  | EmptyString => (KNoop, "")
  end.

(** ** Tables *)
(** [fmt.Sprintf("%v", x)] *)
Definition sprintv (x : any) : string :=
  match x with
  | ANil => "<nil>"
  | ANum i => FormatInt i
  | AFloat f => FormatFloat f
  | AText s => s
  | ABool b => if b then "true" else "false"
  end.

Definition plural (n : Z) : string := if (n =? 1)%Z then "" else "s".

(** [in.ReadString('\n')] until the end of the input: the lines with their ends,
    and the text after the last one, which the loop gets with the error and drops. *)
Fixpoint splitLines (s : string) : list string * string :=
  match s with
  | EmptyString => ([], EmptyString)
  | String c s' =>
      let '(ls, rest) := splitLines s' in
      if bool_decide (c = ascii_of_nat 10) then (String c EmptyString :: ls, rest)
      else match ls with
           | [] => ([], String c rest)
           | l :: ls => (String c l :: ls, rest)
           end
  end.

(** The cell of column [j] of a row. *)
Definition cell (r : list any) (j : nat) : string :=
  match r !! j with None | Some ANil => "" | Some x => sprintv x end.

Definition cellsOf (cols : list string) (r : list any) : list string := cell r <$> seq 0 (length cols).
Definition widen (widths : list nat) (cells : list string) : list nat :=
  zip_with (λ w s, if String.length s <=? w then w else String.length s) widths cells.
Definition widthsOf (cols : list string) (cells : list (list string)) : list nat :=
  foldl widen (String.length <$> cols) cells.

Fixpoint joinPaddedFrom (i : nat) (cells : list string) (widths : list nat) : list string :=
  match cells with
  | [] => []
  | s :: cells =>
      match widths !! i with
      | Some w => if String.length s <? w then s +:+ str_repeat " " (w - String.length s) else s
      | None => s
      end :: joinPaddedFrom (i + 1) cells widths
  end.
Definition joinPadded (cells : list string) (widths : list nat) : string := Join (joinPaddedFrom 0 cells widths) " | ".

Definition newline : string := String (ascii_of_nat 10) EmptyString.
Definition tableLines (cols : list string) (rows : list (list any)) : list string :=
  let cells := cellsOf cols <$> rows in
  let widths := widthsOf cols cells in
  joinPadded cols widths :: Join (str_repeat "-" <$> widths) "-" :: ((λ r, joinPadded r widths) <$> cells).
Definition formatTable (cols : list string) (rows : list (list any)) : string :=
  fold_right (λ l s, l +:+ newline +:+ s) EmptyString (tableLines cols rows).

(** ** The terminal *)
Inductive output :=
  | Stdout (s : string)
  | Stderr (fmt : string) (args : list arg).

Definition rowsLine (n : Z) : string := "(" +:+ FormatInt n +:+ " row" +:+ plural n +:+ ")" +:+ newline.
Definition errorLine (m : Message) : output := Stderr "ERROR [%s]: %s" [AStr (m_Code m); m_Message m].
Definition println (s : string) : output := Stdout (s +:+ newline).

Definition logoASCII : string := "                   @@@@@@@@@@@@@@@@
               @@@@@@@@@@@@@@@@@@@@@
            @@@@@@@@@@@@@@@@@@@@@@@@@@@
          @@@@@@@@@@@@@@@@@@@@@@@@@@@@@@
        @@@@@@@@@@@@@@@@@@@@@@@@@@@@@@@@@@@
       @@@@@@@@@@@@@@@@@@@@@@@@@@..@@@@@@@@@
       @@@@@@@@@@@@@@@@........@@..@@@@@@@@@@
      @@@@@@@@@.@@@@@@@.........@@@@@@@@@@@@@
      @@@@@@@@...@@@@@@........@@@@@@..@@@@@@
      @@@@@@@@....@@@@@.....@..@@@@@..@@@@@@@
      @@@@@@.@@....@@@......@@@@@@@....@@@@@@@
     @.@@@@.......@@@@@@.....@@@@@@.......@@@@@
     ....@..........@@@........@@@.........@..@@
     @................@.::....:.@@..........@@@
      @@@...................................@@@
       @@...................................@@
        @@..................................@
       @@@.................................@@
     @@@@@@@@...........................@@@@@@@
  @@@@@@@@@@@@@@.....................@@@@@@@@@@@@@
 @@@@@@@@@@@@@@@@@@@.............@@@@@@@@@@@@@@@@@@@
@@@@@@@@@@@@@@@@@@@@@@@@@@@@@@@@@@@@@@@@@@@@@@@@@@@@
  @@@@@@@@@@@@@@@@@@@@@@@@@@@@@@@@@@@@@@@@@@@@@@@@
     @@@@@@@@@@@@@@@@@@@@@@@@@@@@@@@@@@@@@@@@@@
         @@@@@@@@@@@@@@@@@@@@@@@@@@@@@@@@@@@
          @@@@@@@@@@@@@@@@@@@@@@@@@@@@@@@@@".
Definition banner : list output :=
  [println logoASCII;
   println "tsql — TSQL interactive terminal (\q quit, \dt tables, \d describe, \h help)"].

(** What is printed for one message. *)
Definition printMessage (m : Message) : list output :=
  if bool_decide (m_Type m = "result") then
    if bool_decide (m_Rows m = []) then [println "(0 rows)"]
    else [Stdout (formatTable (m_Columns m) (m_Rows m)); Stdout (rowsLine (Z.of_nat (length (m_Rows m))))]
  else if bool_decide (m_Type m = "ok") then [Stdout ("OK " +:+ rowsLine (m_Affected m))]
  else if bool_decide (m_Type m = "error") then [errorLine m]
  else [].
Definition printResults (msgs : list Message) : list output * bool :=
  (msgs ≫= printMessage, negb (existsb (λ m, bool_decide (m_Type m = "error")) msgs)).

(** ** The connection *)

(** What happens to a frame the client writes: it is carried, and the replies too;
    the write fails; or it is written, and the connection breaks before more than
    [n] frames of the reply have arrived, when the server has handled the message
    or not (the server closes a connection that was idle for ten minutes). *)
Inductive wire := Carried | Refused (e : error) | Cut (n : nat) (served : bool) (e : error).

Record clientConn := MkClient {
  cc_srv : Srv;
  cc_unread : list Message;
  cc_broken : option error;   (* what a read behind the unread frames, or a write, fails with *)
  cc_wires : list wire }.     (* the frames to come; all further ones are carried *)

Definition next_wire (ws : list wire) : wire := default Carried (head ws).

Definition queryMsg (sql : string) : Message := MkMessage "query" sql "" [] [] 0 "" (AStr "") "" [].
Definition askMsg (type name : string) : Message := MkMessage type "" name [] [] 0 "" (AStr "") "" [].

Section client.
  Context {J : Json} {Q : Quoter} (parse : string → res Statement) (now : Value).

(** The server handles a message; what it sends arrives up to [arrived]. *)
Definition answer (m : Message) (arrived : list Message → list Message) (c : clientConn) : Srv * list Message :=
  let st := dispatch parse now (through m) (cc_srv c) in
  (st, cc_unread c ++ arrived (drop (length (c_out (cc_srv c).2)) (c_out st.2) ≫= deliver)).

(** Write a frame to the server.  When the connection breaks, [handle] ends and
    rolls back.  A message that panics ends the process of the server, which
    closes the connection without a reply. *)
Definition transmit (m : Message) (c : clientConn) : res unit * clientConn :=
  match WriteFrame m with
  | Err e => (Err e, c)
  | Ok _ =>
      match cc_broken c with
      | Some e => (Err e, c)
      | None =>
          let ws := tail (cc_wires c) in
          match next_wire (cc_wires c) with
          | Carried =>
              let '(st, u) := answer m id c in
              if panics parse now (through m) (cc_srv c) then (Ok tt, MkClient (rollback st) u (Some errEOF) ws)
              else (Ok tt, MkClient st u None ws)
          | Refused e => (Err e, MkClient (rollback (cc_srv c)) (cc_unread c) (Some e) ws)
          | Cut n served e =>
              let '(st, u) := if served : bool then answer m (take n) c else (cc_srv c, cc_unread c) in
              (Ok tt, MkClient (rollback st) u (Some e) ws)
          end
      end
  end.

Definition set_unread (u : list Message) (c : clientConn) : clientConn :=
  MkClient (cc_srv c) u (cc_broken c) (cc_wires c).

(** Read frames up to the [ready] frame; [broken] is what a read fails with once
    the frames that arrived are read. *)
Fixpoint readReady (broken : option error) (u : list Message) : option (res (list Message) * list Message) :=
  match u with
  | [] => e ← broken; Some (Err e, [])
  | m :: u =>
      if bool_decide (m_Type m = "ready") then Some (Ok [m], u)
      else '(ms, rest) ← readReady broken u; Some (fmap (M := res) (cons m) ms, rest)
  end.

Definition sendQuery (sql : string) (c : clientConn) : option (res (list Message) * clientConn) :=
  match transmit (queryMsg sql) c with
  | (Err e, c1) => Some (Err e, c1)
  | (Ok _, c1) => '(ms, rest) ← readReady (cc_broken c1) (cc_unread c1); Some (ms, set_unread rest c1)
  end.

(** Output and exit status of [tsql -c]. *)
Definition runOnce (sql : string) (c : clientConn) : option (list output * Z) :=
  let sql := cleanSQL sql in
  if bool_decide (sql = "") then Some ([], 0%Z)
  else
    '(r, _) ← sendQuery sql c;
    Some match r with
         | Err e => ([Stderr "tsql: %v" [AErr e]], 1%Z)
         | Ok ms => let '(out, ok) := printResults ms in (out, if ok : bool then 0%Z else 1%Z)
         end.

(** Read frames until one of the wanted type is printed or the server is ready. *)
Fixpoint readWanted (print : Message → option (list output)) (broken : option error) (u : list Message) :
    option (list output * list Message) :=
  match u with
  | [] => e ← broken; Some ([Stderr "tsql: %v" [AErr e]], [])
  | m :: u =>
      match print m with
      | Some out => Some (out, u)
      | None => if bool_decide (m_Type m = "ready") then Some ([], u) else readWanted print broken u
      end
  end.

Definition printNames (type none : string) (m : Message) : option (list output) :=
  if bool_decide (m_Type m = type) then
    Some (match m_Tables m with [] => [println none] | l => println <$> l end)
  else None.
Definition printDescribe (m : Message) : option (list output) :=
  if bool_decide (m_Type m = "describe") then
    Some (println (m_Name m) ::
          (if bool_decide (m_Rows m = []) then [println "(0 rows)"]
           else [Stdout (formatTable (m_Columns m) (m_Rows m)); Stdout (rowsLine (Z.of_nat (length (m_Rows m))))]))
  else if bool_decide (m_Type m = "error") then Some [errorLine m]
  else None.

Definition ask (m : Message) (print : Message → option (list output)) (c : clientConn) :
    option (list output * clientConn) :=
  match transmit m c with
  | (Err e, c1) => Some ([Stderr "tsql: %v" [AErr e]], c1)
  | (Ok _, c1) => '(out, rest) ← readWanted print (cc_broken c1) (cc_unread c1); Some (out, set_unread rest c1)
  end.
Definition listTables : clientConn → option (list output * clientConn) :=
  ask (askMsg "tables" "") (printNames "tables" "(no tables)").
Definition listDatabases : clientConn → option (list output * clientConn) :=
  ask (askMsg "databases" "") (printNames "databases" "(no databases)").
Definition describeTable (name : string) : clientConn → option (list output * clientConn) :=
  ask (askMsg "describe" name) printDescribe.

Definition printHelp : list output :=
  println <$>
    ["commands:"; "  \q           quit"; "  \dt          list tables";
     "  \dn          list schemas (v1: single schema, lists tables)";
     "  \l           list databases (v1: single database)";
     "  \d [table]   describe a table (no arg: list tables)"; "  \h           this help";
     "SQL statements take one line each; a trailing semicolon is optional."].

(** One line of the loop: its output, the connection, and whether the loop goes
    on. *)
Definition replLine (line : string) (c : clientConn) : option (list output * clientConn * bool) :=
  let line := TrimSpace line in
  if bool_decide (line = "") then Some ([], c, true)
  else
    let go (m : option (list output * clientConn)) := '(out, c') ← m; Some (out, c', true) in
    match classifyLine line with
    | (KQuit, _) => Some ([], c, false)
    | (KNoop, _) => Some ([], c, true)
    | (KTables, _) => go (listTables c)
    | (KDatabases, _) => go (listDatabases c)
    | (KDescribe, arg) => go (if bool_decide (arg = "") then listTables c else describeTable arg c)
    | (KHelp, _) => Some (printHelp, c, true)
    | (KUnknown, _) => Some ([Stderr "tsql: unknown command %q (try \h)" [AStr line]], c, true)
    | (KSql, arg) =>
        '(r, c') ← sendQuery arg c;
        Some match r with
             | Ok ms => ((printResults ms).1, c', true)
             | Err e => ([Stderr "tsql: connection error: %v" [AErr e]], c', false)
             end
    end.
Definition prompt : output := Stdout "tsql> ".
Fixpoint replLoop (lines : list string) (c : clientConn) : option (list output * clientConn) :=
  match lines with
  | [] => Some ([prompt; println ""], c)
  | line :: lines =>
      '(out, c1, more) ← replLine line c;
      if more : bool then
        '(rest, c2) ← replLoop lines c1; Some (prompt :: out ++ rest, c2)
      else Some (prompt :: out, c1)
  end.

Definition repl (stdin : string) (c : clientConn) : option (list output * clientConn) :=
  '(out, c1) ← replLoop (splitLines stdin).1 c; Some (banner ++ out, c1).

(** [main] with the values of its flags.  [dial] opens the connection; the second
    component is the exit status. *)
Definition main (cmd host : string) (port : Z) (unixSock : string) (dial : string → string → res clientConn)
    (stdin : string) : option (list output * Z) :=
  let '(netName, addr) :=
    if bool_decide (unixSock ≠ "") then ("unix", unixSock) else ("tcp", host +:+ ":" +:+ FormatInt port) in
  match dial netName addr with
  | Err err => Some ([Stderr "tsql: connection to %s failed: %v" [AStr addr; AErr err]], 2%Z)
  | Ok c =>
      if bool_decide (cmd ≠ "") then runOnce cmd c
      else '(out, _) ← repl stdin c; Some (out, 0%Z)
  end.
End client.

(** ** A conversation in order *)
Section conversation.
  Context {J : Json} {Q : Quoter} (parse : string → res Statement) (now : Value).

(** A frame that fits and whose type JSON carries unchanged. *)
Definition arrives (m : Message) : Prop := is_Ok (WriteFrame m) ∧ m_Type (through m) = m_Type m.

Lemma deliver_arrives m : arrives m → deliver m = [through m].
Proof. intros [[fr Hfr] _]. unfold deliver. by rewrite Hfr. Qed.

(** The next [n] frames are carried. *)
Definition whole (n : nat) (c : clientConn) : Prop :=
  cc_broken c = None ∧ Forall (eq Carried) (take n (cc_wires c)).

Lemma whole_next n c : whole (S n) c → next_wire (cc_wires c) = Carried ∧ Forall (eq Carried) (take n (tail (cc_wires c))).
Proof.
  intros [_ H]. destruct (cc_wires c) as [|w ws]; [split; [done|]; simpl; rewrite take_nil; constructor|]. by apply Forall_cons in H as [<- H].
Qed.

Lemma whole_mono m n c : whole n c → m ≤ n → whole m c.
Proof.
  intros [Hb H] Hle. split; [done|]. pose proof (take_take (cc_wires c) m n) as Ht. rewrite Nat.min_l in Ht by done.
  rewrite <-Ht. by apply Forall_take.
Qed.

(** None of the messages, served one after the other, makes the server panic
    ([Net.no_panic] says when that is so). *)
Fixpoint no_panics (ms : list Message) (st : Srv) : Prop :=
  match ms with
  | [] => True
  | m :: ms => panics parse now m st = false ∧ no_panics ms (dispatch parse now m st)
  end.

(** The reply and the ready frame of one message. *)
Lemma transmit_spec m c :
  is_Ok (WriteFrame m) → whole 1 c → panics parse now (through m) (cc_srv c) = false →
  ∃ r rd, c_out (dispatch parse now (through m) (cc_srv c)).2 = c_out (cc_srv c).2 ++ [r; rd] ∧
    m_Type rd = "ready" ∧ m_Type r ∈ ["ok"; "error"; "result"; "tables"; "databases"; "describe"] ∧
    transmit parse now m c
      = (Ok tt, MkClient (dispatch parse now (through m) (cc_srv c)) (cc_unread c ++ deliver r ++ deliver rd)
                  None (tail (cc_wires c))).
Proof.
  intros [fr Hfr] Hwh Hnp. pose proof Hwh as [Hb _]. apply whole_next in Hwh as [Hn _].
  unfold transmit, answer. rewrite Hfr, Hb, Hn, Hnp. cbv zeta. unfold id.
  pose proof (dispatch_answered parse now (through m) (cc_srv c)) as Ha. rewrite Hnp in Ha.
  destruct Ha as (r & Hout & Hr & _).
  eexists r, _. split; [exact Hout|]. split; [done|]. split; [done|].
  f_equal. f_equal. rewrite Hout, drop_app_length. simpl. by rewrite app_nil_r.
Qed.

Lemma arrived_types r rd : arrives r → arrives rd → m_Type rd = "ready" →
  m_Type r ∈ ["ok"; "error"; "result"; "tables"; "databases"; "describe"] →
  m_Type (through rd) = "ready" ∧ m_Type (through r) ≠ "ready".
Proof. intros [_ H1] [_ H2] H3 H4. rewrite H1, H2. split; [done|]. intros H. rewrite H in H4. set_solver. Qed.

(** On a connection with nothing unread a query gets its own reply. *)
Lemma sendQuery_in_sync sql c :
  cc_unread c = [] → whole 1 c → is_Ok (WriteFrame (queryMsg sql)) →
  panics parse now (through (queryMsg sql)) (cc_srv c) = false →
  let st := dispatch parse now (through (queryMsg sql)) (cc_srv c) in
  (∀ m, m ∈ drop (length (c_out (cc_srv c).2)) (c_out st.2) → arrives m) →
  ∃ r rd, c_out st.2 = c_out (cc_srv c).2 ++ [r; rd] ∧ m_Type rd = "ready" ∧ arrives rd ∧
    sendQuery parse now sql c = Some (Ok [through r; through rd], MkClient st [] None (tail (cc_wires c))).
Proof.
  intros Hu Hwh Hq Hnp st Harr. destruct (transmit_spec (queryMsg sql) c Hq Hwh Hnp) as (r & rd & Hout & Hrd & Hr & Ht).
  fold st in Hout, Ht. rewrite Hout, drop_app_length in Harr.
  assert (arrives r) as Ar by (apply Harr; left). assert (arrives rd) as Ard by (apply Harr; right; left).
  destruct (arrived_types r rd Ar Ard Hrd Hr) as [T1 T2]. exists r, rd. split; [done|]. split; [done|]. split; [done|].
  unfold sendQuery. rewrite Ht, Hu, !deliver_arrives by done. cbn [app readReady cc_unread cc_srv cc_broken].
  rewrite bool_decide_eq_false_2, bool_decide_eq_true_2 by done. done.
Qed.

(** The screen of a session of SQL lines. *)
Definition shown (replies : list Message) : list output := replies ≫= λ r, prompt :: printMessage (through r).
Definition screen (replies : list Message) : list output := shown replies ++ [prompt; println ""].
Definition pairs (rs : list (Message * Message)) : list Message := rs ≫= λ p, [p.1; p.2].

(** A line that is a SQL statement. *)
Definition sqlLine (line arg : string) : Prop :=
  TrimSpace line ≠ "" ∧ classifyLine (TrimSpace line) = (KSql, arg).

Lemma ready_prints m : m_Type m = "ready" → printMessage m = [].
Proof. intros H. unfold printMessage. by rewrite H. Qed.

Lemma replLine_sql line arg c r rd c' :
  sqlLine line arg → m_Type rd = "ready" → arrives rd →
  sendQuery parse now arg c = Some (Ok [through r; through rd], c') →
  replLine parse now line c = Some (printMessage (through r), c', true).
Proof.
  intros [Hne Hc] Hrd [_ Ard] Hs. unfold replLine. rewrite bool_decide_eq_false_2, Hc, Hs by done. cbn.
  rewrite (ready_prints (through rd)) by congruence. by rewrite !app_nil_r.
Qed.

Lemma serve_cons m ms st : serve parse now (m :: ms) st = serve parse now ms (dispatch parse now m st).
Proof. done. Qed.
Lemma dispatch_grows m st : ∃ l, c_out (dispatch parse now m st).2 = c_out st.2 ++ l.
Proof.
  pose proof (dispatch_answered parse now m st) as H. unfold answered in H. destruct (panics parse now m st).
  - exists []. rewrite app_nil_r. apply H.
  - destruct H as (r & -> & _). eauto.
Qed.
Lemma serve_grows ms st : ∃ l, c_out (serve parse now ms st).2 = c_out st.2 ++ l.
Proof.
  revert st. induction ms as [|m ms IH]; intros st; [exists []; by rewrite app_nil_r|].
  rewrite serve_cons. destruct (IH (dispatch parse now m st)) as [l ->].
  destruct (dispatch_grows m st) as [l0 ->]. rewrite <-app_assoc. eauto.
Qed.

(** A session of SQL lines up to any further lines. *)
Lemma replLoop_in_order (lines args : list string) (c : clientConn) :
  cc_unread c = [] → whole (length args) c → Forall2 sqlLine lines args →
  Forall (λ a, is_Ok (WriteFrame (queryMsg a))) args →
  no_panics ((through ∘ queryMsg) <$> args) (cc_srv c) →
  let st := serve parse now ((through ∘ queryMsg) <$> args) (cc_srv c) in
  (∀ m, m ∈ drop (length (c_out (cc_srv c).2)) (c_out st.2) → arrives m) →
  ∃ rs, c_out st.2 = c_out (cc_srv c).2 ++ pairs rs ∧ length rs = length args ∧
    Forall (λ p, m_Type p.2 = "ready") rs ∧
    ∀ more, replLoop parse now (lines ++ more) c =
      '(out, c') ← replLoop parse now more (MkClient st [] None (drop (length args) (cc_wires c)));
      Some (shown rs.*1 ++ out, c').
Proof.
  intros Hu Hwh Hl Hw. revert c Hu Hwh.
  induction Hl as [|line arg lines args Hline Hl IH]; intros c Hu Hwh Hnp; cbv zeta; intros Harr.
  { exists []. rewrite app_nil_r. destruct c as [srv u b ws], Hwh as [Hb _]. simpl in *. subst u b.
    split_and!; [done..|]. intros more. by destruct (replLoop parse now more _) as [[out c']|]. }
  apply Forall_cons in Hw as [Hq Hw]. destruct Hnp as [Hnp Hnps]. set (st1 := dispatch parse now (through (queryMsg arg)) (cc_srv c)).
  change (serve parse now ((through ∘ queryMsg) <$> arg :: args) (cc_srv c))
    with (serve parse now ((through ∘ queryMsg) <$> args) st1) in *.
  set (st := serve parse now ((through ∘ queryMsg) <$> args) st1) in *.
  pose proof (whole_mono 1 _ _ Hwh ltac:(simpl; lia)) as Hwh1.
  pose proof (whole_next _ _ Hwh) as [_ Hwh'].
  destruct (serve_grows ((through ∘ queryMsg) <$> args) st1) as [l Hgrow].
  destruct (transmit_spec (queryMsg arg) c Hq Hwh1 Hnp) as (r0 & rd0 & Hout0 & _). fold st1 in Hout0.
  assert (drop (length (c_out (cc_srv c).2)) (c_out st.2) = [r0; rd0] ++ l) as Hd.
  { fold st in Hgrow. rewrite Hgrow, Hout0, <-app_assoc. by rewrite drop_app_length. }
  rewrite Hd in Harr.
  destruct (sendQuery_in_sync arg c Hu Hwh1 Hq Hnp) as (r & rd & Hout & Hrd & Ard & Hs).
  { intros m. fold st1. rewrite Hout0, drop_app_length. intros Hm. apply Harr. by apply elem_of_app; left. }
  fold st1 in Hout, Hs. rewrite Hout0 in Hout. apply app_inv_head in Hout as [= -> ->].
  destruct (IH Hw (MkClient st1 [] None (tail (cc_wires c))) eq_refl (conj eq_refl Hwh') Hnps) as (rs & Hrs & Hlen & Hready & Hrepl).
  { intros m. cbn [cc_srv]. intros Hm. apply Harr. apply elem_of_app. right.
    fold st in Hm, Hgrow. by rewrite Hgrow, drop_app_length in Hm. }
  exists ((r, rd) :: rs). cbn [cc_srv cc_wires] in *. split; [|split; [simpl; by rewrite Hlen|split; [by constructor|]]].
  - fold st in Hrs. rewrite Hrs, Hout0. by rewrite <-app_assoc.
  - intros more. cbn [replLoop app]. rewrite (replLine_sql line arg c r rd _ Hline Hrd Ard Hs). cbn [mbind option_bind].
    rewrite (Hrepl more). fold st.
    assert (drop (length args) (tail (cc_wires c)) = drop (length (arg :: args)) (cc_wires c)) as ->
      by (destruct (cc_wires c); [apply drop_nil|done]).
    destruct (replLoop parse now more _) as [[out c']|]; [|done]. cbn. unfold shown. cbn. by rewrite <-app_assoc.
Qed.

(** C19: A session of the interactive client is in step with the server, if every
    line is a SQL statement (no meta-command), nothing is unread at the start, the
    connection carries all frames, no statement makes the server panic, and
    [WriteFrame] accepts every query and every reply (they fit a frame, with no NaN
    or infinity) and JSON keeps their types.  Then the server executes exactly
    these statements in order, the client prints its banner and then under each
    prompt the reply to the statement typed there, and nothing is left unread at
    the end. *)
Theorem repl_in_order (stdin : string) (args : list string) (c : clientConn) :
  cc_unread c = [] → whole (length args) c → Forall2 sqlLine (splitLines stdin).1 args →
  Forall (λ a, is_Ok (WriteFrame (queryMsg a))) args →
  no_panics ((through ∘ queryMsg) <$> args) (cc_srv c) →
  let st := serve parse now ((through ∘ queryMsg) <$> args) (cc_srv c) in
  (∀ m, m ∈ drop (length (c_out (cc_srv c).2)) (c_out st.2) → arrives m) →
  ∃ rs, c_out st.2 = c_out (cc_srv c).2 ++ pairs rs ∧ length rs = length args ∧
    Forall (λ p, m_Type p.2 = "ready") rs ∧
    repl parse now stdin c = Some (banner ++ screen rs.*1, MkClient st [] None (drop (length args) (cc_wires c))).
Proof.
  intros Hu Hwh Hl Hw Hnp st Harr. destruct (replLoop_in_order _ _ c Hu Hwh Hl Hw Hnp Harr) as (rs & H1 & H2 & H3 & H4).
  exists rs. split; [exact H1|]. split; [exact H2|]. split; [exact H3|]. unfold repl. specialize (H4 []).
  rewrite app_nil_r in H4. by rewrite H4.
Qed.

(** A frame [w] whose reply does not arrive to its end: the write fails, the
    connection breaks, when the server has handled the message or not, or the
    message makes the server panic ([panic]). *)
Definition loses (panic : bool) (w : wire) (served : bool) (e : error) : Prop :=
  w = Refused e ∧ served = false ∨ (∃ n, n < 2 ∧ w = Cut n served e) ∨
  panic = true ∧ w = Carried ∧ served = true ∧ e = errEOF.

Lemma sendQuery_lost sql c served e :
  cc_unread c = [] → cc_broken c = None →
  loses (panics parse now (through (queryMsg sql)) (cc_srv c)) (next_wire (cc_wires c)) served e →
  is_Ok (WriteFrame (queryMsg sql)) →
  let st := if served then dispatch parse now (through (queryMsg sql)) (cc_srv c) else cc_srv c in
  (∀ m, m ∈ drop (length (c_out (cc_srv c).2)) (c_out st.2) → arrives m) →
  ∃ c', sendQuery parse now sql c = Some (Err e, c') ∧ cc_srv c' = rollback st ∧ cc_broken c' = Some e.
Proof.
  intros Hu Hb Hl [fr Hfr] st Harr. unfold sendQuery, transmit. rewrite Hfr, Hb.
  pose proof (dispatch_answered parse now (through (queryMsg sql)) (cc_srv c)) as Ha. unfold answered in Ha.
  destruct Hl as [[-> ->]|[(n & Hn & ->)|(Hp & -> & -> & ->)]]; [by eexists| |].
  all: unfold answer; cycle 1.
  { rewrite Hp in Ha |- *. destruct Ha as [Hout _]. rewrite Hu, Hout, drop_ge by done. cbn. by eexists. }
  destruct served; cycle 1.
  { cbn. rewrite Hu. by eexists. }
  destruct (panics _ _ _ _).
  { destruct Ha as [Hout _]. rewrite Hu, Hout, drop_ge by done. cbn. rewrite take_nil. by eexists. }
  destruct Ha as (r & Hout & Hty & _).
  unfold st in Harr. rewrite Hout, drop_app_length in Harr |- *.
  assert (arrives r) as Ar by (apply Harr; by left). rewrite Hu. cbn [app].
  match goal with |- context [take n ?l] => set (u := take n l) end.
  assert (u = [] ∨ u = [through r]) as Hcut.
  { unfold u. cbn [mbind list_bind]. rewrite (deliver_arrives r Ar). destruct n as [|[|n]]; [by left|by right|lia]. }
  destruct Hcut as [-> | ->]; cbn [cc_unread cc_broken readReady]; [by eexists|].
  rewrite bool_decide_eq_false_2; [by eexists|]. destruct Ar as [_ ->]. intros H. rewrite H in Hty. set_solver.
Qed.

(** C20: A connection that breaks.  Every line up to the break is a SQL statement
    (no meta-command), nothing is unread at the start, the frames before carry, no
    statement before it makes the server panic, and [WriteFrame] accepts the
    queries and the replies written.  If then the reply to a statement does not
    arrive to its end, because the write fails, the connection breaks or this
    statement makes the server panic, the client has shown the replies to the
    statements before it, reports the error and ends; it executes none of the lines
    that follow.  The server, whether it has handled the last statement or not,
    keeps what was committed and drops the open transaction. *)
Theorem connection_lost (stdin : string) (before args : list string) (line arg : string) (after : list string)
    (c : clientConn) (served : bool) (e : error) :
  let before_st := serve parse now ((through ∘ queryMsg) <$> args) (cc_srv c) in
  cc_unread c = [] → whole (length args) c → no_panics ((through ∘ queryMsg) <$> args) (cc_srv c) →
  loses (panics parse now (through (queryMsg arg)) before_st) (next_wire (drop (length args) (cc_wires c))) served e →
  (splitLines stdin).1 = before ++ line :: after → Forall2 sqlLine before args → sqlLine line arg →
  Forall (λ a, is_Ok (WriteFrame (queryMsg a))) (args ++ [arg]) →
  let st := serve parse now ((through ∘ queryMsg) <$> args ++ (if served then [arg] else [])) (cc_srv c) in
  (∀ m, m ∈ drop (length (c_out (cc_srv c).2)) (c_out st.2) → arrives m) →
  ∃ rs c', pairs rs `prefix_of` drop (length (c_out (cc_srv c).2)) (c_out st.2) ∧ length rs = length args ∧
    repl parse now stdin c =
      Some (banner ++ shown rs.*1 ++ [prompt; Stderr "tsql: connection error: %v" [AErr e]], c') ∧
    cc_srv c' = rollback st ∧ (cc_srv c').1 = st.1.
Proof.
  intros before_st Hu Hwh Hnp Hlose Hlines Hl Hline [Hw [Hq _]%Forall_cons]%Forall_app. cbv zeta. rewrite fmap_app.
  unfold serve. rewrite foldl_app. fold (serve parse now ((through ∘ queryMsg) <$> args) (cc_srv c)).
  change (serve parse now ((through ∘ queryMsg) <$> args) (cc_srv c)) with before_st.
  set (st0 := before_st) in *.
  assert (foldl (λ st m, dispatch parse now m st) st0 ((through ∘ queryMsg) <$> (if served then [arg] else [])) =
    if served then dispatch parse now (through (queryMsg arg)) st0 else st0) as -> by by destruct served.
  set (st := if served then _ else _). intros Harr.
  destruct (serve_grows ((through ∘ queryMsg) <$> args) (cc_srv c)) as [l0 Hl0]. fold before_st st0 in Hl0.
  assert (∃ l, c_out st.2 = c_out st0.2 ++ l) as [l Hgrow].
  { unfold st. destruct served; [|exists []; by rewrite app_nil_r].
    apply dispatch_grows. }
  rewrite Hgrow, Hl0, <-app_assoc, drop_app_length in Harr |- *.
  destruct (replLoop_in_order before args c Hu Hwh Hl Hw Hnp) as (rs & Hrs & Hlen & _ & Hrepl).
  { fold before_st st0. rewrite Hl0, drop_app_length. intros m Hm. apply Harr. apply elem_of_app. by left. }
  fold before_st st0 in Hrs, Hrepl. rewrite Hl0 in Hrs. apply app_inv_head in Hrs as ->.
  destruct (sendQuery_lost arg (MkClient st0 [] None (drop (length args) (cc_wires c))) served e eq_refl eq_refl Hlose Hq)
    as (c' & Hs & Hsrv & _).
  { cbn [cc_srv]. fold st. rewrite Hgrow, drop_app_length. intros m Hm. apply Harr. apply elem_of_app. by right. }
  cbn [cc_srv] in Hsrv. fold st in Hsrv. exists rs, c'. split; [by apply prefix_app_r|]. split; [done|].
  split; [|split; [done|by rewrite Hsrv, rollback_engine]].
  unfold repl. rewrite Hlines, (Hrepl (line :: after)). cbn [replLoop]. destruct Hline as [Hne Hc].
  unfold replLine. rewrite bool_decide_eq_false_2, Hc, Hs by done. done.
Qed.

(** The exit status of [tsql -c]: 0 if the server's reply is no error, 1 if it is,
    2 if there is no connection. *)
Lemma main_one_shot cmd host port unixSock dial stdin c :
  (∀ net addr, dial net addr = Ok c) → cmd ≠ "" → cleanSQL cmd ≠ "" → cc_unread c = [] → whole 1 c →
  is_Ok (WriteFrame (queryMsg (cleanSQL cmd))) →
  panics parse now (through (queryMsg (cleanSQL cmd))) (cc_srv c) = false →
  (∀ m, m ∈ drop (length (c_out (cc_srv c).2))
     (c_out (dispatch parse now (through (queryMsg (cleanSQL cmd))) (cc_srv c)).2) → arrives m) →
  ∃ r rd, c_out (dispatch parse now (through (queryMsg (cleanSQL cmd))) (cc_srv c)).2 = c_out (cc_srv c).2 ++ [r; rd] ∧
    main parse now cmd host port unixSock dial stdin =
      Some (printMessage (through r), if bool_decide (m_Type r = "error") then 1%Z else 0%Z).
Proof.
  intros Hd Hc Hcl Hu Hwh Hq Hnp Harr.
  destruct (transmit_spec (queryMsg (cleanSQL cmd)) c Hq Hwh Hnp) as (r0 & rd0 & Hout0 & _ & Hty & _).
  destruct (sendQuery_in_sync _ c Hu Hwh Hq Hnp Harr) as (r & rd & Hout & Hrd & Ard & Hs).
  pose proof Hout0 as Heq. rewrite Hout in Heq. apply app_inv_head in Heq as [= <- <-].
  exists r, rd. split; [exact Hout|].
  assert (arrives r) as Ar by (apply Harr; rewrite Hout, drop_app_length; set_solver).
  destruct (arrived_types r rd Ar Ard Hrd Hty) as [T1 T2].
  unfold main. rewrite (bool_decide_eq_true_2 (cmd ≠ "")) by done.
  assert (runOnce parse now cmd c = Some (printMessage (through r), if bool_decide (m_Type r = "error") then 1%Z else 0%Z)) as H.
  { unfold runOnce. rewrite bool_decide_eq_false_2 by done. rewrite Hs. cbn [mbind option_bind].
    unfold printResults. cbn [mbind list_bind existsb]. rewrite (ready_prints _ T1), app_nil_r.
    destruct Ar as [_ ->]. rewrite T1. by case_bool_decide. }
  destruct (bool_decide (unixSock ≠ "")); by rewrite Hd.
Qed.

(** After [\dt] the client is one message behind.  [listTables] returns without
    reading the ready frame; the next query returns that stale frame at once,
    with nothing to print, and leaves its own reply for the query after it. *)
Theorem meta_command_falls_behind (sql : string) (c : clientConn) :
  cc_unread c = [] → whole 2 c → is_Ok (WriteFrame (askMsg "tables" "")) → is_Ok (WriteFrame (queryMsg sql)) →
  m_Type (through (askMsg "tables" "")) = "tables" →
  let st1 := dispatch parse now (through (askMsg "tables" "")) (cc_srv c) in
  let st2 := dispatch parse now (through (queryMsg sql)) st1 in
  panics parse now (through (queryMsg sql)) st1 = false →
  (∀ m, m ∈ drop (length (c_out (cc_srv c).2)) (c_out st2.2) → arrives m) →
  ∃ rd out r rd2,
    let c1 := MkClient st1 [through rd] None (tail (cc_wires c)) in
    listTables parse now c = Some (out, c1) ∧ m_Type rd = "ready" ∧
    c_out st2.2 = c_out st1.2 ++ [r; rd2] ∧
    sendQuery parse now sql c1 = Some (Ok [through rd], MkClient st2 [through r; through rd2] None (tail (tail (cc_wires c)))) ∧
    printResults [through rd] = ([], true).
Proof.
  intros Hu Hwh Ha Hq Hty st1 st2 Hnp Harr.
  assert (panics parse now (through (askMsg "tables" "")) (cc_srv c) = false) as Hnp1 by (unfold panics; by rewrite Hty).
  pose proof (whole_mono 1 _ _ Hwh ltac:(lia)) as Hwh1.
  destruct (whole_next 1 c Hwh) as [_ Hwh2].
  destruct (transmit_spec (askMsg "tables" "") c Ha Hwh1 Hnp1) as (t & rd & Hout & Hrd & Ht & Htr). fold st1 in Hout, Htr.
  destruct (transmit_spec (queryMsg sql) (MkClient st1 [through rd] None (tail (cc_wires c))) Hq (conj eq_refl Hwh2) Hnp)
    as (r & rd2 & Hout2 & Hrd2 & Hr & Htr2).
  cbn [cc_srv cc_unread cc_wires] in Hout2, Htr2. fold st2 in Hout2, Htr2.
  rewrite Hout2, Hout, <-app_assoc, drop_app_length in Harr.
  assert (arrives t ∧ arrives rd ∧ arrives r ∧ arrives rd2) as (A1 & A2 & A3 & A4).
  { assert (∀ m, m ∈ [t; rd; r; rd2] → arrives m) as H by exact Harr. clear -H. rewrite <-Forall_forall in H. by decompose_Forall_hyps. }
  assert (m_Type t = "tables") as Htt.
  { assert (c_out st1.2 = c_out (cc_srv c).2 ++ [msg_tables "tables" (td_Name <$> Engine.Catalog (cc_srv c).1);
      msg_ready (match c_txn (cc_srv c).2 with Some _ => "in-txn" | None => "idle" end)]) as Hst.
    { unfold st1, dispatch. rewrite Hty. rewrite bool_decide_eq_false_2, bool_decide_eq_true_2 by done.
      unfold ready, send. cbn [fst snd c_out c_txn]. by rewrite <-app_assoc. }
    rewrite Hst in Hout. apply app_inv_head in Hout. by injection Hout as <- _. }
  destruct (arrived_types t rd A1 A2 Hrd Ht) as [T1 T2].
  eexists rd, _, r, rd2. split; [|split; [done|split; [done|split]]].
  - unfold listTables, ask. rewrite Htr, Hu, !deliver_arrives by done. cbn [app readWanted cc_unread cc_srv cc_broken].
    unfold printNames at 1. rewrite bool_decide_eq_true_2 by (destruct A1 as [_ ->]; done). cbn. reflexivity.
  - unfold sendQuery. rewrite Htr2, !deliver_arrives by done. cbn [app readReady cc_unread cc_srv cc_broken].
    rewrite bool_decide_eq_true_2 by done. done.
  - unfold printResults. cbn [mbind list_bind existsb]. rewrite ready_prints, T1 by done. done.
Qed.
End conversation.

(** ** The printed table *)
Lemma str_repeat_length c n : slen (str_repeat (String c EmptyString) n) = n.
Proof. induction n as [|n IH]; [done|]. cbn [str_repeat]. rewrite slen_app, IH. done. Qed.

Lemma Join_length l sp : slen (Join l sp) = sum_list (slen <$> l) + slen sp * (length l - 1).
Proof.
  induction l as [|x [|y l] IH]; [simpl; lia|simpl; lia|].
  change (Join (x :: y :: l) sp) with (x +:+ sp +:+ Join (y :: l) sp). rewrite !slen_app, IH.
  cbn [fmap list_fmap sum_list length]. rewrite !Nat.sub_succ, !Nat.sub_0_r, Nat.mul_succ_r. unfold sum_list. cbn [fmap list_fmap sum_list_with id]. lia.
Qed.

Lemma joinPaddedFrom_widths cells widths w0 :
  Forall2 (λ s w, slen s ≤ w) cells widths →
  slen <$> joinPaddedFrom (length w0) cells (w0 ++ widths) = widths.
Proof.
  intros H. revert w0. induction H as [|s w cells widths Hs _ IH]; intros w0; [done|].
  cbn [joinPaddedFrom fmap list_fmap]. rewrite lookup_app_r, Nat.sub_diag by lia. cbn [lookup list_lookup].
  f_equal.
  - destruct (Nat.ltb_spec (slen s) w); [|lia]. rewrite slen_app, str_repeat_length. lia.
  - specialize (IH (w0 ++ [w])). rewrite length_app, <-app_assoc in IH. exact IH.
Qed.
Lemma joinPaddedFrom_length i cells widths : length (joinPaddedFrom i cells widths) = length cells.
Proof. revert i. induction cells as [|s cells IH]; intros i; [done|]. simpl. by rewrite IH. Qed.

Lemma joinPadded_length cells widths :
  Forall2 (λ s w, slen s ≤ w) cells widths →
  slen (joinPadded cells widths) = sum_list widths + 3 * (length widths - 1).
Proof.
  intros H. unfold joinPadded. rewrite Join_length, joinPaddedFrom_length.
  pose proof (joinPaddedFrom_widths _ _ [] H) as Hw. cbn [length app] in Hw. rewrite Hw.
  by rewrite (Forall2_length _ _ _ H).
Qed.

Lemma widen_ge ws cells : length cells = length ws →
  Forall2 le ws (widen ws cells) ∧ Forall2 (λ s w, slen s ≤ w) cells (widen ws cells).
Proof.
  revert ws. induction cells as [|s cells IH]; intros [|w ws] H; try done.
  destruct (IH ws ltac:(simpl in H; lia)) as [H1 H2]. cbn [widen zip_with].
  destruct (Nat.leb_spec (slen s) w); split; constructor; try done; lia.
Qed.

Lemma widths_ge cells ws : Forall (λ r, length r = length ws) cells →
  Forall2 le ws (foldl widen ws cells) ∧ Forall (λ r, Forall2 (λ s w, slen s ≤ w) r (foldl widen ws cells)) cells.
Proof.
  revert ws. induction cells as [|r cells IH]; intros ws H; [split; [apply Forall_Forall2_diag, Forall_true; intros; lia|done]|].
  apply Forall_cons in H as [Hr Hc]. destruct (widen_ge ws r Hr) as [H1 H2]. cbn [foldl].
  assert (length (widen ws r) = length ws) as Hlen by (symmetry; by eapply Forall2_length).
  destruct (IH (widen ws r)) as [H3 H4]; [by rewrite Hlen|].
  split; [eapply Forall2_trans; [|exact H1|exact H3]; simpl; intros; lia|]. constructor; [|done].
  eapply Forall2_trans; [|exact H2|exact H3]. simpl. intros. lia.
Qed.

(** The printed table is aligned: the header and every row have the same
    length, the widths of the columns plus the separators, and no cell is cut:
    each column is as wide as its header and its widest cell.  (The rule under
    the header is narrower: it joins the columns by one dash where the rows have
    three characters.) *)
Theorem table_aligned (cols : list string) (rows : list (list any)) :
  let cells := cellsOf cols <$> rows in
  let widths := widthsOf cols cells in
  let width := sum_list widths + 3 * (length cols - 1) in
  ∃ header rule body, tableLines cols rows = header :: rule :: body ∧
    length body = length rows ∧ Forall (λ l, slen l = width) (header :: body) ∧
    slen rule = sum_list widths + (length cols - 1) ∧
    Forall2 (λ s w, slen s ≤ w) cols widths ∧ Forall (λ r, Forall2 (λ s w, slen s ≤ w) r widths) cells.
Proof.
  intros cells widths width.
  assert (Forall (λ r, length r = length (String.length <$> cols)) cells) as Hlen.
  { apply Forall_fmap, Forall_true. intros r. unfold compose, cellsOf. by rewrite !length_fmap, length_seq. }
  destruct (widths_ge cells (String.length <$> cols) Hlen) as [H1 H2]. change (foldl widen (String.length <$> cols) cells) with widths in *.
  assert (length widths = length cols) as Hw.
  { pose proof (Forall2_length _ _ _ H1) as Hl. by rewrite length_fmap in Hl. }
  assert (Forall2 (λ s w, slen s ≤ w) cols widths) as Hc by (rewrite Forall2_fmap_l in H1; exact H1).
  eexists _, _, _. split; [reflexivity|]. split; [by rewrite !length_fmap|]. fold cells widths.
  split; [|split; [|done]].
  - unfold width. rewrite <-Hw. constructor; [by apply joinPadded_length|].
    apply Forall_fmap. eapply Forall_impl; [exact H2|]. intros r Hr. by apply joinPadded_length.
  - rewrite Join_length, length_fmap, Hw, <-list_fmap_compose.
    assert (slen ∘ str_repeat "-" <$> widths = widths) as ->.
    { rewrite <-(list_fmap_id widths) at 2. apply list_fmap_ext. intros i w _. apply str_repeat_length. }
    simpl. lia.
Qed.

(** ** The examples of the client's tests *)
Definition backslash (s : string) : string := String (ascii_of_nat 92) s.
Example classify_tests :
  classifyLine <$> [backslash "q"; "EXIT"; backslash "dt"; "/dn"; backslash "l+"; backslash "d"; backslash "d+ users";
                    backslash "help"; backslash "bogus"; "SELECT * FROM t;"; "select count(*) from t;;"; ";"; "   "]
  = [(KQuit, ""); (KQuit, ""); (KTables, ""); (KTables, ""); (KDatabases, ""); (KDescribe, ""); (KDescribe, "users");
     (KHelp, ""); (KUnknown, "bogus"); (KSql, "SELECT * FROM t"); (KSql, "select count(*) from t"); (KNoop, ""); (KNoop, "")].
Proof. vm_compute. reflexivity. Qed.

(** An integer column: through JSON the numbers are floats, and from a million
    on they are printed with an exponent. *)
Example big_ids_lose_digits :
  tableLines ["id"; "name"] [[AFloat (f64_of_int 7); AText "a"]; [AFloat (f64_of_int 1234567); ANil];
                             [AFloat (f64_of_int 9007199254740993); AText "b"]]
  = ["id                    | name"; "--------------------------";
     "7                     | a   "; "1.234567e+06          |     ";
     "9.007199254740992e+15 | b   "].
Proof. vm_compute. reflexivity. Qed.
