(* ===== verification/ClientDemo.v ===== *)
(** * Sessions of the client

    The client, the wire protocol, the server, the parser and the engine together:
    the lines typed at the terminal and what is printed, on connections that hold
    and that break.  The JSON codec here
    carries the type of a message, the text of a query and the transaction
    status, which is enough for these sessions. *)
From S2P Require Import Prelude Bytes GoStd Types Schema Wal Table Engine Txn Accessor Ast Eval Exec ExecDemo.
From S2P Require Import Select SelectDemo Lexer Parser Protocol Server Client.

(** ** The codec *)
Definition tags : list (string * string) :=
  [("query", "Q"); ("ready", "R"); ("ok", "O"); ("error", "E"); ("result", "S"); ("tables", "T");
   ("databases", "D"); ("describe", "C")].
Definition tagOf (type : string) : option string := snd <$> find (λ p, bool_decide (p.1 = type)) tags.
Definition typeOf (tag : string) : option string := fst <$> find (λ p, bool_decide (p.2 = tag)) tags.

Lemma tag_type type tag : tagOf type = Some tag → typeOf tag = Some type ∧ ∃ c, tag = String c EmptyString.
Proof.
  unfold tagOf. simpl. repeat (case_bool_decide as H; [subst; intros [= <-]; split; [reflexivity|eexists; reflexivity]|clear H]).
  done.
Qed.

Definition carried (m : Message) : Message :=
  if bool_decide (m_Type m = "query") then queryMsg (m_SQL m)
  else MkMessage (m_Type m) "" "" [] [] 0 "" (AStr "") (m_Txn m) [].
Definition bodyText (m : Message) : string := if bool_decide (m_Type m = "query") then m_SQL m else m_Txn m.

#[export] Program Instance tag_json : Json := {|
  Marshal m := match tagOf (m_Type m) with
               | Some tag => Ok (String.list_byte_of_string (tag +:+ bodyText m))
               | None => Err (Errorf "unsupported type" [])
               end;
  Unmarshal b := match String.string_of_list_byte b with
                 | String c s =>
                     match typeOf (String c EmptyString) with
                     | Some type =>
                         Ok (if bool_decide (type = "query") then queryMsg s
                             else MkMessage type "" "" [] [] 0 "" (AStr "") s [])
                     | None => Err (Errorf "unknown tag" [])
                     end
                 | EmptyString => Err (Errorf "unexpected end" [])
                 end;
  through := carried |}.
Next Obligation.
  intros m b. simpl. destruct (tagOf (m_Type m)) as [tag|] eqn:E; [|done]. intros [= <-].
  destruct (tag_type _ _ E) as [Ht [c ->]]. rewrite String.string_of_list_byte_of_string.
  change (String c EmptyString +:+ bodyText m) with (String c (bodyText m)). cbv beta iota. rewrite Ht.
  unfold carried, bodyText. by case_bool_decide.
Qed.

(** ** Sessions *)
Definition start : clientConn := MkClient (blog, MkConn None []) [] None [].

(** Lines with their ends. *)
Definition text (lines : list string) : string := fold_right (λ l s, l +:+ newline +:+ s) "" lines.
Definition demo_lines : string :=
  text ["begin;"; "  INSERT INTO users VALUES (3, 'c') ; "; "commit"; "SELECT 1 +"].
Definition demo_args : list string :=
  ["begin"; "INSERT INTO users VALUES (3, 'c')"; "commit"; "SELECT 1 +"].
Definition demo_end : Srv := serve Parse VNull ((carried ∘ queryMsg) <$> demo_args) (blog, MkConn None []).

Lemma repl_in_order_witness :
  Engine.Get "users" 3 demo_end.1 = Some [VInt 3; VText "c"] ∧
  (m_Type <$> c_out demo_end.2) = ["ok"; "ready"; "ok"; "ready"; "ok"; "ready"; "error"; "ready"] ∧
  ∃ rs : list (Message * Message), c_out demo_end.2 = pairs rs ∧
    repl Parse VNull demo_lines start = Some (banner ++ screen rs.*1, MkClient demo_end [] None []).
Proof.
  split; [vm_compute; reflexivity|]. split; [vm_compute; reflexivity|].
  destruct (repl_in_order Parse VNull demo_lines demo_args start) as (rs & Hout & _ & _ & Hrepl).
  - reflexivity.
  - by split.
  - repeat constructor; vm_compute; congruence.
  - repeat constructor; eexists; vm_compute; reflexivity.
  - repeat (split; [vm_compute; reflexivity|]). exact I.
  - intros m Hm. vm_compute in Hm. apply list_elem_of_In in Hm.
    repeat (destruct Hm as [<-|Hm]; [split; [eexists; vm_compute; reflexivity|vm_compute; reflexivity]|]). by destruct Hm.
  - exists rs. by split.
Defined.

(** The connection breaks at COMMIT, the third line, and the fourth is not sent.
    Both ways of breaking look the same to the user: in the first the transaction
    is committed, in the second it is gone. *)
Definition broken (served : bool) : clientConn :=
  MkClient (blog, MkConn None []) [] None [Carried; Carried; Cut 1 served errEOF].
Definition lost_lines : string :=
  text ["begin;"; "  INSERT INTO users VALUES (3, 'c') ; "; "commit"; "DELETE FROM users"].

Definition ended (line : string) : string := line +:+ newline.
Definition lost_end : Srv := serve Parse VNull ((carried ∘ queryMsg) <$> ["begin"; "INSERT INTO users VALUES (3, 'c')"; "commit"]) (blog, MkConn None []).

Lemma connection_lost_witness :
  ∃ shown_before c',
    repl Parse VNull lost_lines (broken true) =
      Some (banner ++ shown_before ++ [prompt; Stderr "tsql: connection error: %v" [AErr errEOF]], c') ∧
    (cc_srv c').1 = lost_end.1 ∧ Engine.Get "users" 3 lost_end.1 = Some [VInt 3; VText "c"].
Proof.
  destruct (connection_lost Parse VNull lost_lines (ended <$> ["begin;"; "  INSERT INTO users VALUES (3, 'c') ; "])
    ["begin"; "INSERT INTO users VALUES (3, 'c')"] (ended "commit") "commit" [ended "DELETE FROM users"] (broken true) true errEOF)
    as (rs & c' & _ & _ & Hrepl & _ & He).
  - reflexivity.
  - split; [reflexivity|repeat constructor].
  - repeat (split; [vm_compute; reflexivity|]). exact I.
  - right. left. exists 1. split; [lia|reflexivity].
  - reflexivity.
  - repeat constructor; vm_compute; congruence.
  - split; vm_compute; congruence.
  - repeat constructor; eexists; vm_compute; reflexivity.
  - intros m Hm. vm_compute in Hm. apply list_elem_of_In in Hm.
    repeat (destruct Hm as [<-|Hm]; [split; [eexists; vm_compute; reflexivity|vm_compute; reflexivity]|]). by destruct Hm.
  - exists (shown rs.*1), c'. split; [exact Hrepl|]. split; [exact He|]. vm_compute. reflexivity.
Defined.

(** The same screen when the server has closed the connection before COMMIT. *)
Example lost_either_way :
  let stored served := match repl Parse VNull lost_lines (broken served) with
    | Some (out, c) => (last out, Engine.Get "users" 3 (cc_srv c).1)
    | None => (None, None)
    end in
  let said := Some (Stderr "tsql: connection error: %v" [AErr errEOF]) in
  stored true = (said, Some [VInt 3; VText "c"]) ∧ stored false = (said, None).
Proof. vm_compute. split; reflexivity. Qed.

(** A statement that makes the server panic: the client reports the end of the
    connection and the lines that follow are not executed; the row inserted before
    is kept. *)
Definition panic_sql : string := "SELECT c FROM (SELECT id, email, id AS c FROM users WHERE id = 99) posts".
Example panic_ends_session :
  let said := Some (Stderr "tsql: connection error: %v" [AErr errEOF]) in
  panics Parse VNull (queryMsg panic_sql) (blog, MkConn None []) = true ∧
  match repl Parse VNull (text ["INSERT INTO users VALUES (3, 'c')"; panic_sql; "DELETE FROM users WHERE id = 3"]) start with
  | Some (out, c) => (last out, Engine.Get "users" 3 (cc_srv c).1) = (said, Some [VInt 3; VText "c"])
  | None => False
  end.
Proof. vm_compute. split; reflexivity. Qed.

(** BEGIN: on the wire, its reply and then [ready]. *)
Lemma dispatch_replies_witness :
  ∃ r, c_out (dispatch Parse VNull (queryMsg "begin") (blog, MkConn None [])).2 = [r; msg_ready "in-txn"] ∧
    m_Type r = "ok" ∧ wire_reads [r; msg_ready "in-txn"] [through r; through (msg_ready "in-txn")].
Proof.
  pose proof (dispatch_replies Parse VNull (queryMsg "begin") (blog, MkConn None [])) as H.
  assert (panics Parse VNull (queryMsg "begin") (blog, MkConn None []) = false) as Hp by (vm_compute; reflexivity).
  rewrite Hp in H. cbv zeta in H. destruct H as (r & Hout & _ & _ & Hw & _).
  assert (c_out (dispatch Parse VNull (queryMsg "begin") (blog, MkConn None [])).2 = [msg_ok 0; msg_ready "in-txn"]) as Ho
    by (vm_compute; reflexivity).
  assert (match c_txn (dispatch Parse VNull (queryMsg "begin") (blog, MkConn None [])).2 with
          | Some _ => "in-txn" | None => "idle" end = "in-txn") as Ht by (vm_compute; reflexivity).
  rewrite Ht in Hw. rewrite Ho in Hout |- *. injection Hout as <-. exists (msg_ok 0).
  split; [reflexivity|]. split; [reflexivity|]. apply Hw; eexists; vm_compute; reflexivity.
Defined.

(** After [\dt] every query shows the reply to the one before it. *)
Example replies_come_late :
  let run lines := match replLoop Parse VNull lines start with Some (out, c) => (length out, m_Type <$> cc_unread c) | None => (0, []) end in
  run ["begin"] = (4, []) ∧ run [backslash "dt"; "begin"] = (5, ["ok"; "ready"]) ∧
  run [backslash "dt"; "begin"; "rollback"] = (7, ["ok"; "ready"]).
Proof. vm_compute. repeat split. Qed.

(** The text after the last newline is read and thrown away: a statement that is
    piped in without one is not sent. *)
Example last_line_dropped :
  splitLines "begin" = ([], "begin") ∧
  repl Parse VNull "begin" start = Some (banner ++ [prompt; println ""], start).
Proof. split; [reflexivity|]. unfold repl. vm_compute. reflexivity. Qed.

(** One statement on the command line, and no server to send it to. *)
Example one_shot_status :
  let dial c := λ net addr, if bool_decide (net = "tcp" ∧ addr = "127.0.0.1:5433") then c else Err ErrIO in
  let run sql c := snd <$> main Parse VNull sql "127.0.0.1" 5433 "" (dial c) "" in
  run "begin" (Ok start) = Some 0%Z ∧ run "commit;" (Ok start) = Some 1%Z ∧
  run "begin" (Err ErrIO) = Some 2%Z ∧
  snd <$> main Parse VNull "begin" "127.0.0.1" 5433 "/run/tsql.sock" (dial (Ok start)) "" = Some 2%Z.
Proof. vm_compute. split_and!; reflexivity. Qed.
